(* ===== verification/_CoqProject ===== *)
-Q . S2P
Prelude.v
Align.v
Stateful.v
Str.v
Num.v
Doc.v
DocEdit.v
Ip.v
Diff.v
Diag.v
Version.v
Config.v
LineModule.v
Conformance.v
Hosts.v
Chrony.v
AuthErr.v
Time.v
CredFile.v
RateLimit.v
TokenLimit.v
Coalesce.v
Base32.v
Totp.v
Session.v
AuditLog.v
AuditDemo.v
Disk.v
Atomic.v
AtomicSafe.v
Restore.v
Utf8.v
Tokens.v
Users.v
Nfs.v
Samba.v
Descriptor.v
Proto.v
Transport.v
Client.v
Allow.v
ExecDeny.v
ModuleGate.v
SambaGate.v
Mounts.v
Modules.v
Hooks.v
Monitor.v
MonitorLogic.v
Frames.v
MountRun.v
MonitorDemo.v
MountDemo.v
Confine.v
Recover.v
Commit.v
Undo.v
Ops.v
Engine.v
EngineSafe.v
EngineApply.v
EngineProps.v
EngineStore.v
Wired.v
Merkle.v
Der.v
Bundle.v
Trust.v
Tsa.v
Verify.v
Policy.v
Csrf.v
Web.v
Routes.v
RouteSafe.v
SignIn.v
RouteProps.v
RouteDemo.v
EngineDemo.v
