(* ===== verification/Prelude.v ===== *)
(** * detent: verification library

    detent edits the configuration files of a host through typed modules. A
    browser, a command line or an agent sends an operation; an unprivileged
    process validates it, renders the new file and shows the difference; a small
    privileged process, the monitor, writes the file, keeps a backup, runs
    validators, acts on services and takes the change back when it is not
    confirmed in time. This library models the core of the program and proves
    what makes it correct. [X.v] below is a file of this library; paths are under
    [src/crates].

    ** The parts, and where they are

    The document and its edits ([detent-core]). [Str.v], [Num.v], [Time.v],
    [Utf8.v] and [Ip.v] model what the code uses of Rust: text as lists of code
    points, integers with their width, saturation and wrap-around, clocks and
    durations, poisoned locks, hash maps with an arbitrary iteration order,
    UTF-8 with its maximal-subpart replacement, [std::net]. [Align.v] is the
    bounded Myers search of [align.rs]; [Doc.v] the lossless line document and
    the entry plans of [doc.rs]; [DocEdit.v] the entry editor against a format's
    codec; [Diag.v], [Version.v], [Descriptor.v] are [diag.rs], [version.rs] and
    [descriptor.rs]; [Config.v] is [ConfigModule] of [module.rs] with its
    documented laws as a class, and the JSON adapter over it.

    Modules. [LineModule.v] is what the line-oriented modules share and states
    the laws of [Config] from a format's parser and printer; [Conformance.v] is
    the kit of [detent-core/src/conformance.rs] with the theorem that a lawful
    module passes it. [Hosts.v], [Chrony.v], [Nfs.v], [Mounts.v] and [Samba.v] are
    the modules of those names under [modules]: entry codec, validation,
    defaults, and the laws of [Config] discharged. [Modules.v] gathers them;
    [ModuleGate.v] and [SambaGate.v] join them to the monitor's content gate.

    The monitor ([detent-platform]). [Disk.v] is the file system: a map of
    paths, system calls that a fault oracle may refuse or cut short, and the
    list of every disk that could be seen in between, so that a crash is any
    member of that list. [Atomic.v] is [fs/atomic.rs]; [AtomicSafe.v] and
    [Restore.v] prove it. [Proto.v] and [Transport.v] are [privsep/proto.rs] and
    [privsep/transport.rs]; [Allow.v] is [privsep/allowlist.rs]; [ExecDeny.v] is
    [privsep/exec_deny.rs]; [Hooks.v] and [Monitor.v] are [privsep/monitor.rs],
    the hooks being oracles that leave a trace. [MountRun.v] is
    [privsep/mounts.rs], the runner of mount units ([MountDemo.v] a run of it).
    [MonitorLogic.v] is a logic of
    triples for the monitor, [Frames.v] says where file operations write;
    [Confine.v], [Recover.v], [Commit.v] and [Undo.v] hold the theorems.
    [MonitorDemo.v] is a small host that runs.

    The engine ([detent-ops]). [Diff.v] is [diff.rs]. [Stateful.v] is the state
    and error monad of the operations layer with a logic of the events it
    appends. [Client.v] is [privsep/worker.rs]; it talks to any instance of the
    class [Peer]. [Ops.v] holds operations, callers, errors, reports and the
    audit sinks, with the scopes of [detent-web/src/authz.rs]; [Engine.v] is
    [engine.rs], over any peer, audit sink, modules, clock and certificate front
    end. [EngineSafe.v], [EngineApply.v], [EngineProps.v] prove what the engine
    asks for and writes down. [EngineStore.v] states in the class [TargetStore]
    what it needs of the other end; [Wired.v] puts the monitor there and proves
    that it gives it. [EngineDemo.v] runs the composed system, from the JSON of a
    model to the bytes on the disk. [AuditLog.v] is [audit.rs] ([AuditDemo.v] a
    concrete codec).

    Authentication ([detent-web/src]). [AuthErr.v], [Base32.v], [Totp.v],
    [RateLimit.v], [TokenLimit.v], [Coalesce.v] and [Session.v] are the files of
    those names under [auth]. [CredFile.v] is the part [users.rs] and [token.rs]
    share, a table over a file that other processes write too; [Users.v] and
    [Tokens.v] are the two stores with [password.rs] and [auth/mod.rs]. [Csrf.v]
    is [csrf.rs]; [Web.v] holds the shared state of [state.rs], the records of
    [audit.rs], the answers of [error.rs] and the extractors of [extract.rs];
    [Routes.v] the sixteen handlers of [routes.rs], [stepup.rs], [enrolment.rs],
    [sessions.rs], [tokens.rs] and [notices.rs], composed with the guard into
    [serve]. [RouteSafe.v] says what each step keeps, [SignIn.v] what a sign-in
    installs, [RouteProps.v] holds the theorems, and [RouteDemo.v] runs the routes
    against a concrete host.

    The updater ([detent-update]). [Merkle.v], [Der.v] and [Verify.v] are
    [verify.rs]: the root of an inclusion path against the tree hash of RFC 9162,
    the DER it reads and writes, and the verification of a release; [Bundle.v] is
    [bundle.rs], [Trust.v] [trust.rs], [Tsa.v] [tsa.rs] and [Policy.v] [policy.rs].
    Certificates, signatures, digests, base64 and JSON are the class [Crypto].

    ** What the theorems show

    Document and modules: parsing loses nothing; every document reached by edits
    is the parse of its own text; an edit changes the entries it is asked to and
    nothing else; the alignment is sound, shortest, and gives up exactly at its
    bound; a diff applied to the old text gives the new one; a lawful module
    reads back the model it applied.

    Files: at every moment of a write, whatever fails, the target is old, new, or
    covered by a marker that recovery understands; a restore undoes a write;
    a write cut off anywhere is recovered by the next monitor.

    Monitor: it is confined to the allow-list; without the state lock it changes
    nothing; the marker on the disk follows the pending commit; a commit of any
    number of writes that is not confirmed is taken back on every path, whatever
    calls fail, also by a restart; the gate sees
    every directive that runs programs; the tables are exactly what is declared;
    a message crosses the channel whole.

    Engine: nothing changes before a record of it is kept; a caller that may only
    read changes nothing; a write is made only of what was read, validated and
    checked; a journaled write is armed at once or undone; over the monitor, what
    was applied is what is shown.

    Web: lockouts, budgets and sessions keep their bounds; one-time codes are
    accepted once; the audit log survives crashes, but for a rotation of a log
    without a whole record, which the theorem shows to break it, and its queries
    are exact. The
    stores refine a table of accounts and a table of tokens whatever other
    processes write, and a removed, disabled or changed account loses its
    sessions. No route but the login answers without a live session, and a write
    without a page that knows its CSRF token; a login answers only for the
    account, password and code it was given, and a refused one says one thing;
    every session traces back to a login; a change of a credential ends the
    sessions of the account; a read changes nothing.

    Updater: an accepted bundle shows that the release workflow signed the file, at
    a time somebody attested, and that a public log holds the signature, unless
    SHA-256 has a collision on the path; an inclusion path is answered and exact
    up to 2^63 entries; no release is chosen when a newer one may be.

    ** Conventions

    A Rust error is [Err]; a computation that mutates keeps its changes when it
    fails. A [String] is a list of code points, and where a theorem needs them to
    be Unicode it says so. Hash maps iterate in any order ([Iteration]). A
    poisoned [Mutex] is [None]. Third-party code is a parameter: serde_json (with
    "what was serialised is read back"), postcard, semver, SHA-256 and HMAC,
    Argon2, [HeaderValue::from_str], [char::to_lowercase], tempfile's names, the
    clock, the random generator; every theorem that relies
    on such a law has a witness at a concrete instance.

    Fuel: where the code loops without a structural measure the model recurses on
    a bound it cannot exceed, and the results are proved for that bound: the
    length of the old side for a snake, the diagonals of one round for a scan,
    the bits of the input for Base32, the file position for the audit log's
    backward reader, the length of the log for its queries, sixteen levels of
    schema as in the code, sixty-four digits for a number. The names [tempfile]
    tries are a parameter; the serve loop runs over the list of its turns, with
    the peer gone at the end.

    The authentication routes. A [Platform] fixes the host: its stores' files with
    the writes of other processes ([meddle]), the Argon2 and HMAC functions, the
    policy of the configuration. An [Env] is one request: its headers, the clock
    at each place the code reads it, the random values it draws, and [meanwhile],
    what other requests do to the shared state while the request waits for the
    hashing pool. A theorem that needs a quiet host says so; [login_overtaken],
    [rehash_race] and [load_race] are the runs in which one that is not quiet
    shows a defect, and the manifest lists them.

    ** Not modelled

    What the theorems assume is in their comments. The ones that bear on use: the
    recovery at start-up trusts the marker files it finds, so what they name is
    written even off the allow-list ([left_over] in Confine.v); no target is the
    commit marker; and what is stated after a history of a credential store holds
    when no other process writes in the middle of one operation.

    Symlinked parent directories, writers other than the monitor between its
    system calls, and the reordering of writes across a missing [fsync]; the
    processes themselves (fork, sockets, seccomp, Landlock); the HTTP server, its
    TLS and its pages; localisation; the conformance macros, which are test code.
    The manifest lists every component with its state.

    Of the web server the handlers of [api] (they decode a request, call the
    engine and encode its report), the server loop and the pages are left out;
    of authentication the file sink of its log and the sweeper thread. The
    download, the swap of the binary and the health probe of the updater are I/O
    around the verifier and the policy; ACME is a protocol over the network; the
    command line, MCP and the C ABI are front ends that call
    the engine. The network, dhcp and resolver modules read formats of their own
    (netplan, systemd-networkd, Kea and dnsmasq, resolved, unbound) and are the parts of the
    core that remain. *)

From Stdlib Require Export Lia Bool.
From stdpp Require Export prelude.

(** ** Results: Rust's [Result<A, E>]. *)

Inductive result (E A : Type) : Type :=
| Ok (a : A)
| Err (e : E).
Arguments Ok {E A} _.
Arguments Err {E A} _.

#[export] Instance result_ret E : MRet (result E) := fun _ a => Ok a.
#[export] Instance result_bind E : MBind (result E) := fun _ _ f r =>
  match r with Ok a => f a | Err e => Err e end.
#[export] Instance result_fmap E : FMap (result E) := fun _ _ f r =>
  match r with Ok a => Ok (f a) | Err e => Err e end.

#[export] Instance result_eq_dec {E A} `{EqDecision E, EqDecision A} : EqDecision (result E A).
Proof. solve_decision. Defined.

Lemma result_bind_ok {E A B} (f : A -> result E B) (r : result E A) (b : B) :
  (r ≫= f) = Ok b <-> exists a, r = Ok a /\ f a = Ok b.
Proof. destruct r; simpl; split; naive_solver. Qed.

Definition is_ok {E A} (r : result E A) : bool := match r with Ok _ => true | Err _ => false end.

(** A result computed to be [Ok], without computing its value. *)
Lemma is_ok_inv {E A} (r : result E A) : is_ok r = true -> exists a, r = Ok a.
Proof. destruct r; [eauto|done]. Qed.

(** [unwrap_or]: the value of a result, or a default. *)
Definition unwrap_or {E A} (r : result E A) (d : A) : A :=
  match r with Ok a => a | Err _ => d end.

(** A computation that is known to succeed gives its value. *)
Lemma unwrap_pair {E A B} (r : result E (A * B)) d : is_ok r = true -> r = Ok ((unwrap_or r d).1, (unwrap_or r d).2).
Proof. by destruct r as [[]|]. Qed.

(** ** Lists *)

Lemma length_omap_le {A B} (f : A -> option B) (l : list A) : (length (omap f l) <= length l)%nat.
Proof. induction l as [|x l IH]; [simpl; lia|]. csimpl. destruct (f x); simpl; lia. Qed.

(** ** Automation shared by every component. *)

Create HintDb detent.

(** Case analysis on every boolean test of the hypotheses and the goal,
    turning each into the proposition it decides. *)
Ltac bool_to_prop :=
  repeat match goal with
  | H : (_ && _) = true |- _ => apply andb_true_iff in H as [? ?]
  | H : (_ && _) = false |- _ => apply andb_false_iff in H
  | H : (_ || _) = true |- _ => apply orb_true_iff in H
  | H : (_ || _) = false |- _ => apply orb_false_iff in H as [? ?]
  | H : negb _ = true |- _ => apply negb_true_iff in H
  | H : negb _ = false |- _ => apply negb_false_iff in H
  | H : (_ =? _)%nat = true |- _ => apply Nat.eqb_eq in H
  | H : (_ =? _)%nat = false |- _ => apply Nat.eqb_neq in H
  | H : (_ <? _)%nat = true |- _ => apply Nat.ltb_lt in H
  | H : (_ <? _)%nat = false |- _ => apply Nat.ltb_ge in H
  | H : (_ <=? _)%nat = true |- _ => apply Nat.leb_le in H
  | H : (_ <=? _)%nat = false |- _ => apply Nat.leb_gt in H
  | H : (_ =? _)%Z = true |- _ => apply Z.eqb_eq in H
  | H : (_ =? _)%Z = false |- _ => apply Z.eqb_neq in H
  | H : (_ <? _)%Z = true |- _ => apply Z.ltb_lt in H
  | H : (_ <? _)%Z = false |- _ => apply Z.ltb_ge in H
  | H : (_ <=? _)%Z = true |- _ => apply Z.leb_le in H
  | H : (_ <=? _)%Z = false |- _ => apply Z.leb_gt in H
  | H : (_ =? _)%N = true |- _ => apply N.eqb_eq in H
  | H : (_ =? _)%N = false |- _ => apply N.eqb_neq in H
  | H : (_ <? _)%N = true |- _ => apply N.ltb_lt in H
  | H : (_ <? _)%N = false |- _ => apply N.ltb_ge in H
  | H : (_ <=? _)%N = true |- _ => apply N.leb_le in H
  | H : (_ <=? _)%N = false |- _ => apply N.leb_gt in H
  | H : bool_decide _ = true |- _ => apply bool_decide_eq_true in H
  | H : bool_decide _ = false |- _ => apply bool_decide_eq_false in H
  end.

(** Destruct the scrutinee of the first [if] or [match] on a boolean. *)
Ltac case_if :=
  match goal with
  | |- context [if ?b then _ else _] => let E := fresh "Hif" in destruct b eqn:E
  | H : context [if ?b then _ else _] |- _ => let E := fresh "Hif" in destruct b eqn:E
  end.
