(* ===== verification/Align.v ===== *)
(** * Sequence alignment: the bounded greedy Myers search of
    [crates/detent-core/src/align.rs]. *)

From S2P Require Import Prelude.

(** ** Data *)

Definition MAX_EDIT_DISTANCE : nat := 512.

Inductive Step :=
| Equal (oldi newi : nat)
| Delete (oldi : nat)
| Insert (newi : nat).

#[export] Instance Step_eq_dec : EqDecision Step.
Proof. solve_decision. Defined.

(** ** The frontier *)

Definition cell (front : list nat) (index : nat) : nat := default 0 (front !! index).

Definition set_cell (front : list nat) (index value : nat) : list nat :=
  <[index := value]> front.

Definition came_from_down (front : list nat) (kidx lo hi : nat) : bool :=
  (kidx =? lo) || (negb (kidx =? hi) && (cell front (kidx - 1) <? cell front (kidx + 1))).

Section Align.
Context {T : Type} `{EqDecision T}.
Implicit Types old new : list T.

(** The inner [while] that follows a run of equal items. *)
Fixpoint snake (fuel : nat) old new (oldi newi : nat) : nat * nat :=
  match fuel with
  | 0 => (oldi, newi)
  | S fuel' =>
      if (oldi <? length old) && (newi <? length new)
         && bool_decide (old !! oldi = new !! newi)
      then snake fuel' old new (oldi + 1) (newi + 1)
      else (oldi, newi)
  end.

(** The furthest point on diagonal [kidx]: one edit from a neighbour, then a
    run of equal items. *)
Definition furthest old new (offset lo hi : nat) (front : list nat) (kidx : nat) : nat * nat :=
  let oldi := if came_from_down front kidx lo hi
              then cell front (kidx + 1)
              else cell front (kidx - 1) + 1 in
  let newi := oldi + offset - kidx in
  snake (length old) old new oldi newi.

(** The [while kidx <= hi] loop of one edit distance. [true]: both ends were
    reached and the loop returned from [align]. *)
Fixpoint scan (fuel : nat) old new (offset lo hi kidx : nat) (front : list nat)
    : list nat * bool :=
  match fuel with
  | 0 => (front, false)
  | S fuel' =>
      if kidx <=? hi then
        let '(oldi, newi) := furthest old new offset lo hi front kidx in
        let front' := set_cell front kidx oldi in
        if (length old <=? oldi) && (length new <=? newi)
        then (front', true)
        else scan fuel' old new offset lo hi (kidx + 2) front'
      else (front, false)
  end.

(** The run of equal items, walked backwards. The accumulator is the reversed
    [steps] vector of the source. *)
Fixpoint unsnake (fuel oldi newi prev_old prev_new : nat) (steps : list Step)
    : nat * nat * list Step :=
  match fuel with
  | 0 => (oldi, newi, steps)
  | S fuel' =>
      if (prev_old <? oldi) && (prev_new <? newi)
      then unsnake fuel' (oldi - 1) (newi - 1) prev_old prev_new
             (Equal (oldi - 1) (newi - 1) :: steps)
      else (oldi, newi, steps)
  end.

(** One round of the [for dist in (0..=last_dist).rev()] loop, then the rest. *)
Fixpoint backtrack_from (trace : list (list nat)) (offset dist oldi newi : nat)
    (steps : list Step) : list Step :=
  match trace !! dist with
  | None => steps
  | Some front =>
      let kidx := offset + oldi - newi in
      let lo := offset - dist in
      let hi := offset + dist in
      let down := came_from_down front kidx lo hi in
      let prev_kidx := if down then kidx + 1 else kidx - 1 in
      let prev_old := cell front prev_kidx in
      let prev_new := prev_old + offset - prev_kidx in
      let '(oldi', newi', steps') := unsnake oldi oldi newi prev_old prev_new steps in
      match dist with
      | 0 => steps'
      | S dist' =>
          if down
          then backtrack_from trace offset dist' oldi' (newi' - 1) (Insert (newi' - 1) :: steps')
          else backtrack_from trace offset dist' (oldi' - 1) newi' (Delete (oldi' - 1) :: steps')
      end
  end.

Definition backtrack (trace : list (list nat)) (offset last_dist old_len new_len : nat)
    : list Step :=
  backtrack_from trace offset last_dist old_len new_len [].

(** The [for dist in 0..=max_dist] loop; [rounds] counts the distances left. *)
Fixpoint search (rounds : nat) old new (offset dist : nat) (front : list nat)
    (trace : list (list nat)) : option (list Step) :=
  match rounds with
  | 0 => None
  | S rounds' =>
      let trace' := trace ++ [front] in
      let lo := offset - dist in
      let hi := offset + dist in
      let '(front', found) := scan (hi + 1 - lo) old new offset lo hi lo front in
      if found
      then Some (backtrack trace' offset dist (length old) (length new))
      else search rounds' old new offset (dist + 1) front' trace'
  end.

Definition max_dist old new : nat := (length old + length new) `min` MAX_EDIT_DISTANCE.

Definition align old new : option (list Step) :=
  let max_dist := max_dist old new in
  let offset := max_dist in
  let width := max_dist * 2 + 1 in
  search (max_dist + 1) old new offset 0 (replicate width 0) [].

End Align.

Definition replace_all (old_len new_len : nat) : list Step :=
  (Delete <$> seq 0 old_len) ++ (Insert <$> seq 0 new_len).


(** ** Edit scripts

    [script old new i j s]: [s] turns the first [i] items of [old] into the
    first [j] items of [new], consuming both from left to right. *)

Section Scripts.
Context {T : Type}.
Implicit Types old new : list T.

Inductive script old new : nat -> nat -> list Step -> Prop :=
| script_nil : script old new 0 0 []
| script_equal i j s a :
    script old new i j s -> old !! i = Some a -> new !! j = Some a ->
    script old new (S i) (S j) (s ++ [Equal i j])
| script_delete i j s :
    script old new i j s -> i < length old -> script old new (S i) j (s ++ [Delete i])
| script_insert i j s :
    script old new i j s -> j < length new -> script old new i (S j) (s ++ [Insert j]).

Definition is_edit (s : Step) : bool := match s with Equal _ _ => false | _ => true end.

(** The edit distance a script spends. *)
Definition edits (s : list Step) : nat := length (filter (fun x => is_edit x = true) s).

Lemma edits_app s1 s2 : edits (s1 ++ s2) = edits s1 + edits s2.
Proof. unfold edits. by rewrite filter_app, length_app. Qed.

Lemma edits_snoc s x : edits (s ++ [x]) = edits s + (if is_edit x then 1 else 0).
Proof. rewrite edits_app. by destruct x. Qed.

Lemma script_le old new i j s :
  script old new i j s -> i <= length old /\ j <= length new.
Proof.
  induction 1; simpl; try lia.
  repeat match goal with H : _ !! _ = Some _ |- _ => apply lookup_lt_Some in H end. lia.
Qed.

(** A script of [d] edits ends at most [d] diagonals from the start, on one of
    the parity of [d]. *)
Lemma script_diag old new i j s :
  script old new i j s -> exists n, n <= edits s /\ i + edits s = j + 2 * n.
Proof.
  induction 1 as [|i j s a _ [n [? ?]] _ _|i j s _ [n [? ?]] _|i j s _ [n [? ?]] _];
    rewrite ?edits_snoc; simpl.
  - by exists 0.
  - exists n. lia.
  - exists (S n). lia.
  - exists n. lia.
Qed.

End Scripts.
#[export] Hint Constructors script : detent.

(** ** The search invariant *)

Definition on_diag (off d k : nat) : Prop := exists i, i <= d /\ k + d = off + 2 * i.

Lemma cell_set_cell front k v j :
  k < length front -> cell (set_cell front k v) j = if decide (j = k) then v else cell front j.
Proof.
  intros Hk. unfold cell, set_cell. case_decide as Hj.
  - subst. by rewrite list_lookup_insert_eq.
  - by rewrite list_lookup_insert_ne by congruence.
Qed.

Lemma cell_replicate n j : cell (replicate n 0) j = 0.
Proof.
  unfold cell. destruct (replicate n 0 !! j) eqn:E; [|done].
  by apply lookup_replicate in E as [-> _].
Qed.

Section Search.
Context {T : Type} `{EqDecision T}.
Variables (old new : list T) (off : nat).
Local Abbreviation N := (length old).
Local Abbreviation M := (length new).

Definition matches (x y : nat) : Prop := exists a, old !! x = Some a /\ new !! y = Some a.

Lemma snake_test x y :
  (x <? N) && (y <? M) && bool_decide (old !! x = new !! y) = true <-> matches x y.
Proof.
  unfold matches. rewrite !andb_true_iff, !Nat.ltb_lt, bool_decide_eq_true. split.
  - intros [[Hx Hy] E]. destruct (lookup_lt_is_Some_2 _ _ Hx) as [a Ha].
    exists a. by rewrite <- E.
  - intros (a & Ha & Hb). rewrite Ha, Hb.
    apply lookup_lt_Some in Ha, Hb. done.
Qed.

Lemma snake_spec fuel x y x' y' :
  snake fuel old new x y = (x', y') ->
  exists n, x' = x + n /\ y' = y + n /\ (forall i, i < n -> matches (x + i) (y + i))
    /\ (n = 0 \/ (x' <= N /\ y' <= M))
    /\ (N <= x + fuel -> ~ matches x' y').
Proof.
  revert x y; induction fuel as [|fuel IH]; intros x y; cbn.
  - intros [= <- <-]. exists 0. repeat split; auto with lia.
    intros ? (a & Ha & _). apply lookup_lt_Some in Ha. lia.
  - destruct (_ && _) eqn:E.
    + apply snake_test in E. intros (n & -> & -> & Hm & Hb & Hmax)%IH.
      exists (S n). repeat split; try lia.
      * intros [|i] Hi; [by rewrite !Nat.add_0_r|].
        specialize (Hm i ltac:(lia)). by rewrite <- !Nat.add_assoc in Hm.
      * destruct E as (a & Ha%lookup_lt_Some & Hb'%lookup_lt_Some). lia.
      * intros Hf. apply Hmax. lia.
    + intros [= <- <-]. exists 0. rewrite !Nat.add_0_r.
      repeat split; auto with lia.
      intros _ Hm. apply not_true_iff_false in E. by apply E, snake_test.
Qed.

Definition start (F : list nat) (d k : nat) : nat :=
  if came_from_down F k (off - d) (off + d) then cell F (k + 1) else cell F (k - 1) + 1.

Definition reach (F : list nat) (d k : nat) : nat * nat :=
  furthest old new off (off - d) (off + d) F k.

Lemma reach_ext F F' d k :
  (k <> off - d -> cell F' (k - 1) = cell F (k - 1)) ->
  cell F' (k + 1) = cell F (k + 1) -> reach F' d k = reach F d k.
Proof.
  intros Hl Hr. unfold reach, furthest, came_from_down. rewrite Hr.
  destruct (k =? off - d) eqn:E; cbn; [done|].
  bool_to_prop. by rewrite Hl.
Qed.

Lemma reach_spec F d k x y :
  reach F d k = (x, y) -> k <= off + start F d k ->
  exists n, x = start F d k + n /\ x + off = y + k
    /\ (forall i, i < n -> matches (start F d k + i) (start F d k + off - k + i))
    /\ (n = 0 \/ (x <= N /\ y <= M)) /\ ~ matches x y.
Proof.
  unfold reach, furthest. fold (start F d k).
  intros (n & -> & -> & Hm & Hb & Hmax)%snake_spec Hk.
  exists n. repeat split; auto; try lia. apply Hmax. lia.
Qed.

(** *** One edit distance *)

Definition scanned (F front : list nat) (d kidx : nat) : Prop :=
  length front = length F /\
  forall k, (on_diag off d k /\ k < kidx -> cell front k = (reach F d k).1)
         /\ (~ (on_diag off d k /\ k < kidx) -> cell front k = cell F k).

Definition finished (p : nat * nat) : Prop := N <= p.1 /\ M <= p.2.

Lemma scanned_all F front d :
  d <= off -> scanned F front d (off - d + 2 * (d + 1)) -> scanned F front d (off + d + 1).
Proof.
  intros Hd [? Hs]. split; [done|]. intros k. destruct (Hs k) as [H1 H2]. split.
  - intros [Hk ?]. apply H1. split; [done|lia].
  - intros Hk. apply H2. intros [[i Hi] ?]. apply Hk. split; [by exists i|lia].
Qed.

Lemma scan_spec fuel F front d j front' found :
  d <= off -> length F = 2 * off + 1 ->
  scanned F front d (off - d + 2 * j) -> j <= d + 1 -> d + 1 - j <= fuel ->
  (forall k, on_diag off d k -> k < off - d + 2 * j -> ~ finished (reach F d k)) ->
  scan fuel old new off (off - d) (off + d) (off - d + 2 * j) front = (front', found) ->
  if found
  then exists k, on_diag off d k /\ finished (reach F d k)
  else scanned F front' d (off + d + 1) /\ forall k, on_diag off d k -> ~ finished (reach F d k).
Proof.
  intros Hd HF. revert front j.
  induction fuel as [|fuel IH]; intros front j Hs Hj Hf Hnf; cbn [scan].
  - intros [= <- <-]. assert (j = d + 1) as -> by lia.
    split; [by apply scanned_all|]. intros k [i Hi]. apply Hnf; [by exists i|lia].
  - set (k := off - d + 2 * j) in *.
    destruct (k <=? off + d) eqn:E; bool_to_prop; cycle 1.
    { intros [= <- <-]. assert (j = d + 1) as -> by (unfold k in *; lia).
      split; [by apply scanned_all|]. intros k' [i Hi]. apply Hnf; [by exists i|unfold k; lia]. }
    assert (Hdk : on_diag off d k) by (exists j; unfold k; lia).
    change (furthest old new off (off - d) (off + d) front k) with (reach front d k).
    rewrite (reach_ext F front);
      [|intros Hk; apply Hs; intros [[i Hi] ?]; unfold k in *; lia
       |apply Hs; intros [[i Hi] ?]; unfold k in *; lia].
    destruct (reach F d k) as [x y] eqn:Er. cbn zeta.
    destruct ((length old <=? x) && (length new <=? y)) eqn:E2.
    { intros [= <- <-]. exists k. split; [done|]. rewrite Er. by bool_to_prop. }
    replace (k + 2) with (off - d + 2 * (j + 1)) by (unfold k; lia).
    apply IH; try (unfold k in *; lia).
    + destruct Hs as [Hlen Hs]. split; [unfold set_cell; by rewrite length_insert|].
      intros k'. rewrite cell_set_cell by (rewrite Hlen, HF; lia). case_decide as Hk'.
      * subst k'. rewrite Er. split; [done|]. intros []. split; [done|unfold k; lia].
      * split.
        -- intros [[i Hi] Hlt]. apply Hs. split; [by exists i|unfold k in *; lia].
        -- intros Hn. apply Hs. intros [? ?]. apply Hn. split; [done|unfold k in *; lia].
    + intros k' [i Hi] Hlt. destruct (decide (k' = k)) as [->|Hne].
      * rewrite Er. intros [H1 H2]; simpl in *.
        bool_to_prop. destruct E2 as [E2|E2]; bool_to_prop; lia.
      * apply Hnf; [by exists i|unfold k in *; lia].
Qed.

(** *** The frontier after a whole edit distance *)

(** What holds of the frontier [G] once distance [d] was scanned without
    reaching both ends. The last two clauses say that a point past the end of
    one sequence is dominated by its neighbour, which is what makes the first
    finished point the exact corner. *)
Record frontier (d : nat) (G : list nat) : Prop := Frontier {
  fr_len : length G = 2 * off + 1;
  fr_nonneg : forall k, on_diag off d k -> k <= off + cell G k;
  fr_open : forall k, on_diag off d k -> ~ (N <= cell G k /\ M + k <= cell G k + off);
  fr_below : forall k, on_diag off d k -> M + k < cell G k + off ->
    on_diag off d (k + 2) /\ cell G k + 1 <= cell G (k + 2);
  fr_right : forall k, on_diag off d k -> N < cell G k ->
    exists k', k = k' + 2 /\ on_diag off d k' /\ cell G k <= cell G k' + 1;
}.

(** What one round starts from: nothing at distance 0, else a frontier. *)
Definition round_pre (d : nat) (F : list nat) : Prop :=
  match d with
  | 0 => F = replicate (2 * off + 1) 0
  | S d' => frontier d' F
  end.

Lemma start_cases F d k :
  round_pre d F -> on_diag off d k -> d <= off ->
  (d = 0 /\ k = off /\ start F d k = 0)
  \/ (exists d', d = S d' /\ on_diag off d' (k + 1) /\ start F d k = cell F (k + 1)
       /\ came_from_down F k (off - d) (off + d) = true
       /\ (forall k', k = k' + 1 -> on_diag off d' k' -> cell F k' < cell F (k + 1)))
  \/ (exists d' k', d = S d' /\ k = k' + 1 /\ on_diag off d' k' /\ start F d k = cell F k' + 1
       /\ came_from_down F k (off - d) (off + d) = false
       /\ (on_diag off d' (k + 1) -> cell F (k + 1) <= cell F k')).
Proof.
  intros HF [i [Hi Hk]] Hd. unfold start. destruct d as [|d'].
  { left. assert (k = off) as -> by lia. repeat split.
    unfold came_from_down. rewrite (proj2 (Nat.eqb_eq _ _)) by lia. simpl.
    simpl in HF. subst F. apply cell_replicate. }
  right. destruct (came_from_down F k (off - S d') (off + S d')) eqn:E.
  - left. exists d'. unfold came_from_down in E. bool_to_prop.
    assert (i <= d') by (destruct E as [E|E]; bool_to_prop; lia).
    repeat split; auto.
    + exists i. lia.
    + intros k' -> [i' Hi']. destruct E as [E|E]; bool_to_prop; [lia|].
      by replace (k' + 1 - 1) with k' in * by lia.
  - right. unfold came_from_down in E. bool_to_prop.
    exists d', (k - 1). repeat split; try lia.
    + exists (i - 1). lia.
    + intros [i' Hi']. destruct H0 as [E|E]; bool_to_prop; lia.
Qed.

Lemma start_nonneg F d k :
  round_pre d F -> on_diag off d k -> d <= off -> k <= off + start F d k.
Proof.
  intros HF Hk Hd.
  destruct (start_cases F d k HF Hk Hd) as [(? & ? & ->)|[(d' & -> & Hk' & -> & _)|(d' & k' & -> & -> & Hk' & -> & _)]].
  - lia.
  - pose proof (fr_nonneg _ _ HF _ Hk'). lia.
  - pose proof (fr_nonneg _ _ HF _ Hk'). lia.
Qed.

Lemma start_ge F d k :
  round_pre (S d) F -> on_diag off (S d) k -> S d <= off ->
  (on_diag off d (k + 1) -> cell F (k + 1) <= start F (S d) k)
  /\ (forall k', k = k' + 1 -> on_diag off d k' -> cell F k' + 1 <= start F (S d) k).
Proof.
  intros HF Hk Hd.
  destruct (start_cases F (S d) k HF Hk Hd) as
    [(? & _)|[(d' & [= <-] & _ & -> & _ & Hl)|(d' & k' & [= <-] & -> & _ & -> & _ & Hu)]].
  - lia.
  - split; [lia|]. intros k' -> Hk'. specialize (Hl k' eq_refl Hk'). lia.
  - split; [intros Hk''; specialize (Hu Hk''); lia|]. intros k'' Heq _.
    assert (k'' = k') by lia. subst. lia.
Qed.

Lemma reach_ge F d k : round_pre d F -> on_diag off d k -> d <= off -> start F d k <= (reach F d k).1.
Proof.
  intros HF Hk Hd. destruct (reach F d k) as [x y] eqn:E.
  apply reach_spec in E as (n & -> & _); [simpl; lia|]. by apply start_nonneg.
Qed.

Lemma dominated_below d G e : frontier d G -> forall k,
  on_diag off d k -> M + e + k <= cell G k + off -> N <= cell G k + e -> False.
Proof.
  intros HG. induction e as [|e IH]; intros k Hk Hy Hx.
  - apply (fr_open _ _ HG k Hk). lia.
  - destruct (fr_below _ _ HG k Hk) as [Hk2 Hge]; [lia|]. apply (IH (k + 2)); [done|lia|lia].
Qed.

Lemma dominated_right d G e : frontier d G -> forall k,
  on_diag off d k -> N + e <= cell G k -> M + k <= cell G k + off + e -> False.
Proof.
  intros HG. induction e as [|e IH]; intros k Hk Hx Hy.
  - apply (fr_open _ _ HG k Hk). lia.
  - destruct (fr_right _ _ HG k Hk) as (k' & -> & Hk2 & Hge); [lia|]. apply (IH k'); [done|lia|lia].
Qed.

(** The first finished point is the corner: the search never overshoots. *)
Lemma finished_corner F d k :
  round_pre d F -> on_diag off d k -> d <= off -> finished (reach F d k) ->
  reach F d k = (N, M) /\ N + off = M + k.
Proof.
  intros HF Hk Hd. pose proof (start_nonneg F d k HF Hk Hd) as Hnn.
  destruct (reach F d k) as [x y] eqn:E. unfold finished; simpl. intros [Hx Hy].
  apply reach_spec in E as (n & Hx' & Hy' & _ & Hb & _); [|done].
  enough (x = N /\ y = M) as [-> ->] by (split; [done|lia]).
  destruct Hb as [->|[? ?]]; [|lia].
  destruct (start_cases F d k HF Hk Hd) as
    [(-> & -> & Hs)|[(d' & -> & Hk' & Hs & _)|(d' & k' & -> & -> & Hk' & Hs & _)]]; simpl in HF.
  - lia.
  - pose proof (fr_open _ _ HF _ Hk'). pose proof (dominated_right _ _ 1 HF _ Hk'). lia.
  - pose proof (fr_open _ _ HF _ Hk'). pose proof (dominated_below _ _ 1 HF _ Hk'). lia.
Qed.

Lemma frontier_step F G d :
  round_pre d F -> d <= off -> length F = 2 * off + 1 ->
  scanned F G d (off + d + 1) -> (forall k, on_diag off d k -> ~ finished (reach F d k)) ->
  frontier d G.
Proof.
  intros HF Hd HlF [Hlen HG] Hopen.
  assert (Hcell : forall k, on_diag off d k -> cell G k = (reach F d k).1).
  { intros k [i Hi]. apply HG. split; [by exists i|lia]. }
  assert (Hspec : forall k, on_diag off d k ->
    k <= off + cell G k /\ ~ (N <= cell G k /\ M + k <= cell G k + off)
    /\ start F d k <= cell G k
    /\ (cell G k = start F d k \/ (cell G k <= N /\ cell G k + off <= M + k))).
  { intros k Hk. rewrite (Hcell k Hk). pose proof (Hopen k Hk) as Ho.
    pose proof (start_nonneg F d k HF Hk Hd).
    destruct (reach F d k) as [x y] eqn:E. unfold finished in Ho. simpl in *.
    apply reach_spec in E as (n & ? & ? & _ & Hb & _); [|done]. repeat split; try lia. }
  split.
  - lia.
  - intros k Hk. apply Hspec, Hk.
  - intros k Hk. apply Hspec, Hk.
  - intros k Hk Hlt. destruct (Hspec k Hk) as (_ & _ & _ & Hs).
    destruct (start_cases F d k HF Hk Hd) as
      [(-> & -> & ?)|[(d' & -> & Hk' & ? & _)|(d' & k' & -> & -> & Hk' & ? & _ & Hu)]]; simpl in HF.
    + lia.
    + assert (on_diag off (S d') (k + 2)) as Hk2 by (destruct Hk' as [i ?]; exists (S i); lia).
      split; [done|]. destruct (Hspec _ Hk2) as (_ & _ & Hge & _).
      destruct (start_ge F d' (k + 2) HF Hk2 Hd) as [_ Hl]. specialize (Hl (k + 1) ltac:(lia) Hk'). lia.
    + destruct (fr_below _ _ HF k' Hk') as [Hk2 Hge]; [lia|].
      replace (k' + 2) with (k' + 1 + 1) in * by lia. specialize (Hu Hk2). lia.
  - intros k Hk Hlt. destruct (Hspec k Hk) as (_ & _ & _ & Hs).
    destruct (start_cases F d k HF Hk Hd) as
      [(-> & -> & ?)|[(d' & -> & Hk' & ? & _)|(d' & k' & -> & -> & Hk' & ? & _ & Hu)]]; simpl in HF.
    + lia.
    + destruct (fr_right _ _ HF _ Hk') as (k2 & Heq & Hk2 & Hge); [lia|].
      assert (exists k3, k2 = k3 + 1) as [k3 ->] by (exists (k2 - 1); destruct Hk2; lia).
      assert (on_diag off (S d') k3) as Hk3 by (destruct Hk2 as [i ?]; exists i; lia).
      exists k3. split; [lia|]. split; [done|]. destruct (Hspec _ Hk3) as (_ & _ & Hg & _).
      destruct (start_ge F d' k3 HF Hk3 Hd) as [Hl _]. specialize (Hl Hk2). lia.
    + assert (exists k3, k' = k3 + 1) as [k3 ->] by (exists (k' - 1); destruct Hk'; lia).
      assert (on_diag off (S d') k3) as Hk3 by (destruct Hk' as [i ?]; exists i; lia).
      exists k3. split; [lia|]. split; [done|]. destruct (Hspec _ Hk3) as (_ & _ & Hg & _).
      destruct (start_ge F d' k3 HF Hk3 Hd) as [Hl _]. specialize (Hl Hk'). lia.
Qed.

(** *** The recorded rounds *)

(** [rounds d F tr]: distances [0 .. d-1] were scanned without success, [F] is
    the frontier they left and [tr] the snapshots taken before each. *)
Inductive rounds : nat -> list nat -> list (list nat) -> Prop :=
| rounds_O : rounds 0 (replicate (2 * off + 1) 0) []
| rounds_S d F G tr :
    rounds d F tr -> d <= off -> scanned F G d (off + d + 1) ->
    (forall k, on_diag off d k -> ~ finished (reach F d k)) -> rounds (S d) G (tr ++ [F]).

Lemma rounds_inv d F tr :
  rounds d F tr -> round_pre d F /\ length F = 2 * off + 1 /\ length tr = d.
Proof.
  induction 1 as [|d F G tr _ (HF & Hl & Ht) Hd Hs Hn].
  - by rewrite length_replicate.
  - split; [by apply (frontier_step F)|]. destruct Hs as [-> _].
    rewrite length_app; simpl. lia.
Qed.

Lemma rounds_prefix d F tr d' :
  rounds d F tr -> d' <= d -> exists F' tr', rounds d' F' tr'.
Proof.
  induction 1 as [|d F G tr Hr IH Hd Hs Hn]; intros Hle.
  - assert (d' = 0) as -> by lia. eauto using rounds.
  - destruct (decide (d' = S d)) as [->|]; [eauto using rounds|apply IH; lia].
Qed.

(** The point a scanned diagonal holds is the point [reach] computed. *)
Lemma scanned_reach F G d k :
  round_pre d F -> d <= off -> scanned F G d (off + d + 1) -> on_diag off d k ->
  reach F d k = (cell G k, cell G k + off - k) /\ k <= off + cell G k.
Proof.
  intros HF Hd [_ HG] Hk. pose proof (start_nonneg F d k HF Hk Hd).
  rewrite (proj1 (HG k)) by (split; [done|destruct Hk; lia]).
  destruct (reach F d k) as [x y] eqn:E.
  apply reach_spec in E as (n & ? & ? & _); [|done]. simpl. split; [f_equal; lia|lia].
Qed.

Definition equals (x y n : nat) : list Step := (fun i => Equal (x + i) (y + i)) <$> seq 0 n.

Lemma equals_S x y n : equals x y (S n) = equals x y n ++ [Equal (x + n) (y + n)].
Proof. unfold equals. by rewrite seq_S, fmap_app. Qed.

Lemma unsnake_spec fuel n x y po pn steps :
  n <= fuel -> po <= x -> pn <= y -> po = x \/ pn = y ->
  unsnake fuel (x + n) (y + n) po pn steps = (x, y, equals x y n ++ steps).
Proof.
  revert n steps; induction fuel as [|fuel IH]; intros [|n] steps Hf Hx Hy He; cbn [unsnake].
  - by rewrite !Nat.add_0_r.
  - lia.
  - rewrite !Nat.add_0_r. destruct ((po <? x) && (pn <? y)) eqn:E; [|done].
    bool_to_prop. lia.
  - rewrite !(proj2 (Nat.ltb_lt _ _)) by lia. cbn [andb].
    replace (x + S n - 1) with (x + n) by lia. replace (y + S n - 1) with (y + n) by lia.
    rewrite IH by (done || lia). rewrite (equals_S x y n). by rewrite <- app_assoc.
Qed.

Lemma script_equals x y s n :
  script old new x y s -> (forall i, i < n -> matches (x + i) (y + i)) ->
  script old new (x + n) (y + n) (s ++ equals x y n) /\ edits (s ++ equals x y n) = edits s.
Proof.
  intros Hs. induction n as [|n IH]; intros Hm.
  - by rewrite !Nat.add_0_r, app_nil_r.
  - destruct IH as [IH1 IH2]; [auto with lia|]. destruct (Hm n ltac:(lia)) as (a & Ha & Hb).
    rewrite equals_S, app_assoc, edits_snoc, IH2, !Nat.add_succ_r. simpl.
    split; [by econstructor|lia].
Qed.

Lemma backtrack_spec d F tr : rounds d F tr -> forall rest k x y steps,
  d <= off -> on_diag off d k -> reach F d k = (x, y) -> x <= N -> y <= M ->
  exists s, script old new x y s /\ edits s = d
    /\ backtrack_from (tr ++ F :: rest) off d x y steps = s ++ steps.
Proof.
  induction 1 as [|d F' F tr Hr IH Hd' Hs Hn]; intros rest k x y steps Hd Hk E HxN HyM.
  - assert (k = off) as -> by (destruct Hk; lia).
    destruct (start_cases _ 0 off eq_refl Hk Hd) as [(_ & _ & Hst)|[(? & ? & _)|(? & ? & ? & _)]]; [|done..].
    apply reach_spec in E as (n & -> & Hy & Hm & _); [|lia]. rewrite Hst in *.
    assert (y = n) as -> by lia. exists (equals 0 0 n).
    destruct (script_equals 0 0 [] n) as [Hsc He]; [constructor|by intros i Hi; apply (Hm i) in Hi; replace (0 + off - off) with 0 in Hi by lia|].
    split; [done|]. split; [done|]. cbn [backtrack_from lookup list_lookup app].
    replace (came_from_down _ _ _ _) with true by (symmetry; unfold came_from_down; rewrite (proj2 (Nat.eqb_eq _ _)); [done|lia]).
    rewrite cell_replicate.
    rewrite (unsnake_spec (0 + n) n 0 0) by lia. done.
  - destruct (rounds_inv _ _ _ Hr) as (HF' & HlF' & Htr).
    assert (round_pre (S d) F) as HF by (by apply (frontier_step F')).
    pose proof (start_nonneg F (S d) k HF Hk Hd) as Hnn.
    pose proof (reach_spec F (S d) k x y E Hnn) as (n & Hx & Hy & Hm & _).
    rewrite <- app_assoc. cbn [app]. cbn [backtrack_from].
    replace ((tr ++ F' :: F :: rest) !! S d) with (Some F)
      by (rewrite lookup_app_r by lia; by replace (S d - length tr) with 1 by lia).
    replace (off + x - y) with k by lia.
    unfold start in Hx, Hm.
    destruct (start_cases F (S d) k HF Hk Hd) as
      [(? & _)|[(d' & [= <-] & Hk' & Hst & Hdown & _)|(d' & k' & [= <-] & -> & Hk' & Hst & Hdown & _)]]; [done|..];
      rewrite Hdown in *; destruct (scanned_reach F' F d _ HF' Hd' Hs Hk') as [E' Hnn'];
      pose proof (fr_nonneg _ _ HF) as Hfr.
    + set (sx := cell F (k + 1)) in *. set (sy := sx + off - k).
      assert (x = sx + n /\ y = sy + n) as [-> ->] by (unfold sy; lia).
      rewrite (unsnake_spec (sx + n) n sx sy) by (unfold sy; lia).
      destruct (IH (F :: rest) (k + 1) sx (sy - 1) (Insert (sy - 1) :: equals sx sy n ++ steps))
        as (s & Hsc & He & Hbt); [lia|done|rewrite E'; f_equal; unfold sy; lia|lia|lia|].
      destruct (script_equals sx sy (s ++ [Insert (sy - 1)]) n) as [Hsc' He'].
      { replace sy with (S (sy - 1)) at 1 by (unfold sy; lia). constructor; [done|unfold sy in *; lia]. }
      { intros i Hi. by apply Hm. }
      eexists. split; [exact Hsc'|]. rewrite He', edits_snoc, He. split; [simpl; lia|].
      rewrite Hbt. by rewrite <- !app_assoc.
    + set (px := cell F k') in *. set (sy := px + off - k').
      replace (k' + 1 - 1) with k' in * by lia. fold px. 
      assert (x = px + 1 + n /\ y = sy + n) as [-> ->] by (unfold sy; lia).
      rewrite (unsnake_spec (px + 1 + n) n (px + 1) sy) by (unfold sy; lia).
      destruct (IH (F :: rest) k' px sy (Delete px :: equals (px + 1) sy n ++ steps))
        as (s & Hsc & He & Hbt); [lia|done|done|lia|unfold sy in *; lia|].
      destruct (script_equals (px + 1) sy (s ++ [Delete px]) n) as [Hsc' He'].
      { rewrite Nat.add_1_r. constructor; [done|lia]. }
      { intros i Hi. specialize (Hm i Hi). by replace sy with (px + 1 + off - (k' + 1)) by (unfold sy; lia). }
      eexists. split; [exact Hsc'|]. rewrite He', edits_snoc, He. split; [simpl; lia|].
      replace (px + 1 - 1) with px by lia. rewrite Hbt. by rewrite <- !app_assoc.
Qed.

(** Greedy is furthest: no script of [d] edits gets further on its diagonal
    than the frontier after distance [d]. *)
Lemma furthest_reaching i j s :
  script old new i j s -> forall F tr k,
  rounds (S (edits s)) F tr -> i + off = j + k -> i <= cell F k.
Proof.
  induction 1 as [|i j s a Hs IH Ha Hb|i j s Hs IH Hi|i j s Hs IH Hj]; intros F tr k;
    rewrite ?edits_snoc; cbn [is_edit]; rewrite ?Nat.add_0_r; intros Hr Hk; [lia|..];
    destruct (script_diag _ _ _ _ _ Hs) as (m & Hm & Hij).
  - inversion Hr as [|d F' G tr' Hr' Hd Hsc Hn]; subst.
    assert (on_diag off (edits s) k) as Hdk by (exists m; lia).
    pose proof (IH F _ k Hr ltac:(lia)) as Hle.
    destruct (rounds_inv _ _ _ Hr') as (HF' & _).
    destruct (scanned_reach F' F _ k HF' Hd Hsc Hdk) as [E Hnn].
    destruct (decide (i = cell F k)) as [->|]; [|lia].
    apply reach_spec in E as (n & _ & _ & _ & _ & Hmax); [|by apply start_nonneg].
    destruct Hmax. exists a. by replace (cell F k + off - k) with j by lia.
  - rewrite Nat.add_1_r in Hr. inversion Hr as [|d F' G tr' Hr' Hd Hsc Hn]; subst.
    destruct (rounds_inv _ _ _ Hr') as (HF' & _).
    assert (on_diag off (S (edits s)) k) as Hdk by (exists (S m); lia).
    destruct (scanned_reach F' F _ k HF' Hd Hsc Hdk) as [E _].
    pose proof (reach_ge F' _ k HF' Hdk Hd) as Hge. rewrite E in Hge. simpl in Hge.
    destruct (start_ge F' _ k HF' Hdk Hd) as [_ Hl].
    pose proof (IH F' _ (k - 1) Hr' ltac:(lia)).
    specialize (Hl (k - 1) ltac:(lia) ltac:(exists m; lia)). lia.
  - rewrite Nat.add_1_r in Hr. inversion Hr as [|d F' G tr' Hr' Hd Hsc Hn]; subst.
    destruct (rounds_inv _ _ _ Hr') as (HF' & _).
    assert (on_diag off (S (edits s)) k) as Hdk by (exists m; lia).
    destruct (scanned_reach F' F _ k HF' Hd Hsc Hdk) as [E _].
    pose proof (reach_ge F' _ k HF' Hdk Hd) as Hge. rewrite E in Hge. simpl in Hge.
    destruct (start_ge F' _ k HF' Hdk Hd) as [Hl _].
    pose proof (IH F' _ (k + 1) Hr' ltac:(lia)).
    specialize (Hl ltac:(exists m; lia)). lia.
Qed.

(** A whole script needs at least as many edits as rounds have failed. *)
Lemma rounds_lower_bound d F tr s :
  rounds d F tr -> script old new N M s -> d <= edits s.
Proof.
  intros Hr Hs. destruct (decide (d <= edits s)) as [|Hlt]; [done|exfalso].
  destruct (rounds_prefix _ _ _ (S (edits s)) Hr ltac:(lia)) as (F' & tr' & Hr').
  destruct (script_diag _ _ _ _ _ Hs) as (m & Hm & Hij).
  inversion Hr' as [|d' F0 G tr0 Hr0 Hd Hsc Hn]; subst.
  pose proof (furthest_reaching _ _ _ Hs _ _ (N + off - M) Hr' ltac:(lia)).
  destruct (rounds_inv _ _ _ Hr') as (HF' & _).
  apply (fr_open _ _ HF' (N + off - M)); [exists m; lia|lia].
Qed.

Lemma search_spec n dist F tr :
  rounds dist F tr -> dist + n = off + 1 ->
  match search n old new off dist F tr with
  | Some s => script old new N M s /\ edits s <= off /\ exists F' tr', rounds (edits s) F' tr'
  | None => exists F' tr', rounds (off + 1) F' tr'
  end.
Proof.
  revert dist F tr; induction n as [|n IH]; intros dist F tr Hr Hn; cbn [search].
  - exists F, tr. by replace (off + 1) with dist by lia.
  - destruct (rounds_inv _ _ _ Hr) as (HF & HlF & Htr). cbn zeta.
    destruct (scan _ _ _ _ _ _ _ _) as [G found] eqn:E.
    rewrite <- (Nat.add_0_r (off - dist)) in E at 3.
    apply (scan_spec _ F F dist 0) in E; [|lia|done| |lia|lia|].
    + destruct found.
      * destruct E as (k & Hk & Hfin).
        destruct (finished_corner F dist k HF Hk ltac:(lia) Hfin) as [Hreach _].
        destruct (backtrack_spec _ _ _ Hr [] k N M [] ltac:(lia) Hk Hreach) as (s & Hs & He & Hbt);
          [lia..|].
        unfold backtrack. rewrite Hbt, app_nil_r, He. split; [done|]. split; [lia|eauto].
      * destruct E as [Hsc Hopen]. apply IH; [|lia]. rewrite Nat.add_1_r.
        constructor; [done|lia|done|done].
    + split; [done|]. intros k. split; [|done]. intros [[i ?] ?]. lia.
    + intros k [i ?]. lia.
Qed.

End Search.

(** ** What the two functions promise *)

Section Spec.
Context {T : Type} `{EqDecision T}.
Implicit Types old new : list T.

Lemma align_search old new :
  match align old new with
  | Some s => script old new (length old) (length new) s
              /\ edits s <= max_dist old new
              /\ exists F tr, rounds old new (max_dist old new) (edits s) F tr
  | None => exists F tr, rounds old new (max_dist old new) (max_dist old new + 1) F tr
  end.
Proof.
  unfold align. apply search_spec; [|lia].
  rewrite (Nat.mul_comm _ 2). constructor.
Qed.

Lemma align_script old new s :
  align old new = Some s -> script old new (length old) (length new) s.
Proof. intros E. pose proof (align_search old new) as H. rewrite E in H. apply H. Qed.

(** [replace_all] is a script for any two sequences. *)
Lemma replace_all_script old new :
  script old new (length old) (length new) (replace_all (length old) (length new)).
Proof.
  unfold replace_all.
  assert (forall n, n <= length old -> script old new n 0 (Delete <$> seq 0 n)) as Hd.
  { induction n as [|n IH]; intros Hn; [constructor|].
    rewrite seq_S, fmap_app. constructor; [apply IH; lia|lia]. }
  assert (forall n, n <= length new ->
    script old new (length old) n ((Delete <$> seq 0 (length old)) ++ (Insert <$> seq 0 n))) as Hi.
  { induction n as [|n IH]; intros Hn; [rewrite app_nil_r; by apply Hd|].
    rewrite seq_S, fmap_app, app_assoc. constructor; [apply IH; lia|lia]. }
  by apply Hi.
Qed.

Lemma replace_all_edits m n : edits (replace_all m n) = m + n.
Proof.
  unfold replace_all. rewrite edits_app. f_equal.
  - induction m as [|m IH]; [done|]. rewrite seq_S, fmap_app, edits_app, IH. simpl; unfold edits; simpl; lia.
  - induction n as [|n IH]; [done|]. rewrite seq_S, fmap_app, edits_app, IH. simpl; unfold edits; simpl; lia.
Qed.

(** The indices a script touches. *)
Definition old_index (s : Step) : option nat :=
  match s with Equal i _ | Delete i => Some i | Insert _ => None end.
Definition new_index (s : Step) : option nat :=
  match s with Equal _ j | Insert j => Some j | Delete _ => None end.

(** Every old index appears exactly once and in order, and so does every new
    one; [Equal] only pairs equal items. *)
Lemma script_indices old new i j s :
  script old new i j s ->
  omap old_index s = seq 0 i /\ omap new_index s = seq 0 j
  /\ forall x y, Equal x y ∈ s -> exists a, old !! x = Some a /\ new !! y = Some a.
Proof.
  induction 1 as [|i j s a Hs (IH1 & IH2 & IH3) Ha Hb|i j s Hs (IH1 & IH2 & IH3) Hi|i j s Hs (IH1 & IH2 & IH3) Hj];
    rewrite ?omap_app, ?seq_S, ?IH1, ?IH2; cbn; rewrite ?app_nil_r; repeat split; try done;
    try (intros x y [?|[= -> ->]%list_elem_of_singleton]%elem_of_app; eauto).
  by intros x y ?%elem_of_nil.
Qed.

Lemma align_minimal old new s s' :
  align old new = Some s -> script old new (length old) (length new) s' -> edits s <= edits s'.
Proof.
  intros E Hs'. pose proof (align_search old new) as H. rewrite E in H.
  destruct H as (_ & _ & F & tr & Hr). by eapply rounds_lower_bound.
Qed.

Lemma align_none old new :
  align old new = None <->
  forall s, script old new (length old) (length new) s -> MAX_EDIT_DISTANCE < edits s.
Proof.
  pose proof (align_search old new) as H. split.
  - intros E s Hs. rewrite E in H. destruct H as (F & tr & Hr).
    pose proof (rounds_lower_bound _ _ _ _ _ _ _ Hr (replace_all_script old new)) as Hra.
    pose proof (rounds_lower_bound _ _ _ _ _ _ _ Hr Hs).
    rewrite replace_all_edits in Hra. unfold max_dist in *. lia.
  - intros Hall. destruct (align old new) as [s|] eqn:E; [exfalso|done].
    destruct H as (Hs & Hle & _). pose proof (Hall s Hs). unfold max_dist in *. lia.
Qed.

End Spec.

(** ** Properties *)

(** The script [align] returns covers both sequences: the old indices of
    its steps are [0 .. old_len] in order, the new indices are [0 .. new_len]
    in order, and [Equal] only pairs equal items. *)
Theorem align_sound {T} `{EqDecision T} (old new : list T) (s : list Step) :
  align old new = Some s ->
  omap old_index s = seq 0 (length old)
  /\ omap new_index s = seq 0 (length new)
  /\ (forall i j, Equal i j ∈ s -> exists a, old !! i = Some a /\ new !! j = Some a).
Proof. intros H. by apply script_indices, align_script. Qed.

Lemma align_sound_witness :
  omap old_index [Equal 0 0; Delete 1; Equal 2 1; Insert 2] = seq 0 3
  /\ omap new_index [Equal 0 0; Delete 1; Equal 2 1; Insert 2] = seq 0 3
  /\ (forall i j, Equal i j ∈ [Equal 0 0; Delete 1; Equal 2 1; Insert 2] ->
       exists a, [1; 2; 3] !! i = Some a /\ [1; 3; 4] !! j = Some a).
Proof. apply (align_sound [1; 2; 3] [1; 3; 4]). reflexivity. Defined.

(** C36: The greedy search is optimal: no edit script for the two sequences
    has fewer insertions and deletions than the one [align] returns. *)
Theorem align_shortest {T} `{EqDecision T} (old new : list T) (s s' : list Step) :
  align old new = Some s -> script old new (length old) (length new) s' -> edits s <= edits s'.
Proof. apply align_minimal. Qed.

Lemma align_shortest_witness :
  edits [Equal 0 0; Delete 1; Equal 2 1; Insert 2] <= edits (replace_all 3 3).
Proof.
  apply (align_shortest [1; 2; 3] [1; 3; 4]); [reflexivity|].
  apply (replace_all_script [1; 2; 3] [1; 3; 4]).
Defined.

(** C37: [align] gives up exactly when every edit script needs more than
    [MAX_EDIT_DISTANCE] edits; in particular it always answers when the two
    sequences together have at most that many items. *)
Theorem align_gives_up {T} `{EqDecision T} (old new : list T) :
  (align old new = None <->
    forall s, script old new (length old) (length new) s -> MAX_EDIT_DISTANCE < edits s)
  /\ (length old + length new <= MAX_EDIT_DISTANCE -> exists s, align old new = Some s).
Proof.
  split; [apply align_none|]. intros Hlen. destruct (align old new) as [s|] eqn:E; [eauto|].
  pose proof (proj1 (align_none old new) E _ (replace_all_script old new)) as H.
  rewrite replace_all_edits in H. lia.
Qed.

Lemma align_gives_up_witness :
  (align [1; 2] [2; 3] = None <->
    forall s, script [1; 2] [2; 3] 2 2 s -> MAX_EDIT_DISTANCE < edits s)
  /\ exists s, align [1; 2] [2; 3] = Some s.
Proof.
  destruct (align_gives_up [1; 2] [2; 3]) as [H1 H2]. split; [exact H1|].
  apply H2. simpl. unfold MAX_EDIT_DISTANCE. lia.
Defined.
