(* ===== verification/Stateful.v ===== *)
(** * Computations with a state and errors

    The state-passing computations of the operations layer, and a logic of the
    events they append to a log: what may be said of a computation whatever its
    collaborators answer. *)

From S2P Require Import Prelude.

(** A computation keeps its changes to the state when it fails, as [&mut self]
    does. *)
Definition SE (W E A : Type) : Type := W -> result E A * W.

#[export] Instance SE_ret W E : MRet (SE W E) := fun _ a w => (Ok a, w).
Definition throw {W E A} (e : E) : SE W E A := fun w => (Err e, w).
Definition give {W E A} (r : result E A) : SE W E A := fun w => (r, w).

(** Run [m] and go on with its result, whatever it is. *)
Definition after {W E F A B} (m : SE W E A) (k : result E A -> SE W F B) : SE W F B :=
  fun w => let '(r, w) := m w in k r w.

#[export] Instance SE_bind W E : MBind (SE W E) := fun _ _ f m =>
  after m (fun r => match r with Ok a => f a | Err e => throw e end).

Definition map_error {W E F A} (g : E -> F) (m : SE W E A) : SE W F A :=
  after m (fun r => match r with Ok a => mret a | Err e => throw (g e) end).

Definition reading {W E A} (f : W -> A) : SE W E A := fun w => (Ok (f w), w).
Definition updating {W E} (g : W -> W) : SE W E () := fun w => (Ok (), g w).

(** A run, split at its answer. *)
Lemma pair_ok {W E A} (x : result E A * W) (a : A) : x.1 = Ok a -> x = (Ok a, x.2).
Proof. destruct x. by intros [= ->]. Qed.

(** ** What a computation says *)

Section Trace.
Context {W Ev : Type}.
Variable events : W -> list Ev.
(** What no computation changes. *)
Variable Inv : W -> Prop.

(** [says m Q]: run from any state with [Inv], [m] keeps [Inv], appends events
    [new] to the log and returns [r] with [Q r new]. *)
Definition says {E A} (m : SE W E A) (Q : result E A -> list Ev -> Prop) : Prop :=
  forall w, Inv w -> Inv (m w).2 /\ exists new, events (m w).2 = events w ++ new /\ Q (m w).1 new.

Lemma says_weaken {E A} (m : SE W E A) (Q Q' : result E A -> list Ev -> Prop) :
  says m Q -> (forall r new, Q r new -> Q' r new) -> says m Q'.
Proof. intros H HQ w Hw. destruct (H w Hw) as (? & new & ? & ?). eauto. Qed.

Lemma says_give {E A} (r : result E A) (Q : result E A -> list Ev -> Prop) : Q r [] -> says (give r) Q.
Proof. intros H w Hw. split; [done|]. exists []. by rewrite app_nil_r. Qed.

Lemma says_ret {E A} (a : A) (Q : result E A -> list Ev -> Prop) : Q (Ok a) [] -> says (mret a) Q.
Proof. apply (says_give (Ok a)). Qed.

Lemma says_throw {E A} (e : E) (Q : result E A -> list Ev -> Prop) : Q (Err e) [] -> says (throw e) Q.
Proof. apply (says_give (Err e)). Qed.

Lemma says_after {E F A B} (m : SE W E A) (k : result E A -> SE W F B) (Q : result F B -> list Ev -> Prop) :
  says m (fun r new => says (k r) (fun r' new' => Q r' (new ++ new'))) -> says (after m k) Q.
Proof.
  intros H w Hw. destruct (H w Hw) as (Hw1 & new & E1 & Hk). unfold after. destruct (m w) as [r w1]. simpl in *.
  destruct (Hk w1 Hw1) as (Hw2 & new' & E2 & HQ). split; [done|]. exists (new ++ new'). by rewrite E2, E1, (assoc_L (++)).
Qed.

Lemma says_bind {E A B} (m : SE W E A) (k : A -> SE W E B) (Q : result E B -> list Ev -> Prop) :
  says m (fun r new => match r with
                       | Ok a => says (k a) (fun r' new' => Q r' (new ++ new'))
                       | Err e => Q (Err e) new
                       end) -> says (m ≫= k) Q.
Proof.
  intros H. apply says_after. eapply says_weaken; [exact H|]. intros [a|e] new Hr; [done|].
  apply says_throw. by rewrite app_nil_r.
Qed.

Lemma says_map_error {E F A} (g : E -> F) (m : SE W E A) (Q : result F A -> list Ev -> Prop) :
  says m (fun r new => Q (match r with Ok a => Ok a | Err e => Err (g e) end) new) -> says (map_error g m) Q.
Proof.
  intros H. apply says_after. eapply says_weaken; [exact H|].
  intros [a|e] new Hr; [apply says_ret|apply says_throw]; by rewrite app_nil_r.
Qed.

(** A value read from the state; [R] is what the invariant says of it. *)
Lemma says_reading {E A} (f : W -> A) (R : A -> Prop) (Q : result E A -> list Ev -> Prop) :
  (forall w, Inv w -> R (f w)) -> (forall a, R a -> Q (Ok a) []) -> says (reading f) Q.
Proof. intros HR H w Hw. split; [done|]. exists []. rewrite app_nil_r. split; [done|]. by apply H, HR. Qed.

Lemma says_updating {E} (g : W -> W) (Q : result E () -> list Ev -> Prop) :
  (forall w, Inv w -> Inv (g w) /\ events (g w) = events w) -> Q (Ok ()) [] -> says (updating g) Q.
Proof. intros Hg H w Hw. destruct (Hg w Hw). split; [done|]. exists []. by rewrite app_nil_r. Qed.

(** Every event of [m] satisfies [T]. *)
Definition only {E A} (T : Ev -> Prop) (m : SE W E A) : Prop := says m (fun _ new => Forall T new).

Lemma only_after {E F A B} T (m : SE W E A) (k : result E A -> SE W F B) :
  only T m -> (forall r, only T (k r)) -> only T (after m k).
Proof.
  intros Hm Hk. apply says_after. eapply says_weaken; [exact Hm|]. intros r new H1.
  eapply says_weaken; [apply Hk|]. intros r' new' H2. by apply Forall_app.
Qed.

Lemma only_give {E A} T (r : result E A) : only T (give r).
Proof. apply says_give. by constructor. Qed.

Lemma only_ret {E A} T (a : A) : only (E := E) T (mret a).
Proof. apply says_ret. by constructor. Qed.

Lemma only_throw {E A} T (e : E) : only (A := A) T (throw e).
Proof. apply says_throw. by constructor. Qed.

Lemma only_bind {E A B} T (m : SE W E A) (k : A -> SE W E B) : only T m -> (forall a, only T (k a)) -> only T (m ≫= k).
Proof. intros Hm Hk. apply only_after; [done|]. intros [a|e]; [apply Hk|apply only_throw]. Qed.

Lemma only_map_error {E F A} T (g : E -> F) (m : SE W E A) : only T m -> only T (map_error g m).
Proof. intros Hm. apply only_after; [done|]. intros [a|e]; [apply only_ret|apply only_throw]. Qed.

Lemma only_reading {E A} T (f : W -> A) : only (E := E) T (reading f).
Proof. apply (says_reading _ (fun _ => True)); [done|]. by constructor. Qed.

Lemma only_updating {E} T (g : W -> W) : (forall w, Inv w -> Inv (g w) /\ events (g w) = events w) -> only (E := E) T (updating g).
Proof. intros H. apply says_updating; [done|by constructor]. Qed.

Lemma only_weaken {E A} (T T' : Ev -> Prop) (m : SE W E A) : only T m -> (forall e, T e -> T' e) -> only T' m.
Proof. intros H HT. eapply says_weaken; [exact H|]. intros r new Hn. exact (Forall_impl _ _ _ Hn HT). Qed.

End Trace.

#[export] Hint Resolve only_give only_ret only_throw only_bind only_map_error only_reading only_after : says.

(** ** What a computation keeps *)

(** [m] takes every state to one related to it, whatever it answers. *)
Definition keeps {W E A} (R : W -> W -> Prop) (m : SE W E A) : Prop := forall w, R w (m w).2.

Section Keeps.
Context {W : Type} (R : W -> W -> Prop) `{!Reflexive R}.

Lemma keeps_give {E A} (r : result E A) : keeps R (give r).
Proof. by intros w. Qed.

Lemma keeps_ret {E A} (a : A) : keeps (E := E) R (mret a).
Proof. by intros w. Qed.

Lemma keeps_throw {E A} (e : E) : keeps (A := A) R (throw e).
Proof. by intros w. Qed.

Lemma keeps_reading {E A} (f : W -> A) : keeps (E := E) R (reading f).
Proof. by intros w. Qed.

Lemma keeps_updating {E} (g : W -> W) : (forall w, R w (g w)) -> keeps (E := E) R (updating g).
Proof. intros Hg w. apply Hg. Qed.

Context `{!Transitive R}.

Lemma keeps_after {E F A B} (m : SE W E A) (k : result E A -> SE W F B) :
  keeps R m -> (forall r, keeps R (k r)) -> keeps R (after m k).
Proof.
  intros Hm Hk w. unfold after. specialize (Hm w). destruct (m w) as [r w1]. etrans; [exact Hm|apply Hk].
Qed.

Lemma keeps_bind {E A B} (m : SE W E A) (k : A -> SE W E B) : keeps R m -> (forall a, keeps R (k a)) -> keeps R (m ≫= k).
Proof. intros Hm Hk. apply keeps_after; [done|]. intros [a|e]; [apply Hk|apply keeps_throw]. Qed.

Lemma keeps_give_bind {E A B} (r : result E A) (k : A -> SE W E B) : (forall a, r = Ok a -> keeps R (k a)) -> keeps R (give r ≫= k).
Proof. intros Hk w. unfold mbind, SE_bind, after, give. destruct r as [a|e]; [by apply Hk|done]. Qed.

Lemma keeps_map_error {E F A} (g : E -> F) (m : SE W E A) : keeps R m -> keeps R (map_error g m).
Proof. intros Hm. apply keeps_after; [done|]. intros [a|e]; [apply keeps_ret|apply keeps_throw]. Qed.

End Keeps.

Lemma keeps_weaken {W E A} (R R' : W -> W -> Prop) (m : SE W E A) : (forall w w', R w w' -> R' w w') -> keeps R m -> keeps R' m.
Proof. intros HR Hm w. apply HR, Hm. Qed.

(** Split a computation along its structure; the database [kept] has the calls. *)
Create HintDb kept.

Ltac kept_step :=
  match goal with
  | |- keeps ?R (give _) => apply (keeps_give R)
  | |- keeps ?R (throw _) => apply (keeps_throw R)
  | |- keeps ?R (reading _) => apply (keeps_reading R)
  | |- keeps ?R (mret _) => apply (keeps_ret R)
  | |- keeps ?R (map_error _ _) => apply (keeps_map_error R)
  | |- keeps ?R (give _ ≫= _) => apply (keeps_give_bind R)
  | |- keeps ?R (_ ≫= _) => apply (keeps_bind R)
  | |- keeps ?R (after _ _) => apply (keeps_after R)
  | |- keeps _ (match ?x with _ => _ end) => destruct x
  | |- keeps _ (let _ := _ in _) => cbv zeta
  | |- keeps _ _ => solve [auto with kept]
  | |- forall _, _ => intros ?
  end.
Ltac kept := repeat kept_step.

(** ** Runs taken apart at an answer *)

Lemma bind_ok {W E A B} (m : SE W E A) (k : A -> SE W E B) w b w' :
  (m ≫= k) w = (Ok b, w') -> exists a w1, m w = (Ok a, w1) /\ k a w1 = (Ok b, w').
Proof. unfold mbind, SE_bind, after. destruct (m w) as [[a|e] w1]; [eauto|done]. Qed.

Lemma map_error_ok {W E F A} (g : E -> F) (m : SE W E A) w a w' : map_error g m w = (Ok a, w') -> m w = (Ok a, w').
Proof. unfold map_error, after, mret, SE_ret, throw. by destruct (m w) as [[a0|e] w1]; intros [= -> ->]. Qed.

Lemma give_ok {W E A} (r : result E A) (w : W) a w' : give r w = (Ok a, w') -> r = Ok a /\ w' = w.
Proof. by intros [= -> ->]. Qed.

Lemma reading_ok {W E A} (f : W -> A) (w : W) a w' : reading (E := E) f w = (Ok a, w') -> a = f w /\ w' = w.
Proof. by intros [= <- <-]. Qed.

Lemma updating_ok {W E} (g : W -> W) (w : W) a w' : updating (E := E) g w = (Ok a, w') -> w' = g w.
Proof. by intros [= _ <-]. Qed.
