(* ===== verification/Str.v ===== *)
(** * Rust text

    A Rust [str] is a sequence of Unicode scalar values; here a list of code
    points. Byte lengths and offsets are those of the UTF-8 encoding. The file
    holds the [str] and [char] methods of the Rust standard library that the
    modelled code calls, with the lemmas about them. *)

From Stdlib Require Import Ascii String NArith.
From S2P Require Import Prelude.
Open Scope list_scope.

Abbreviation rchar := N.
Abbreviation rstr := (list N).

(** A literal of the source, ASCII only. *)
Definition lit (s : string) : rstr := N_of_ascii <$> list_ascii_of_string s.
Arguments lit _%_string_scope.
Export StringSyntax.

Definition chr (a : ascii) : rchar := N_of_ascii a.

Definition LF : rchar := 10%N.
Definition CR : rchar := 13%N.
Definition NUL : rchar := 0%N.
Definition TAB : rchar := 9%N.
Definition SPACE : rchar := 32%N.

(** ** [char] *)

Definition len_utf8 (c : rchar) : nat :=
  if (c <? 128)%N then 1
  else if (c <? 2048)%N then 2
  else if (c <? 65536)%N then 3
  else 4.

(** The [White_Space] property, [char::is_whitespace]. *)
Definition is_whitespace (c : rchar) : bool :=
  ((9 <=? c) && (c <=? 13) || (c =? 32) || (c =? 133) || (c =? 160) || (c =? 5760)
   || (8192 <=? c) && (c <=? 8202) || (c =? 8232) || (c =? 8233) || (c =? 8239)
   || (c =? 8287) || (c =? 12288))%N.

Definition is_ascii_digit (c : rchar) : bool := ((48 <=? c) && (c <=? 57))%N.
Definition is_ascii_uppercase (c : rchar) : bool := ((65 <=? c) && (c <=? 90))%N.
Definition is_ascii_lowercase (c : rchar) : bool := ((97 <=? c) && (c <=? 122))%N.
Definition is_ascii_alphabetic (c : rchar) : bool := is_ascii_uppercase c || is_ascii_lowercase c.
Definition is_ascii_alphanumeric (c : rchar) : bool := is_ascii_alphabetic c || is_ascii_digit c.

Definition char_to_ascii_uppercase (c : rchar) : rchar :=
  if is_ascii_lowercase c then (c - 32)%N else c.

Definition char_to_ascii_lowercase (c : rchar) : rchar :=
  if is_ascii_uppercase c then (c + 32)%N else c.

(** ** [str] *)

(** [str::len], in bytes. *)
Definition str_len (s : rstr) : nat := sum_list_with len_utf8 s.

Definition is_empty {A} (s : list A) : bool := match s with [] => true | _ => false end.

Definition starts_with (c : rchar) (s : rstr) : bool := bool_decide (head s = Some c).
Definition ends_with (c : rchar) (s : rstr) : bool := bool_decide (last s = Some c).
(** [starts_with] with a predicate on characters. *)
Definition starts_where (p : rchar -> bool) (s : rstr) : bool := match s with c :: _ => p c | [] => false end.
Definition contains (c : rchar) (s : rstr) : bool := existsb (N.eqb c) s.
Definition contains_any (cs : list rchar) (s : rstr) : bool := existsb (fun c => contains c s) cs.

(** [String::pop] and the other functions that drop the last character. *)
Definition pop (s : rstr) : rstr := take (length s - 1) s.

Definition strip_suffix (c : rchar) (s : rstr) : option rstr :=
  if ends_with c s then Some (pop s) else None.

Definition strip_prefix (c : rchar) (s : rstr) : option rstr :=
  match s with x :: s' => if (x =? c)%N then Some s' else None | [] => None end.

(** [split_inclusive('\n')]. *)
Fixpoint split_inclusive (s : rstr) : list rstr :=
  match s with
  | [] => []
  | c :: s' =>
      if (c =? LF)%N then [c] :: split_inclusive s'
      else match split_inclusive s' with
           | [] => [[c]]
           | seg :: segs => (c :: seg) :: segs
           end
  end.

Fixpoint drop_while {A} (p : A -> bool) (s : list A) : list A :=
  match s with
  | x :: s' => if p x then drop_while p s' else s
  | [] => []
  end.

Fixpoint take_while {A} (p : A -> bool) (s : list A) : list A :=
  match s with
  | x :: s' => if p x then x :: take_while p s' else []
  | [] => []
  end.

Definition trim_start_matches (p : rchar -> bool) (s : rstr) : rstr := drop_while p s.
Definition trim_end_matches (p : rchar -> bool) (s : rstr) : rstr := reverse (drop_while p (reverse s)).
Definition trim_start (s : rstr) : rstr := trim_start_matches is_whitespace s.
Definition trim_end (s : rstr) : rstr := trim_end_matches is_whitespace s.
Definition trim (s : rstr) : rstr := trim_end (trim_start s).

(** [split_once] at the first character that satisfies [p]. *)
Fixpoint split_once (p : rchar -> bool) (s : rstr) : option (rstr * rstr) :=
  match s with
  | [] => None
  | c :: s' => if p c then Some ([], s')
               else '(a, b) ← split_once p s'; Some (c :: a, b)
  end.

(** [split] at every character that satisfies [p]: at least one piece. *)
Fixpoint split (p : rchar -> bool) (s : rstr) : list rstr :=
  match s with
  | [] => [[]]
  | c :: s' => if p c then [] :: split p s'
               else match split p s' with
                    | [] => [[c]]
                    | seg :: segs => (c :: seg) :: segs
                    end
  end.

(** [split_whitespace]: the non-empty pieces between whitespace. *)
Definition split_whitespace (s : rstr) : list rstr :=
  filter (fun p => is_empty p = false) (split is_whitespace s).

Fixpoint join (sep : rstr) (parts : list rstr) : rstr :=
  match parts with
  | [] => []
  | [p] => p
  | p :: ps => p ++ sep ++ join sep ps
  end.

(** [Ord for str]: the order of the UTF-8 bytes, which is that of the code points. *)
Fixpoint str_ltb (a b : rstr) : bool :=
  match a, b with
  | _, [] => false
  | [], _ => true
  | x :: a', y :: b' => (x <? y)%N || ((x =? y)%N && str_ltb a' b')
  end.

Definition to_ascii_uppercase (s : rstr) : rstr := char_to_ascii_uppercase <$> s.
Definition to_ascii_lowercase (s : rstr) : rstr := char_to_ascii_lowercase <$> s.
Definition eq_ignore_ascii_case (a b : rstr) : bool :=
  bool_decide (to_ascii_lowercase a = to_ascii_lowercase b).

(** ** Lemmas *)

Lemma concat_split_inclusive s : concat (split_inclusive s) = s.
Proof.
  induction s as [|c s IH]; [done|]. simpl. destruct (c =? LF)%N; simpl; [by rewrite IH|].
  destruct (split_inclusive s); simpl in *; by rewrite <- IH.
Qed.

Lemma pop_snoc s c : pop (s ++ [c]) = s.
Proof.
  unfold pop. rewrite length_app. simpl.
  replace (length s + 1 - 1) with (length s) by lia. by rewrite take_app_length.
Qed.

Lemma ends_with_snoc c s x : ends_with c (s ++ [x]) = (x =? c)%N.
Proof.
  unfold ends_with. rewrite last_snoc. destruct (N.eqb_spec x c) as [->|Hne].
  - by apply bool_decide_eq_true.
  - apply bool_decide_eq_false. congruence.
Qed.

Lemma ends_with_inv c s : ends_with c s = true -> s = pop s ++ [c].
Proof.
  destruct s as [|x s _] using rev_ind; [done|].
  rewrite ends_with_snoc, pop_snoc. by intros ->%N.eqb_eq.
Qed.

Lemma strip_suffix_some c s b : strip_suffix c s = Some b <-> s = b ++ [c].
Proof.
  unfold strip_suffix. split.
  - destruct (ends_with c s) eqn:E; [|done]. intros [= <-]. by apply ends_with_inv.
  - intros ->. by rewrite ends_with_snoc, N.eqb_refl, pop_snoc.
Qed.

Lemma strip_suffix_none c s : strip_suffix c s = None <-> ends_with c s = false.
Proof. unfold strip_suffix. destruct (ends_with c s); naive_solver. Qed.

Lemma str_len_app a b : str_len (a ++ b) = str_len a + str_len b.
Proof. apply sum_list_with_app. Qed.

Lemma contains_In c s : contains c s = true <-> In c s.
Proof.
  unfold contains. rewrite existsb_exists. split.
  - by intros (x & Hx & ->%N.eqb_eq).
  - intros Hc. exists c. by rewrite N.eqb_refl.
Qed.

Lemma contains_false c s : contains c s = false <-> c ∉ s.
Proof. rewrite <- not_true_iff_false, contains_In, list_elem_of_In. done. Qed.

Lemma contains_any_false cs s : contains_any cs s = false <-> forall c, c ∈ s -> c ∉ cs.
Proof.
  unfold contains_any. induction cs as [|x cs IH]; simpl; [split; [intros _ c _; apply not_elem_of_nil|done]|].
  rewrite orb_false_iff, contains_false, IH. setoid_rewrite not_elem_of_cons. split.
  - intros [Hx Hcs] c Hc. split; [by intros ->|auto].
  - intros Hall. split; [intros Hx; by apply (proj1 (Hall x Hx))|intros c Hc; by apply Hall].
Qed.

(** *** Trimming and splitting *)

Lemma drop_while_snoc {A} (p : A -> bool) s x :
  drop_while p (s ++ [x]) =
  if forallb p s then (if p x then [] else [x]) else drop_while p s ++ [x].
Proof.
  induction s as [|y s IH]; simpl; [by destruct (p x)|].
  destruct (p y); simpl; [exact IH|done].
Qed.

Lemma drop_while_all {A} (p : A -> bool) s : forallb p s = true <-> drop_while p s = [].
Proof. induction s as [|y s IH]; simpl; [done|]. destruct (p y); simpl; [exact IH|done]. Qed.

Lemma drop_while_head {A} (p : A -> bool) s x s' : drop_while p s = x :: s' -> p x = false.
Proof. induction s as [|y s IH]; simpl; [done|]. destruct (p y) eqn:E; [exact IH|]. by intros [= <- _]. Qed.

(** What [drop_while] drops. *)
Lemma drop_while_split {A} (p : A -> bool) s x t :
  drop_while p s = x :: t -> exists ws, s = ws ++ x :: t /\ forall y, y ∈ ws -> p y = true.
Proof.
  induction s as [|y s IH]; simpl; [done|]. destruct (p y) eqn:E.
  - intros (ws & -> & Hw)%IH. exists (y :: ws). split; [done|]. intros z [->|?]%elem_of_cons; auto.
  - intros [= <- <-]. exists []. split; [done|]. set_solver.
Qed.

Lemma trim_end_matches_snoc (p : rchar -> bool) s x :
  p x = true -> trim_end_matches p (s ++ [x]) = trim_end_matches p s.
Proof. intros Hx. unfold trim_end_matches. rewrite reverse_snoc. simpl. by rewrite Hx. Qed.

Lemma trim_start_snoc s x :
  is_whitespace x = true ->
  trim_start (s ++ [x]) = match trim_start s with [] => [] | t => t ++ [x] end.
Proof.
  intros Hx. unfold trim_start, trim_start_matches. rewrite drop_while_snoc, Hx.
  destruct (forallb is_whitespace s) eqn:E.
  - apply drop_while_all in E. by rewrite E.
  - destruct (drop_while is_whitespace s) eqn:E'; [|done].
    apply drop_while_all in E'. congruence.
Qed.

Lemma trim_snoc s x : is_whitespace x = true -> trim (s ++ [x]) = trim s.
Proof.
  intros Hx. unfold trim. rewrite trim_start_snoc by done.
  destruct (trim_start s) as [|y t]; [done|].
  unfold trim_end. by rewrite trim_end_matches_snoc.
Qed.

Lemma trim_end_matches_nil p s : trim_end_matches p s = [] <-> forallb p s = true.
Proof.
  unfold trim_end_matches. rewrite <- reverse_nil at 1. split.
  - intros H%(inj reverse). apply drop_while_all in H.
    rewrite forallb_forall in *. intros x Hx. apply H. by rewrite <- list_elem_of_In, elem_of_reverse, list_elem_of_In.
  - intros H. f_equal. apply drop_while_all. rewrite forallb_forall in *.
    intros x Hx. apply H. by rewrite <- list_elem_of_In, elem_of_reverse, list_elem_of_In in Hx.
Qed.

Lemma trim_nil s : trim s = [] <-> trim_start s = [].
Proof.
  unfold trim, trim_end. rewrite trim_end_matches_nil. split; [|by intros ->].
  unfold trim_start, trim_start_matches. destruct (drop_while is_whitespace s) as [|x t] eqn:E; [done|].
  apply drop_while_head in E. simpl. by rewrite E.
Qed.

Lemma split_once_snoc p s x :
  split_once p (s ++ [x]) =
  match split_once p s with
  | Some (a, b) => Some (a, b ++ [x])
  | None => if p x then Some (s, []) else None
  end.
Proof.
  induction s as [|y s IH]; simpl; [by destruct (p x)|].
  destruct (p y); [done|]. rewrite IH. destruct (split_once p s) as [[a b]|]; simpl; [done|].
  by destruct (p x).
Qed.

Lemma split_once_none p s : split_once p s = None <-> forall x, x ∈ s -> p x = false.
Proof.
  induction s as [|y s IH]; simpl; [set_solver|]. destruct (p y) eqn:E.
  - split; [done|]. intros H. specialize (H y ltac:(set_solver)). congruence.
  - destruct (split_once p s) as [[a b]|] eqn:Es; simpl.
    + split; [done|]. intros H. exfalso. assert (Some (a, b) = None) by (apply IH; set_solver). done.
    + split; [|done]. intros _ x [->|Hx]%elem_of_cons; [done|]. by apply IH.
Qed.

Lemma split_once_app p s a b :
  split_once p s = Some (a, b) -> exists x, s = a ++ x :: b /\ p x = true /\ forall y, y ∈ a -> p y = false.
Proof.
  revert a b; induction s as [|y s IH]; intros a b; simpl; [done|].
  destruct (p y) eqn:E.
  - intros [= <- <-]. exists y. split_and!; [done|done|set_solver].
  - destruct (split_once p s) as [[a' b']|]; simpl; [|done]. intros [= <- <-].
    destruct (IH _ _ eq_refl) as (x & -> & ? & ?). exists x. split_and!; [done|done|].
    intros z [->|?]%elem_of_cons; auto.
Qed.

Lemma split_nonempty p s : split p s <> [].
Proof. destruct s as [|z s]; simpl; [done|]. destruct (p z); [done|]. by destruct (split p s). Qed.

Lemma split_snoc p s x : p x = true -> split p (s ++ [x]) = split p s ++ [[]].
Proof.
  intros Hx. induction s as [|y s IH]; simpl; [by rewrite Hx|].
  destruct (p y); [by rewrite IH|]. rewrite IH.
  pose proof (split_nonempty p s). by destruct (split p s).
Qed.

Lemma split_whitespace_snoc s x : is_whitespace x = true -> split_whitespace (s ++ [x]) = split_whitespace s.
Proof.
  intros Hx. unfold split_whitespace. rewrite split_snoc by done. by rewrite filter_app, app_nil_r.
Qed.

(** Every character of a piece comes from the text, and none satisfies [p]. *)
Lemma split_elem p s piece x : piece ∈ split p s -> x ∈ piece -> x ∈ s /\ p x = false.
Proof.
  revert piece; induction s as [|y s IH]; intros piece; simpl.
  - intros ->%list_elem_of_singleton. set_solver.
  - destruct (p y) eqn:E.
    + intros [->|Hp]%elem_of_cons Hx; [set_solver|]. destruct (IH _ Hp Hx). set_solver.
    + destruct (split p s) as [|seg segs] eqn:Es.
      * intros ->%list_elem_of_singleton ->%list_elem_of_singleton. split; [set_solver|done].
      * intros [->|Hp]%elem_of_cons Hx.
        -- apply elem_of_cons in Hx as [->|Hx]; [split; [set_solver|done]|].
           destruct (IH seg ltac:(set_solver) Hx). set_solver.
        -- destruct (IH piece ltac:(set_solver) Hx). set_solver.
Qed.

Lemma split_once_at p a x b :
  (forall y, y ∈ a -> p y = false) -> p x = true -> split_once p (a ++ x :: b) = Some (a, b).
Proof.
  intros Ha Hx. induction a as [|y a IH]; simpl; [by rewrite Hx|].
  rewrite (Ha y) by set_solver. rewrite IH by set_solver. done.
Qed.

Lemma split_covers p s x : x ∈ s -> p x = true \/ exists piece, piece ∈ split p s /\ x ∈ piece.
Proof.
  induction s as [|y s IH]; [set_solver|]. intros Hx. simpl. destruct (p y) eqn:E.
  - apply elem_of_cons in Hx as [->|Hx]; [by left|].
    destruct (IH Hx) as [?|(q & ? & ?)]; [by left|]. right. exists q. set_solver.
  - destruct (split p s) as [|seg segs]; apply elem_of_cons in Hx as [->|Hx].
    + right. exists [y]. set_solver.
    + destruct (IH Hx) as [?|(q & ? & ?)]; [by left|]. set_solver.
    + right. exists (y :: seg). set_solver.
    + destruct (IH Hx) as [?|(q & Hq & ?)]; [by left|]. right.
      apply elem_of_cons in Hq as [->|Hq]; [exists (y :: seg)|exists q]; set_solver.
Qed.

Lemma split_piece p a : (forall y, y ∈ a -> p y = false) -> split p a = [a].
Proof.
  induction a as [|y a IH]; intros Ha; simpl; [done|].
  rewrite (Ha y), IH by set_solver. done.
Qed.

Lemma split_piece_cons p a x rest :
  (forall y, y ∈ a -> p y = false) -> p x = true -> split p (a ++ x :: rest) = a :: split p rest.
Proof.
  induction a as [|y a IH]; intros Ha Hx; simpl; [by rewrite Hx|].
  rewrite (Ha y), IH by set_solver. done.
Qed.

(** Words joined by single spaces split back into the words. *)
Lemma split_whitespace_join words :
  Forall (fun w => w <> [] /\ forall y, y ∈ w -> is_whitespace y = false) words -> words <> [] ->
  split_whitespace (join [SPACE] words) = words.
Proof.
  unfold split_whitespace. induction 1 as [|w words [Hw Hn] Hws IH]; [done|]. intros _. cbn [join].
  assert (is_empty w = false) as He by (by destruct w).
  destruct words as [|w' words].
  - rewrite split_piece by done. by rewrite filter_cons_True.
  - change ([SPACE] ++ join [SPACE] (w' :: words)) with (SPACE :: join [SPACE] (w' :: words)).
    rewrite split_piece_cons by done. rewrite filter_cons_True by done. by rewrite IH.
Qed.

Lemma trim_start_id c s : is_whitespace c = false -> trim_start (c :: s) = c :: s.
Proof. intros Hc. unfold trim_start, trim_start_matches. simpl. by rewrite Hc. Qed.

(** Splitting a concatenation: the pieces meet in the last one of the first part. *)
Lemma split_app p a b :
  split p (a ++ b) = split p (a ++ default [] (head (split p b))) ++ tail (split p b).
Proof.
  induction a as [|x a IH]; simpl.
  - destruct (split p b) as [|piece rest] eqn:E; [by apply split_nonempty in E|]. simpl.
    rewrite split_piece; [done|]. intros y Hy. eapply split_elem; [|exact Hy]. rewrite E. by left.
  - destruct (p x); [by rewrite IH|]. rewrite IH.
    destruct (split p (a ++ default [] _)) as [|piece rest] eqn:E; [by apply split_nonempty in E|]. done.
Qed.

Lemma split_sep p a x b : p x = true -> split p (a ++ x :: b) = split p a ++ split p b.
Proof.
  intros Hx. induction a as [|y a IH]; simpl; [by rewrite Hx|].
  destruct (p y); [by rewrite IH|]. rewrite IH.
  destruct (split p a) as [|piece rest] eqn:E; [by apply split_nonempty in E|]. done.
Qed.

(** *** Trimmed texts *)

(** A text without whitespace at either end. *)
Definition trimmed (s : rstr) : Prop :=
  (forall c, head s = Some c -> is_whitespace c = false) /\ (forall c, last s = Some c -> is_whitespace c = false).

Lemma drop_while_id {A} (p : A -> bool) s : (forall c, head s = Some c -> p c = false) -> drop_while p s = s.
Proof. destruct s as [|c s]; [done|]. intros Hc. simpl. by rewrite (Hc c). Qed.

Lemma trim_start_trimmed s : (forall c, head s = Some c -> is_whitespace c = false) -> trim_start s = s.
Proof. apply drop_while_id. Qed.

Lemma trim_end_matches_id p s : (forall c, last s = Some c -> p c = false) -> trim_end_matches p s = s.
Proof.
  intros Hc. unfold trim_end_matches. rewrite drop_while_id; [by rewrite reverse_involutive|].
  intros c. rewrite head_reverse. apply Hc.
Qed.

Lemma trimmed_trim s : trimmed s -> trim s = s.
Proof. intros [Hh Hl]. unfold trim. rewrite trim_start_trimmed by done. by apply trim_end_matches_id. Qed.

Lemma trim_start_head s c : head (trim_start s) = Some c -> is_whitespace c = false.
Proof.
  unfold trim_start, trim_start_matches. destruct (drop_while _ s) eqn:E; [done|]. intros [= <-].
  by apply drop_while_head in E.
Qed.

Lemma drop_while_last {A} (p : A -> bool) s x t : drop_while p s = x :: t -> last s = last (x :: t).
Proof. intros (ws & -> & _)%drop_while_split. by rewrite last_app_cons. Qed.

Lemma trim_end_matches_last p s c : last (trim_end_matches p s) = Some c -> p c = false.
Proof.
  unfold trim_end_matches. rewrite last_reverse. destruct (drop_while p (reverse s)) eqn:E; [done|].
  intros [= <-]. by apply drop_while_head in E.
Qed.

Lemma trim_end_matches_prefix p s : trim_end_matches p s `prefix_of` s.
Proof.
  unfold trim_end_matches. destruct (drop_while p (reverse s)) as [|x t] eqn:E; [apply prefix_nil|].
  apply drop_while_split in E as (ws & E & _). exists (reverse ws).
  by rewrite <- reverse_app, <- E, reverse_involutive.
Qed.

Lemma trim_trimmed s : trimmed (trim s).
Proof.
  unfold trim, trim_end. split; intros c Hc; [|by eapply trim_end_matches_last].
  destruct (trim_end_matches_prefix is_whitespace (trim_start s)) as [k Hk].
  apply (trim_start_head s). rewrite Hk. by destruct (trim_end_matches _ _).
Qed.

Lemma trim_trim s : trim (trim s) = trim s.
Proof. apply trimmed_trim, trim_trimmed. Qed.

Lemma drop_while_suffix {A} (p : A -> bool) s : exists ws, s = ws ++ drop_while p s /\ forall y, y ∈ ws -> p y = true.
Proof.
  destruct (drop_while p s) as [|x t] eqn:E; [|by apply drop_while_split in E].
  exists s. rewrite app_nil_r. split; [done|]. apply drop_while_all in E. rewrite forallb_forall in E.
  intros y Hy%list_elem_of_In. by apply E.
Qed.

Lemma trim_start_suffix s : exists ws, s = ws ++ trim_start s /\ forall y, y ∈ ws -> is_whitespace y = true.
Proof. apply drop_while_suffix. Qed.

(** [trim_end_matches] leaves off matching characters only. *)
Lemma trim_end_matches_app p s : exists ws, s = trim_end_matches p s ++ ws /\ forall y, y ∈ ws -> p y = true.
Proof.
  destruct (drop_while_suffix p (reverse s)) as (ws & E & Hws). exists (reverse ws). split.
  - unfold trim_end_matches. by rewrite <- reverse_app, <- E, reverse_involutive.
  - intros y Hy. apply Hws. by apply elem_of_reverse.
Qed.

Lemma trim_elem c s : c ∈ trim s -> c ∈ s.
Proof.
  unfold trim, trim_end. intros Hc. destruct (trim_end_matches_app is_whitespace (trim_start s)) as (ws & E & _).
  destruct (trim_start_suffix s) as (ws' & E' & _). rewrite E', E. set_solver.
Qed.

(** A text and its trimmed form start at the same character. *)
Lemma trim_head s : head (trim s) = head (trim_start s).
Proof.
  unfold trim. destruct (trim_start s) as [|x t] eqn:E; [done|].
  destruct (trim_end_matches_prefix is_whitespace (x :: t)) as [k Hk]. unfold trim_end.
  destruct (trim_end_matches is_whitespace (x :: t)) as [|y u] eqn:Et; [|by injection Hk as <-].
  apply trim_end_matches_nil in Et. simpl in Et. apply andb_true_iff in Et as [Et _].
  pose proof (trim_start_head s x). rewrite E in H. rewrite H in Et; done.
Qed.

(** *** Words *)

Lemma split_join p x parts :
  p x = true -> Forall (fun w => forall y, y ∈ w -> p y = false) parts -> parts <> [] ->
  split p (join [x] parts) = parts.
Proof.
  intros Hx. induction 1 as [|w parts Hw Hps IH]; [done|]. intros _. cbn [join].
  destruct parts as [|w' parts]; [by apply split_piece|].
  change ([x] ++ join [x] (w' :: parts)) with (x :: join [x] (w' :: parts)).
  rewrite split_piece_cons by done. by rewrite IH.
Qed.

(** The words of a text: not empty, without whitespace, made of its characters. *)
Lemma split_whitespace_words s w :
  w ∈ split_whitespace s -> w <> [] /\ forall c, c ∈ w -> is_whitespace c = false /\ c ∈ s.
Proof.
  unfold split_whitespace. intros [Hw Hin]%list_elem_of_filter. split; [by intros ->|].
  intros c Hc. destruct (split_elem _ _ _ _ Hin Hc). done.
Qed.

Lemma split_whitespace_start s : split_whitespace (trim_start s) = split_whitespace s.
Proof.
  unfold split_whitespace. destruct (trim_start_suffix s) as (ws & Hv & Hws). rewrite Hv at 2. clear Hv.
  induction ws as [|x ws IH]; [done|]. cbn [app split]. rewrite (Hws x) by set_solver.
  rewrite filter_cons_False by done. apply IH. set_solver.
Qed.

(** The first word starts where the text does. *)
Lemma split_whitespace_head s w ws :
  split_whitespace s = w :: ws -> head w = head (trim_start s).
Proof.
  rewrite <- split_whitespace_start. pose proof (trim_start_head s) as Hh.
  destruct (trim_start s) as [|x t]; [done|]. specialize (Hh x eq_refl).
  unfold split_whitespace. cbn [split]. rewrite Hh. destruct (split is_whitespace t) as [|seg segs];
    (rewrite filter_cons_True by done); by intros [= <- _].
Qed.

Lemma elem_of_join x sep parts : x ∈ join sep parts -> x ∈ sep \/ exists w, w ∈ parts /\ x ∈ w.
Proof.
  induction parts as [|w parts IH]; [set_solver|]. cbn [join]. destruct parts as [|w' parts].
  - intros H. right. exists w. set_solver.
  - rewrite !elem_of_app. intros [H|[H|H]]; [right; exists w; set_solver|by left|].
    destruct (IH H) as [?|(u & ? & ?)]; [by left|right; exists u; set_solver].
Qed.

(** Splitting at a character and joining with it gives the text back. *)
Lemma join_split x s : join [x] (split (N.eqb x) s) = s.
Proof.
  induction s as [|c s IH]; [done|]. cbn [split]. pose proof (split_nonempty (N.eqb x) s) as Hn.
  destruct (N.eqb_spec x c) as [->|Hne].
  - destruct (split (N.eqb c) s) as [|seg segs]; [done|]. cbn [join]. by rewrite <- IH.
  - destruct (split (N.eqb x) s) as [|seg segs]; [done|]. rewrite <- IH. by destruct segs.
Qed.
