(* ===== verification/Num.v ===== *)
(** * Rust's integers

    What the sources use of the standard library's integers: [from_str] of the
    unsigned types, [Display], and the checked, saturating and wrapping operations
    at a width. An integer of [w] bits is a [Z] in [0, 2^w). *)

From Stdlib Require Import ZArith.
From S2P Require Import Prelude Str.
#[local] Open Scope Z_scope.

Definition max_of (w : Z) : Z := 2 ^ w - 1.
Definition fits (w x : Z) : Prop := 0 <= x <= max_of w.

Definition checked (w x : Z) : option Z := if (0 <=? x) && (x <=? max_of w) then Some x else None.
Definition saturating_add (w a b : Z) : Z := Z.min (max_of w) (a + b).
Definition saturating_sub (a b : Z) : Z := Z.max 0 (a - b).
Definition saturating_mul (w a b : Z) : Z := Z.min (max_of w) (a * b).

(** ** [str::parse] for an unsigned type of [w] bits *)

Definition PLUS : rchar := 43%N.

Fixpoint parse_digits (w acc : Z) (s : rstr) : option Z :=
  match s with
  | [] => Some acc
  | c :: s' =>
      if is_ascii_digit c then
        scaled ← checked w (acc * 10);
        next ← checked w (scaled + (Z.of_N c - 48));
        parse_digits w next s'
      else None
  end.

Definition parse_unsigned (w : Z) (s : rstr) : option Z :=
  let digits := default s (strip_prefix PLUS s) in
  if is_empty digits then None else parse_digits w 0 digits.

Lemma checked_some w x y : checked w x = Some y <-> x = y /\ fits w x.
Proof.
  unfold checked, fits. destruct (0 <=? x) eqn:?, (x <=? max_of w) eqn:?; simpl; bool_to_prop;
    split; naive_solver lia.
Qed.

Lemma parse_digits_fits w acc s v : fits w acc -> parse_digits w acc s = Some v -> fits w v.
Proof.
  revert acc. induction s as [|c s IH]; simpl; intros acc Hacc H; [naive_solver|].
  destruct (is_ascii_digit c); [|done].
  apply bind_Some in H as (a & Ha & H). apply bind_Some in H as (b & Hb & H).
  apply checked_some in Hb as [<- ?]. eauto.
Qed.

Lemma parse_unsigned_fits w s v : 0 < w -> parse_unsigned w s = Some v -> fits w v.
Proof.
  unfold parse_unsigned. intros Hw H. case_if; [done|].
  eapply parse_digits_fits in H; [done|]. unfold fits, max_of.
  pose proof (Z.pow_le_mono_r 2 1 w). lia.
Qed.

#[export] Hint Resolve parse_unsigned_fits : detent.

(** ** [str::bytes]: the UTF-8 encoding *)

Definition utf8 (c : rchar) : list Z :=
  let c := Z.of_N c in
  if c <? 128 then [c]
  else if c <? 2048 then [192 + c / 64; 128 + c mod 64]
  else if c <? 65536 then [224 + c / 4096; 128 + c / 64 mod 64; 128 + c mod 64]
  else [240 + c / 262144; 128 + c / 4096 mod 64; 128 + c / 64 mod 64; 128 + c mod 64].

Definition bytes (s : rstr) : list Z := concat (utf8 <$> s).

Definition is_byte (b : Z) : Prop := 0 <= b < 256.

Lemma bytes_cons c s : bytes (c :: s) = utf8 c ++ bytes s.
Proof. done. Qed.

Lemma utf8_ascii c : (c < 128)%N -> utf8 c = [Z.of_N c].
Proof. intros H. unfold utf8. by rewrite (proj2 (Z.ltb_lt _ _)) by lia. Qed.

Lemma utf8_high c x : (128 <= c)%N -> x ∈ utf8 c -> 128 <= x.
Proof.
  intros H Hx. unfold utf8 in Hx. rewrite (proj2 (Z.ltb_ge _ _)) in Hx by lia.
  pose proof (Z.div_pos (Z.of_N c) 64). pose proof (Z.div_pos (Z.of_N c) 4096).
  pose proof (Z.div_pos (Z.of_N c) 262144).
  repeat case_if; repeat (apply elem_of_cons in Hx as [->|Hx]); try (by apply elem_of_nil in Hx);
    repeat match goal with |- context [?a mod 64] => pose proof (Z.mod_pos_bound a 64 ltac:(lia)); generalize dependent (a mod 64); intros end; lia.
Qed.

Lemma utf8_nonempty c : utf8 c <> [].
Proof. unfold utf8. repeat case_if; done. Qed.

(** ** Disjoint bits *)

Lemma lor_low x k b : 0 <= k -> 0 <= b < 2 ^ k -> Z.lor (x * 2 ^ k) b = x * 2 ^ k + b.
Proof.
  intros Hk Hb. destruct (decide (b = 0)) as [->|Hne]; [by rewrite Z.lor_0_r, Z.add_0_r|].
  assert (Hd : Z.land (x * 2 ^ k) b = 0).
  { apply Z.bits_inj'. intros i Hi. rewrite Z.land_spec, Z.bits_0.
    destruct (decide (i < k)); [by rewrite Z.mul_pow2_bits_low|].
    assert (Z.log2 b < k) by (apply Z.log2_lt_pow2; lia).
    by rewrite (Z.bits_above_log2 b), andb_false_r by lia. }
  by rewrite <- Z.lxor_lor, <- Z.add_nocarry_lxor.
Qed.

(** [x << k | b] at [w] bits. *)
Lemma shl_or_mod w k x b : 0 <= k <= w -> 0 <= b < 2 ^ k ->
  Z.lor (Z.land (Z.shiftl x k) (max_of w)) b = (x * 2 ^ k) mod 2 ^ w + b.
Proof.
  intros Hk Hb. unfold max_of. replace (2 ^ w - 1) with (Z.ones w) by (rewrite Z.ones_equiv; lia).
  rewrite Z.shiftl_mul_pow2, Z.land_ones by lia.
  replace w with (w - k + k) at 1 2 by lia. rewrite Z.pow_add_r, Z.mul_mod_distr_r by lia.
  apply lor_low; lia.
Qed.
