(* ===== verification/Doc.v ===== *)
(** * The lossless line document: [crates/detent-core/src/doc.rs] and the edit
    report and edit errors of [crates/detent-core/src/module.rs]. *)

From S2P Require Import Prelude Align Str.

(** ** Data *)

Record Span := mkSpan { span_start : nat; span_end : nat }.

Inductive LineEnding := Lf | CrLf | NoEnding.

Definition as_str (e : LineEnding) : rstr :=
  match e with Lf => [LF] | CrLf => [CR; LF] | NoEnding => [] end.

Inductive LineKind := Blank | Comment | Directive | Unknown.

Record Line := mkLine { kind : LineKind; raw : rstr; ending : LineEnding; span : Span }.

Inductive EditError :=
| LineBreakInValue (value : rstr)
| IndexOutOfRange (index len : nat)
| Unsupported (message : rstr).

Record EditReport := mkReport { changed_lines : nat; added : nat; removed : nat }.

Record Document := mkDocument { lines : list Line; classify : rstr -> LineKind }.

#[export] Instance Span_eq_dec : EqDecision Span.
Proof. solve_decision. Defined.
#[export] Instance LineEnding_eq_dec : EqDecision LineEnding.
Proof. solve_decision. Defined.
#[export] Instance LineKind_eq_dec : EqDecision LineKind.
Proof. solve_decision. Defined.
#[export] Instance Line_eq_dec : EqDecision Line.
Proof. solve_decision. Defined.
#[export] Instance EditError_eq_dec : EqDecision EditError.
Proof. solve_decision. Defined.
#[export] Instance EditReport_eq_dec : EqDecision EditReport.
Proof. solve_decision. Defined.

(** [Document::eq]: the classifier is not compared. *)
Definition doc_eq (a b : Document) : Prop := lines a = lines b.

Definition new_line (raw : rstr) (kind : LineKind) (ending : LineEnding) : Line :=
  mkLine kind raw ending (mkSpan 0 0).

Definition set_ending (e : LineEnding) (l : Line) : Line :=
  mkLine (kind l) (raw l) e (span l).
Definition set_raw (k : LineKind) (r : rstr) (l : Line) : Line :=
  mkLine k r (ending l) (span l).
Definition set_span (s : Span) (l : Line) : Line := mkLine (kind l) (raw l) (ending l) s.

(** Edit of the last element, [lines.last_mut()]. *)
Definition alter_last {A} (f : A -> A) (l : list A) : list A := alter f (length l - 1) l.

(** ** Parsing and rendering *)

Definition split_segment (segment : rstr) : rstr * LineEnding :=
  match strip_suffix LF segment with
  | Some body => match strip_suffix CR body with
                 | Some body' => (body', CrLf)
                 | None => (body, Lf)
                 end
  | None => (segment, NoEnding)
  end.

Fixpoint parse_segments (classify : rstr -> LineKind) (offset : nat) (segments : list rstr)
    : list Line :=
  match segments with
  | [] => []
  | segment :: rest =>
      let '(r, e) := split_segment segment in
      mkLine (classify r) r e (mkSpan offset (offset + str_len r))
        :: parse_segments classify (offset + str_len segment) rest
  end.

Definition parse (src : rstr) (classify : rstr -> LineKind) : Document :=
  mkDocument (parse_segments classify 0 (split_inclusive src)) classify.

Definition render_line (l : Line) : rstr := raw l ++ as_str (ending l).

Definition render (doc : Document) : rstr := concat (render_line <$> lines doc).

Definition lines_of_kind (k : LineKind) (doc : Document) : list Line :=
  filter (fun l => kind l = k) (lines doc).

Definition dominant_ending (doc : Document) : LineEnding :=
  let count e := length (filter (fun l => ending l = e) (lines doc)) in
  if count Lf <? count CrLf then CrLf else Lf.

(** ** Edits *)

Definition check_raw (r : rstr) : result EditError () :=
  if contains_any [LF; CR; NUL] r then Err (LineBreakInValue r) else Ok ().

Definition fix_cr (l : Line) : Line :=
  if bool_decide (ending l = Lf) && ends_with CR (raw l)
  then mkLine (kind l) (pop (raw l)) CrLf (span l)
  else l.

Definition drop_empty_tail (ls : list Line) : list Line :=
  match last ls with
  | Some l => if bool_decide (ending l = NoEnding) && is_empty (raw l)
              then take (length ls - 1) ls else ls
  | None => ls
  end.

Fixpoint respan (offset : nat) (ls : list Line) : list Line :=
  match ls with
  | [] => []
  | l :: rest =>
      let sp := mkSpan offset (offset + str_len (raw l)) in
      set_span sp l :: respan (span_end sp + str_len (as_str (ending l))) rest
  end.

Definition normalize (ls : list Line) : list Line :=
  respan 0 (drop_empty_tail (fix_cr <$> ls)).

Definition rebuild (f : list Line -> list Line) (doc : Document) : Document :=
  mkDocument (normalize (f (lines doc))) (classify doc).

(** Whether the last line has no terminator. *)
Definition unterminated (ls : list Line) : bool :=
  match last ls with Some l => bool_decide (ending l = NoEnding) | None => false end.

Definition insert_line (idx : nat) (r : rstr) (doc : Document) : result EditError Document :=
  _ ← check_raw r;
  let len := length (lines doc) in
  if len <? idx then Err (IndexOutOfRange idx len)
  else
    let dominant := dominant_ending doc in
    let '(ls, e) :=
      if (idx =? len) && unterminated (lines doc)
      then (alter_last (set_ending dominant) (lines doc), NoEnding)
      else (lines doc, dominant) in
    let l := new_line r (classify doc r) e in
    Ok (mkDocument (normalize (take idx ls ++ l :: drop idx ls)) (classify doc)).

Definition replace_raw (idx : nat) (r : rstr) (doc : Document) : result EditError Document :=
  _ ← check_raw r;
  match lines doc !! idx with
  | None => Err (IndexOutOfRange idx (length (lines doc)))
  | Some _ => Ok (mkDocument (normalize (alter (set_raw (classify doc r) r) idx (lines doc)))
                             (classify doc))
  end.

Definition remove_line (idx : nat) (doc : Document) : result EditError Document :=
  match lines doc !! idx with
  | None => Err (IndexOutOfRange idx (length (lines doc)))
  | Some gone =>
      let ls := delete idx (lines doc) in
      let ls := if bool_decide (ending gone = NoEnding)
                then alter_last (set_ending NoEnding) ls else ls in
      Ok (mkDocument (normalize ls) (classify doc))
  end.

(** ** Entry plans *)

Record EntryPlan := mkPlan {
  replace : list (nat * rstr);
  remove : list nat;
  insert : list (nat * rstr);
}.

Definition empty_plan : EntryPlan := mkPlan [] [] [].

Definition extend (p q : EntryPlan) : EntryPlan :=
  mkPlan (replace p ++ replace q) (remove p ++ remove q) (insert p ++ insert q).

Definition plan_replace (line : nat) (r : rstr) (p : EntryPlan) : result EditError EntryPlan :=
  _ ← check_raw r; Ok (mkPlan (replace p ++ [(line, r)]) (remove p) (insert p)).
Definition plan_remove (line : nat) (p : EntryPlan) : EntryPlan :=
  mkPlan (replace p) (remove p ++ [line]) (insert p).
Definition plan_insert (at_ : nat) (r : rstr) (p : EntryPlan) : result EditError EntryPlan :=
  _ ← check_raw r; Ok (mkPlan (replace p) (remove p) (insert p ++ [(at_, r)])).

Inductive Slot := SLine (row : nat) | SNew (r : rstr).

(** [sort_by_key]: a stable insertion sort. *)
Fixpoint insert_by_key {A} (key : A -> nat) (x : A) (l : list A) : list A :=
  match l with
  | [] => [x]
  | y :: l' => if key x <=? key y then x :: l else y :: insert_by_key key x l'
  end.
Definition sort_by_key {A} (key : A -> nat) (l : list A) : list A :=
  foldr (insert_by_key key) [] l.

Section Plans.
Context {T : Type} `{EqDecision T}.
Variable parse_entry : rstr -> option T.
Variable render_entry : T -> result EditError rstr.
Variable opens_section : rstr -> bool.

(** The state of the first loop of [plan_entries]: the pending run, the plan
    so far and the slots so far. *)
Record Run := mkRun {
  deleted : list nat;
  inserted : list T;
  run_replace : list (nat * rstr);
  run_remove : list nat;
  slots : list Slot;
}.

Fixpoint settle (gone : list nat) (todo : list T) (rp : list (nat * rstr)) (sl : list Slot)
    : result EditError (list nat * list (nat * rstr) * list Slot) :=
  match todo with
  | [] => Ok (gone, rp, sl)
  | entry :: todo' =>
      r ← render_entry entry;
      _ ← check_raw r;
      match gone with
      | row :: gone' => settle gone' todo' (rp ++ [(row, r)]) (sl ++ [SLine row])
      | [] => settle [] todo' rp (sl ++ [SNew r])
      end
  end.

Definition settle_run (st : Run) : result EditError Run :=
  '(gone, rp, sl) ← settle (deleted st) (inserted st) (run_replace st) (slots st);
  Ok (mkRun [] [] rp (run_remove st ++ gone) sl).

Definition plan_step (rows : list nat) (wanted : list T) (st : Run) (s : Step)
    : result EditError Run :=
  match s with
  | Delete old => Ok (mkRun (deleted st ++ option_list (rows !! old)) (inserted st)
                            (run_replace st) (run_remove st) (slots st))
  | Insert new => Ok (mkRun (deleted st) (inserted st ++ option_list (wanted !! new))
                            (run_replace st) (run_remove st) (slots st))
  | Equal old _ =>
      st' ← settle_run st;
      Ok (mkRun (deleted st') (inserted st') (run_replace st') (run_remove st')
                (slots st' ++ (SLine <$> option_list (rows !! old))))
  end.

Fixpoint plan_steps (rows : list nat) (wanted : list T) (st : Run) (steps : list Step)
    : result EditError Run :=
  match steps with
  | [] => Ok st
  | s :: steps' => st' ← plan_step rows wanted st s; plan_steps rows wanted st' steps'
  end.

(** The entry lines of a document, with their line numbers. *)
Definition entry_of (l : Line) : option T :=
  if bool_decide (kind l = Directive) then parse_entry (raw l) else None.

Fixpoint entry_rows (row : nat) (ls : list Line) : list (nat * T) :=
  match ls with
  | [] => []
  | l :: ls' => match entry_of l with
                | Some e => (row, e) :: entry_rows (S row) ls'
                | None => entry_rows (S row) ls'
                end
  end.

(** The line of the next entry that has one, for each slot. *)
Fixpoint next_rows (sl : list Slot) : list (option nat) * option nat :=
  match sl with
  | [] => ([], None)
  | s :: sl' =>
      let '(ns, next) := next_rows sl' in
      (next :: ns, match s with SLine row => Some row | SNew _ => next end)
  end.

Fixpoint back_over (ls : list Line) (from fin : nat) : nat :=
  match fin with
  | 0 => 0
  | S fin' =>
      if (from <? fin) && match ls !! fin' with
                          | Some l => bool_decide (kind l = Blank) || bool_decide (kind l = Comment)
                          | None => false
                          end
      then back_over ls from fin' else fin
  end.

(** The first row of [from .. limit] whose line opens a section. *)
Fixpoint find_section (ls : list Line) (row from limit : nat) : option nat :=
  match ls with
  | [] => None
  | l :: ls' =>
      if (row <? limit) && (from <=? row) && opens_section (raw l)
      then Some row else find_section ls' (S row) from limit
  end.

Definition section_end (ls : list Line) (from limit : nat) : nat :=
  back_over ls from (default limit (find_section ls 0 from limit)).

Fixpoint place (ls : list Line) (at_ : option nat) (sl : list Slot) (nexts : list (option nat))
    (acc : list (nat * rstr)) : list (nat * rstr) :=
  match sl, nexts with
  | SLine row :: sl', _ :: nexts' => place ls (Some (row + 1)) sl' nexts' acc
  | SNew r :: sl', next_row :: nexts' =>
      let limit := default (length ls) next_row in
      let here := match at_ with
                  | Some from => if opens_section r then section_end ls from limit else from
                  | None => limit
                  end in
      place ls (Some here) sl' nexts' (acc ++ [(here, r)])
  | _, _ => acc
  end.

Definition plan_entries (doc : Document) (wanted : list T) : result EditError EntryPlan :=
  let found := entry_rows 0 (lines doc) in
  let rows := found.*1 in
  let have := found.*2 in
  let steps := default (replace_all (length have) (length wanted)) (align have wanted) in
  st ← plan_steps rows wanted (mkRun [] [] [] [] []) steps;
  st' ← settle_run st;
  Ok (mkPlan (run_replace st') (run_remove st')
        (place (lines doc) None (slots st') (next_rows (slots st')).1 [])).

End Plans.

(** The [while let] of [apply_plan]: the new lines due before [row]. *)
Fixpoint due (row : nat) (ins : list (nat * rstr)) : list rstr * list (nat * rstr) :=
  match ins with
  | (at_, r) :: ins' =>
      if at_ <=? row then let '(now, later) := due row ins' in (r :: now, later) else ([], ins)
  | [] => ([], [])
  end.

Fixpoint merge_plan (classify : rstr -> LineKind) (dominant : LineEnding) (row : nat)
    (old : list Line) (rp : list (nat * rstr)) (rm : list nat) (ins : list (nat * rstr))
    : list Line :=
  let fresh r := new_line r (classify r) dominant in
  match old with
  | [] => fresh <$> ins.*2
  | l :: old' =>
      let '(now, later) := due row ins in
      (fresh <$> now) ++
      if bool_decide (head rm = Some row)
      then merge_plan classify dominant (S row) old' rp (tail rm) later
      else
        let '(l', rp') :=
          match rp with
          | (at_, r) :: rp'' => if at_ =? row then (set_raw (classify r) r l, rp'') else (l, rp)
          | [] => (l, rp)
          end in
        (if bool_decide (ending l' = NoEnding) then set_ending dominant l' else l')
          :: merge_plan classify dominant (S row) old' rp' rm later
  end.

Definition apply_plan (p : EntryPlan) (doc : Document) : Document * EditReport :=
  let report := mkReport (length (replace p)) (length (insert p)) (length (remove p)) in
  let rp := sort_by_key fst (replace p) in
  let rm := sort_by_key id (remove p) in
  let ins := sort_by_key fst (insert p) in
  let dominant := dominant_ending doc in
  (rebuild (fun old =>
     let ls := merge_plan (classify doc) dominant 0 old rp rm ins in
     if unterminated old then alter_last (set_ending NoEnding) ls else ls) doc, report).

Definition edit_entries {T} `{EqDecision T} (parse_entry : rstr -> option T)
    (render_entry : T -> result EditError rstr) (opens_section : rstr -> bool)
    (wanted : list T) (doc : Document) : result EditError (Document * EditReport) :=
  p ← plan_entries parse_entry render_entry opens_section doc wanted;
  Ok (apply_plan p doc).

(** ** Well-formed documents

    [wf_lines c ls]: no line holds a line break, kinds are the classifier's,
    only the last line may lack a terminator (and is then not empty), and a
    text that ends in [CR] is never followed by a bare [LF]. *)

Section WellFormed.
Variable c : rstr -> LineKind.

Definition body_ok (l : Line) : Prop := LF ∉ raw l /\ kind l = c (raw l).

Definition wf_line (l : Line) : Prop :=
  body_ok l /\ (ending l = Lf -> ends_with CR (raw l) = false) /\ (ending l = NoEnding -> raw l <> []).

Fixpoint body_terminated (ls : list Line) : Prop :=
  match ls with
  | [] => True
  | l :: rest => (rest <> [] -> ending l <> NoEnding) /\ body_terminated rest
  end.

Definition wf_lines (ls : list Line) : Prop :=
  Forall wf_line ls /\ body_terminated ls /\ respan 0 ls = ls.

(** What an edit may hand to [normalize]. *)
Definition pre_lines (ls : list Line) : Prop := Forall body_ok ls /\ body_terminated ls.

Lemma body_terminated_app l1 l2 :
  body_terminated (l1 ++ l2) <->
  (l2 = [] /\ body_terminated l1)
  \/ (l2 <> [] /\ Forall (fun l => ending l <> NoEnding) l1 /\ body_terminated l2).
Proof.
  induction l1 as [|l l1 IH]; simpl.
  - destruct l2; naive_solver.
  - rewrite IH. destruct l2; simpl.
    + rewrite app_nil_r. naive_solver.
    + destruct l1; simpl; split; rewrite ?Forall_cons; naive_solver.
Qed.

Lemma split_inclusive_body r : LF ∉ r -> r <> [] -> split_inclusive r = [r].
Proof.
  induction r as [|x r IH]; [done|]. intros Hn _. simpl.
  apply not_elem_of_cons in Hn as [Hx Hn]. rewrite (proj2 (N.eqb_neq _ _)) by done.
  destruct r as [|y r]; [done|]. by rewrite IH.
Qed.

Lemma split_inclusive_line r rest :
  LF ∉ r -> split_inclusive (r ++ LF :: rest) = (r ++ [LF]) :: split_inclusive rest.
Proof.
  induction r as [|x r IH]; intros Hn; [done|]. simpl.
  apply not_elem_of_cons in Hn as [Hx Hn]. rewrite (proj2 (N.eqb_neq _ _)) by done.
  by rewrite IH.
Qed.

Lemma not_LF_snoc r : LF ∉ r -> ends_with LF r = false.
Proof.
  intros Hn. destruct (ends_with LF r) eqn:E; [|done].
  apply ends_with_inv in E. rewrite E in Hn. set_solver.
Qed.

Lemma split_segment_line l : wf_line l -> split_segment (render_line l) = (raw l, ending l).
Proof.
  intros ([Hn _] & Hcr & _). unfold split_segment, render_line.
  destruct (ending l) eqn:E; simpl.
  - rewrite (proj2 (strip_suffix_some _ _ _) eq_refl).
    by rewrite (proj2 (strip_suffix_none _ _) (Hcr eq_refl)).
  - change [CR; LF] with ([CR] ++ [LF]). rewrite app_assoc.
    rewrite (proj2 (strip_suffix_some _ _ _) eq_refl).
    by rewrite (proj2 (strip_suffix_some _ _ _) eq_refl).
  - rewrite app_nil_r. by rewrite (proj2 (strip_suffix_none _ _) (not_LF_snoc _ Hn)).
Qed.

Lemma split_inclusive_render ls :
  Forall wf_line ls -> body_terminated ls ->
  split_inclusive (concat (render_line <$> ls)) = render_line <$> ls.
Proof.
  induction 1 as [|l ls ([Hn Hk] & _ & He) Hls IH]; [done|]. intros [Ht Hb].
  cbn [fmap list_fmap concat]. unfold render_line at 1 3. destruct (ending l) eqn:E; simpl.
  - rewrite <- app_assoc; simpl. by rewrite split_inclusive_line, IH.
  - change [CR; LF] with ([CR] ++ [LF]).
    rewrite app_assoc, <- app_assoc. simpl. rewrite split_inclusive_line by set_solver. by rewrite IH.
  - destruct ls; [|by destruct (Ht ltac:(done))].
    simpl. rewrite !app_nil_r. apply split_inclusive_body; auto.
Qed.

Lemma parse_segments_render ls off :
  Forall wf_line ls -> parse_segments c off (render_line <$> ls) = respan off ls.
Proof.
  intros Hls. revert off. induction Hls as [|l ls Hl Hls IH]; intros off; [done|].
  simpl. rewrite (split_segment_line l Hl). simpl. destruct Hl as ([_ Hk] & _).
  f_equal; [unfold set_span; by rewrite Hk|]. rewrite IH. f_equal.
  unfold render_line. rewrite str_len_app. lia.
Qed.

Lemma parse_render ls :
  wf_lines ls -> lines (parse (concat (render_line <$> ls)) c) = ls.
Proof.
  intros (Hl & Hb & Hs). unfold parse; simpl.
  by rewrite split_inclusive_render, parse_segments_render.
Qed.

(** The segments of a text, as [split_inclusive] cuts them. *)
Lemma split_inclusive_segments s :
  exists bodies tail, LF ∉ tail /\ Forall (fun b => LF ∉ b) bodies
    /\ split_inclusive s = ((fun b => b ++ [LF]) <$> bodies) ++ (if is_empty tail then [] else [tail]).
Proof.
  induction s as [|x s (bodies & tl & Ht & Hb & IH)]; simpl.
  - exists [], []. split; [set_solver|done].
  - destruct (N.eqb_spec x LF) as [->|Hx].
    + exists ([] :: bodies), tl. split; [done|]. split; [constructor; [set_solver|done]|].
      simpl. by rewrite IH.
    + rewrite IH. destruct bodies as [|b bodies]; simpl.
      * exists [], (x :: tl). split; [set_solver|]. split; [done|]. by destruct tl.
      * exists ((x :: b) :: bodies), tl. split; [done|]. inversion Hb; subst.
        split; [constructor; [set_solver|done]|done].
Qed.

Definition line_of (seg : rstr) : Line :=
  let '(r, e) := split_segment seg in mkLine (c r) r e (mkSpan 0 0).

Lemma parse_segments_lines off segs :
  Forall (fun seg => str_len seg = str_len (render_line (line_of seg))) segs ->
  parse_segments c off segs = respan off (line_of <$> segs).
Proof.
  intros H. revert off. induction H as [|seg segs Hs Hsegs IH]; intros off; [done|].
  cbn [parse_segments fmap list_fmap respan]. rewrite Hs, IH.
  unfold line_of, render_line. destruct (split_segment seg) as [r e]; simpl.
  rewrite str_len_app. by rewrite Nat.add_assoc.
Qed.

Lemma split_segment_LF b :
  LF ∉ b -> wf_line (line_of (b ++ [LF])) /\ render_line (line_of (b ++ [LF])) = b ++ [LF]
    /\ ending (line_of (b ++ [LF])) <> NoEnding.
Proof.
  intros Hb. unfold line_of, split_segment. rewrite (proj2 (strip_suffix_some _ _ _) eq_refl).
  destruct (strip_suffix CR b) as [b'|] eqn:E.
  - apply strip_suffix_some in E as ->. unfold render_line; simpl. rewrite <- app_assoc.
    repeat split; try done. set_solver.
  - apply strip_suffix_none in E. repeat split; done.
Qed.

Lemma split_segment_tail b :
  LF ∉ b -> b <> [] -> wf_line (line_of b) /\ render_line (line_of b) = b.
Proof.
  intros Hb Hne. unfold line_of, split_segment.
  rewrite (proj2 (strip_suffix_none _ _) (not_LF_snoc _ Hb)).
  unfold render_line; simpl. rewrite app_nil_r. repeat split; done.
Qed.

Lemma respan_render off ls : render_line <$> respan off ls = render_line <$> ls.
Proof. revert off. induction ls as [|l ls IH]; intros off; [done|]. simpl. by rewrite IH. Qed.

Lemma respan_respan off ls : respan off (respan off ls) = respan off ls.
Proof. revert off. induction ls as [|l ls IH]; intros off; [done|]. simpl. by rewrite IH. Qed.

Lemma respan_Forall (P : Line -> Prop) off ls :
  (forall s l, P (set_span s l) <-> P l) -> Forall P (respan off ls) <-> Forall P ls.
Proof.
  intros HP. revert off. induction ls as [|l ls IH]; intros off; [done|].
  simpl. by rewrite !Forall_cons, IH, HP.
Qed.

Lemma respan_nil off ls : respan off ls = [] <-> ls = [].
Proof. by destruct ls. Qed.

Lemma body_terminated_respan off ls : body_terminated (respan off ls) <-> body_terminated ls.
Proof.
  revert off. induction ls as [|l ls IH]; intros off; [done|]. simpl.
  rewrite IH. by rewrite respan_nil.
Qed.

Lemma wf_respan ls :
  Forall wf_line ls -> body_terminated ls -> wf_lines (respan 0 ls).
Proof.
  intros Hl Hb. split; [|split].
  - by apply respan_Forall.
  - by apply body_terminated_respan.
  - apply respan_respan.
Qed.

Lemma parse_structure s :
  exists ls, lines (parse s c) = respan 0 ls /\ Forall wf_line ls /\ body_terminated ls
    /\ concat (render_line <$> ls) = s.
Proof.
  destruct (split_inclusive_segments s) as (bodies & tl & Ht & Hb & E).
  exists (line_of <$> split_inclusive s).
  assert (Forall (fun seg => wf_line (line_of seg) /\ render_line (line_of seg) = seg) (split_inclusive s)) as Hall.
  { rewrite E. apply Forall_app. split.
    - apply Forall_fmap. eapply Forall_impl; [exact Hb|]. intros b Hbb.
      destruct (split_segment_LF b Hbb) as (? & ? & _). done.
    - destruct tl as [|x tl]; [constructor|]. simpl. constructor; [|constructor].
      by apply split_segment_tail. }
  split; [|split; [|split]].
  - unfold parse; simpl. apply parse_segments_lines.
    eapply Forall_impl; [exact Hall|]. by intros seg [_ ->].
  - apply Forall_fmap. eapply Forall_impl; [exact Hall|]. by intros seg [? _].
  - rewrite E, fmap_app. apply body_terminated_app.
    assert (Forall (fun l => ending l <> NoEnding) (line_of <$> ((fun b => b ++ [LF]) <$> bodies))) as HN.
    { rewrite !Forall_fmap. eapply Forall_impl; [exact Hb|]. intros b Hbb. by apply split_segment_LF. }
    destruct tl as [|x tl]; simpl; [left|right; repeat split; done]. split; [done|].
    clear -HN. induction HN as [|l ls]; [done|]. by simpl.
  - rewrite <- (concat_split_inclusive s) at 2. f_equal. rewrite <- list_fmap_compose.
    rewrite <- (list_fmap_id (split_inclusive s)) at 2.
    apply list_fmap_ext. intros i seg Hseg. by apply (Forall_lookup_1 _ _ _ _ Hall) in Hseg as [_ ?].
Qed.

Lemma wf_parse s : wf_lines (lines (parse s c)).
Proof. destruct (parse_structure s) as (ls & -> & ? & ? & _). by apply wf_respan. Qed.

Lemma render_parse_lines s : concat (render_line <$> lines (parse s c)) = s.
Proof. destruct (parse_structure s) as (ls & -> & _ & _ & E). by rewrite respan_render. Qed.

End WellFormed.

(** ** [normalize] restores well-formedness *)

(** A classifier for which a trailing [CR] is not significant. [normalize]
    moves a [CR] into the terminator without classifying the line again. *)
Definition cr_stable {A} (f : rstr -> A) : Prop := forall r, f (r ++ [CR]) = f r.

Lemma as_str_inj e e' : as_str e = as_str e' -> e = e'.
Proof. by destruct e, e'. Qed.

Section Normalize.
Variable c : rstr -> LineKind.
Hypothesis Hc : cr_stable c.

Lemma fix_cr_render l : render_line (fix_cr l) = render_line l.
Proof.
  unfold fix_cr. destruct (_ && _) eqn:E; [|done]. bool_to_prop.
  unfold render_line; simpl. rewrite H. apply ends_with_inv in H0. rewrite H0 at 2.
  by rewrite <- app_assoc.
Qed.

Lemma fix_cr_ok l :
  body_ok c l -> body_ok c (fix_cr l)
    /\ (ending (fix_cr l) = Lf -> ends_with CR (raw (fix_cr l)) = false)
    /\ (ending (fix_cr l) = NoEnding <-> ending l = NoEnding).
Proof.
  intros [Hn Hk]. unfold fix_cr. destruct (_ && _) eqn:E.
  - bool_to_prop. apply ends_with_inv in H0. unfold body_ok; simpl. repeat split; try done.
    + rewrite H0 in Hn. set_solver.
    + rewrite Hk. rewrite H0 at 1. apply Hc.
    + intros E'. congruence.
  - repeat split; auto. intros El. by rewrite El, bool_decide_true in E.
Qed.

Lemma body_terminated_fmap (f : Line -> Line) ls :
  Forall (fun l => ending (f l) = NoEnding -> ending l = NoEnding) ls ->
  body_terminated ls -> body_terminated (f <$> ls).
Proof.
  induction 1 as [|l ls Hf Hls IH]; [done|]. intros [H1 H2]; simpl.
  split; [|by apply IH]. intros Hne Hl. apply H1; [by destruct ls|by apply Hf].
Qed.

Lemma drop_empty_tail_cases ls :
  (drop_empty_tail ls = ls /\ (forall l, last ls = Some l -> ending l = NoEnding -> raw l <> []))
  \/ exists l, ls = drop_empty_tail ls ++ [l] /\ ending l = NoEnding /\ raw l = [].
Proof.
  unfold drop_empty_tail. destruct ls as [|l ls _] using rev_ind; [by left|].
  rewrite last_snoc. destruct (_ && _) eqn:E; bool_to_prop.
  - right. exists l. rewrite length_app, Nat.add_sub, take_app_length. split; [done|].
    split; [done|]. by destruct (raw l).
  - left. split; [done|]. intros ? [= <-] He Hr. rewrite He, Hr in E.
    by destruct E as [E|E]; bool_to_prop.
Qed.

Lemma normalize_wf ls : pre_lines c ls -> wf_lines c (normalize ls).
Proof.
  intros [Hb Ht]. unfold normalize.
  assert (Forall (fun l => body_ok c l /\ (ending l = Lf -> ends_with CR (raw l) = false)) (fix_cr <$> ls)) as Hf.
  { apply Forall_fmap. eapply Forall_impl; [exact Hb|]. intros l Hl. by destruct (fix_cr_ok l Hl) as (? & ? & _). }
  assert (body_terminated (fix_cr <$> ls)) as Ht'.
  { apply body_terminated_fmap; [|done]. eapply Forall_impl; [exact Hb|]. intros l Hl. by apply fix_cr_ok. }
  set (ls' := fix_cr <$> ls) in *. clearbody ls'.
  assert (forall l pre, ls' = pre ++ [l] -> Forall (fun l => ending l <> NoEnding) pre) as Hpre.
  { intros l pre E. rewrite E in Ht'. apply body_terminated_app in Ht' as [[? _]|(_ & ? & _)]; done. }
  apply wf_respan.
  - destruct (drop_empty_tail_cases ls') as [[-> Hl]|(l & E & He & Hr)].
    + destruct ls' as [|l pre _] using rev_ind; [constructor|].
      pose proof (Hpre l pre eq_refl) as Hne. apply Forall_app in Hf as [Hfp Hfl].
      apply Forall_app. split.
      * apply Forall_forall. intros x Hx. rewrite Forall_forall in Hfp, Hne.
        destruct (Hfp x Hx) as [? ?]. pose proof (Hne x Hx). repeat split; try apply H; tauto.
      * inversion Hfl as [|? ? [Hbo Hcr]]; subst. constructor; [|constructor].
        repeat split; try apply Hbo; auto. intros. apply Hl; [apply last_snoc|done].
    + pose proof (Hpre _ _ E) as Hne. rewrite E in Hf. apply Forall_app in Hf as [Hfp _].
      apply Forall_forall. intros x Hx. rewrite Forall_forall in Hfp, Hne.
      destruct (Hfp x Hx) as [? ?]. pose proof (Hne x Hx). repeat split; try apply H; tauto.
  - destruct (drop_empty_tail_cases ls') as [[-> _]|(l & E & _)]; [done|].
    pose proof (Hpre _ _ E) as Hne. clear -Hne. induction Hne; [done|]. by simpl.
Qed.

Lemma drop_empty_tail_render ls :
  concat (render_line <$> drop_empty_tail ls) = concat (render_line <$> ls).
Proof.
  destruct (drop_empty_tail_cases ls) as [[-> _]|(l & E & He & Hr)]; [done|].
  rewrite E at 2. rewrite fmap_app, concat_app. simpl. unfold render_line at 3.
  by rewrite He, Hr, !app_nil_r.
Qed.

(** [normalize] does not change a rendered byte. *)
Lemma normalize_render ls : concat (render_line <$> normalize ls) = concat (render_line <$> ls).
Proof.
  unfold normalize. rewrite respan_render, drop_empty_tail_render, <- list_fmap_compose.
  f_equal. apply list_fmap_ext. intros i l _. apply fix_cr_render.
Qed.

End Normalize.

Lemma normalize_wf_id c ls : wf_lines c ls -> normalize ls = ls.
Proof.
  intros (Hl & Hb & Hs). unfold normalize.
  assert (fix_cr <$> ls = ls) as ->.
  { rewrite <- (list_fmap_id ls) at 2. apply list_fmap_ext. intros i l Hi.
    apply (Forall_lookup_1 _ _ _ _ Hl) in Hi as (_ & Hcr & _). unfold fix_cr.
    destruct (_ && _) eqn:E; [|done]. bool_to_prop. rewrite Hcr in *; done. }
  destruct (drop_empty_tail_cases ls) as [[-> _]|(l & E & He & Hr)]; [done|].
  exfalso. rewrite E in Hl. apply Forall_app in Hl as [_ Hl].
  inversion Hl as [|? ? (_ & _ & Hne)]; subst. by apply Hne.
Qed.

(** ** Every edit keeps a document canonical *)

Lemma alter_last_snoc {A} (f : A -> A) l x : alter_last f (l ++ [x]) = l ++ [f x].
Proof.
  unfold alter_last. rewrite length_app, Nat.add_sub.
  rewrite <- (Nat.add_0_r (length l)) at 1. by rewrite alter_app_r.
Qed.

Lemma dominant_terminated doc : dominant_ending doc <> NoEnding.
Proof. unfold dominant_ending. by destruct (_ <? _). Qed.

Definition all_terminated (ls : list Line) : Prop := Forall (fun l => ending l <> NoEnding) ls.

Lemma all_terminated_body ls : all_terminated ls -> body_terminated ls.
Proof. induction 1; simpl; auto. Qed.

Lemma body_terminated_snoc ls l : body_terminated (ls ++ [l]) <-> all_terminated ls.
Proof. rewrite body_terminated_app. split; [naive_solver|]. intros. right. naive_solver. Qed.

Lemma unterminated_false ls : body_terminated ls -> unterminated ls = false -> all_terminated ls.
Proof.
  destruct ls as [|l ls _] using rev_ind; [constructor|].
  rewrite body_terminated_snoc. unfold unterminated. rewrite last_snoc. intros Hls Hu. bool_to_prop.
  apply Forall_app. split; [done|]. by constructor.
Qed.

Lemma body_terminated_endings ls ls' :
  ending <$> ls = ending <$> ls' -> body_terminated ls -> body_terminated ls'.
Proof.
  revert ls'; induction ls as [|l ls IH]; intros [|l' ls']; try done.
  simpl. intros [= He Hes] [H1 H2]. split; [|by apply IH].
  rewrite <- He. intros Hne. apply H1. by destruct ls, ls'.
Qed.

Lemma check_raw_ok r : check_raw r = Ok () <-> LF ∉ r /\ CR ∉ r /\ NUL ∉ r.
Proof.
  unfold check_raw, contains_any. simpl. rewrite orb_false_r.
  rewrite <- !contains_false.
  destruct (contains LF r), (contains CR r), (contains NUL r); simpl; naive_solver.
Qed.

Lemma check_raw_cases r :
  check_raw r = Ok () \/ check_raw r = Err (LineBreakInValue r).
Proof. unfold check_raw. destruct (contains_any _ _); auto. Qed.

Definition plan_checked (p : EntryPlan) : Prop :=
  Forall (fun x => check_raw x.2 = Ok ()) (replace p)
  /\ Forall (fun x => check_raw x.2 = Ok ()) (insert p).

Lemma insert_by_key_perm {A} (key : A -> nat) x l : insert_by_key key x l ≡ₚ x :: l.
Proof.
  induction l as [|y l IH]; [done|]. simpl. destruct (_ <=? _); [done|].
  rewrite IH. constructor.
Qed.

Lemma sort_by_key_perm {A} (key : A -> nat) l : sort_by_key key l ≡ₚ l.
Proof. induction l as [|x l IH]; [done|]. simpl. by rewrite insert_by_key_perm, IH. Qed.

Lemma due_split row ins now later :
  due row ins = (now, later) -> exists pre, ins = pre ++ later /\ now = pre.*2.
Proof.
  revert now later; induction ins as [|[a r] ins IH]; intros now later; simpl.
  - intros [= <- <-]. by exists [].
  - destruct (a <=? row); [|intros [= <- <-]; by exists []].
    destruct (due row ins) as [n lt]. intros [= <- <-].
    destruct (IH _ _ eq_refl) as (pre & -> & ->). by exists ((a, r) :: pre).
Qed.

Section Canonical.
Variable c : rstr -> LineKind.

Definition raw_ok (x : nat * rstr) : Prop := check_raw x.2 = Ok ().

Lemma merge_plan_ok dominant row old rp rm ins :
  dominant <> NoEnding -> Forall (body_ok c) old -> Forall raw_ok rp -> Forall raw_ok ins ->
  Forall (body_ok c) (merge_plan c dominant row old rp rm ins)
  /\ all_terminated (merge_plan c dominant row old rp rm ins).
Proof.
  intros Hd. revert row rp rm ins.
  assert (forall ins, Forall raw_ok ins ->
    Forall (body_ok c) ((fun r => new_line r (c r) dominant) <$> ins.*2)
    /\ all_terminated ((fun r => new_line r (c r) dominant) <$> ins.*2)) as Hfresh.
  { intros ins Hi. unfold all_terminated. rewrite !Forall_fmap. split;
      (eapply Forall_impl; [exact Hi|]); intros [a r]; simpl; [|done].
    unfold raw_ok. rewrite check_raw_ok. intros (? & _). done. }
  induction old as [|l old IH]; intros row rp rm ins Hold Hrp Hins; [by apply Hfresh|].
  cbn [merge_plan]. destruct (due row ins) as [now later] eqn:E.
  apply due_split in E as (pre & -> & ->). apply Forall_app in Hins as [Hpre Hlater].
  inversion Hold as [|? ? Hl Hold']; subst.
  destruct (Hfresh pre Hpre) as [Hf1 Hf2]. unfold all_terminated in *. rewrite !Forall_app.
  destruct (bool_decide _).
  { destruct (IH (S row) rp (tail rm) later) as [? ?]; done. }
  destruct (match rp with (at_, r) :: _ => _ | [] => _ end) as [l' rp'] eqn:E'.
  assert (body_ok c l' /\ Forall raw_ok rp') as [Hl' Hrp'].
  { destruct rp as [|[a r] rp]; [by simplify_eq|]. inversion Hrp as [|? ? Hr Hrs]; subst.
    destruct (a =? row); simplify_eq; [|done]. split; [|done].
    unfold raw_ok in Hr. simpl in Hr. apply check_raw_ok in Hr as (? & _). done. }
  destruct (IH (S row) rp' rm later) as [? ?]; [done..|].
  destruct (bool_decide (ending l' = NoEnding)) eqn:El; bool_to_prop;
    rewrite !Forall_cons; naive_solver.
Qed.

Lemma pre_alter_last ls e :
  Forall (body_ok c) ls -> all_terminated ls -> pre_lines c (alter_last (set_ending e) ls).
Proof.
  destruct ls as [|l ls _] using rev_ind; intros Hb Ht; [by split|].
  rewrite alter_last_snoc. apply Forall_app in Hb as [Hb Hl], Ht as [Ht _].
  split; [|by apply body_terminated_snoc].
  apply Forall_app. split; [done|]. inversion Hl; subst. by constructor.
Qed.

Lemma wf_pre ls : wf_lines c ls -> pre_lines c ls.
Proof.
  intros (Hl & Hb & _). split; [|done]. eapply Forall_impl; [exact Hl|]. by intros l (? & _).
Qed.

Hypothesis Hc : cr_stable c.

Lemma wf_apply_plan p ls :
  wf_lines c ls -> plan_checked p -> wf_lines c (lines (apply_plan p (mkDocument ls c)).1).
Proof.
  intros Hw [Hrp Hins]. apply wf_pre in Hw as [Hb Ht]. simpl. apply normalize_wf; [done|].
  destruct (merge_plan_ok (dominant_ending (mkDocument ls c)) 0 ls (sort_by_key fst (replace p))
    (sort_by_key id (remove p)) (sort_by_key fst (insert p))) as [Hmb Hmt].
  { apply dominant_terminated. }
  { done. }
  { by rewrite sort_by_key_perm. }
  { by rewrite sort_by_key_perm. }
  destruct (unterminated ls); [by apply pre_alter_last|].
  split; [done|by apply all_terminated_body].
Qed.

Lemma wf_insert_line idx r ls doc :
  wf_lines c ls -> insert_line idx r (mkDocument ls c) = Ok doc -> wf_lines c (lines doc) /\ classify doc = c.
Proof.
  intros Hw. apply wf_pre in Hw as [Hb Ht]. unfold insert_line. simpl.
  destruct (check_raw r) as [[]|] eqn:Hr; [|done]. apply check_raw_ok in Hr as (Hr & _). simpl.
  destruct (length ls <? idx) eqn:Hi; [done|].
  pose proof (dominant_terminated (mkDocument ls c)) as Hd.
  set (d := dominant_ending _) in *.
  destruct ((idx =? length ls) && unterminated ls) eqn:E; intros [= <-]; split; try done;
    simpl; apply normalize_wf; try done; bool_to_prop.
  - subst idx. destruct ls as [|l ls _] using rev_ind; [done|]. clear H0.
    rewrite alter_last_snoc, length_app, take_ge, drop_ge by (rewrite length_app; simpl; lia).
    apply Forall_app in Hb as [Hb Hl]. apply body_terminated_snoc in Ht. inversion Hl; subst.
    split.
    + rewrite !Forall_app, !Forall_cons, !Forall_nil. split_and!; done.
    + apply body_terminated_snoc. apply Forall_app. split; [done|]. by constructor.
  - split.
    + apply Forall_app; split; [by apply Forall_take|]. constructor; [done|by apply Forall_drop].
    + destruct (decide (idx = length ls)) as [->|Hne].
      * destruct E as [E|E]; bool_to_prop; [done|]. rewrite drop_ge, take_ge by lia.
        apply body_terminated_snoc. by apply unterminated_false.
      * rewrite <- (take_drop idx ls) in Ht. assert (drop idx ls <> []) as Hdr.
        { intros Hdr%(f_equal length). rewrite length_drop in Hdr. simpl in Hdr. lia. }
        apply body_terminated_app in Ht as [[? _]|(_ & Hta & Htd)]; [done|].
        apply body_terminated_app. right. split; [done|]. split; [done|]. by split.
Qed.

Lemma wf_replace_raw idx r ls doc :
  wf_lines c ls -> replace_raw idx r (mkDocument ls c) = Ok doc -> wf_lines c (lines doc) /\ classify doc = c.
Proof.
  intros Hw. apply wf_pre in Hw as [Hb Ht]. unfold replace_raw. simpl.
  destruct (check_raw r) as [[]|] eqn:Hr; [|done]. apply check_raw_ok in Hr as (Hr & _). simpl.
  destruct (ls !! idx) eqn:Hi; [|done]. intros [= <-]; split; [|done]. simpl.
  apply normalize_wf; [done|]. split.
  - by apply Forall_alter.
  - eapply body_terminated_endings; [|done].
    apply list_eq. intros i. rewrite !list_lookup_fmap.
    destruct (decide (i = idx)) as [->|Hne].
    + rewrite list_lookup_alter_eq. by destruct (ls !! idx).
    + by rewrite list_lookup_alter_ne by done.
Qed.

Lemma wf_remove_line idx ls doc :
  wf_lines c ls -> remove_line idx (mkDocument ls c) = Ok doc -> wf_lines c (lines doc) /\ classify doc = c.
Proof.
  intros Hw. apply wf_pre in Hw as [Hb Ht]. unfold remove_line. simpl.
  destruct (ls !! idx) as [gone|] eqn:Hi; [|done]. intros [= <-]; split; [|done]. simpl.
  apply normalize_wf; [done|].
  rewrite delete_take_drop. pose proof (take_drop_middle _ _ _ Hi) as Hmid.
  rewrite <- Hmid in Hb, Ht. apply Forall_app in Hb as [Hb1 Hb2]. inversion Hb2 as [|? ? Hg Hb3]; subst.
  apply body_terminated_app in Ht as [[? _]|(_ & Ht1 & [Hg' Ht2])]; [done|].
  assert (Forall (body_ok c) (take idx ls ++ drop (S idx) ls)) by (by apply Forall_app).
  destruct (decide (drop (S idx) ls = [])) as [Hd|Hd].
  - rewrite Hd, app_nil_r in *. destruct (bool_decide _); [by apply pre_alter_last|].
    split; [done|by apply all_terminated_body].
  - rewrite bool_decide_false by auto. split; [done|]. apply body_terminated_app. right. done.
Qed.

(** The documents a module can reach: parsed, then edited. *)
Inductive reachable : Document -> Prop :=
| reach_parse s : reachable (parse s c)
| reach_insert doc idx r doc' : reachable doc -> insert_line idx r doc = Ok doc' -> reachable doc'
| reach_replace doc idx r doc' : reachable doc -> replace_raw idx r doc = Ok doc' -> reachable doc'
| reach_remove doc idx doc' : reachable doc -> remove_line idx doc = Ok doc' -> reachable doc'
| reach_plan doc p : reachable doc -> plan_checked p -> reachable (apply_plan p doc).1.

Lemma reachable_wf doc : reachable doc -> wf_lines c (lines doc) /\ classify doc = c.
Proof.
  induction 1 as [s|doc idx r doc' _ [IH E] H|doc idx r doc' _ [IH E] H|doc idx doc' _ [IH E] H|doc p _ [IH E] H];
    try (destruct doc as [ls cl]; simpl in *; subst cl).
  - split; [apply wf_parse|done].
  - by eapply wf_insert_line.
  - by eapply wf_replace_raw.
  - by eapply wf_remove_line.
  - split; [|done]. by apply wf_apply_plan.
Qed.

End Canonical.

(** ** Properties *)

(** C32: Losslessness. Parsing any text and rendering the document gives the
    text back, byte for byte, whatever the module's classifier does. *)
Theorem render_parse (s : rstr) (c : rstr -> LineKind) : render (parse s c) = s.
Proof. apply render_parse_lines. Qed.

(** C33: Every document reached from a parsed one by line edits and entry plans
    is canonical: re-parsing its rendered text yields an equal document (kinds,
    texts, terminators and spans included). The classifier must not depend on a
    trailing [CR]. *)
Theorem reachable_canonical (c : rstr -> LineKind) (doc : Document) :
  cr_stable c -> reachable c doc -> doc_eq (parse (render doc) c) doc.
Proof.
  intros Hc Hr. destruct (reachable_wf c Hc doc Hr) as [Hwf _]. by apply parse_render.
Qed.

(** A classifier for the examples: [#] starts a comment, [=] a directive. *)
Definition demo_classify (r : rstr) : LineKind :=
  if is_empty (trim r) then Blank
  else if starts_with 35%N r then Comment
  else if contains 61%N r then Directive else Unknown.

Lemma demo_cr_stable : cr_stable demo_classify.
Proof.
  intros r. unfold demo_classify. rewrite trim_snoc by done.
  assert (contains 61%N (r ++ [CR]) = contains 61%N r) as ->.
  { unfold contains. rewrite existsb_app. simpl. by rewrite orb_false_r. }
  destruct r as [|x r]; [done|]. done.
Qed.

Lemma reachable_canonical_witness :
  exists doc, insert_line 1 (lit "k=v") (parse (lit "# a") demo_classify) = Ok doc
    /\ doc_eq (parse (render doc) demo_classify) doc.
Proof.
  eexists. split; [reflexivity|].
  apply (reachable_canonical demo_classify); [exact demo_cr_stable|].
  eapply (reach_insert _ (parse (lit "# a") demo_classify) 1 (lit "k=v")); [apply reach_parse|reflexivity].
Defined.

(** A classifier that does depend on a trailing [CR] gets a stale kind:
    [normalize] moves the [CR] into the terminator without classifying again. *)
Definition cr_sensitive (r : rstr) : LineKind := if ends_with CR r then Unknown else Directive.

Lemma normalize_keeps_stale_kind :
  exists doc, insert_line 1 (lit "b") (parse [97%N; CR] cr_sensitive) = Ok doc
    /\ ~ doc_eq (parse (render doc) cr_sensitive) doc.
Proof. eexists. split; [reflexivity|]. vm_compute. discriminate. Qed.

Definition text (ls : list Line) : rstr := concat (render_line <$> ls).

Lemma text_app a b : text (a ++ b) = text a ++ text b.
Proof. unfold text. by rewrite fmap_app, concat_app. Qed.

Lemma text_alter_last_none ls e :
  (exists l, last ls = Some l /\ ending l = NoEnding) ->
  text (alter_last (set_ending e) ls) = text ls ++ as_str e.
Proof.
  destruct ls as [|l ls _] using rev_ind; [by intros (? & ? & _)|].
  rewrite last_snoc. intros (? & [= <-] & He). rewrite alter_last_snoc, !text_app.
  unfold text; simpl. unfold render_line; simpl. by rewrite He, !app_nil_r, app_assoc.
Qed.

(** The text after an accepted line edit. [insert_line] adds the value and
    the dominant terminator before line [idx], except that appending to a file
    without a final newline keeps it without one; [replace_raw] changes the text
    of one line and keeps its terminator; [remove_line] cuts one line, and
    cutting an unterminated last line leaves the file without a final newline.
    Every other byte stays. *)
Theorem line_edits_text (doc doc' : Document) (idx : nat) (r : rstr) :
  (insert_line idx r doc = Ok doc' ->
     render doc' =
       if (idx =? length (lines doc)) && unterminated (lines doc)
       then render doc ++ as_str (dominant_ending doc) ++ r
       else text (take idx (lines doc)) ++ r ++ as_str (dominant_ending doc)
              ++ text (drop idx (lines doc)))
  /\ (replace_raw idx r doc = Ok doc' -> exists l, lines doc !! idx = Some l /\
       render doc' = text (take idx (lines doc)) ++ r ++ as_str (ending l)
                       ++ text (drop (S idx) (lines doc)))
  /\ (remove_line idx doc = Ok doc' -> exists l, lines doc !! idx = Some l /\
       let rest := take idx (lines doc) ++ drop (S idx) (lines doc) in
       render doc' = text (if bool_decide (ending l = NoEnding)
                           then alter_last (set_ending NoEnding) rest else rest)).
Proof.
  unfold insert_line, replace_raw, remove_line. split_and!.
  - intros (_ & _ & H)%result_bind_ok. destruct (_ <? idx) eqn:Hi; [done|]. bool_to_prop.
    destruct (_ && _) eqn:E; simplify_eq; unfold render; simpl; rewrite normalize_render; fold (text).
    + bool_to_prop. subst idx. set (ls := lines doc) in *.
      change (concat (render_line <$> ?x)) with (text x).
      assert (exists l, last ls = Some l /\ ending l = NoEnding) as Hl.
      { unfold unterminated in *. destruct (last ls) as [l|]; [|done]. bool_to_prop. eauto. }
      assert (length (alter_last (set_ending (dominant_ending doc)) ls) = length ls) as Hlen by apply length_alter.
      rewrite take_ge, drop_ge by lia.
      rewrite text_app, (text_alter_last_none _ _ Hl), <- app_assoc.
      unfold text at 2. simpl. unfold render_line; simpl. by rewrite !app_nil_r.
    + change (concat (render_line <$> ?x)) with (text x). rewrite text_app.
      f_equal. unfold text at 1; simpl. unfold render_line at 1; simpl. by rewrite <- app_assoc.
  - intros (_ & _ & H)%result_bind_ok. destruct (lines doc !! idx) as [l|] eqn:Hl; [|done].
    exists l. split; [done|]. simplify_eq. unfold render; simpl. rewrite normalize_render.
    change (concat (render_line <$> ?x)) with (text x).
    rewrite <- (take_drop_middle _ _ _ Hl) at 1.
    assert (length (take idx (lines doc)) = idx) as Hlen.
    { apply lookup_lt_Some in Hl. rewrite length_take. lia. }
    rewrite alter_app_r_alt by lia. rewrite Hlen, Nat.sub_diag, text_app. f_equal.
    unfold text; simpl. unfold render_line at 1; simpl. by rewrite <- app_assoc.
  - intros H. destruct (lines doc !! idx) as [l|] eqn:Hl; [|done].
    exists l. split; [done|]. simplify_eq. unfold render; simpl. rewrite normalize_render.
    by rewrite delete_take_drop.
Qed.

Lemma line_edits_text_witness :
  exists doc doc', doc = parse (lit "a=b") demo_classify /\ insert_line 1 (lit "c") doc = Ok doc'
    /\ render doc' = render doc ++ as_str (dominant_ending doc) ++ lit "c".
Proof.
  eexists _, _. split; [reflexivity|]. split; [reflexivity|].
  apply (proj1 (line_edits_text (parse (lit "a=b") demo_classify) _ 1 (lit "c"))). reflexivity.
Defined.

(** When a line edit is refused: a value with a line break or NUL always
    is, with the value in the error; otherwise exactly an index out of range. *)
Theorem line_edits_refuse (doc : Document) (idx : nat) (r : rstr) :
  (insert_line idx r doc = Err (LineBreakInValue r) <-> check_raw r <> Ok ())
  /\ (check_raw r = Ok () -> length (lines doc) < idx ->
       insert_line idx r doc = Err (IndexOutOfRange idx (length (lines doc))))
  /\ (check_raw r = Ok () -> idx <= length (lines doc) -> exists doc', insert_line idx r doc = Ok doc')
  /\ (replace_raw idx r doc = Err (LineBreakInValue r) <-> check_raw r <> Ok ())
  /\ (check_raw r = Ok () -> idx < length (lines doc) -> exists doc', replace_raw idx r doc = Ok doc')
  /\ ((exists doc', remove_line idx doc = Ok doc') <-> idx < length (lines doc)).
Proof.
  unfold insert_line, replace_raw, remove_line. destruct (check_raw_cases r) as [-> | ->]; cbn [mbind result_bind].
  - split_and!.
    + destruct (_ <? _); [naive_solver|]. destruct (if _ : bool then _ else _). naive_solver.
    + intros _ Hlt. by rewrite (proj2 (Nat.ltb_lt _ _)).
    + intros _ Hle. rewrite (proj2 (Nat.ltb_ge _ _)) by done. destruct (if _ : bool then _ else _). eauto.
    + destruct (_ !! _); naive_solver.
    + intros _ [l ->]%lookup_lt_is_Some_2. eauto.
    + rewrite <- lookup_lt_is_Some. unfold is_Some. destruct (lines doc !! idx); naive_solver.
  - split_and!; try done. rewrite <- lookup_lt_is_Some. unfold is_Some. destruct (lines doc !! idx); naive_solver.
Qed.

Lemma line_edits_refuse_witness :
  insert_line 9 (lit "x") (parse (lit "a") demo_classify) = Err (IndexOutOfRange 9 1)
  /\ exists doc', insert_line 1 (lit "x") (parse (lit "a") demo_classify) = Ok doc'.
Proof.
  split.
  - apply (proj1 (proj2 (line_edits_refuse (parse (lit "a") demo_classify) 9 (lit "x")))); [reflexivity|].
    vm_compute. lia.
  - apply (proj1 (proj2 (proj2 (line_edits_refuse (parse (lit "a") demo_classify) 1 (lit "x"))))); [reflexivity|].
    vm_compute. lia.
Defined.
