(* ===== verification/DocEdit.v ===== *)
(** * Entry edits: [Document::edit_entries] against a format's entry codec

    A line-oriented module hands [edit_entries] three functions: its line
    classifier, its entry parser and its entry printer. [EntryCodec] states what
    the document layer relies on; the theorems of this file are proved against
    it, and each module discharges it for its own format. *)

From S2P Require Import Prelude Align Str Doc.

Class EntryCodec (T : Type) := {
  ec_eq_dec :: EqDecision T;
  ec_classify : rstr -> LineKind;
  ec_parse : rstr -> option T;
  ec_render : T -> result EditError rstr;
  ec_opens_section : rstr -> bool;
  (** A trailing [CR] is not significant. *)
  ec_classify_cr : cr_stable ec_classify;
  ec_parse_cr : cr_stable ec_parse;
  (** An empty line is no entry. *)
  ec_classify_empty : ec_classify [] <> Directive;
  (** What the printer accepts, the classifier and the parser read back. *)
  ec_render_parse : forall e r, ec_render e = Ok r ->
    check_raw r = Ok () -> ec_classify r = Directive /\ ec_parse r = Some e;
}.

(** The entries of a document, in file order. *)
Definition entries {T} `{EntryCodec T} (ls : list Line) : list T := omap (entry_of ec_parse) ls.

Definition edit {T} `{EntryCodec T} (wanted : list T) (doc : Document) :=
  edit_entries ec_parse ec_render ec_opens_section wanted doc.

(** The text of a line without trailing [CR]s. *)
Definition bare (r : rstr) : rstr := trim_end_matches (N.eqb CR) r.

(** Lines that are not entries and not empty, with the text a reader sees. *)
Definition other_of {T} `{EntryCodec T} (l : Line) : option (LineKind * rstr) :=
  match entry_of ec_parse l with
  | Some _ => None
  | None => if is_empty (bare (raw l)) then None else Some (kind l, bare (raw l))
  end.
Definition others {T} `{EntryCodec T} (ls : list Line) : list (LineKind * rstr) := omap other_of ls.

Lemma bare_cr r : bare (r ++ [CR]) = bare r.
Proof. unfold bare, trim_end_matches. by rewrite reverse_snoc. Qed.

(** ** What the first loop of [plan_entries] builds *)

Section Placed.
Context {T : Type} `{EntryCodec T}.

(** [placed er ws sl rp rm]: the entry lines [er] (row and entry) become the
    wanted entries [ws] by keeping, rewriting ([rp]) or removing ([rm]) lines
    and adding new ones; [sl] is where each wanted entry ends up. *)
Inductive placed : list (nat * T) -> list T -> list Slot -> list (nat * rstr) -> list nat -> Prop :=
| placed_nil : placed [] [] [] [] []
| placed_keep r a er ws sl rp rm :
    placed er ws sl rp rm -> placed ((r, a) :: er) (a :: ws) (SLine r :: sl) rp rm
| placed_rewrite r a w t er ws sl rp rm :
    ec_render w = Ok t -> check_raw t = Ok () -> placed er ws sl rp rm ->
    placed ((r, a) :: er) (w :: ws) (SLine r :: sl) ((r, t) :: rp) rm
| placed_drop r a er ws sl rp rm :
    placed er ws sl rp rm -> placed ((r, a) :: er) ws sl rp (r :: rm)
| placed_new w t er ws sl rp rm :
    ec_render w = Ok t -> check_raw t = Ok () -> placed er ws sl rp rm ->
    placed er (w :: ws) (SNew t :: sl) rp rm.

Lemma placed_app er1 ws1 sl1 rp1 rm1 er2 ws2 sl2 rp2 rm2 :
  placed er1 ws1 sl1 rp1 rm1 -> placed er2 ws2 sl2 rp2 rm2 ->
  placed (er1 ++ er2) (ws1 ++ ws2) (sl1 ++ sl2) (rp1 ++ rp2) (rm1 ++ rm2).
Proof. induction 1; simpl; eauto using placed. Qed.

Lemma placed_drops er : placed er [] [] [] er.*1.
Proof. induction er as [|[r a] er IH]; simpl; eauto using placed. Qed.

Lemma settle_placed D todo rp sl gone rp' sl' :
  settle ec_render D.*1 todo rp sl = Ok (gone, rp', sl') ->
  exists rpx slx, rp' = rp ++ rpx /\ sl' = sl ++ slx /\ placed D todo slx rpx gone.
Proof.
  revert D rp sl. induction todo as [|w todo IH]; intros D rp sl; simpl.
  - intros [= <- <- <-]. exists [], []. rewrite !app_nil_r. repeat split. apply placed_drops.
  - destruct (ec_render w) as [t|] eqn:Hr; [|done]. simpl.
    destruct (check_raw t) as [[]|] eqn:Hck; [|done]. simpl.
    destruct D as [|[r a] D]; simpl.
    + intros (rpx & slx & -> & -> & Hp)%(IH []). exists rpx, (SNew t :: slx).
      rewrite <- app_assoc. repeat split. by apply placed_new.
    + intros (rpx & slx & -> & -> & Hp)%(IH D). exists ((r, t) :: rpx), (SLine r :: slx).
      rewrite <- !app_assoc. repeat split. by apply placed_rewrite.
Qed.

Variables (found : list (nat * T)) (wanted : list T).

(** The loop invariant at a script position: [D] and [I] are the pending run. *)
Definition run_ok (i j : nat) (st : Run) : Prop :=
  exists E D W I, take i found = E ++ D /\ take j wanted = W ++ I
    /\ deleted st = D.*1 /\ inserted st = I
    /\ placed E W (slots st) (run_replace st) (run_remove st).

Lemma settle_run_ok i j st st' :
  run_ok i j st -> settle_run ec_render st = Ok st' ->
  deleted st' = [] /\ inserted st' = []
  /\ placed (take i found) (take j wanted) (slots st') (run_replace st') (run_remove st').
Proof.
  intros (E & D & W & I & -> & -> & HD & HI & Hp). unfold settle_run. rewrite HD, HI.
  destruct (settle _ _ _ _ _) as [[[gone rp] sl]|] eqn:Hs; [|done]. simpl.
  intros [= <-]. apply settle_placed in Hs as (rpx & slx & -> & -> & Hp'). simpl.
  repeat split. by apply placed_app.
Qed.

Lemma plan_steps_app rows ws (st : Run) s1 s2 :
  plan_steps ec_render rows ws st (s1 ++ s2)
  = plan_steps ec_render rows ws st s1 ≫= fun st' => plan_steps ec_render rows ws st' s2.
Proof.
  revert st. induction s1 as [|s s1 IH]; intros st; [done|]. simpl.
  destruct (plan_step _ _ _ _ _); simpl; [apply IH|done].
Qed.

Lemma take_S_snoc {A} (l : list A) i x : l !! i = Some x -> take (S i) l = take i l ++ [x].
Proof. apply take_S_r. Qed.

Lemma plan_steps_ok i j s st :
  script found.*2 wanted i j s ->
  plan_steps ec_render found.*1 wanted (mkRun [] [] [] [] []) s = Ok st -> run_ok i j st.
Proof.
  intros Hs. revert st. induction Hs as [|i j s a Hs IH Ha Hb|i j s Hs IH Hi|i j s Hs IH Hj]; intros st.
  - simpl. intros [= <-]. exists [], [], [], []. repeat split. constructor.
  - rewrite plan_steps_app. intros (st1 & Hst1 & Hst)%result_bind_ok. specialize (IH _ Hst1).
    simpl in Hst. destruct (settle_run ec_render st1) as [st2|] eqn:E; [|done].
    destruct (settle_run_ok _ _ _ _ IH E) as (Hd & Hi & Hp). simpl in Hst.
    rewrite list_lookup_fmap in Ha. destruct (found !! i) as [[r a']|] eqn:Hf; [|done].
    simpl in Ha. simplify_eq. rewrite list_lookup_fmap, Hf. simpl.
    exists (take (S i) found), [], (take (S j) wanted), []. rewrite !app_nil_r. simpl.
    repeat split; auto. rewrite (take_S_snoc _ _ _ Hf), (take_S_snoc _ _ _ Hb).
    rewrite <- (app_nil_r (run_replace st2)), <- (app_nil_r (run_remove st2)).
    apply placed_app; [done|]. repeat constructor.
  - rewrite plan_steps_app. intros (st1 & Hst1 & Hst)%result_bind_ok. specialize (IH _ Hst1).
    destruct IH as (E & D & W & I & HE & HW & HD & HI & Hp).
    rewrite length_fmap in Hi. destruct (lookup_lt_is_Some_2 _ _ Hi) as [[r a] Hf].
    simpl in Hst. rewrite list_lookup_fmap, Hf in Hst. simpl in Hst. simplify_eq.
    exists E, (D ++ [(r, a)]), W, (inserted st1). rewrite (take_S_snoc _ _ _ Hf), HE, <- app_assoc.
    simpl. repeat split; auto. by rewrite HD, fmap_app.
  - rewrite plan_steps_app. intros (st1 & Hst1 & Hst)%result_bind_ok. specialize (IH _ Hst1).
    destruct IH as (E & D & W & I & HE & HW & HD & HI & Hp).
    destruct (lookup_lt_is_Some_2 _ _ Hj) as [w Hw].
    simpl in Hst. rewrite Hw in Hst. simpl in Hst. simplify_eq.
    exists E, D, W, (inserted st1 ++ [w]). rewrite (take_S_snoc _ _ _ Hw), HW, <- app_assoc.
    simpl. repeat split; auto.
Qed.

(** The script [plan_entries] follows, whether or not [align] gave up. *)
Lemma chosen_script (have : list T) :
  script have wanted (length have) (length wanted)
    (default (replace_all (length have) (length wanted)) (align have wanted)).
Proof.
  destruct (align have wanted) as [s|] eqn:E; simpl; [by apply align_script|apply replace_all_script].
Qed.

End Placed.

(** ** Positions of the new lines *)

(** Keys strictly increase from [lo] on. *)
Fixpoint rising {A} (key : A -> nat) (lo : nat) (l : list A) : Prop :=
  match l with [] => True | x :: l' => lo <= key x /\ rising key (S (key x)) l' end.

(** Keys never decrease from [lo] on. *)
Fixpoint climbing {A} (key : A -> nat) (lo : nat) (l : list A) : Prop :=
  match l with [] => True | x :: l' => lo <= key x /\ climbing key (key x) l' end.

Lemma rising_weaken {A} (key : A -> nat) lo lo' l : lo' <= lo -> rising key lo l -> rising key lo' l.
Proof. destruct l; simpl; [done|]. intros ? [? ?]. split; [lia|done]. Qed.

Lemma rising_climbing {A} (key : A -> nat) lo l : rising key lo l -> climbing key lo l.
Proof.
  revert lo; induction l as [|x l IH]; intros lo; [done|]. intros [? Hr]. split; [done|].
  apply IH. by apply (rising_weaken _ (S (key x))); [lia|].
Qed.

Lemma sort_climbing {A} (key : A -> nat) lo l : climbing key lo l -> sort_by_key key l = l.
Proof.
  revert lo; induction l as [|x l IH]; intros lo; [done|]. intros [_ Hc]. simpl.
  rewrite (IH _ Hc). destruct l as [|y l]; [done|]. simpl. destruct Hc as [Hc _].
  by rewrite (proj2 (Nat.leb_le _ _)).
Qed.

(** [positioned lo sl ins]: [ins] gives each new slot of [sl] a position that
    is past every earlier entry and not past any later one. *)
Inductive positioned : nat -> list Slot -> list (nat * rstr) -> Prop :=
| pos_nil lo : positioned lo [] []
| pos_line lo row sl ins :
    lo <= row -> positioned (S row) sl ins -> positioned lo (SLine row :: sl) ins
| pos_new lo here t sl ins :
    lo <= here -> positioned here sl ins -> positioned lo (SNew t :: sl) ((here, t) :: ins).

(** The line slots increase from [lo] and stay below [len]. *)
Fixpoint lines_from (lo len : nat) (sl : list Slot) : Prop :=
  match sl with
  | [] => lo <= len
  | SLine row :: sl' => lo <= row < len /\ lines_from (S row) len sl'
  | SNew _ :: sl' => lines_from lo len sl'
  end.

Lemma positioned_climbing lo sl ins : positioned lo sl ins -> climbing fst lo ins.
Proof.
  induction 1 as [|lo row sl ins Hle Hp IH|]; simpl; [done| |done].
  destruct ins as [|x ins]; [done|]. destruct IH as [? ?]. split; [lia|done].
Qed.

Lemma lines_from_next lo len sl :
  lines_from lo len sl -> lo <= default len (next_rows sl).2.
Proof.
  revert lo; induction sl as [|[row|t] sl IH]; intros lo; simpl; [done|..];
    destruct (next_rows sl) as [ns nx]; simpl in *; [lia|auto].
Qed.

Lemma lines_from_raise lo here len sl :
  lines_from lo len sl -> here <= default len (next_rows sl).2 -> lines_from here len sl.
Proof.
  revert lo; induction sl as [|[row|t] sl IH]; intros lo; simpl; [done|..];
    destruct (next_rows sl) as [ns nx]; simpl in *; [|eauto].
  intros [? ?] ?. split; [lia|done].
Qed.

Lemma back_over_bounds ls from fin : from <= fin -> from <= back_over ls from fin <= fin.
Proof.
  induction fin as [|fin IH]; intros Hle; cbn [back_over]; [lia|].
  destruct (_ && _) eqn:E; [|lia]. bool_to_prop.
  destruct (IH ltac:(lia)). lia.
Qed.

Lemma find_section_bounds op ls row from limit r :
  find_section op ls row from limit = Some r -> from <= r < limit.
Proof.
  revert row; induction ls as [|l ls IH]; intros row; simpl; [done|].
  destruct (_ && _) eqn:E; [|apply IH]. intros [= <-]. bool_to_prop. lia.
Qed.

(** [section_end] stays between its two bounds. *)
Lemma section_end_bounds op ls from limit :
  from <= limit -> from <= section_end op ls from limit <= limit.
Proof.
  intros Hle. unfold section_end.
  destruct (find_section op ls 0 from limit) as [r|] eqn:E; simpl.
  - apply find_section_bounds in E. pose proof (back_over_bounds ls from r). lia.
  - by apply back_over_bounds.
Qed.

Lemma place_positioned op ls at_ sl acc :
  lines_from (default 0 at_) (length ls) sl ->
  exists ins, place op ls at_ sl (next_rows sl).1 acc = acc ++ ins
    /\ positioned (default 0 at_) sl ins.
Proof.
  revert at_ acc. induction sl as [|[row|t] sl IH]; intros at_ acc Hl.
  - exists []. rewrite app_nil_r. split; [done|constructor].
  - simpl in *. destruct (next_rows sl) as [ns nx] eqn:En. simpl in *. destruct Hl as [? Hl].
    destruct (IH (Some (row + 1)) acc) as (ins & E & Hp); [by rewrite Nat.add_1_r|].
    exists ins. split; [done|]. constructor; [lia|]. by rewrite Nat.add_1_r in Hp.
  - simpl in *. pose proof (lines_from_next _ _ _ Hl) as Hnext.
    pose proof (lines_from_raise (default 0 at_)) as Hraise. specialize (Hraise) with (sl := sl).
    destruct (next_rows sl) as [ns nx] eqn:En. simpl in *.
    set (limit := default (length ls) nx) in *.
    set (here := match at_ with Some from => if op t then section_end op ls from limit else from | None => limit end).
    assert (default 0 at_ <= here <= limit) as Hh.
    { unfold here. destruct at_ as [from|]; simpl in *; [|lia].
      destruct (op t); [by apply section_end_bounds|lia]. }
    destruct (IH (Some here) (acc ++ [(here, t)])) as (ins & E & Hp).
    { apply (Hraise here (length ls)); [done|simpl; lia]. }
    exists ((here, t) :: ins). rewrite E, <- app_assoc. split; [done|]. by constructor; [lia|].
Qed.

Section Rows.
Context {T : Type} `{EntryCodec T}.

Lemma entry_rows_rising row ls :
  rising fst row (entry_rows ec_parse row ls)
  /\ Forall (fun x => x.1 < row + length ls) (entry_rows ec_parse row ls).
Proof.
  revert row; induction ls as [|l ls IH]; intros row; simpl; [done|].
  destruct (IH (S row)) as [IH1 IH2]. destruct (entry_of ec_parse l); simpl.
  - split; [split; [lia|done]|]. constructor; [simpl; lia|].
    eapply Forall_impl; [exact IH2|]. simpl. lia.
  - split; [by apply (rising_weaken _ (S row)); [lia|]|].
    eapply Forall_impl; [exact IH2|]. simpl. lia.
Qed.

Lemma entry_rows_entries row ls : (entry_rows ec_parse row ls).*2 = entries ls.
Proof.
  revert row; induction ls as [|l ls IH]; intros row; [done|]. simpl.
  destruct (entry_of ec_parse l); simpl; by rewrite IH.
Qed.

Lemma placed_rising er ws sl rp rm lo :
  placed er ws sl rp rm -> rising fst lo er -> rising fst lo rp /\ rising id lo rm.
Proof.
  intros Hp. revert lo. induction Hp as [|r a er ws sl rp rm Hp IH|r a w t er ws sl rp rm ?? Hp IH|r a er ws sl rp rm Hp IH|w t er ws sl rp rm ?? Hp IH];
    intros lo Hr; simpl in *; auto; destruct Hr as [Hlo Hr]; destruct (IH _ Hr) as [Hra Hrb];
    repeat split; auto; apply (rising_weaken _ (S r)); auto; lia.
Qed.

Lemma placed_lines er ws sl rp rm lo len :
  placed er ws sl rp rm -> rising fst lo er -> Forall (fun x => x.1 < len) er -> lo <= len ->
  lines_from lo len sl.
Proof.
  intros Hp. revert lo. induction Hp as [|r a er ws sl rp rm Hp IH|r a w t er ws sl rp rm ?? Hp IH|r a er ws sl rp rm Hp IH|w t er ws sl rp rm ?? Hp IH];
    intros lo Hr Hlt Hlen; simpl in *; auto; destruct Hr as [Hlo Hr]; inversion Hlt; simplify_eq; simpl in *;
    try (split; [lia|apply IH; auto; lia]).
  assert (lines_from (S r) len sl) as Hsl by (apply IH; auto; lia).
  pose proof (lines_from_next _ _ _ Hsl). eapply lines_from_raise; [exact Hsl|lia].
Qed.

End Rows.

(** ** What [apply_plan] makes of such a plan *)

Section Merge.
Context {T : Type} `{EntryCodec T}.
Variable dominant : LineEnding.
Notation fresh := (fun r => new_line r (ec_classify r) dominant).
Notation merge := (merge_plan ec_classify dominant).

Lemma fresh_entry (e : T) t :
  ec_render e = Ok t -> check_raw t = Ok () -> entry_of ec_parse (fresh t) = Some e.
Proof.
  intros Hr Hck. destruct (ec_render_parse e t Hr Hck) as [Hk Hp].
  unfold entry_of; simpl. by rewrite Hk, bool_decide_true.
Qed.

Lemma placed_new_inv er ws t sl rp rm :
  placed er ws (SNew t :: sl) rp rm ->
  exists w ws', ws = w :: ws' /\ ec_render w = Ok t /\ check_raw t = Ok () /\ placed er ws' sl rp rm.
Proof.
  intros Hp. remember (SNew t :: sl) as s eqn:E. revert t sl E.
  induction Hp as [| | |r a er ws sl rp rm Hp IH|w t er ws sl rp rm ?? Hp IH]; intros t' sl' E; simplify_eq.
  - destruct (IH _ _ eq_refl) as (w & ws' & -> & ? & ? & ?). eauto 10 using placed.
  - eauto 10.
Qed.

Lemma placed_row_cases r a er ws sl rp rm :
  placed ((r, a) :: er) ws sl rp rm ->
  (exists rm', rm = r :: rm' /\ placed er ws sl rp rm') \/ SLine r ∈ sl.
Proof.
  intros Hp. remember ((r, a) :: er) as e eqn:E. revert r a er E.
  induction Hp as [|r a er ws sl rp rm Hp IH|r a w t er ws sl rp rm ?? Hp IH|r a er ws sl rp rm Hp IH|w t er ws sl rp rm ?? Hp IH];
    intros r' a' er' E; simplify_eq; try (right; set_solver).
  - eauto.
  - destruct (IH _ _ _ eq_refl) as [(rm' & -> & ?)|?]; [left|right; set_solver].
    eauto using placed.
Qed.

Lemma positioned_line_ge lo sl ins r : positioned lo sl ins -> SLine r ∈ sl -> lo <= r.
Proof.
  induction 1 as [|lo row sl ins Hle Hp IH|lo here t sl ins Hle Hp IH]; intros Hin; [set_solver|..];
    apply elem_of_cons in Hin as [E|Hin]; simplify_eq; auto; specialize (IH Hin); lia.
Qed.

(** The new lines due at [row] are the leading new slots. *)
Lemma due_positioned row sl ins now later er ws rp rm :
  positioned row sl ins -> due row ins = (now, later) -> placed er ws sl rp rm ->
  exists sl' ws1 ws', positioned row sl' later /\ climbing fst (S row) later /\ ws = ws1 ++ ws'
    /\ placed er ws' sl' rp rm /\ entries (fresh <$> now) = ws1 /\ others (fresh <$> now) = []
    /\ (forall t sl'', sl' = SNew t :: sl'' -> exists here, row < here /\ positioned here sl'' (tail later)).
Proof.
  intros Hpos. revert now later ws. induction Hpos as [lo|lo r sl ins Hle Hp IH|lo here t sl ins Hle Hp IH];
    intros now later ws Hdue Hpl.
  - simpl in Hdue. simplify_eq. exists [], [], ws. repeat split; auto using positioned; done.
  - exists (SLine r :: sl), [], ws. pose proof (positioned_climbing _ _ _ Hp) as Hcl.
    assert (now = [] /\ later = ins) as [-> ->].
    { destruct ins as [|[a x] ins]; simpl in Hdue; [by simplify_eq|]. destruct Hcl as [? _]. simpl in *.
      rewrite (proj2 (Nat.leb_gt _ _)) in Hdue by lia. by simplify_eq. }
    repeat split; auto using positioned; try done.
    destruct ins; [done|]. destruct Hcl. split; [lia|done].
  - destruct (placed_new_inv _ _ _ _ _ _ Hpl) as (w & ws' & -> & Hr & Hck & Hpl').
    simpl in Hdue. destruct (here <=? lo) eqn:E; bool_to_prop.
    + assert (here = lo) as -> by lia. destruct (due lo ins) as [n lt] eqn:Ed. simplify_eq.
      destruct (IH _ _ _ eq_refl Hpl') as (sl' & ws1 & ws2 & ? & ? & -> & ? & He & Ho & ?).
      exists sl', (w :: ws1), ws2. repeat split; auto.
      * cbn. rewrite (fresh_entry w t Hr Hck). simpl. by rewrite <- He.
      * cbn. unfold other_of. by rewrite (fresh_entry w t Hr Hck).
    + simplify_eq. exists (SNew t :: sl), [], (w :: ws').
      repeat split; try done; [by constructor|by apply positioned_climbing in Hp|].
      intros t' sl'' [= <- <-]. exists here. split; [lia|done].
Qed.

Lemma placed_rows_in er ws sl rp rm : placed er ws sl rp rm ->
  forall r, SLine r ∈ sl -> exists a, (r, a) ∈ er.
Proof. induction 1; intros r' Hin; set_solver. Qed.

Lemma rising_in {A} (key : A -> nat) lo l x : rising key lo l -> x ∈ l -> lo <= key x.
Proof.
  revert lo; induction l as [|y l IH]; intros lo; [set_solver|]. intros [? Hr] [->|Hin]%elem_of_cons; [done|].
  specialize (IH _ Hr Hin). lia.
Qed.

(** Positions and slots left after the new lines of [row] lie past [row]. *)
Lemma positioned_next row sl later er ws rp rm :
  positioned row sl later -> climbing fst (S row) later ->
  placed er ws sl rp rm -> rising fst (S row) er -> positioned (S row) sl later.
Proof.
  intros Hp Hcl Hpl Hr. inversion Hp as [|? r' sl' ? Hle Hp'|? here t sl' ins' Hle Hp']; subst.
  - constructor.
  - constructor; [|done]. destruct (placed_rows_in _ _ _ _ _ Hpl r') as [a Ha]; [set_solver|].
    by apply (rising_in _ _ _ _ Hr Ha).
  - simpl in Hcl. constructor; [lia|done].
Qed.

Definition keep_ending (l : Line) : Line :=
  if bool_decide (ending l = NoEnding) then set_ending dominant l else l.

Lemma keep_ending_entry l : entry_of ec_parse (keep_ending l) = entry_of ec_parse l
  /\ other_of (keep_ending l) = other_of l.
Proof. unfold keep_ending. by destruct (bool_decide _). Qed.

Lemma head_rising row rm : rising id (S row) rm -> bool_decide (head rm = Some row) = false.
Proof.
  intros Hr. apply bool_decide_eq_false. destruct rm as [|r rm]; [done|].
  destruct Hr as [? _]. unfold id in *. simpl. intros [= ->]. lia.
Qed.

Lemma next_replace row (l : Line) rp :
  rising fst (S row) rp ->
  match rp with
  | (at_, r) :: rp'' => if at_ =? row then (set_raw (ec_classify r) r l, rp'') else (l, rp)
  | [] => (l, rp)
  end = (l, rp).
Proof.
  destruct rp as [|[a r] rp]; [done|]. intros [? _]. simpl in *.
  by rewrite (proj2 (Nat.eqb_neq _ _)) by lia.
Qed.

Lemma others_entry l ls (a : T) : entry_of ec_parse l = Some a -> others (l :: ls) = others ls.
Proof.
  intros E. unfold others. cbn [omap list_omap].
  replace (other_of l) with (@None (LineKind * rstr)); [done|]. unfold other_of. by rewrite E.
Qed.

Lemma tail_entries (ws : list T) sl rp rm lo ins :
  placed [] ws sl rp rm -> positioned lo sl ins ->
  entries (fresh <$> ins.*2) = ws /\ others (fresh <$> ins.*2) = [].
Proof.
  intros Hpl. remember [] as er eqn:E. revert lo ins E.
  induction Hpl as [| | | |w t er ws sl rp rm Hr Hck Hp IH]; intros lo ins E Hpos; try done;
    inversion Hpos as [| |? here ? ? ins' Hle Hp']; subst; [done|].
  destruct (IH _ _ eq_refl Hp') as [He Ho]. unfold entries, others in *.
  cbn [fmap list_fmap omap list_omap snd]. unfold other_of at 1.
  rewrite (fresh_entry w t Hr Hck). by rewrite He, Ho.
Qed.

Lemma merge_entries row ls sl ins rp rm (ws : list T) :
  placed (entry_rows ec_parse row ls) ws sl rp rm -> positioned row sl ins ->
  entries (merge row ls rp rm ins) = ws /\ others (merge row ls rp rm ins) = others ls.
Proof.
  revert row sl ins rp rm ws. induction ls as [|l ls IH]; intros row sl ins rp rm ws Hpl Hpos.
  - by eapply tail_entries.
  - cbn [merge_plan]. destruct (due row ins) as [now later] eqn:Ed.
    destruct (due_positioned _ _ _ _ _ _ _ _ _ Hpos Ed Hpl)
      as (sl' & ws1 & ws' & Hpos' & Hcl & -> & Hpl' & He & Ho & Hnew).
    assert (forall X, entries X = ws' /\ others X = others (l :: ls) ->
      entries ((fresh <$> now) ++ X) = ws1 ++ ws' /\ others ((fresh <$> now) ++ X) = others (l :: ls)) as Hwrap.
    { intros X [H1 H2]. unfold entries, others in *. rewrite !omap_app, He, Ho, H1. done. }
    apply Hwrap. clear Hwrap He Ho.
    destruct (entry_rows_rising (S row) ls) as [Hris _].
    cbn [entry_rows] in Hpl'. destruct (entry_of ec_parse l) as [a|] eqn:El.
    + assert (Hdrop : forall rm', rm = row :: rm' -> placed (entry_rows ec_parse (S row) ls) ws' sl' rp rm' ->
        entries (merge (S row) ls rp (tail rm) later) = ws' /\ others (merge (S row) ls rp (tail rm) later) = others (l :: ls)).
      { intros rm' -> Hpd. rewrite (others_entry _ _ _ El). cbn [tail].
        apply (IH (S row) sl'); [done|]. by eapply positioned_next. }
      destruct sl' as [|[r'|t] sl'].
      * destruct (placed_row_cases _ _ _ _ _ _ _ Hpl') as [(rm' & -> & Hpd)|?]; [|set_solver].
        simpl. rewrite bool_decide_true by done. by eapply Hdrop.
      * inversion Hpl' as [|? ? ? ? ? ? ? Hpk|? ? w t ? ? ? rp' ? Hr Hck Hpk|? ? ? ? ? ? rm' Hpd|]; subst; cycle 2.
        { simpl. rewrite bool_decide_true by done. by eapply Hdrop. }
        -- destruct (placed_rising _ _ _ _ _ _ Hpk Hris) as [Hrp Hrm].
           rewrite (head_rising _ _ Hrm), (next_replace _ l rp Hrp).
           destruct (IH _ sl' later rp rm _ Hpk) as [IH1 IH2]; [by inversion Hpos'|].
           fold (keep_ending l). destruct (keep_ending_entry l) as [Ee Eo].
           unfold entries, others in *. cbn [omap list_omap]. rewrite Ee, Eo, El, IH1, IH2. done.
        -- destruct (placed_rising _ _ _ _ _ _ Hpk Hris) as [Hrp Hrm].
           rewrite (head_rising _ _ Hrm), Nat.eqb_refl.
           destruct (IH _ sl' later rp' rm _ Hpk) as [IH1 IH2]; [by inversion Hpos'|].
           set (l' := set_raw (ec_classify t) t l). fold (keep_ending l').
           destruct (keep_ending_entry l') as [Ee _].
           assert (entry_of ec_parse l' = Some w) as El' by exact (fresh_entry w t Hr Hck).
           rewrite El' in Ee. rewrite (others_entry _ _ _ Ee), (others_entry _ _ _ El), IH2.
           unfold entries in *. cbn [omap list_omap]. by rewrite Ee, IH1.
      * destruct (placed_row_cases _ _ _ _ _ _ _ Hpl') as [(rm' & -> & Hpd)|Hin].
        { simpl. rewrite bool_decide_true by done. by eapply Hdrop. }
        destruct (Hnew _ _ eq_refl) as (here & Hlt & Hph).
        apply elem_of_cons in Hin as [|Hin]; [done|].
        pose proof (positioned_line_ge _ _ _ _ Hph Hin). lia.
    + destruct (placed_rising _ _ _ _ _ _ Hpl' Hris) as [Hrp Hrm].
      rewrite (head_rising _ _ Hrm), (next_replace row l rp Hrp).
      destruct (IH (S row) sl' later rp rm ws') as [IH1 IH2]; [done|by eapply positioned_next|].
      fold (keep_ending l). destruct (keep_ending_entry l) as [Ee Eo].
      unfold entries, others in *. cbn [omap list_omap]. rewrite Ee, Eo, El, IH1, IH2. done.
Qed.

End Merge.

(** ** Normalisation keeps entries and other lines *)

Section Final.
Context {T : Type} `{EntryCodec T}.

Lemma fix_cr_entry l :
  entry_of ec_parse (fix_cr l) = entry_of ec_parse l /\ other_of (fix_cr l) = other_of l.
Proof.
  unfold other_of, fix_cr. destruct (_ && _) eqn:E; [|done]. bool_to_prop.
  apply ends_with_inv in H1. unfold entry_of; simpl.
  assert (ec_parse (pop (raw l)) = ec_parse (raw l)) as -> by (rewrite H1 at 2; by rewrite ec_parse_cr).
  assert (bare (pop (raw l)) = bare (raw l)) as -> by (rewrite H1 at 2; by rewrite bare_cr).
  done.
Qed.

Lemma set_span_entry s l :
  entry_of ec_parse (set_span s l) = entry_of ec_parse l /\ other_of (set_span s l) = other_of l.
Proof. done. Qed.

Lemma respan_entries off ls : entries (respan off ls) = entries ls /\ others (respan off ls) = others ls.
Proof.
  revert off; induction ls as [|l ls IH]; intros off; [done|]. unfold entries, others in *.
  cbn [respan omap list_omap]. destruct (IH (span_end (mkSpan off (off + str_len (raw l))) + str_len (as_str (ending l)))) as [-> ->].
  done.
Qed.

Lemma normalize_entries ls :
  Forall (body_ok ec_classify) ls ->
  entries (normalize ls) = entries ls /\ others (normalize ls) = others ls.
Proof.
  intros Hb. unfold normalize.
  destruct (respan_entries 0 (drop_empty_tail (fix_cr <$> ls))) as [-> ->].
  assert (entries (fix_cr <$> ls) = entries ls /\ others (fix_cr <$> ls) = others ls) as [<- <-].
  { clear Hb. induction ls as [|l ls [IH1 IH2]]; [done|]. unfold entries, others in *.
    cbn [fmap list_fmap omap list_omap]. destruct (fix_cr_entry l) as [-> ->]. by rewrite IH1, IH2. }
  destruct (drop_empty_tail_cases (fix_cr <$> ls)) as [[-> _]|(l & E & _ & Hr)]; [done|].
  assert (body_ok ec_classify l) as [_ Hk].
  { assert (l ∈ fix_cr <$> ls) as (l0 & -> & Hin)%list_elem_of_fmap by (rewrite E; set_solver).
    rewrite Forall_forall in Hb. by apply fix_cr_ok; [apply ec_classify_cr|apply Hb]. }
  assert (entry_of ec_parse l = None) as El.
  { unfold entry_of. rewrite Hk, Hr. by rewrite bool_decide_false by apply ec_classify_empty. }
  unfold entries, others. rewrite E at 2 4. rewrite !omap_app. cbn [omap list_omap].
  unfold other_of at 3. rewrite El, Hr. simpl. by rewrite !app_nil_r.
Qed.

Lemma alter_last_entries e ls :
  entries (alter_last (set_ending e) ls) = entries ls /\ others (alter_last (set_ending e) ls) = others ls.
Proof.
  destruct ls as [|l ls _] using rev_ind; [done|]. rewrite alter_last_snoc.
  unfold entries, others. by rewrite !omap_app.
Qed.

Lemma placed_checked er (ws : list T) sl rp rm :
  placed er ws sl rp rm -> Forall raw_ok rp /\ Forall (fun s => match s with SNew t => check_raw t = Ok () | _ => True end) sl.
Proof. induction 1; rewrite ?Forall_cons; naive_solver. Qed.

Lemma positioned_checked lo sl ins :
  positioned lo sl ins -> Forall (fun s => match s with SNew t => check_raw t = Ok () | _ => True end) sl ->
  Forall raw_ok ins.
Proof. induction 1; rewrite ?Forall_cons; naive_solver. Qed.

(** The plan of [plan_entries], in the terms of this file. *)
Lemma plan_entries_placed (wanted : list T) doc p :
  plan_entries ec_parse ec_render ec_opens_section doc wanted = Ok p ->
  exists sl, placed (entry_rows ec_parse 0 (lines doc)) wanted sl (replace p) (remove p)
    /\ positioned 0 sl (insert p).
Proof.
  unfold plan_entries. intros (st & Hst & (st' & Hst' & Hp)%result_bind_ok)%result_bind_ok.
  set (found := entry_rows ec_parse 0 (lines doc)) in *.
  pose proof (chosen_script wanted found.*2) as Hsc.
  apply (plan_steps_ok found wanted _ _ _ _ Hsc) in Hst.
  destruct (settle_run_ok _ _ _ _ _ _ Hst Hst') as (_ & _ & Hpl).
  rewrite length_fmap, !firstn_all in Hpl. simplify_eq. simpl.
  destruct (entry_rows_rising 0 (lines doc)) as [Hris Hlt].
  destruct (place_positioned ec_opens_section (lines doc) None (slots st') []) as (ins & E & Hpos).
  { apply (placed_lines _ _ _ _ _ 0 (length (lines doc)) Hpl Hris Hlt). lia. }
  exists (slots st'). split; [done|]. by rewrite E.
Qed.

Lemma plan_entries_checked (wanted : list T) doc p :
  plan_entries ec_parse ec_render ec_opens_section doc wanted = Ok p -> plan_checked p.
Proof.
  intros (sl & Hpl & Hpos)%plan_entries_placed.
  destruct (placed_checked _ _ _ _ _ Hpl) as [Hrp Hsl]. split; [done|]. by eapply positioned_checked.
Qed.

(** The entries after [edit_entries] are the wanted ones, and no other line
    is touched. *)
Lemma edit_exact (wanted : list T) doc doc' report :
  reachable ec_classify doc -> edit wanted doc = Ok (doc', report) ->
  entries (lines doc') = wanted /\ others (lines doc') = others (lines doc)
  /\ reachable ec_classify doc'.
Proof.
  intros Hreach. pose proof (reachable_wf _ ec_classify_cr _ Hreach) as [Hwf Hcl].
  intros (p & Hp & Ha)%result_bind_ok.
  pose proof (plan_entries_checked _ _ _ Hp) as Hck.
  enough (entries (lines (apply_plan p doc).1) = wanted
    /\ others (lines (apply_plan p doc).1) = others (lines doc)) as [H1 H2].
  { rewrite (surjective_pairing (apply_plan p doc)) in Ha. simplify_eq. split_and!; auto.
    by apply reach_plan. }
  clear Ha. destruct (plan_entries_placed _ _ _ Hp) as (sl & Hpl & Hpos).
  destruct (entry_rows_rising 0 (lines doc)) as [Hris _].
  destruct (placed_rising _ _ _ _ _ _ Hpl Hris) as [Hrp Hrm].
  unfold apply_plan, rebuild. cbn [fst lines]. rewrite Hcl.
  rewrite (sort_climbing _ 0 _ (rising_climbing _ _ _ Hrp)), (sort_climbing _ 0 _ (rising_climbing _ _ _ Hrm)),
    (sort_climbing _ 0 _ (positioned_climbing _ _ _ Hpos)).
  set (d := dominant_ending doc).
  destruct (merge_entries d 0 (lines doc) sl (insert p) (replace p) (remove p) wanted Hpl Hpos) as [He Ho].
  apply wf_pre in Hwf as [Hb _]. destruct Hck as [Hck1 Hck2].
  destruct (merge_plan_ok ec_classify d 0 (lines doc) (replace p) (remove p) (insert p)) as [Hmb Hmt];
    [apply dominant_terminated|done..|].
  destruct (unterminated (lines doc)).
  - destruct (normalize_entries (alter_last (set_ending NoEnding) (merge_plan ec_classify d 0 (lines doc) (replace p) (remove p) (insert p)))) as [-> ->].
    + by apply pre_alter_last.
    + destruct (alter_last_entries NoEnding (merge_plan ec_classify d 0 (lines doc) (replace p) (remove p) (insert p))) as [-> ->]. done.
  - destruct (normalize_entries (merge_plan ec_classify d 0 (lines doc) (replace p) (remove p) (insert p)) Hmb) as [-> ->]. done.
Qed.

(** *** Errors *)

Definition refuses (e : EditError) (w : T) : Prop :=
  ec_render w = Err e \/ exists t, ec_render w = Ok t /\ check_raw t = Err e.

Lemma settle_err gone todo rp sl e :
  settle ec_render gone todo rp sl = Err e -> exists w : T, w ∈ todo /\ refuses e w.
Proof.
  revert gone rp sl. induction todo as [|w todo IH]; intros gone rp sl; [done|]. simpl.
  destruct (ec_render w) as [t|e'] eqn:Hr; simpl; cycle 1.
  { intros [= ->]. exists w. split; [set_solver|by left]. }
  destruct (check_raw t) as [[]|e'] eqn:Hck; simpl; cycle 1.
  { intros [= ->]. exists w. split; [set_solver|right; eauto]. }
  destruct gone; intros (w' & ? & ?)%IH; exists w'; set_solver.
Qed.

Lemma plan_steps_err rows (wanted : list T) st steps e :
  inserted st ⊆ wanted -> plan_steps ec_render rows wanted st steps = Err e ->
  exists w, w ∈ wanted /\ refuses e w.
Proof.
  revert st. induction steps as [|s steps IH]; intros st Hin; [done|]. simpl.
  assert (forall x, settle_run ec_render st = Err x -> exists w, w ∈ wanted /\ refuses x w) as Hse.
  { unfold settle_run. intros x. destruct (settle _ _ _ _ _) as [[[??]?]|] eqn:Es; [done|].
    simpl. intros [= ->]. apply settle_err in Es as (w & ? & ?). set_solver. }
  destruct s as [o n|o|n]; simpl.
  - destruct (settle_run ec_render st) as [st'|x] eqn:Es; simpl; [|intros [= ->]; by apply Hse].
    apply IH. simpl. unfold settle_run in Es.
    destruct (settle _ _ _ _ _) as [[[??]?]|]; [|done]. simpl in Es. simplify_eq. simpl. set_solver.
  - by apply IH.
  - apply IH. simpl. destruct (wanted !! n) as [w|] eqn:Hw; simpl; [|set_solver].
    apply list_elem_of_lookup_2 in Hw. set_solver.
Qed.

(** *** Applying the entries a document already has *)

Lemma script_no_edits (l : list T) n s :
  script l l n n s -> edits s = 0 -> s = equals 0 0 n.
Proof.
  intros Hs He. assert (forall i j s, script l l i j s -> edits s = 0 -> i = j /\ s = equals 0 0 i) as Hgen.
  { clear n s Hs He. induction 1 as [|i j s a Hs IH Ha Hb|i j s Hs IH Hi|i j s Hs IH Hj]; intros He; [done|..];
      rewrite edits_snoc in He; simpl in He; [|lia|lia].
    destruct IH as [-> ->]; [lia|]. by rewrite equals_S. }
  by apply (Hgen n n).
Qed.

Lemma align_self (l : list T) : align l l = Some (equals 0 0 (length l)).
Proof.
  assert (forall n, n <= length l -> script l l n n (equals 0 0 n) /\ edits (equals 0 0 n) = 0) as Hdiag.
  { intros n Hn. destruct (script_equals l l 0 0 [] n) as [? ?]; [constructor| |done].
    intros i Hi. destruct (lookup_lt_is_Some_2 l i ltac:(lia)) as [a Ha]. by exists a. }
  destruct (Hdiag (length l)) as [Hs He]; [lia|].
  destruct (align l l) as [s|] eqn:E.
  - f_equal. apply (script_no_edits l); [by apply align_script|].
    pose proof (align_minimal _ _ _ _ E Hs). lia.
  - pose proof (proj1 (align_none l l) E _ Hs). lia.
Qed.

Lemma plan_steps_equals (l : list T) rows n :
  length rows = length l -> n <= length l ->
  plan_steps ec_render rows l (mkRun [] [] [] [] []) (equals 0 0 n)
  = Ok (mkRun [] [] [] [] (SLine <$> take n rows)).
Proof.
  intros Hlen. induction n as [|n IH]; intros Hn; [done|].
  rewrite equals_S, plan_steps_app, IH by lia. simpl.
  destruct (lookup_lt_is_Some_2 rows n ltac:(lia)) as [r Hr]. rewrite Hr. simpl.
  by rewrite (take_S_snoc _ _ _ Hr), fmap_app.
Qed.

Lemma place_lines op ls at_ rows nexts acc : place op ls at_ (SLine <$> rows) nexts acc = acc.
Proof. revert at_ nexts; induction rows as [|r rows IH]; intros at_ [|n nexts]; simpl; auto. Qed.

Lemma merge_empty c d row ls :
  merge_plan c d row ls [] [] [] = keep_ending d <$> ls.
Proof. revert row; induction ls as [|l ls IH]; intros row; [done|]. simpl. by rewrite IH. Qed.

Lemma keep_ending_terminated d ls : all_terminated ls -> keep_ending d <$> ls = ls.
Proof.
  induction 1 as [|l ls Hl Hls IH]; [done|]. cbn [fmap list_fmap]. unfold keep_ending at 1.
  rewrite bool_decide_false by done. f_equal. exact IH.
Qed.

Lemma apply_empty_plan c doc :
  wf_lines c (lines doc) -> apply_plan empty_plan doc = (doc, mkReport 0 0 0).
Proof.
  intros Hwf. pose proof Hwf as (_ & Ht & _). unfold apply_plan, rebuild. cbn [insert replace remove empty_plan sort_by_key foldr].
  rewrite merge_empty. destruct doc as [ls cl]; cbn [lines classify] in *.
  enough ((if unterminated ls then alter_last (set_ending NoEnding) (keep_ending (dominant_ending (mkDocument ls cl)) <$> ls)
    else keep_ending (dominant_ending (mkDocument ls cl)) <$> ls) = ls) as -> by (by rewrite (normalize_wf_id c)).
  destruct (unterminated ls) eqn:Hu; [|by apply keep_ending_terminated, unterminated_false].
  destruct ls as [|l ls _] using rev_ind; [done|]. unfold unterminated in Hu. rewrite last_snoc in Hu.
  bool_to_prop. apply body_terminated_snoc in Ht. set (d := dominant_ending _).
  rewrite fmap_app. change (keep_ending d <$> [l]) with [keep_ending d l].
  rewrite alter_last_snoc, keep_ending_terminated by done. do 2 f_equal. unfold keep_ending. rewrite bool_decide_true by done. destruct l; simpl in *; by subst.
Qed.

Lemma plan_steps_inserted rows (wanted : list T) st steps st' :
  plan_steps ec_render rows wanted st steps = Ok st' -> inserted st ⊆ wanted -> inserted st' ⊆ wanted.
Proof.
  revert st. induction steps as [|s steps IH]; intros st; simpl; [by intros [= <-]|].
  intros (st1 & H1 & H2)%result_bind_ok Hin. eapply IH; [exact H2|].
  destruct s as [o n|o|n]; simpl in H1.
  - apply result_bind_ok in H1 as (st2 & H1 & [= <-]). simpl. unfold settle_run in H1.
    apply result_bind_ok in H1 as ([[??]?] & _ & [= <-]). simpl. set_solver.
  - by simplify_eq.
  - simplify_eq. simpl. destruct (wanted !! n) as [w|] eqn:Hw; simpl; [|set_solver].
    apply list_elem_of_lookup_2 in Hw. set_solver.
Qed.

(** Every wanted entry was there before or was written through the printer. *)
Lemma placed_origin er (ws : list T) sl rp rm : placed er ws sl rp rm ->
  forall w, w ∈ ws -> w ∈ er.*2 \/ exists t, ec_render w = Ok t /\ check_raw t = Ok ().
Proof. induction 1; intros w' Hin; set_solver. Qed.

Lemma edit_origin (wanted : list T) doc doc' report w :
  edit wanted doc = Ok (doc', report) -> w ∈ wanted ->
  w ∈ entries (lines doc) \/ exists t, ec_render w = Ok t /\ check_raw t = Ok ().
Proof.
  intros (p & (sl & Hpl & _)%plan_entries_placed & _)%result_bind_ok Hin.
  rewrite <- (entry_rows_entries 0). by eapply placed_origin.
Qed.

Lemma edit_noop doc :
  reachable ec_classify doc -> edit (entries (lines doc)) doc = Ok (doc, mkReport 0 0 0).
Proof.
  intros Hreach. destruct (reachable_wf _ ec_classify_cr _ Hreach) as [Hwf _].
  unfold edit, edit_entries, plan_entries.
  rewrite (entry_rows_entries 0 (lines doc)), align_self. cbn [from_option Datatypes.id].
  assert (length (entry_rows ec_parse 0 (lines doc)).*1 = length (entries (lines doc))) as Hlen
    by (by rewrite <- (entry_rows_entries 0), !length_fmap).
  rewrite plan_steps_equals by lia. cbn. rewrite place_lines.
  change (mkPlan [] [] []) with empty_plan. by rewrite (apply_empty_plan ec_classify).
Qed.

Lemma edit_err (wanted : list T) doc e :
  edit wanted doc = Err e -> exists w, w ∈ wanted /\ refuses e w.
Proof.
  unfold edit, edit_entries, plan_entries.
  destruct (plan_steps _ _ _ _ _) as [st|x] eqn:E1; cbn; cycle 1.
  { intros [= ->]. eapply plan_steps_err; [|exact E1]. set_solver. }
  assert (inserted st ⊆ wanted) as Hin by (eapply plan_steps_inserted; [exact E1|]; set_solver).
  destruct (settle_run ec_render st) as [st'|x] eqn:E2; cbn; [done|]. intros [= ->].
  unfold settle_run in E2. destruct (settle _ _ _ _ _) as [[[??]?]|] eqn:Es; [done|].
  cbn in E2. simplify_eq. apply settle_err in Es as (w & ? & ?). exists w. set_solver.
Qed.

(** *** The report *)

(** What a run of [d] entries gone and [i] wanted ones comes to: as many lines
    rewritten as both have, and the rest added or removed. *)
Definition run_report (d i : nat) : EditReport := mkReport (min d i) (i - d) (d - i).

Definition add_reports (a b : EditReport) : EditReport :=
  mkReport (changed_lines a + changed_lines b) (added a + added b) (removed a + removed b).

Lemma add_reports_nothing r : add_reports (mkReport 0 0 0) r = r.
Proof. by destruct r. Qed.

(** The report of a script: its runs are what lies between the kept entries. *)
Fixpoint tally (d i : nat) (steps : list Step) : EditReport :=
  match steps with
  | [] => run_report d i
  | Delete _ :: steps => tally (S d) i steps
  | Insert _ :: steps => tally d (S i) steps
  | Equal _ _ :: steps => add_reports (run_report d i) (tally 0 0 steps)
  end.

(** The script of an edit: the shortest one, or all out and all in when it is too long. *)
Definition edit_script (wanted : list T) (doc : Document) : list Step :=
  default (replace_all (length (entries (lines doc))) (length wanted)) (align (entries (lines doc)) wanted).

Fixpoint news (sl : list Slot) : nat := match sl with [] => 0 | SLine _ :: sl => news sl | SNew _ :: sl => S (news sl) end.

Lemma news_app a b : news (a ++ b) = news a + news b.
Proof. induction a as [|[] a IH]; simpl; congruence. Qed.

Lemma news_lines rows : news (SLine <$> rows) = 0.
Proof. by induction rows. Qed.

Lemma length_place op ls at_ sl acc : length (place op ls at_ sl (next_rows sl).1 acc) = length acc + news sl.
Proof.
  revert at_ acc. induction sl as [|[row|t] sl IH]; intros at_ acc; [simpl; lia|..]; simpl;
    destruct (next_rows sl) as [ns nx] eqn:E; simpl in *; rewrite IH, ?length_app; simpl; lia.
Qed.

(** The report of a state of the first loop. *)
Definition so_far (st : Run (T := T)) : EditReport := mkReport (length (run_replace st)) (news (slots st)) (length (run_remove st)).

Lemma settle_counts gone (todo : list T) rp sl gone' rp' sl' : settle ec_render gone todo rp sl = Ok (gone', rp', sl') ->
  length rp' = length rp + min (length gone) (length todo) /\ news sl' = news sl + (length todo - length gone)
  /\ length gone' = length gone - length todo.
Proof.
  revert gone rp sl. induction todo as [|w todo IH]; intros gone rp sl; simpl.
  - intros [= <- <- <-]. rewrite Nat.min_0_r. lia.
  - destruct (ec_render w) as [t|]; [|done]. simpl. destruct (check_raw t) as [[]|]; [|done]. simpl.
    destruct gone as [|r gone]; intros (H1 & H2 & H3)%IH; rewrite ?length_app, ?news_app in *; simpl in *; lia.
Qed.

Lemma settle_run_counts (st st' : Run) : settle_run ec_render st = Ok st' ->
  so_far st' = add_reports (so_far st) (run_report (length (deleted st)) (length (inserted st))) /\ deleted st' = [] /\ inserted st' = [].
Proof.
  unfold settle_run. intros ([[gone rp] sl] & (H1 & H2 & H3)%settle_counts & [= <-])%result_bind_ok. split; [|done].
  unfold so_far, add_reports, run_report. cbn [run_replace slots run_remove changed_lines added removed]. rewrite length_app. f_equal; lia.
Qed.

Definition step_fits (n m : nat) (x : Step) : Prop := match x with Delete i => i < n | Insert j => j < m | Equal _ _ => True end.

Lemma script_fits (old new : list T) i j steps : script old new i j steps -> Forall (step_fits (length old) (length new)) steps.
Proof. induction 1; rewrite ?Forall_app; repeat split; auto; by repeat constructor. Qed.

Lemma plan_steps_tally rows (wanted : list T) steps : forall (st st1 st2 : Run),
  Forall (step_fits (length rows) (length wanted)) steps ->
  plan_steps ec_render rows wanted st steps = Ok st1 -> settle_run ec_render st1 = Ok st2 ->
  so_far st2 = add_reports (so_far st) (tally (length (deleted st)) (length (inserted st)) steps).
Proof.
  induction steps as [|x steps IH]; intros st st1 st2 Hfit; cbn [plan_steps tally].
  - intros [= ->] Hs. by apply settle_run_counts in Hs as [-> _].
  - apply Forall_cons in Hfit as [Hx Hfit]. intros (st' & Hst' & Hrest)%result_bind_ok Hs.
    rewrite (IH _ _ _ Hfit Hrest Hs). destruct x as [o n|o|n]; cbn [plan_step] in Hst'.
    + apply result_bind_ok in Hst' as (st0 & H0 & [= <-]). destruct (settle_run_counts _ _ H0) as (Hc & Hd & Hi).
      unfold so_far in Hc |- *. cbn [run_replace slots run_remove deleted inserted]. rewrite news_app, news_lines, Nat.add_0_r, Hc, Hd, Hi.
      unfold add_reports, run_report. cbn [changed_lines added removed length]. f_equal; lia.
    + injection Hst' as <-. cbn [deleted inserted so_far run_replace slots run_remove step_fits] in *.
      destruct (lookup_lt_is_Some_2 rows o Hx) as [r ->]. simpl. by rewrite length_app, Nat.add_1_r.
    + injection Hst' as <-. cbn [deleted inserted so_far run_replace slots run_remove step_fits] in *.
      destruct (lookup_lt_is_Some_2 wanted n Hx) as [r ->]. simpl. by rewrite length_app, Nat.add_1_r.
Qed.

Lemma edit_report (wanted : list T) doc doc' report :
  edit wanted doc = Ok (doc', report) -> report = tally 0 0 (edit_script wanted doc).
Proof.
  intros (p & Hp & Ha)%result_bind_ok. unfold plan_entries in Hp.
  apply result_bind_ok in Hp as (st & Hst & Hp). apply result_bind_ok in Hp as (st' & Hst' & [= <-]).
  apply plan_steps_tally with (st2 := st') in Hst; [|rewrite length_fmap|done].
  - unfold apply_plan in Ha. injection Ha as _ <-. cbn [replace insert remove]. rewrite length_place. cbn [length].
    change (mkReport (length (run_replace st')) (0 + news (slots st')) (length (run_remove st'))) with (so_far st'). rewrite Hst.
    rewrite entry_rows_entries. apply add_reports_nothing.
  - replace (length (entry_rows ec_parse 0 (lines doc))) with (length (entry_rows ec_parse 0 (lines doc)).*2) by apply length_fmap.
    eapply script_fits, chosen_script.
Qed.

End Final.

(** ** Properties *)

(** C34: [edit_entries] makes the document's entries equal the wanted ones, in
    order, and touches nothing else: every other non-empty line keeps its kind
    and text (up to trailing [CR]s, which may move into the terminator) and its
    place in the order. The report counts the lines rewritten, added and removed by
    the edit script of the entries, run by run: the shortest one, or the one that
    replaces them all when that is too long. The result is again a reachable
    document. *)
Theorem edit_entries_exact {T} `{EntryCodec T} (wanted : list T) (doc doc' : Document) (report : EditReport) :
  reachable ec_classify doc ->
  edit_entries ec_parse ec_render ec_opens_section wanted doc = Ok (doc', report) ->
  entries (lines doc') = wanted /\ others (lines doc') = others (lines doc)
  /\ report = tally 0 0 (edit_script wanted doc)
  /\ reachable ec_classify doc'.
Proof.
  intros Hr He. destruct (edit_exact wanted doc doc' report Hr He) as (H1 & H2 & H3). split_and!; try done. by eapply edit_report.
Qed.

(** Applying the entries a document already has changes nothing at all:
    same lines, same bytes, and a report of zeros. *)
Theorem edit_entries_noop {T} `{EntryCodec T} (doc : Document) :
  reachable ec_classify doc ->
  edit_entries ec_parse ec_render ec_opens_section (entries (lines doc)) doc
  = Ok (doc, mkReport 0 0 0).
Proof. apply edit_noop. Qed.

(** [edit_entries] fails only because the printer refuses some wanted
    entry, or prints one that breaks out of its line, and then with that error;
    if the printer accepts every wanted entry the edit succeeds. *)
Theorem edit_entries_error {T} `{EntryCodec T} (wanted : list T) (doc : Document) :
  match edit_entries ec_parse ec_render ec_opens_section wanted doc with
  | Err e => exists w, w ∈ wanted /\ refuses e w
  | Ok (doc', _) => forall w, w ∈ wanted ->
      w ∈ entries (lines doc) \/ exists t, ec_render w = Ok t /\ check_raw t = Ok ()
  end.
Proof.
  fold (edit wanted doc). destruct (edit wanted doc) as [[doc' rep]|e] eqn:E.
  - intros w. by eapply edit_origin.
  - exact (edit_err wanted doc e E).
Qed.
