(* ===== verification/Ip.v ===== *)
(** * Internet addresses of the Rust standard library

    [IpAddr] with the parser of [core::net] ([FromStr]), its [Display] and the
    predicates the modules call. An octet is a [Z] below 256 and a segment a
    [Z] below 65536; the parser refuses a number that does not fit. *)

From Stdlib Require Import ZArith NArith.
From S2P Require Import Prelude Str.
#[local] Open Scope Z_scope.

Inductive IpAddr :=
| V4 (a b c d : Z)
| V6 (segments : list Z).

#[export] Instance IpAddr_eq_dec : EqDecision IpAddr.
Proof. solve_decision. Defined.

Definition is_ipv4 (ip : IpAddr) : bool := match ip with V4 _ _ _ _ => true | V6 _ => false end.
Definition is_ipv6 (ip : IpAddr) : bool := negb (is_ipv4 ip).

Definition is_loopback (ip : IpAddr) : bool :=
  match ip with
  | V4 a _ _ _ => a =? 127
  | V6 s => bool_decide (s = [0; 0; 0; 0; 0; 0; 0; 1])
  end.

(** ** Parsing: [core::net::parser] *)

Definition DOT : rchar := 46%N.
Definition COLON : rchar := 58%N.

(** [char::to_digit]. *)
Definition to_digit (radix : Z) (c : rchar) : option Z :=
  let v := if is_ascii_digit c then Some (Z.of_N c - 48)
           else if is_ascii_lowercase c then Some (Z.of_N c - 87)
           else if is_ascii_uppercase c then Some (Z.of_N c - 55)
           else None in
  match v with Some d => if d <? radix then Some d else None | None => None end.

(** The digit loop of [read_number]: the value stays below [2^width] and at
    most [max_digits] digits are read. *)
Fixpoint read_digits (radix width : Z) (max_digits : nat) (count : nat) (acc : Z) (s : rstr)
    : option (Z * nat * rstr) :=
  match s with
  | [] => Some (acc, count, [])
  | c :: s' =>
      match to_digit radix c with
      | None => Some (acc, count, s)
      | Some d =>
          let acc' := acc * radix + d in
          if 2 ^ width <=? acc' then None
          else if (max_digits <? S count)%nat then None
          else read_digits radix width max_digits (S count) acc' s'
      end
  end.

Definition read_number (radix width : Z) (max_digits : nat) (allow_zero_prefix : bool) (s : rstr)
    : option (Z * rstr) :=
  let has_leading_zero := starts_with 48%N s in
  match read_digits radix width max_digits 0 0 s with
  | None => None
  | Some (v, count, rest) =>
      if (count =? 0)%nat then None
      else if negb allow_zero_prefix && has_leading_zero && (1 <? count)%nat then None
      else Some (v, rest)
  end.

Definition read_given_char (c : rchar) (s : rstr) : option rstr := strip_prefix c s.

Definition read_separator {A} (sep : rchar) (index : nat) (inner : rstr -> option (A * rstr)) (s : rstr)
    : option (A * rstr) :=
  if (0 <? index)%nat then s' ← read_given_char sep s; inner s' else inner s.

Definition read_octet (s : rstr) : option (Z * rstr) := read_number 10 8 3 false s.

Definition read_ipv4_addr (s : rstr) : option ((Z * Z * Z * Z) * rstr) :=
  '(a, s1) ← read_octet s;
  '(b, s2) ← read_separator DOT 1 read_octet s1;
  '(c, s3) ← read_separator DOT 2 read_octet s2;
  '(d, s4) ← read_separator DOT 3 read_octet s3;
  Some ((a, b, c, d), s4).

(** [read_groups]: the groups read, whether they end in an IPv4 address, and
    the rest of the text. [slots] groups are left, [i] were read. *)
Fixpoint read_groups (slots i : nat) (s : rstr) : list Z * bool * rstr :=
  match slots with
  | O => ([], false, s)
  | S slots' =>
      match (if (0 <? slots')%nat then read_separator COLON i read_ipv4_addr s else None) with
      | Some ((a, b, c, d), rest) => ([a * 256 + b; c * 256 + d], true, rest)
      | None =>
          match read_separator COLON i (read_number 16 16 4 true) s with
          | Some (g, rest) =>
              let '(gs, v4, rest') := read_groups slots' (S i) rest in (g :: gs, v4, rest')
          | None => ([], false, s)
          end
      end
  end.

Definition read_ipv6_addr (s : rstr) : option (list Z * rstr) :=
  let '(head_, head_ipv4, s1) := read_groups 8 0 s in
  if (length head_ =? 8)%nat then Some (head_, s1)
  else if head_ipv4 then None
  else
    s2 ← read_given_char COLON s1;
    s3 ← read_given_char COLON s2;
    let '(tail_, _, s4) := read_groups (8 - (length head_ + 1)) 0 s3 in
    Some (head_ ++ replicate (8 - length head_ - length tail_) 0 ++ tail_, s4).

(** [str::parse::<IpAddr>]: the whole text is an address. *)
Definition parse_ip (s : rstr) : option IpAddr :=
  match read_ipv4_addr s with
  | Some ((a, b, c, d), []) => Some (V4 a b c d)
  | Some (_, _ :: _) => None
  | None => match read_ipv6_addr s with
            | Some (g, []) => Some (V6 g)
            | _ => None
            end
  end.

(** ** Printing *)

Definition digit_char (d : Z) : rchar := Z.to_N (if d <? 10 then 48 + d else 87 + d).

Fixpoint show_digits (fuel : nat) (radix n : Z) (acc : rstr) : rstr :=
  match fuel with
  | O => acc
  | S fuel' =>
      let acc' := digit_char (n mod radix) :: acc in
      if n / radix =? 0 then acc' else show_digits fuel' radix (n / radix) acc'
  end.

(** Decimal and lower-case hexadecimal, no leading zeros; 64 digits are
    enough for every integer type. *)
Definition show_dec (n : Z) : rstr := show_digits 64 10 n [].
Definition show_nat (n : nat) : rstr := show_dec (Z.of_nat n).
Definition show_hex (n : Z) : rstr := show_digits 64 16 n [].

Definition show_ipv4 (a b c d : Z) : rstr :=
  show_dec a ++ [DOT] ++ show_dec b ++ [DOT] ++ show_dec c ++ [DOT] ++ show_dec d.

(** The first longest run of zero segments: (start, length). *)
Fixpoint longest_zeros (i : nat) (s : list Z) (cur best : nat * nat) : nat * nat :=
  match s with
  | [] => best
  | x :: s' =>
      if x =? 0 then
        let cur' := (if (cur.2 =? 0)%nat then i else cur.1, S cur.2) in
        longest_zeros (S i) s' cur' (if (best.2 <? cur'.2)%nat then cur' else best)
      else longest_zeros (S i) s' (0, 0)%nat best
  end.

Definition show_segments (s : list Z) : rstr := join [COLON] (show_hex <$> s).

Definition show_ip (ip : IpAddr) : rstr :=
  match ip with
  | V4 a b c d => show_ipv4 a b c d
  | V6 [0; 0; 0; 0; 0; 65535; ab; cd] =>
      lit "::ffff:" ++ show_ipv4 (ab / 256) (ab mod 256) (cd / 256) (cd mod 256)
  | V6 s =>
      let '(start, len) := longest_zeros 0 s (0, 0)%nat (0, 0)%nat in
      if (1 <? len)%nat
      then show_segments (take start s) ++ lit "::" ++ show_segments (drop (start + len) s)
      else show_segments s
  end.

(** ** Round trip of IPv4 addresses *)

Definition octet (x : Z) : Prop := 0 <= x < 256.

Definition no_digit_head (s : rstr) : Prop :=
  match s with [] => True | c :: _ => is_ascii_digit c = false end.

Lemma read_digits_app fuelrest radix width m count acc s v n :
  read_digits radix width m count acc s = Some (v, n, []) ->
  match fuelrest with [] => True | c :: _ => to_digit radix c = None end ->
  read_digits radix width m count acc (s ++ fuelrest) = Some (v, n, fuelrest).
Proof.
  revert count acc. induction s as [|c s IH]; intros count acc; simpl.
  - intros [= <- <-]. destruct fuelrest as [|c rest]; simpl; [done|]. by intros ->.
  - destruct (to_digit radix c); [|done].
    destruct (_ <=? _); [done|]. destruct (_ <? _)%nat; [done|]. apply IH.
Qed.

Lemma to_digit_10 c : is_ascii_digit c = false -> to_digit 10 c = None.
Proof.
  intros Hd. unfold to_digit. rewrite Hd.
  destruct (is_ascii_lowercase c) eqn:E1; [|destruct (is_ascii_uppercase c) eqn:E2]; [..|reflexivity];
    unfold is_ascii_lowercase, is_ascii_uppercase in *; bool_to_prop;
    match goal with |- (if ?b then _ else _) = _ => destruct b eqn:E end; bool_to_prop; lia || done.
Qed.

Lemma read_number_app rest radix width m z s v :
  s <> [] -> read_number radix width m z s = Some (v, []) ->
  match rest with [] => True | c :: _ => to_digit radix c = None end ->
  read_number radix width m z (s ++ rest) = Some (v, rest).
Proof.
  intros Hne. unfold read_number. destruct (read_digits _ _ _ _ _ s) as [[[v' n] r]|] eqn:E; [|done].
  intros H Hr. assert (r = [] /\ v' = v) as [-> ->].
  { destruct (n =? 0)%nat; [done|]. destruct (_ && _ && _); by simplify_eq. }
  rewrite (read_digits_app _ _ _ _ _ _ _ _ _ E Hr).
  assert (starts_with 48%N (s ++ rest) = starts_with 48%N s) as -> by (by destruct s).
  destruct (n =? 0)%nat; [done|]. by destruct (_ && _ && _).
Qed.

Definition octets : list Z := Z.of_nat <$> seq 0 256.

Lemma octet_in x : octet x -> x ∈ octets.
Proof.
  intros [? ?]. apply list_elem_of_fmap. exists (Z.to_nat x). split; [lia|].
  apply elem_of_seq. lia.
Qed.

Lemma show_octets :
  Forall (fun x => read_octet (show_dec x) = Some (x, []) /\ show_dec x <> []) octets.
Proof.
  apply Forall_forall. apply (proj1 (Forall_forall (fun x => _) octets)).
  apply (bool_decide_unpack _). vm_compute. exact I.
Qed.

Lemma read_octet_show x rest :
  octet x -> no_digit_head rest -> read_octet (show_dec x ++ rest) = Some (x, rest).
Proof.
  intros Hx Hr. pose proof (proj1 (Forall_forall _ _) show_octets x (octet_in x Hx)) as [Hs Hne].
  apply read_number_app; [done|exact Hs|]. destruct rest; [done|]. by apply to_digit_10.
Qed.

(** Printing an IPv4 address and parsing it back gives the address. *)
Lemma parse_show_ipv4 a b c d :
  octet a -> octet b -> octet c -> octet d -> parse_ip (show_ip (V4 a b c d)) = Some (V4 a b c d).
Proof.
  intros Ha Hb Hc Hd. unfold parse_ip, show_ip, show_ipv4, read_ipv4_addr.
  rewrite read_octet_show by done. cbn [mbind option_bind app].
  unfold read_separator; cbn [Nat.ltb Nat.leb]. unfold read_given_char; cbn [strip_prefix].
  rewrite N.eqb_refl. cbn [mbind option_bind].
  rewrite read_octet_show by done. cbn [mbind option_bind strip_prefix app]. rewrite N.eqb_refl. cbn [mbind option_bind].
  rewrite read_octet_show by done. cbn [mbind option_bind strip_prefix app]. rewrite N.eqb_refl. cbn [mbind option_bind].
  rewrite <- (app_nil_r (show_dec d)). by rewrite read_octet_show.
Qed.

Lemma octet_digits x : octet x -> forallb is_ascii_digit (show_dec x) = true /\ show_dec x <> [].
Proof.
  intros Hx. assert (Forall (fun x => forallb is_ascii_digit (show_dec x) = true /\ show_dec x <> []) octets) as H.
  { apply (bool_decide_unpack _). vm_compute. exact I. }
  exact (proj1 (Forall_forall _ _) H x (octet_in x Hx)).
Qed.

(** The characters of a printed IPv4 address, the first one a digit. *)
Lemma show_ipv4_chars a b c d :
  octet a -> octet b -> octet c -> octet d ->
  (forall x, x ∈ show_ipv4 a b c d -> is_ascii_digit x = true \/ x = DOT)
  /\ exists x rest, show_ipv4 a b c d = x :: rest /\ is_ascii_digit x = true.
Proof.
  intros Ha Hb Hc Hd.
  assert (forall o, octet o -> forall x, x ∈ show_dec o -> is_ascii_digit x = true) as Ho.
  { intros o Hoct x Hx. destruct (octet_digits o Hoct) as [H _].
    rewrite forallb_forall in H. apply H. by apply list_elem_of_In. }
  unfold show_ipv4. split.
  - intros x. rewrite !elem_of_app, !list_elem_of_singleton. naive_solver.
  - destruct (octet_digits a Ha) as [H Hne]. destruct (show_dec a) as [|x r]; [done|].
    simpl in H. apply andb_true_iff in H as [H _]. eauto.
Qed.

Example parse_ip_loopback6 : parse_ip (lit "::1") = Some (V6 [0; 0; 0; 0; 0; 0; 0; 1]).
Proof. reflexivity. Qed.
Example parse_ip_zone : parse_ip (lit "fe80::1%eth0") = None.
Proof. reflexivity. Qed.
Example show_ip_mapped : show_ip (V6 [0; 0; 0; 0; 0; 65535; 49320; 513]) = lit "::ffff:192.168.2.1".
Proof. reflexivity. Qed.
Example show_ip_run : show_ip (V6 [8193; 3512; 0; 0; 1; 0; 0; 1]) = lit "2001:db8::1:0:0:1".
Proof. reflexivity. Qed.
Example parse_ip_mixed : parse_ip (lit "1:2::3:4.5.6.7") = Some (V6 [1; 2; 0; 0; 0; 3; 1029; 1543]).
Proof. reflexivity. Qed.
Example parse_ip_leading_zero : parse_ip (lit "127.0.0.01") = None.
Proof. reflexivity. Qed.
