(* ===== verification/Diff.v ===== *)
(** * Unified diffs

    [crates/detent-ops/src/diff.rs]: the line diff of a plan preview, over the
    alignment of [Align] and with a whole-file replacement beyond its bound. Lines
    keep their terminators. [patch] is the reference that reads the hunks back: a
    strict patch that checks every line and every number. *)

From S2P Require Import Prelude Align Str Num Ip.

Definition DEFAULT_CONTEXT : nat := 3.

(** ** Data *)

Module Line.
Inductive DiffLine := Context (s : rstr) | Delete (s : rstr) | Insert (s : rstr).
End Line.
Abbreviation DiffLine := Line.DiffLine.

#[export] Instance DiffLine_eq_dec : EqDecision DiffLine. Proof. solve_decision. Defined.

Definition text (l : DiffLine) : rstr := match l with Line.Context s | Line.Delete s | Line.Insert s => s end.

Definition marker (l : DiffLine) : rchar :=
  match l with Line.Context _ => 32%N | Line.Delete _ => 45%N | Line.Insert _ => 43%N end.

Record Hunk := mkHunk {
  old_start : nat;
  old_lines : nat;
  new_start : nat;
  new_lines : nat;
  hlines : list DiffLine;
}.

Definition show (n : nat) : rstr := show_dec (Z.of_nat n).

Definition header (h : Hunk) : rstr :=
  lit "@@ -" ++ show (old_start h) ++ lit "," ++ show (old_lines h) ++ lit " +" ++ show (new_start h)
    ++ lit "," ++ show (new_lines h) ++ lit " @@".

(** ** From an edit script to hunks *)

Definition advance (p : nat * nat) (s : Step) : nat * nat :=
  match s with Equal _ _ => (S p.1, S p.2) | Delete _ => (S p.1, p.2) | Insert _ => (p.1, S p.2) end.

Fixpoint positions_from (p : nat * nat) (steps : list Step) : list (nat * nat) :=
  p :: match steps with [] => [] | s :: steps => positions_from (advance p s) steps end.

Definition positions (steps : list Step) : list (nat * nat) := positions_from (0, 0) steps.

(** Cover the changed step [index] of [len]. *)
Definition widen (len context index : nat) (out : list (nat * nat)) : list (nat * nat) :=
  let start := index - context in
  let end_ := (index + context + 1) `min` len in
  match last out with
  | Some (s, e) => if start <=? e then take (length out - 1) out ++ [(s, e `max` end_)] else out ++ [(start, end_)]
  | None => out ++ [(start, end_)]
  end.

Fixpoint groups_loop (len context index : nat) (steps : list Step) (out : list (nat * nat)) : list (nat * nat) :=
  match steps with
  | [] => out
  | s :: steps => groups_loop len context (S index) steps (if is_edit s then widen len context index out else out)
  end.

Definition groups (steps : list Step) (context : nat) : list (nat * nat) := groups_loop (length steps) context 0 steps [].

Definition start_of (begin count : nat) : nat := if count =? 0 then begin else begin + 1.

Definition text_at (lines : list rstr) (index : nat) : rstr := default [] (lines !! index).

Section Hunks.
Variables olds news : list rstr.

Definition line_of (s : Step) : DiffLine :=
  match s with
  | Equal index _ => Line.Context (text_at olds index)
  | Delete index => Line.Delete (text_at olds index)
  | Insert index => Line.Insert (text_at news index)
  end.

Definition hunk_of (steps : list Step) (range : nat * nat) : Hunk :=
  let '(start, end_) := range in
  let '(old_begin, new_begin) := default (0, 0) (positions steps !! start) in
  let '(old_end, new_end) := default (0, 0) (positions steps !! end_) in
  let old_count := old_end - old_begin in
  let new_count := new_end - new_begin in
  mkHunk (start_of old_begin old_count) old_count (start_of new_begin new_count) new_count
    (line_of <$> take (end_ - start) (drop start steps)).

End Hunks.

Definition diff (old new : rstr) (context : nat) : list Hunk :=
  let olds := split_inclusive old in
  let news := split_inclusive new in
  if bool_decide (olds = news) then []
  else
    let steps := default (replace_all (length olds) (length news)) (align olds news) in
    hunk_of olds news steps <$> groups steps context.

Definition render_line (l : DiffLine) : rstr :=
  marker l :: text l ++ (if ends_with LF (text l) then [] else LF :: lit "\ No newline at end of file" ++ [LF]).

Definition render_hunk (h : Hunk) : rstr := header h ++ [LF] ++ concat (render_line <$> hlines h).

Definition render_unified (old_label new_label : rstr) (hunks : list Hunk) : rstr :=
  if is_empty hunks then []
  else lit "--- " ++ old_label ++ [LF] ++ lit "+++ " ++ new_label ++ [LF] ++ concat (render_hunk <$> hunks).

(** ** A strict patch

    [cursor] lines of the original are consumed and [out] is written. A hunk is
    applied only where it says it starts, its context and deletions must be the
    lines found there, and it must cover as many lines of both sides as it
    says. *)

Section Patch.
Variable olds : list rstr.

Fixpoint patch_lines (cursor : nat) (out : list rstr) (ls : list DiffLine) : option (nat * list rstr) :=
  match ls with
  | [] => Some (cursor, out)
  | Line.Context s :: ls => if bool_decide (olds !! cursor = Some s) then patch_lines (S cursor) (out ++ [s]) ls else None
  | Line.Delete s :: ls => if bool_decide (olds !! cursor = Some s) then patch_lines (S cursor) out ls else None
  | Line.Insert s :: ls => patch_lines cursor (out ++ [s]) ls
  end.

Definition begin_of (start count : nat) : option nat :=
  if count =? 0 then Some start else if start =? 0 then None else Some (start - 1).

Definition patch_hunk (at_ : nat * list rstr) (h : Hunk) : option (nat * list rstr) :=
  let '(cursor, out) := at_ in
  old_begin ← begin_of (old_start h) (old_lines h);
  new_begin ← begin_of (new_start h) (new_lines h);
  let out := out ++ take (old_begin - cursor) (drop cursor olds) in
  if (cursor <=? old_begin) && (old_begin <=? length olds) && (length out =? new_begin) then
    '(cursor, out) ← patch_lines old_begin out (hlines h);
    if (cursor =? old_begin + old_lines h) && (length out =? new_begin + new_lines h) then Some (cursor, out) else None
  else None.

Fixpoint patch_from (at_ : nat * list rstr) (hs : list Hunk) : option (list rstr) :=
  match hs with
  | [] => Some (at_.2 ++ drop at_.1 olds)
  | h :: hs => at_ ← patch_hunk at_ h; patch_from at_ hs
  end.

End Patch.

Definition patch (old : rstr) (hs : list Hunk) : option rstr :=
  (fun ls => concat ls) <$> patch_from (split_inclusive old) (0, []) hs.

Example patch_diff_1 : let old := lit "a
b
c
d
e
f
g
h
i
" in let new := lit "a
b
c
D
e
f
g
h
i" in patch old (diff old new 3) = Some new /\ length (diff old new 1) = 2.
Proof. by vm_compute. Qed.

(** ** Walking a script from left to right *)

Section Walk.
Variables olds news : list rstr.

(** [walk p s q]: from position [p] the steps [s] lead to [q], each naming the
    lines at the position it starts from. *)
Inductive walk : nat * nat -> list Step -> nat * nat -> Prop :=
| walk_nil p : walk p [] p
| walk_equal i j s q a : olds !! i = Some a -> news !! j = Some a -> walk (S i, S j) s q -> walk (i, j) (Equal i j :: s) q
| walk_delete i j s q : i < length olds -> walk (S i, j) s q -> walk (i, j) (Delete i :: s) q
| walk_insert i j s q : j < length news -> walk (i, S j) s q -> walk (i, j) (Insert j :: s) q.
#[local] Hint Constructors walk : core.

Lemma walk_app p s q t r : walk p s q -> walk q t r -> walk p (s ++ t) r.
Proof. induction 1; simpl; eauto. Qed.

Lemma script_walk i j s : script olds news i j s -> walk (0, 0) s (i, j).
Proof. induction 1; [done|eapply walk_app; eauto..]. Qed.

Lemma walk_inv p s t q : walk p (s ++ t) q -> exists m, walk p s m /\ walk m t q.
Proof.
  revert p. induction s as [|x s IH]; intros p H; [eauto|].
  inversion H as [|i j ? ? a Ha Hb Hw|i j ? ? Hi Hw|i j ? ? Hj Hw]; subst; destruct (IH _ Hw) as (m & ? & ?); eauto.
Qed.

Lemma walk_position p s m : walk p s m -> forall t, positions_from p (s ++ t) !! length s = Some m.
Proof. induction 1; intros t; simpl; [by destruct t|by apply IHwalk..]. Qed.

Lemma walk_positions p s q n : walk p s q -> n <= length s ->
  exists m, walk p (take n s) m /\ walk m (drop n s) q /\ positions_from p s !! n = Some m.
Proof.
  intros H Hn. pose proof H as H'. rewrite <- (take_drop n s) in H'. apply walk_inv in H' as (m & H1 & H2).
  exists m. split_and!; [done..|]. pose proof (walk_position _ _ _ H1 (drop n s)) as E.
  by rewrite take_drop, length_take_le in E.
Qed.

Lemma walk_mono p s q : walk p s q -> p.1 <= q.1 /\ p.2 <= q.2.
Proof. induction 1; simpl in *; lia. Qed.

Lemma walk_bound p s q : walk p s q -> p.1 <= length olds -> p.2 <= length news -> q.1 <= length olds /\ q.2 <= length news.
Proof.
  induction 1 as [p|i j s q a Ha Hb Hw IH| |]; simpl in *; intros; try lia; [|apply IHwalk; lia..].
  apply lookup_lt_Some in Ha, Hb. apply IH; lia.
Qed.

(** Unchanged steps copy lines. *)
Lemma walk_equals p s q : walk p s q -> Forall (fun x => is_edit x = false) s ->
  take (q.1 - p.1) (drop p.1 olds) = take (q.2 - p.2) (drop p.2 news) /\ q.1 - p.1 = q.2 - p.2.
Proof.
  induction 1 as [p|i j s q a Ha Hb Hw IH|i j s q Hi Hw|i j s q Hj Hw]; intros Hf.
  - by rewrite !Nat.sub_diag.
  - apply Forall_cons in Hf as [_ Hf]. destruct (IH Hf) as [E1 E2]. pose proof (walk_mono _ _ _ Hw). simpl in *.
    rewrite (drop_S _ _ _ Ha), (drop_S _ _ _ Hb).
    replace (q.1 - i) with (S (q.1 - S i)) by lia. replace (q.2 - j) with (S (q.2 - S j)) by lia. simpl.
    rewrite E1. split; [done|lia].
  - by apply Forall_cons in Hf as [[=] _].
  - by apply Forall_cons in Hf as [[=] _].
Qed.

(** The lines of a stretch of steps patch the original along it. *)
Lemma patch_walk p s q : walk p s q ->
  patch_lines olds p.1 (take p.2 news) (line_of olds news <$> s) = Some (q.1, take q.2 news).
Proof.
  induction 1 as [p|i j s q a Ha Hb Hw IH|i j s q Hi Hw IH|i j s q Hj Hw IH]; csimpl; unfold text_at; [done|..].
  - rewrite Ha. simpl. rewrite bool_decide_eq_true_2 by done. by rewrite <- (take_S_r _ _ _ Hb).
  - destruct (lookup_lt_is_Some_2 olds i Hi) as [a Ha]. rewrite Ha. simpl. by rewrite bool_decide_eq_true_2.
  - destruct (lookup_lt_is_Some_2 news j Hj) as [b Hb]. rewrite Hb. simpl. by rewrite <- (take_S_r _ _ _ Hb).
Qed.

Lemma begin_of_start b c : begin_of (start_of b c) c = Some b.
Proof. unfold begin_of, start_of. destruct (c =? 0) eqn:E; [done|]. destruct (b + 1 =? 0) eqn:F; bool_to_prop; [lia|]. f_equal. lia. Qed.

End Walk.

(** ** The ranges of the hunks *)

(** [ranges n a gs]: non-empty disjoint ranges in order, from [a] on and within
    [n]. *)
Inductive ranges (n : nat) : nat -> list (nat * nat) -> Prop :=
| ranges_nil a : ranges n a []
| ranges_cons a s e gs : a <= s -> s < e -> e <= n -> ranges n e gs -> ranges n a ((s, e) :: gs).

Definition covered (gs : list (nat * nat)) (i : nat) : Prop := exists s e, (s, e) ∈ gs /\ s <= i < e.

Definition end_of (a : nat) (gs : list (nat * nat)) : nat := match last gs with Some (_, e) => e | None => a end.

Lemma end_of_cons a s e gs : end_of a ((s, e) :: gs) = end_of e gs.
Proof. unfold end_of. rewrite last_cons. by destruct (last gs) as [[]|]. Qed.

Lemma ranges_snoc n a gs s e :
  ranges n a (gs ++ [(s, e)]) <-> ranges n a gs /\ end_of a gs <= s /\ s < e /\ e <= n.
Proof.
  revert a. induction gs as [|[s' e'] gs IH]; intros a.
  - simpl. split; [inversion 1; subst; repeat split; try done; constructor|]. intros (_ & ? & ? & ?). by repeat constructor.
  - rewrite end_of_cons. simpl. split.
    + inversion 1 as [|? ? ? ? H1 H2 H3 H4]; subst. apply IH in H4 as (H4 & ? & ? & ?). repeat split; try done. by constructor.
    + intros (H & ? & ? & ?). inversion H; subst. constructor; [done..|]. by apply IH.
Qed.

(** What [groups_loop] has built before step [k]. *)
Definition grouped (len k : nat) (edit : nat -> Prop) (out : list (nat * nat)) : Prop :=
  ranges len 0 out /\ Forall (fun r => r.1 <= k) out /\ forall i, i < k -> edit i -> covered out i.

Lemma last_snoc_inv {A} (l : list A) x : last l = Some x -> l = take (length l - 1) l ++ [x].
Proof.
  intros H. destruct l as [|y l _] using rev_ind; [done|]. rewrite last_snoc in H. simplify_eq.
  rewrite length_app, Nat.add_sub, take_app_length. done.
Qed.

Lemma widen_grouped len context k edit out : k < len -> grouped len k edit out -> grouped len (S k) edit (widen len context k out).
Proof.
  intros Hk (Hr & Hs & Hc). unfold widen.
  assert (Hpush : end_of 0 out <= k - context -> grouped len (S k) edit (out ++ [(k - context, (k + context + 1) `min` len)])).
  { intros He. split_and!.
    - apply ranges_snoc. split_and!; [done|lia..].
    - apply Forall_app. split; [|repeat constructor; simpl; lia]. eapply Forall_impl; [done|]. simpl. intros. lia.
    - intros i Hi Hedit. destruct (decide (i = k)) as [->|].
      + eexists _, _. split; [apply elem_of_app; right; by constructor|lia].
      + destruct (Hc i) as (s & e & ? & ?); [lia|done|]. exists s, e. split; [|done]. apply elem_of_app. by left. }
  destruct (last out) as [[s e]|] eqn:E; [|apply Hpush; unfold end_of; rewrite E; lia].
  destruct (k - context <=? e) eqn:F; bool_to_prop; [|apply Hpush; unfold end_of; rewrite E; lia].
  apply last_snoc_inv in E. set (l := take _ _) in *. clearbody l. subst out.
  apply ranges_snoc in Hr as (Hr & ? & ? & ?). apply Forall_app in Hs as [Hl Hs]. apply Forall_inv in Hs. simpl in Hs. split_and!.
  - apply ranges_snoc. split_and!; [done|lia..].
  - apply Forall_app. split; [|repeat constructor; simpl; lia]. eapply Forall_impl; [done|]. simpl. intros. lia.
  - intros i Hi Hedit. destruct (decide (i = k)) as [->|].
    + eexists _, _. split; [apply elem_of_app; right; by constructor|lia].
    + destruct (Hc i) as (s' & e' & [H'|[= -> ->]%list_elem_of_singleton]%elem_of_app & ?); [lia|done|..].
      * exists s', e'. split; [|done]. apply elem_of_app. by left.
      * exists s, (e `max` ((k + context + 1) `min` len)). split; [apply elem_of_app; right; by constructor|lia].
Qed.

Definition changed (steps : list Step) (i : nat) : Prop := exists s, steps !! i = Some s /\ is_edit s = true.

Lemma groups_loop_grouped context steps pre out :
  let all := pre ++ steps in
  grouped (length all) (length pre) (changed all) out ->
  grouped (length all) (length all) (changed all) (groups_loop (length all) context (length pre) steps out).
Proof.
  revert pre out. induction steps as [|x steps IH]; intros pre out all H; simpl.
  - subst all. by rewrite app_nil_r in *.
  - subst all. specialize (IH (pre ++ [x])). rewrite <- app_assoc, length_app in IH. simpl in IH.
    rewrite Nat.add_1_r in IH. apply IH. destruct (is_edit x) eqn:E.
    + apply widen_grouped; [|done]. rewrite length_app. simpl. lia.
    + destruct H as (H1 & H2 & H3). split_and!; [done|eapply Forall_impl; [done|]; simpl; intros; lia|].
      intros i Hi (y & Hy & He). apply H3; [|by exists y]. destruct (decide (i = length pre)) as [->|]; [|lia].
      rewrite list_lookup_middle in Hy by done. congruence.
Qed.

Lemma groups_spec steps context :
  ranges (length steps) 0 (groups steps context) /\ forall i, changed steps i -> covered (groups steps context) i.
Proof.
  destruct (groups_loop_grouped context steps [] []) as (H1 & _ & H3).
  - split_and!; [constructor|constructor|intros; simpl in *; lia].
  - split; [done|]. intros i (s & Hs & He). apply H3; [by eapply lookup_lt_Some|by exists s].
Qed.

(** ** A diff patches *)

Section Patches.
Variables olds news : list rstr.
Variable steps : list Step.
Hypothesis whole : walk olds news (0, 0) steps (length olds, length news).

Lemma position n : n <= length steps -> exists p,
  positions steps !! n = Some p /\ p.1 <= length olds /\ p.2 <= length news /\ walk olds news p (drop n steps) (length olds, length news).
Proof.
  intros Hn. destruct (walk_positions _ _ _ _ _ n whole Hn) as (p & H1 & H2 & H3). exists p.
  destruct (walk_mono _ _ _ _ _ H2). by split_and!.
Qed.

Lemma between a b p q : a <= b -> b <= length steps -> positions steps !! a = Some p -> positions steps !! b = Some q ->
  walk olds news p (take (b - a) (drop a steps)) q.
Proof.
  intros Hab Hb Hp Hq. set (A := take a steps). set (B := take (b - a) (drop a steps)). set (C := drop b steps).
  assert (E : steps = A ++ B ++ C).
  { subst A B C. replace (drop b steps) with (drop (b - a) (drop a steps)) by (rewrite drop_drop; f_equal; lia).
    by rewrite !take_drop. }
  assert (HA : length A = a) by (apply length_take_le; lia).
  assert (HB : length (A ++ B) = b) by (rewrite length_app, HA; subst B; rewrite length_take_le; rewrite ?length_drop; lia).
  pose proof whole as H. rewrite E in H. apply walk_inv in H as (m1 & H1 & H). apply walk_inv in H as (m2 & H2 & H3).
  pose proof (walk_position _ _ _ _ _ H1 (B ++ C)) as E1. rewrite HA, <- E in E1.
  pose proof (walk_position _ _ _ _ _ (walk_app _ _ _ _ _ _ _ H1 H2) C) as E2. rewrite HB, <- app_assoc, <- E in E2.
  unfold positions in *. by simplify_eq.
Qed.

Lemma ranges_start n a gs s e : ranges n a gs -> (s, e) ∈ gs -> a <= s.
Proof.
  induction 1 as [|a s' e' gs H1 H2 H3 H IH]; intros Hin; [by apply elem_of_nil in Hin|].
  apply elem_of_cons in Hin as [[= -> ->]|Hin]; [done|]. specialize (IH Hin). lia.
Qed.

Lemma unchanged a b : (forall i, a <= i < b -> ~ changed steps i) -> Forall (fun x => is_edit x = false) (take (b - a) (drop a steps)).
Proof.
  intros H. apply Forall_lookup_2. intros i x Hx. destruct (is_edit x) eqn:E; [|done]. exfalso.
  pose proof (lookup_lt_Some _ _ _ Hx) as Hi. rewrite length_take in Hi. rewrite lookup_take in Hx; case_decide; [|done].
  rewrite lookup_drop in Hx. apply (H (a + i)); [lia|]. by exists x.
Qed.

Lemma take_more {A} (l : list A) i j : i <= j -> take i l ++ take (j - i) (drop i l) = take j l.
Proof. intros H. replace j with (i + (j - i)) at 2 by lia. by rewrite take_take_drop. Qed.

(** One hunk, from the position of the step [a] to that of the step [e]. *)
Lemma patch_hunk_of a s e p : a <= s -> s < e -> e <= length steps -> positions steps !! a = Some p ->
  (forall i, a <= i < s -> ~ changed steps i) ->
  exists r, positions steps !! e = Some r
    /\ patch_hunk olds (p.1, take p.2 news) (hunk_of olds news steps (s, e)) = Some (r.1, take r.2 news).
Proof.
  intros Has Hse He Hp Hun.
  destruct (position s) as (q & Hq & Hq1 & Hq2 & _); [lia|]. destruct (position e) as (r & Hr & Hr1 & Hr2 & _); [lia|].
  exists r. split; [done|].
  pose proof (between a s p q Has ltac:(lia) Hp Hq) as Hpq. pose proof (between s e q r ltac:(lia) He Hq Hr) as Hqr.
  destruct (walk_equals _ _ _ _ _ Hpq (unchanged a s Hun)) as [Eq Elen].
  destruct (walk_mono _ _ _ _ _ Hpq) as [M1 M2]. destruct (walk_mono _ _ _ _ _ Hqr) as [M3 M4].
  unfold hunk_of, patch_hunk. rewrite Hq, Hr. destruct q as [q1 q2], r as [r1 r2]. simpl in *.
  rewrite !begin_of_start. simpl. rewrite Eq, take_more by done.
  rewrite (proj2 (Nat.leb_le _ _)), (proj2 (Nat.leb_le q1 _)) by done. simpl.
  rewrite length_take_le, Nat.eqb_refl by done.
  pose proof (patch_walk _ _ _ _ _ Hqr) as Hpatch. simpl in Hpatch. rewrite Hpatch. simpl.
  rewrite length_take_le by done. rewrite !(proj2 (Nat.eqb_eq _ _)) by lia. done.
Qed.

Lemma patch_groups gs a p : ranges (length steps) a gs -> a <= length steps -> positions steps !! a = Some p ->
  (forall i, a <= i -> changed steps i -> covered gs i) ->
  patch_from olds (p.1, take p.2 news) (hunk_of olds news steps <$> gs) = Some news.
Proof.
  intros H. revert p. induction H as [a|a s e gs H1 H2 H3 H IH]; intros p Ha Hp Hc; rewrite ?fmap_nil, ?fmap_cons; cbn [patch_from].
  - destruct (position a Ha) as (p' & Hp' & B1 & B2 & Hw). simplify_eq. f_equal.
    assert (Hun : Forall (fun x => is_edit x = false) (drop a steps)).
    { rewrite <- (take_ge (drop a steps) (length steps - a)) by (rewrite length_drop; lia). apply unchanged.
      intros i Hi Hch. by destruct (Hc i) as (? & ? & ?%elem_of_nil & _); [lia|..]. }
    destruct (walk_equals _ _ _ _ _ Hw Hun) as [E _]. simpl in E.
    rewrite !take_ge in E by (rewrite length_drop; lia). simpl. by rewrite E, take_drop.
  - destruct (patch_hunk_of a s e p) as (r & Hr & ->); [done..| |].
    + intros i Hi Hch. destruct (Hc i) as (s' & e' & Hin & ?); [lia|done|].
      assert (s <= s'); [|lia]. eapply ranges_start; [|exact Hin]. by constructor.
    + apply IH; [done|done|]. intros i Hi Hch.
      destruct (Hc i) as (s' & e' & [[= -> ->]|Hin]%elem_of_cons & ?); [lia|done|lia|]. by exists s', e'.
Qed.

End Patches.

Lemma split_inclusive_inj s t : split_inclusive s = split_inclusive t -> s = t.
Proof. intros H. by rewrite <- (concat_split_inclusive s), H, concat_split_inclusive. Qed.

(** The steps [diff] works on are a script. *)
Lemma diff_steps (olds news : list rstr) :
  walk olds news (0, 0) (default (replace_all (length olds) (length news)) (align olds news)) (length olds, length news).
Proof.
  apply script_walk. destruct (align olds news) eqn:E; [by apply align_script|apply replace_all_script].
Qed.

(** ** Properties *)

(** C35: A diff is exact. Applying its hunks to the original with a strict patch,
    which checks every context and deleted line, every start line and every
    count, gives the candidate, whatever the amount of context; and there are no
    hunks just when the two texts are the same. *)
Theorem diff_patches (old new : rstr) (context : nat) :
  patch old (diff old new context) = Some new /\ (diff old new context = [] <-> old = new).
Proof.
  assert (Hp : patch old (diff old new context) = Some new).
  { unfold patch, diff. case_bool_decide as E.
    - apply split_inclusive_inj in E as ->. simpl. by rewrite drop_0, concat_split_inclusive.
    - set (steps := default _ _). pose proof (diff_steps (split_inclusive old) (split_inclusive new)) as Hw. fold steps in Hw.
      destruct (groups_spec steps context) as [H1 H2].
      pose proof (patch_groups _ _ _ Hw (groups steps context) 0 (0, 0) H1) as H. simpl in H. rewrite take_0 in H.
      rewrite H; [simpl; by rewrite concat_split_inclusive|lia|by destruct steps|by intros i _; apply H2]. }
  split; [done|]. split; [|intros ->; unfold diff; by rewrite bool_decide_eq_true_2].
  intros E. rewrite E in Hp. unfold patch in Hp. simpl in Hp. rewrite drop_0, concat_split_inclusive in Hp. congruence.
Qed.
