(* ===== verification/Diag.v ===== *)
(** * Diagnostics and host profiles

    [crates/detent-core/src/diag.rs] and the host profile of
    [crates/detent-core/src/descriptor.rs]. A diagnostic carries a message id
    and arguments, never rendered text. *)

From Stdlib Require Import ZArith.
From stdpp Require Import gmap.
From S2P Require Import Prelude Str Doc.

(** ** Diagnostics *)

Inductive Severity := Error | Warning | Recommendation.

#[export] Instance Severity_eq_dec : EqDecision Severity.
Proof. solve_decision. Defined.

(** The id of a Fluent message and the path of a model field. *)
Definition MessageId := rstr.
Definition FieldPath := rstr.

Record Diagnostic := mkDiagnostic {
  severity : Severity;
  id : MessageId;
  field : option FieldPath;
  dspan : option Span;
  args : gmap rstr rstr;
}.

Definition new_diagnostic (s : Severity) (i : MessageId) : Diagnostic := mkDiagnostic s i None None ∅.
Definition with_field (f : FieldPath) (d : Diagnostic) : Diagnostic :=
  mkDiagnostic (severity d) (id d) (Some f) (dspan d) (args d).
Definition with_span (s : Span) (d : Diagnostic) : Diagnostic :=
  mkDiagnostic (severity d) (id d) (field d) (Some s) (args d).
Definition with_arg (k v : rstr) (d : Diagnostic) : Diagnostic :=
  mkDiagnostic (severity d) (id d) (field d) (dspan d) (<[k := v]> (args d)).

Definition Diagnostics := list Diagnostic.

Definition has_errors (ds : Diagnostics) : bool :=
  existsb (fun d => bool_decide (severity d = Error)) ds.

Lemma has_errors_app a b : has_errors (a ++ b) = has_errors a || has_errors b.
Proof. apply existsb_app. Qed.

Lemma has_errors_false ds : has_errors ds = false <-> Forall (fun d => severity d <> Error) ds.
Proof.
  induction ds as [|d ds IH]; simpl; [split; auto using Forall_nil_2|].
  rewrite orb_false_iff, IH, Forall_cons, bool_decide_eq_false. done.
Qed.

Lemma has_errors_concat dss : has_errors (concat dss) = existsb has_errors dss.
Proof. induction dss as [|ds dss IH]; simpl; [done|]. by rewrite has_errors_app, IH. Qed.

(** A validation that runs over the items of a list, with their index. *)
Lemma has_errors_imap {A} (f : nat -> A -> Diagnostics) (P : A -> Prop) (l : list A) :
  (forall i x, has_errors (f i x) = false <-> P x) ->
  has_errors (concat (imap f l)) = false <-> Forall P l.
Proof.
  revert f. induction l as [|x l IH]; intros f Hf; [split; auto using Forall_nil_2|].
  rewrite imap_cons. simpl. rewrite has_errors_app, orb_false_iff, Hf, Forall_cons.
  by rewrite (IH (f ∘ S)) by (intros i y; apply Hf).
Qed.

(** ** Host profiles *)

Inductive Os := Linux | MacOs | OtherOs.

Inductive InitSystem := Systemd | OpenRc | Launchd | NoInit.

Record HostProfile := mkProfile {
  os : Os;
  init : InitSystem;
  hostname : rstr;
  service_versions : gmap rstr rstr;
  ram_mib : Z;
}.

#[export] Instance Os_eq_dec : EqDecision Os.
Proof. solve_decision. Defined.

Definition service_version (p : HostProfile) (service : rstr) : option rstr :=
  service_versions p !! service.
