(* ===== verification/Version.v ===== *)
(** * Version comparison and [since]-gated options

    [crates/detent-core/src/version.rs]: dotted numeric versions, the finding for
    an option the installed service is too old for, and the walk over a module's
    JSON schema and model that collects those options. *)

From Stdlib Require Import ZArith.
From stdpp Require Import gmap.
From S2P Require Import Prelude Str Num Ip Doc Diag.
#[local] Open Scope Z_scope.

Definition VERSION_TOO_OLD : MessageId := lit "core-version-too-old".
Definition VERSION_UNKNOWN : MessageId := lit "core-version-unknown".

(** ** Versions *)

Definition components (text : rstr) : option (list Z) :=
  let text := trim_start text in
  let run := trim_end_matches (N.eqb DOT) (take_while (fun c => is_ascii_digit c || N.eqb DOT c) text) in
  mapM (parse_unsigned 64) (split (N.eqb DOT) run).

Definition component (v : list Z) (index : nat) : Z := default 0 (v !! index).

(** The loop of [compare] over [index .. left.len().max(right.len())]. *)
Fixpoint compare_loop (left right : list Z) (indices : list nat) : comparison :=
  match indices with
  | [] => Eq
  | index :: rest =>
      match component left index ?= component right index with
      | Eq => compare_loop left right rest
      | unequal => unequal
      end
  end.

Definition compare (left right : rstr) : option comparison :=
  left ← components left;
  right ← components right;
  Some (compare_loop left right (seq 0 (length left `max` length right))).

Definition is_ge (o : comparison) : bool := match o with Lt => false | _ => true end.

Definition at_least (installed required : rstr) : option bool := is_ge <$> compare installed required.

(** ** The finding for one option *)

Definition since_unknown (service option_ since : rstr) (fld : FieldPath) : Diagnostic :=
  with_arg (lit "service") service (with_arg (lit "since") since (with_arg (lit "option") option_
    (with_field fld (new_diagnostic Warning VERSION_UNKNOWN)))).

Definition since_diagnostic (profile : HostProfile) (service option_ since : rstr) (fld : FieldPath)
    : option Diagnostic :=
  match service_version profile service with
  | None => Some (since_unknown service option_ since fld)
  | Some installed =>
      match at_least installed since with
      | Some true => None
      | Some false =>
          Some (with_arg (lit "installed") installed (with_arg (lit "service") service
            (with_arg (lit "since") since (with_arg (lit "option") option_
              (with_field fld (new_diagnostic Error VERSION_TOO_OLD))))))
      | None => Some (since_unknown service option_ since fld)
      end
  end.

(** ** The walk over schema and model

    [serde_json::Value] is an interface: the accessors the walk calls.
    [as_object] lists an object's members in iteration order. *)
Class Json (V : Type) := {
  is_null : V -> bool;
  as_array : V -> option (list V);
  as_object : V -> option (list (rstr * V));
  as_string : V -> option rstr;
  get : V -> rstr -> option V;
  pointer : V -> rstr -> option V;
}.

Definition MAX_SCHEMA_DEPTH : nat := 16.
Definition SLASH : rchar := 47%N.

Definition join_path (base name : rstr) : rstr :=
  if is_empty base then name else base ++ [SLASH] ++ name.

Section Walk.
Context {V : Type} `{!Json V}.

Definition Found := list (rstr * rstr).

Definition unset (value : V) : bool :=
  is_null value || match as_array value with Some a => is_empty a | None => false end.

Definition since_of (schema : V) : option rstr :=
  hint ← pointer schema (lit "/x-detent/since"); as_string hint.

(** [found.push] unless the entry is already there. *)
Definition note (path : rstr) (schema : V) (found : Found) : Found :=
  match since_of schema with
  | Some since => if bool_decide ((path, since) ∈ found) then found else found ++ [(path, since)]
  | None => found
  end.

Definition reference (root schema : V) : option V :=
  ref ← get schema (lit "$ref");
  ref ← as_string ref;
  target ← strip_prefix 35%N ref;
  pointer root target.

Definition keyword_branches (schema : V) (keyword : rstr) : list V :=
  default [] (alternatives ← get schema keyword; as_array alternatives).

Definition branches (schema : V) : list V :=
  keyword_branches schema (lit "anyOf") ++ keyword_branches schema (lit "oneOf")
    ++ keyword_branches schema (lit "allOf").

(** The properties of the schema that the value has, with both sides. *)
Definition members (schema value : V) : list (rstr * V * V) :=
  match (properties ← get schema (lit "properties"); as_object properties), as_object value with
  | Some properties, Some _ =>
      omap (fun '(name, property) => child ← get value name; Some (name, property, child)) properties
  | _, _ => []
  end.

Definition elements (schema value : V) : list (nat * V * V) :=
  match get schema (lit "items"), as_array value with
  | Some items, Some array => imap (fun index child => (index, items, child)) array
  | _, _ => []
  end.

(** [collect] with [levels] = [MAX_SCHEMA_DEPTH + 1 - depth] levels left. *)
Fixpoint collect (root : V) (levels : nat) (schema value : V) (path : rstr) (found : Found) : Found :=
  match levels with
  | O => found
  | S next =>
      if unset value then found else
      let found := note path schema found in
      let found := match reference root schema with
                   | Some target => collect root next target value path found
                   | None => found
                   end in
      let found := foldl (fun found branch => collect root next branch value path found)
                         found (branches schema) in
      let found := foldl (fun found '(name, property, child) =>
                            collect root next property child (join_path path name) found)
                         found (members schema value) in
      foldl (fun found '(index, items, child) =>
               collect root next items child (join_path path (show_dec (Z.of_nat index))) found)
            found (elements schema value)
  end.

Definition collected (schema model : V) : Found :=
  collect schema (MAX_SCHEMA_DEPTH + 1) schema model [] [].

Definition since_gate (schema model : V) (profile : HostProfile) (service : rstr) : Diagnostics :=
  omap (fun '(path, since) => since_diagnostic profile service path since path)
       (collected schema model).

End Walk.

(** ** Order *)

Definition lex_lt (l r : list Z) : Prop :=
  exists i, (forall j, (j < i)%nat -> component l j = component r j) /\ component l i < component r i.

Lemma component_past v i : (length v <= i)%nat -> component v i = 0.
Proof. intros H. unfold component. by rewrite lookup_ge_None_2. Qed.

Lemma compare_loop_opp l r ix : compare_loop r l ix = CompOpp (compare_loop l r ix).
Proof.
  induction ix as [|i ix IH]; simpl; [done|].
  rewrite (Z.compare_antisym (component l i)). by destruct (component l i ?= component r i); simpl.
Qed.

Lemma compare_loop_spec l r s n :
  match compare_loop l r (seq s n) with
  | Eq => forall j, (s <= j < s + n)%nat -> component l j = component r j
  | Lt => exists i, (s <= i < s + n)%nat /\ (forall j, (s <= j < i)%nat -> component l j = component r j)
            /\ component l i < component r i
  | Gt => exists i, (s <= i < s + n)%nat /\ (forall j, (s <= j < i)%nat -> component l j = component r j)
            /\ component r i < component l i
  end.
Proof.
  revert s. induction n as [|n IH]; intros s; simpl; [lia|].
  destruct (Z.compare_spec (component l s) (component r s)) as [E|E|E].
  - specialize (IH (S s)). destruct (compare_loop l r (seq (S s) n)).
    + intros j Hj. destruct (decide (j = s)); [by subst|]. apply IH. lia.
    + destruct IH as (i & Hi & Hb & Hlt). exists i. split_and!; [lia|lia| |done].
      intros j Hj. destruct (decide (j = s)); [by subst|]. apply Hb. lia.
    + destruct IH as (i & Hi & Hb & Hlt). exists i. split_and!; [lia|lia| |done].
      intros j Hj. destruct (decide (j = s)); [by subst|]. apply Hb. lia.
  - exists s. split_and!; [lia|lia|lia|done].
  - exists s. split_and!; [lia|lia|lia|done].
Qed.

(** The loop decides the lexicographic order of the zero-extended sequences. *)
Lemma compare_loop_lex l r :
  match compare_loop l r (seq 0 (length l `max` length r)) with
  | Eq => forall j, component l j = component r j
  | Lt => lex_lt l r
  | Gt => lex_lt r l
  end.
Proof.
  pose proof (compare_loop_spec l r 0 (length l `max` length r)) as H.
  destruct (compare_loop _ _ _).
  - intros j. destruct (decide (j < length l `max` length r)%nat); [apply H; lia|].
    rewrite !component_past by lia. done.
  - destruct H as (i & _ & Hb & Hlt). exists i. split; [|done]. intros. apply Hb. lia.
  - destruct H as (i & _ & Hb & Hlt). exists i. split; [|done]. intros. symmetry. apply Hb. lia.
Qed.

Lemma lex_lt_irrefl l r : (forall j, component l j = component r j) -> ~ lex_lt l r.
Proof. intros E (i & _ & H). rewrite E in H. lia. Qed.

Lemma lex_lt_trans l m r : lex_lt l m -> lex_lt m r -> lex_lt l r.
Proof.
  intros (i & Hi & Li) (k & Hk & Lk). destruct (decide (i < k)%nat); [|destruct (decide (i = k))].
  - exists i. split; [|rewrite <- Hk by done; done]. intros j Hj. rewrite Hi, Hk by lia. done.
  - subst. exists k. split; [|lia]. intros j Hj. rewrite Hi, Hk by lia. done.
  - exists k. split; [|rewrite Hi by lia; done]. intros j Hj. rewrite Hi, Hk by lia. done.
Qed.

Lemma lex_lt_proper l l' r r' : (forall j, component l j = component l' j) ->
  (forall j, component r j = component r' j) -> lex_lt l r -> lex_lt l' r'.
Proof. intros El Er (i & Hb & Hlt). exists i. setoid_rewrite <- El. setoid_rewrite <- Er. done. Qed.

Lemma lex_lt_asym l r : lex_lt l r -> ~ lex_lt r l.
Proof. intros H1 H2. apply (lex_lt_irrefl l l); [done|]. by eapply lex_lt_trans. Qed.

Lemma compare_components l r o : compare l r = Some o <->
  exists a b, components l = Some a /\ components r = Some b
    /\ compare_loop a b (seq 0 (length a `max` length b)) = o.
Proof.
  unfold compare. split.
  - intros (a & Ha & (b & Hb & [= <-])%bind_Some)%bind_Some. eauto.
  - intros (a & b & -> & -> & <-). done.
Qed.

Lemma compare_lt_iff l r a b : components l = Some a -> components r = Some b ->
  compare l r = Some Lt <-> lex_lt a b.
Proof.
  intros Ha Hb. rewrite compare_components. pose proof (compare_loop_lex a b) as H. split.
  - intros (? & ? & ? & ? & E). simplify_eq. by rewrite E in H.
  - intros Hl. exists a, b. split_and!; [done..|]. destruct (compare_loop _ _ _); [|done|].
    + by apply lex_lt_irrefl in H.
    + by apply lex_lt_asym in H.
Qed.

Lemma at_least_false l r a b : components l = Some a -> components r = Some b ->
  at_least l r = Some false <-> lex_lt a b.
Proof.
  intros Ha Hb. rewrite <- (compare_lt_iff l r) by done. unfold at_least.
  destruct (compare l r) as [[]|]; simpl; split; congruence.
Qed.

Lemma at_least_known l r : (exists b, at_least l r = Some b)
  <-> is_Some (components l) /\ is_Some (components r).
Proof.
  unfold at_least, compare, is_Some.
  destruct (components l), (components r); simpl; naive_solver.
Qed.

Lemma at_least_trans a b c : at_least a b = Some true -> at_least b c = Some true -> at_least a c = Some true.
Proof.
  intros H1 H2.
  destruct (proj1 (at_least_known a b)) as [[x Hx] [y Hy]]; [eauto|].
  destruct (proj1 (at_least_known b c)) as [_ [z Hz]]; [eauto|].
  destruct (at_least a c) as [[]|] eqn:E; [done| |].
  - apply (at_least_false _ _ x z) in E; [|done..].
    assert (~ lex_lt x y) by (rewrite <- (at_least_false a b) by done; congruence).
    assert (~ lex_lt y z) by (rewrite <- (at_least_false b c) by done; congruence).
    pose proof (compare_loop_lex x y) as C1. pose proof (compare_loop_lex y z) as C2.
    destruct (compare_loop x y _), (compare_loop y z _); try done; exfalso.
    + eapply (lex_lt_irrefl x z); [|done]. intros j. by rewrite C1, C2.
    + eapply lex_lt_asym; [exact C2|]. by eapply (lex_lt_proper x y z z).
    + eapply lex_lt_asym; [exact C1|]. eapply (lex_lt_proper x x z y); [done| |done]. by intros; rewrite C2.
    + eapply lex_lt_asym; [exact E|]. by eapply lex_lt_trans.
  - destruct (proj2 (at_least_known a c)) as [? ?]; [eauto|congruence].
Qed.

(** ** What the walk collects *)

Section Gated.
Context {V : Type} `{!Json V}.
Variable root : V.

(** [gated levels schema value path x]: within [levels] levels of references,
    alternatives and nesting, a value that is set meets a schema node carrying
    the [since] of [x], at the field path of [x]. *)
Inductive gated : nat -> V -> V -> rstr -> rstr * rstr -> Prop :=
| gated_here n schema value path since :
    unset value = false -> since_of schema = Some since ->
    gated (S n) schema value path (path, since)
| gated_ref n schema target value path x :
    unset value = false -> reference root schema = Some target ->
    gated n target value path x -> gated (S n) schema value path x
| gated_branch n schema branch value path x :
    unset value = false -> branch ∈ branches schema ->
    gated n branch value path x -> gated (S n) schema value path x
| gated_member n schema value path name property child x :
    unset value = false -> (name, property, child) ∈ members schema value ->
    gated n property child (join_path path name) x -> gated (S n) schema value path x
| gated_element n schema value path index items child x :
    unset value = false -> (index, items, child) ∈ elements schema value ->
    gated n items child (join_path path (show_dec (Z.of_nat index))) x -> gated (S n) schema value path x.

Lemma note_spec path schema found x :
  x ∈ note path schema found <-> x ∈ found \/ exists since, since_of schema = Some since /\ x = (path, since).
Proof.
  unfold note. destruct (since_of schema) as [since|] eqn:E; [|naive_solver].
  case_bool_decide; [|rewrite elem_of_app, list_elem_of_singleton]; naive_solver.
Qed.

Lemma foldl_grows {A B} (f : list B -> A -> list B) (P : A -> Prop) (x : B) l found :
  (forall found a, a ∈ l -> x ∈ f found a <-> x ∈ found \/ P a) ->
  x ∈ foldl f found l <-> x ∈ found \/ exists a, a ∈ l /\ P a.
Proof.
  revert found. induction l as [|a l IH]; intros found H; simpl.
  - split; [auto|]. intros [?|(? & ?%elem_of_nil & _)]; done.
  - rewrite IH by (intros; apply H; by constructor). rewrite H by constructor.
    setoid_rewrite elem_of_cons. naive_solver.
Qed.

Lemma collect_spec n schema value path found x :
  x ∈ collect root n schema value path found <-> x ∈ found \/ gated n schema value path x.
Proof.
  revert schema value path found. induction n as [|n IH]; intros schema value path found; simpl.
  { split; [auto|]. intros [?|H]; [done|inversion H]. }
  destruct (unset value) eqn:Hu.
  { split; [auto|]. intros [?|H]; [done|inversion H; congruence]. }
  rewrite (foldl_grows _ (fun '(index, items, child) =>
    gated n items child (join_path path (show_dec (Z.of_nat index))) x)) by (intros ? [[??]?] _; apply IH).
  rewrite (foldl_grows _ (fun '(name, property, child) =>
    gated n property child (join_path path name) x)) by (intros ? [[??]?] _; apply IH).
  rewrite (foldl_grows _ (fun branch => gated n branch value path x)) by (intros; apply IH).
  assert (Hr : forall found, x ∈ match reference root schema with
      | Some target => collect root n target value path found | None => found end
      <-> x ∈ found \/ exists target, reference root schema = Some target /\ gated n target value path x).
  { intros f. destruct (reference root schema); [rewrite IH|]; naive_solver. }
  rewrite Hr, note_spec. split.
  - intros [[[[[?|(s & ? & ->)]|(t & ? & ?)]|(b & ? & ?)]|([[??]?] & ? & ?)]|([[??]?] & ? & ?)];
      [by left|right..]; eauto using gated.
  - intros [?|H]; [naive_solver|]. inversion H; subst; [naive_solver..| |]; clear Hr.
    + left; right. eexists (_, _, _). eauto.
    + right. eexists (_, _, _). eauto.
Qed.

Lemma note_nodup path schema found : NoDup found -> NoDup (note path schema found).
Proof.
  intros H. unfold note. destruct (since_of schema); [|done]. case_bool_decide; [done|].
  apply NoDup_app. split_and!; [done| |apply NoDup_singleton]. set_solver.
Qed.

Lemma foldl_inv {A B} (f : B -> A -> B) (P : B -> Prop) l b :
  (forall b a, P b -> P (f b a)) -> P b -> P (foldl f b l).
Proof. intros Hf. revert b. induction l; simpl; auto. Qed.

Lemma collect_nodup n schema value path found :
  NoDup found -> NoDup (collect root n schema value path found).
Proof.
  revert schema value path found. induction n as [|n IH]; intros; simpl; [done|].
  case_if; [done|].
  apply foldl_inv; [intros ? [[??]?]; apply IH|].
  apply foldl_inv; [intros ? [[??]?]; apply IH|].
  apply foldl_inv; [intros; by apply IH|].
  destruct (reference root schema); [apply IH|]; by apply note_nodup.
Qed.

End Gated.

(** ** The gate *)

Lemma since_diagnostic_error profile service path since d :
  since_diagnostic profile service path since path = Some d ->
  severity d = Error <-> exists installed, service_version profile service = Some installed
    /\ at_least installed since = Some false.
Proof.
  unfold since_diagnostic. destruct (service_version profile service) as [i|];
    [destruct (at_least i since) as [[]|] eqn:E|]; intros [= <-]; simpl; naive_solver.
Qed.

Lemma since_diagnostic_refused profile service path since installed :
  service_version profile service = Some installed -> at_least installed since = Some false ->
  exists d, since_diagnostic profile service path since path = Some d /\ severity d = Error.
Proof. unfold since_diagnostic. intros -> ->. eauto. Qed.

(** ** Since findings *)

(** The installed service is known to be older than the release [since]. *)
Definition too_old (profile : HostProfile) (service since : rstr) : Prop :=
  exists installed, service_version profile service = Some installed /\ at_least installed since = Some false.

Lemma since_finding_ok profile service path since fld :
  has_errors (option_list (since_diagnostic profile service path since fld)) = false <-> ~ too_old profile service since.
Proof.
  unfold since_diagnostic, too_old. destruct (service_version profile service) as [i|];
    [destruct (at_least i since) as [[]|] eqn:E|]; simpl; naive_solver.
Qed.

(** ** Properties *)

(** [compare] is the lexicographic order of the numeric components, with
    missing trailing components read as 0: it answers exactly for two versions,
    [Less], [Equal] and [Greater] say what the order says, and swapping the
    arguments reverses the answer; [at_least] is transitive. *)
Theorem version_order l r :
  (is_Some (compare l r) <-> is_Some (components l) /\ is_Some (components r))
  /\ (forall a b, components l = Some a -> components r = Some b ->
       (compare l r = Some Lt <-> lex_lt a b) /\ (compare l r = Some Gt <-> lex_lt b a)
       /\ (compare l r = Some Eq <-> forall j, component a j = component b j))
  /\ compare r l = CompOpp <$> compare l r
  /\ (forall m, at_least l m = Some true -> at_least m r = Some true -> at_least l r = Some true).
Proof.
  assert (Hopp : forall x y, compare y x = CompOpp <$> compare x y).
  { intros x y. unfold compare. destruct (components x), (components y); simpl; try done.
    by rewrite compare_loop_opp, Nat.max_comm. }
  split_and!; [| |done|eauto using at_least_trans].
  - unfold compare, is_Some. destruct (components l), (components r); simpl; naive_solver.
  - intros a b Ha Hb. pose proof (compare_lt_iff l r a b Ha Hb) as Hlt.
    pose proof (compare_lt_iff r l b a Hb Ha) as Hgt.
    assert (Hgt' : compare l r = Some Gt <-> lex_lt b a).
    { rewrite <- Hgt, (Hopp l r). clear. destruct (compare l r) as [[]|]; simpl; split; congruence. }
    split_and!; [done..|]. split.
    + intros (? & ? & ? & ? & E)%compare_components. simplify_eq.
      pose proof (compare_loop_lex a b) as H. by rewrite E in H.
    + intros E. pose proof (compare_loop_lex a b) as H. apply compare_components.
      exists a, b. split_and!; [done..|]. destruct (compare_loop _ _ _); [done| |].
      * by apply lex_lt_irrefl in H.
      * by apply lex_lt_irrefl in H.
Qed.

(** What the [since] gate reports. The walk collects, without repetition,
    exactly the field paths where a set value meets a schema node with a [since]
    within 17 levels of references, alternatives and nesting; the gate blocks
    the model exactly when the service's version is known and older than the
    [since] of one of them, and so never when no version was detected. *)
Theorem since_gate_blocks {V} `{!Json V} (schema model : V) profile service :
  NoDup (collected schema model)
  /\ (forall x, x ∈ collected schema model <-> gated schema 17 schema model [] x)
  /\ (has_errors (since_gate schema model profile service) = true <->
      exists installed path since, service_version profile service = Some installed
        /\ gated schema 17 schema model [] (path, since) /\ at_least installed since = Some false).
Proof.
  assert (Hc : forall x, x ∈ collected schema model <-> gated schema 17 schema model [] x).
  { intros x. unfold collected. rewrite collect_spec.
    split; [intros [?%elem_of_nil|?]; done|by right]. }
  split_and!; [apply collect_nodup; constructor|done|].
  unfold has_errors, since_gate. rewrite existsb_exists. setoid_rewrite <- list_elem_of_In.
  setoid_rewrite list_elem_of_omap. setoid_rewrite <- Hc. split.
  - intros (d & ([path since] & Hx & Hd) & Hs%bool_decide_eq_true).
    apply (since_diagnostic_error _ _ _ _ _ Hd) in Hs as (i & ? & ?). eauto 10.
  - intros (i & path & since & Hv & Hx & Hl).
    destruct (since_diagnostic_refused profile service path since i) as (d & Hd & Hs); [done..|].
    exists d. split; [|by apply bool_decide_eq_true]. by exists (path, since).
Qed.
