(* ===== verification/Config.v ===== *)
(** * The module SDK: [ConfigModule] and its JSON adapter

    The trait and the adapter of [crates/detent-core/src/module.rs]. The class
    [ConfigModuleLaws] states the trait's documented invariants; a module proves
    them and the adapter's theorems use only them. *)

From Stdlib Require Import ZArith.
From stdpp Require Import gmap.
From S2P Require Import Prelude Str Doc Diag Version.

(** ** [ConfigModule] *)

Inductive ParseError := Malformed (message : rstr) (pspan : option Span).
Inductive ModelError :=
| Shape (message : rstr)
| Unrepresentable (message : rstr) (mspan : option Span).
Inductive DynError := DParse (e : ParseError) | DModel (e : ModelError) | DEdit (e : EditError).

Class ConfigModule := {
  Doc : Type;
  Model : Type;
  cm_parse : rstr -> result ParseError Doc;
  cm_render : Doc -> rstr;
  cm_to_model : Doc -> result ModelError Model;
  cm_apply : Doc -> Model -> result EditError (Doc * EditReport);
  cm_validate : Model -> HostProfile -> Diagnostics;
  cm_defaults : HostProfile -> Model;
  cm_model_target : Model -> result EditError (option rstr);
}.

(** The invariants the trait documents, for a document parsed from text.
    [breaks m s]: applying [m] would have to write a value of [m] that holds a
    line break or NUL and that the text [s] does not already hold. *)
Class ConfigModuleLaws (M : ConfigModule) := {
  breaks : Model -> rstr -> Prop;
  law_render_parse : forall s doc, cm_parse s = Ok doc -> cm_render doc = s;
  law_noop : forall s doc m, cm_parse s = Ok doc -> cm_to_model doc = Ok m ->
    cm_apply doc m = Ok (doc, mkReport 0 0 0);
  law_apply_model : forall s doc m doc' r, cm_parse s = Ok doc -> cm_apply doc m = Ok (doc', r) ->
    cm_to_model doc' = Ok m;
  law_reparse : forall s doc m doc' r, cm_parse s = Ok doc -> cm_apply doc m = Ok (doc', r) ->
    exists doc'', cm_parse (cm_render doc') = Ok doc'' /\ cm_to_model doc'' = cm_to_model doc';
  law_no_break : forall s doc m, cm_parse s = Ok doc -> breaks m s -> exists e, cm_apply doc m = Err e;
}.

(** ** The JSON adapter [Dyn<M>]

    [Value], its accessors, [from_value] and [to_value] stand for [serde_json];
    [from_value] fails with serde's message. [schema] and [project] are the
    module's hinted schema and its upstream project name. *)

Section Dyn.
Context (M : ConfigModule).
Context {Value : Type} `{!Json Value}.
Variable (schema : Value) (project : rstr).
Variable from_value : Value -> result rstr Model.
Variable to_value : Model -> result rstr Value.

Definition map_err {E F A} (f : E -> F) (r : result E A) : result F A :=
  match r with Ok a => Ok a | Err e => Err (f e) end.

Definition model_from_json (v : Value) : result ModelError Model := map_err Shape (from_value v).
Definition model_to_json (m : Model) : result ModelError Value := map_err Shape (to_value m).

Definition parse_to_model_json (src : rstr) : result DynError Value :=
  doc ← map_err DParse (cm_parse src);
  model ← map_err DModel (cm_to_model doc);
  map_err DModel (model_to_json model).

Definition apply_json (src : rstr) (model_json : Value) : result DynError rstr :=
  doc ← map_err DParse (cm_parse src);
  model ← map_err DModel (model_from_json model_json);
  '(doc', _) ← map_err DEdit (cm_apply doc model);
  Ok (cm_render doc').

Definition model_target_json (model_json : Value) : result DynError (option rstr) :=
  model ← map_err DModel (model_from_json model_json);
  map_err DEdit (cm_model_target model).

Definition validate_json (model_json : Value) (profile : HostProfile) : result DynError Diagnostics :=
  model ← map_err DModel (model_from_json model_json);
  Ok (cm_validate model profile ++ since_gate schema model_json profile project).

Definition defaults_json (profile : HostProfile) : result DynError Value :=
  map_err DModel (model_to_json (cm_defaults profile)).

Lemma map_err_ok {E F A} (f : E -> F) (r : result E A) a : map_err f r = Ok a <-> r = Ok a.
Proof. destruct r; simpl; split; congruence. Qed.

Context `{!ConfigModuleLaws M}.
(** What [#[derive(Serialize, Deserialize)]] documents: a serialised model
    deserialises to itself. *)
Hypothesis serde_roundtrip : forall m v, to_value m = Ok v -> from_value v = Ok m.

Lemma apply_json_model src m v out :
  to_value m = Ok v -> apply_json src v = Ok out -> parse_to_model_json out = Ok v.
Proof.
  intros Hv. unfold apply_json. intros (doc & Hdoc%map_err_ok & H)%result_bind_ok.
  apply result_bind_ok in H as (m' & Hm & H).
  apply map_err_ok, map_err_ok in Hm. rewrite (serde_roundtrip _ _ Hv) in Hm. simplify_eq.
  apply result_bind_ok in H as ([doc' r] & Ha%map_err_ok & [= <-]).
  destruct (law_reparse _ _ _ _ _ Hdoc Ha) as (doc'' & Hp & Hm'').
  pose proof (law_apply_model _ _ _ _ _ Hdoc Ha) as Hmod.
  unfold parse_to_model_json. rewrite Hp. simpl. rewrite Hm'', Hmod. simpl.
  unfold model_to_json. by rewrite Hv.
Qed.

Lemma apply_json_noop src v :
  parse_to_model_json src = Ok v -> apply_json src v = Ok src.
Proof.
  unfold parse_to_model_json. intros (doc & Hdoc%map_err_ok & H)%result_bind_ok.
  apply result_bind_ok in H as (m & Hm%map_err_ok & H%map_err_ok).
  unfold model_to_json in H. apply map_err_ok in H.
  unfold apply_json, model_from_json. rewrite Hdoc. simpl. rewrite (serde_roundtrip _ _ H). simpl.
  rewrite (law_noop _ _ _ Hdoc Hm). simpl. by rewrite (law_render_parse _ _ Hdoc).
Qed.

End Dyn.

(** ** Properties *)

(** Through the JSON adapter, for every module that meets the documented
    invariants and a serialiser that reads back what it wrote: applying a model
    and reading the result gives that model, and applying the model just read
    reproduces the file byte for byte. *)
Theorem dyn_roundtrip (M : ConfigModule) `{!ConfigModuleLaws M} {Value : Type}
    (from_value : Value -> result rstr Model) (to_value : Model -> result rstr Value) :
  (forall m v, to_value m = Ok v -> from_value v = Ok m) ->
  (forall src m v out, to_value m = Ok v -> apply_json M from_value src v = Ok out ->
     parse_to_model_json M to_value out = Ok v)
  /\ (forall src v, parse_to_model_json M to_value src = Ok v -> apply_json M from_value src v = Ok src).
Proof.
  intros Hs. split.
  - intros src m v out. by apply apply_json_model.
  - intros src v. by apply apply_json_noop.
Qed.
