(* ===== verification/LineModule.v ===== *)
(** * Line-oriented modules

    The shape that [modules/hosts], [modules/chrony], [modules/nfs] and
    [modules/mounts] share: a file of lines, each blank, a comment, one entry or
    unknown. [LineFormat] states what such a module's line functions promise;
    from it come the entry codec of [DocEdit.v] and the documented invariants of
    [Config.v]. Each module gives its own definitions and an instance. *)

From S2P Require Import Prelude Align Str Doc DocEdit Diag Config.

(** ** What a line format promises *)

(** [raw.trim_start().starts_with(is_comment)]. *)
Definition starts_comment (is_comment : rchar -> bool) (r : rstr) : bool := starts_where is_comment (trim_start r).

Lemma starts_comment_eqb c r : starts_with c (trim_start r) = starts_comment (N.eqb c) r.
Proof.
  unfold starts_with, starts_comment, starts_where. destruct (trim_start r) as [|x t]; [done|]. cbn [head].
  destruct (N.eqb_spec c x) as [->|Hne]; [by rewrite bool_decide_true|].
  apply bool_decide_eq_false. congruence.
Qed.

Class LineFormat (T : Type) := {
  lf_eq_dec :: EqDecision T;
  lf_classify : rstr -> LineKind;
  lf_parse : rstr -> option T;
  lf_render : T -> result EditError rstr;
  lf_comment : rchar -> bool;
  lf_opens_section : rstr -> bool;
  (** The texts an entry carries into its line. *)
  lf_texts : T -> list rstr;
  lf_classify_eq : forall r, lf_classify r =
    if is_empty (trim r) then Blank
    else if starts_comment lf_comment r then Comment
    else match lf_parse r with Some _ => Directive | None => Unknown end;
  lf_parse_cr : cr_stable lf_parse;
  lf_render_ok : forall e r, lf_render e = Ok r -> check_raw r = Ok () /\ lf_parse r = Some e;
  (** A rendered entry is neither a blank line nor a comment. *)
  lf_render_start : forall e r, lf_render e = Ok r -> exists c t, trim_start r = c :: t /\ lf_comment c = false;
  lf_render_break : forall e s c, s ∈ lf_texts e -> c ∈ s -> c ∈ [LF; CR; NUL] -> exists x, lf_render e = Err x;
}.

(** A model that is the list of its entries. *)
Class EntryList (T M : Type) := {
  of_entries : list T -> M;
  entries_of : M -> list T;
  entries_of_list : forall l, entries_of (of_entries l) = l;
  list_of_entries : forall m, of_entries (entries_of m) = m;
}.

Lemma join_elem sep parts p x : p ∈ parts -> x ∈ p -> x ∈ join sep parts.
Proof.
  induction parts as [|q parts IH]; [set_solver|]. intros Hp Hx. simpl.
  destruct parts as [|q' parts]; [set_solver|].
  apply elem_of_cons in Hp as [->|Hp]; [set_solver|]. rewrite !elem_of_app. right. right. by apply IH.
Qed.

Lemma elem_of_concat {A} (x : A) ls : x ∈ concat ls <-> exists l, x ∈ l /\ l ∈ ls.
Proof. rewrite list_elem_of_In, in_concat. setoid_rewrite <- list_elem_of_In. naive_solver. Qed.

(** A character of the line that [check_raw] refuses. *)
Lemma breaks_raw c r : c ∈ [LF; CR; NUL] -> c ∈ r -> contains_any [LF; CR; NUL] r = true.
Proof.
  intros Hb Hr. apply not_false_iff_true. rewrite contains_any_false. intros H. by apply (H c).
Qed.

Lemma unbroken_ok r : contains_any [LF; CR; NUL] r = false -> check_raw r = Ok ().
Proof. unfold check_raw. by intros ->. Qed.

(** ** The codec *)

Section Codec.
Context {T : Type} `{LineFormat T}.

Lemma starts_comment_cr p : cr_stable (starts_comment p).
Proof. intros r. unfold starts_comment, starts_where. rewrite trim_start_snoc by done. by destruct (trim_start r). Qed.

Lemma lf_classify_cr : cr_stable lf_classify.
Proof. intros r. by rewrite !lf_classify_eq, starts_comment_cr, lf_parse_cr, trim_snoc. Qed.

Lemma lf_classify_directive r e :
  lf_parse r = Some e -> (exists c t, trim_start r = c :: t /\ lf_comment c = false) -> lf_classify r = Directive.
Proof.
  intros Hp (c & t & Ht & Hc).
  rewrite lf_classify_eq, Hp. unfold starts_comment, starts_where. rewrite Ht, Hc.
  destruct (is_empty (trim r)) eqn:E; [|done]. destruct (trim r) eqn:Etr; [|done].
  apply trim_nil in Etr. congruence.
Qed.

#[export] Program Instance line_codec : EntryCodec T := {
  ec_eq_dec := lf_eq_dec;
  ec_classify := lf_classify;
  ec_parse := lf_parse;
  ec_render := lf_render;
  ec_opens_section := lf_opens_section;
  ec_classify_cr := lf_classify_cr;
  ec_parse_cr := lf_parse_cr;
}.
Next Obligation. by rewrite lf_classify_eq. Qed.
Next Obligation.
  intros e r He _. destruct (lf_render_ok _ _ He) as [_ Hp].
  split; [eapply lf_classify_directive; [done|by eapply lf_render_start]|done].
Qed.

(** The entries of a document are what its [Directive] lines parse to. *)
Lemma directive_entries (doc : Document) :
  omap (fun l => lf_parse (raw l)) (lines_of_kind Directive doc) = entries (lines doc).
Proof.
  unfold lines_of_kind, entries.
  induction (lines doc) as [|l ls IH]; [done|]. rewrite filter_cons. cbn [omap list_omap].
  unfold entry_of at 1. cbn [ec_parse line_codec].
  destruct (decide (kind l = Directive)) as [Hk|Hk].
  - rewrite bool_decide_true by done. cbn [omap list_omap]. by rewrite IH.
  - by rewrite bool_decide_false by done.
Qed.

End Codec.

(** ** The module *)

Section Configured.
Context {T M : Type} `{LineFormat T, EntryList T M}.
Variable validate : M -> HostProfile -> Diagnostics.
Variable defaults : HostProfile -> M.

Definition line_config : ConfigModule := {|
  Doc := Document;
  Model := M;
  cm_parse := fun src => Ok (parse src lf_classify);
  cm_render := render;
  cm_to_model := fun doc => Ok (of_entries (omap (fun l => lf_parse (raw l)) (lines_of_kind Directive doc)));
  cm_apply := fun doc m => edit_entries lf_parse lf_render lf_opens_section (entries_of m) doc;
  cm_validate := validate;
  cm_defaults := defaults;
  cm_model_target := fun _ => Ok None;
|}.

(** An entry that would carry a line break or NUL into its line. *)
Definition breaks_line (e : T) : Prop := exists s c, s ∈ lf_texts e /\ c ∈ s /\ c ∈ [LF; CR; NUL].

Lemma line_apply_exact s m doc' r :
  cm_apply (ConfigModule := line_config) (parse s lf_classify) m = Ok (doc', r) ->
  entries (lines doc') = entries_of m
  /\ others (lines doc') = others (lines (parse s lf_classify)) /\ reachable lf_classify doc'.
Proof. exact (edit_exact (entries_of m) (parse s lf_classify) doc' r (reach_parse _ s)). Qed.

Lemma line_to_model_entries doc :
  cm_to_model (ConfigModule := line_config) doc = Ok (of_entries (entries (lines doc))).
Proof. cbn [cm_to_model line_config]. by rewrite directive_entries. Qed.

#[refine] Definition line_laws : ConfigModuleLaws line_config := {|
  breaks := fun m s => exists e, e ∈ entries_of m
    /\ e ∉ entries (T := T) (lines (parse s lf_classify)) /\ breaks_line e;
|}.
Proof.
  - intros s doc [= <-]. apply render_parse_lines.
  - intros s doc m [= <-] Hm. rewrite line_to_model_entries in Hm. injection Hm as <-.
    cbn [cm_apply line_config]. rewrite entries_of_list. exact (edit_noop (parse s lf_classify) (reach_parse _ _)).
  - intros s doc m doc' r [= <-] [He _]%line_apply_exact. by rewrite line_to_model_entries, He, list_of_entries.
  - intros s doc m doc' r [= <-] (_ & _ & Hr)%line_apply_exact.
    destruct (reachable_wf _ lf_classify_cr _ Hr) as [Hwf _].
    eexists. split; [reflexivity|]. rewrite !line_to_model_entries. cbn [cm_render line_config].
    unfold render. by rewrite (parse_render _ _ Hwf).
  - intros s doc m [= <-] (e & Hin & Hnew & t & c & Ht & Hc & Hb). cbn [cm_apply line_config].
    destruct (edit_entries _ _ _ _ _) as [[doc' r]|x] eqn:E; [exfalso|eauto].
    destruct (edit_origin (H := line_codec) (entries_of m) (parse s lf_classify) doc' r e E Hin) as [?|(u & Hu & _)]; [done|].
    destruct (lf_render_break e t c Ht Hc Hb) as [x Hx]. cbn in Hu. congruence.
Defined.

End Configured.
