(* ===== verification/Conformance.v ===== *)
(** * The conformance kit: [crates/detent-core/src/conformance.rs]

    The checks a module crate runs on its fixtures and on generated inputs, as
    executable definitions, and the theorem that no input at all makes them fail
    for a line-oriented module. The messages of the source also quote the
    values they compare. *)

From Stdlib Require Import ZArith.
From stdpp Require Import gmap.
From S2P Require Import Prelude Align Str Num Doc DocEdit Diag Config LineModule.

(** ** Inputs *)

Definition adversarial_inputs : list rstr :=
  [[]; [LF]; [CR]; [CR; LF]; [LF; CR; LF; LF]; [SPACE]; [TAB; TAB]; lit "x"; lit "x" ++ [LF]; lit "x" ++ [CR; LF];
   lit "x" ++ [CR] ++ lit "y" ++ [LF]; [NUL]; lit "x" ++ [NUL] ++ lit "y" ++ [LF]; lit "# comment only" ++ [LF];
   lit "  # indented comment" ++ [CR; LF; CR; LF]; [233; 26085; 10; 10]%N;
   lit "a" ++ [LF] ++ lit "b" ++ [CR; LF] ++ lit "c" ++ [LF; LF] ++ lit "d"].

Definition ALPHABET : list rchar :=
  lit "aZ0 " ++ [TAB] ++ lit "#=:" ++ [34; 92]%N ++ lit "/" ++ [LF; CR; NUL] ++ [233; 26085]%N.

Definition MULTILINE : rstr := lit "first line" ++ [LF] ++ lit "second line" ++ [LF] ++ lit "third line" ++ [LF].

(** One step of the generator, on [u64] with wrap-around. *)
Definition next_state (state : Z) : Z :=
  ((state * 6364136223846793005) mod 2 ^ 64 + 1442695040888963407) mod 2 ^ 64.

Definition next_letter (state : Z) : rchar :=
  default 97%N (ALPHABET !! Z.to_nat (Z.land (Z.shiftr state 33) 15)).

(** The loop; every round adds at least one byte. *)
Fixpoint fill (fuel len : nat) (state : Z) (out : rstr) : rstr :=
  match fuel with
  | O => out
  | S fuel =>
      if str_len out <? len
      then let state := next_state state in fill fuel len state (out ++ [next_letter state])
      else out
  end.

Definition pseudo_random_input (len : nat) (seed : Z) : rstr :=
  fill len len seed (if 0 <? len then MULTILINE else []).

(** ** The checks *)

Inductive Exercised := Yes | No.

#[export] Instance Exercised_eq_dec : EqDecision Exercised.
Proof. solve_decision. Defined.

Section Checks.
Context (M : ConfigModule).
Context {Model_eq : EqDecision Model}.
(** [PartialEq] of the module's document type. *)
Variable doc_eqb : Doc -> Doc -> bool.

Definition parsed (src : rstr) : result rstr Doc := map_err (fun _ => lit "parse failed") (cm_parse src).

Definition check_render_parse_roundtrip (src : rstr) : result rstr () :=
  doc ← parsed src;
  if bool_decide (cm_render doc = src) then Ok () else Err (lit "render(parse(s)) != s").

Definition check_apply_is_noop (src : rstr) : result rstr Exercised :=
  doc ← parsed src;
  match cm_to_model doc with
  | Err _ => Ok No
  | Ok model =>
      '(doc', report) ← map_err (fun _ => lit "apply(doc, to_model(doc)) failed") (cm_apply doc model);
      if negb (bool_decide (cm_render doc' = cm_render doc)) then Err (lit "apply(doc, to_model(doc)) changed the document")
      else if bool_decide (report = mkReport 0 0 0) then Ok Yes
      else Err (lit "apply(doc, to_model(doc)) reported an edit")
  end.

Definition check_edit_fidelity (src : rstr) (model : Model) : result rstr Exercised :=
  doc ← parsed src;
  match cm_apply doc model with
  | Err _ => Ok No
  | Ok (doc', _) =>
      back ← map_err (fun _ => lit "to_model after apply failed") (cm_to_model doc');
      if bool_decide (back = model) then Ok Yes else Err (lit "to_model(apply(doc, m)) != m")
  end.

Definition check_idempotent (src : rstr) (model : Model) : result rstr Exercised :=
  doc ← parsed src;
  match cm_apply doc model with
  | Err _ => Ok No
  | Ok (doc', _) =>
      reparsed ← map_err (fun _ => lit "reparse of rendered text failed") (cm_parse (cm_render doc'));
      if doc_eqb reparsed doc' then Ok Yes else Err (lit "parse(render(doc)) != doc")
  end.

(** [apply] borrows the document: a refused model leaves it as it was. *)
Definition check_injection_rejected (src : rstr) (probe : Model) : result rstr () :=
  doc ← parsed src;
  match cm_apply doc probe with
  | Ok _ => Err (lit "apply accepted an injection probe")
  | Err _ =>
      _ ← map_err (fun _ => lit "rejecting an injection probe left unparsable text") (cm_parse (cm_render doc));
      Ok ()
  end.

Definition check_bounded_parse (seed : Z) : result rstr () :=
  check_render_parse_roundtrip (pseudo_random_input (1024 * 1024) seed).

(** Whether some fixture has a model that applies. *)
Fixpoint any_exercised (fixtures : list rstr) : result rstr bool :=
  match fixtures with
  | [] => Ok false
  | fixture :: fixtures =>
      exercised ← check_apply_is_noop fixture;
      rest ← any_exercised fixtures;
      Ok (bool_decide (exercised = Yes) || rest)
  end.

Definition check_not_vacuous (fixtures : list rstr) (profile : HostProfile) : result rstr () :=
  exercised ← any_exercised fixtures;
  if negb exercised then Err (lit "no fixture had a representable model; apply was never exercised")
  else
    doc ← parsed [];
    '(doc', _) ← map_err (fun _ => lit "apply(parse(''), defaults) failed") (cm_apply doc (cm_defaults profile));
    back ← map_err (fun _ => lit "to_model after applying defaults failed") (cm_to_model doc');
    if bool_decide (back = cm_defaults profile) then Ok () else Err (lit "to_model(apply(parse(''), defaults)) != defaults").

End Checks.

(** ** What the generator returns *)

Lemma str_len_one c : 1 <= str_len [c].
Proof. unfold str_len, len_utf8. simpl. repeat case_match; lia. Qed.

Lemma fill_length fuel : forall len state out, len <= str_len out + fuel -> len <= str_len (fill fuel len state out).
Proof.
  induction fuel as [|fuel IH]; intros len state out H; cbn [fill]; [lia|].
  destruct (Nat.ltb_spec (str_len out) len) as [|?]; [|lia]. apply IH.
  rewrite str_len_app. pose proof (str_len_one (next_letter (next_state state))). lia.
Qed.

Lemma pseudo_random_input_length len seed : len <= str_len (pseudo_random_input len seed).
Proof. apply fill_length. lia. Qed.

(** ** What passing means

    Every check of the kit, on every input, for a module whose laws name the
    probes that [apply] must refuse. *)
Record conforms (M : ConfigModule) `{EqDecision Model} `{!ConfigModuleLaws M} (doc_eqb : Doc -> Doc -> bool) : Prop := {
  conforms_roundtrip : forall src, check_render_parse_roundtrip M src = Ok ();
  conforms_noop : forall src, check_apply_is_noop M src = Ok Yes;
  conforms_fidelity : forall src m, is_ok (check_edit_fidelity M src m) = true;
  conforms_idempotent : forall src m, is_ok (check_idempotent M doc_eqb src m) = true;
  conforms_injection : forall src m, breaks m src -> check_injection_rejected M src m = Ok ();
  conforms_bounded : forall seed, check_bounded_parse M seed = Ok ();
  conforms_not_vacuous : forall fixtures p, fixtures <> [] ->
    check_not_vacuous M fixtures p = Ok () <-> exists doc dr, cm_parse [] = Ok doc /\ cm_apply doc (cm_defaults p) = Ok dr;
}.

Definition Document_eqb (a b : Document) : bool := bool_decide (lines a = lines b).

Section LineModule.
Context {T M : Type} `{LineFormat T, EntryList T M, EqDecision M}.
Variable validate : M -> HostProfile -> Diagnostics.
Variable defaults : HostProfile -> M.

Notation module := (line_config validate defaults).
#[local] Existing Instance line_laws.

Lemma any_exercised_noop fixtures :
  (forall src, check_apply_is_noop module src = Ok Yes) ->
  any_exercised module fixtures = Ok (negb (is_empty fixtures)).
Proof.
  intros Hn. induction fixtures as [|f fixtures IH]; [done|]. cbn [any_exercised]. rewrite Hn. simpl.
  by rewrite IH.
Qed.

Theorem line_conforms : conforms module Document_eqb.
Proof.
  assert (Hn : forall src, check_apply_is_noop module src = Ok Yes).
  { intros src. unfold check_apply_is_noop, parsed. cbn [cm_parse line_config map_err result_bind mbind].
    destruct (cm_to_model _) as [m|x] eqn:Hm; [|done].
    rewrite (law_noop (M := module) src _ m eq_refl Hm). simpl.
    by rewrite bool_decide_true. }
  assert (Hr : forall src, check_render_parse_roundtrip module src = Ok ()).
  { intros src. unfold check_render_parse_roundtrip, parsed. simpl.
    by rewrite bool_decide_true by apply render_parse_lines. }
  split; [exact Hr|exact Hn|..].
  - intros src m. unfold check_edit_fidelity, parsed. cbn [cm_parse line_config map_err result_bind mbind].
    destruct (cm_apply _ m) as [[doc' r]|x] eqn:Ha; [|done].
    rewrite (law_apply_model (M := module) src _ m doc' r eq_refl Ha). simpl. by rewrite bool_decide_true.
  - intros src m. unfold check_idempotent, parsed. cbn [cm_parse line_config map_err result_bind mbind].
    destruct (cm_apply _ m) as [[doc' r]|x] eqn:Ha; [|done].
    apply line_apply_exact in Ha as (_ & _ & Hd).
    destruct (reachable_wf _ lf_classify_cr _ Hd) as [Hwf _]. simpl.
    unfold Document_eqb. by rewrite bool_decide_true by (by apply parse_render).
  - intros src m Hb. unfold check_injection_rejected, parsed. cbn [cm_parse line_config map_err result_bind mbind].
    by destruct (law_no_break (M := module) src _ m eq_refl Hb) as [x ->].
  - intros seed. apply Hr.
  - intros fixtures p Hne. unfold check_not_vacuous. rewrite any_exercised_noop by done.
    destruct fixtures as [|f fixtures]; [done|]. unfold parsed.
    cbn [negb is_empty cm_parse line_config map_err result_bind mbind]. split.
    + intros H1. eexists. destruct (cm_apply _ _) as [dr|x] eqn:Ha; [by eauto|done].
    + intros (doc & [doc' r] & [= <-] & Ha). rewrite Ha. cbn [map_err result_bind mbind].
      rewrite (law_apply_model (M := module) [] _ _ doc' r eq_refl Ha). simpl. by rewrite bool_decide_true.
Qed.

(** A model whose every entry has a line applies to every document. *)
Lemma line_apply_total src m :
  (forall e, e ∈ entries_of m -> is_ok (lf_render e) = true) ->
  exists dr, cm_apply (ConfigModule := module) (parse src lf_classify) m = Ok dr.
Proof.
  intros Hm. destruct (cm_apply _ m) as [dr|x] eqn:Ha; [by eauto|].
  apply (edit_err (H := line_codec)) in Ha as (w & Hw & Hx).
  apply Hm in Hw as [r Hr]%is_ok_inv. unfold refuses in Hx. cbn [ec_render line_codec] in Hx.
  destruct (lf_render_ok _ _ Hr) as [Hc _]. destruct Hx as [Hx|(t & Ht & Hx)]; congruence.
Qed.
End LineModule.
