(* ===== verification/Hosts.v ===== *)
(** * The [hosts] module: [crates/modules/hosts/src/lib.rs]

    The reference implementation of [ConfigModule]: [/etc/hosts]. *)

From Stdlib Require Import ZArith.
From stdpp Require Import gmap.
From S2P Require Import Prelude Align Str Doc DocEdit Ip Diag Config LineModule.

(** ** Model *)

Record Entry := mkEntry { ip : IpAddr; hostnames : list rstr; comment : option rstr }.

#[export] Instance Entry_eq_dec : EqDecision Entry.
Proof. solve_decision. Defined.

Record HostsModel := mkModel { model_entries : list Entry }.

#[export] Instance HostsModel_eq_dec : EqDecision HostsModel.
Proof. solve_decision. Defined.

(** ** Parsing and rendering *)

Definition HASH : rchar := 35%N.

Definition split_comment (r : rstr) : rstr * option rstr :=
  match split_once (N.eqb HASH) r with
  | Some (fields, comment) => (fields, Some (trim comment))
  | None => (r, None)
  end.

Definition parse_entry (r : rstr) : option Entry :=
  let '(fields, comment) := split_comment r in
  '(address, rest) ← split_once is_whitespace (trim_start fields);
  ip ← parse_ip address;
  let hostnames := split_whitespace rest in
  if is_empty hostnames then None else Some (mkEntry ip hostnames comment).

Definition hosts_classify (r : rstr) : LineKind :=
  if is_empty (trim r) then Blank
  else if starts_with HASH (trim_start r) then Comment
  else match parse_entry r with Some _ => Directive | None => Unknown end.

(** The message of the source also quotes the line with [{raw:?}]. *)
Definition roundtrip_message (r : rstr) : rstr :=
  lit "entry does not round-trip through the file format: " ++ r.

Definition hosts_render_line (e : Entry) : result EditError rstr :=
  let r := show_ip (ip e) ++ [TAB] ++ join [SPACE] (hostnames e) in
  let r := match comment e with
           | Some comment => r ++ [TAB; HASH] ++ (if is_empty comment then [] else SPACE :: comment)
           | None => r
           end in
  if contains_any [LF; CR; NUL] r then Err (LineBreakInValue r)
  else if bool_decide (parse_entry r = Some e) then Ok r
  else Err (Unsupported (roundtrip_message r)).

(** ** Validation *)

Definition INVALID_HOSTNAME : MessageId := lit "hosts-invalid-hostname".
Definition DUPLICATE_CANONICAL : MessageId := lit "hosts-duplicate-canonical".
Definition NO_HOSTNAMES : MessageId := lit "hosts-no-hostnames".
Definition HOSTNAME_IS_IP : MessageId := lit "hosts-hostname-is-ip".
Definition ZONE_UNSUPPORTED : MessageId := lit "hosts-ipv6-zone-unsupported".
Definition MULTIPLE_IPS : MessageId := lit "hosts-hostname-multiple-ips".
Definition LOCALHOST_NOT_LOOPBACK : MessageId := lit "hosts-localhost-not-loopback".
Definition MISSING_LOCALHOST : MessageId := lit "hosts-missing-localhost".
Definition MISSING_IPV6_LOCALHOST : MessageId := lit "hosts-missing-ipv6-localhost".
Definition TOO_MANY_ENTRIES : MessageId := lit "hosts-too-many-entries".

Definition ENTRY_COUNT_ADVICE_THRESHOLD : nat := 500.
Definition MAX_HOSTNAME_LEN : nat := 253.
Definition MAX_LABEL_LEN : nat := 63.

Definition HYPHEN : rchar := 45%N.
Definition PERCENT : rchar := 37%N.

Definition is_valid_label (label : rstr) : bool :=
  negb (is_empty label) && (str_len label <=? MAX_LABEL_LEN)
  && negb (starts_with HYPHEN label) && negb (ends_with HYPHEN label)
  && forallb (fun b => is_ascii_alphanumeric b || (b =? HYPHEN)%N) label.

Definition is_valid_hostname (name : rstr) : bool :=
  if is_empty name || (MAX_HOSTNAME_LEN <? str_len name) || ends_with DOT name then false
  else forallb is_valid_label (split (N.eqb DOT) name).

Definition zone_id_address (name : rstr) : option rstr :=
  '(address, _) ← split_once (N.eqb PERCENT) name;
  match parse_ip address with Some _ => Some address | None => None end.

Definition hostnames_path (index : nat) : FieldPath := lit "entries/" ++ show_nat index ++ lit "/hostnames".

Definition validate_name (index position : nat) (name : rstr) : Diagnostics :=
  let path := hostnames_path index ++ lit "/" ++ show_nat position in
  match zone_id_address name with
  | Some address => [with_arg (lit "address") address (with_arg (lit "name") name
                       (with_field path (new_diagnostic Error ZONE_UNSUPPORTED)))]
  | None =>
      match parse_ip name with
      | Some _ => [with_arg (lit "name") name (with_field path (new_diagnostic Error HOSTNAME_IS_IP))]
      | None => if is_valid_hostname name then []
                else [with_arg (lit "name") name (with_field path (new_diagnostic Error INVALID_HOSTNAME))]
      end
  end.

Definition validate_hostnames (index : nat) (e : Entry) : Diagnostics :=
  (if is_empty (hostnames e)
   then [with_field (hostnames_path index) (new_diagnostic Error NO_HOSTNAMES)] else [])
  ++ concat (imap (validate_name index) (hostnames e)).

Fixpoint canonical_uniqueness (index : nat) (seen : list (rstr * bool)) (es : list Entry) : Diagnostics :=
  match es with
  | [] => []
  | e :: es' =>
      match hostnames e with
      | [] => canonical_uniqueness (S index) seen es'
      | canonical :: _ =>
          let key := (to_ascii_lowercase canonical, is_ipv6 (ip e)) in
          if bool_decide (key ∈ seen)
          then with_arg (lit "name") canonical
                 (with_field (hostnames_path index ++ lit "/0") (new_diagnostic Error DUPLICATE_CANONICAL))
               :: canonical_uniqueness (S index) seen es'
          else canonical_uniqueness (S index) (key :: seen) es'
      end
  end.

Definition validate_canonical_uniqueness (m : HostsModel) : Diagnostics :=
  canonical_uniqueness 0 [] (model_entries m).

(** The addresses of one lower-case name, each once; the source keeps them in
    a [BTreeMap] of [BTreeSet]s, walked in name order. *)
Definition addresses_of (es : list Entry) (name : rstr) : list IpAddr :=
  remove_dups (ip <$> filter (fun e => name ∈ (to_ascii_lowercase <$> hostnames e)) es).

Fixpoint insert_name (n : rstr) (l : list rstr) : list rstr :=
  match l with
  | [] => [n]
  | x :: l' => if bool_decide (n = x) then l
               else if str_ltb n x then n :: l else x :: insert_name n l'
  end.

(** The keys of the map: the lower-case names, sorted, each once. *)
Definition all_names (es : list Entry) : list rstr :=
  foldr insert_name [] (to_ascii_lowercase <$> concat (hostnames <$> es)).

Definition validate_address_families (m : HostsModel) : Diagnostics :=
  omap (fun name =>
    let addresses := addresses_of (model_entries m) name in
    let v4 := length (filter (fun a => is_ipv4 a = true) addresses) in
    let v6 := length (filter (fun a => is_ipv6 a = true) addresses) in
    if (1 <? v4) || (1 <? v6)
    then Some (with_arg (lit "name") name
                 (with_field (lit "entries") (new_diagnostic Warning MULTIPLE_IPS)))
    else None) (all_names (model_entries m)).

Definition is_localhost (e : Entry) : bool :=
  existsb (fun n => eq_ignore_ascii_case n (lit "localhost")) (hostnames e).
Definition is_ipv6_alias (e : Entry) : bool :=
  existsb (fun n => eq_ignore_ascii_case n (lit "ip6-localhost")
                    || eq_ignore_ascii_case n (lit "ip6-loopback")) (hostnames e).

(** The loop of [validate_localhost]: the findings and the two flags. *)
Fixpoint localhost_loop (index : nat) (present ipv6_present : bool) (es : list Entry)
    : Diagnostics * bool * bool :=
  match es with
  | [] => ([], present, ipv6_present)
  | e :: es' =>
      if negb (is_localhost e) && negb (is_ipv6_alias e)
      then localhost_loop (S index) present ipv6_present es'
      else
        let present := present || is_localhost e in
        if is_loopback (ip e)
        then localhost_loop (S index) present
               (ipv6_present || (is_ipv6 (ip e) && (is_localhost e || is_ipv6_alias e))) es'
        else
          let '(ds, p, v6) := localhost_loop (S index) present ipv6_present es' in
          (with_arg (lit "ip") (show_ip (ip e))
             (with_field (lit "entries/" ++ show_nat index ++ lit "/ip")
                (new_diagnostic Error LOCALHOST_NOT_LOOPBACK)) :: ds, p, v6)
  end.

Definition validate_localhost (m : HostsModel) : Diagnostics :=
  let '(ds, present, ipv6_present) := localhost_loop 0 false false (model_entries m) in
  ds ++ (if present then [] else [new_diagnostic Error MISSING_LOCALHOST])
     ++ (if ipv6_present then [] else [new_diagnostic Recommendation MISSING_IPV6_LOCALHOST]).

Definition hosts_validate (m : HostsModel) (_ : HostProfile) : Diagnostics :=
  concat (imap validate_hostnames (model_entries m))
  ++ validate_canonical_uniqueness m
  ++ validate_address_families m
  ++ validate_localhost m
  ++ (if ENTRY_COUNT_ADVICE_THRESHOLD <? length (model_entries m)
      then [with_arg (lit "count") (show_nat (length (model_entries m)))
              (with_field (lit "entries") (new_diagnostic Recommendation TOO_MANY_ENTRIES))]
      else []).

(** ** Defaults *)

Definition LOCALHOST4 : IpAddr := V4 127 0 0 1.
Definition BROADCAST4 : IpAddr := V4 255 255 255 255.
Definition LOCALHOST6 : IpAddr := V6 [0; 0; 0; 0; 0; 0; 0; 1]%Z.
Definition IP6_ALLNODES : IpAddr := V6 [65282; 0; 0; 0; 0; 0; 0; 1]%Z.
Definition IP6_ALLROUTERS : IpAddr := V6 [65282; 0; 0; 0; 0; 0; 0; 2]%Z.
Definition DEBIAN_HOSTNAME_IP : IpAddr := V4 127 0 1 1.

Definition entry (a : IpAddr) (names : list rstr) : Entry := mkEntry a names None.

Definition hosts_defaults (profile : HostProfile) : HostsModel :=
  mkModel (entry LOCALHOST4 [lit "localhost"] ::
    match os profile with
    | MacOs => [entry BROADCAST4 [lit "broadcasthost"]; entry LOCALHOST6 [lit "localhost"]]
    | Linux =>
        (if is_empty (hostname profile) then [] else [entry DEBIAN_HOSTNAME_IP [hostname profile]])
        ++ [entry LOCALHOST6 [lit "localhost"; lit "ip6-localhost"; lit "ip6-loopback"];
            entry IP6_ALLNODES [lit "ip6-allnodes"]; entry IP6_ALLROUTERS [lit "ip6-allrouters"]]
    | OtherOs => [entry LOCALHOST6 [lit "localhost"]]
    end).

(** ** The module *)

Definition hosts_parse (src : rstr) : result ParseError Document := Ok (parse src hosts_classify).

Definition hosts_to_model (doc : Document) : result ModelError HostsModel :=
  Ok (mkModel (omap (fun l => parse_entry (raw l)) (lines_of_kind Directive doc))).

Definition hosts_apply (doc : Document) (m : HostsModel) : result EditError (Document * EditReport) :=
  edit_entries parse_entry hosts_render_line (fun _ => false) (model_entries m) doc.

#[export] Instance HostsModule : ConfigModule := {
  Doc := Document;
  Model := HostsModel;
  cm_parse := hosts_parse;
  cm_render := render;
  cm_to_model := hosts_to_model;
  cm_apply := hosts_apply;
  cm_validate := hosts_validate;
  cm_defaults := hosts_defaults;
  cm_model_target := fun _ => Ok None;
}.

(** ** The entry codec *)

Lemma hosts_parse_cr : cr_stable parse_entry.
Proof.
  intros r. unfold parse_entry, split_comment. rewrite split_once_snoc.
  destruct (split_once (N.eqb HASH) r) as [[fields cm]|] eqn:E; cbn [N.eqb].
  { by rewrite trim_snoc. }
  change (HASH =? CR)%N with false. cbn iota beta zeta.
  rewrite trim_start_snoc by done. destruct (trim_start r) as [|x t]; [done|].
  rewrite split_once_snoc. change (is_whitespace CR) with true. cbn iota.
  destruct (split_once is_whitespace (x :: t)) as [[a b]|]; cbn [mbind option_bind].
  - by rewrite split_whitespace_snoc.
  - by destruct (parse_ip (x :: t)).
Qed.

(** An entry has a field before its comment, so its line is neither blank nor a comment. *)
Lemma hosts_entry_start r e :
  parse_entry r = Some e -> exists c t, trim_start r = c :: t /\ (HASH =? c)%N = false.
Proof.
  intros H. destruct (trim_start r) as [|c t] eqn:Et; [|exists c, t; split; [done|]].
  - exfalso. unfold parse_entry, split_comment in H.
    destruct (split_once (N.eqb HASH) r) as [[f cm]|] eqn:E; [|by rewrite Et in H].
    apply split_once_app in E as (x & -> & <-%N.eqb_eq & _).
    unfold trim_start, trim_start_matches in Et. apply drop_while_all in Et.
    rewrite forallb_app in Et. by apply andb_true_iff in Et as [_ ?].
  - destruct (HASH =? c)%N eqn:Ec; [exfalso|done]. apply N.eqb_eq in Ec as <-.
    apply drop_while_split in Et as (ws & -> & Hws). unfold parse_entry, split_comment in H.
    rewrite split_once_at in H; [|intros y Hy; destruct (N.eqb_spec HASH y) as [<-|]; [|done]; by apply Hws in Hy|done].
    assert (trim_start ws = []) as Hw; [|by rewrite Hw in H].
    apply drop_while_all, forallb_forall. intros y Hy%list_elem_of_In. by apply Hws.
Qed.

Lemma hosts_classify_eq r : hosts_classify r =
  if is_empty (trim r) then Blank else if starts_comment (N.eqb HASH) r then Comment
  else match parse_entry r with Some _ => Directive | None => Unknown end.
Proof. unfold hosts_classify. by rewrite starts_comment_eqb. Qed.

Lemma hosts_render_ok e r :
  hosts_render_line e = Ok r -> check_raw r = Ok () /\ parse_entry r = Some e.
Proof.
  unfold hosts_render_line. cbv zeta. set (r0 := match comment e with Some _ => _ | None => _ end).
  destruct (contains_any [LF; CR; NUL] r0) eqn:E; [done|].
  destruct (bool_decide _) eqn:Eb; [|done]. intros [= <-]. bool_to_prop. by split; [apply unbroken_ok|].
Qed.

(** A name or a comment that holds a line break or NUL is refused. *)
Lemma hosts_render_break e s c :
  s ∈ hostnames e ++ option_list (comment e) -> c ∈ s -> c ∈ [LF; CR; NUL] -> exists x, hosts_render_line e = Err x.
Proof.
  intros Hs Hc Hb. unfold hosts_render_line. cbv zeta.
  set (r := match comment e with Some _ => _ | None => _ end).
  assert (c ∈ r) as Hr; [|rewrite (breaks_raw c r Hb Hr); eauto].
  apply elem_of_app in Hs as [Hs|Hs].
  - pose proof (join_elem [SPACE] _ _ _ Hs Hc). unfold r. destruct (comment e); set_solver.
  - unfold r. destruct (comment e) as [cm|]; simpl in Hs; [|set_solver].
    apply list_elem_of_singleton in Hs as ->. destruct cm; [set_solver|]. cbn [is_empty]. set_solver.
Qed.

#[export] Instance hosts_format : LineFormat Entry := {
  lf_eq_dec := Entry_eq_dec;
  lf_classify := hosts_classify;
  lf_parse := parse_entry;
  lf_render := hosts_render_line;
  lf_comment := N.eqb HASH;
  lf_opens_section := fun _ => false;
  lf_texts := fun e => hostnames e ++ option_list (comment e);
  lf_classify_eq := hosts_classify_eq;
  lf_parse_cr := hosts_parse_cr;
  lf_render_ok := hosts_render_ok;
  lf_render_start := fun e r H => hosts_entry_start r e (proj2 (hosts_render_ok e r H));
  lf_render_break := hosts_render_break;
}.

#[export] Instance hosts_entries : EntryList Entry HostsModel := {
  of_entries := mkModel;
  entries_of := model_entries;
  entries_of_list := fun _ => eq_refl;
  list_of_entries := fun m => match m with mkModel _ => eq_refl end;
}.

#[export] Instance hosts_laws : ConfigModuleLaws HostsModule := line_laws hosts_validate hosts_defaults.

(** ** What validation accepts *)

Definition good_name (n : rstr) : Prop :=
  is_valid_hostname n = true /\ parse_ip n = None /\ zone_id_address n = None.

(** The key two entries may not share: canonical name and address family. *)
Definition canonical_key (e : Entry) : option (rstr * bool) :=
  match hostnames e with [] => None | n :: _ => Some (to_ascii_lowercase n, is_ipv6 (ip e)) end.

Record hosts_valid (m : HostsModel) : Prop := {
  hv_names : forall e, e ∈ model_entries m -> hostnames e <> [] /\ Forall good_name (hostnames e);
  hv_canonical : NoDup (omap canonical_key (model_entries m));
  hv_localhost : exists e, e ∈ model_entries m /\ is_localhost e = true;
  hv_loopback : forall e, e ∈ model_entries m ->
    is_localhost e || is_ipv6_alias e = true -> is_loopback (ip e) = true;
}.

Lemma validate_name_ok i j n : has_errors (validate_name i j n) = false <-> good_name n.
Proof.
  unfold validate_name, good_name.
  destruct (zone_id_address n); [simpl; naive_solver|].
  destruct (parse_ip n); [simpl; naive_solver|].
  destruct (is_valid_hostname n); simpl; naive_solver.
Qed.

Lemma validate_hostnames_ok i e :
  has_errors (validate_hostnames i e) = false <-> hostnames e <> [] /\ Forall good_name (hostnames e).
Proof.
  unfold validate_hostnames. rewrite has_errors_app, orb_false_iff.
  rewrite (has_errors_imap _ good_name) by (intros; apply validate_name_ok).
  destruct (hostnames e); simpl; naive_solver.
Qed.

Lemma canonical_uniqueness_ok i seen es :
  has_errors (canonical_uniqueness i seen es) = false
  <-> NoDup (omap canonical_key es) /\ forall k, k ∈ omap canonical_key es -> k ∉ seen.
Proof.
  revert i seen. induction es as [|e es IH]; intros i seen.
  - split; [|done]. intros _. split; [constructor|set_solver].
  - cbn [canonical_uniqueness omap list_omap]. 
    destruct (canonical_key e) as [key|] eqn:Ek; unfold canonical_key in Ek;
      destruct (hostnames e) as [|n ns]; simplify_eq; [|apply IH].
    set (key := (to_ascii_lowercase n, is_ipv6 (ip e))).
    destruct (bool_decide (key ∈ seen)) eqn:E; bool_to_prop.
    + split; [done|]. intros [_ H]. destruct (H key ltac:(set_solver)); done.
    + rewrite IH, NoDup_cons. split.
      * intros [Hnd Hs]. split_and!; [|done|set_solver]. intros Hin. apply (Hs _ Hin). set_solver.
      * intros [[Hni Hnd] Hs]. split; [done|]. intros k Hk [->|?]%elem_of_cons; [done|].
        by apply (Hs k); [set_solver|].
Qed.

Lemma families_no_errors m : has_errors (validate_address_families m) = false.
Proof.
  unfold validate_address_families. induction (all_names (model_entries m)) as [|n ns IH]; [done|].
  cbn [omap list_omap]. destruct (_ || _); [|exact IH]. exact IH.
Qed.

Lemma localhost_loop_ok es : forall i p v6 ds p' v6',
  localhost_loop i p v6 es = (ds, p', v6') ->
  p' = p || existsb is_localhost es
  /\ (has_errors ds = false <-> forall e, e ∈ es -> is_localhost e || is_ipv6_alias e = true -> is_loopback (ip e) = true).
Proof.
  induction es as [|e es IH]; intros i p v6 ds p' v6'; simpl.
  { intros [= <- <- <-]. rewrite orb_false_r. split; [done|]. split; [|done]. intros _ e He. set_solver. }
  destruct (negb (is_localhost e) && negb (is_ipv6_alias e)) eqn:E1.
  { bool_to_prop. intros [-> Hd]%IH. rewrite H. split; [done|]. rewrite Hd. split.
    - intros Hall e' [->|Hin]%elem_of_cons Hl; [by rewrite H, H0 in Hl|auto].
    - intros Hall e' Hin. apply Hall. set_solver. }
  destruct (is_loopback (ip e)) eqn:E2.
  { intros [-> Hd]%IH. rewrite orb_assoc. split; [done|]. rewrite Hd. split.
    - intros Hall e' [->|Hin]%elem_of_cons Hl; auto.
    - intros Hall e' Hin. apply Hall. set_solver. }
  destruct (localhost_loop _ _ _ es) as [[ds0 p0] v0] eqn:E3. intros [= <- <- <-].
  apply IH in E3 as [-> _]. rewrite orb_assoc. split; [done|]. simpl. split; [done|].
  intros Hall. specialize (Hall e ltac:(set_solver)). rewrite Hall in E2; [done|].
  rewrite <- negb_orb in E1. by apply negb_false_iff in E1.
Qed.

Lemma validate_localhost_ok m :
  has_errors (validate_localhost m) = false <->
  (exists e, e ∈ model_entries m /\ is_localhost e = true)
  /\ (forall e, e ∈ model_entries m -> is_localhost e || is_ipv6_alias e = true -> is_loopback (ip e) = true).
Proof.
  unfold validate_localhost. destruct (localhost_loop 0 false false (model_entries m)) as [[ds p] v6] eqn:E.
  apply localhost_loop_ok in E as [-> Hd]. rewrite !has_errors_app. simpl.
  rewrite !orb_false_iff, Hd.
  assert (existsb is_localhost (model_entries m) = true <-> exists e, e ∈ model_entries m /\ is_localhost e = true) as <-.
  { rewrite existsb_exists. by setoid_rewrite list_elem_of_In. }
  destruct (existsb _ _), v6; simpl; naive_solver.
Qed.

Lemma hosts_validate_ok m p : has_errors (hosts_validate m p) = false <-> hosts_valid m.
Proof.
  unfold hosts_validate. rewrite !has_errors_app, !orb_false_iff.
  rewrite (has_errors_imap _ (fun e => hostnames e <> [] /\ Forall good_name (hostnames e)))
    by (intros; apply validate_hostnames_ok).
  unfold validate_canonical_uniqueness.
  rewrite canonical_uniqueness_ok, validate_localhost_ok, Forall_forall.
  pose proof (families_no_errors m) as ->. split.
  - intros (Hn & (Hc & _) & _ & (Hl & Hlb) & _). by split.
  - intros [Hn Hc Hl Hlb]. split_and!; auto; [set_solver|]. by destruct (_ <? _).
Qed.

(** ** Defaults against validation *)

Definition default_name_ok (p : HostProfile) : Prop :=
  os p = Linux -> hostname p <> [] ->
  good_name (hostname p) /\ to_ascii_lowercase (hostname p) <> lit "localhost".

(** The entries that follow the host's own name on Linux. *)
Definition linux_rest : list Entry :=
  [entry LOCALHOST6 [lit "localhost"; lit "ip6-localhost"; lit "ip6-loopback"];
   entry IP6_ALLNODES [lit "ip6-allnodes"]; entry IP6_ALLROUTERS [lit "ip6-allrouters"]].

Lemma hosts_defaults_linux n :
  hosts_valid (mkModel (entry LOCALHOST4 [lit "localhost"] :: entry DEBIAN_HOSTNAME_IP [n] :: linux_rest))
  <-> good_name n /\ to_ascii_lowercase n <> lit "localhost".
Proof.
  assert (Hv : hosts_valid (mkModel (entry LOCALHOST4 [lit "localhost"] :: linux_rest))).
  { apply (hosts_validate_ok _ (mkProfile Linux Systemd [] ∅ 0)). by vm_compute. }
  destruct Hv as [Hn Hc Hl Hlb]. cbn [model_entries] in *. split.
  - intros [Hn' Hc' _ _]. cbn [model_entries] in *. split.
    + destruct (Hn' (entry DEBIAN_HOSTNAME_IP [n])) as [_ Hg]; [set_solver|]. by inversion Hg.
    + intros E. cbn [omap list_omap canonical_key entry hostnames ip] in Hc'.
      apply NoDup_cons in Hc' as [Hc' _]. apply Hc'. rewrite E. by left.
  - intros [Hg Hne]. split; cbn [model_entries].
    + intros e He. apply elem_of_cons in He as [->|[->|He]%elem_of_cons]; [|split; [done|by apply Forall_cons]|];
        apply Hn; set_solver.
    + cbn [omap list_omap canonical_key entry hostnames ip] in Hc |- *. apply NoDup_cons in Hc as [Hc1 Hc2].
      apply NoDup_cons. split; [|apply NoDup_cons; split; [|done]].
      * intros [E|?]%elem_of_cons; [|done]. apply Hne. by injection E.
      * assert (omap canonical_key linux_rest
          = [(lit "localhost", true); (lit "ip6-allnodes", true); (lit "ip6-allrouters", true)]) as -> by done.
        rewrite !elem_of_cons, elem_of_nil. intros He. destruct_or! He; try done; by injection He.
    + destruct Hl as (e & He & ?). exists e. set_solver.
    + intros e He Hloc. apply elem_of_cons in He as [->|[->|He]%elem_of_cons]; [done|done|].
      apply Hlb; [set_solver|done].
Qed.

Lemma hosts_defaults_ok p :
  has_errors (hosts_validate (hosts_defaults p) p) = false <-> default_name_ok p.
Proof.
  unfold default_name_ok, hosts_defaults. destruct (os p).
  - destruct (hostname p) as [|c h]; [split; [done|]; intros _; by vm_compute|].
    rewrite hosts_validate_ok. etransitivity; [apply (hosts_defaults_linux (c :: h))|]. naive_solver.
  - split; [done|]. intros _. by vm_compute.
  - split; [done|]. intros _. by vm_compute.
Qed.

(** ** Entries that always render *)

Lemma good_name_chars n x :
  good_name n -> x ∈ n -> is_ascii_alphanumeric x = true \/ x = HYPHEN \/ x = DOT.
Proof.
  intros [Hv _] Hx. unfold is_valid_hostname in Hv.
  destruct (_ || _); [done|]. rewrite forallb_forall in Hv.
  destruct (split_covers (N.eqb DOT) n x Hx) as [<-%N.eqb_eq|(piece & Hp & Hxp)]; [auto|].
  apply list_elem_of_In, Hv in Hp. unfold is_valid_label in Hp. bool_to_prop.
  rewrite forallb_forall in H0. apply list_elem_of_In, H0 in Hxp. bool_to_prop.
  destruct Hxp as [?|Hh]; [auto|]. apply N.eqb_eq in Hh. auto.
Qed.

Lemma good_name_nonempty n : good_name n -> n <> [].
Proof. intros [Hv _] ->. done. Qed.

Definition plain_char (x : rchar) : Prop :=
  is_whitespace x = false /\ x <> HASH /\ x <> LF /\ x <> CR /\ x <> NUL.

Lemma plain_alnum x :
  is_ascii_alphanumeric x = true \/ x = HYPHEN \/ x = DOT -> plain_char x.
Proof.
  intros [H|[->| ->]]; [|done..].
  assert (46 < x < 128)%N as Hx.
  { unfold is_ascii_alphanumeric, is_ascii_alphabetic, is_ascii_uppercase, is_ascii_lowercase, is_ascii_digit in H.
    apply orb_true_iff in H as [H|H]; [apply orb_true_iff in H as [H|H]|]; bool_to_prop; lia. }
  unfold plain_char. split; [|unfold HASH, LF, CR, NUL; lia].
  unfold is_whitespace. repeat (apply orb_false_iff; split);
    try (apply N.eqb_neq; lia); apply andb_false_iff; first [left; apply N.leb_gt; lia|right; apply N.leb_gt; lia].
Qed.

Lemma plain_digit x : is_ascii_digit x = true \/ x = DOT -> plain_char x.
Proof.
  intros H. apply plain_alnum. destruct H as [H| ->]; [|auto]. left.
  unfold is_ascii_alphanumeric. by rewrite H, orb_true_r.
Qed.

(** A comment [parse_entry] can read back: trimmed, on one line, no NUL. *)
Definition clean_comment (c : rstr) : Prop := trim c = c /\ LF ∉ c /\ CR ∉ c /\ NUL ∉ c.

Lemma contains_any_none r : LF ∉ r -> CR ∉ r -> NUL ∉ r -> contains_any [LF; CR; NUL] r = false.
Proof. intros H1 H2 H3. apply contains_false in H1, H2, H3. unfold contains_any. simpl. by rewrite H1, H2, H3. Qed.

Lemma join_plain words x :
  Forall (fun w => forall y, y ∈ w -> plain_char y) words -> x ∈ join [SPACE] words -> plain_char x \/ x = SPACE.
Proof.
  induction 1 as [|w words Hw Hws IH]; [set_solver|]. simpl. destruct words as [|w' words]; [auto|].
  rewrite elem_of_app, elem_of_cons. intros [Hx|[Hx|Hx]]; auto.
Qed.

Lemma parse_rendered a b c d names cm tail_ :
  octet a -> octet b -> octet c -> octet d ->
  names <> [] -> Forall good_name names ->
  (tail_ = [] /\ cm = None \/ exists t, tail_ = TAB :: HASH :: t /\ cm = Some (trim t)) ->
  parse_entry (show_ipv4 a b c d ++ TAB :: join [SPACE] names ++ tail_) = Some (mkEntry (V4 a b c d) names cm).
Proof.
  intros Ha Hb Hc Hd Hne Hg Ht.
  destruct (show_ipv4_chars a b c d Ha Hb Hc Hd) as [Hip (x0 & rest0 & Eip & Hx0)].
  assert (Hipp : forall x, x ∈ show_ipv4 a b c d -> plain_char x) by (intros x Hx; apply plain_digit; auto).
  assert (Hnp : Forall (fun w => forall y, y ∈ w -> plain_char y) names).
  { eapply Forall_impl; [exact Hg|]. intros n Hn y Hy. by eapply plain_alnum, good_name_chars. }
  assert (Hsplit : split_whitespace (join [SPACE] names) = names).
  { apply split_whitespace_join; [|done]. apply Forall_forall. intros n Hn. rewrite Forall_forall in Hg, Hnp.
    split; [by apply good_name_nonempty, Hg|]. intros y Hy. by destruct (Hnp n Hn y Hy). }
  set (fields := show_ipv4 a b c d ++ TAB :: join [SPACE] names).
  assert (Hfields : forall y, y ∈ fields -> (HASH =? y)%N = false).
  { intros y Hy. apply N.eqb_neq. intros <-. unfold fields in Hy.
    apply elem_of_app in Hy as [Hy|[Hy|Hy]%elem_of_cons]; [by apply Hipp in Hy as (_ & ? & _)|done|].
    apply join_plain in Hy as [(_ & ? & _)|Hy]; done. }
  assert (Hparse : forall rest, split_whitespace rest = names ->
    match split_once is_whitespace (trim_start (show_ipv4 a b c d ++ TAB :: rest)) with
    | Some (address, r) => parse_ip address = Some (V4 a b c d) /\ split_whitespace r = names
    | None => False end).
  { intros rest Hr. rewrite Eip. cbn [app]. rewrite trim_start_id by (apply plain_digit; auto).
    rewrite app_comm_cons, <- Eip. rewrite split_once_at; [|intros y Hy; by apply Hipp|done].
    split; [|done]. exact (parse_show_ipv4 a b c d Ha Hb Hc Hd). }
  assert (Hname : is_empty names = false) by (by destruct names).
  unfold parse_entry, split_comment. destruct Ht as [[-> ->]|(t & -> & ->)].
  - rewrite app_nil_r. fold fields. rewrite (proj2 (split_once_none _ _) Hfields).
    specialize (Hparse (join [SPACE] names) Hsplit). fold fields in Hparse.
    destruct (split_once _ (trim_start fields)) as [[address r]|]; [|done].
    destruct Hparse as [Hp Hs]. cbn [mbind option_bind]. rewrite Hp. cbn [mbind option_bind]. by rewrite Hs, Hname.
  - replace (show_ipv4 a b c d ++ TAB :: join [SPACE] names ++ TAB :: HASH :: t)
      with ((fields ++ [TAB]) ++ HASH :: t) by (unfold fields; by rewrite <- !app_assoc).
    rewrite split_once_at; [|intros y [Hy| ->%list_elem_of_singleton]%elem_of_app; [by apply Hfields|done]|by rewrite N.eqb_refl].
    specialize (Hparse (join [SPACE] names ++ [TAB])).
    rewrite split_whitespace_snoc in Hparse by done. specialize (Hparse Hsplit).
    replace (fields ++ [TAB]) with (show_ipv4 a b c d ++ TAB :: join [SPACE] names ++ [TAB]) by (unfold fields; by rewrite <- !app_assoc).
    destruct (split_once _ (trim_start _)) as [[address r]|]; [|done].
    destruct Hparse as [Hp Hs]. cbn [mbind option_bind]. rewrite Hp. cbn [mbind option_bind]. by rewrite Hs, Hname.
Qed.

Lemma hosts_render_total e a b c d :
  ip e = V4 a b c d -> octet a -> octet b -> octet c -> octet d ->
  hostnames e <> [] -> Forall good_name (hostnames e) ->
  (forall cm, comment e = Some cm -> clean_comment cm) ->
  exists r, hosts_render_line e = Ok r.
Proof.
  intros Hip Ha Hb Hc Hd Hne Hg Hcm. destruct e as [i names cm]; simpl in *. subst i.
  set (tail_ := match cm with
                | Some cm => TAB :: HASH :: (if is_empty cm then [] else SPACE :: cm) | None => [] end).
  assert (Hr : forall E, match cm with
     | Some cm' => (show_ipv4 a b c d ++ [TAB] ++ join [SPACE] names) ++ [TAB; HASH] ++ (if is_empty cm' then [] else SPACE :: cm')
     | None => show_ipv4 a b c d ++ [TAB] ++ join [SPACE] names end = E ->
     E = show_ipv4 a b c d ++ TAB :: join [SPACE] names ++ tail_).
  { intros E <-. unfold tail_. destruct cm; [|by rewrite app_nil_r]. by rewrite <- app_assoc. }
  unfold hosts_render_line. cbn [ip hostnames comment show_ip]. cbv zeta.
  rewrite (Hr _ eq_refl). clear Hr.
  destruct (show_ipv4_chars a b c d Ha Hb Hc Hd) as [Hip _].
  assert (Hplain : forall x, x ∈ show_ipv4 a b c d ++ TAB :: join [SPACE] names -> x <> LF /\ x <> CR /\ x <> NUL).
  { intros x Hx. assert (plain_char x \/ x = SPACE \/ x = TAB) as [(_ & _ & ?)|[->| ->]]; [|done..].
    apply elem_of_app in Hx as [Hx|[->|Hx]%elem_of_cons]; [left; by apply plain_digit, Hip|auto|].
    destruct (join_plain names x) as [?| ->]; auto.
    eapply Forall_impl; [exact Hg|]. intros n Hn y Hy. by eapply plain_alnum, good_name_chars. }
  assert (Htail : forall x, x ∈ [LF; CR; NUL] -> x ∉ tail_).
  { intros x Hx Ht. unfold tail_ in Ht. destruct cm as [cm|]; [|set_solver].
    destruct (Hcm cm eq_refl) as (_ & ? & ? & ?). destruct cm as [|y cm]; cbn [is_empty] in Ht.
    - rewrite !elem_of_cons in Hx, Ht. destruct_or! Hx; destruct_or! Ht; subst; set_solver.
    - rewrite !(elem_of_cons _ x) in Ht. rewrite !elem_of_cons in Hx. destruct_or! Hx; destruct_or! Ht; subst; try done; set_solver. }
  rewrite contains_any_none;
    [|intros Hx; rewrite app_comm_cons, app_assoc in Hx; apply elem_of_app in Hx as [Hx|Hx];
      [by destruct (Hplain _ Hx) as (? & ? & ?)|revert Hx; apply Htail; set_solver]..].
  rewrite bool_decide_true; [eauto|].
  apply parse_rendered; try done. unfold tail_. destruct cm as [cm|]; [|by left].
  right. eexists. split; [done|]. destruct (Hcm cm eq_refl) as [Ht _]. f_equal.
  destruct cm as [|y cm]; [done|]. cbn [is_empty]. rewrite <- Ht at 1. done.
Qed.

(** ** Properties *)

(** The hosts module keeps the documented module invariants on every
    text: rendering is lossless; applying the model of a file changes nothing;
    an accepted model is exactly the model of the edited file, whose text parses
    to the same document; and a model with a new name or comment that holds a
    line break or NUL is refused. *)
Theorem hosts_invariants (s : rstr) (m : HostsModel) :
  let doc := parse s hosts_classify in
  render doc = s
  /\ (forall m0, hosts_to_model doc = Ok m0 -> hosts_apply doc m0 = Ok (doc, mkReport 0 0 0))
  /\ (forall doc' r, hosts_apply doc m = Ok (doc', r) ->
        hosts_to_model doc' = Ok m /\ doc_eq (parse (render doc') hosts_classify) doc')
  /\ ((exists e, e ∈ model_entries m /\ e ∉ entries (lines doc) /\ breaks_line e) ->
        exists e, hosts_apply doc m = Err e).
Proof.
  cbv zeta. split_and!.
  - apply render_parse_lines.
  - intros m0 Hm. by apply (law_noop (M := HostsModule) s (parse s hosts_classify) m0).
  - intros doc' r Ha. split.
    + by apply (law_apply_model (M := HostsModule) s (parse s hosts_classify) m doc' r).
    + destruct (line_apply_exact (H := hosts_format) (H0 := hosts_entries) hosts_validate hosts_defaults s m doc' r Ha) as (_ & _ & Hr).
      destruct (reachable_wf _ lf_classify_cr _ Hr) as [Hwf _]. by apply parse_render.
  - intros Hb. by apply (law_no_break (M := HostsModule) s (parse s hosts_classify) m).
Qed.

Definition sample_entry : Entry := mkEntry (V4 10 0 0 1) [lit "nas"; lit "nas.lan"] (Some (lit "disk")).

Lemma hosts_invariants_witness :
  exists doc' r,
    hosts_apply (parse (lit "127.0.0.1 localhost # me") hosts_classify) (mkModel [sample_entry]) = Ok (doc', r)
    /\ hosts_to_model doc' = Ok (mkModel [sample_entry]).
Proof.
  destruct (is_ok_inv (hosts_apply (parse (lit "127.0.0.1 localhost # me") hosts_classify)
    (mkModel [sample_entry]))) as [[doc' r] E]; [vm_compute; reflexivity|].
  exists doc', r. split; [exact E|].
  exact (proj1 (proj1 (proj2 (proj2 (hosts_invariants (lit "127.0.0.1 localhost # me")
    (mkModel [sample_entry])))) doc' r E)).
Defined.

(** What [validate] accepts. It reports no error exactly when every entry
    has names, every name is an RFC 1123 host name and no address, no two
    entries of one address family share a canonical name (case ignored), some
    entry names [localhost], and every entry that names [localhost] or an IPv6
    alias of it has a loopback address. *)
Theorem hosts_validate_spec (m : HostsModel) (p : HostProfile) :
  has_errors (hosts_validate m p) = false <-> hosts_valid m.
Proof. apply hosts_validate_ok. Qed.

(** The default model passes the module's own validation exactly when, on
    Linux, the host's name is unknown, or is a valid name other than
    [localhost]. *)
Theorem hosts_defaults_validate (p : HostProfile) :
  has_errors (hosts_validate (hosts_defaults p) p) = false
  <-> (os p = Linux -> hostname p <> [] ->
       good_name (hostname p) /\ to_ascii_lowercase (hostname p) <> lit "localhost").
Proof. apply hosts_defaults_ok. Qed.

(** On a Linux host named [localhost] the defaults claim that name twice for
    IPv4 and validation reports an error. *)
Lemma hosts_defaults_localhost_rejected versions ram :
  has_errors (hosts_validate (hosts_defaults (mkProfile Linux Systemd (lit "localhost") versions ram))
                (mkProfile Linux Systemd (lit "localhost") versions ram)) = true.
Proof. by vm_compute. Qed.

(** An IPv4 entry whose names validate and whose comment is trimmed, on
    one line and without NUL always renders, so a valid model is never refused
    because of it. *)
Theorem hosts_valid_entry_renders (e : Entry) (a b c d : Z) :
  ip e = V4 a b c d -> octet a -> octet b -> octet c -> octet d ->
  hostnames e <> [] -> Forall good_name (hostnames e) ->
  (forall cm, comment e = Some cm -> clean_comment cm) ->
  exists r, hosts_render_line e = Ok r /\ parse_entry r = Some e /\ hosts_classify r = Directive.
Proof.
  intros Hip Ha Hb Hc Hd Hne Hg Hcm.
  destruct (hosts_render_total e a b c d Hip Ha Hb Hc Hd Hne Hg Hcm) as [r Hr].
  destruct (hosts_render_ok e r Hr) as [_ Hp]. exists r. split_and!; [done|done|].
  by apply (lf_classify_directive (H := hosts_format) r e); [|eapply hosts_entry_start].
Qed.

Lemma hosts_valid_entry_renders_witness :
  exists r, hosts_render_line sample_entry = Ok r /\ parse_entry r = Some sample_entry
    /\ hosts_classify r = Directive.
Proof.
  apply (hosts_valid_entry_renders sample_entry 10 0 0 1); try (unfold octet; lia); try discriminate.
  - reflexivity.
  - repeat constructor; vm_compute; reflexivity.
  - intros cm [= <-]. unfold clean_comment. rewrite <- !contains_false. vm_compute. repeat split.
Defined.

Lemma edit_entries_exact_witness :
  exists doc' r,
    edit_entries ec_parse ec_render ec_opens_section [sample_entry]
      (parse (lit "# top" ++ [LF] ++ lit "127.0.0.1 localhost") hosts_classify) = Ok (doc', r)
    /\ entries (lines doc') = [sample_entry] /\ r = mkReport 1 0 0.
Proof.
  destruct (is_ok_inv (edit_entries ec_parse ec_render ec_opens_section [sample_entry]
    (parse (lit "# top" ++ [LF] ++ lit "127.0.0.1 localhost") hosts_classify)))
    as [[doc' r] E]; [vm_compute; reflexivity|].
  exists doc', r. split; [exact E|].
  destruct (edit_entries_exact (H := line_codec (H := hosts_format)) [sample_entry] _ doc' r (reach_parse _ _) E) as (H1 & _ & H3 & _).
  split; [exact H1|]. rewrite H3. vm_compute. reflexivity.
Defined.

Lemma edit_entries_noop_witness :
  edit_entries ec_parse ec_render ec_opens_section
    (entries (lines (parse (lit "127.0.0.1 localhost") hosts_classify)))
    (parse (lit "127.0.0.1 localhost") hosts_classify)
  = Ok (parse (lit "127.0.0.1 localhost") hosts_classify, mkReport 0 0 0).
Proof. apply (edit_entries_noop (H := line_codec (H := hosts_format))). apply reach_parse. Defined.

Lemma dyn_roundtrip_witness :
  apply_json HostsModule Ok (lit "127.0.0.1 localhost")
    (mkModel [mkEntry LOCALHOST4 [lit "localhost"] None]) = Ok (lit "127.0.0.1 localhost").
Proof.
  apply (proj2 (dyn_roundtrip HostsModule Ok Ok ltac:(by intros m v [= ->]))). vm_compute. reflexivity.
Defined.
