(* ===== verification/Chrony.v ===== *)
(** * The [chrony] module: [crates/modules/chrony/src/lib.rs]

    [chrony.conf]: one directive a line, a key and the value up to the end of
    the line. *)

From Stdlib Require Import ZArith.
From stdpp Require Import gmap.
From S2P Require Import Prelude Align Str Num Doc DocEdit Ip Diag Version Config LineModule.

(** ** Model *)

Record Setting := mkSetting { key : rstr; value : rstr }.

#[export] Instance Setting_eq_dec : EqDecision Setting.
Proof. solve_decision. Defined.

Record ChronyModel := mkChrony { settings : list Setting }.
#[export] Instance ChronyModel_eq_dec : EqDecision ChronyModel.
Proof. solve_decision. Defined.

(** ** Parsing and rendering *)

Definition BARE_DIRECTIVES : list rstr :=
  [lit "manual"; lit "noclientlog"; lit "nosystemcert"; lit "rtconutc"; lit "rtcsync"].

Definition is_bare_directive (k : rstr) : bool := existsb (fun bare => eq_ignore_ascii_case bare k) BARE_DIRECTIVES.

Definition is_comment_char (c : rchar) : bool := contains c (lit "!;#%").

Definition parse_setting (r : rstr) : option Setting :=
  let trimmed := trim r in
  if is_empty trimmed || starts_where is_comment_char trimmed then None
  else match split_once is_whitespace trimmed with
       | None => if is_bare_directive trimmed then Some (mkSetting trimmed []) else None
       | Some (k, v) => Some (mkSetting k (trim_start v))
       end.

Definition chrony_classify (r : rstr) : LineKind :=
  if is_empty (trim r) then Blank
  else if starts_where is_comment_char (trim_start r) then Comment
  else match parse_setting r with Some _ => Directive | None => Unknown end.

Definition setting_line (s : Setting) : rstr :=
  if is_empty (value s) then key s else key s ++ [SPACE] ++ value s.

(** The message of the source also quotes the line with [{raw:?}]. *)
Definition chrony_roundtrip_message (r : rstr) : rstr :=
  lit "setting does not round-trip through the file format: " ++ r.

Definition chrony_render_line (s : Setting) : result EditError rstr :=
  let r := setting_line s in
  if contains_any [LF; CR; NUL] r then Err (LineBreakInValue r)
  else if bool_decide (parse_setting r = Some s) then Ok r
  else Err (Unsupported (chrony_roundtrip_message r)).

(** ** Validation *)

Definition PRIVILEGED_DIRECTIVE : MessageId := lit "chrony-privileged-directive".
Definition INVALID_KEY : MessageId := lit "chrony-invalid-key".
Definition DUPLICATE_KEY : MessageId := lit "chrony-duplicate-key".
Definition TOO_MANY_SETTINGS : MessageId := lit "chrony-too-many-settings".
Definition ALLOW_OPEN : MessageId := lit "chrony-allow-open".
Definition MISSING_MAKESTEP : MessageId := lit "chrony-missing-makestep".
Definition MISSING_RTCSYNC : MessageId := lit "chrony-missing-rtcsync".
Definition REC_NTS : MessageId := lit "chrony-rec-nts".
Definition CMDPORT_OPEN : MessageId := lit "chrony-cmdport-open".
Definition EXTERNAL_DIRECTIVE : MessageId := lit "chrony-external-directive".
Definition STOCK_INCLUDE : MessageId := lit "chrony-stock-include".

Definition STOCK_INCLUDES : list (rstr * rstr) :=
  [(lit "sourcedir", lit "/run/chrony-dhcp"); (lit "sourcedir", lit "/etc/chrony/sources.d");
   (lit "confdir", lit "/etc/chrony/conf.d")].

Definition DIRECTIVE_SINCE : list (rstr * rstr) :=
  [(lit "ntsdumpdir", lit "4.0"); (lit "ntsservercert", lit "4.0"); (lit "ntsserverkey", lit "4.0")].

Definition SETTING_COUNT_ADVICE_THRESHOLD : nat := 100.

(** [DESCRIPTOR.upstream.project]. *)
Definition CHRONY_PROJECT : rstr := lit "chrony".

Definition is_valid_key (k : rstr) : bool :=
  negb (is_empty k) && starts_where is_ascii_alphabetic k && forallb is_ascii_alphanumeric k.

Definition settings_path (index : nat) (name : rstr) : FieldPath :=
  lit "settings/" ++ show_nat index ++ lit "/" ++ name.

Definition directive_since (k : rstr) : option rstr :=
  snd <$> find (fun row => eq_ignore_ascii_case k (fst row)) DIRECTIVE_SINCE.

Definition validate_since (item : Setting) (index : nat) (profile : HostProfile) : Diagnostics :=
  match directive_since (key item) with
  | Some since =>
      option_list (since_diagnostic profile CHRONY_PROJECT (key item) since (settings_path index (lit "key")))
  | None => []
  end.

Definition stock_include (item : Setting) : bool :=
  existsb (fun row => bool_decide (key item = fst row) && bool_decide (value item = snd row)) STOCK_INCLUDES.

Definition external_directive (item : Setting) : bool :=
  existsb (eq_ignore_ascii_case (key item))
    [lit "include"; lit "includedir"; lit "confdir"; lit "sourcedir"; lit "script"].

Definition validate_include (item : Setting) (index : nat) : Diagnostics :=
  if stock_include item
  then [with_arg (lit "value") (value item) (with_arg (lit "key") (key item)
          (with_field (settings_path index (lit "key")) (new_diagnostic Warning STOCK_INCLUDE)))]
  else if external_directive item
  then [with_arg (lit "key") (key item)
          (with_field (settings_path index (lit "key")) (new_diagnostic Error EXTERNAL_DIRECTIVE))]
  else [].

Definition has_key (m : ChronyModel) (k : rstr) : bool :=
  existsb (fun item => eq_ignore_ascii_case (key item) k) (settings m).

Definition first_word (v : rstr) : rstr := default [] (head (split_whitespace v)).

(** One round of the loop of [validate]; [seen] are the lower-case keys before. *)
Definition validate_setting (profile : HostProfile) (index : nat) (seen : list rstr) (item : Setting) : Diagnostics :=
  let finding sev id field k v :=
    with_arg k v (with_field (settings_path index field) (new_diagnostic sev id)) in
  (if is_valid_key (key item) then [] else [finding Error INVALID_KEY (lit "key") (lit "key") (key item)])
  ++ validate_include item index
  ++ validate_since item index profile
  ++ (if existsb (eq_ignore_ascii_case (key item)) [lit "pidfile"; lit "user"]
      then [finding Warning PRIVILEGED_DIRECTIVE (lit "key") (lit "key") (key item)] else [])
  ++ (if bool_decide (to_ascii_lowercase (key item) ∈ seen)
      then [finding Warning DUPLICATE_KEY (lit "key") (lit "key") (key item)] else [])
  ++ (if eq_ignore_ascii_case (key item) (lit "allow") && existsb (fun v => bool_decide (value item = v)) [lit "0.0.0.0/0"; lit "::/0"]
      then [finding Warning ALLOW_OPEN (lit "value") (lit "value") (value item)] else [])
  ++ (if eq_ignore_ascii_case (key item) (lit "pool")
         && negb (existsb (fun word => eq_ignore_ascii_case word (lit "nts")) (split_whitespace (value item)))
      then [finding Recommendation REC_NTS (lit "value") (lit "pool") (first_word (value item))] else [])
  ++ (if eq_ignore_ascii_case (key item) (lit "cmdport")
         && match head (split_whitespace (value item)) ≫= parse_unsigned 16 with
            | Some port => negb (port =? 0)%Z | None => false end
      then [finding Recommendation CMDPORT_OPEN (lit "value") (lit "port") (first_word (value item))] else []).

Fixpoint validate_settings (profile : HostProfile) (index : nat) (seen : list rstr) (items : list Setting) : Diagnostics :=
  match items with
  | [] => []
  | item :: items =>
      validate_setting profile index seen item
      ++ validate_settings profile (S index) (to_ascii_lowercase (key item) :: seen) items
  end.

Definition chrony_validate (m : ChronyModel) (profile : HostProfile) : Diagnostics :=
  validate_settings profile 0 [] (settings m)
  ++ concat ((fun '(k, id) => if has_key m k then [] else [with_field (lit "settings") (new_diagnostic Recommendation id)])
       <$> [(lit "makestep", MISSING_MAKESTEP); (lit "rtcsync", MISSING_RTCSYNC)])
  ++ (if SETTING_COUNT_ADVICE_THRESHOLD <? length (settings m)
      then [with_arg (lit "count") (show_nat (length (settings m)))
              (with_field (lit "settings") (new_diagnostic Recommendation TOO_MANY_SETTINGS))]
      else []).

(** ** Defaults *)

Definition default_settings : list Setting :=
  [mkSetting (lit "pool") (lit "time.cloudflare.com iburst nts"); mkSetting (lit "makestep") (lit "1 3");
   mkSetting (lit "rtcsync") []; mkSetting (lit "cmdport") (lit "0")].

Definition chrony_defaults (profile : HostProfile) : ChronyModel :=
  mkChrony match os profile with Linux | MacOs | OtherOs => default_settings end.

(** ** The module *)

Definition chrony_parse (src : rstr) : result ParseError Document := Ok (parse src chrony_classify).

Definition chrony_to_model (doc : Document) : result ModelError ChronyModel :=
  Ok (mkChrony (omap (fun l => parse_setting (raw l)) (lines_of_kind Directive doc))).

Definition chrony_apply (doc : Document) (m : ChronyModel) : result EditError (Document * EditReport) :=
  edit_entries parse_setting chrony_render_line (fun _ => false) (settings m) doc.

#[export] Instance ChronyModule : ConfigModule := {
  Doc := Document;
  Model := ChronyModel;
  cm_parse := chrony_parse;
  cm_render := render;
  cm_to_model := chrony_to_model;
  cm_apply := chrony_apply;
  cm_validate := chrony_validate;
  cm_defaults := chrony_defaults;
  cm_model_target := fun _ => Ok None;
}.

(** ** What a line parses to *)

(** A setting that a line of the file can carry. *)
Record carried (s : Setting) : Prop := {
  cr_key : key s <> [];
  cr_word : forall c, c ∈ key s -> is_whitespace c = false;
  cr_start : starts_where is_comment_char (key s) = false;
  cr_value : trimmed (value s);
  cr_bare : value s = [] -> is_bare_directive (key s) = true;
}.

(** The trimmed line of a setting, with the whitespace it may have between key and value. *)
Definition spaced (s : Setting) (t : rstr) : Prop :=
  (value s = [] /\ t = key s)
  \/ (value s <> [] /\ exists ws, ws <> [] /\ (forall c, c ∈ ws -> is_whitespace c = true) /\ t = key s ++ ws ++ value s).

Lemma word_head (k t : rstr) : k <> [] -> head (k ++ t) = head k.
Proof. by destruct k. Qed.

Lemma starts_where_head p (a b : rstr) : head a = head b -> starts_where p a = starts_where p b.
Proof. destruct a, b; naive_solver. Qed.

Lemma parse_setting_carried r s : parse_setting r = Some s -> carried s /\ spaced s (trim r).
Proof.
  unfold parse_setting. cbv zeta. pose proof (trim_trimmed r) as [Hh Hl]. set (t := trim r) in *. clearbody t.
  destruct (is_empty t) eqn:Et; [done|]. cbn [orb].
  destruct (starts_where is_comment_char t) eqn:Ec; [done|].
  destruct (split_once is_whitespace t) as [[k v]|] eqn:E.
  - apply split_once_app in E as (x & -> & Hx & Hk). intros [= <-].
    assert (k <> []) as Hne by (intros ->; specialize (Hh x eq_refl); congruence).
    destruct (trim_start_suffix v) as (ws & Hv & Hws).
    assert (trim_start v <> []) as Hve.
    { intros E. rewrite E, app_nil_r in Hv. subst v.
      destruct ws as [|y ws _] using rev_ind.
      - specialize (Hl x). rewrite last_snoc in Hl. rewrite Hl in Hx; done.
      - specialize (Hl y). rewrite app_comm_cons, app_assoc, last_snoc in Hl.
        rewrite (Hws y) in Hl by set_solver. by discriminate Hl. }
    split; [split; cbn [key value]; try done|].
    + rewrite <- Ec. by apply starts_where_head; rewrite word_head.
    + split; [intros c; apply trim_start_head|]. intros c Hc. apply Hl. rewrite Hv.
      destruct (trim_start v) as [|y u] eqn:Eu; [done|].
      by rewrite app_comm_cons, app_assoc, last_app_cons.
    + right. split; [done|]. exists (x :: ws). split; [done|]. cbn [key value].
      split; [intros c [->|?]%elem_of_cons; auto|]. by rewrite Hv at 1.
  - destruct (is_bare_directive t) eqn:Eb; [|done]. intros [= <-].
    pose proof (proj1 (split_once_none _ _) E) as Hk.
    split; [split; cbn [key value]; try done|by left]. by destruct t.
Qed.

Lemma parse_spaced r s : carried s -> spaced s r -> parse_setting r = Some s.
Proof.
  unfold spaced. intros [Hk Hw Hs [Hvh Hvl] Hb] Hr. destruct s as [k v]; cbn [key value] in *.
  assert (forall c, head k = Some c -> is_whitespace c = false) as Hkh.
  { intros c Hc. apply Hw. destruct k; simplify_eq/=. by left. }
  unfold parse_setting. cbv zeta. destruct Hr as [[-> ->]|(Hv & ws & Hws & Hall & ->)]; cbn [key value] in *.
  - rewrite trimmed_trim; [|split; [done|]; intros c [k' ->]%last_Some; apply Hw; set_solver].
    rewrite Hs. replace (is_empty k) with false by (by destruct k). cbn [orb].
    rewrite (proj2 (split_once_none _ _)) by done. by rewrite Hb.
  - rewrite trimmed_trim.
    2: { split; [rewrite word_head by done; done|]. intros c. destruct v as [|y v]; [done|].
         rewrite app_assoc, last_app_cons. apply Hvl. }
    rewrite (starts_where_head _ _ k), Hs by (by apply word_head).
    replace (is_empty (k ++ ws ++ v)) with false by (by destruct k). cbn [orb].
    destruct ws as [|x ws]; [done|]. cbn [app]. rewrite split_once_at; [|done|apply Hall; by left].
    do 2 f_equal. clear Hws. induction ws as [|y ws IH]; cbn [app]; [by apply trim_start_trimmed|].
    unfold trim_start, trim_start_matches. cbn [drop_while]. rewrite (Hall y) by set_solver. apply IH. set_solver.
Qed.

Lemma setting_line_spaced s : carried s -> spaced s (setting_line s).
Proof.
  intros Hc. unfold setting_line. destruct (value s) as [|x v] eqn:E; [by left|right].
  rewrite E. split; [done|]. exists [SPACE]. split; [done|]. split; [|done]. by intros c ->%list_elem_of_singleton.
Qed.

Lemma parse_setting_cr : cr_stable parse_setting.
Proof. intros r. unfold parse_setting. by rewrite trim_snoc. Qed.

Lemma parse_setting_start r s : parse_setting r = Some s -> exists c t, trim_start r = c :: t /\ is_comment_char c = false.
Proof.
  unfold parse_setting. cbv zeta. pose proof (trim_head r) as Hh.
  destruct (trim r) as [|x t]; [done|]. cbn [is_empty orb starts_where].
  destruct (is_comment_char x) eqn:Ex; [done|]. intros _. cbn [head] in Hh.
  destruct (trim_start r) as [|y u]; [done|]. injection Hh as ->. eauto.
Qed.

Lemma chrony_render_ok s r : chrony_render_line s = Ok r -> check_raw r = Ok () /\ parse_setting r = Some s.
Proof.
  unfold chrony_render_line. cbv zeta. destruct (contains_any _ _) eqn:E; [done|].
  destruct (bool_decide _) eqn:Eb; [|done]. intros [= <-]. bool_to_prop. by split; [apply unbroken_ok|].
Qed.

Lemma setting_line_texts s c : (exists x, x ∈ [key s; value s] /\ c ∈ x) -> c ∈ setting_line s.
Proof.
  unfold setting_line. intros (x & [->|Hx%list_elem_of_singleton]%elem_of_cons & Hc);
    destruct (value s) as [|y v]; cbn [is_empty]; subst; set_solver.
Qed.

Lemma setting_line_chars s c : c ∈ setting_line s -> c = SPACE \/ c ∈ key s ++ value s.
Proof. unfold setting_line. destruct (value s); cbn [is_empty]; set_solver. Qed.

Lemma chrony_render_break e s c :
  s ∈ [key e; value e] -> c ∈ s -> c ∈ [LF; CR; NUL] -> exists x, chrony_render_line e = Err x.
Proof.
  intros Hs Hc Hb. unfold chrony_render_line. cbv zeta.
  rewrite (breaks_raw c) by (try apply setting_line_texts; eauto). eauto.
Qed.

#[export] Instance chrony_format : LineFormat Setting := {
  lf_eq_dec := Setting_eq_dec;
  lf_classify := chrony_classify;
  lf_parse := parse_setting;
  lf_render := chrony_render_line;
  lf_comment := is_comment_char;
  lf_opens_section := fun _ => false;
  lf_texts := fun s => [key s; value s];
  lf_classify_eq := fun _ => eq_refl;
  lf_parse_cr := parse_setting_cr;
  lf_render_ok := chrony_render_ok;
  lf_render_start := fun e r H => parse_setting_start r e (proj2 (chrony_render_ok e r H));
  lf_render_break := chrony_render_break;
}.

#[export] Instance chrony_entries : EntryList Setting ChronyModel := {
  of_entries := mkChrony;
  entries_of := settings;
  entries_of_list := fun _ => eq_refl;
  list_of_entries := fun m => match m with mkChrony _ => eq_refl end;
}.

#[export] Instance chrony_laws : ConfigModuleLaws ChronyModule := line_laws chrony_validate chrony_defaults.

(** ** What validation accepts *)

Record setting_ok (profile : HostProfile) (s : Setting) : Prop := {
  so_key : is_valid_key (key s) = true;
  so_external : external_directive s = true -> stock_include s = true;
  so_since : forall since, directive_since (key s) = Some since -> ~ too_old profile CHRONY_PROJECT since;
}.

Lemma validate_setting_ok profile index seen s :
  has_errors (validate_setting profile index seen s) = false <-> setting_ok profile s.
Proof.
  unfold validate_setting. cbv zeta. rewrite !has_errors_app, !orb_false_iff.
  assert (has_errors (validate_since s index profile) = false
    <-> forall since, directive_since (key s) = Some since -> ~ too_old profile CHRONY_PROJECT since) as ->.
  { unfold validate_since. destruct (directive_since (key s)) as [since|]; [|naive_solver].
    rewrite since_finding_ok. naive_solver. }
  assert (has_errors (validate_include s index) = false <-> (external_directive s = true -> stock_include s = true)) as ->.
  { unfold validate_include. destruct (stock_include s); [naive_solver|]. destruct (external_directive s); simpl; naive_solver. }
  destruct (is_valid_key (key s)) eqn:Ek.
  - split; [intros (_ & ? & ? & _); by split|]. intros [_ ? ?].
    repeat split; try done; by case_match.
  - split; [by intros [? _]|by intros [? _ _]; congruence].
Qed.

Lemma validate_settings_ok profile index seen items :
  has_errors (validate_settings profile index seen items) = false <-> Forall (setting_ok profile) items.
Proof.
  revert index seen. induction items as [|s items IH]; intros index seen; cbn [validate_settings].
  - split; [constructor|done].
  - by rewrite has_errors_app, orb_false_iff, validate_setting_ok, IH, Forall_cons.
Qed.

Lemma chrony_validate_ok m profile :
  has_errors (chrony_validate m profile) = false <-> Forall (setting_ok profile) (settings m).
Proof.
  unfold chrony_validate. rewrite !has_errors_app, !orb_false_iff, validate_settings_ok.
  split; [by intros [? _]|]. intros H. split; [done|]. cbn [fmap list_fmap].
  split; [|by case_match]. destruct (has_key m (lit "makestep")), (has_key m (lit "rtcsync")); done.
Qed.

(** ** Properties *)

(** What the chrony module can write. A setting is rendered exactly when
    its key is one word that starts no comment, its value is trimmed, an empty
    value belongs to a valueless directive, and neither holds a line break or
    NUL; the line is then the key and, after one space, the value. Everything
    else is refused, and a value that would break out of its line is refused as
    such. *)
Theorem chrony_writable (s : Setting) (r : rstr) :
  (chrony_render_line s = Ok r <->
     r = setting_line s /\ carried s /\ forall c, c ∈ key s ++ value s -> c ∉ [LF; CR; NUL])
  /\ ((exists c, c ∈ key s ++ value s /\ c ∈ [LF; CR; NUL]) ->
        chrony_render_line s = Err (LineBreakInValue (setting_line s))).
Proof.
  assert (forall c, c ∈ key s ++ value s -> c ∈ [LF; CR; NUL] -> contains_any [LF; CR; NUL] (setting_line s) = true) as Hbreak.
  { intros c Hc Hb. apply (breaks_raw c); [done|]. apply setting_line_texts.
    apply elem_of_app in Hc as [Hc|Hc]; [exists (key s)|exists (value s)]; set_solver. }
  split; [split|].
  - intros H. pose proof (chrony_render_ok _ _ H) as [_ [Hc _]%parse_setting_carried].
    unfold chrony_render_line in H. cbv zeta in H. destruct (contains_any _ _) eqn:E; [done|].
    split_and!; [by case_bool_decide; simplify_eq|done|]. intros c Hin Hb. by specialize (Hbreak c Hin Hb).
  - intros (-> & Hc & Hn). unfold chrony_render_line. cbv zeta.
    assert (contains_any [LF; CR; NUL] (setting_line s) = false) as ->.
    { apply contains_any_false. intros c [->|Hin]%setting_line_chars; [|by apply Hn]. by rewrite !elem_of_cons, elem_of_nil; intros [?|[?|[?|?]]]. }
    by rewrite bool_decide_true by (by apply parse_spaced, setting_line_spaced).
  - intros (c & Hc & Hb). unfold chrony_render_line. cbv zeta. by rewrite (Hbreak c).
Qed.

(** What chrony validation accepts: no error exactly when every key is a
    directive name, every directive that loads other files or runs a program is
    one of the stock include lines, and no directive needs a newer [chronyd]
    than the one known to be installed. The default settings pass on every
    host. *)
Theorem chrony_validate_spec (m : ChronyModel) (profile : HostProfile) :
  (has_errors (chrony_validate m profile) = false <-> Forall (setting_ok profile) (settings m))
  /\ has_errors (chrony_validate (chrony_defaults profile) profile) = false.
Proof.
  split; [apply chrony_validate_ok|]. apply chrony_validate_ok. unfold chrony_defaults. cbn [settings].
  replace (match os profile with Linux | MacOs | OtherOs => default_settings end) with default_settings by (by destruct (os profile)).
  repeat constructor; try done; intros since [=].
Qed.
