(* ===== verification/AuthErr.v ===== *)
(** * Authentication failures

    [AuthError] of [crates/detent-web/src/auth/mod.rs], the message a client is
    shown for each and the HTTP status it answers with. The library errors some
    variants wrap are dropped: nothing here reads them. Then the constant-time
    comparison of [auth/secret.rs]: its answer, not its time. *)

From Stdlib Require Import ZArith.
From S2P Require Import Prelude Str Doc Diag.

Inductive AuthError :=
| Entropy | Params | Hash
| NameInvalid (name : rstr)
| PasswordTooShort | PasswordTooLong | PasswordUnchanged | PasswordChangeRequired
| StepUpRequired
| UserExists | UnknownUser
| InvalidCredentials | TotpReplayed
| RateLimited (retry_after_secs : Z)
| SessionLimit | Busy
| Unauthenticated | AmbiguousCredentials | CsrfRejected
| UnknownToken | UnknownSession | TokenLimit | TokenLabelInvalid | TokenExpiryInvalid | TokenTotpRequired
| TotpSecretInvalid | TotpEnrolled | TotpNotEnrolled | TotpNoPending | TotpRequired
| StoreRead (path : rstr) | StorePrepare (path : rstr) | StoreWrite (path : rstr)
| StoreMalformed (path : rstr).

#[export] Instance AuthError_eq_dec : EqDecision AuthError.
Proof. solve_decision. Defined.

Definition message_id (e : AuthError) : MessageId :=
  match e with
  | Entropy => lit "web-auth-entropy-unavailable"
  | Params => lit "web-auth-argon2-params"
  | Hash => lit "web-auth-hash-failed"
  | NameInvalid _ => lit "web-auth-user-name-invalid"
  | PasswordTooShort => lit "web-auth-password-too-short"
  | PasswordTooLong => lit "web-auth-password-too-long"
  | PasswordUnchanged => lit "web-auth-password-unchanged"
  | PasswordChangeRequired => lit "web-auth-password-change-required"
  | StepUpRequired => lit "web-auth-step-up-required"
  | UserExists => lit "web-auth-user-exists"
  | UnknownUser => lit "web-auth-user-unknown"
  | InvalidCredentials | TotpReplayed => lit "web-auth-invalid-credentials"
  | RateLimited _ => lit "web-auth-rate-limited"
  | SessionLimit => lit "web-auth-session-limit"
  | Busy => lit "web-auth-busy"
  | Unauthenticated => lit "web-auth-unauthenticated"
  | AmbiguousCredentials => lit "web-auth-ambiguous-credentials"
  | CsrfRejected => lit "web-auth-csrf-rejected"
  | UnknownToken => lit "web-auth-token-unknown"
  | UnknownSession => lit "web-auth-session-unknown"
  | TokenLimit => lit "web-auth-token-limit"
  | TokenLabelInvalid => lit "web-auth-token-label-invalid"
  | TokenExpiryInvalid => lit "web-auth-token-expiry-invalid"
  | TokenTotpRequired => lit "web-auth-token-totp-required"
  | TotpSecretInvalid => lit "web-auth-totp-secret-invalid"
  | TotpEnrolled => lit "web-auth-totp-enrolled"
  | TotpNotEnrolled => lit "web-auth-totp-not-enrolled"
  | TotpNoPending => lit "web-auth-totp-no-pending"
  | TotpRequired => lit "web-auth-totp-required"
  | StoreRead _ => lit "web-auth-store-unreadable"
  | StorePrepare _ => lit "web-auth-store-unwritable"
  | StoreWrite _ => lit "web-auth-store-write-failed"
  | StoreMalformed _ => lit "web-auth-store-malformed"
  end.

Definition status (e : AuthError) : nat :=
  match e with
  | InvalidCredentials | TotpReplayed | Unauthenticated => 401
  | RateLimited _ => 429
  | SessionLimit | Busy => 503
  | CsrfRejected | PasswordChangeRequired | StepUpRequired | TokenTotpRequired => 403
  | UserExists | TokenLimit | TotpEnrolled | TotpNotEnrolled | TotpNoPending | TotpRequired => 409
  | UnknownUser | UnknownToken | UnknownSession => 404
  | NameInvalid _ | PasswordTooShort | PasswordTooLong | PasswordUnchanged | AmbiguousCredentials
  | TokenLabelInvalid | TokenExpiryInvalid | TotpSecretInvalid | StoreMalformed _ => 400
  | Entropy | Params | Hash | StoreRead _ | StorePrepare _ | StoreWrite _ => 500
  end.

(** ** Secrets *)

(** [Secret::ct_eq]: equal length and equal bytes. *)
Definition ct_eq (ours theirs : rstr) : bool := bool_decide (ours = theirs).

Lemma ct_eq_true a b : ct_eq a b = true <-> a = b.
Proof. apply bool_decide_eq_true. Qed.

Lemma ct_eq_false a b : ct_eq a b = false <-> a <> b.
Proof. apply bool_decide_eq_false. Qed.
