(* ===== verification/Time.v ===== *)
(** * Rust's clock, durations, locks and hash maps

    [Instant] and [Duration] are counts of nanoseconds in [Z] with the bounds of
    the types written out; a [Mutex] is an option that is [None] once poisoned; a
    [HashMap] is a finite map together with the order its iterator visits, which
    the standard library leaves unspecified. *)

From Stdlib Require Import ZArith.
From stdpp Require Import gmap.
From S2P Require Import Prelude Str Num Ip.
#[local] Open Scope Z_scope.

Abbreviation Instant := Z.
Abbreviation Duration := Z.

Definition NANOS : Z := 1000000000.
(** [Duration::MAX]: [u64::MAX] seconds and 999_999_999 ns. *)
Definition DURATION_MAX : Duration := (2 ^ 64 - 1) * NANOS + (NANOS - 1).
(** The last representable instant: [i64::MAX] seconds and 999_999_999 ns. *)
Definition INSTANT_MAX : Instant := (2 ^ 63 - 1) * NANOS + (NANOS - 1).

Definition from_secs (s : Z) : Duration := s * NANOS.
Definition from_mins (m : Z) : Duration := from_secs (m * 60).
Definition from_hours (h : Z) : Duration := from_mins (h * 60).
Definition as_secs (d : Duration) : Z := d / NANOS.
Definition subsec_nanos (d : Duration) : Z := d mod NANOS.

Definition duration_checked (d : Z) : option Duration := if d <=? DURATION_MAX then Some d else None.
Definition instant_checked_add (t : Instant) (d : Duration) : option Instant :=
  if t + d <=? INSTANT_MAX then Some (t + d) else None.
Definition saturating_duration_since (later earlier : Instant) : Duration := Z.max 0 (later - earlier).

(** Whole seconds, rounded up. *)
Definition ceil_secs (d : Duration) : Z :=
  if 0 <? subsec_nanos d then saturating_add 64 (as_secs d) 1 else as_secs d.

Lemma ceil_secs_bounds d : 0 < d <= DURATION_MAX -> 1 <= ceil_secs d <= max_of 64.
Proof.
  unfold ceil_secs, subsec_nanos, as_secs, saturating_add, max_of, DURATION_MAX, NANOS. intros H.
  pose proof (Z.div_mod d 1000000000). pose proof (Z.mod_pos_bound d 1000000000).
  destruct (0 <? d mod 1000000000) eqn:E; bool_to_prop; lia.
Qed.

(** Rounding up never tells a caller to come back too early. *)
Lemma ceil_secs_covers d : 0 <= d < from_secs (max_of 64) -> d <= from_secs (ceil_secs d) < d + NANOS.
Proof.
  unfold ceil_secs, subsec_nanos, as_secs, saturating_add, from_secs, max_of, NANOS. intros H.
  pose proof (Z.div_mod d 1000000000). pose proof (Z.mod_pos_bound d 1000000000).
  destruct (0 <? d mod 1000000000) eqn:E; bool_to_prop; lia.
Qed.

(** ** [Mutex] *)

Definition Mutex (A : Type) : Type := option A.

(** ** [HashMap] iteration *)

Class Iteration (K V : Type) `{Countable K} := {
  iter : gmap K V -> list (K * V);
  iter_perm : forall m, iter m ≡ₚ map_to_list m;
}.

Definition canonical_iteration K V `{Countable K} : Iteration K V :=
  {| iter := map_to_list; iter_perm := fun m => Permutation_refl _ |}.

(** [Iterator::min_by_key]: the first of the minimal elements. *)
Fixpoint min_from {A} (key : A -> Z) (best : A) (l : list A) : A :=
  match l with
  | [] => best
  | x :: l' => min_from key (if key x <? key best then x else best) l'
  end.

Definition min_by_key {A} (key : A -> Z) (l : list A) : option A :=
  match l with [] => None | x :: l' => Some (min_from key x l') end.

Lemma min_from_spec {A} (key : A -> Z) l best :
  (min_from key best l = best \/ min_from key best l ∈ l)
  /\ key (min_from key best l) <= key best /\ Forall (fun y => key (min_from key best l) <= key y) l.
Proof.
  revert best. induction l as [|x l IH]; intros best; simpl; [split_and!; auto; lia|].
  destruct (IH (if key x <? key best then x else best)) as (H1 & H2 & H3).
  rewrite elem_of_cons, Forall_cons.
  destruct (key x <? key best) eqn:E; bool_to_prop; naive_solver lia.
Qed.

Section Oldest.
Context `{Countable K} {V : Type} `{!Iteration K V}.

Definition oldest (key : V -> Z) (m : gmap K V) : option K :=
  fst <$> min_by_key (fun p => key p.2) (iter m).

(** Remove the entry with the least key, if there is one. *)
Definition evict_oldest (key : V -> Z) (m : gmap K V) : gmap K V :=
  match oldest key m with Some k => delete k m | None => m end.

Lemma elem_of_iter (m : gmap K V) k v : (k, v) ∈ iter m <-> m !! k = Some v.
Proof. rewrite iter_perm. apply elem_of_map_to_list. Qed.

Lemma oldest_spec key (m : gmap K V) k : oldest key m = Some k ->
  exists v, m !! k = Some v /\ map_Forall (fun _ w => key v <= key w) m.
Proof.
  unfold oldest, min_by_key. destruct (iter m) as [|x l] eqn:E; [done|]. simpl. intros [= <-].
  destruct (min_from_spec (fun p : K * V => key p.2) l x) as (H1 & H2 & H3).
  set (y := min_from _ _ _) in *. exists y.2. split.
  - apply elem_of_iter. rewrite E, <- surjective_pairing. destruct H1 as [->|?]; [left|by right].
  - intros k w Hw%elem_of_iter. rewrite E in Hw. apply elem_of_cons in Hw as [<-|Hw]; [done|].
    rewrite Forall_forall in H3. apply (H3 _ Hw).
Qed.

Lemma oldest_none key (m : gmap K V) : oldest key m = None <-> m = ∅.
Proof.
  unfold oldest, min_by_key. split.
  - destruct (iter m) as [|x l] eqn:E; [|done]. intros _. apply map_to_list_empty_iff.
    apply Permutation_nil. by rewrite <- E, iter_perm.
  - intros ->. destruct (iter ∅) as [|x l] eqn:E; [done|].
    pose proof (iter_perm (∅ : gmap K V)) as P. rewrite E, map_to_list_empty in P.
    symmetry in P. by apply Permutation_nil in P.
Qed.

Lemma evict_oldest_size key (m : gmap K V) : size (evict_oldest key m) = (size m - 1)%nat.
Proof.
  unfold evict_oldest. destruct (oldest key m) as [k|] eqn:E.
  - apply oldest_spec in E as (v & Hv & _). rewrite map_size_delete_Some by eauto. lia.
  - apply oldest_none in E. subst. by rewrite map_size_empty.
Qed.

Lemma evict_oldest_subseteq key (m : gmap K V) : evict_oldest key m ⊆ m.
Proof. unfold evict_oldest. destruct (oldest key m); [apply delete_subseteq|done]. Qed.

End Oldest.

Lemma map_size_insert_le {K A} `{Countable K} (m : gmap K A) k x :
  (size (<[k := x]> m) <= S (size m))%nat.
Proof.
  destruct (m !! k) eqn:E; [rewrite map_size_insert_Some by eauto|rewrite map_size_insert_None by done]; lia.
Qed.

(** ** Keys *)

#[export] Instance IpAddr_countable : Countable IpAddr.
Proof.
  refine (inj_countable'
    (fun a => match a with V4 a b c d => inl (a, b, c, d) | V6 s => inr s end)
    (fun x => match x with inl (a, b, c, d) => V4 a b c d | inr s => V6 s end) _).
  by intros [].
Defined.
