(* ===== verification/CredFile.v ===== *)
(** * Credential files

    What [auth/users.rs] and [auth/token.rs] of [crates/detent-web] share: a
    list of records in one JSON file, kept in memory with the fingerprint of the
    file it was read from, read again when the fingerprint changes and written
    whole. Other processes (the command line) write the same file, so the host
    is an oracle: before each call of this process another one may have replaced
    or removed the file, and each call may fail. *)

From Stdlib Require Import ZArith.
From stdpp Require Import gmap.
From S2P Require Import Prelude Stateful Str AuthErr Time.

Abbreviation rbytes := (list N).

(** ** The file *)

Record Fingerprint := mkFingerprint { dev : Z; ino : Z; len : Z; mtime_ns : Z }.

#[export] Instance Fingerprint_eq_dec : EqDecision Fingerprint.
Proof. solve_decision. Defined.

Record StoredFile := mkFile { contents : rbytes; fingerprint : Fingerprint }.

(** How [write_credential_file] ends: the atomic write is done, or failed with
    the old or with the new file in place, or the mode could not be set. *)
Inductive WriteOutcome := Written | NotWritten | WrittenYetFailed | ModeFailed.

(** The host, call by call. [meddle n] is what another process did just before
    the [n]-th call: nothing, or it left this file. *)
Record Host := mkHost {
  meddle : nat -> option (option StoredFile);
  stat_fails : nat -> bool;
  read_fails : nat -> bool;
  write_outcome : nat -> WriteOutcome;
  stamp : nat -> rbytes -> Fingerprint;
}.

Record Inner (R : Type) := mkInner { records : list R; seen_fp : option Fingerprint }.
Arguments mkInner {R}. Arguments records {R}. Arguments seen_fp {R}.

(** The file, the calls made so far, the records behind their lock (none when it
    is poisoned), and what a change of the records acts on. *)
Record Store (R X : Type) := mkCred { file : option StoredFile; calls : nat; inner : Mutex (Inner R); linked : X }.
Arguments mkCred {R X}. Arguments file {R X}. Arguments calls {R X}. Arguments inner {R X}. Arguments linked {R X}.

Section Cred.
Context {R X : Type}.
Variable host : Host.
Variable path : rstr.
(** The parser of the file with its checks, and the serialiser. *)
Variable decode : rbytes -> result AuthError (list R).
Variable encode : list R -> result AuthError rbytes.
(** What a re-read does with the old and the new records. *)
Variable on_change : list R -> list R -> X -> X.
(** The errors of a poisoned lock. *)
Variables (poisoned_read poisoned_write : AuthError).

Abbreviation CM := (SE (Store R X) AuthError).

(** The next call: the number it has, and the file it finds. *)
Definition begin_call (s : Store R X) : nat * Store R X :=
  (calls s, mkCred (default (file s) (meddle host (calls s))) (S (calls s)) (inner s) (linked s)).

Definition current_fingerprint : CM (option Fingerprint) := fun s =>
  let '(n, s) := begin_call s in
  (if stat_fails host n then Err (StoreRead path) else Ok (fingerprint <$> file s), s).

Definition read_file : CM (option rbytes) := fun s =>
  let '(n, s) := begin_call s in
  (if read_fails host n then Err (StoreRead path) else Ok (contents <$> file s), s).

Definition write_credential_file (bytes : rbytes) : CM () := fun s =>
  let '(n, s) := begin_call s in
  let replaced := mkCred (Some (mkFile bytes (stamp host n bytes))) (calls s) (inner s) (linked s) in
  match write_outcome host n with
  | Written => (Ok (), replaced)
  | NotWritten => (Err (StoreWrite path), s)
  | WrittenYetFailed => (Err (StoreWrite path), replaced)
  | ModeFailed => (Err (StorePrepare path), replaced)
  end.

Definition set_inner (i : Inner R) : CM () := updating (fun s => mkCred (file s) (calls s) (Some i) (linked s)).

(** No file is no records. *)
Definition decoded (raw : option rbytes) : result AuthError (list R) :=
  match raw with Some raw => decode raw | None => Ok [] end.

(** [load]: the contents first, the fingerprint after. The directory is
    confined by the caller. *)
Definition load : CM () :=
  raw ← read_file;
  match raw with
  | None => set_inner (mkInner [] None)
  | Some raw => recs ← give (decode raw); fp ← current_fingerprint; set_inner (mkInner recs fp)
  end.

(** [refresh_locked]: the records after it. *)
Definition refresh_locked (i : Inner R) : CM (Inner R) :=
  cur ← current_fingerprint;
  if bool_decide (cur = seen_fp i) then mret i
  else
    raw ← read_file;
    recs ← give (decoded raw);
    let i' := mkInner recs cur in
    _ ← set_inner i';
    _ ← updating (fun s => mkCred (file s) (calls s) (inner s) (on_change (records i) recs (linked s)));
    mret i'.

Definition locked (poisoned : AuthError) : CM (Inner R) :=
  i ← reading inner; match i with Some i => mret i | None => throw poisoned end.

Definition refresh : CM () :=
  i ← locked poisoned_read;
  _ ← refresh_locked i;
  mret ().

(** [records]: a snapshot, empty when the lock is poisoned. *)
Definition snapshot : CM (list R) := reading (fun s => match inner s with Some i => records i | None => [] end).

Definition mutate (change : list R -> result AuthError (list R)) : CM () :=
  i ← locked poisoned_write;
  i ← refresh_locked i;
  candidate ← give (change (records i));
  encoded ← give (encode candidate);
  _ ← write_credential_file encoded;
  _ ← set_inner (mkInner candidate (seen_fp i));
  fp ← current_fingerprint;
  set_inner (mkInner candidate fp).

End Cred.

(** ** The records follow the file *)

Section Follows.
Context {R X : Type}.
Variable host : Host.
Variable path : rstr.
Variable decode : rbytes -> result AuthError (list R).
Variable encode : list R -> result AuthError rbytes.
Variable on_change : list R -> list R -> X -> X.
Variables (poisoned_read poisoned_write : AuthError).

(** What a fingerprint stands for: two files with the same one are the same. *)
Variable content_of : Fingerprint -> rbytes.
Hypothesis stamp_content : forall n b, content_of (stamp host n b) = b.
(** No other process changes the file between two calls of one operation, and
    a file just written has metadata. *)
Hypothesis quiet : forall n, meddle host n = None.
Hypothesis stat_after_write : forall n, write_outcome host n = Written -> stat_fails host (S n) = false.
(** What the serialiser writes of sound records, the parser reads back. *)
Variable valid : list R -> Prop.
Hypothesis valid_nil : valid [].
Hypothesis decode_valid : forall b l, decode b = Ok l -> valid l.
Hypothesis encode_decode : forall l b, valid l -> encode l = Ok b -> decode b = Ok l.
(** A re-read that finds the same records tells the link nothing. *)
Hypothesis on_change_same : forall l x, valid l -> on_change l l x = x.

(** The records in the file. *)
Definition on_file (s : Store R X) : result AuthError (list R) := decoded decode (contents <$> file s).

Definition honest (f : option StoredFile) : Prop := forall g, f = Some g -> contents g = content_of (fingerprint g).

Definition synced (i : Inner R) : Prop :=
  match seen_fp i with None => records i = [] | Some f => decode (content_of f) = Ok (records i) end.

Record follows (s : Store R X) : Prop := {
  fo_file : honest (file s);
  fo_inner : exists i, inner s = Some i /\ synced i;
}.

Lemma synced_valid i : synced i -> valid (records i).
Proof. unfold synced. destruct (seen_fp i); [apply decode_valid|by intros ->]. Qed.

(** Records read with the fingerprint of the file are those on file. *)
Lemma synced_on_file s i :
  honest (file s) -> synced i -> seen_fp i = fingerprint <$> file s -> on_file s = Ok (records i).
Proof.
  unfold synced, on_file. intros Hh Hs He. rewrite He in Hs. destruct (file s) as [f|]; simpl in *; [|by rewrite Hs].
  by rewrite (Hh f).
Qed.

Lemma on_file_synced s l : honest (file s) -> on_file s = Ok l -> synced (mkInner l (fingerprint <$> file s)).
Proof.
  unfold synced, on_file. intros Hh. destruct (file s) as [f|]; simpl; [by rewrite <- (Hh f)|by intros [= <-]].
Qed.

(** One call that does not write: another number, the same file. *)
Definition called (s : Store R X) : Store R X := mkCred (file s) (S (calls s)) (inner s) (linked s).

Lemma begin_quiet s : begin_call host s = (calls s, called s).
Proof. unfold begin_call. by rewrite quiet. Qed.

Lemma current_fingerprint_eq s :
  current_fingerprint host path s = (if stat_fails host (calls s) then Err (StoreRead path) else Ok (fingerprint <$> file s), called s).
Proof. unfold current_fingerprint. by rewrite begin_quiet. Qed.

Lemma read_file_eq s :
  read_file host path s = (if read_fails host (calls s) then Err (StoreRead path) else Ok (contents <$> file s), called s).
Proof. unfold read_file. by rewrite begin_quiet. Qed.

#[local] Opaque current_fingerprint read_file.

(** The failures of the file itself. *)
Definition read_error (s : Store R X) (e : AuthError) : Prop :=
  (e = StoreRead path /\ exists n, stat_fails host n || read_fails host n = true) \/ on_file s = Err e.
Definition write_error (e : AuthError) : Prop :=
  (e = StoreWrite path \/ e = StorePrepare path) /\ exists n, write_outcome host n <> Written.

(** What a re-read leaves: the records on file, and the link told of the change. *)
Lemma refresh_locked_spec i s :
  follows s -> inner s = Some i ->
  let '(r, s') := refresh_locked host path decode on_change i s in
  follows s' /\ file s' = file s /\
  match r with
  | Ok i' => inner s' = Some i' /\ synced i' /\ on_file s = Ok (records i')
      /\ linked s' = on_change (records i) (records i') (linked s)
  | Err e => inner s' = Some i /\ linked s' = linked s /\ read_error s e
  end.
Proof.
  intros [Hh (i0 & Hi0 & Hsy)] Hi. assert (i0 = i) as -> by congruence.
  assert (follows (called s)) as Hf by (split; [done|by exists i]).
  unfold refresh_locked, mbind, SE_bind, after. rewrite current_fingerprint_eq.
  destruct (stat_fails _ _) eqn:Est; [unfold throw; split_and!; auto; left; split; [done|]; eexists; by rewrite Est|].
  case_bool_decide as Hfp.
  - unfold mret, SE_ret. split_and!; auto; [by eapply synced_on_file|]. by rewrite on_change_same by (by eapply synced_valid).
  - rewrite read_file_eq. destruct (read_fails _ _) eqn:Erd.
    { unfold throw. split_and!; auto; [by split; [|exists i]|]. left. split; [done|]. eexists. rewrite Erd. apply orb_true_r. }
    unfold give. change (decoded decode (contents <$> file (called s))) with (on_file s).
    destruct (on_file s) as [l|e] eqn:El; [|unfold throw; split_and!; auto; [by split; [|exists i]|by right]].
    unfold set_inner, updating, mret, SE_ret. simpl. split_and!; auto; [|by apply on_file_synced].
    split; [done|]. eexists. split; [done|]. by apply on_file_synced.
Qed.

(** What the link is told when a re-read succeeds. *)
Definition told (s s' : Store R X) : Prop :=
  exists i l, inner s = Some i /\ on_file s = Ok l /\ linked s' = on_change (records i) l (linked s).

(** Between two states of a store: the file has other records only by a change. *)
Definition changed (change : list R -> result AuthError (list R)) (s s' : Store R X) : Prop :=
  exists l l', on_file s = Ok l /\ change l = Ok l' /\ on_file s' = Ok l'.

Lemma load_spec s :
  honest (file s) ->
  let '(r, s') := load host path decode s in
  file s' = file s /\ match r with Ok _ => follows s' /\ is_ok (on_file s) = true | Err _ => True end.
Proof.
  intros Hh. unfold load, mbind, SE_bind, after. rewrite read_file_eq.
  destruct (read_fails _ _); [done|]. destruct (file s) as [f|] eqn:Ef; simpl.
  - destruct (decode (contents f)) as [l|e] eqn:El; [|done]. simpl. rewrite current_fingerprint_eq. simpl.
    destruct (stat_fails _ _); [done|]. unfold set_inner, updating. simpl. split; [done|]. split.
    + split; simpl; [by rewrite Ef|]. eexists. split; [done|]. unfold synced. simpl. rewrite Ef. simpl. by rewrite <- (Hh f).
    + unfold on_file. rewrite Ef. simpl. by rewrite El.
  - unfold set_inner, updating. simpl. split; [done|]. split; [|unfold on_file; by rewrite Ef].
    split; simpl; [by rewrite Ef|]. by eexists.
Qed.

Lemma refresh_spec s :
  follows s ->
  let '(r, s') := refresh host path decode on_change poisoned_read s in
  follows s' /\ file s' = file s /\
  match r with
  | Ok _ => (exists i', inner s' = Some i' /\ on_file s = Ok (records i')) /\ told s s'
  | Err e => read_error s e /\ linked s' = linked s
  end.
Proof.
  intros Hf. pose proof Hf as [_ (i & Hi & _)]. pose proof (refresh_locked_spec i s Hf Hi) as H.
  unfold refresh, locked, reading, mbind, SE_bind, after. rewrite Hi. simpl. unfold mret, SE_ret.
  destruct (refresh_locked _ _ _ _ _ _) as [[i'|e] s'].
  - destruct H as (? & ? & ? & ? & ? & ?). split_and!; eauto. by exists i, (records i').
  - destruct H as (? & ? & ? & ? & ?). split_and!; auto.
Qed.

Lemma mutate_spec change s :
  follows s -> (forall l l', valid l -> change l = Ok l' -> valid l') ->
  let '(r, s') := mutate host path decode encode on_change poisoned_write change s in
  follows s' /\
  match r with
  | Ok _ => changed change s s' /\ (exists i', inner s' = Some i' /\ on_file s' = Ok (records i')) /\ told s s'
  | Err e => (linked s' = linked s \/ told s s')
      /\ (file s' = file s /\ read_error s e
          \/ exists l, on_file s = Ok l /\
              (file s' = file s /\ change l = Err e
               \/ exists l', change l = Ok l' /\
                    (file s' = file s /\ encode l' = Err e \/ (file s' = file s \/ on_file s' = Ok l') /\ write_error e)))
  end.
Proof.
  intros Hf Hch. pose proof Hf as [Hh (i & Hi & _)]. pose proof (refresh_locked_spec i s Hf Hi) as H.
  unfold mutate, locked, reading, mbind, SE_bind, after. rewrite Hi. unfold mret at 1, SE_ret at 1.
  destruct (refresh_locked _ _ _ _ _ _) as [[i'|e] s1]; cycle 1.
  { destruct H as (? & ? & ? & ? & ?). unfold throw. split_and!; auto. }
  destruct H as (Hf1 & E1 & Hi1 & Hs1 & Hl & Hk). unfold give.
  assert (Ht : forall s2, linked s2 = linked s1 -> told s s2) by (intros s2 E2; exists i, (records i'); by rewrite E2).
  destruct (change (records i')) as [c|e] eqn:Ec; [|unfold throw; split_and!; eauto 7 using Ht].
  destruct (encode c) as [b|e] eqn:Eb; [|unfold throw; split_and!; eauto 11 using Ht].
  unfold write_credential_file. rewrite begin_quiet. cbn [calls called inner linked].
  set (s2 := mkCred (Some (mkFile b (stamp host (calls s1) b))) (S (calls s1)) (inner s1) (linked s1)).
  assert (valid c) as Hvc by (eapply Hch; [apply (synced_valid i' Hs1)|done]).
  assert (Hd : decode b = Ok c) by (by apply encode_decode).
  assert (honest (file s2)) as Hh2 by (intros g [= <-]; simpl; by rewrite stamp_content).
  assert (Hf2 : follows s2) by (split; [done|by exists i']).
  assert (changed change s s2) as Hc2 by (exists (records i'), c; unfold on_file at 2; simpl; auto).
  assert (follows (called s1)) as Hf1' by (split; [apply Hf1|by exists i']).
  destruct (write_outcome host (calls s1)) eqn:Ew;
    [|unfold throw; split_and!; auto; right; exists (records i'); split; [done|]; right; exists c; split; [done|]; right;
      (split; [by auto|]; split; [by auto|]; eexists; by rewrite Ew)..].
  unfold set_inner, updating. rewrite current_fingerprint_eq. cbn [calls].
  replace (calls s2) with (S (calls s1)) by done. rewrite (stat_after_write (calls s1) Ew). simpl. split_and!.
  - split; simpl; [exact Hh2|]. eexists. split; [done|]. unfold synced. simpl. by rewrite stamp_content.
  - exists (records i'), c. unfold on_file at 2. simpl. auto.
  - eexists. split; [done|]. unfold on_file. simpl. by rewrite Hd.
  - by apply Ht.
Qed.

(** Another process leaves a file of its own between two operations. *)
Definition foreign (f : option StoredFile) (s : Store R X) : Store R X := mkCred f (calls s) (inner s) (linked s).

Lemma foreign_follows f s : honest f -> follows s -> follows (foreign f s).
Proof. intros Hf [_ Hi]. by split. Qed.

End Follows.

(** ** A calm host

    For concrete runs: no other process, no failure, a fingerprint that holds
    the contents, and a serialiser of any countable type. *)

Section Calm.

Definition calm_stamp_of (b : rbytes) : Fingerprint := mkFingerprint 1 1 (Z.pos (encode b)) 0.
Definition calm_content (f : Fingerprint) : rbytes := match len f with Z.pos p => default [] (decode p) | _ => [] end.
Definition calm_host : Host := mkHost (fun _ => None) (fun _ => false) (fun _ => false) (fun _ => Written) (fun _ => calm_stamp_of).

Lemma calm_stamp n b : calm_content (stamp calm_host n b) = b.
Proof. unfold calm_content. simpl. by rewrite decode_encode. Qed.

Definition to_vec_with {A} `{Countable B} (f : A -> B) (x : A) : option rbytes := Some [N.pos (encode (f x))].
Definition from_slice_with {A} `{Countable B} (g : B -> A) (b : rbytes) : option A :=
  match b with N.pos p :: _ => g <$> decode p | _ => None end.

Lemma serde_with {A} `{Countable B} (f : A -> B) (g : B -> A) (x : A) b rest :
  (forall x, g (f x) = x) -> to_vec_with f x = Some b -> from_slice_with g (b ++ rest) = Some x.
Proof. intros Hg [= <-]. simpl. rewrite decode_encode. simpl. by rewrite Hg. Qed.

End Calm.

(** ** What a call keeps, whatever the host does *)

Section Kept.
Context {R X : Type}.
Variable host : Host.
Variable path : rstr.
Variable decode : rbytes -> result AuthError (list R).
Variable encode : list R -> result AuthError rbytes.
Variable on_change : list R -> list R -> X -> X.
Variables (poisoned_read poisoned_write : AuthError).

(** A relation that holds across every call of the host, every change of the
    records in memory, and every change of what the store is linked to. *)
Variable K : Store R X -> Store R X -> Prop.
Context `{!Reflexive K, !Transitive K}.
Context (Hcall : forall s, K s (begin_call host s).2).
Context (Hinner : forall i s, K s (mkCred (file s) (calls s) i (linked s))).
Context (Hlink : forall before now s, K s (mkCred (file s) (calls s) (inner s) (on_change before now (linked s)))).

Lemma keeps_fingerprint : keeps K (current_fingerprint host path).
Proof. intros s. unfold current_fingerprint. specialize (Hcall s). by destruct (begin_call host s). Qed.

Lemma keeps_read_file : keeps K (read_file host path).
Proof. intros s. unfold read_file. specialize (Hcall s). by destruct (begin_call host s). Qed.

Lemma keeps_set_inner i : keeps (E := AuthError) K (set_inner i).
Proof. apply keeps_updating. intros s. apply Hinner. Qed.

#[local] Hint Resolve keeps_fingerprint keeps_read_file keeps_set_inner : kept.

Lemma keeps_refresh_locked i : keeps K (refresh_locked host path decode on_change i).
Proof. unfold refresh_locked. kept. apply keeps_updating. intros s. apply Hlink. Qed.

Lemma keeps_locked e : keeps K (locked e).
Proof. unfold locked. kept. Qed.

#[local] Hint Resolve keeps_refresh_locked keeps_locked : kept.

Lemma keeps_refresh : keeps K (refresh host path decode on_change poisoned_read).
Proof. unfold refresh. kept. Qed.

(** A change of the records also writes the file. *)
Context (Hwrite : forall f s, K s (mkCred f (calls s) (inner s) (linked s))).

Lemma keeps_write bytes : keeps K (write_credential_file host path bytes).
Proof.
  intros s. unfold write_credential_file. pose proof (Hcall s) as H. destruct (begin_call host s) as [n s1]. simpl in H.
  destruct (write_outcome host n); simpl; try done; (etrans; [exact H|apply Hwrite]).
Qed.

#[local] Hint Resolve keeps_write : kept.

Lemma keeps_mutate change : keeps K (mutate host path decode encode on_change poisoned_write change).
Proof. unfold mutate. kept. Qed.

End Kept.
