(* ===== verification/RateLimit.v ===== *)
(** * Login rate limiting

    [crates/detent-web/src/auth/ratelimit.rs]: one bucket per source address and
    one per submitted user name, in two bounded tables; exponential backoff after
    [max_failures] consecutive failures. *)

From Stdlib Require Import ZArith.
From stdpp Require Import gmap.
From S2P Require Import Prelude Str Num Ip Doc Diag AuthErr Time.
#[local] Open Scope Z_scope.

(** ** Addresses *)

Definition octets_of (segments : list Z) : list Z := concat ((fun s => [s / 256; s mod 256]) <$> segments).

Fixpoint segments_of (octets : list Z) : list Z :=
  match octets with hi :: lo :: rest => (hi * 256 + lo) :: segments_of rest | _ => [] end.

Definition normalize_ip (ip : IpAddr) : IpAddr :=
  match ip with
  | V4 _ _ _ _ => ip
  | V6 segments =>
      let octets := octets_of segments in
      V6 (segments_of (take 8 octets ++ ((fun _ => 0) <$> drop 8 octets)))
  end.

(** ** Buckets *)

Definition MAX_TRACKED : nat := 4096.
Definition BASE_BACKOFF : Duration := from_secs 2.
Definition MAX_BACKOFF : Duration := from_mins 15.
Definition BUCKET_TTL : Duration := from_hours 1.

Inductive Principal := PIp (ip : IpAddr) | PUser (name : rstr).

Record Bucket := mkBucket { failures : Z; blocked_until : option Instant; last_seen : Instant }.

Definition backoff_for (over : Z) : Duration :=
  let doublings := saturating_sub over 1 in
  match (factor ← checked 32 (2 ^ doublings); duration_checked (BASE_BACKOFF * factor)) with
  | None => MAX_BACKOFF
  | Some backoff => Z.min backoff MAX_BACKOFF
  end.

(** The update [fail] makes to one bucket, and whether it locked it. *)
Definition fail_bucket (max_failures : Z) (now : Instant) (b : Bucket) : Bucket * bool :=
  let failures := saturating_add 32 (failures b) 1 in
  let over := saturating_sub (saturating_add 32 failures 1) max_failures in
  if over =? 0 then (mkBucket failures (blocked_until b) now, false)
  else (mkBucket failures (instant_checked_add now (backoff_for over)) now, true).

(** The seconds one bucket must still wait. *)
Definition bucket_wait (b : Bucket) (now : Instant) : option Z :=
  deadline ← blocked_until b;
  let remaining := saturating_duration_since deadline now in
  if remaining =? 0 then None else Some (ceil_secs remaining).

Definition idle (now : Instant) (b : Bucket) : bool :=
  negb (saturating_duration_since now (last_seen b) <? BUCKET_TTL).

Section Buckets.
Context {K : Type} `{Countable K}.

Record Buckets := mkBuckets { buckets : gmap K Bucket; cap : nat }.

Definition new_buckets (cap : nat) : Buckets := mkBuckets ∅ cap.

Definition retry_after (b : Buckets) (key : K) (now : Instant) : option Z :=
  bucket ← buckets b !! key; bucket_wait bucket now.

Definition sweep_map (now : Instant) (m : gmap K Bucket) : gmap K Bucket :=
  filter (fun p => idle now p.2 = false) m.

Definition sweep (b : Buckets) (now : Instant) : Buckets := mkBuckets (sweep_map now (buckets b)) (cap b).

Definition clear (b : Buckets) (key : K) : Buckets := mkBuckets (delete key (buckets b)) (cap b).

Context `{!Iteration K Bucket}.

Definition make_room (b : Buckets) (now : Instant) : Buckets :=
  if (size (buckets b) <? cap b)%nat then b
  else
    let b := sweep b now in
    if (size (buckets b) <? cap b)%nat then b
    else mkBuckets (evict_oldest last_seen (buckets b)) (cap b).

Definition fail (b : Buckets) (key : K) (max_failures : Z) (now : Instant) : Buckets * bool :=
  let b := make_room b now in
  let bucket := default (mkBucket 0 None now) (buckets b !! key) in
  let '(bucket, locked) := fail_bucket max_failures now bucket in
  (mkBuckets (<[key := bucket]> (buckets b)) (cap b), locked).

End Buckets.
Arguments Buckets K {_ _}.

(** ** The limiter *)

Record RateLimiter := mkLimiter {
  ips : Mutex (Buckets IpAddr);
  users : Mutex (Buckets rstr);
  max_failures : Z;
}.

Definition new (max_failures : Z) : RateLimiter :=
  mkLimiter (Some (new_buckets MAX_TRACKED)) (Some (new_buckets MAX_TRACKED)) (Z.max max_failures 1).

(** [Option::max]: [None] is less than every [Some]. *)
Definition option_max (a b : option Z) : option Z :=
  match a, b with
  | Some x, Some y => Some (Z.max x y)
  | Some x, None => Some x
  | None, _ => b
  end.

Definition check (l : RateLimiter) (ip : IpAddr) (user : rstr) (now : Instant) : result AuthError () :=
  let ip := normalize_ip ip in
  let by_ip := b ← ips l; retry_after b ip now in
  let by_user := b ← users l; retry_after b user now in
  match option_max by_ip by_user with
  | Some retry_after_secs => Err (RateLimited retry_after_secs)
  | None => Ok ()
  end.

Definition record_success (l : RateLimiter) (ip : IpAddr) (user : rstr) : RateLimiter :=
  let ip := normalize_ip ip in
  mkLimiter ((fun b => clear b ip) <$> ips l) ((fun b => clear b user) <$> users l) (max_failures l).

Definition limiter_sweep (l : RateLimiter) (now : Instant) : RateLimiter :=
  mkLimiter ((fun b => sweep b now) <$> ips l) ((fun b => sweep b now) <$> users l) (max_failures l).

Definition tracked (l : RateLimiter) : nat * nat :=
  (from_option (fun b => size (buckets b)) 0%nat (ips l), from_option (fun b => size (buckets b)) 0%nat (users l)).

Section Limiter.
Context `{!Iteration IpAddr Bucket, !Iteration rstr Bucket}.

Definition record_failure (l : RateLimiter) (ip : IpAddr) (user : rstr) (now : Instant)
    : RateLimiter * list Principal :=
  let ip := normalize_ip ip in
  let '(ips', locked_ip) :=
    match ips l with
    | Some b => let '(b, locked) := fail b ip (max_failures l) now in
                (Some b, if locked then [PIp ip] else [])
    | None => (None, [])
    end in
  let '(users', locked_user) :=
    match users l with
    | Some b => let '(b, locked) := fail b user (max_failures l) now in
                (Some b, if locked then [PUser user] else [])
    | None => (None, [])
    end in
  (mkLimiter ips' users' (max_failures l), locked_ip ++ locked_user).

(** ** Traces of operations *)

Inductive Op := Failure (ip : IpAddr) (user : rstr) (now : Instant)
              | Success (ip : IpAddr) (user : rstr)
              | Sweep (now : Instant).

Definition step (l : RateLimiter) (op : Op) : RateLimiter :=
  match op with
  | Failure ip user now => (record_failure l ip user now).1
  | Success ip user => record_success l ip user
  | Sweep now => limiter_sweep l now
  end.

Definition run (max : Z) (ops : list Op) : RateLimiter := foldl step (new max) ops.

End Limiter.

(** ** The table bound *)

Section Bounds.
Context {K : Type} `{Countable K} `{!Iteration K Bucket}.
Implicit Types b : Buckets K.

Variable max : Z.

(** How many failures past the threshold [f] of them are. *)
Definition over_by (f : Z) : Z := saturating_sub (saturating_add 32 f 1) max.

Definition bucket_ok (x : Bucket) : Prop :=
  0 <= failures x <= max_of 32
  /\ forall d, blocked_until x = Some d -> over_by (failures x) <> 0 /\ d <= last_seen x + MAX_BACKOFF.

Definition buckets_ok (c : nat) b : Prop :=
  cap b = c /\ (size (buckets b) <= c)%nat /\ map_Forall (fun _ => bucket_ok) (buckets b).

Lemma backoff_for_bounds over : 0 < backoff_for over <= MAX_BACKOFF.
Proof.
  unfold backoff_for. destruct (checked 32 _) as [f|] eqn:E; simpl; [|done].
  apply checked_some in E as [<- _]. unfold duration_checked. case_if; simpl; [|done].
  pose proof (Z.pow_pos_nonneg 2 (saturating_sub over 1)). unfold saturating_sub in *.
  unfold BASE_BACKOFF, MAX_BACKOFF, from_mins, from_secs, NANOS in *. lia.
Qed.

Lemma over_by_mono f g : f <= g -> over_by f <= over_by g.
Proof. unfold over_by, saturating_sub, saturating_add. lia. Qed.

Lemma fail_bucket_ok now x : bucket_ok x -> bucket_ok (fail_bucket max now x).1.
Proof.
  intros [Hf Hd]. unfold fail_bucket. set (f := saturating_add 32 (failures x) 1).
  assert (failures x <= f /\ 0 <= f <= max_of 32) as [Hx Hr] by (unfold f, saturating_add; lia).
  fold (over_by f). destruct (over_by f =? 0) eqn:E; simpl; bool_to_prop; (split; simpl; [done|]).
  - intros d Hb. destruct (Hd _ Hb) as [Ho _]. pose proof (over_by_mono _ _ Hx).
    unfold over_by, saturating_sub in *. lia.
  - intros d Hb. split; [done|]. unfold instant_checked_add in Hb. case_if; [|done].
    injection Hb as <-. pose proof (backoff_for_bounds (over_by f)). lia.
Qed.

Lemma sweep_map_subseteq now (m : gmap K Bucket) : sweep_map now m ⊆ m.
Proof. apply map_filter_subseteq. Qed.

Lemma subseteq_ok c (m m' : gmap K Bucket) :
  m' ⊆ m -> buckets_ok c (mkBuckets m c) -> buckets_ok c (mkBuckets m' c).
Proof.
  intros Hs (_ & Hn & Hok). split_and!; simpl in *; [done| |].
  - apply map_subseteq_size in Hs. lia.
  - intros k x Hx. eapply Hok, lookup_weaken; eauto.
Qed.

Lemma make_room_spec c b now : (0 < c)%nat -> buckets_ok c b ->
  buckets_ok c (make_room b now) /\ (size (buckets (make_room b now)) < c)%nat
  /\ buckets (make_room b now) ⊆ buckets b.
Proof.
  destruct b as [m c']. intros Hc Hok. assert (c' = c) by apply Hok. subst c'.
  unfold make_room, sweep. simpl. destruct (size m <? c)%nat eqn:E; bool_to_prop; [done|].
  destruct (size (sweep_map now m) <? c)%nat eqn:E2; bool_to_prop; simpl.
  - split_and!; [|done|apply sweep_map_subseteq]. eauto using subseteq_ok, sweep_map_subseteq.
  - assert (evict_oldest last_seen (sweep_map now m) ⊆ m)
      by (etrans; [apply evict_oldest_subseteq|apply sweep_map_subseteq]).
    split_and!; [eauto using subseteq_ok| |done]. rewrite evict_oldest_size.
    pose proof (map_subseteq_size _ _ (sweep_map_subseteq now m)).
    destruct Hok as (_ & Hn & _). simpl in Hn. lia.
Qed.

Lemma fail_ok c b key now : (0 < c)%nat -> buckets_ok c b -> buckets_ok c (fail b key max now).1.
Proof.
  intros Hc Hok. destruct (make_room_spec c b now Hc Hok) as ((Hcap & _ & Hall) & Hn & _).
  unfold fail. set (r := make_room b now) in *.
  set (x := default (mkBucket 0 None now) (buckets r !! key)).
  assert (Hx : bucket_ok x).
  { unfold x. destruct (buckets r !! key) eqn:E; simpl; [by eapply Hall|]. split; [by simpl|done]. }
  pose proof (fail_bucket_ok now x Hx) as Hy. destruct (fail_bucket max now x) as [y l]. simpl.
  split_and!; [done| |by apply map_Forall_insert_2].
  simpl. pose proof (map_size_insert_le (buckets r) key y). lia.
Qed.

Lemma sweep_ok c b now : buckets_ok c b -> buckets_ok c (sweep b now).
Proof.
  destruct b as [m c']. intros Hok. assert (c' = c) by apply Hok. subst c'.
  eauto using subseteq_ok, sweep_map_subseteq.
Qed.

Lemma clear_ok c b key : buckets_ok c b -> buckets_ok c (clear b key).
Proof.
  destruct b as [m c']. intros Hok. assert (c' = c) by apply Hok. subst c'.
  eapply subseteq_ok; [|done]. apply delete_subseteq.
Qed.

(** A bucket idle for [BUCKET_TTL] is no longer blocked, so sweeping is invisible. *)
Lemma sweep_retry_after c b key now later : buckets_ok c b -> now <= later ->
  retry_after (sweep b now) key later = retry_after b key later.
Proof.
  intros (_ & _ & Hall) Hle. unfold retry_after, sweep, sweep_map. simpl.
  destruct (buckets b !! key) as [x|] eqn:E; simpl.
  - destruct (idle now x) eqn:Hi.
    + rewrite map_lookup_filter_None_2 by (right; intros y ?; simplify_eq; simpl; congruence). simpl.
      unfold bucket_wait. destruct (blocked_until x) as [d|] eqn:Hd; [|done]. simpl.
      destruct (Hall _ _ E) as [_ Hb]. destruct (Hb _ Hd) as [_ Hle'].
      unfold idle, saturating_duration_since in *. bool_to_prop.
      unfold MAX_BACKOFF, BUCKET_TTL, from_hours, from_mins, from_secs, NANOS in *.
      rewrite Z.max_l by lia. done.
    + rewrite (map_lookup_filter_Some_2 _ _ _ x) by done. done.
  - by rewrite map_lookup_filter_None_2 by auto.
Qed.

End Bounds.

(** ** The invariant of the limiter *)

Section Invariant.
Context `{!Iteration IpAddr Bucket, !Iteration rstr Bucket}.

Definition limiter_ok (l : RateLimiter) : Prop :=
  from_option (buckets_ok (max_failures l) MAX_TRACKED) True (ips l)
  /\ from_option (buckets_ok (max_failures l) MAX_TRACKED) True (users l).

Lemma new_buckets_ok {K} `{Countable K} m c : buckets_ok (K := K) m c (new_buckets c).
Proof. split_and!; simpl; [done|rewrite map_size_empty; lia|apply map_Forall_empty]. Qed.

Lemma limiter_step_ok l op : limiter_ok l -> limiter_ok (step l op).
Proof.
  destruct l as [[bi|] [bu|] m]; intros [Hi Hu]; simpl in *;
    (destruct op as [ip u t|ip u|t]; unfold limiter_ok, step, record_failure, record_success, limiter_sweep; simpl;
     [repeat match goal with
             | H : buckets_ok _ _ ?b |- context [fail ?b ?k ?m ?t] =>
                 pose proof (fail_ok m MAX_TRACKED b k t ltac:(unfold MAX_TRACKED; lia) H);
                 destruct (fail b k m t); clear H
             end; simpl in * | |]);
    split; simpl; eauto using clear_ok, sweep_ok.
Qed.

Lemma limiter_run_ok max ops : limiter_ok (run max ops).
Proof.
  unfold run. assert (H : limiter_ok (new max)) by (split; apply new_buckets_ok).
  revert H. generalize (new max). induction ops as [|op ops IH]; simpl; eauto using limiter_step_ok.
Qed.

End Invariant.

(** ** Specification: one principal, no table

    What a bucket should be, from the operations that concern its principal
    alone. *)

Section Principal.
Context {K : Type} `{Countable K}.

Inductive TableOp := TFail (key : K) (now : Instant) | TClear (key : K) | TSweep (now : Instant).

Definition spec_step (max : Z) (key : K) (x : option Bucket) (op : TableOp) : option Bucket :=
  match op with
  | TFail k now => if decide (k = key) then Some (fail_bucket max now (default (mkBucket 0 None now) x)).1 else x
  | TClear k => if decide (k = key) then None else x
  | TSweep now => b ← x; if idle now b then None else Some b
  end.

Definition spec (max : Z) (key : K) (ops : list TableOp) : option Bucket := foldl (spec_step max key) None ops.

Definition failing (ops : list TableOp) : gset K :=
  list_to_set (omap (fun op => match op with TFail k _ => Some k | _ => None end) ops).

Context `{!Iteration K Bucket}.

Definition table_step (max : Z) (b : Buckets K) (op : TableOp) : Buckets K :=
  match op with
  | TFail k now => (fail b k max now).1
  | TClear k => clear b k
  | TSweep now => sweep b now
  end.

Lemma fail_lookup max b k now : (size (buckets b) < cap b)%nat ->
  fail b k max now = (mkBuckets (<[k := (fail_bucket max now (default (mkBucket 0 None now) (buckets b !! k))).1]>
                                  (buckets b)) (cap b),
                      (fail_bucket max now (default (mkBucket 0 None now) (buckets b !! k))).2).
Proof.
  intros Hn. unfold fail, make_room. rewrite (proj2 (Nat.ltb_lt _ _) Hn).
  by destruct (fail_bucket _ _ _).
Qed.

(** A table in step with the specification, on the keys [ks]. *)
Definition tracks (max : Z) (c : nat) (ks : gset K) (b : Buckets K) (f : K -> option Bucket) : Prop :=
  cap b = c /\ dom (buckets b) ⊆ ks /\ forall k, buckets b !! k = f k.

Lemma tracks_step max c ks b f op : tracks max c ks b f -> (size ks < c)%nat -> failing [op] ⊆ ks ->
  tracks max c ks (table_step max b op) (fun k => spec_step max k (f k) op).
Proof.
  intros (Hc & Hd & Hf) Hn Hk. assert (Hsz : (size (buckets b) < cap b)%nat).
  { rewrite Hc. rewrite <- size_dom. apply subseteq_size in Hd. lia. }
  destruct op as [k now|k|now]; cbn [table_step spec_step].
  - rewrite fail_lookup by done. split_and!; simpl; [done| |].
    + rewrite dom_insert. set_solver.
    + intros k'. case_decide; [subst; by rewrite lookup_insert_eq, Hf|by rewrite lookup_insert_ne, Hf].
  - split_and!; simpl; [done|rewrite dom_delete; set_solver|].
    intros k'. case_decide; [subst; by rewrite lookup_delete_eq|by rewrite lookup_delete_ne, Hf].
  - split_and!; simpl; [done| |].
    + etrans; [|exact Hd]. apply subseteq_dom, sweep_map_subseteq.
    + intros k'. unfold sweep_map. rewrite map_lookup_filter, Hf. destruct (f k') as [x|]; simpl; [|done].
      by destruct (idle now x).
Qed.

Lemma table_refines max c ops b f :
  tracks max c (failing ops ∪ dom (buckets b)) b f -> (size (failing ops ∪ dom (buckets b)) < c)%nat ->
  forall k, buckets (foldl (table_step max) b ops) !! k = foldl (spec_step max k) (f k) ops.
Proof.
  set (ks := failing ops ∪ _). intros Ht Hn. assert (Hs : failing ops ⊆ ks) by set_solver.
  clearbody ks. revert b f Ht Hs. induction ops as [|op ops IH]; intros b f Ht Hs k; simpl.
  - apply Ht.
  - apply (IH _ (fun k => spec_step max k (f k) op)); [|unfold failing in *; simpl in *; destruct op; set_solver].
    apply tracks_step; [done|done|]. unfold failing in *. simpl in *. destruct op; set_solver.
Qed.

Lemma table_refines_new max c ops k : (size (failing ops) < c)%nat ->
  buckets (foldl (table_step max) (new_buckets c) ops) !! k = spec max k ops.
Proof.
  intros Hn. apply (table_refines max c ops (new_buckets c) (fun _ => None)); simpl; rewrite dom_empty_L, (right_id_L ∅ _).
  - split_and!; [done|simpl; set_solver|intros ?; apply lookup_empty].
  - done.
Qed.

End Principal.
Arguments TableOp K : clear implicits.

(** ** The limiter is its two tables *)

Definition ip_op (op : Op) : TableOp IpAddr :=
  match op with
  | Failure ip _ now => TFail (normalize_ip ip) now
  | Success ip _ => TClear (normalize_ip ip)
  | Sweep now => TSweep now
  end.
Definition user_op (op : Op) : TableOp rstr :=
  match op with
  | Failure _ user now => TFail user now
  | Success _ user => TClear user
  | Sweep now => TSweep now
  end.

(** What a principal pair is answered, from the two specifications. *)
Definition spec_check (by_ip by_user : option Bucket) (now : Instant) : result AuthError () :=
  match option_max (by_ip ≫= fun b => bucket_wait b now) (by_user ≫= fun b => bucket_wait b now) with
  | Some s => Err (RateLimited s)
  | None => Ok ()
  end.

Section Refinement.
Context `{!Iteration IpAddr Bucket, !Iteration rstr Bucket}.

Lemma step_tables bi bu max op :
  step (mkLimiter (Some bi) (Some bu) max) op
  = mkLimiter (Some (table_step max bi (ip_op op))) (Some (table_step max bu (user_op op))) max.
Proof.
  destruct op as [ip u t|ip u|t]; [|done|done]. unfold step, record_failure. simpl.
  by destruct (fail bi _ _ _), (fail bu _ _ _).
Qed.

Lemma run_tables max ops : run max ops =
  mkLimiter (Some (foldl (table_step (Z.max max 1)) (new_buckets MAX_TRACKED) (ip_op <$> ops)))
            (Some (foldl (table_step (Z.max max 1)) (new_buckets MAX_TRACKED) (user_op <$> ops))) (Z.max max 1).
Proof.
  unfold run, new. generalize (new_buckets (K := IpAddr) MAX_TRACKED), (new_buckets (K := rstr) MAX_TRACKED).
  induction ops as [|op ops IH]; intros bi bu; simpl; [done|]. by rewrite step_tables, IH.
Qed.

Lemma run_check max ops ip user now :
  (size (failing (ip_op <$> ops)) < MAX_TRACKED)%nat -> (size (failing (user_op <$> ops)) < MAX_TRACKED)%nat ->
  check (run max ops) ip user now
  = spec_check (spec (Z.max max 1) (normalize_ip ip) (ip_op <$> ops)) (spec (Z.max max 1) user (user_op <$> ops)) now.
Proof.
  intros Hi Hu. rewrite run_tables. unfold check, retry_after, ips, users, spec_check. simpl.
  by rewrite !table_refines_new by done.
Qed.

End Refinement.

(** ** Consecutive failures of one principal *)

Lemma backoff_for_pos over : 1 <= over -> backoff_for over = Z.min (2 ^ over * NANOS) MAX_BACKOFF.
Proof.
  intros H. unfold backoff_for, saturating_sub. rewrite Z.max_r by lia.
  assert (E : 2 ^ over = 2 * 2 ^ (over - 1)) by (rewrite <- Z.pow_succ_r by lia; f_equal; lia).
  assert (Hbase : BASE_BACKOFF * 2 ^ (over - 1) = 2 ^ over * NANOS)
    by (rewrite E; unfold BASE_BACKOFF, from_secs; lia).
  pose proof (Z.pow_pos_nonneg 2 (over - 1)).
  destruct (decide (over - 1 < 32)) as [Hs|Hs].
  - pose proof (Z.pow_lt_mono_r 2 (over - 1) 32).
    replace (checked 32 (2 ^ (over - 1))) with (Some (2 ^ (over - 1)))
      by (symmetry; apply checked_some; unfold fits, max_of; lia).
    simpl. rewrite Hbase. unfold duration_checked.
    replace (2 ^ over * NANOS <=? DURATION_MAX) with true; [done|].
    symmetry. apply Z.leb_le. unfold DURATION_MAX, NANOS in *. lia.
  - pose proof (Z.pow_le_mono_r 2 32 (over - 1)).
    replace (checked 32 (2 ^ (over - 1))) with (None : option Z).
    + simpl. unfold MAX_BACKOFF, from_mins, from_secs, NANOS. lia.
    + unfold checked. destruct (_ && _) eqn:F; [|done]. bool_to_prop. unfold max_of in *. lia.
Qed.

(** The bucket after [n] consecutive failures, the last at [t]. *)
Definition failed (max n : Z) (t : Instant) : Bucket :=
  mkBucket n (if n <? max then None else instant_checked_add t (backoff_for (n + 1 - max))) t.

Lemma fail_bucket_failed max n t now : 1 <= max -> 0 <= n < max_of 32 - 1 ->
  (fail_bucket max now (failed max n t)).1 = failed max (n + 1) now.
Proof.
  intros Hm Hn. unfold fail_bucket, failed, saturating_add, saturating_sub. cbn [failures].
  rewrite (Z.min_r _ (n + 1)), (Z.min_r _ (n + 1 + 1)) by lia.
  destruct (Z.max 0 (n + 1 + 1 - max) =? 0) eqn:E, (n + 1 <? max) eqn:F; bool_to_prop; try lia; simpl.
  - destruct (n <? max) eqn:G; bool_to_prop; [done|lia].
  - by rewrite Z.max_r by lia.
Qed.

Lemma spec_failures {K} `{Countable K} max (key : K) (times : list Instant) t :
  1 <= max -> last times = Some t -> Z.of_nat (length times) < max_of 32 ->
  spec max key (TFail key <$> times) = Some (failed max (Z.of_nat (length times)) t).
Proof.
  intros Hm. revert t. induction times as [|x times IH] using rev_ind; intros t Hl Hn; [done|].
  rewrite last_snoc in Hl. injection Hl as ->. rewrite length_app in *. simpl in *.
  unfold spec. rewrite fmap_app, foldl_app. fold (spec max key (TFail key <$> times)). simpl.
  rewrite decide_True by done. f_equal.
  destruct (last times) as [u|] eqn:Hu.
  - rewrite (IH u) by (done || lia). simpl.
    rewrite fail_bucket_failed by lia. f_equal. lia.
  - apply last_None in Hu. subst. simpl.
    replace (mkBucket 0 None t) with (failed max 0 t)
      by (unfold failed; destruct (0 <? max) eqn:F; bool_to_prop; [done|lia]).
    by rewrite fail_bucket_failed by (unfold max_of; lia).
Qed.

Lemma bucket_wait_failed max n t now : 1 <= max -> t + MAX_BACKOFF <= INSTANT_MAX ->
  let deadline := t + Z.min (2 ^ (n + 1 - max) * NANOS) MAX_BACKOFF in
  bucket_wait (failed max n t) now
  = if (max <=? n) && (now <? deadline) then Some (ceil_secs (deadline - now)) else None.
Proof.
  intros Hm Ht. simpl. unfold bucket_wait, failed. simpl.
  destruct (n <? max) eqn:E, (max <=? n) eqn:F; bool_to_prop; try lia; [done|]. simpl.
  unfold instant_checked_add. rewrite backoff_for_pos by lia.
  set (w := Z.min _ _). assert (w <= MAX_BACKOFF) by (unfold w; lia).
  replace (t + w <=? INSTANT_MAX) with true by (symmetry; apply Z.leb_le; lia). simpl.
  unfold saturating_duration_since. destruct (now <? t + w) eqn:G; bool_to_prop.
  - rewrite Z.max_r by lia. replace (t + w - now =? 0) with false by (symmetry; apply Z.eqb_neq; lia). done.
  - rewrite Z.max_l by lia. done.
Qed.

Section Table.
Context {K : Type} `{Countable K} `{!Iteration K Bucket}.

Lemma make_room_dom (b : Buckets K) now : dom (buckets (make_room b now)) ⊆ dom (buckets b).
Proof.
  unfold make_room, sweep. repeat case_if; simpl; [done| |]; apply subseteq_dom.
  - apply sweep_map_subseteq.
  - etrans; [apply evict_oldest_subseteq|apply sweep_map_subseteq].
Qed.

Lemma table_dom max (b : Buckets K) ops :
  dom (buckets (foldl (table_step max) b ops)) ⊆ dom (buckets b) ∪ failing ops.
Proof.
  revert b. induction ops as [|op ops IH]; intros b; simpl; [set_solver|].
  etrans; [apply IH|]. destruct op as [k now|k|now]; simpl; unfold failing; simpl.
  - unfold fail. pose proof (make_room_dom b now). destruct (fail_bucket _ _ _). simpl.
    rewrite dom_insert. set_solver.
  - rewrite dom_delete. set_solver.
  - pose proof (subseteq_dom _ _ (sweep_map_subseteq now (buckets b))). set_solver.
Qed.

End Table.

(** ** A full table *)

Lemma sweep_map_id {K} `{Countable K} now (m : gmap K Bucket) :
  map_Forall (fun _ x => idle now x = false) m -> sweep_map now m = m.
Proof. intros Hm. apply map_filter_id. intros i x Hx. by eapply Hm. Qed.

(** Room is made before the key is looked up. When the table is full and the
    failing principal is itself the one seen longest ago, it is its own bucket
    that is evicted, and its count starts again at one. *)
Lemma fail_full_evicts_itself {K} `{Countable K} `{!Iteration K Bucket} max now (key : K) b x :
  1 < max -> size (buckets b) = cap b -> buckets b !! key = Some x ->
  map_Forall (fun k y => idle now y = false /\ (k <> key -> last_seen x < last_seen y)) (buckets b) ->
  buckets (fail b key max now).1 !! key = Some (mkBucket 1 None now) /\ (fail b key max now).2 = false.
Proof.
  intros Hm Hsz Hx Hall. unfold fail, make_room, sweep. rewrite Hsz, Nat.ltb_irrefl. simpl.
  rewrite sweep_map_id by (intros k y Hy; by eapply Hall). rewrite Hsz, Nat.ltb_irrefl. simpl.
  unfold evict_oldest. destruct (oldest last_seen (buckets b)) as [k|] eqn:Ho.
  - apply oldest_spec in Ho as (y & Hy & Hmin). assert (k = key) as ->.
    { destruct (decide (k = key)) as [|Hne]; [done|]. specialize (Hmin _ _ Hx). simpl in Hmin.
      destruct (Hall _ _ Hy) as [_ Hlt]. specialize (Hlt Hne). lia. }
    rewrite lookup_delete_eq. simpl. unfold fail_bucket, saturating_add, saturating_sub. simpl.
    replace (Z.max 0 _ =? 0) with true by (symmetry; apply Z.eqb_eq; unfold max_of; lia). simpl.
    by rewrite lookup_insert_eq.
  - apply oldest_none in Ho. rewrite Ho in Hx. done.
Qed.

(** ** Properties *)

(** C38: The limiter refines a specification without tables. As long as fewer
    than [MAX_TRACKED] distinct addresses and names have failed, every answer of
    [check] depends only on the operations that concern that address (its /64)
    or that name: its failures since its last success, dropped when idle for an
    hour at a sweep. *)
Theorem limiter_refines `{!Iteration IpAddr Bucket, !Iteration rstr Bucket} max ops ip user now :
  (size (failing (ip_op <$> ops)) < MAX_TRACKED)%nat ->
  (size (failing (user_op <$> ops)) < MAX_TRACKED)%nat ->
  check (run max ops) ip user now
  = spec_check (spec (Z.max max 1) (normalize_ip ip) (ip_op <$> ops))
               (spec (Z.max max 1) user (user_op <$> ops)) now.
Proof. apply run_check. Qed.

(** The lockout. After [n] consecutive failures for a name, from whatever
    addresses, the last at [t]: with [n] at least [max_failures] every login for
    the name is refused, from any address, until [min (2^(n+1-max_failures) s,
    15 min)] after [t], and told to wait at least a second; before that many
    failures, or from that deadline on, an address that has not failed may try. *)
Theorem limiter_lockout `{!Iteration IpAddr Bucket, !Iteration rstr Bucket}
    max (attempts : list (IpAddr * Instant)) user addr t ip now :
  1 <= max -> last attempts = Some (addr, t) -> Z.of_nat (length attempts) < max_of 32 ->
  0 <= now -> t + MAX_BACKOFF <= INSTANT_MAX ->
  let n := Z.of_nat (length attempts) in
  let deadline := t + Z.min (2 ^ (n + 1 - max) * NANOS) MAX_BACKOFF in
  let l := run max ((fun '(ip, t) => Failure ip user t) <$> attempts) in
  (max <= n -> now < deadline -> exists s, 1 <= s /\ check l ip user now = Err (RateLimited s))
  /\ (Forall (fun a => normalize_ip a.1 <> normalize_ip ip) attempts -> n < max \/ deadline <= now ->
      check l ip user now = Ok ()).
Proof.
  intros Hm Hl Hn Hnow Ht n deadline l. unfold l. rewrite run_tables, <- !list_fmap_compose.
  rewrite Z.max_l by lia.
  assert (Eu : user_op ∘ (fun '(ip, t) => Failure ip user t) <$> attempts = TFail user <$> (snd <$> attempts)).
  { rewrite <- list_fmap_compose. apply list_fmap_ext. by intros ? [] ?. }
  rewrite Eu. unfold check, retry_after, ips, users. simpl.
  rewrite (table_refines_new (K := rstr)).
  2: { apply Nat.le_lt_trans with 1%nat; [|unfold MAX_TRACKED; lia].
       rewrite <- (size_singleton (C := gset rstr) user). apply subseteq_size. unfold failing.
       intros k. rewrite elem_of_list_to_set, list_elem_of_omap.
       intros (? & (? & -> & _)%list_elem_of_fmap & [= <-]). set_solver. }
  rewrite (spec_failures _ _ _ t) by (rewrite ?fmap_last, ?length_fmap, ?Hl; done || lia).
  rewrite length_fmap. simpl. rewrite bucket_wait_failed by done. fold n deadline. split.
  - intros Hge Hlt. rewrite (proj2 (Z.leb_le _ _) Hge), (proj2 (Z.ltb_lt _ _) Hlt). simpl.
    destruct (ceil_secs_bounds (deadline - now)) as [Hc _].
    { unfold deadline, INSTANT_MAX, DURATION_MAX, MAX_BACKOFF, NANOS in *. lia. }
    destruct (_ ≫= _) as [s|]; simpl; eexists; (split; [|reflexivity]); lia.
  - intros Hip Hor. replace ((max <=? n) && (now <? deadline)) with false
      by (symmetry; apply andb_false_iff; rewrite Z.leb_gt, Z.ltb_ge; done).
    rewrite (not_elem_of_dom_1 (buckets (foldl _ _ _))); [done|].
    intros Hin%table_dom. simpl in Hin. rewrite dom_empty_L in Hin.
    apply elem_of_union in Hin as [Hin|Hin]; [set_solver|].
    unfold failing in Hin. apply elem_of_list_to_set, list_elem_of_omap in Hin as (op & Hop & Hk).
    apply list_elem_of_fmap in Hop as ([a u] & -> & Ha). simpl in Hk. injection Hk as Hk.
    rewrite Forall_forall in Hip. by apply (Hip _ Ha).
Qed.

(** Along every sequence of operations neither table exceeds
    [MAX_TRACKED] buckets, and a sweep never changes an answer: nobody who is
    still locked out is released early. *)
Theorem limiter_bounded_sweep `{!Iteration IpAddr Bucket, !Iteration rstr Bucket} max ops ip user now later :
  now <= later ->
  (((tracked (run max ops)).1 <= MAX_TRACKED)%nat /\ ((tracked (run max ops)).2 <= MAX_TRACKED)%nat)
  /\ check (limiter_sweep (run max ops) now) ip user later = check (run max ops) ip user later.
Proof.
  intros Hle. pose proof (limiter_run_ok max ops) as Hok. rewrite run_tables in *. destruct Hok as [Hi Hu].
  simpl in Hi, Hu. split; [split; [apply Hi|apply Hu]|].
  unfold check, limiter_sweep. simpl.
  by rewrite (sweep_retry_after _ _ _ _ _ _ Hi Hle), (sweep_retry_after _ _ _ _ _ _ Hu Hle).
Qed.

Definition demo_ops : list Op :=
  [Failure (V4 10 0 0 1) (lit "alice") 5; Success (V4 10 0 0 1) (lit "bob"); Sweep 7].

Lemma limiter_refines_witness :
  check (run (Iteration0 := canonical_iteration _ _) (Iteration1 := canonical_iteration _ _) 1 demo_ops)
    (V4 10 0 0 2) (lit "alice") 9 = Err (RateLimited 2).
Proof.
  rewrite (limiter_refines (Iteration0 := canonical_iteration _ _) (Iteration1 := canonical_iteration _ _)).
  - reflexivity.
  - vm_compute. lia.
  - vm_compute. lia.
Defined.

Lemma limiter_lockout_witness :
  exists s, 1 <= s /\
  check (run (Iteration0 := canonical_iteration _ _) (Iteration1 := canonical_iteration _ _) 2
     [Failure (V4 10 0 0 1) (lit "alice") 5; Failure (V4 10 0 0 2) (lit "alice") 6])
     (V4 10 0 0 3) (lit "alice") 7 = Err (RateLimited s).
Proof.
  apply (limiter_lockout (Iteration0 := canonical_iteration _ _) (Iteration1 := canonical_iteration _ _)
    2 [(V4 10 0 0 1, 5); (V4 10 0 0 2, 6)] (lit "alice") (V4 10 0 0 2) 6 (V4 10 0 0 3) 7);
    try (vm_compute; congruence); try reflexivity; lia.
Defined.

Lemma limiter_bounded_sweep_witness :
  check (limiter_sweep (run (Iteration0 := canonical_iteration _ _) (Iteration1 := canonical_iteration _ _) 1
     [Failure (V4 10 0 0 1) (lit "alice") 5]) 6) (V4 10 0 0 1) (lit "alice") 7
  = check (run (Iteration0 := canonical_iteration _ _) (Iteration1 := canonical_iteration _ _) 1
     [Failure (V4 10 0 0 1) (lit "alice") 5]) (V4 10 0 0 1) (lit "alice") 7.
Proof.
  apply (limiter_bounded_sweep (Iteration0 := canonical_iteration _ _) (Iteration1 := canonical_iteration _ _)).
  lia.
Defined.
