(* ===== verification/TokenLimit.v ===== *)
(** * The request budget of an API token

    [crates/detent-web/src/auth/tokenlimit.rs]: a token bucket in its generic
    cell rate form, one per token id, in a bounded table. *)

From Stdlib Require Import ZArith.
From stdpp Require Import gmap sorting.
From S2P Require Import Prelude Str Num Ip Time.
#[local] Open Scope Z_scope.

Definition MAX_TOKENS : nat := 64.
Definition TRACKED_MARGIN : nat := 8.
Definition MAX_TRACKED_TOKENS : nat := MAX_TOKENS + TRACKED_MARGIN.
Definition MINUTE : Duration := from_mins 1.

Inductive Admission := Allowed | Limited (retry_after_secs : Z) (first : bool).

#[export] Instance Admission_eq_dec : EqDecision Admission.
Proof. solve_decision. Defined.

Record Bucket := mkBucket { full_at : Instant; limited : bool }.

Record TokenLimiter := mkTokens {
  tokens : Mutex (gmap rstr Bucket);
  interval : Duration;
  tolerance : Duration;
}.

(** [Duration::checked_div] by a [u32]. *)
Definition checked_div (d : Duration) (n : Z) : option Duration := if n =? 0 then None else Some (d / n).

Definition new (burst rate_per_minute : Z) : TokenLimiter :=
  let interval := default MINUTE (checked_div MINUTE (Z.max rate_per_minute 1)) in
  let tolerance := default DURATION_MAX (duration_checked (interval * saturating_sub (Z.max burst 1) 1)) in
  mkTokens (Some ∅) interval tolerance.

(** The part of [check] on the bucket itself. *)
Definition charge (interval tolerance : Duration) (now : Instant) (bucket : Bucket) : Bucket * Admission :=
  let bucket := if full_at bucket <=? now then mkBucket now false else bucket in
  let debt := saturating_duration_since (full_at bucket) now in
  if tolerance <? debt then
    let wait := saturating_sub debt tolerance in
    (mkBucket (full_at bucket) true, Limited (ceil_secs wait) (negb (limited bucket)))
  else (mkBucket (default (full_at bucket) (instant_checked_add (full_at bucket) interval)) (limited bucket), Allowed).

Section Tokens.
Context `{!Iteration rstr Bucket}.

Definition make_room (buckets : gmap rstr Bucket) (now : Instant) : gmap rstr Bucket :=
  if (size buckets <? MAX_TRACKED_TOKENS)%nat then buckets
  else
    let buckets := filter (fun p => (now <? full_at p.2) = true) buckets in
    if (size buckets <? MAX_TRACKED_TOKENS)%nat then buckets
    else evict_oldest full_at buckets.

Definition check (l : TokenLimiter) (id : rstr) (now : Instant) : TokenLimiter * Admission :=
  match tokens l with
  | None => (l, Allowed)
  | Some buckets =>
      let buckets := match buckets !! id with Some _ => buckets | None => make_room buckets now end in
      let bucket := default (mkBucket now false) (buckets !! id) in
      let '(bucket, answer) := charge (interval l) (tolerance l) now bucket in
      (mkTokens (Some (<[id := bucket]> buckets)) (interval l) (tolerance l), answer)
  end.

(** The answers to a sequence of requests, and the limiter after them. *)
Fixpoint requests (l : TokenLimiter) (reqs : list (rstr * Instant)) : TokenLimiter * list Admission :=
  match reqs with
  | [] => (l, [])
  | (id, now) :: rest =>
      let '(l, answer) := check l id now in
      let '(l, answers) := requests l rest in
      (l, answer :: answers)
  end.

End Tokens.

Definition tracked (l : TokenLimiter) : nat := from_option size 0%nat (tokens l).

(** ** One token *)

(** [charge] run on one token's own requests. *)
Fixpoint charges (i tol : Duration) (b : option Bucket) (times : list Instant) : option Bucket * list Admission :=
  match times with
  | [] => (b, [])
  | now :: rest =>
      let '(b, answer) := charge i tol now (default (mkBucket now false) b) in
      let '(b, answers) := charges i tol (Some b) rest in
      (b, answer :: answers)
  end.

Definition admitted (answers : list Admission) : Z := Z.of_nat (length (filter (fun a => a = Allowed) answers)).

Lemma charge_allowed i tol now b b' : 0 <= i -> 0 <= tol -> now + tol + i <= INSTANT_MAX ->
  charge i tol now b = (b', Allowed) ->
  full_at b' = Z.max (full_at b) now + i /\ full_at b' <= now + tol + i.
Proof.
  intros Hi Ht Hm. unfold charge, saturating_duration_since, instant_checked_add.
  destruct (full_at b <=? now) eqn:E; bool_to_prop; simpl.
  - rewrite Z.sub_diag. simpl. rewrite (proj2 (Z.ltb_ge _ _)) by lia.
    rewrite (proj2 (Z.leb_le _ _)) by lia. intros [= <-]. simpl. lia.
  - destruct (tol <? _) eqn:F; bool_to_prop; [done|].
    rewrite (proj2 (Z.leb_le _ _)) by lia. intros [= <-]. simpl. lia.
Qed.

Lemma charge_limited i tol now b b' s f : 0 <= tol ->
  charge i tol now b = (b', Limited s f) ->
  now + tol < full_at b /\ full_at b' = full_at b /\ limited b' = true /\ f = negb (limited b)
  /\ s = ceil_secs (full_at b - now - tol).
Proof.
  intros Ht. unfold charge, saturating_duration_since, saturating_sub.
  destruct (full_at b <=? now) eqn:E; bool_to_prop; simpl.
  - rewrite Z.sub_diag. simpl. rewrite (proj2 (Z.ltb_ge _ _)) by lia. done.
  - destruct (tol <? _) eqn:F; bool_to_prop; [|done]. intros [= <- <- <-]. simpl.
    split_and!; [lia|done..|]. f_equal. lia.
Qed.

Lemma admitted_allowed answers : admitted (Allowed :: answers) = admitted answers + 1.
Proof. unfold admitted. rewrite filter_cons_True by done. simpl. lia. Qed.

Lemma admitted_limited w f answers : admitted (Limited w f :: answers) = admitted answers.
Proof. unfold admitted. by rewrite filter_cons_False. Qed.

(** A refused token that stays quiet for the announced seconds is admitted. *)
Lemma charge_retry i tol now b b' s f later : 0 <= i -> 0 <= tol ->
  charge i tol now b = (b', Limited s f) -> full_at b - now - tol < from_secs (max_of 64) ->
  now + from_secs s <= later -> exists b'', charge i tol later b' = (b'', Allowed).
Proof.
  intros Hi Ht Hc Hb Hl. apply charge_limited in Hc as (Hw & He & _ & _ & ->); [|done].
  pose proof (ceil_secs_covers (full_at b - now - tol) ltac:(lia)).
  unfold charge, saturating_duration_since. rewrite He.
  destruct (full_at b <=? later) eqn:E; bool_to_prop; simpl.
  - rewrite Z.sub_diag. simpl. rewrite (proj2 (Z.ltb_ge _ _)) by lia. eauto.
  - rewrite He, (proj2 (Z.ltb_ge _ _)) by lia. eauto.
Qed.

(** Within an episode only the first refusal is reported: a reported refusal
    leaves the bucket marked, and a marked bucket reports none until it is full. *)
Lemma charges_first_once i tol b times : 0 <= i -> 0 <= tol -> limited b = true ->
  Forall (fun now => now < full_at b) times ->
  Forall (fun a => forall s f, a = Limited s f -> f = false) (charges i tol (Some b) times).2.
Proof.
  intros Hi Ht Hl Hf. revert b Hl Hf. induction times as [|now rest IH]; intros b Hl Hf; simpl; [constructor|].
  apply Forall_cons in Hf as [Hnow Hf].
  destruct (charge i tol now b) as [b1 a] eqn:Hc.
  assert (H1 : limited b1 = true /\ full_at b <= full_at b1 /\ forall s f, a = Limited s f -> f = false).
  { unfold charge in Hc. rewrite (proj2 (Z.leb_gt _ _)) in Hc by done.
    destruct (tol <? _); simplify_eq; simpl; rewrite ?Hl; [naive_solver lia|].
    split_and!; [done| |done]. unfold instant_checked_add. case_if; simpl; lia. }
  destruct H1 as (Hl1 & Hle & Ha). specialize (IH b1 Hl1).
  destruct (charges i tol (Some b1) rest) as [b2 answers]. simpl in *. constructor; [done|].
  apply IH. eapply Forall_impl; [exact Hf|]. simpl. lia.
Qed.

(** ** The table *)

Section Table.
Context `{!Iteration rstr Bucket}.

Lemma make_room_size m now : (size m <= MAX_TRACKED_TOKENS)%nat -> (size (make_room m now) < MAX_TRACKED_TOKENS)%nat.
Proof.
  intros Hn. unfold make_room. destruct (size m <? _)%nat eqn:E; bool_to_prop; [done|]. simpl.
  set (m' := filter _ m). assert (Hs : (size m' <= size m)%nat) by apply map_subseteq_size, map_filter_subseteq.
  destruct (size m' <? _)%nat eqn:F; bool_to_prop; [done|]. rewrite evict_oldest_size.
  unfold MAX_TRACKED_TOKENS, MAX_TOKENS, TRACKED_MARGIN in *. lia.
Qed.

Lemma check_bounded l id now : (tracked l <= MAX_TRACKED_TOKENS)%nat -> (tracked (check l id now).1 <= MAX_TRACKED_TOKENS)%nat.
Proof.
  destruct l as [[m|] i tol]; unfold tracked, check; simpl; [|done]. intros Hn.
  destruct (m !! id) as [b|] eqn:E.
  - rewrite E. simpl. destruct (charge i tol now b) as [b' a]. simpl.
    by rewrite map_size_insert_Some.
  - pose proof (make_room_size m now Hn). destruct (charge _ _ _ _) as [b' a]. simpl.
    pose proof (map_size_insert_le (make_room m now) id b'). lia.
Qed.

Lemma requests_bounded l reqs : (tracked l <= MAX_TRACKED_TOKENS)%nat ->
  (tracked (requests l reqs).1 <= MAX_TRACKED_TOKENS)%nat.
Proof.
  revert l. induction reqs as [|[id now] reqs IH]; intros l Hn; simpl; [done|].
  pose proof (check_bounded l id now Hn). destruct (check l id now) as [l1 a].
  specialize (IH l1). destruct (requests l1 reqs). simpl in *. auto.
Qed.

(** The requests of one token, and the answers to them. *)
Definition own (id : rstr) (reqs : list (rstr * Instant)) : list Instant :=
  omap (fun '(i, now) => if decide (i = id) then Some now else None) reqs.

Definition own_answers (id : rstr) (reqs : list (rstr * Instant)) (answers : list Admission) : list Admission :=
  omap (fun '((i, _), a) => if decide (i = id) then Some a else None) (zip reqs answers).

Definition names (reqs : list (rstr * Instant)) : gset rstr := list_to_set reqs.*1.

Lemma request_own_cons id i now reqs :
  own id ((i, now) :: reqs) = if decide (i = id) then now :: own id reqs else own id reqs.
Proof. unfold own. simpl. by case_decide. Qed.

Lemma own_answers_cons id i now reqs a answers :
  own_answers id ((i, now) :: reqs) (a :: answers)
  = if decide (i = id) then a :: own_answers id reqs answers else own_answers id reqs answers.
Proof. unfold own_answers. simpl. by case_decide. Qed.

(** [id] keeps its bucket, if it is not full, when [i] presents itself. *)
Definition keeps_bucket (id : rstr) (l : TokenLimiter) (i : rstr) (now : Instant) : Prop :=
  forall m b, tokens l = Some m -> m !! i = None -> m !! id = Some b -> now < full_at b -> is_Some (make_room m now !! id).

(** [id] is not evicted while these requests are answered. *)
Fixpoint not_evicted (id : rstr) (l : TokenLimiter) (reqs : list (rstr * Instant)) : Prop :=
  match reqs with [] => True | (i, now) :: rest => keeps_bucket id l i now /\ not_evicted id (check l i now).1 rest end.

(** What making room does to one bucket. *)
Lemma make_room_lookup m now id b : make_room m now !! id = Some b -> m !! id = Some b.
Proof.
  intros H. eapply lookup_weaken; [exact H|]. unfold make_room. destruct (size m <? _)%nat; [done|].
  pose proof (map_filter_subseteq (fun p : rstr * Bucket => (now <? full_at p.2) = true) m).
  destruct (size _ <? _)%nat; [done|]. etrans; [apply evict_oldest_subseteq|done].
Qed.

(** The table in which the bucket of [i] is looked up. *)
Definition room (m : gmap rstr Bucket) (i : rstr) (now : Instant) : gmap rstr Bucket :=
  match m !! i with Some _ => m | None => make_room m now end.

Lemma check_eq m i tol id now :
  check (mkTokens (Some m) i tol) id now
  = (mkTokens (Some (<[id := (charge i tol now (default (mkBucket now false) (room m id now !! id))).1]> (room m id now))) i tol,
     (charge i tol now (default (mkBucket now false) (room m id now !! id))).2).
Proof. unfold check, room. cbn [tokens interval tolerance]. destruct (m !! id); by destruct (charge _ _ _ _). Qed.

Lemma room_own m id now : room m id now !! id = m !! id.
Proof.
  unfold room. destruct (m !! id) as [b|] eqn:E; [done|]. destruct (make_room m now !! id) as [b|] eqn:F; [|done].
  apply make_room_lookup in F. congruence.
Qed.

(** The bucket of [id] runs ahead by one interval per admitted request, and an
    admitted request leaves it at most a burst ahead of the clock; the table drops
    it only when it is full. *)
Lemma requests_budget i tol id e reqs : 0 <= i -> 0 <= tol -> e + tol + i <= INSTANT_MAX ->
  forall m s, StronglySorted Z.le (s :: reqs.*2) -> Forall (fun now => now <= e) (own id reqs) ->
  not_evicted id (mkTokens (Some m) i tol) reqs ->
  admitted (own_answers id reqs (requests (mkTokens (Some m) i tol) reqs).2) * i
  <= Z.max 0 (e + tol + i - Z.max s (from_option full_at s (m !! id))).
Proof.
  intros Hi Ht Hm. induction reqs as [|[id' now] reqs IH]; intros m s Hs Hf Hk.
  { unfold admitted. simpl. lia. }
  cbn [requests]. cbn [not_evicted] in Hk. destruct Hk as [Hb Hk]. cbn [fmap list_fmap snd] in Hs.
  apply StronglySorted_inv in Hs as [Hs Hle]. apply Forall_cons in Hle as [Hle _].
  rewrite check_eq in Hk |- *. cbn [fst] in Hk. set (b := default _ (room m id' now !! id')) in *.
  destruct (charge i tol now b) as [b1 a] eqn:Hc. cbn [fst snd] in *. rewrite request_own_cons in Hf.
  destruct (requests _ reqs) as [l' answers] eqn:Er. cbn [snd]. rewrite own_answers_cons.
  destruct (decide (id' = id)) as [->|Hne].
  - apply Forall_cons in Hf as [Hnow Hf]. specialize (IH _ now Hs Hf Hk). rewrite Er, lookup_insert_eq in IH. simpl in IH.
    unfold b in Hc. rewrite room_own in Hc. clear b. destruct a as [|w f].
    + apply charge_allowed in Hc as [He Hu]; [|lia..]. rewrite admitted_allowed. destruct (m !! id); simpl in *; lia.
    + apply charge_limited in Hc as (Hw & He & _); [|lia]. rewrite admitted_limited. destruct (m !! id); simpl in *; lia.
  - assert (Hroom : room m id' now !! id = m !! id \/ exists b, m !! id = Some b /\ full_at b <= now).
    { unfold room. destruct (m !! id') eqn:E'; [by left|]. destruct (m !! id) as [x|] eqn:E.
      - destruct (Z.le_gt_cases (full_at x) now); [by right; eauto|left].
        destruct (Hb m x eq_refl E' E ltac:(lia)) as [y Hy]. rewrite Hy. apply make_room_lookup in Hy. congruence.
      - left. destruct (make_room m now !! id) as [y|] eqn:F; [|done]. apply make_room_lookup in F. congruence. }
    specialize (IH _ now Hs Hf Hk). rewrite Er, lookup_insert_ne in IH by done. cbn [snd] in IH.
    destruct Hroom as [E|(x & E & Hx)].
    + rewrite E in IH. destruct (m !! id); simpl in *; lia.
    + rewrite E. simpl. destruct (room m id' now !! id) as [y|] eqn:F; simpl in IH; [|lia].
      assert (m !! id = Some y) as E2; [|assert (x = y) as -> by congruence; lia].
      unfold room in F. destruct (m !! id'); [done|by apply make_room_lookup in F].
Qed.

(** As long as all ids seen fit in the table, none is evicted. *)
Lemma few_ids_kept id i tol reqs ks : (size ks <= MAX_TRACKED_TOKENS)%nat -> forall m, dom m ∪ names reqs ⊆ ks ->
  not_evicted id (mkTokens (Some m) i tol) reqs.
Proof.
  intros Hn. induction reqs as [|[id' now] reqs IH]; intros m Hks; [done|].
  unfold names in Hks. simpl in Hks. cbn [not_evicted]. rewrite check_eq. cbn [fst].
  assert (Hroom : room m id' now = m).
  { unfold room. destruct (m !! id') eqn:E; [done|]. unfold make_room. rewrite (proj2 (Nat.ltb_lt _ _)); [done|].
    rewrite <- size_dom. eapply Nat.lt_le_trans; [|exact Hn]. apply subset_size. apply not_elem_of_dom in E. set_solver. }
  split.
  - intros m' x [= <-] E' E _. unfold room in Hroom. rewrite E' in Hroom. rewrite Hroom, E. done.
  - rewrite Hroom. apply IH. rewrite dom_insert. unfold names. set_solver.
Qed.

Lemma make_room_keys m now : dom (make_room m now) ⊆ dom m.
Proof. intros k [b Hb]%elem_of_dom. apply elem_of_dom. exists b. by apply make_room_lookup in Hb. Qed.

Lemma requests_dom reqs : forall m i tol,
  dom (default ∅ (tokens (requests (mkTokens (Some m) i tol) reqs).1)) ⊆ dom m ∪ names reqs.
Proof.
  induction reqs as [|[id now] reqs IH]; intros m i tol; [simpl; set_solver|]. cbn [requests]. rewrite check_eq.
  set (m' := <[id := _]> _). assert (dom m' ⊆ {[id]} ∪ dom m).
  { subst m'. rewrite dom_insert. unfold room. pose proof (make_room_keys m now). destruct (m !! id); set_solver. }
  specialize (IH m' i tol). unfold names in *. simpl. destruct (requests _ reqs). simpl in *. set_solver.
Qed.

Lemma requests_table reqs : forall m i tol, exists m', (requests (mkTokens (Some m) i tol) reqs).1 = mkTokens (Some m') i tol.
Proof.
  induction reqs as [|[id now] reqs IH]; intros m i tol; [by exists m|]. cbn [requests]. rewrite check_eq.
  destruct (IH (<[id := (charge i tol now (default (mkBucket now false) (room m id now !! id))).1]> (room m id now)) i tol) as [m' E].
  exists m'. by destruct (requests _ reqs).
Qed.

End Table.

(** ** Properties *)

Lemma new_interval burst rate : 0 <= rate <= max_of 32 -> interval (new burst rate) = MINUTE / Z.max rate 1
  /\ 0 < interval (new burst rate) <= MINUTE.
Proof.
  intros Hr. unfold new, checked_div. simpl. rewrite (proj2 (Z.eqb_neq _ _)) by lia. simpl.
  split; [done|]. assert (Hm : MINUTE = 60000000000) by reflexivity. rewrite Hm. split.
  - apply Z.div_str_pos. unfold max_of in Hr. lia.
  - apply Z.div_le_upper_bound; lia.
Qed.

Lemma new_tolerance burst rate : 0 <= rate <= max_of 32 -> 0 <= burst <= max_of 32 ->
  tolerance (new burst rate) = interval (new burst rate) * (Z.max burst 1 - 1).
Proof.
  intros Hr Hb. destruct (new_interval burst rate Hr) as [_ Hi]. unfold new in *. simpl in *.
  set (i := default MINUTE _) in *. unfold saturating_sub, duration_checked.
  assert (Hm : MINUTE = 60000000000) by reflexivity. unfold max_of in Hb.
  rewrite Z.max_r by lia. rewrite (proj2 (Z.leb_le _ _)); [done|].
  transitivity (60000000000 * (2 ^ 32)); [nia|]. unfold DURATION_MAX, NANOS. lia.
Qed.

(** C40: The budget. After any history, and whatever the other tokens do meanwhile,
    the requests of one token that are admitted at instants within [s, e] number at
    most [burst + (e - s) / interval], where [interval] is a minute divided by the
    configured rate: what it did not use before [s] gives it no more than the burst.
    The instants do not decrease, and the table, which holds 72 buckets, does not
    evict the token's bucket in between; it never has to while at most 72 ids have
    been seen. *)
Theorem token_budget `{!Iteration rstr Bucket} burst rate before reqs id s e :
  1 <= rate <= max_of 32 -> 1 <= burst <= max_of 32 -> 0 <= s <= e ->
  e + MINUTE * max_of 32 <= INSTANT_MAX ->
  let l := (requests (new burst rate) before).1 in
  StronglySorted Z.le (s :: reqs.*2) -> Forall (fun now => now <= e) (own id reqs) ->
  not_evicted id l reqs \/ (size (names (before ++ reqs)) <= MAX_TRACKED_TOKENS)%nat ->
  admitted (own_answers id reqs (requests l reqs).2) <= burst + (e - s) / (MINUTE / rate).
Proof.
  intros Hr Hb Hse Hm l Hs Hf Hk.
  destruct (new_interval burst rate ltac:(lia)) as [Ei Hi].
  pose proof (new_tolerance burst rate ltac:(lia) ltac:(lia)) as Et.
  rewrite (Z.max_l rate 1) in Ei by lia. rewrite (Z.max_l burst 1) in Et by lia. rewrite <- Ei.
  subst l. unfold new in *. simpl in *. set (i := default MINUTE _) in *. set (tol := default DURATION_MAX _) in *.
  destruct (requests_table before ∅ i tol) as [m El].
  assert (Hk' : not_evicted id (mkTokens (Some m) i tol) reqs).
  { destruct Hk as [Hk|Hn]; [by rewrite El in Hk|]. apply (few_ids_kept _ _ _ _ (names (before ++ reqs)) Hn).
    pose proof (requests_dom before ∅ i tol) as Hd. rewrite El in Hd. simpl in Hd. unfold names in *.
    rewrite fmap_app, list_to_set_app_L. set_solver. }
  rewrite El. assert (Hle : i * burst <= MINUTE * max_of 32) by (apply Z.mul_le_mono_nonneg; lia).
  pose proof (requests_budget i tol id e reqs ltac:(lia) ltac:(nia) ltac:(nia) m s Hs Hf Hk') as H.
  set (k := admitted _) in *. assert (k - burst <= (e - s) / i); [|lia]. apply Z.div_le_lower_bound; [lia|]. nia.
Qed.

(** A refusal is honest and audited once. A refused token that stays quiet
    for the announced number of seconds is admitted at its next request, and
    until its bucket has been full again no later refusal asks for another audit
    record. *)
Theorem token_refusal i tol now b b' secs first :
  0 <= i -> 0 <= tol -> charge i tol now b = (b', Limited secs first) ->
  full_at b - now - tol < from_secs (max_of 64) ->
  1 <= secs /\ first = negb (limited b)
  /\ (forall later, now + from_secs secs <= later -> exists b'', charge i tol later b' = (b'', Allowed))
  /\ (forall times, Forall (fun t => t < full_at b') times ->
       Forall (fun a => forall s f, a = Limited s f -> f = false) (charges i tol (Some b') times).2).
Proof.
  intros Hi Ht Hc Hb. pose proof Hc as (Hw & He & Hl & Hf & Hs)%charge_limited; [|done].
  split_and!; [|done| |].
  - rewrite Hs. apply ceil_secs_bounds. unfold from_secs, max_of, DURATION_MAX, NANOS in *. lia.
  - intros later Hlater. by eapply charge_retry.
  - intros times Hts. by apply charges_first_once.
Qed.

(** The table of token budgets never holds more than [MAX_TRACKED_TOKENS]
    entries, whatever ids are presented. *)
Theorem token_table_bounded `{!Iteration rstr Bucket} burst rate reqs :
  (tracked (requests (new burst rate) reqs).1 <= MAX_TRACKED_TOKENS)%nat.
Proof. apply requests_bounded. unfold tracked. simpl. rewrite map_size_empty. lia. Qed.

(** Two requests, a long rest, and three requests of which only two are admitted. *)
Lemma token_budget_witness :
  let before := [(lit "t", 1); (lit "t", 1); (lit "u", 1)] in
  let reqs := [(lit "t", 600 * NANOS); (lit "u", 600 * NANOS); (lit "t", 600 * NANOS); (lit "t", 600 * NANOS + 1)] in
  let l := (requests (Iteration0 := canonical_iteration _ _) (new 2 60) before).1 in
  admitted (own_answers (lit "t") reqs (requests (Iteration0 := canonical_iteration _ _) l reqs).2)
  <= 2 + (600 * NANOS + 1 - 600 * NANOS) / (MINUTE / 60).
Proof.
  apply (token_budget (Iteration0 := canonical_iteration _ _)).
  - vm_compute. split; discriminate.
  - vm_compute. split; discriminate.
  - vm_compute. split; discriminate.
  - vm_compute. discriminate.
  - repeat constructor; vm_compute; discriminate.
  - repeat constructor; vm_compute; discriminate.
  - right. vm_compute. lia.
Defined.

Lemma token_refusal_witness :
  exists b'', charge NANOS NANOS (2 * NANOS) (mkBucket (3 * NANOS) true) = (b'', Allowed).
Proof.
  apply (token_refusal NANOS NANOS NANOS (mkBucket (3 * NANOS) false) (mkBucket (3 * NANOS) true) 1 true);
    vm_compute; try congruence; reflexivity.
Defined.
