(* ===== verification/Coalesce.v ===== *)
(** * Coalescing of rejected credentials

    [crates/detent-web/src/auth/coalesce.rs]: at most one audit record per client
    address and minute for rejected credentials, with the count of those held
    back since the last one. *)

From Stdlib Require Import ZArith Sorting.
From stdpp Require Import gmap.
From S2P Require Import Prelude Str Num Ip Doc Diag AuthErr Time RateLimit.
#[local] Open Scope Z_scope.

Definition WINDOW : Duration := from_mins 1.
Definition MAX_CLIENTS : nat := 256.

Record Entry := mkEntry { logged_at : Instant; suppressed : Z }.

Definition Coalescer := Mutex (gmap IpAddr Entry).

Definition empty_coalescer : Coalescer := Some ∅.

(** What [admit] does to the entry of an address it knows. *)
Definition admit_entry (now : Instant) (entry : Entry) : Entry * option Z :=
  if saturating_duration_since now (logged_at entry) <? WINDOW then
    (mkEntry (logged_at entry) (saturating_add 32 (suppressed entry) 1), None)
  else (mkEntry now 0, Some (suppressed entry)).

Section Coalescer.
Context `{!Iteration IpAddr Entry}.

Definition admit_ (c : Coalescer) (ip : IpAddr) (now : Instant) : Coalescer * option Z :=
  let key := normalize_ip ip in
  match c with
  | None => (None, Some 0)
  | Some clients =>
      match clients !! key with
      | Some entry =>
          let '(entry, answer) := admit_entry now entry in
          (Some (<[key := entry]> clients), answer)
      | None =>
          let clients := if (MAX_CLIENTS <=? size clients)%nat then evict_oldest logged_at clients else clients in
          (Some (<[key := mkEntry now 0]> clients), Some 0)
      end
  end.

Definition tracked (c : Coalescer) : nat := from_option size 0%nat c.

(** The answers to a sequence of rejections. *)
Fixpoint rejections (c : Coalescer) (reqs : list (IpAddr * Instant)) : Coalescer * list (option Z) :=
  match reqs with
  | [] => (c, [])
  | (ip, now) :: rest =>
      let '(c, answer) := admit_ c ip now in
      let '(c, answers) := rejections c rest in
      (c, answer :: answers)
  end.

(** The audit records about one client: when, and how many were held back. *)
Definition records (key : IpAddr) (reqs : list (IpAddr * Instant)) (answers : list (option Z)) : list (Instant * Z) :=
  omap (fun '((ip, now), a) => if decide (normalize_ip ip = key) then (fun n => (now, n)) <$> a else None)
       (zip reqs answers).

Definition own (key : IpAddr) (reqs : list (IpAddr * Instant)) : list Instant :=
  omap (fun '(ip, now) => if decide (normalize_ip ip = key) then Some now else None) reqs.

Definition addresses (reqs : list (IpAddr * Instant)) : gset IpAddr := list_to_set (normalize_ip <$> reqs.*1).

(** ** The table bound *)

Lemma admit_bounded c ip now : (tracked c <= MAX_CLIENTS)%nat -> (tracked (admit_ c ip now).1 <= MAX_CLIENTS)%nat.
Proof.
  destruct c as [m|]; unfold admit_, tracked; [|done]; cbn [from_option]. intros Hn.
  destruct (m !! normalize_ip ip) as [e|] eqn:E.
  - destruct (admit_entry now e) as [e' a]. simpl. by rewrite map_size_insert_Some.
  - cbn [fst from_option]. destruct (MAX_CLIENTS <=? size m)%nat eqn:F; bool_to_prop.
    + pose proof (map_size_insert_le (evict_oldest logged_at m) (normalize_ip ip) (mkEntry now 0)) as H.
      rewrite evict_oldest_size in H. unfold MAX_CLIENTS in *. lia.
    + pose proof (map_size_insert_le m (normalize_ip ip) (mkEntry now 0)). lia.
Qed.

Lemma rejections_bounded c reqs : (tracked c <= MAX_CLIENTS)%nat -> (tracked (rejections c reqs).1 <= MAX_CLIENTS)%nat.
Proof.
  revert c. induction reqs as [|[ip now] reqs IH]; intros c Hn; simpl; [done|].
  pose proof (admit_bounded c ip now Hn). destruct (admit_ c ip now) as [c1 a].
  specialize (IH c1). destruct (rejections c1 reqs). simpl in *. auto.
Qed.

(** ** One client *)

(** The records of one client from its own rejections. *)
Fixpoint client (e : option Entry) (times : list Instant) : option Entry * list (Instant * Z) :=
  match times with
  | [] => (e, [])
  | now :: rest =>
      let '(e, answer) := match e with Some e => admit_entry now e | None => (mkEntry now 0, Some 0) end in
      let '(e, log) := client (Some e) rest in
      (e, option_list ((fun n => (now, n)) <$> answer) ++ log)
  end.

Lemma records_cons key ip now reqs a answers :
  records key ((ip, now) :: reqs) (a :: answers)
  = (if decide (normalize_ip ip = key) then option_list ((fun n => (now, n)) <$> a) else []) ++ records key reqs answers.
Proof. unfold records. simpl. case_decide; [by destruct a|done]. Qed.

Lemma rejection_own_cons key ip now reqs :
  own key ((ip, now) :: reqs) = if decide (normalize_ip ip = key) then now :: own key reqs else own key reqs.
Proof. unfold own. simpl. by case_decide. Qed.

Lemma rejections_client m reqs ks key :
  dom m ∪ addresses reqs ⊆ ks -> (size ks <= MAX_CLIENTS)%nat ->
  records key reqs (rejections (Some m) reqs).2 = (client (m !! key) (own key reqs)).2.
Proof.
  intros Hks Hn. revert m Hks. induction reqs as [|[ip now] reqs IH]; intros m Hks; [done|].
  unfold addresses in Hks. simpl in Hks. cbn [rejections]. unfold admit_.
  set (k := normalize_ip ip) in *.
  assert (Hroom : m !! k = None -> (MAX_CLIENTS <=? size m)%nat = false).
  { intros E. apply Nat.leb_gt. rewrite <- size_dom. eapply Nat.lt_le_trans; [|exact Hn].
    apply subset_size. apply not_elem_of_dom in E. set_solver. }
  set (r := match m !! k with Some e => admit_entry now e | None => (mkEntry now 0, Some 0) end).
  replace (match m !! k with Some _ => _ | None => _ end) with (Some (<[k := r.1]> m), r.2).
  2: { unfold r. destruct (m !! k) eqn:E; [by destruct (admit_entry now _)|]. by rewrite Hroom. }
  specialize (IH (<[k := r.1]> m)). destruct (rejections _ reqs) as [c answers]. cbn [snd] in *.
  rewrite records_cons, rejection_own_cons, IH by (rewrite dom_insert; unfold addresses; set_solver).
  fold k. destruct (decide (k = key)) as [->|Hne]; [|by rewrite lookup_insert_ne].
  rewrite lookup_insert_eq. cbn [client]. fold r. destruct r as [e a]. cbn [fst snd].
  by destruct (client (Some e) (own key reqs)).
Qed.

Definition held (log : list (Instant * Z)) : Z := foldr (fun x n => 1 + x.2 + n) 0 log.

Lemma held_app a b : held (a ++ b) = held a + held b.
Proof. induction a as [|x a IH]; simpl; lia. Qed.

(** No rejection is lost: each is a record or is counted in the next one. *)
Lemma client_conserves e times :
  0 <= from_option suppressed 0 e -> from_option suppressed 0 e + Z.of_nat (length times) <= max_of 32 ->
  held (client e times).2 + from_option suppressed 0 (client e times).1
  = Z.of_nat (length times) + from_option suppressed 0 e.
Proof.
  revert e. induction times as [|now rest IH]; intros e H0 Hb; [simpl; lia|]. cbn [client].
  destruct e as [e|].
  - unfold admit_entry. destruct (_ <? WINDOW).
    + specialize (IH (Some (mkEntry (logged_at e) (saturating_add 32 (suppressed e) 1)))).
      destruct (client _ rest) as [e' log]. simpl in *. unfold saturating_add in *. lia.
    + specialize (IH (Some (mkEntry now 0))). destruct (client _ rest) as [e' log]. simpl in *. lia.
  - specialize (IH (Some (mkEntry now 0))). destruct (client _ rest) as [e' log]. simpl in *. lia.
Qed.

Lemma client_pending e times :
  0 <= from_option suppressed 0 e -> 0 <= from_option suppressed 0 (client e times).1.
Proof.
  revert e. induction times as [|t ts IH]; intros e H0; [done|]. cbn [client].
  set (r := match e with Some e => admit_entry t e | None => (mkEntry t 0, Some 0) end).
  assert (0 <= suppressed r.1).
  { unfold r. destruct e; unfold admit_entry; [case_if|]; simpl in *; unfold saturating_add, max_of; lia. }
  destruct r as [e1 a]. specialize (IH (Some e1)). destruct (client (Some e1) ts). simpl in *. auto.
Qed.

Lemma client_spaced e times :
  StronglySorted (fun a b => a.1 + WINDOW <= b.1) (client e times).2
  /\ Forall (fun x => from_option (fun e => logged_at e + WINDOW <= x.1) True e) (client e times).2.
Proof.
  revert e. induction times as [|now rest IH]; intros e; [split; constructor|]. cbn [client].
  assert (Hnew : forall e, (forall x, x = now -> from_option (fun e => logged_at e + WINDOW <= x) True e) ->
    let '(_, log) := client (Some (mkEntry now 0)) rest in
    forall n, StronglySorted (fun a b => a.1 + WINDOW <= b.1) ((now, n) :: log)
    /\ Forall (fun x => from_option (fun e => logged_at e + WINDOW <= x.1) True e) ((now, n) :: log)).
  { intros e' He. specialize (IH (Some (mkEntry now 0))). destruct (client _ rest) as [e'' log].
    destruct IH as [H1 H2]. simpl in *. intros n. split; [by constructor|]. constructor; [simpl; by apply He|].
    eapply Forall_impl; [exact H2|]. intros x Hx. destruct e' as [e'|]; simpl in *; [|done].
    specialize (He _ eq_refl). unfold WINDOW, from_mins, from_secs, NANOS in *. lia. }
  destruct e as [e|].
  - unfold admit_entry. destruct (_ <? WINDOW) eqn:E.
    + specialize (IH (Some (mkEntry (logged_at e) (saturating_add 32 (suppressed e) 1)))).
      destruct (client _ rest) as [e' log]. done.
    + specialize (Hnew (Some e)). destruct (client _ rest) as [e' log]. apply Hnew.
      intros x ->. simpl. unfold saturating_duration_since in E. bool_to_prop.
      unfold WINDOW, from_mins, from_secs, NANOS in *. lia.
  - specialize (Hnew None). destruct (client _ rest) as [e' log]. by apply Hnew.
Qed.

(** ** Properties *)

(** The audit records about one client address (its /64), while at most
    [MAX_CLIENTS] addresses are seen: two of them are always at least a minute
    apart, and together with the count still held back they account for every
    rejection exactly once. The table never exceeds [MAX_CLIENTS]. *)
Theorem coalesce_accounts reqs key :
  (size (addresses reqs) <= MAX_CLIENTS)%nat -> Z.of_nat (length reqs) <= max_of 32 ->
  let log := records key reqs (rejections empty_coalescer reqs).2 in
  StronglySorted (fun a b => a.1 + WINDOW <= b.1) log
  /\ (exists pending, 0 <= pending /\ held log + pending = Z.of_nat (length (own key reqs)))
  /\ (tracked (rejections empty_coalescer reqs).1 <= MAX_CLIENTS)%nat.
Proof.
  intros Hn Hl log. unfold log, empty_coalescer. rewrite (rejections_client ∅ reqs (addresses reqs)) by (done || set_solver).
  rewrite lookup_empty. split_and!.
  - apply client_spaced.
  - assert (Ho : (length (own key reqs) <= length reqs)%nat) by apply length_omap_le.
    pose proof (client_conserves None (own key reqs)) as H. simpl in H.
    exists (from_option suppressed 0 (client None (own key reqs)).1).
    split; [by apply client_pending|lia].
  - apply rejections_bounded. simpl. rewrite map_size_empty. lia.
Qed.

End Coalescer.

Lemma coalesce_accounts_witness :
  StronglySorted (fun a b => a.1 + WINDOW <= b.1)
    (records (V4 10 0 0 1) [(V4 10 0 0 1, 5); (V4 10 0 0 1, 6); (V4 10 0 0 1, 70 * NANOS)]
      (rejections (Iteration0 := canonical_iteration _ _) empty_coalescer
         [(V4 10 0 0 1, 5); (V4 10 0 0 1, 6); (V4 10 0 0 1, 70 * NANOS)]).2).
Proof.
  apply (coalesce_accounts (Iteration0 := canonical_iteration _ _)); [vm_compute; lia|vm_compute; congruence].
Defined.
