(* ===== verification/Base32.v ===== *)
(** * Base32

    [crates/detent-web/src/auth/base32.rs]: RFC 4648 base32 with a 16-bit
    buffer. A byte is a [Z] below 256. *)

From Stdlib Require Import ZArith.
From S2P Require Import Prelude Str Num.
#[local] Open Scope Z_scope.

Definition ALPHABET : list rchar := lit "ABCDEFGHIJKLMNOPQRSTUVWXYZ234567".
Definition EQUALS : Z := 61.

(** [u16] shift left, dropping the bits past 16. *)
Definition shl16 (x k : Z) : Z := Z.land (Z.shiftl x k) (max_of 16).

(** [ALPHABET.get(index)], pushed when there is one. *)
Definition symbol (index : Z) : rstr := option_list (ALPHABET !! Z.to_nat index).

(** The [while bits >= 5] loop; each round takes 5 of the [bits]. *)
Fixpoint emit (fuel : nat) (buffer bits : Z) : rstr * Z :=
  match fuel with
  | O => ([], bits)
  | S fuel =>
      if 5 <=? bits then
        let bits := bits - 5 in
        let '(out, remaining) := emit fuel buffer bits in
        (symbol (Z.land (Z.shiftr buffer bits) 31) ++ out, remaining)
      else ([], bits)
  end.

Fixpoint encode_from (buffer bits : Z) (input : list Z) : rstr :=
  match input with
  | [] => if 0 <? bits then symbol (Z.land (shl16 buffer (5 - bits)) 31) else []
  | byte :: rest =>
      let buffer := Z.lor (shl16 buffer 8) byte in
      let bits := bits + 8 in
      let '(out, bits) := emit (Z.to_nat bits) buffer bits in
      out ++ encode_from buffer bits rest
  end.

Definition encode (input : list Z) : rstr := encode_from 0 0 input.

Definition symbol_value (s : Z) : option Z :=
  if (65 <=? s) && (s <=? 90) then Some (s - 65)
  else if (97 <=? s) && (s <=? 122) then Some (s - 97)
  else if (50 <=? s) && (s <=? 55) then Some (s - 50 + 26)
  else None.

Fixpoint decode_from (buffer bits : Z) (ended : bool) (text : list Z) : option (list Z) :=
  match text with
  | [] =>
      if (5 <=? bits) || negb (Z.land buffer (saturating_sub (shl16 1 bits) 1) =? 0) then None else Some []
  | s :: rest =>
      if s =? EQUALS then decode_from buffer bits true rest
      else if ended then None
      else
        value ← symbol_value s;
        let buffer := Z.lor (shl16 buffer 5) value in
        let bits := bits + 5 in
        if 8 <=? bits then
          let bits := bits - 8 in
          out ← decode_from buffer bits ended rest;
          Some (Z.land (Z.shiftr buffer bits) 255 :: out)
        else decode_from buffer bits ended rest
  end.

Definition decode (text : rstr) : option (list Z) := decode_from 0 0 false (bytes text).

Example encode_foobar : encode (bytes (lit "foobar")) = lit "MZXW6YTBOI".
Proof. reflexivity. Qed.
Example decode_foobar : decode (lit "mzxw6YTBOI======") = Some (bytes (lit "foobar")).
Proof. reflexivity. Qed.
Example decode_noncanonical : decode (lit "MZXW6YTBOJ") = None.
Proof. reflexivity. Qed.

(** ** Numbers in a base *)

Definition num (base acc : Z) (ds : list Z) : Z := foldl (fun a d => a * base + d) acc ds.
Definition below (base : Z) (ds : list Z) : Prop := Forall (fun d => 0 <= d < base) ds.
Definition len {A} (l : list A) : Z := Z.of_nat (length l).

Lemma len_cons {A} (x : A) l : len (x :: l) = len l + 1.
Proof. unfold len. simpl. lia. Qed.
Lemma len_nonneg {A} (l : list A) : 0 <= len l.
Proof. unfold len. lia. Qed.
#[local] Hint Resolve len_nonneg : core.

Lemma num_acc base acc ds : num base acc ds = acc * base ^ len ds + num base 0 ds.
Proof.
  revert acc. induction ds as [|d ds IH]; intros acc; simpl; [unfold len; simpl; lia|].
  rewrite IH, (IH (0 * base + d)), len_cons, Z.pow_add_r by (auto; lia). lia.
Qed.

Lemma num_cons base d ds : num base 0 (d :: ds) = d * base ^ len ds + num base 0 ds.
Proof. unfold num at 1. simpl. fold (num base d ds). apply num_acc. Qed.

Lemma num_app base a b : num base 0 (a ++ b) = num base 0 a * base ^ len b + num base 0 b.
Proof. unfold num at 1. rewrite foldl_app. apply num_acc. Qed.

Lemma num_bound base ds : 0 < base -> below base ds -> 0 <= num base 0 ds < base ^ len ds.
Proof.
  intros Hb. induction 1 as [|d ds Hd _ IH]; [done|]. rewrite num_cons, len_cons, Z.pow_add_r by (auto; lia).
  pose proof (Z.pow_pos_nonneg base (len ds)). nia.
Qed.

Lemma num_inj base a b : 0 < base -> below base a -> below base b ->
  length a = length b -> num base 0 a = num base 0 b -> a = b.
Proof.
  intros Hb Ha. revert b. induction Ha as [|x a Hx Ha IH]; intros [|y b] Hbb Hl Hn; try done.
  apply Forall_cons in Hbb as [Hy Hbb]. rewrite !num_cons in Hn. simpl in Hl.
  assert (len a = len b) as El by (unfold len; lia). rewrite El in Hn.
  pose proof (num_bound base a Hb Ha) as Ba. pose proof (num_bound base b Hb Hbb) as Bb. rewrite El in Ba.
  assert (x = y) by nia. subst. f_equal. apply IH; [done|lia|lia].
Qed.

(** ** The buffer *)

(** Pushing [k] bits under the low [n] of a [w]-bit buffer. *)
Lemma push_mod w k n x b : 0 <= k -> 0 <= n -> n + k <= w -> 0 <= b < 2 ^ k ->
  ((x * 2 ^ k) mod 2 ^ w + b) mod 2 ^ (n + k) = (x mod 2 ^ n) * 2 ^ k + b.
Proof.
  intros Hk Hn Hw Hb.
  assert (E : (x * 2 ^ k) mod 2 ^ w mod 2 ^ (n + k) = (x mod 2 ^ n) * 2 ^ k).
  { rewrite Z.mod_mod_divide by (exists (2 ^ (w - (n + k))); rewrite <- Z.pow_add_r by lia; f_equal; lia).
    rewrite Z.pow_add_r, Z.mul_mod_distr_r by lia. done. }
  pose proof (Z.mod_pos_bound x (2 ^ n)). pose proof (Z.pow_pos_nonneg 2 n). pose proof (Z.pow_pos_nonneg 2 k).
  rewrite Z.add_mod, E by (apply Z.pow_nonzero; lia).
  assert (2 ^ k <= 2 ^ (n + k)) by (apply Z.pow_le_mono_r; lia).
  rewrite (Z.mod_small b) by lia. apply Z.mod_small. rewrite Z.pow_add_r by lia. nia.
Qed.

(** The [j] bits above the low [n]. *)
Lemma split_mod j n x : 0 <= j -> 0 <= n ->
  x mod 2 ^ (n + j) = Z.land (Z.shiftr x n) (2 ^ j - 1) * 2 ^ n + x mod 2 ^ n.
Proof.
  intros Hj Hn. replace (2 ^ j - 1) with (Z.ones j) by (rewrite Z.ones_equiv; lia).
  rewrite Z.land_ones, Z.shiftr_div_pow2 by lia. pose proof (Z.pow_pos_nonneg 2 n).
  pose proof (Z.pow_pos_nonneg 2 j). rewrite Z.pow_add_r, Z.rem_mul_r by lia. lia.
Qed.

Lemma land_ones_bound x j : 0 <= j -> 0 <= Z.land x (2 ^ j - 1) < 2 ^ j.
Proof.
  intros Hj. replace (2 ^ j - 1) with (Z.ones j) by (rewrite Z.ones_equiv; lia).
  rewrite Z.land_ones by lia. apply Z.mod_pos_bound. lia.
Qed.

Definition symbols (ds : list Z) : rstr := concat (symbol <$> ds).

Lemma emit_spec fuel buffer bits : 0 <= bits <= Z.of_nat fuel ->
  exists ds r, emit fuel buffer bits = (symbols ds, r) /\ below 32 ds /\ 0 <= r < 5
    /\ 5 * len ds + r = bits /\ num 32 0 ds * 2 ^ r + buffer mod 2 ^ r = buffer mod 2 ^ bits.
Proof.
  revert bits. induction fuel as [|fuel IH]; intros bits Hb; simpl.
  { exists [], bits. assert (bits = 0) as -> by lia. by split_and!; try constructor. }
  destruct (5 <=? bits) eqn:E; bool_to_prop.
  - destruct (IH (bits - 5)) as (ds & r & -> & Hds & Hr & Hl & Hv); [lia|].
    pose proof (land_ones_bound (Z.shiftr buffer (bits - 5)) 5 ltac:(lia)) as Hd.
    change (2 ^ 5 - 1) with 31 in Hd. change (2 ^ 5) with 32 in Hd.
    exists (Z.land (Z.shiftr buffer (bits - 5)) 31 :: ds), r. split_and!; try (done || lia).
    + constructor; [lia|done].
    + rewrite len_cons. lia.
    + rewrite num_cons. replace bits with (bits - 5 + 5) at 2 by lia. rewrite split_mod by lia.
      change (2 ^ 5 - 1) with 31. rewrite <- Hv, Z.mul_add_distr_r.
      replace (2 ^ (bits - 5)) with (32 ^ len ds * 2 ^ r).
      * lia.
      * replace 32 with (2 ^ 5) by done. rewrite <- Z.pow_mul_r, <- Z.pow_add_r by (auto; lia). f_equal. lia.
  - exists [], bits. split_and!; try (done || lia). constructor.
Qed.

Lemma symbols_app a b : symbols (a ++ b) = symbols a ++ symbols b.
Proof. unfold symbols. by rewrite fmap_app, concat_app. Qed.

(** What the encoder writes: the bits of the input, padded with zeros to a
    multiple of five, read as a number. *)
Lemma encode_from_spec buffer bits input : 0 <= bits < 5 -> Forall is_byte input ->
  exists ds e, encode_from buffer bits input = symbols ds /\ below 32 ds /\ 0 <= e < 5
    /\ 5 * len ds = bits + 8 * len input + e
    /\ num 32 0 ds = ((buffer mod 2 ^ bits) * 256 ^ len input + num 256 0 input) * 2 ^ e.
Proof.
  intros Hb Hin. revert buffer bits Hb. induction Hin as [|byte input Hbyte _ IH]; intros buffer bits Hb; cbn [encode_from].
  - destruct (0 <? bits) eqn:E; bool_to_prop.
    + set (d := Z.land _ 31). exists [d], (5 - bits).
      assert (Hd : d = (buffer mod 2 ^ bits) * 2 ^ (5 - bits)).
      { unfold d, shl16. pose proof (shl_or_mod 16 (5 - bits) buffer 0 ltac:(lia)) as H.
        rewrite Z.lor_0_r in H. rewrite H by (pose proof (Z.pow_pos_nonneg 2 (5 - bits)); lia).
        change 31 with (Z.ones 5). rewrite Z.land_ones by lia.
        pose proof (push_mod 16 (5 - bits) bits buffer 0 ltac:(lia) ltac:(lia) ltac:(lia)) as P.
        replace (bits + (5 - bits)) with 5 in P by lia. rewrite P; [lia|].
        pose proof (Z.pow_pos_nonneg 2 (5 - bits)). lia. }
      split_and!; try lia.
      * unfold symbols. simpl. by rewrite app_nil_r.
      * constructor; [|constructor]. unfold d. apply (land_ones_bound _ 5). lia.
      * unfold len. simpl. lia.
      * rewrite num_cons, Hd. cbn. rewrite Z.mul_1_r, !Z.add_0_r, Z.mul_1_r. done.
    + assert (bits = 0) as -> by lia. exists [], 0. split_and!; try (done || lia); [constructor|].
      simpl. rewrite Z.mod_1_r. done.
  - unfold shl16. unfold is_byte in Hbyte. rewrite shl_or_mod by lia.
    set (buf := _ + byte). destruct (emit_spec (Z.to_nat (bits + 8)) buf (bits + 8)) as (ds & r & -> & Hds & Hr & Hl & Hv); [lia|].
    destruct (IH buf r Hr) as (ds' & e & -> & Hds' & He & Hl' & Hv').
    exists (ds ++ ds'), e. rewrite symbols_app. split_and!; try (done || lia).
    + by apply Forall_app.
    + unfold len in *. rewrite length_app. simpl length. lia.
    + rewrite num_app, num_cons, Hv', len_cons. unfold buf in Hv at 2. rewrite push_mod in Hv by lia.
      set (p := buffer mod 2 ^ bits) in *. set (q := buf mod 2 ^ r) in *.
      pose proof (len_nonneg input). pose proof (len_nonneg ds').
      assert (E32 : 32 ^ len ds' = 2 ^ r * 256 ^ len input * 2 ^ e).
      { replace 32 with (2 ^ 5) by done. replace 256 with (2 ^ 8) by done.
        rewrite <- !Z.pow_mul_r, <- !Z.pow_add_r by (auto; lia). f_equal. lia. }
      rewrite E32, Z.pow_add_r by (auto; lia). change (256 ^ 1) with 256. change (2 ^ 8) with 256 in Hv. nia.
Qed.

(** ** The decoder on symbol values *)

Fixpoint decode_values (buffer bits : Z) (ds : list Z) : option (list Z) :=
  match ds with
  | [] => if (5 <=? bits) || negb (Z.land buffer (saturating_sub (shl16 1 bits) 1) =? 0) then None else Some []
  | value :: rest =>
      let buffer := Z.lor (shl16 buffer 5) value in
      let bits := bits + 5 in
      if 8 <=? bits then
        let bits := bits - 8 in
        out ← decode_values buffer bits rest;
        Some (Z.land (Z.shiftr buffer bits) 255 :: out)
      else decode_values buffer bits rest
  end.

Lemma symbol_value_equals : symbol_value EQUALS = None.
Proof. done. Qed.

Lemma decode_from_padding buffer bits k ended :
  decode_from buffer bits ended (replicate k EQUALS) = decode_values buffer bits [].
Proof. revert ended. induction k as [|k IH]; intros ended; simpl; [done|apply IH]. Qed.

Lemma decode_from_values buffer bits ss ds k : mapM symbol_value ss = Some ds ->
  decode_from buffer bits false (ss ++ replicate k EQUALS) = decode_values buffer bits ds.
Proof.
  intros H%mapM_Some. revert buffer bits. induction H as [|s d ss ds Hs _ IH]; intros buffer bits.
  - apply decode_from_padding.
  - simpl. destruct (s =? EQUALS) eqn:E; bool_to_prop; [subst; done|].
    rewrite Hs. simpl. case_if; by rewrite IH.
Qed.

Lemma decode_from_ended buffer bits text out : decode_from buffer bits true text = Some out ->
  exists k, text = replicate k EQUALS.
Proof.
  revert buffer bits out. induction text as [|s text IH]; intros buffer bits out H; [by exists 0%nat|].
  simpl in H. destruct (s =? EQUALS) eqn:E; bool_to_prop; [|done]. subst.
  apply IH in H as [k ->]. by exists (S k).
Qed.

Lemma decode_from_inv buffer bits text out : decode_from buffer bits false text = Some out ->
  exists ss ds k, text = ss ++ replicate k EQUALS /\ mapM symbol_value ss = Some ds.
Proof.
  revert buffer bits out. induction text as [|s text IH]; intros buffer bits out H; [by exists [], [], 0%nat|].
  simpl in H. destruct (s =? EQUALS) eqn:E; bool_to_prop.
  - subst. apply decode_from_ended in H as [k ->]. by exists [], [], (S k).
  - apply bind_Some in H as (v & Hv & H).
    assert (Hrec : exists b n o, decode_from b n false text = Some o).
    { case_if; [apply bind_Some in H as (o & H & _)|]; eauto. }
    destruct Hrec as (b & n & o & Ho). apply IH in Ho as (ss & ds & k & -> & Hss).
    exists (s :: ss), (v :: ds), k. split; [done|]. simpl. by rewrite Hv, Hss.
Qed.

(** What the decoder answers: the bytes the symbols hold, and only when the bits
    left over are fewer than five and zero. *)
Lemma decode_values_spec buffer bits ds : 0 <= bits < 8 -> below 32 ds ->
  exists out e rem, 0 <= e < 8 /\ 0 <= rem < 2 ^ e /\ Forall is_byte out
    /\ bits + 5 * len ds = 8 * len out + e
    /\ (buffer mod 2 ^ bits) * 32 ^ len ds + num 32 0 ds = num 256 0 out * 2 ^ e + rem
    /\ decode_values buffer bits ds = if (5 <=? e) || negb (rem =? 0) then None else Some out.
Proof.
  intros Hb Hds. revert buffer bits Hb. induction Hds as [|d ds Hd _ IH]; intros buffer bits Hb; cbn [decode_values].
  - exists [], bits, (buffer mod 2 ^ bits). pose proof (Z.mod_pos_bound buffer (2 ^ bits)).
    pose proof (Z.pow_pos_nonneg 2 bits).
    split_and!; [lia|lia|lia|lia|constructor|unfold len; simpl; lia|unfold len; simpl; lia|].
    replace (saturating_sub (shl16 1 bits) 1) with (2 ^ bits - 1).
    + replace (2 ^ bits - 1) with (Z.ones bits) by (rewrite Z.ones_equiv; lia). by rewrite Z.land_ones by lia.
    + pose proof (shl_or_mod 16 bits 1 0 ltac:(lia) ltac:(lia)) as E. rewrite Z.lor_0_r, Z.add_0_r in E.
      unfold shl16. rewrite E. assert (2 ^ bits <= 2 ^ 7) by (apply Z.pow_le_mono_r; lia).
      rewrite Z.mod_small by lia. unfold saturating_sub. lia.
  - unfold shl16. rewrite shl_or_mod by lia. set (buf := _ + d).
    assert (Hp : buf mod 2 ^ (bits + 5) = (buffer mod 2 ^ bits) * 32 + d) by (unfold buf; rewrite push_mod by lia; done).
    pose proof (len_nonneg ds).
    destruct (8 <=? bits + 5) eqn:E; bool_to_prop.
    + destruct (IH buf (bits + 5 - 8)) as (out & e & rem & He & Hrem & Hout & Hl & Hv & ->); [lia|].
      set (byte := Z.land _ 255). exists (byte :: out), e, rem.
      pose proof (land_ones_bound (Z.shiftr buf (bits + 5 - 8)) 8 ltac:(lia)) as Hbyte.
      change (2 ^ 8 - 1) with 255 in Hbyte. fold byte in Hbyte.
      split_and!; try (done || lia).
      * constructor; [|done]. unfold is_byte. lia.
      * rewrite !len_cons. lia.
      * rewrite !num_cons, len_cons, Z.pow_add_r by lia.
        assert (Hs : buf mod 2 ^ (bits + 5) = byte * 2 ^ (bits + 5 - 8) + buf mod 2 ^ (bits + 5 - 8)).
        { replace (bits + 5) with (bits + 5 - 8 + 8) at 1 by lia. by rewrite split_mod by lia. }
        assert (E32 : 2 ^ (bits + 5 - 8) * 32 ^ len ds = 256 ^ len out * 2 ^ e).
        { pose proof (len_nonneg out). replace 32 with (2 ^ 5) by done. replace 256 with (2 ^ 8) by done.
          rewrite <- !Z.pow_mul_r, <- !Z.pow_add_r by (auto; lia). f_equal. lia. }
        rewrite Hp in Hs. change (32 ^ 1) with 32. nia.
      * by destruct ((5 <=? e) || _).
    + destruct (IH buf (bits + 5)) as (out & e & rem & He & Hrem & Hout & Hl & Hv & ->); [lia|].
      exists out, e, rem. split_and!; try (done || lia).
      * rewrite len_cons. lia.
      * rewrite num_cons, len_cons, Z.pow_add_r by lia. rewrite Hp in Hv. change (32 ^ 1) with 32. nia.
Qed.

(** ** Symbols and their values *)

Lemma symbol_char d : 0 <= d < 32 ->
  exists c, symbol d = [c] /\ (c < 128)%N /\ symbol_value (Z.of_N c) = Some d /\ char_to_ascii_uppercase c = c.
Proof.
  intros Hd. set (ok := fun n : nat => match symbol (Z.of_nat n) with
    | [c] => (c <? 128)%N && bool_decide (symbol_value (Z.of_N c) = Some (Z.of_nat n))
             && (char_to_ascii_uppercase c =? c)%N
    | _ => false end).
  assert (Hall : forallb ok (seq 0 32) = true) by reflexivity.
  rewrite forallb_forall in Hall. specialize (Hall (Z.to_nat d) ltac:(apply in_seq; lia)). unfold ok in Hall. rewrite Z2Nat.id in Hall by lia.
  destruct (symbol d) as [|c [|]]; try done. bool_to_prop. eauto.
Qed.

Lemma values_symbols ds : below 32 ds -> mapM symbol_value (bytes (symbols ds)) = Some ds.
Proof.
  induction 1 as [|d ds Hd _ IH]; [done|]. destruct (symbol_char d Hd) as (c & Hc & Ha & Hv & _).
  unfold symbols. rewrite fmap_cons, concat_cons, Hc. simpl. rewrite bytes_cons, utf8_ascii by done. simpl.
  rewrite Hv. simpl. unfold symbols in IH. by rewrite IH.
Qed.

Lemma symbols_inj a b : below 32 a -> below 32 b -> symbols a = symbols b -> a = b.
Proof. intros Ha Hb E. apply values_symbols in Ha, Hb. congruence. Qed.

Lemma decode_values_iff ds out : below 32 ds ->
  decode_values 0 0 ds = Some out <-> Forall is_byte out /\ encode out = symbols ds.
Proof.
  intros Hds. pose proof (len_nonneg ds). pose proof (len_nonneg out).
  destruct (decode_values_spec 0 0 ds ltac:(lia) Hds) as (o & f & rem & Hf & Hrem & Ho & Hm & Hw & ->).
  pose proof (len_nonneg o).
  rewrite Z.mod_1_r, Z.mul_0_l, Z.add_0_l in Hw. split.
  - destruct ((5 <=? f) || negb (rem =? 0)) eqn:E; [done|]. bool_to_prop. intros [= ->]. split; [done|].
    destruct (encode_from_spec 0 0 out ltac:(lia) Ho) as (es & e & He & Hes & Hr & Hl & Hv).
    rewrite Z.mod_1_r, Z.mul_0_l, Z.add_0_l in Hv. pose proof (len_nonneg es).
    unfold encode. rewrite He. f_equal. assert (e = f) as -> by lia.
    apply (num_inj 32); [lia|done|done|unfold len in *; lia|lia].
  - intros [Hout Henc].
    destruct (encode_from_spec 0 0 out ltac:(lia) Hout) as (es & e & He & Hes & Hr & Hl & Hv).
    rewrite Z.mod_1_r, Z.mul_0_l, Z.add_0_l in Hv. unfold encode in Henc. rewrite He in Henc. apply symbols_inj in Henc; [|done..]. subst es.
    assert (e = f) as -> by lia. pose proof (Z.pow_pos_nonneg 2 f ltac:(lia) ltac:(lia)).
    rewrite Hv in Hw. assert (num 256 0 out = num 256 0 o) as Hn by nia.
    assert (rem = 0) as -> by (rewrite Hn in Hw; lia).
    rewrite (proj2 (Z.leb_gt _ _)) by lia. simpl. f_equal. symmetry.
    apply (num_inj 256); [lia|done|done|unfold len in *; lia|done].
Qed.

(** ** Text *)

Lemma symbol_value_ascii s v : symbol_value s = Some v -> s < 128 /\ 0 <= v < 32.
Proof.
  unfold symbol_value. repeat case_if; intros [= <-]; bool_to_prop; lia.
Qed.

Lemma symbol_value_upper c v : (c < 128)%N -> symbol_value (Z.of_N c) = Some v ->
  symbol v = [char_to_ascii_uppercase c].
Proof.
  intros Hc Hv. set (ok := fun n : nat => match symbol_value (Z.of_nat n) with
    | Some v => bool_decide (symbol v = [char_to_ascii_uppercase (N.of_nat n)]) | None => true end).
  assert (Hall : forallb ok (seq 0 128) = true) by reflexivity.
  rewrite forallb_forall in Hall. specialize (Hall (N.to_nat c) ltac:(apply in_seq; lia)).
  unfold ok in Hall. rewrite N_nat_Z, Hv, N2Nat.id in Hall. by apply bool_decide_eq_true in Hall.
Qed.

Definition padded (body : rstr) (k : nat) : rstr := body ++ replicate k 61%N.

Lemma bytes_app a b : bytes (a ++ b) = bytes a ++ bytes b.
Proof. unfold bytes. by rewrite fmap_app, concat_app. Qed.

Lemma bytes_padded body k : bytes (padded body k) = bytes body ++ replicate k EQUALS.
Proof. unfold padded. rewrite bytes_app. f_equal. induction k as [|k IH]; [done|]. simpl. by rewrite bytes_cons, IH. Qed.

(** A text that starts with an ASCII byte starts with that character. *)
Lemma bytes_head text x rest : bytes text = x :: rest -> x < 128 ->
  exists c text', text = c :: text' /\ (c < 128)%N /\ x = Z.of_N c /\ bytes text' = rest.
Proof.
  destruct text as [|c text]; [done|]. rewrite bytes_cons. intros Hb Hx.
  destruct (decide (c < 128)%N) as [Hc|Hc].
  - rewrite utf8_ascii in Hb by done. simpl in Hb. injection Hb as <- <-. eauto 10.
  - exfalso. destruct (utf8 c) as [|y ys] eqn:E; [by apply utf8_nonempty in E|]. simpl in Hb. injection Hb as -> _.
    assert (128 <= x) by (apply (utf8_high c); [lia|rewrite E; by left]). lia.
Qed.

Lemma bytes_padding text k : bytes text = replicate k EQUALS -> text = replicate k 61%N.
Proof.
  revert text. induction k as [|k IH]; intros text Hb.
  - destruct text as [|c text]; [done|]. rewrite bytes_cons in Hb. simpl in Hb.
    apply app_nil in Hb as [E _]. by apply utf8_nonempty in E.
  - apply bytes_head in Hb as (c & text' & -> & _ & Hc & Hb); [|done]. unfold EQUALS in Hc. simpl.
    rewrite (IH _ Hb). f_equal. lia.
Qed.

(** A text whose bytes are symbols and then padding is such a text. *)
Lemma bytes_split text ss ds k : bytes text = ss ++ replicate k EQUALS -> mapM symbol_value ss = Some ds ->
  exists body, text = padded body k /\ Forall (fun c => (c < 128)%N) body /\ bytes body = ss.
Proof.
  intros Hb Hs%mapM_Some. revert text Hb. induction Hs as [|s d ss ds Hd _ IH]; intros text Hb.
  - exists []. split_and!; [|constructor|done]. by apply bytes_padding.
  - apply symbol_value_ascii in Hd as [Hs _].
    apply bytes_head in Hb as (c & text' & -> & Hc & -> & Hb); [|done].
    destruct (IH _ Hb) as (body & -> & Hbody & <-). exists (c :: body).
    split_and!; [done|by constructor|]. by rewrite bytes_cons, utf8_ascii.
Qed.

Lemma symbols_upper body ds : Forall (fun c => (c < 128)%N) body -> mapM symbol_value (bytes body) = Some ds ->
  symbols ds = to_ascii_uppercase body /\ below 32 ds.
Proof.
  intros Hb. revert ds. induction Hb as [|c body Hc _ IH]; intros ds Hs.
  - injection Hs as <-. split; [done|constructor].
  - rewrite bytes_cons, utf8_ascii in Hs by done. simpl in Hs.
    apply bind_Some in Hs as (v & Hv & (vs & Hvs & [= <-])%bind_Some).
    destruct (IH _ Hvs) as [Hsym Hbel]. split.
    + unfold symbols in *. rewrite fmap_cons, concat_cons, Hsym, (symbol_value_upper c v) by done. done.
    + constructor; [|done]. apply symbol_value_ascii in Hv. lia.
Qed.

Lemma encode_symbols input : Forall is_byte input -> exists ds, encode input = symbols ds /\ below 32 ds.
Proof.
  intros H. destruct (encode_from_spec 0 0 input ltac:(lia) H) as (ds & e & He & Hds & _). eauto.
Qed.

(** The symbols a text spells, whatever their case. *)
Lemma upper_values body ds : below 32 ds -> to_ascii_uppercase body = symbols ds ->
  mapM symbol_value (bytes body) = Some ds.
Proof.
  intros Hds. revert body. induction Hds as [|d ds Hd _ IH]; intros body Hu.
  - apply fmap_nil_inv in Hu. by subst.
  - destruct (symbol_char d Hd) as (c & Hc & Ha & Hv & Hup).
    unfold symbols in Hu. rewrite fmap_cons, concat_cons, Hc in Hu. simpl in Hu.
    apply fmap_cons_inv in Hu as (x & body' & Hx & Hb & ->). symmetry in Hb. fold (symbols ds) in Hb.
    assert (Hlow : (x < 128)%N /\ symbol_value (Z.of_N x) = Some d).
    { unfold char_to_ascii_uppercase, is_ascii_lowercase in Hx. case_if; [|by subst].
      bool_to_prop. split; [lia|]. subst c.
      unfold symbol_value in *. rewrite N2Z.inj_sub in Hv by lia. simpl in Hv.
      repeat case_if; bool_to_prop; try done; try lia; simplify_eq; f_equal; lia. }
    destruct Hlow as [Hl Hvx]. rewrite bytes_cons, utf8_ascii by done. simpl. rewrite Hvx. simpl.
    by rewrite (IH body').
Qed.

(** ** Property *)

(** [decode] accepts exactly the encodings, in either case and with any
    trailing padding, and gives back the bytes: it answers [out] exactly when
    [out] is a byte string and the text is its encoding up to case and trailing
    [=]; so [decode (encode b) = Some b], and no two byte strings share a text. *)
Theorem base32_decode_iff text out :
  decode text = Some out <->
  Forall is_byte out /\ exists body k, text = padded body k /\ to_ascii_uppercase body = encode out.
Proof.
  unfold decode. split.
  - intros H. destruct (decode_from_inv _ _ _ _ H) as (ss & ds & k & Hb & Hs).
    destruct (bytes_split _ _ _ _ Hb Hs) as (body & -> & Hbody & <-).
    destruct (symbols_upper body ds Hbody Hs) as [Hup Hds].
    rewrite Hb, (decode_from_values _ _ _ ds) in H by done.
    apply decode_values_iff in H as [Hout Henc]; [|done]. split; [done|].
    exists body, k. by rewrite Henc, Hup.
  - intros (Hout & body & k & -> & Hup). destruct (encode_symbols out Hout) as (ds & He & Hds).
    rewrite He in Hup. rewrite bytes_padded, (decode_from_values _ _ _ ds) by (by apply upper_values).
    by apply decode_values_iff.
Qed.
