(* ===== verification/Totp.v ===== *)
(** * Time-based one-time passwords

    [crates/detent-web/src/auth/totp.rs]: RFC 6238 codes over HMAC-SHA1, a window
    of one step either side, and the refusal of a code from a counter already
    used. HMAC-SHA1 is a parameter. *)

From Stdlib Require Import ZArith Sorting.
From S2P Require Import Prelude Str Num Ip Doc Diag AuthErr Base32.
#[local] Open Scope Z_scope.

Definition STEP_SECS : Z := 30.
Definition DIGITS : nat := 6.
Definition WINDOW_STEPS : Z := 1.
Definition MIN_SECRET_BYTES : nat := 16.
Definition ISSUER : rstr := lit "detent".
Definition MODULUS : Z := 1000000.

(** [u64::to_be_bytes]. *)
Definition to_be_bytes (n : Z) : list Z := (fun i => Z.land (Z.shiftr n (8 * Z.of_nat i)) 255) <$> [7; 6; 5; 4; 3; 2; 1; 0]%nat.

(** [{n:06}]: decimal, padded with zeros to [width]. *)
Definition pad0 (width : nat) (n : Z) : rstr :=
  let s := show_dec n in replicate (width - length s) 48%N ++ s.

(** A secret is its bytes. *)
Definition from_base32 (text : rstr) : result AuthError (list Z) :=
  match decode text with
  | None => Err TotpSecretInvalid
  | Some bytes => if (length bytes <? MIN_SECRET_BYTES)%nat then Err TotpSecretInvalid else Ok bytes
  end.

Definition to_base32 (secret : list Z) : rstr := encode secret.

(** ** The enrolment URI *)

Definition upper_hex_digit (d : Z) : rchar := char_to_ascii_uppercase (digit_char d).

Definition percent_encode_byte (b : Z) : rstr :=
  if is_ascii_alphanumeric (Z.to_N b) || bool_decide (b ∈ [45; 46; 95; 126])
  then [Z.to_N b] else [37%N; upper_hex_digit (b / 16); upper_hex_digit (b mod 16)].

Definition percent_encode (bs : list Z) : rstr := concat (percent_encode_byte <$> bs).

Definition otpauth_uri (secret : list Z) (account : rstr) : rstr :=
  let label := percent_encode (bytes ISSUER) ++ lit ":" ++ percent_encode (bytes account) in
  lit "otpauth://totp/" ++ label ++ lit "?secret=" ++ to_base32 secret ++ lit "&issuer="
    ++ percent_encode (bytes ISSUER) ++ lit "&algorithm=SHA1&digits=6&period=30".

Section Totp.
Variable hmac_sha1 : list Z -> list Z -> list Z.

(** RFC 4226 dynamic truncation: four bytes from the offset the last one names. *)
Fixpoint window (steps : nat) (tag : list Z) (at_ : nat) (value : Z) : Z :=
  match steps with
  | O => value
  | S steps =>
      let byte := default 0 (tag !! at_) in
      window steps tag (S at_) (Z.lor (Z.land (Z.shiftl value 8) (max_of 32)) byte)
  end.

Definition code_at (secret : list Z) (counter : Z) : rstr :=
  let tag := hmac_sha1 secret (to_be_bytes counter) in
  let offset := Z.to_nat (Z.land (default 0 (last tag)) 15) in
  let value := window 4 tag offset 0 in
  pad0 DIGITS (Z.land value 2147483647 mod MODULUS).

(** The counters of the window, oldest first. *)
Definition candidates (unix_secs : Z) : list Z :=
  let first := saturating_sub (unix_secs / STEP_SECS) WINDOW_STEPS in
  (fun offset => saturating_add 64 first (Z.of_nat offset)) <$> seq 0 (Z.to_nat (saturating_mul 64 WINDOW_STEPS 2 + 1)).

Definition fresh (last_counter : option Z) (counter : Z) : bool :=
  match last_counter with None => true | Some last => last <? counter end.

Definition verify (secret : list Z) (code : rstr) (unix_secs : Z) (last_counter : option Z) : option Z :=
  foldl (fun accepted counter =>
           if ct_eq (code_at secret counter) code && fresh last_counter counter then Some counter else accepted)
        None (candidates unix_secs).

Definition check (secret : list Z) (code : rstr) (unix_secs : Z) (last_counter : option Z) : result AuthError Z :=
  match verify secret code unix_secs last_counter with
  | Some counter => Ok counter
  | None =>
      let replayed := existsb (fun counter => ct_eq (code_at secret counter) code) (candidates unix_secs) in
      Err (if replayed then TotpReplayed else InvalidCredentials)
  end.

(** ** Codes *)

Lemma window_bound steps tag at_ value : 0 <= value -> Forall is_byte tag -> 0 <= window steps tag at_ value.
Proof.
  intros Hv Ht. revert at_ value Hv. induction steps as [|steps IH]; intros at_ value Hv; simpl; [done|].
  apply IH. apply Z.lor_nonneg. split; [apply Z.land_nonneg; right; unfold max_of; lia|].
  destruct (tag !! at_) eqn:E; simpl; [|lia]. rewrite Forall_lookup in Ht. apply Ht in E. unfold is_byte in E. lia.
Qed.

Lemma show_digits_spec fuel n acc k : 0 <= n < 10 ^ Z.of_nat k -> (1 <= k <= fuel)%nat ->
  Forall (fun c => is_ascii_digit c = true) acc ->
  Forall (fun c => is_ascii_digit c = true) (show_digits fuel 10 n acc)
  /\ (length (show_digits fuel 10 n acc) <= k + length acc)%nat.
Proof.
  revert n acc k. induction fuel as [|fuel IH]; intros n acc k Hn Hk Hacc; [lia|]. cbn [show_digits].
  pose proof (Z.mod_pos_bound n 10 ltac:(lia)) as Hm. pose proof (Z.div_mod n 10 ltac:(lia)).
  assert (Hd : is_ascii_digit (digit_char (n mod 10)) = true).
  { unfold digit_char, is_ascii_digit. rewrite (proj2 (Z.ltb_lt _ _)) by lia.
    apply andb_true_iff. rewrite !N.leb_le. lia. }
  destruct (n / 10 =? 0) eqn:E; bool_to_prop.
  - simpl. split; [by constructor|lia].
  - destruct k as [|[|k]]; [lia| |].
    + simpl in Hn. exfalso. apply E. apply Z.div_small. lia.
    + destruct (IH (n / 10) (digit_char (n mod 10) :: acc) (S k)) as [H1 H2]; [|lia|by constructor|].
      * split; [apply Z.div_pos; lia|]. apply Z.div_lt_upper_bound; [lia|].
        replace (Z.of_nat (S (S k))) with (Z.of_nat (S k) + 1) in Hn by lia. rewrite Z.pow_add_r in Hn by lia. lia.
      * cbn [length] in H2. split; [done|lia].
Qed.

Lemma pad0_digits n : 0 <= n < MODULUS ->
  length (pad0 DIGITS n) = DIGITS /\ Forall (fun c => is_ascii_digit c = true) (pad0 DIGITS n).
Proof.
  intros Hn. unfold pad0, show_dec, MODULUS, DIGITS in *.
  destruct (show_digits_spec 64 n [] 6) as [H1 H2]; [done|lia|constructor|]. cbn [length] in H2. split.
  - rewrite length_app, length_replicate. lia.
  - apply Forall_app. split; [by apply Forall_replicate|done].
Qed.

Lemma code_at_digits secret counter : Forall is_byte (hmac_sha1 secret (to_be_bytes counter)) ->
  length (code_at secret counter) = DIGITS /\ Forall (fun c => is_ascii_digit c = true) (code_at secret counter).
Proof.
  intros Ht. apply pad0_digits. apply Z.mod_pos_bound. done.
Qed.

(** ** The window *)

Lemma candidates_sorted unix : candidates unix
  = let first := saturating_sub (unix / STEP_SECS) WINDOW_STEPS in
    [saturating_add 64 first 0; saturating_add 64 first 1; saturating_add 64 first 2].
Proof. done. Qed.

Definition accepts (secret : list Z) (code : rstr) (last_counter : option Z) (c : Z) : Prop :=
  code_at secret c = code /\ fresh last_counter c = true.

Lemma foldl_last_some {A} (p : A -> bool) l acc :
  foldl (fun acc x => if p x then Some x else acc) acc l
  = match last (filter (fun x => p x = true) l) with Some x => Some x | None => acc end.
Proof.
  revert acc. induction l as [|x l IH]; intros acc; simpl; [done|]. rewrite IH. destruct (p x) eqn:E.
  - rewrite (filter_cons_True (fun x => p x = true)) by done. rewrite last_cons. by destruct (last _).
  - rewrite (filter_cons_False (fun x => p x = true)) by congruence. done.
Qed.

Lemma verify_last secret code unix lc : verify secret code unix lc
  = last (filter (fun c => (ct_eq (code_at secret c) code && fresh lc c) = true) (candidates unix)).
Proof. unfold verify. rewrite foldl_last_some. by destruct (last _). Qed.

Lemma verify_some secret code unix lc c : verify secret code unix lc = Some c ->
  c ∈ candidates unix /\ accepts secret code lc c.
Proof.
  rewrite verify_last. intros H%last_Some_elem_of. apply list_elem_of_filter in H as [H Hc].
  apply andb_true_iff in H as [H1 H2]. apply ct_eq_true in H1.
  split; [exact Hc|]. split; [exact H1|exact H2].
Qed.

Lemma verify_none secret code unix lc : verify secret code unix lc = None ->
  forall c, c ∈ candidates unix -> ~ accepts secret code lc c.
Proof.
  rewrite verify_last, last_None. intros H c Hc [Ha Hf].
  assert (c ∈ ([] : list Z)) as ?%elem_of_nil; [|done]. rewrite <- H. apply list_elem_of_filter.
  split; [|done]. apply andb_true_iff. split; [by apply ct_eq_true|done].
Qed.

Lemma candidates_window unix : STEP_SECS <= unix <= max_of 64 ->
  candidates unix = [unix / STEP_SECS - 1; unix / STEP_SECS; unix / STEP_SECS + 1].
Proof.
  intros Hu. rewrite candidates_sorted. unfold saturating_add, saturating_sub, WINDOW_STEPS, STEP_SECS, max_of in *.
  assert (1 <= unix / 30 < 2 ^ 60) by (split; [apply Z.div_le_lower_bound|apply Z.div_lt_upper_bound]; lia).
  simpl. repeat f_equal; lia.
Qed.

Lemma verify_max secret code unix lc c : verify secret code unix lc = Some c ->
  forall c', c' ∈ candidates unix -> accepts secret code lc c' -> c' <= c.
Proof.
  rewrite verify_last, candidates_sorted. cbv zeta. set (first := saturating_sub _ _).
  assert (H01 : saturating_add 64 first 0 <= saturating_add 64 first 1) by (unfold saturating_add; lia).
  assert (H12 : saturating_add 64 first 1 <= saturating_add 64 first 2) by (unfold saturating_add; lia).
  generalize dependent (saturating_add 64 first 2). generalize dependent (saturating_add 64 first 1).
  generalize (saturating_add 64 first 0). clear first. intros x y Hxy z Hyz.
  set (p := fun c => ct_eq (code_at secret c) code && fresh lc c).
  intros Hl c' Hc' [Ha Hf].
  assert (Hp : p c' = true) by (unfold p; apply andb_true_iff; split; [by apply ct_eq_true|done]).
  change (last (filter (fun c => p c = true) [x; y; z]) = Some c) in Hl.
  rewrite !filter_cons, filter_nil in Hl.
  repeat (apply elem_of_cons in Hc' as [->|Hc']); try (by apply elem_of_nil in Hc');
    repeat case_decide; simpl in Hl; simplify_eq; lia || congruence.
Qed.

(** ** A user's sign-ins

    The caller keeps the counter of the last accepted code and passes it back. *)
Fixpoint sign_ins (secret : list Z) (last_counter : option Z) (attempts : list (rstr * Z)) : list Z :=
  match attempts with
  | [] => []
  | (code, unix) :: rest =>
      match check secret code unix last_counter with
      | Ok counter => counter :: sign_ins secret (Some counter) rest
      | Err _ => sign_ins secret last_counter rest
      end
  end.

Lemma check_ok secret code unix lc c : check secret code unix lc = Ok c <-> verify secret code unix lc = Some c.
Proof. unfold check. destruct (verify secret code unix lc); split; congruence. Qed.

Lemma check_err secret code unix lc e : check secret code unix lc = Err e ->
  (e = TotpReplayed /\ exists c, c ∈ candidates unix /\ code_at secret c = code)
  \/ (e = InvalidCredentials /\ forall c, c ∈ candidates unix -> code_at secret c <> code).
Proof.
  unfold check. destruct (verify secret code unix lc); [done|]. cbv zeta.
  destruct (existsb _ (candidates unix)) eqn:E; intros [= <-].
  - left. split; [done|]. apply existsb_exists in E as (c & Hc%list_elem_of_In & Hm%ct_eq_true). eauto.
  - right. split; [done|]. intros c Hc%list_elem_of_In Hm%ct_eq_true.
    assert (existsb (fun c => ct_eq (code_at secret c) code) (candidates unix) = true) by (apply existsb_exists; eauto).
    congruence.
Qed.

Lemma sign_ins_increase secret attempts lc :
  StronglySorted Z.lt (sign_ins secret lc attempts)
  /\ Forall (fun c => from_option (fun last => last < c) True lc) (sign_ins secret lc attempts).
Proof.
  revert lc. induction attempts as [|[code unix] rest IH]; intros lc; cbn [sign_ins]; [split; constructor|].
  destruct (check secret code unix lc) as [c|] eqn:E; [|apply IH].
  apply check_ok, verify_some in E as [_ [_ Hf]]. destruct (IH (Some c)) as [H1 H2]. simpl in H2.
  assert (Hc : from_option (fun last => last < c) True lc).
  { destruct lc; simpl in *; [|done]. by apply Z.ltb_lt in Hf. }
  split; [by constructor|]. constructor; [done|]. eapply Forall_impl; [exact H2|]. simpl.
  intros x Hx. destruct lc; simpl in *; [lia|done].
Qed.

End Totp.

(** ** Properties *)

(** A code is accepted at most once. Whatever codes are presented and
    whenever, when the caller keeps the counter of the last accepted one the
    counters of the accepted codes strictly increase. *)
Theorem totp_accepts_once hmac secret last_counter attempts :
  StronglySorted Z.lt (sign_ins hmac secret last_counter attempts)
  /\ Forall (fun c => from_option (fun last => last < c) True last_counter)
            (sign_ins hmac secret last_counter attempts).
Proof. apply sign_ins_increase. Qed.

(** What [check] answers from the second step on. It accepts a counter
    exactly when it is the latest of the previous, current and next steps whose
    code is the presented one and which is past the last accepted counter; else
    it says [TotpReplayed] when the code belongs to one of the three steps and
    [InvalidCredentials] otherwise, and a client is told the same for both. *)
Theorem totp_check_spec hmac secret code unix last_counter :
  STEP_SECS <= unix <= max_of 64 ->
  let step := unix / STEP_SECS in
  let near c := step - 1 <= c <= step + 1 in
  (forall c, check hmac secret code unix last_counter = Ok c <->
     (near c /\ accepts hmac secret code last_counter c)
     /\ forall c', near c' -> accepts hmac secret code last_counter c' -> c' <= c)
  /\ (forall e, check hmac secret code unix last_counter = Err e ->
     status e = 401%nat /\ message_id e = message_id InvalidCredentials
     /\ (e = TotpReplayed <-> exists c, near c /\ code_at hmac secret c = code)
     /\ (e = InvalidCredentials <-> ~ exists c, near c /\ code_at hmac secret c = code)).
Proof.
  intros Hu step near.
  assert (Hnear : forall c, c ∈ candidates unix <-> near c).
  { intros c. rewrite candidates_window by done. unfold near, step. rewrite !elem_of_cons, elem_of_nil. lia. }
  split.
  - intros c. rewrite check_ok. setoid_rewrite <- Hnear. split.
    + intros H. split; [by apply verify_some|by apply verify_max].
    + intros [[Hc Ha] Hmax]. destruct (verify hmac secret code unix last_counter) as [c1|] eqn:E.
      * apply verify_some in E as E1. destruct E1 as [Hc1 Ha1]. f_equal. apply Z.le_antisymm; [by apply Hmax|].
        by eapply verify_max.
      * by destruct (verify_none _ _ _ _ _ E c Hc).
  - intros e [[-> (c & Hc%Hnear & Hm)]|[-> Hno]]%check_err; split_and!; try reflexivity; split; try done.
    + eauto.
    + intros H. destruct H. eauto.
    + intros (c & Hc%Hnear & Hm). by destruct (Hno c Hc).
    + intros _ (c & Hc%Hnear & Hm). by destruct (Hno c Hc).
Qed.

(** A code is six ASCII digits, for every HMAC that answers bytes, so the
    comparison with a presented code is over a fixed length. *)
Theorem totp_code_digits hmac secret counter :
  Forall is_byte (hmac secret (to_be_bytes counter)) ->
  length (code_at hmac secret counter) = DIGITS
  /\ Forall (fun c => is_ascii_digit c = true) (code_at hmac secret counter).
Proof. apply code_at_digits. Qed.

Definition demo_hmac (key message : list Z) : list Z := replicate 19 7 ++ [0].

Lemma totp_check_spec_witness : check demo_hmac [] (lit "901063") 90 None = Ok 4.
Proof.
  apply (totp_check_spec demo_hmac [] (lit "901063") 90 None); [vm_compute; split; congruence|].
  split; [split; [vm_compute; split; congruence|split; reflexivity]|]. vm_compute. intros c' [_ H] _. exact H.
Defined.

Lemma totp_code_digits_witness : length (code_at demo_hmac [] 3) = DIGITS.
Proof.
  apply (totp_code_digits demo_hmac [] 3). apply Forall_forall. intros x Hx.
  repeat (apply elem_of_cons in Hx as [->|Hx]; [unfold is_byte; lia|]). by apply elem_of_nil in Hx.
Defined.
