(* ===== verification/Session.v ===== *)
(** * Browser sessions

    [crates/detent-web/src/auth/session.rs] and the scopes of
    [crates/detent-web/src/authz.rs]: the in-memory table keyed by the digest of
    the session id, its two timeouts, rotation, revocation, step-up and the
    pending second factor. The digest is a parameter, and the random strings an
    operation draws are its arguments ([None]: the generator failed). *)

From Stdlib Require Import ZArith.
From stdpp Require Import gmap.
From S2P Require Import Prelude Str Num Ip Doc Diag AuthErr Time.
#[local] Open Scope Z_scope.

(** ** Scopes *)

Inductive Scope := Read | Write.
Record Scopes := mkScopes { write : bool }.

Definition scope_str (s : Scope) : rstr := match s with Read => lit "read" | Write => lit "write" end.
Definition scopes_of (s : Scope) : Scopes := match s with Read => mkScopes false | Write => mkScopes true end.
Definition allows (s : Scopes) (needed : Scope) : bool := match needed with Read => true | Write => write s end.
Definition scope_names (s : Scopes) : list rstr :=
  if write s then [scope_str Read; scope_str Write] else [scope_str Read].

(** ** Sessions *)

Definition COOKIE_NAME : rstr := lit "__Host-detent_session".
Definition MAX_SESSIONS : nat := 256.
Definition PENDING_TOTP_TTL : Duration := from_mins 10.
Definition STEP_UP_TTL : Duration := from_mins 5.

Record Session := mkSession {
  subject : rstr;
  scopes : Scopes;
  csrf_token : rstr;
  created : Instant;
  last_seen : Instant;
  totp_satisfied : bool;
  must_change_password : bool;
  handle : rstr;
  step_up : option Instant;
}.

Definition TotpSecret := list Z.

Record Entry := mkEntry { id : rstr; session : Session; pending_totp : option (TotpSecret * Instant) }.

Definition step_up_left (s : Session) (now : Instant) : option Duration :=
  at_ ← step_up s;
  let since := saturating_duration_since now at_ in
  if since <? STEP_UP_TTL then Some (saturating_sub STEP_UP_TTL since) else None.

Definition expired (s : Session) (idle absolute : Duration) (now : Instant) : bool :=
  (idle <=? saturating_duration_since now (last_seen s)) || (absolute <=? saturating_duration_since now (created s)).

Definition handle_eq (stored presented : rstr) : bool := bool_decide (stored = presented).

Definition i64_saturating (x : Z) : Z := Z.max (- 2 ^ 63) (Z.min (2 ^ 63 - 1) x).

Definition unix_of (instant now : Instant) (now_unix : Z) : Z :=
  let ago := Z.min (as_secs (saturating_duration_since now instant)) (2 ^ 63 - 1) in
  i64_saturating (now_unix - ago).

(** ** Cookies *)

Definition set_cookie_value (id : rstr) : rstr :=
  COOKIE_NAME ++ lit "=" ++ id ++ lit "; Secure; HttpOnly; SameSite=Strict; Path=/".
Definition clear_cookie_value : rstr :=
  COOKIE_NAME ++ lit "=; Secure; HttpOnly; SameSite=Strict; Path=/; Max-Age=0".

Fixpoint find_map {A B} (f : A -> option B) (l : list A) : option B :=
  match l with [] => None | x :: l' => match f x with Some y => Some y | None => find_map f l' end end.

Definition cookie_value (header : rstr) : option rstr :=
  find_map (fun pair => match split_once (N.eqb 61) pair with
                        | Some (name, value) => if bool_decide (trim name = COOKIE_NAME) then Some (trim value) else None
                        | None => None
                        end) (split (N.eqb 59) header).

(** ** The store *)

Definition Digest := list Z.

Record SessionStore := mkStore {
  entries : Mutex (gmap Digest Entry);
  idle : Duration;
  absolute : Duration;
  capacity : nat;
}.

Definition with_capacity (idle absolute : Duration) (capacity : nat) : SessionStore :=
  mkStore (Some ∅) idle absolute (Nat.max capacity 1).
Definition new (idle absolute : Duration) : SessionStore := with_capacity idle absolute MAX_SESSIONS.

Definition set_entries (st : SessionStore) (m : gmap Digest Entry) : SessionStore :=
  mkStore (Some m) (idle st) (absolute st) (capacity st).

Definition set_session (e : Entry) (s : Session) : Entry := mkEntry (id e) s (pending_totp e).
Definition set_pending (e : Entry) (p : option (TotpSecret * Instant)) : Entry := mkEntry (id e) (session e) p.

Definition touch (now : Instant) (s : Session) : Session :=
  mkSession (subject s) (scopes s) (csrf_token s) (created s) now (totp_satisfied s) (must_change_password s)
    (handle s) (step_up s).
Definition with_step_up (now : Instant) (s : Session) : Session :=
  mkSession (subject s) (scopes s) (csrf_token s) (created s) (last_seen s) (totp_satisfied s)
    (must_change_password s) (handle s) (Some now).
Definition restricted (s : Session) : Session :=
  mkSession (subject s) (scopes s) (csrf_token s) (created s) (last_seen s) (totp_satisfied s) true
    (handle s) (step_up s).

Definition evict_expired (m : gmap Digest Entry) (idle absolute : Duration) (now : Instant) : gmap Digest Entry :=
  filter (fun p => expired (session p.2) idle absolute now = false) m.

Section Store.
Variable key_of : rstr -> Digest.

Definition len (st : SessionStore) : nat := from_option size 0%nat (entries st).

Definition new_session (subject : rstr) (scopes : Scopes) (totp : bool) (csrf handle : rstr)
    (created now : Instant) : Session :=
  mkSession subject scopes csrf created now totp false handle None.

Definition create (st : SessionStore) (subject : rstr) (scopes : Scopes) (totp : bool)
    (id csrf handle : option rstr) (now : Instant) : SessionStore * result AuthError (rstr * Session) :=
  match id, csrf, handle with
  | Some id, Some csrf, Some handle =>
      let s := new_session subject scopes totp csrf handle now now in
      match entries st with
      | None => (st, Err SessionLimit)
      | Some m =>
          let m := evict_expired m (idle st) (absolute st) now in
          if (capacity st <=? size m)%nat then (set_entries st m, Err SessionLimit)
          else (set_entries st (<[key_of id := mkEntry id s None]> m), Ok (id, s))
      end
  | _, _, _ => (st, Err Entropy)
  end.

Definition lookup (st : SessionStore) (presented : rstr) (now : Instant) : SessionStore * option Session :=
  match entries st with
  | None => (st, None)
  | Some m =>
      let key := key_of presented in
      match m !! key with
      | None => (st, None)
      | Some e =>
          if negb (ct_eq (id e) presented) then (st, None)
          else if expired (session e) (idle st) (absolute st) now then (set_entries st (delete key m), None)
          else let s := touch now (session e) in
               (set_entries st (<[key := set_session e s]> m), Some s)
      end
  end.

Definition rotate (st : SessionStore) (presented subject_ : rstr) (scopes_ : option Scopes) (totp : option bool)
    (fresh csrf handle_ : option rstr) (now : Instant) : SessionStore * result AuthError (option (rstr * Session)) :=
  match fresh, csrf, handle_ with
  | Some fresh, Some csrf, Some handle_ =>
      match entries st with
      | None => (st, Err SessionLimit)
      | Some m =>
          let key := key_of presented in
          match m !! key with
          | None => (st, Ok None)
          | Some old =>
              if negb (ct_eq (id old) presented) || expired (session old) (idle st) (absolute st) now
              then (set_entries st (delete key m), Ok None)
              else
                let m := delete key m in
                if negb (bool_decide (subject (session old) = subject_)) then (set_entries st m, Ok None)
                else
                  let s := new_session (subject (session old)) (default (scopes (session old)) scopes_)
                             (default (totp_satisfied (session old)) totp) csrf handle_
                             (created (session old)) now in
                  (set_entries st (<[key_of fresh := mkEntry fresh s None]> m), Ok (Some (fresh, s)))
          end
      end
  | _, _, _ => (st, Err Entropy)
  end.

(** The operations that retain the entries a test accepts. *)
Definition retain (st : SessionStore) (keep : Entry -> bool) : SessionStore :=
  match entries st with
  | None => st
  | Some m => set_entries st (filter (fun p => keep p.2 = true) m)
  end.

Definition revoke_subject (st : SessionStore) (subject_ : rstr) : SessionStore :=
  retain st (fun e => negb (bool_decide (subject (session e) = subject_))).

Definition revoke_handle (st : SessionStore) (subject_ handle_ : rstr) : SessionStore * bool :=
  let st' := retain st (fun e => negb (handle_eq (handle (session e)) handle_
                                       && bool_decide (subject (session e) = subject_))) in
  (st', negb (len st =? len st')%nat).

Definition revoke_others (st : SessionStore) (subject_ keep : rstr) : SessionStore * nat :=
  let st' := retain st (fun e => negb (bool_decide (subject (session e) = subject_))
                                 || handle_eq (handle (session e)) keep) in
  (st', len st - len st')%nat.

Definition sweep (st : SessionStore) (now : Instant) : SessionStore * nat :=
  match entries st with
  | None => (st, 0%nat)
  | Some m => let st' := set_entries st (evict_expired m (idle st) (absolute st) now) in
              (st', len st - len st')%nat
  end.

Definition logout (st : SessionStore) (presented : rstr) : SessionStore * bool :=
  match entries st with
  | None => (st, false)
  | Some m =>
      let key := key_of presented in
      match m !! key with
      | Some e => if ct_eq (id e) presented then (set_entries st (delete key m), true) else (st, false)
      | None => (st, false)
      end
  end.

Definition expires_in (st : SessionStore) (s : Session) (now : Instant) : Duration :=
  let idle_left := saturating_sub (idle st) (saturating_duration_since now (last_seen s)) in
  let absolute_left := saturating_sub (absolute st) (saturating_duration_since now (created s)) in
  Z.min idle_left absolute_left.

(** ** What the API shows *)

Record SessionView := mkView {
  view_subject : rstr;
  view_scopes : list rstr;
  view_csrf_token : rstr;
  expires_in_secs : Z;
  view_totp_satisfied : bool;
  view_must_change_password : bool;
  step_up_expires_in_secs : option Z;
}.

Definition view (st : SessionStore) (s : Session) (now : Instant) : SessionView :=
  mkView (subject s) (scope_names (scopes s)) (csrf_token s) (as_secs (expires_in st s now)) (totp_satisfied s)
    (must_change_password s) (as_secs <$> step_up_left s now).

Record SessionSummary := mkSummary {
  sum_handle : rstr;
  created_unix_s : Z;
  last_seen_unix_s : Z;
  sum_expires_in_secs : Z;
  sum_totp_satisfied : bool;
  current : bool;
}.

(** [sort_by] on the listing: newest first, then by handle. *)
Definition summary_leb (a b : SessionSummary) : bool :=
  (created_unix_s b <? created_unix_s a)
  || ((created_unix_s b =? created_unix_s a) && negb (str_ltb (sum_handle b) (sum_handle a))).

Fixpoint insert_summary (x : SessionSummary) (l : list SessionSummary) : list SessionSummary :=
  match l with
  | [] => [x]
  | y :: l' => if summary_leb x y then x :: l else y :: insert_summary x l'
  end.

Definition list_sessions `{!Iteration Digest Entry} (st : SessionStore) (subject_ current_ : rstr) (now : Instant)
    (now_unix : Z) : SessionStore * list SessionSummary :=
  match entries st with
  | None => (st, [])
  | Some m =>
      let m := evict_expired m (idle st) (absolute st) now in
      let listed :=
        (fun e => mkSummary (handle (session e)) (unix_of (created (session e)) now now_unix)
                    (unix_of (last_seen (session e)) now now_unix) (as_secs (expires_in st (session e) now))
                    (totp_satisfied (session e)) (handle_eq (handle (session e)) current_))
        <$> filter (fun e => subject (session e) = subject_) (iter m).*2 in
      (set_entries st m, foldr insert_summary [] listed)
  end.

Definition step_up_session (st : SessionStore) (presented : rstr) (now : Instant) : SessionStore * bool :=
  match entries st with
  | None => (st, false)
  | Some m =>
      let key := key_of presented in
      match m !! key with
      | Some e =>
          if ct_eq (id e) presented then
            if expired (session e) (idle st) (absolute st) now then (set_entries st (delete key m), false)
            else (set_entries st (<[key := set_session e (with_step_up now (session e))]> m), true)
          else (st, false)
      | None => (st, false)
      end
  end.

(** The entry [presented] names, whether or not it has expired. *)
Definition named (st : SessionStore) (presented : rstr) : option (gmap Digest Entry * Entry) :=
  m ← entries st;
  e ← m !! key_of presented;
  if ct_eq (id e) presented then Some (m, e) else None.

Definition restrict (st : SessionStore) (presented : rstr) : SessionStore * option Session :=
  match named st presented with
  | None => (st, None)
  | Some (m, e) =>
      let s := restricted (session e) in
      (set_entries st (<[key_of presented := set_session e s]> m), Some s)
  end.

Definition set_pending_totp (st : SessionStore) (presented : rstr) (secret : TotpSecret) (now : Instant)
    : SessionStore * bool :=
  match named st presented with
  | None => (st, false)
  | Some (m, e) => (set_entries st (<[key_of presented := set_pending e (Some (secret, now))]> m), true)
  end.

Definition get_pending_totp (st : SessionStore) (presented : rstr) (now : Instant) : SessionStore * option TotpSecret :=
  match named st presented with
  | None => (st, None)
  | Some (m, e) =>
      match pending_totp e with
      | None => (st, None)
      | Some (secret, started) =>
          if PENDING_TOTP_TTL <=? saturating_duration_since now started
          then (set_entries st (<[key_of presented := set_pending e None]> m), None)
          else (st, Some secret)
      end
  end.

Definition take_pending_totp (st : SessionStore) (presented : rstr) : SessionStore * bool :=
  match named st presented with
  | None => (st, false)
  | Some (m, e) =>
      (set_entries st (<[key_of presented := set_pending e None]> m),
       match pending_totp e with Some _ => true | None => false end)
  end.

End Store.

(** ** Traces of operations *)

Inductive Op :=
| Create (subject_ : rstr) (scopes_ : Scopes) (totp : bool) (id_ csrf handle_ : option rstr) (now : Instant)
| Lookup (presented : rstr) (now : Instant)
| Rotate (presented subject_ : rstr) (scopes_ : option Scopes) (totp : option bool)
    (fresh csrf handle_ : option rstr) (now : Instant)
| RevokeSubject (subject_ : rstr)
| RevokeHandle (subject_ handle_ : rstr)
| RevokeOthers (subject_ keep : rstr)
| Sweep (now : Instant)
| Logout (presented : rstr)
| StepUp (presented : rstr) (now : Instant)
| Restrict (presented : rstr)
| SetPending (presented : rstr) (secret : TotpSecret) (now : Instant)
| GetPending (presented : rstr) (now : Instant)
| TakePending (presented : rstr).

Section Safety.
Variable key_of : rstr -> Digest.

Definition step (st : SessionStore) (op : Op) : SessionStore :=
  match op with
  | Create s sc totp i c h now => (create key_of st s sc totp i c h now).1
  | Lookup p now => (lookup key_of st p now).1
  | Rotate p s sc totp f c h now => (rotate key_of st p s sc totp f c h now).1
  | RevokeSubject s => revoke_subject st s
  | RevokeHandle s h => (revoke_handle st s h).1
  | RevokeOthers s k => (revoke_others st s k).1
  | Sweep now => (sweep st now).1
  | Logout p => (logout key_of st p).1
  | StepUp p now => (step_up_session key_of st p now).1
  | Restrict p => (restrict key_of st p).1
  | SetPending p sec now => (set_pending_totp key_of st p sec now).1
  | GetPending p now => (get_pending_totp key_of st p now).1
  | TakePending p => (take_pending_totp key_of st p).1
  end.

Definition run (st : SessionStore) (ops : list Op) : SessionStore := foldl step st ops.

(** ** Specification: the ledger of issued ids

    A table keyed by the id itself, with no digests and no timeouts: who holds an
    id that was issued and has not been ended. *)

Definition ledger_retain (keep : Session -> bool) (g : gmap rstr Session) : gmap rstr Session :=
  filter (fun p => keep p.2 = true) g.

Definition ledger_step (st : SessionStore) (g : gmap rstr Session) (op : Op) : gmap rstr Session :=
  match op with
  | Create s sc totp i c h now =>
      match (create key_of st s sc totp i c h now).2 with
      | Ok (issued, x) => <[issued := x]> g
      | Err _ => g
      end
  | Rotate p s sc totp f c h now =>
      match (rotate key_of st p s sc totp f c h now).2 with
      | Ok (Some (issued, x)) => <[issued := x]> (delete p g)
      | Ok None => delete p g
      | Err _ => g
      end
  | RevokeSubject s => ledger_retain (fun x => negb (bool_decide (subject x = s))) g
  | RevokeHandle s h => ledger_retain (fun x => negb (handle_eq (handle x) h && bool_decide (subject x = s))) g
  | RevokeOthers s k => ledger_retain (fun x => negb (bool_decide (subject x = s)) || handle_eq (handle x) k) g
  | Logout p => delete p g
  | Lookup p now => alter (touch now) p g
  | StepUp p now => alter (with_step_up now) p g
  | Restrict p => alter restricted p g
  | Sweep _ | SetPending _ _ _ | GetPending _ _ | TakePending _ => g
  end.

(** The ledger after a sequence of operations on the store. *)
Fixpoint ledger (st : SessionStore) (g : gmap rstr Session) (ops : list Op) : gmap rstr Session :=
  match ops with
  | [] => g
  | op :: rest => ledger (step st op) (ledger_step st g op) rest
  end.

(** The store holds a part of the ledger, each session under the digest of its
    id, and no more than the capacity. *)
Definition table_ok (c : nat) (g : gmap rstr Session) (m : gmap Digest Entry) : Prop :=
  (size m <= c)%nat /\ forall k e, m !! k = Some e -> k = key_of (id e) /\ g !! id e = Some (session e).

Definition store_ok (c : nat) (g : gmap rstr Session) (st : SessionStore) : Prop :=
  capacity st = c /\ from_option (table_ok c g) True (entries st).

Lemma table_subset c g m m' : m' ⊆ m -> table_ok c g m -> table_ok c g m'.
Proof.
  intros Hs [Hn Ht]. split; [apply map_subseteq_size in Hs; lia|].
  intros k e He. apply Ht. by eapply lookup_weaken.
Qed.

Lemma table_insert c g m i x p : table_ok c g m -> (size (<[key_of i := mkEntry i x p]> m) <= c)%nat ->
  table_ok c (<[i := x]> g) (<[key_of i := mkEntry i x p]> m).
Proof.
  intros [_ Ht] Hn. split; [done|]. intros k e. destruct (decide (k = key_of i)) as [->|Hk].
  - rewrite lookup_insert_eq. intros [= <-]. simpl. by rewrite lookup_insert_eq.
  - rewrite lookup_insert_ne by done. intros He. destruct (Ht _ _ He) as [-> Hg]. split; [done|].
    rewrite lookup_insert_ne by congruence. done.
Qed.

(** No entry under the digest of [p], or one with another id. *)
Definition absent (m : gmap Digest Entry) (p : rstr) : Prop :=
  forall e, m !! key_of p = Some e -> id e <> p.

Lemma table_ledger_update c g g' m p : table_ok c g m -> absent m p ->
  (forall i, i <> p -> g' !! i = g !! i) -> table_ok c g' m.
Proof.
  intros [Hn Ht] Ha Hg. split; [done|]. intros k e He. destruct (Ht _ _ He) as [-> Hs]. split; [done|].
  rewrite Hg; [done|]. intros E. rewrite E in He. by apply (Ha _ He).
Qed.

Lemma absent_delete m p : absent (delete (key_of p) m) p.
Proof. intros e. by rewrite lookup_delete_eq. Qed.

Lemma table_delete c g m p : table_ok c g m -> table_ok c (delete p g) (delete (key_of p) m).
Proof.
  intros Ht. eapply table_ledger_update; [|apply (absent_delete m p)|].
  - eapply table_subset; [apply delete_subseteq|done].
  - intros i Hi. by rewrite lookup_delete_ne.
Qed.

Lemma table_alter c g m p f e pend : table_ok c g m -> m !! key_of p = Some e -> id e = p ->
  table_ok c (alter f p g) (<[key_of p := mkEntry p (f (session e)) pend]> m).
Proof.
  intros [Hn Ht] He <-. split; [rewrite map_size_insert_Some by eauto; done|].
  intros k x. destruct (decide (k = key_of (id e))) as [->|Hk].
  - rewrite lookup_insert_eq. intros [= <-]. simpl. split; [done|]. destruct (Ht _ _ He) as [_ Hg].
    rewrite lookup_alter_eq, Hg. done.
  - rewrite lookup_insert_ne by done. intros Hx. destruct (Ht _ _ Hx) as [-> Hg]. split; [done|].
    rewrite lookup_alter_ne; [done|congruence].
Qed.

Lemma table_filter c g m keep : table_ok c g m ->
  table_ok c (ledger_retain keep g) (filter (fun p => keep (session p.2) = true) m).
Proof.
  intros [Hn Ht]. split; [pose proof (map_subseteq_size _ _ (map_filter_subseteq (fun p => keep (session p.2) = true) m)); lia|].
  intros k e [He Hk]%map_lookup_filter_Some. destruct (Ht _ _ He) as [-> Hg]. split; [done|].
  by apply map_lookup_filter_Some.
Qed.

(** [entries.get(&key_of(p))] and the comparison with the id. *)
Lemma lookup_cases m p : (exists e, m !! key_of p = Some e /\ ct_eq (id e) p = true /\ id e = p) \/
  ((forall e, m !! key_of p = Some e -> ct_eq (id e) p = false) /\ absent m p).
Proof.
  destruct (m !! key_of p) as [e|] eqn:E.
  - destruct (ct_eq (id e) p) eqn:F; [left; apply ct_eq_true in F as ?; eauto|].
    right. apply ct_eq_false in F as ?. split; [|intros x]; intros; simplify_eq; naive_solver.
  - right. split; [naive_solver|]. intros e. congruence.
Qed.

(** ** Every operation keeps the store within the ledger *)

Lemma create_ok c g st s sc totp i cs h now : store_ok c g st ->
  store_ok c (ledger_step st g (Create s sc totp i cs h now)) (create key_of st s sc totp i cs h now).1.
Proof.
  destruct st as [[m|] idle_ abs_ cap_]; intros [Hc Ht]; simpl in *; subst cap_; unfold create; simpl.
  - destruct i as [i|], cs as [cs|], h as [h|]; try (split; done). simpl.
    set (m' := evict_expired m _ _ _).
    assert (Hs : table_ok c g m') by (eapply table_subset; [apply map_filter_subseteq|done]).
    destruct (c <=? size m')%nat eqn:E; bool_to_prop; (split; [done|]); simpl; [done|].
    apply table_insert; [done|]. pose proof (map_size_insert_le m' (key_of i) (mkEntry i (new_session s sc totp cs h now now) None)). lia.
  - destruct i, cs, h; split; done.
Qed.

Lemma lookup_ok c g st p now : store_ok c g st ->
  store_ok c (alter (touch now) p g) (lookup key_of st p now).1.
Proof.
  destruct st as [[m|] idle_ abs_ cap_]; intros [Hc Ht]; simpl in *; subst cap_; [|split; done].
  unfold lookup. simpl. destruct (lookup_cases m p) as [(e & He & Hct & Hid)|[Hct Ha]].
  - rewrite He, Hct. simpl. case_if; (split; [done|]); simpl.
    + eapply table_ledger_update; [eapply table_subset; [apply delete_subseteq|done]|apply absent_delete|].
      intros i Hi. by rewrite lookup_alter_ne.
    + unfold set_session. rewrite Hid. by apply table_alter.
  - assert (table_ok c (alter (touch now) p g) m)
      by (eapply table_ledger_update; [done..|]; intros i Hi; by rewrite lookup_alter_ne).
    destruct (m !! key_of p) as [e|]; [rewrite (Hct _ eq_refl)|]; split; done.
Qed.

Lemma rotate_ok c g st p s sc totp f cs h now : store_ok c g st ->
  store_ok c (ledger_step st g (Rotate p s sc totp f cs h now)) (rotate key_of st p s sc totp f cs h now).1.
Proof.
  destruct st as [[m|] idle_ abs_ cap_]; intros [Hc Ht]; simpl in *; subst cap_; unfold rotate; simpl.
  - destruct f as [f|], cs as [cs|], h as [h|]; try (split; done).
    destruct (m !! key_of p) as [e|] eqn:He; simpl.
    + case_if; [split; [done|]; by apply table_delete|].
      case_if; [split; [done|]; by apply table_delete|].
      split; [done|]. simpl. apply table_insert; [by apply table_delete|].
      set (e' := mkEntry _ _ _). pose proof (map_size_insert_le (delete (key_of p) m) (key_of f) e').
      destruct Ht as [Hn _]. rewrite map_size_delete_Some in H by eauto.
      assert (size m <> 0)%nat by (intros E0%map_size_empty_inv; by rewrite E0 in He). lia.
    + split; [done|]. simpl. eapply table_ledger_update; [done| |].
      * intros e. rewrite He. done.
      * intros i Hi. by rewrite lookup_delete_ne.
  - destruct f, cs, h; split; done.
Qed.

Lemma retain_ok c g st keep : store_ok c g st ->
  store_ok c (ledger_retain keep g) (retain st (fun e => keep (session e))).
Proof.
  destruct st as [[m|] idle_ abs_ cap_]; intros [Hc Ht]; simpl in *; subst cap_; (split; [done|]); [|done].
  by apply table_filter.
Qed.

Lemma logout_ok c g st p : store_ok c g st -> store_ok c (delete p g) (logout key_of st p).1.
Proof.
  destruct st as [[m|] idle_ abs_ cap_]; intros [Hc Ht]; simpl in *; subst cap_; [|split; done].
  unfold logout. simpl. destruct (lookup_cases m p) as [(e & He & Hct & Hid)|[Hct Ha]].
  - rewrite He, Hct. split; [done|]. by apply table_delete.
  - assert (table_ok c (delete p g) m)
      by (eapply table_ledger_update; [done..|]; intros i Hi; by rewrite lookup_delete_ne).
    destruct (m !! key_of p) as [e|]; [rewrite (Hct _ eq_refl)|]; split; done.
Qed.

Lemma step_up_ok c g st p now : store_ok c g st ->
  store_ok c (alter (with_step_up now) p g) (step_up_session key_of st p now).1.
Proof.
  destruct st as [[m|] idle_ abs_ cap_]; intros [Hc Ht]; simpl in *; subst cap_; [|split; done].
  unfold step_up_session. simpl. destruct (lookup_cases m p) as [(e & He & Hct & Hid)|[Hct Ha]].
  - rewrite He, Hct. simpl. case_if; (split; [done|]); simpl.
    + eapply table_ledger_update; [eapply table_subset; [apply delete_subseteq|done]|apply absent_delete|].
      intros i Hi. by rewrite lookup_alter_ne.
    + unfold set_session. rewrite Hid. by apply table_alter.
  - assert (table_ok c (alter (with_step_up now) p g) m)
      by (eapply table_ledger_update; [done..|]; intros i Hi; by rewrite lookup_alter_ne).
    destruct (m !! key_of p) as [e|]; [rewrite (Hct _ eq_refl)|]; split; done.
Qed.

(** An in-place change of the entry [p] names. *)
Lemma named_ok c g st p f upd : store_ok c g st -> (forall e, exists q, upd e = mkEntry (id e) (f (session e)) q) ->
  store_ok c (alter f p g)
    (match named key_of st p with Some (m, e) => set_entries st (<[key_of p := upd e]> m) | None => st end).
Proof.
  destruct st as [[m|] idle_ abs_ cap_]; intros [Hc Ht] Hu; simpl in *; subst cap_; [|split; done].
  unfold named. simpl. destruct (lookup_cases m p) as [(e & He & Hct & Hid)|[Hct Ha]].
  - rewrite He. simpl. rewrite Hct. split; [done|]. simpl. destruct (Hu e) as [q ->]. rewrite Hid.
    by apply table_alter.
  - assert (table_ok c (alter f p g) m)
      by (eapply table_ledger_update; [done..|]; intros i Hi; by rewrite lookup_alter_ne).
    destruct (m !! key_of p) as [e|]; simpl; [rewrite (Hct _ eq_refl)|]; split; done.
Qed.

Lemma alter_id (g : gmap rstr Session) p : alter (fun s => s) p g = g.
Proof. apply map_eq. intros i. rewrite lookup_alter. case_decide; [|done]. subst. by destruct (g !! i). Qed.

Lemma store_step_ok c g st op : store_ok c g st -> store_ok c (ledger_step st g op) (step st op).
Proof.
  intros Hok. destruct op as [| | | | | |now| | |p|p sec now|p now|p];
    cbn [step]; [apply create_ok; exact Hok|apply lookup_ok; exact Hok|apply rotate_ok; exact Hok| | | |
                |apply logout_ok; exact Hok|apply step_up_ok; exact Hok| | | |].
  - cbn [step ledger_step]. by apply (retain_ok c g st (fun x => negb (bool_decide (subject x = subject_)))).
  - cbn [step ledger_step revoke_handle fst].
    by apply (retain_ok c g st (fun x => negb (handle_eq (handle x) handle_ && bool_decide (subject x = subject_)))).
  - cbn [step ledger_step revoke_others fst].
    by apply (retain_ok c g st (fun x => negb (bool_decide (subject x = subject_)) || handle_eq (handle x) keep)).
  - destruct st as [[m|] idle_ abs_ cap_], Hok as [Hc Ht]; simpl in *; subst cap_; (split; [done|]); simpl; [|done].
    eapply table_subset; [apply map_filter_subseteq|done].
  - pose proof (named_ok c g st p restricted (fun e => set_session e (restricted (session e))) Hok ltac:(eauto)) as H.
    cbn [step ledger_step]. unfold restrict. by destruct (named key_of st p) as [[m e]|].
  - pose proof (named_ok c g st p (fun s => s) (fun e => set_pending e (Some (sec, now))) Hok ltac:(eauto)) as H.
    rewrite alter_id in H. cbn [step ledger_step]. unfold set_pending_totp. by destruct (named key_of st p) as [[m e]|].
  - pose proof (named_ok c g st p (fun s => s) (fun e => set_pending e None) Hok ltac:(eauto)) as H.
    rewrite alter_id in H. cbn [step ledger_step]. unfold get_pending_totp.
    destruct (named key_of st p) as [[m e]|]; [|done]. destruct (pending_totp e) as [[? ?]|]; [|done]. by case_if.
  - pose proof (named_ok c g st p (fun s => s) (fun e => set_pending e None) Hok ltac:(eauto)) as H.
    rewrite alter_id in H. cbn [step ledger_step]. unfold take_pending_totp. by destruct (named key_of st p) as [[m e]|].
Qed.

Lemma store_run_ok c g st ops : store_ok c g st -> store_ok c (ledger st g ops) (run st ops).
Proof. revert st g. induction ops as [|op ops IH]; intros st g Hok; simpl; [done|]. by apply IH, store_step_ok. Qed.

End Safety.

(** ** What an issued id gives *)

Lemma expired_false s idle absolute now :
  expired s idle absolute now = false <->
  saturating_duration_since now (last_seen s) < idle /\ saturating_duration_since now (created s) < absolute.
Proof. unfold expired. rewrite orb_false_iff, !Z.leb_gt. done. Qed.

Lemma lookup_some key_of st p now s : (lookup key_of st p now).2 = Some s ->
  exists m e, entries st = Some m /\ m !! key_of p = Some e /\ id e = p
    /\ expired (session e) (idle st) (absolute st) now = false /\ s = touch now (session e).
Proof.
  unfold lookup. destruct (entries st) as [m|]; [|done]. destruct (m !! key_of p) as [e|] eqn:E; [|done].
  destruct (ct_eq (id e) p) eqn:Hc; simpl; [|done]. apply ct_eq_true in Hc.
  destruct (expired _ _ _ _) eqn:Hx; simpl; [done|]. intros [= <-]. eauto 10.
Qed.

Lemma lookup_inserted key_of st m i s now : expired s (idle st) (absolute st) now = false ->
  (lookup key_of (set_entries st (<[key_of i := mkEntry i s None]> m)) i now).2 = Some (touch now s).
Proof.
  intros Hx. unfold lookup, set_entries. simpl. rewrite lookup_insert_eq. simpl.
  rewrite (proj2 (ct_eq_true i i) eq_refl). simpl. by rewrite Hx.
Qed.

Lemma lookup_absent key_of st m p now : entries st = Some m -> absent key_of m p -> (lookup key_of st p now).2 = None.
Proof.
  intros Hm Ha. unfold lookup. rewrite Hm. destruct (m !! key_of p) as [e|] eqn:E; [|done].
  by rewrite (proj2 (ct_eq_false _ _) (Ha _ E)).
Qed.

(** ** Properties *)

(** Who a presented id authenticates. After any sequence of operations the
    table is within its capacity, and a lookup succeeds only for an id that was
    handed out by a sign-in or a rotation and has not since been ended by a
    rotation, a logout or a revocation; it gives that holder's session (its
    subject, scopes, restriction and step-up as the operations left them), and
    only within the idle and the absolute limit. *)
Theorem session_safety key_of idle_ absolute_ cap_ ops :
  let st := run key_of (with_capacity idle_ absolute_ cap_) ops in
  let issued := ledger key_of (with_capacity idle_ absolute_ cap_) ∅ ops in
  (len st <= Nat.max cap_ 1)%nat
  /\ forall presented now s, (lookup key_of st presented now).2 = Some s ->
     exists holder, issued !! presented = Some holder /\ s = touch now holder
       /\ saturating_duration_since now (last_seen holder) < idle st
       /\ saturating_duration_since now (created holder) < absolute st.
Proof.
  intros st issued.
  assert (Hok : store_ok key_of (Nat.max cap_ 1) issued st).
  { apply store_run_ok. split; [done|]. split; [rewrite map_size_empty; lia|done]. }
  destruct Hok as [_ Ht]. split.
  - unfold len. destruct (entries st); simpl in *; [apply Ht|lia].
  - intros presented now s (m & e & Hm & He & <- & Hx & ->)%lookup_some. rewrite Hm in Ht. simpl in Ht.
    destruct Ht as [_ Ht]. destruct (Ht _ _ He) as [_ Hg]. apply expired_false in Hx as [H1 H2]. eauto.
Qed.

(** Issuing an id. A sign-in gives a session of that subject with no
    step-up, found under its id until a limit passes. A rotation is made only
    for the session's own subject; it keeps the time of the first sign-in, drops
    the step-up, and the old id is dead at once while the new one works. *)
Theorem session_issue key_of st subject_ scopes_ totp i c h now :
  (forall issued s, (create key_of st subject_ scopes_ totp i c h now).2 = Ok (issued, s) ->
     subject s = subject_ /\ scopes s = scopes_ /\ created s = now /\ step_up s = None
     /\ forall later, now <= later -> later - now < idle st -> later - now < absolute st ->
        (lookup key_of (create key_of st subject_ scopes_ totp i c h now).1 issued later).2 = Some (touch later s))
  /\ (forall presented sc tt old, i <> Some presented ->
     (lookup key_of st presented now).2 = Some old ->
     let r := rotate key_of st presented subject_ sc tt i c h now in
     (exists e, r.2 = Err e /\ r.1 = st) \/
     ((forall later, (lookup key_of r.1 presented later).2 = None)
      /\ if bool_decide (subject old = subject_)
         then exists issued s, r.2 = Ok (Some (issued, s)) /\ subject s = subject_ /\ created s = created old
              /\ step_up s = None /\ scopes s = default (scopes old) sc
              /\ forall later, now <= later -> later - now < idle st ->
                 saturating_duration_since later (created s) < absolute st ->
                 (lookup key_of r.1 issued later).2 = Some (touch later s)
         else r.2 = Ok None)).
Proof.
  split.
  - intros issued s. unfold create. destruct i as [i|], c as [c|], h as [h|]; try done.
    destruct (entries st) as [m|]; [|done]. case_if; simpl; [done|]. intros [= <- <-].
    split_and!; try done. intros later H0 H1 H2.
    apply lookup_inserted. apply expired_false. simpl. unfold saturating_duration_since. lia.
  - intros p sc tt old Hne (m & e & Hm & He & Hid & Hx & ->)%lookup_some r. unfold r, rotate.
    destruct i as [i|], c as [c|], h as [h|]; try (left; by eexists).
    right. rewrite Hm, He, (proj2 (ct_eq_true _ _) Hid), Hx. simpl.
    destruct (bool_decide (subject (session e) = subject_)) eqn:Hs; simpl; (split; [intros later|]).
    + eapply lookup_absent; [done|]. intros x. simpl. destruct (decide (key_of i = key_of p)) as [E|E].
      * rewrite E, lookup_insert_eq. intros [= <-]. simpl. congruence.
      * by rewrite lookup_insert_ne, lookup_delete_eq.
    + apply bool_decide_eq_true in Hs. eexists i, _. split; [done|]. simpl. split_and!; try done.
      intros later H0 H1 H2.
      apply lookup_inserted. apply expired_false. simpl in *. split; [|done]. unfold saturating_duration_since. lia.
    + eapply lookup_absent; [done|]. apply absent_delete.
    + done.
Qed.
