(* ===== verification/AuditLog.v ===== *)
(** * The audit log

    [crates/detent-ops/src/audit.rs]: one JSON record per line, each with its
    position and a hash link; appending, rotation, verification, and the query
    that reads the file backwards in chunks. The file is its bytes; JSON
    ([serde_json]) and SHA-256 are parameters. A read or write that the system
    fails is not modelled; an append cut short by a crash is. *)

From Stdlib Require Import ZArith.
From stdpp Require Import countable.
From S2P Require Import Prelude Str Num Ip.
#[local] Open Scope Z_scope.

Definition DEFAULT_AUDIT_QUERY_LIMIT : nat := 100.
Definition MAX_AUDIT_QUERY_LIMIT : nat := 1000.
Definition AUDIT_ROTATE_BYTES : Z := 16 * 1024 * 1024.
Definition TAIL_CHUNK : nat := Z.to_nat (64 * 1024).

Lemma TAIL_CHUNK_pos : (0 < TAIL_CHUNK)%nat.
Proof. unfold TAIL_CHUNK. lia. Qed.
#[local] Opaque TAIL_CHUNK.

Inductive AuditResult := ROk | RDenied | RError | RStarted.

Inductive IdentityKind := LocalUser | SessionUser | Token.

Inductive OpKind :=
| ListModules | GetModule | Validate | Plan | Apply | ConfirmCommit | RollbackCommit | ListBackups | Restore
| ServiceStatus | ServiceAction | HostProfileOp | AuditQueryOp | UpdateStatus | CertStatus | CertRenew | UpdateApply.

Record AuditChain := mkChain { sequence : Z; prev : option rstr; hash : rstr; torn : option rstr }.

Record AuditRecord := mkRecord {
  ts : rstr;
  who : rstr;
  kind : IdentityKind;
  op : OpKind;
  module : option rstr;
  prev_hash : option rstr;
  new_hash : option rstr;
  before_hash : option rstr;
  after_hash : option rstr;
  commit_id : option Z;
  outcome : AuditResult;
  error_id : option rstr;
  chain : option AuditChain;
}.

Definition set_chain (r : AuditRecord) (c : option AuditChain) : AuditRecord :=
  mkRecord (ts r) (who r) (kind r) (op r) (module r) (prev_hash r) (new_hash r) (before_hash r) (after_hash r)
    (commit_id r) (outcome r) (error_id r) c.

Record AuditQuery := mkQuery { q_module : option rstr; q_who : option rstr; q_limit : option nat }.

Inductive AuditError := Io | Encode (message : rstr) | Chain (message : rstr).

#[export] Instance AuditResult_eq_dec : EqDecision AuditResult. Proof. solve_decision. Defined.
#[export] Instance IdentityKind_eq_dec : EqDecision IdentityKind. Proof. solve_decision. Defined.
#[export] Instance OpKind_eq_dec : EqDecision OpKind. Proof. solve_decision. Defined.
#[export] Instance AuditChain_eq_dec : EqDecision AuditChain. Proof. solve_decision. Defined.
#[export] Instance AuditRecord_eq_dec : EqDecision AuditRecord. Proof. solve_decision. Defined.

(** [AuditQuery::matches] and [effective_limit]. *)
Definition matches (q : AuditQuery) (r : AuditRecord) : bool :=
  match q_module q with Some want => bool_decide (module r = Some want) | None => true end
  && match q_who q with Some want => bool_decide (who r = want) | None => true end.

Definition effective_limit (q : AuditQuery) : nat :=
  Nat.min (default DEFAULT_AUDIT_QUERY_LIMIT (q_limit q)) MAX_AUDIT_QUERY_LIMIT.

Definition newest_first {A} (records : list A) (limit : option nat) : list A :=
  match limit with Some n => take n (reverse records) | None => reverse records end.

(** A file's bytes. *)
Abbreviation rbytes := (list N).

Definition u8_is_ascii_whitespace (b : N) : bool := bool_decide (b ∈ [32; 9; 10; 12; 13]%N).
Definition blank (line : rbytes) : bool := forallb u8_is_ascii_whitespace line.

(** ** JSON records

    [to_vec] and [from_slice] are [serde_json] on a record: an object on one line
    that reads back to itself and of which no proper prefix is JSON. *)
Class RecordCodec := {
  to_vec : AuditRecord -> result rstr rbytes;
  from_slice : rbytes -> result rstr AuditRecord;
  codec_roundtrip : forall r b, to_vec r = Ok b -> from_slice b = Ok r;
  codec_object : forall r b, to_vec r = Ok b -> head b = Some 123%N;
  codec_one_line : forall r b, to_vec r = Ok b -> LF ∉ b;
  codec_blank : forall b, blank b = true -> is_ok (from_slice b) = false;
  codec_prefix : forall r b n, to_vec r = Ok b -> (n < length b)%nat -> is_ok (from_slice (take n b)) = false;
}.

(** ** Reading a file from its end *)

Record TailLines := mkTail { file : rbytes; pos : nat; carry : rbytes; ready : list rbytes }.

Definition tail_open (f : rbytes) : TailLines := mkTail f (length f) [] [].

(** The loop of [next_line]; every round that goes on reads at least one byte,
    so [S (pos t)] rounds are enough. *)
Fixpoint next_line_from (chunk : nat) (fuel : nat) (t : TailLines) : option rbytes * TailLines :=
  match fuel with
  | O => (None, t)
  | S fuel =>
      match last (ready t) with
      | Some line => (Some line, mkTail (file t) (pos t) (carry t) (take (length (ready t) - 1) (ready t)))
      | None =>
          if (pos t =? 0)%nat then
            (if is_empty (carry t) then (None, t) else (Some (carry t), mkTail (file t) (pos t) [] (ready t)))
          else
            let step := Nat.min (pos t) chunk in
            let pos' := (pos t - step)%nat in
            let read := take step (drop pos' (file t)) ++ carry t in
            let parts := split (N.eqb LF) read in
            next_line_from chunk fuel (mkTail (file t) pos' (default [] (head parts)) (tail parts))
      end
  end.

Definition next_line (t : TailLines) : option rbytes * TailLines := next_line_from TAIL_CHUNK (S (pos t)) t.

Definition gap_bytes (newest_first : list rbytes) : rbytes :=
  concat ((fun line => line ++ [LF]) <$> reverse newest_first).

Section Log.
Context {codec : RecordCodec}.
Variable sha256 : rbytes -> rstr.

(** ** Links *)

Definition next_sequence (previous : option AuditChain) : Z :=
  match previous with None => 1 | Some c => saturating_add 64 (sequence c) 1 end.

Definition make_chain (r : AuditRecord) (previous : option AuditChain) : result AuditError AuditChain :=
  match to_vec (set_chain r None) with
  | Err err => Err (Encode err)
  | Ok bytes => Ok (mkChain (next_sequence previous) (hash <$> previous) (sha256 bytes) None)
  end.

Definition no_chain : AuditError := Chain (lit "a record has no chain metadata").

Definition check_link (r : AuditRecord) (previous : option AuditChain) (gap : rbytes) (bad : option rstr)
    : result AuditError () :=
  match chain r with
  | None => Err no_chain
  | Some actual =>
      if negb (sequence actual =? next_sequence previous) || negb (bool_decide (prev actual = hash <$> previous))
      then Err (Chain (lit "record " ++ show_dec (sequence actual) ++ lit " is not linked to its predecessor"))
      else
        let expected_torn := if is_empty gap then None else Some (sha256 gap) in
        if negb (bool_decide (torn actual = expected_torn)) then
          Err (Chain (match torn actual, bad with
                      | None, Some bad => bad
                      | None, None => lit "a line before record " ++ show_dec (sequence actual) ++ lit " is not valid JSON"
                      | _, _ => lit "record " ++ show_dec (sequence actual) ++ lit " does not match the skipped lines before it"
                      end))
        else
          made ← make_chain r previous;
          if negb (bool_decide (hash made = hash actual))
          then Err (Chain (lit "record " ++ show_dec (sequence actual) ++ lit " hash does not match its contents"))
          else Ok ()
  end.

(** ** A verified pass over the log *)

Record Scan := mkScan { anchor : option AuditChain; gap : rbytes }.

Definition lines (raw : rbytes) : list rbytes := filter (fun l => blank l = false) (split (N.eqb LF) raw).

(** The pass, with the records it hands to [each]. *)
Fixpoint scan_lines (number : nat) (s : Scan) (first_bad : option rstr) (ls : list rbytes)
    : result AuditError (Scan * list AuditRecord) :=
  match ls with
  | [] => Ok (s, [])
  | line :: rest =>
      match from_slice line with
      | Err err =>
          let bad := default (lit "record " ++ show_dec (Z.of_nat number) ++ lit " is not valid JSON: " ++ err) first_bad in
          scan_lines (S number) (mkScan (anchor s) (gap s ++ line ++ [LF])) (Some bad) rest
      | Ok r =>
          match chain r with
          | None => Err (Chain (lit "record " ++ show_dec (Z.of_nat number) ++ lit " has no chain metadata"))
          | Some c =>
              _ ← check_link r (anchor s) (gap s) first_bad;
              '(s, each) ← scan_lines (S number) (mkScan (Some c) []) None rest;
              Ok (s, r :: each)
          end
      end
  end.

Definition scan_records (raw : rbytes) (start : option AuditChain) : result AuditError (Scan * list AuditRecord) :=
  scan_lines 1 (mkScan start []) None (lines raw).

(** ** The log on disk *)

Record Files := mkFiles { log : option rbytes; rotated : option rbytes }.

Fixpoint anchor_loop (fuel : nat) (t : TailLines) : option AuditChain :=
  match fuel with
  | O => None
  | S fuel =>
      match next_line t with
      | (None, _) => None
      | (Some line, t) =>
          match from_slice line with
          | Ok r => match chain r with Some c => Some c | None => anchor_loop fuel t end
          | Err _ => anchor_loop fuel t
          end
      end
  end.

(** A file of [n] bytes has at most [n + 1] lines. *)
Definition rotated_anchor (f : Files) : option AuditChain :=
  match rotated f with None => None | Some raw => anchor_loop (length raw + 2) (tail_open raw) end.

Definition verify (f : Files) : result AuditError AuditChain :=
  let start := rotated_anchor f in
  match log f with
  | None => Err (Chain (lit "log does not exist"))
  | Some raw =>
      '(s, _) ← scan_records raw start;
      match anchor s with Some c => Ok c | None => Err (Chain (lit "log is empty")) end
  end.

Definition full (rotate_bytes : Z) (raw : option rbytes) : bool :=
  match raw with Some raw => rotate_bytes <? Z.of_nat (length raw) | None => false end.

Definition unclosed (raw : option rbytes) : bool :=
  match raw ≫= last with Some b => negb (N.eqb b LF) | None => false end.

(** The bytes [record] appends, and whether it rotates the log first. *)
Definition record_line (rotate_bytes : Z) (f : Files) (r : AuditRecord) : result AuditError (rbytes * bool) :=
  let start := rotated_anchor f in
  s ← match log f with Some raw => fst <$> scan_records raw start | None => Ok (mkScan start []) end;
  let rotate := full rotate_bytes (log f) in
  c ← make_chain r (anchor s);
  let c := if negb (is_empty (gap s)) && negb rotate
           then mkChain (sequence c) (prev c) (hash c) (Some (sha256 (gap s))) else c in
  match to_vec (set_chain r (Some c)) with
  | Err err => Err (Encode err)
  | Ok json => Ok ((if negb rotate && unclosed (log f) then [LF] else []) ++ json ++ [LF], rotate)
  end.

Definition append (f : Files) (line : rbytes) (rotate : bool) : Files :=
  if rotate then mkFiles (Some line) (log f) else mkFiles (Some (default [] (log f) ++ line)) (rotated f).

Definition record (rotate_bytes : Z) (f : Files) (r : AuditRecord) : result AuditError Files :=
  '(line, rotate) ← record_line rotate_bytes f r;
  Ok (append f line rotate).

(** ** Queries *)

Fixpoint query_loop (fuel : nat) (f : Files) (q : AuditQuery) (limit : nat) (t : TailLines)
    (newer : option AuditRecord) (gap : list rbytes) (out : list AuditRecord) : result AuditError (list AuditRecord) :=
  match fuel with
  | O => Ok out
  | S fuel =>
      match next_line t with
      | (None, _) =>
          match newer with
          | Some oldest => _ ← check_link oldest (rotated_anchor f) (gap_bytes gap) None; Ok out
          | None => Ok out
          end
      | (Some line, t) =>
          if blank line then query_loop fuel f q limit t newer gap out
          else
            match from_slice line with
            | Err _ => query_loop fuel f q limit t newer (gap ++ [line]) out
            | Ok r =>
                match chain r with
                | None => Err no_chain
                | Some c =>
                    made ← make_chain r None;
                    if negb (bool_decide (hash made = hash c))
                    then Err (Chain (lit "record " ++ show_dec (sequence c) ++ lit " hash does not match its contents"))
                    else
                      _ ← match newer with Some newer => check_link newer (Some c) (gap_bytes gap) None | None => Ok () end;
                      if matches q r then
                        let out := out ++ [r] in
                        if (length out =? limit)%nat then Ok out
                        else query_loop fuel f q limit t (Some r) [] out
                      else query_loop fuel f q limit t (Some r) [] out
                end
            end
      end
  end.

Definition query (f : Files) (q : AuditQuery) : result AuditError (list AuditRecord) :=
  let limit := effective_limit q in
  if (limit =? 0)%nat then Ok []
  else match log f with
       | None => Ok []
       | Some raw => query_loop (length raw + 2) f q limit (tail_open raw) None [] []
       end.

End Log.

(** ** The reader *)

(** The lines of a file, without an empty first one. *)
Definition heads (ls : list rbytes) : list rbytes := match ls with [] :: ls' => ls' | _ => ls end.

(** What the reader has still to return, oldest first. *)
Definition remaining (t : TailLines) : list rbytes :=
  heads (split (N.eqb LF) (take (pos t) (file t) ++ carry t)) ++ ready t.

Definition tail_ok (t : TailLines) : Prop := LF ∉ carry t.

Lemma heads_app a b : a <> [] -> heads (a ++ b) = heads a ++ b.
Proof. by destruct a as [|[|x a] ls]. Qed.

Lemma split_LF_piece a : LF ∉ a -> split (N.eqb LF) a = [a].
Proof. intros H. apply split_piece. intros y Hy. apply N.eqb_neq. intros <-. done. Qed.

Lemma split_LF_elem s piece : piece ∈ split (N.eqb LF) s -> LF ∉ piece.
Proof. intros H Hl. eapply split_elem in Hl as [_ Hl]; [|done]. by rewrite N.eqb_refl in Hl. Qed.

Lemma take_last_app {A} (l : list A) x : last l = Some x -> l = take (length l - 1) l ++ [x].
Proof. intros [l' ->]%last_Some. rewrite length_app. simpl. rewrite Nat.add_sub, take_app_length. done. Qed.

(** One line at a time, from the end, whatever the chunk size. *)
Lemma next_line_spec chunk fuel t : (0 < chunk)%nat -> tail_ok t -> (pos t < fuel)%nat ->
  let '(r, t') := next_line_from chunk fuel t in
  tail_ok t' /\ r = last (remaining t) /\ remaining t = remaining t' ++ option_list r.
Proof.
  intros Hc. revert t. induction fuel as [|fuel IH]; intros t Hok Hf; [lia|]. cbn [next_line_from].
  destruct (last (ready t)) as [line|] eqn:Hr.
  - apply take_last_app in Hr as Hl. split; [done|]. unfold remaining. simpl. split.
    + by rewrite last_app, Hr.
    + rewrite <- app_assoc. f_equal. done.
  - apply last_None in Hr. destruct (pos t =? 0)%nat eqn:Hp; bool_to_prop.
    + assert (Hrem : remaining t = heads [carry t]).
      { unfold remaining. rewrite Hp, Hr, take_0, app_nil_r. simpl. by rewrite split_LF_piece. }
      rewrite Hrem. destruct (carry t) as [|b c] eqn:E; simpl.
      * split_and!; [done..|]. by rewrite Hrem.
      * split_and!; [unfold tail_ok; simpl; set_solver|done|]. unfold remaining. simpl. by rewrite Hp, Hr, take_0.
    + set (step := Nat.min (pos t) chunk). set (read := take step _ ++ carry t).
      set (t1 := mkTail _ _ _ _).
      assert (Hrem : remaining t1 = remaining t).
      { unfold remaining, t1. simpl. rewrite Hr, app_nil_r.
        replace (take (pos t) (file t) ++ carry t) with (take (pos t - step) (file t) ++ read).
        - rewrite (split_app _ (take (pos t - step) (file t)) read). symmetry. apply heads_app, split_nonempty.
        - unfold read. rewrite app_assoc. f_equal. rewrite take_take_drop. f_equal. unfold step. lia. }
      specialize (IH t1). destruct (next_line_from chunk fuel t1) as [r t']. rewrite <- Hrem. apply IH.
      * unfold tail_ok, t1. simpl. destruct (split (N.eqb LF) read) as [|piece rest] eqn:E; simpl; [set_solver|].
        apply (split_LF_elem read). rewrite E. by left.
      * unfold t1, step. simpl. lia.
Qed.

Lemma next_line_ok t : tail_ok t ->
  let '(r, t') := next_line t in
  tail_ok t' /\ r = last (remaining t) /\ remaining t = remaining t' ++ option_list r.
Proof. intros H. apply next_line_spec; [apply TAIL_CHUNK_pos|done|lia]. Qed.

Lemma tail_open_ok f : tail_ok (tail_open f) /\ remaining (tail_open f) = heads (split (N.eqb LF) f).
Proof.
  split; [unfold tail_ok; simpl; set_solver|]. unfold remaining, tail_open. simpl.
  by rewrite firstn_all, !app_nil_r.
Qed.

Section Verified.
Context {codec : RecordCodec}.
Variable sha256 : rbytes -> rstr.

(** ** What a pass over the log establishes *)

(** [r] directly follows [previous] after the unreadable bytes [g], and its hash
    is that of its contents. *)
Definition linked (r : AuditRecord) (previous : option AuditChain) (g : rbytes) : Prop :=
  exists c b, chain r = Some c /\ to_vec (set_chain r None) = Ok b
    /\ c = mkChain (next_sequence previous) (hash <$> previous) (sha256 b)
              (if is_empty g then None else Some (sha256 g)).

Lemma check_link_ok r p g bad : check_link sha256 r p g bad = Ok () <-> linked r p g.
Proof.
  unfold check_link, linked, make_chain. destruct (chain r) as [[sq pv hs tn]|]; [|split; [done|naive_solver]]. simpl.
  destruct (sq =? next_sequence p) eqn:E1; simpl; bool_to_prop; [|split; [done|naive_solver]].
  destruct (bool_decide (pv = hash <$> p)) eqn:E2; simpl; bool_to_prop; [|split; [done|naive_solver]].
  destruct (bool_decide (tn = _)) eqn:E3; simpl; bool_to_prop; [|split; [done|naive_solver]].
  destruct (to_vec (set_chain r None)) as [b|err]; simpl; [|split; [done|naive_solver]].
  destruct (bool_decide (sha256 b = hs)) eqn:E4; simpl; bool_to_prop; [|split; [done|naive_solver]].
  subst. split; [|done]. intros _. eauto 10.
Qed.

Inductive scans : Scan -> list rbytes -> Scan -> list AuditRecord -> Prop :=
| scans_nil s : scans s [] s []
| scans_torn s line rest s' recs :
    is_ok (from_slice line) = false -> scans (mkScan (anchor s) (gap s ++ line ++ [LF])) rest s' recs ->
    scans s (line :: rest) s' recs
| scans_record s line r rest s' recs :
    from_slice line = Ok r -> linked r (anchor s) (gap s) -> scans (mkScan (chain r) []) rest s' recs ->
    scans s (line :: rest) s' (r :: recs).

Lemma scan_lines_ok n s bad ls s' recs : scan_lines sha256 n s bad ls = Ok (s', recs) <-> scans s ls s' recs.
Proof.
  revert n s bad recs. induction ls as [|line rest IH]; intros n s bad recs; simpl.
  - split; [intros [= -> <-]; constructor|]. inversion 1; by subst.
  - destruct (from_slice line) as [r|err] eqn:E; simpl.
    + destruct (chain r) as [c|] eqn:Hc.
      * split.
        -- intros (u & Hl & Hrest)%result_bind_ok. destruct u. apply check_link_ok in Hl.
           apply result_bind_ok in Hrest as ([s1 each] & Hs & [= -> <-]). apply IH in Hs.
           eapply scans_record; [done..|]. by rewrite Hc.
        -- inversion 1 as [|? ? ? ? ? Hno|? ? r' ? ? recs' Hr Hl Hs]; subst; [by rewrite E in Hno|].
           rewrite E in Hr. injection Hr as <-. rewrite (proj2 (check_link_ok _ _ _ _) Hl). simpl.
           rewrite Hc in Hs. rewrite (proj2 (IH _ _ _ _) Hs). done.
      * split; [done|]. inversion 1 as [|? ? ? ? ? Hno|? ? r' ? ? recs' Hr Hl Hs]; subst; [by rewrite E in Hno|].
        rewrite E in Hr. injection Hr as <-. destruct Hl as (c & b & Hc' & _). congruence.
    + rewrite IH. split.
      * intros H. apply scans_torn; [by rewrite E|done].
      * inversion 1 as [| |? ? r' ? ? recs' Hr]; subst; [done|congruence].
Qed.

Lemma scans_app s l1 l2 s2 recs : scans s (l1 ++ l2) s2 recs <->
  exists s1 r1 r2, scans s l1 s1 r1 /\ scans s1 l2 s2 r2 /\ recs = r1 ++ r2.
Proof.
  split.
  - revert s recs. induction l1 as [|line l1 IH]; intros s recs H; [eexists _, [], recs; eauto using scans_nil|].
    simpl in H. inversion H as [|? ? ? ? ? Hno Hs|? ? r ? ? recs' Hr Hl Hs]; subst.
    + apply IH in Hs as (s1 & r1 & r2 & ? & ? & ->). eauto 10 using scans_torn.
    + apply IH in Hs as (s1 & r1 & r2 & ? & ? & ->). exists s1, (r :: r1), r2. eauto using scans_record.
  - intros (s1 & r1 & r2 & H1 & H2 & ->). induction H1; simpl; eauto using scans_torn, scans_record.
Qed.

Definition chain_of (line : rbytes) : option AuditChain :=
  match from_slice line with Ok r => chain r | Err _ => None end.

Lemma scans_chains s ls s' recs : scans s ls s' recs -> omap chain_of ls = omap chain recs.
Proof.
  induction 1 as [|s line rest s' recs Hno Hs IH|s line r rest s' recs Hr Hl Hs IH]; [done| |]; csimpl; unfold chain_of at 1.
  - destruct (from_slice line); [done|]. done.
  - rewrite Hr. by destruct (chain r); rewrite IH.
Qed.

(** The pass ends at the chain of the last record. *)
Lemma scans_anchor s ls s' recs : scans s ls s' recs ->
  anchor s' = match last (omap chain recs) with Some c => Some c | None => anchor s end.
Proof.
  induction 1 as [| |s line r rest s' recs Hr Hl Hs IH]; [done|done|].
  rewrite IH. csimpl. destruct Hl as (c & b & -> & _). rewrite last_cons. by destruct (last (omap chain recs)).
Qed.

Lemma scans_all_chained s ls s' recs : scans s ls s' recs -> Forall (fun r => is_Some (chain r)) recs.
Proof. induction 1 as [| |s line r rest s' recs Hr (c & b & Hc & _)]; [constructor|done|]. constructor; eauto. Qed.

Lemma chain_of_blank b : blank b = true -> chain_of b = None.
Proof. intros H. unfold chain_of. apply codec_blank in H. by destruct (from_slice b). Qed.

Lemma omap_lines raw : omap chain_of (lines raw) = omap chain_of (heads (split (N.eqb LF) raw)).
Proof.
  transitivity (omap chain_of (split (N.eqb LF) raw)).
  - unfold lines. induction (split (N.eqb LF) raw) as [|l ls IH]; [done|]. rewrite filter_cons. csimpl.
    case_decide as Hb; csimpl; [by rewrite IH|]. rewrite chain_of_blank, IH; [done|]. by destruct (blank l).
  - destruct (split (N.eqb LF) raw) as [|[|x l] ls]; [done| |done]. csimpl. by rewrite chain_of_blank.
Qed.

Lemma anchor_loop_spec fuel t : tail_ok t -> (length (remaining t) < fuel)%nat ->
  anchor_loop fuel t = last (omap chain_of (remaining t)).
Proof.
  revert t. induction fuel as [|fuel IH]; intros t Ht Hf; [lia|]. cbn [anchor_loop].
  pose proof (next_line_ok t Ht) as H. destruct (next_line t) as [[line|] t']; destruct H as (Ht' & Hl & Hr).
  - rewrite Hr. rewrite omap_app, last_app. csimpl. unfold chain_of at 1. rewrite Hr, length_app in Hf. simpl in Hf.
    destruct (from_slice line) as [r|]; [destruct (chain r)|]; csimpl; try done; apply IH; try done; lia.
  - symmetry in Hl. apply last_None in Hl. by rewrite Hl.
Qed.

Lemma length_split p s : (length (split p s) <= length s + 1)%nat.
Proof. induction s as [|x s IH]; simpl; [lia|]. destruct (p x); simpl; [lia|]. destruct (split p s); simpl in *; lia. Qed.

Lemma length_heads ls : (length (heads ls) <= length ls)%nat.
Proof. destruct ls as [|[|x l] ls]; simpl; lia. Qed.

Lemma rotated_anchor_spec f raw : rotated f = Some raw -> rotated_anchor f = last (omap chain_of (lines raw)).
Proof.
  intros Hr. unfold rotated_anchor. rewrite Hr. destruct (tail_open_ok raw) as [Ho Hrem].
  rewrite anchor_loop_spec; [by rewrite Hrem, omap_lines|done|]. rewrite Hrem.
  pose proof (length_heads (split (N.eqb LF) raw)). pose proof (length_split (N.eqb LF) raw). lia.
Qed.

(** ** Appending *)

Lemma json_not_blank b : head b = Some 123%N -> blank b = false.
Proof. destruct b as [|x b]; [done|]. by intros [= ->]. Qed.

(** Writing [y] on a line of its own adds its lines. *)
Lemma lines_glue raw y : lines (raw ++ (if unclosed (Some raw) then [LF] else []) ++ y) = lines raw ++ lines y.
Proof.
  unfold lines, unclosed. simpl. destruct (last raw) as [x|] eqn:E; simpl.
  - destruct (N.eqb x LF) eqn:Ex; simpl.
    + bool_to_prop. subst. apply last_Some in E as [raw' ->]. rewrite <- app_assoc. simpl.
      rewrite (split_sep _ raw' LF y), (split_sep _ raw' LF []) by apply N.eqb_refl.
      rewrite !filter_app. simpl. by rewrite app_nil_r.
    + rewrite (split_sep _ raw LF y) by apply N.eqb_refl. by rewrite filter_app.
  - apply last_None in E. by subst.
Qed.

Lemma lines_one json : LF ∉ json -> blank json = false -> lines json = [json].
Proof. intros Hl Hb. unfold lines. rewrite split_LF_piece by done. by rewrite filter_cons, Hb. Qed.

Lemma lines_closed y : lines (y ++ [LF]) = lines y.
Proof.
  unfold lines. rewrite (split_sep _ y LF []) by apply N.eqb_refl. rewrite filter_app. simpl. by rewrite app_nil_r.
Qed.

(** The lines of a record's text cut short after [k] bytes. *)
Lemma lines_partial r json k : to_vec r = Ok json ->
  lines (take k (json ++ [LF])) = if (k =? 0)%nat then [] else [take k json].
Proof.
  intros Hj. pose proof (codec_object _ _ Hj) as Ho. pose proof (codec_one_line _ _ Hj) as Hl.
  destruct k as [|k]; [done|]. simpl.
  assert (Hx : lines (take (S k) json) = [take (S k) json]).
  { apply lines_one; [|apply json_not_blank; by destruct json].
    intros Hin. apply Hl. apply elem_of_take in Hin as (i & Hi & _). by eapply list_elem_of_lookup_2. }
  destruct (decide (S k <= length json)%nat).
  - by rewrite take_app_le.
  - rewrite take_ge by (rewrite length_app; simpl; lia). rewrite lines_closed. by rewrite take_ge in * by lia.
Qed.

(** ** The state of the files *)

Definition start_of (f : Files) : Scan := mkScan (rotated_anchor f) [].

(** The log can be read to its end: every record follows the one before it. *)
Definition readable (f : Files) (s : Scan) (recs : list AuditRecord) : Prop :=
  match log f with
  | None => s = start_of f /\ recs = []
  | Some raw => scans (start_of f) (lines raw) s recs
  end.

Definition sound (f : Files) : Prop := exists s recs, readable f s recs.

Lemma verify_ok f c : verify sha256 f = Ok c <->
  exists raw s recs, log f = Some raw /\ readable f s recs /\ anchor s = Some c.
Proof.
  unfold verify, readable, scan_records. destruct (log f) as [raw|]; [|split; [done|naive_solver]]. split.
  - intros ([s recs] & Hs%scan_lines_ok & Ha)%result_bind_ok. destruct (anchor s) eqn:E; [|done].
    injection Ha as ->. eauto 10.
  - intros (raw' & s & recs & [= <-] & Hs & Ha). unfold start_of in Hs.
    rewrite (proj2 (scan_lines_ok _ _ _ _ _ _) Hs). simpl. by rewrite Ha.
Qed.

(** What [record] is about to append. *)
Lemma record_line_ok rb f r line rotate : record_line sha256 rb f r = Ok (line, rotate) ->
  exists s recs b c json, readable f s recs /\ rotate = full rb (log f)
    /\ to_vec (set_chain r None) = Ok b
    /\ c = mkChain (next_sequence (anchor s)) (hash <$> anchor s) (sha256 b)
             (if is_empty (gap s) || rotate then None else Some (sha256 (gap s)))
    /\ to_vec (set_chain r (Some c)) = Ok json
    /\ line = (if negb rotate && unclosed (log f) then [LF] else []) ++ json ++ [LF].
Proof.
  unfold record_line. intros (s & Hs & H)%result_bind_ok.
  assert (Hread : exists recs, readable f s recs).
  { unfold readable, scan_records in *. destruct (log f) as [raw|].
    - destruct (scan_lines sha256 1 _ None (lines raw)) as [[s0 recs]|] eqn:E; [|done].
      injection Hs as ->. exists recs. by apply scan_lines_ok in E.
    - injection Hs as <-. by exists []. }
  destruct Hread as [recs Hread]. unfold make_chain in H.
  destruct (to_vec (set_chain r None)) as [b|] eqn:Hb; [|done]. simpl in H.
  set (c := if negb (is_empty (gap s)) && negb (full rb (log f)) then _ else _) in H.
  destruct (to_vec (set_chain r (Some c))) as [json|] eqn:Hj; [|done]. injection H as <- <-.
  exists s, recs, b, c, json. split_and!; try done. unfold c.
  destruct (is_empty (gap s)), (full rb (log f)); done.
Qed.

(** When the log is rotated it holds a record, or nothing came before it. *)
Definition may_rotate (f : Files) (rotate : bool) : Prop :=
  rotate = true -> forall s recs, readable f s recs -> recs <> [] \/ rotated_anchor f = None.

Lemma linked_intro r p g b : to_vec (set_chain r None) = Ok b ->
  linked (set_chain r (Some (mkChain (next_sequence p) (hash <$> p) (sha256 b)
    (if is_empty g then None else Some (sha256 g))))) p g.
Proof. intros Hb. eexists _, b. split_and!; [done| |done]. by destruct r. Qed.

(** The anchor a rotated file leaves is the one the pass ended at. *)
Lemma rotated_anchor_moved f raw line s recs : log f = Some raw -> readable f s recs ->
  recs <> [] \/ rotated_anchor f = None -> rotated_anchor (append f line true) = anchor s.
Proof.
  intros Hl Hr Hor. unfold readable in Hr. rewrite Hl in Hr. unfold append.
  rewrite (rotated_anchor_spec _ raw) by done. rewrite (scans_chains _ _ _ _ Hr), (scans_anchor _ _ _ _ Hr). simpl.
  destruct (last (omap chain recs)) eqn:E; [done|]. destruct Hor as [Hne|Hn]; [|by rewrite Hn].
  exfalso. apply last_None in E. apply scans_all_chained in Hr. destruct Hr as [|x recs [c Hc] _]; [done|].
  csimpl in E. by rewrite Hc in E.
Qed.

(** A record written after a readable log, whole or cut short. *)
Lemma partial_scan s0 ls s recs r json k :
  scans s0 ls s recs -> to_vec r = Ok json -> linked r (anchor s) (gap s) ->
  exists s' recs', scans s0 (ls ++ lines (take k (json ++ [LF]))) s' recs'
    /\ ((length json < k)%nat -> s' = mkScan (chain r) [] /\ recs' = recs ++ [r]).
Proof.
  intros Hs Hj Hl. rewrite (lines_partial r json k Hj). destruct (decide (k = 0)%nat) as [->|Hk].
  { simpl. rewrite app_nil_r. eexists _, _. split; [done|lia]. }
  rewrite (proj2 (Nat.eqb_neq _ _) Hk).
  destruct (decide (length json <= k)%nat) as [Hge|Hlt].
  - rewrite take_ge by done. exists (mkScan (chain r) []), (recs ++ [r]). split; [|done].
    apply scans_app. exists s, recs, [r]. split_and!; [done| |done].
    eapply scans_record; [by apply codec_roundtrip|done|constructor].
  - eexists _, recs. split; [|lia]. apply scans_app. eexists s, recs, []. split_and!; [done| |by rewrite app_nil_r].
    eapply scans_torn; [eapply codec_prefix; [done|lia]|constructor].
Qed.

(** [take] over the newline that closes a torn line. *)
Lemma lines_take_glue raw (pre : bool) y n : (pre = unclosed (Some raw)) ->
  lines (raw ++ take n ((if pre then [LF] else []) ++ y))
  = lines raw ++ lines (take (n - (if pre then 1 else 0)) y).
Proof.
  intros ->. destruct (unclosed (Some raw)) eqn:E; simpl.
  - destruct n as [|n]; simpl; [by rewrite app_nil_r, take_0, app_nil_r|]. rewrite Nat.sub_0_r.
    pose proof (lines_glue raw (take n y)) as H. by rewrite E in H.
  - rewrite Nat.sub_0_r. pose proof (lines_glue raw (take n y)) as H. by rewrite E in H.
Qed.

Lemma readable_lines f s recs : readable f s recs -> scans (start_of f) (lines (default [] (log f))) s recs.
Proof. unfold readable. destruct (log f); [done|]. intros [-> ->]. constructor. Qed.

Lemma unclosed_default f : unclosed (log f) = unclosed (Some (default [] (log f))).
Proof. by destruct (log f). Qed.

(** An append, whole or cut short after [n] bytes, leaves the log readable; a
    whole one ends it with the new record, linked to the last one before. *)
Lemma append_readable rb f r line rotate n : record_line sha256 rb f r = Ok (line, rotate) -> may_rotate f rotate ->
  exists s recs b c s' recs', readable f s recs /\ to_vec (set_chain r None) = Ok b
    /\ sequence c = next_sequence (anchor s) /\ prev c = hash <$> anchor s /\ hash c = sha256 b
    /\ readable (append f (take n line) rotate) s' recs'
    /\ ((length line <= n)%nat -> s' = mkScan (Some c) [] /\ recs' = (if rotate then [] else recs) ++ [set_chain r (Some c)]).
Proof.
  intros (s & recs & b & c & json & Hr & Hrot & Hb & Hc & Hj & ->)%record_line_ok Hmay.
  destruct rotate; simpl in *.
  - assert (exists raw, log f = Some raw) as [raw Hraw] by (destruct (log f); [eauto|done]).
    rewrite orb_true_r in Hc.
    assert (Hl : linked (set_chain r (Some c)) (anchor s) []) by (subst c; by apply (linked_intro r (anchor s) [] b)).
    destruct (partial_scan (mkScan (anchor s) []) [] (mkScan (anchor s) []) [] _ json n
                (scans_nil _) Hj Hl) as (s' & recs' & Hs & Hw).
    exists s, recs, b, c, s', recs'. split_and!; try (by subst c); try done.
    + pose proof (rotated_anchor_moved f raw (take n (json ++ [LF])) s recs Hraw Hr (Hmay eq_refl _ _ Hr)) as Hm.
      unfold append in Hm. unfold readable, start_of. simpl. by rewrite Hm.
    + intros Hn. apply Hw. rewrite length_app in Hn. simpl in Hn. lia.
  - rewrite orb_false_r in Hc.
    assert (Hl : linked (set_chain r (Some c)) (anchor s) (gap s)) by (subst c; by apply linked_intro).
    destruct (partial_scan _ _ _ _ _ json (n - (if unclosed (log f) then 1 else 0)) (readable_lines _ _ _ Hr) Hj Hl)
      as (s' & recs' & Hs & Hw).
    exists s, recs, b, c, s', recs'. split_and!; try (by subst c); try done.
    + unfold readable. simpl. rewrite (lines_take_glue _ (unclosed (log f))) by apply unclosed_default. done.
    + intros Hn. apply Hw. rewrite !length_app in Hn. destruct (unclosed (log f)); simpl in *; lia.
Qed.

(** ** Queries *)

Definition torn_line (l : rbytes) : Prop := is_ok (from_slice l) = false.

Lemma scans_torn_lines s ls : Forall torn_line ls ->
  scans s ls (mkScan (anchor s) (gap s ++ concat ((fun l => l ++ [LF]) <$> ls))) [].
Proof.
  intros H. revert s. induction H as [|l ls Hl _ IH]; intros s; simpl.
  - rewrite app_nil_r. destruct s. constructor.
  - eapply scans_torn; [done|]. specialize (IH (mkScan (anchor s) (gap s ++ l ++ [LF]))). simpl in IH.
    by rewrite <- app_assoc in IH.
Qed.

Lemma scans_fun s ls s1 r1 s2 r2 : scans s ls s1 r1 -> scans s ls s2 r2 -> s1 = s2 /\ r1 = r2.
Proof.
  intros H. revert s2 r2. induction H as [|s l rest s' recs Hno _ IH|s l r rest s' recs Hr _ _ IH]; intros s2 r2 H2;
    inversion H2 as [|? ? ? ? ? Hno2|? ? ? ? ? ? Hr2]; subst.
  - done.
  - by apply IH.
  - by rewrite Hr2 in Hno.
  - by rewrite Hr in Hno2.
  - rewrite Hr in Hr2. injection Hr2 as <-. edestruct IH as [-> ->]; done.
Qed.

(** Reading back over one record and the unreadable lines after it. *)
Lemma scans_back s0 ls l r gap_ s recs : from_slice l = Ok r -> Forall torn_line gap_ ->
  scans s0 (ls ++ l :: reverse gap_) s recs ->
  exists s1 recs1, scans s0 ls s1 recs1 /\ linked r (anchor s1) (gap s1)
    /\ anchor s = chain r /\ gap s = gap_bytes gap_ /\ recs = recs1 ++ [r].
Proof.
  intros Hr Hg Hs. apply scans_app in Hs as (s1 & recs1 & r2 & H1 & H2 & ->).
  inversion H2 as [|? ? ? ? ? Hno|? ? r' ? ? recs' Hr' Hl H3]; subst; [by rewrite Hr in Hno|].
  rewrite Hr in Hr'. injection Hr' as <-.
  assert (Hg' : Forall torn_line (reverse gap_)) by (by apply Forall_reverse).
  pose proof (scans_torn_lines (mkScan (chain r) []) _ Hg') as H4. destruct (scans_fun _ _ _ _ _ _ H3 H4) as [-> ->].
  exists s1, recs1. split_and!; done.
Qed.

Lemma filter_app_blank ls l : blank l = true -> filter (fun l => blank l = false) (ls ++ [l]) = filter (fun l => blank l = false) ls.
Proof. intros H. rewrite filter_app, filter_cons_False by congruence. by rewrite app_nil_r. Qed.

Lemma filter_app_nonblank ls l : blank l = false ->
  filter (fun l => blank l = false) (ls ++ [l]) = filter (fun l => blank l = false) ls ++ [l].
Proof. intros H. by rewrite filter_app, filter_cons_True. Qed.

Lemma query_loop_spec fuel f q limit t newer gap_ out s recs :
  tail_ok t -> (length (remaining t) < fuel)%nat -> (length out < limit)%nat -> Forall torn_line gap_ ->
  scans (start_of f) (filter (fun l => blank l = false) (remaining t) ++ reverse gap_) s recs ->
  (forall r, newer = Some r -> linked r (anchor s) (gap s)) ->
  query_loop sha256 fuel f q limit t newer gap_ out
  = Ok (out ++ take (limit - length out) (filter (fun r => matches q r = true) (reverse recs))).
Proof.
  revert t newer gap_ out s recs. induction fuel as [|fuel IH]; intros t newer gap_ out s recs Ht Hf Ho Hg Hs Hn; [lia|].
  cbn [query_loop]. pose proof (next_line_ok t Ht) as H.
  destruct (next_line t) as [[line|] t']; destruct H as (Ht' & Hl & Hrem); simpl in Hrem.
  - rewrite Hrem, length_app in Hf. simpl in Hf. rewrite Hrem in Hs. destruct (blank line) eqn:Hb.
    { rewrite filter_app_blank in Hs by done. eapply IH; eauto. lia. }
    rewrite filter_app_nonblank, <- app_assoc in Hs by done. simpl in Hs.
    destruct (from_slice line) as [r|] eqn:Hr.
    + destruct (scans_back _ _ _ _ _ _ _ Hr Hg Hs) as (s1 & recs1 & H1 & Hlk & Ha & Hgap & ->).
      pose proof Hlk as (c & b & Hc & Hb' & Hceq). rewrite Hc. unfold make_chain. rewrite Hb'. simpl.
      rewrite bool_decide_true by (by rewrite Hceq). simpl.
      assert (Hcheck : match newer with Some newer => check_link sha256 newer (Some c) (gap_bytes gap_) None | None => Ok () end = Ok ()).
      { destruct newer as [x|]; [|done]. apply check_link_ok. rewrite <- Hc, <- Ha, <- Hgap. by apply Hn. }
      rewrite Hcheck. simpl.
      rewrite reverse_app. simpl. rewrite filter_cons.
      assert (Hrest : forall out', (length out' < limit)%nat ->
        query_loop sha256 fuel f q limit t' (Some r) [] out'
        = Ok (out' ++ take (limit - length out') (filter (fun r => matches q r = true) (reverse recs1)))).
      { intros out' Ho'. eapply (IH t' (Some r) [] out' s1); try done; [lia| |by intros ? [= <-]].
        by rewrite reverse_nil, app_nil_r. }
      destruct (matches q r) eqn:Hm; simpl; [|by rewrite Hrest].
      destruct (length (out ++ [r]) =? limit)%nat eqn:Elim; bool_to_prop; rewrite length_app in Elim; simpl in Elim.
      * f_equal. replace (limit - length out)%nat with 1%nat by lia. by rewrite firstn_cons, take_0.
      * rewrite Hrest by (rewrite length_app; simpl; lia). f_equal. rewrite <- app_assoc, length_app. f_equal. simpl.
        replace (limit - length out)%nat with (S (limit - (length out + 1))) by lia. done.
    + eapply IH; try done; [lia|by apply Forall_app; split; [|repeat constructor; unfold torn_line; rewrite Hr]|].
      by rewrite reverse_app.
  - symmetry in Hl. apply last_None in Hl. rewrite Hl in Hs. simpl in Hs.
    assert (Hg' : Forall torn_line (reverse gap_)) by (by apply Forall_reverse).
    destruct (scans_fun _ _ _ _ _ _ Hs (scans_torn_lines _ _ Hg')) as [Hs' ->].
    rewrite reverse_nil, filter_nil, take_nil, app_nil_r. destruct newer as [x|]; [|done].
    rewrite (proj2 (check_link_ok x (rotated_anchor f) (gap_bytes gap_) None)); [done|].
    specialize (Hn _ eq_refl). rewrite Hs' in Hn. simpl in Hn. done.
Qed.

Lemma filter_heads ls : filter (fun l => blank l = false) (heads ls) = filter (fun l => blank l = false) ls.
Proof. by destruct ls as [|[|x l] ls]. Qed.

Lemma query_spec f q s recs : readable f s recs ->
  query sha256 f q = Ok (take (effective_limit q) (filter (fun r => matches q r = true) (reverse recs))).
Proof.
  intros Hr. unfold query. destruct (effective_limit q =? 0)%nat eqn:E; bool_to_prop; [by rewrite E|].
  unfold readable in Hr. destruct (log f) as [raw|].
  - destruct (tail_open_ok raw) as [Ho Hrem].
    rewrite (query_loop_spec _ _ _ _ _ _ _ _ s recs); simpl; try done.
    + by rewrite Nat.sub_0_r.
    + rewrite Hrem. pose proof (length_heads (split (N.eqb LF) raw)). pose proof (length_split (N.eqb LF) raw). lia.
    + lia.
    + by rewrite Hrem, filter_heads, reverse_nil, app_nil_r.
  - destruct Hr as [_ ->]. by rewrite reverse_nil, filter_nil, take_nil.
Qed.

(** ** Histories of the files *)

Inductive history (rb : Z) : Files -> Prop :=
| history_new : history rb (mkFiles None None)
| history_append f r line rotate n :
    history rb f -> record_line sha256 rb f r = Ok (line, rotate) -> may_rotate f rotate ->
    history rb (append f (take n line) rotate)
| history_moved f r line :
    history rb f -> record_line sha256 rb f r = Ok (line, true) -> history rb (mkFiles None (log f)).

Lemma history_sound rb f : history rb f -> sound f.
Proof.
  induction 1 as [|f r line rotate n _ _ Hl Hm|f r line _ _ Hl].
  - by exists (mkScan None []), [].
  - destruct (append_readable _ _ _ _ _ n Hl Hm) as (s & recs & b & c & s' & recs' & _ & _ & _ & _ & _ & Hr & _).
    by exists s', recs'.
  - by exists (start_of (mkFiles None (log f))), [].
Qed.

Lemma record_errors rb f r e : sound f -> record sha256 rb f r = Err e -> exists m, e = Encode m.
Proof.
  intros (s & recs & Hr). unfold record, record_line.
  assert (Hs : match log f with Some raw => fst <$> scan_records sha256 raw (rotated_anchor f)
               | None => Ok (mkScan (rotated_anchor f) []) end = Ok s).
  { unfold readable, scan_records in *. destruct (log f) as [raw|]; [|by destruct Hr as [-> _]].
    unfold start_of in Hr. by rewrite (proj2 (scan_lines_ok _ _ _ _ _ _) Hr). }
  rewrite Hs. simpl. unfold make_chain. destruct (to_vec (set_chain r None)); simpl; [|naive_solver].
  destruct (to_vec _); simpl; naive_solver.
Qed.

(** A log with no record in it is rotated over one that had some: the record that is
    written continues a chain that is gone. *)
Lemma blind_rotation rb f r line : sound f -> record_line sha256 rb f r = Ok (line, true) -> ~ may_rotate f true ->
  (exists m, verify sha256 (append f line true) = Err (Chain m))
  /\ forall r', exists m, record sha256 rb (append f line true) r' = Err (Chain m).
Proof.
  intros _ Hl Hno. apply record_line_ok in Hl as (s & recs & b & c & json & Hr & Hrot & Hb & -> & Hj & ->). cbn [negb andb app].
  destruct (log f) as [raw|] eqn:El; [|done]. unfold readable in Hr. rewrite El in Hr.
  assert (recs = [] /\ exists a, rotated_anchor f = Some a) as [-> [a Ha]].
  { destruct recs as [|x recs], (rotated_anchor f) as [a|] eqn:Ha; [by eauto|..]; destruct Hno; intros _ s' recs' Hr';
      [by right| |by right]; left; unfold readable in Hr'; rewrite El in Hr'; by destruct (scans_fun _ _ _ _ _ _ Hr Hr') as [_ <-]. }
  pose proof (scans_anchor _ _ _ _ Hr) as Has. simpl in Has. rewrite Ha in Has.
  set (c := mkChain _ _ _ _) in *. set (f' := append f (json ++ [LF]) true). assert (Hrot' : rotated f' = Some raw) by exact El.
  assert (Hra : rotated_anchor f' = None) by (rewrite (rotated_anchor_spec f' raw Hrot'); by rewrite (scans_chains _ _ _ _ Hr)).
  assert (Hscan : exists m, scan_records sha256 (json ++ [LF]) (rotated_anchor f') = Err (Chain m)).
  { rewrite Hra. unfold scan_records. rewrite lines_closed, (lines_one json); [|by eapply codec_one_line|by eapply json_not_blank, codec_object].
    cbn [scan_lines]. rewrite (codec_roundtrip _ _ Hj). cbn [chain set_chain]. unfold check_link. cbn [chain set_chain anchor].
    rewrite (bool_decide_eq_false_2 (prev c = _)) by (subst c; simpl; by rewrite Has).
    cbn [negb]. rewrite orb_true_r. simpl. by eexists. }
  destruct Hscan as [m Hscan]. split.
  - exists m. unfold verify. change (log f') with (Some (json ++ [LF])). cbv iota. by rewrite Hscan.
  - intros r'. exists m. unfold record, record_line. change (log f') with (Some (json ++ [LF])). cbv iota. by rewrite Hscan.
Qed.

(** ** What the hash of a record covers *)

Definition anchor_key (a : option AuditChain) : option (Z * rstr) := (fun c => (sequence c, hash c)) <$> a.

Lemma linked_key r p p' g : anchor_key p = anchor_key p' -> linked r p g -> linked r p' g.
Proof.
  intros E (c & b & Hc & Hb & ->). exists (mkChain (next_sequence p) (hash <$> p) (sha256 b) (if is_empty g then None else Some (sha256 g))), b.
  split_and!; [done|done|]. destruct p as [[]|], p' as [[]|]; simpl in *; simplify_eq; done.
Qed.

Lemma scans_key s t ls s' recs : anchor_key (anchor s) = anchor_key (anchor t) -> gap s = gap t ->
  scans s ls s' recs -> exists t', scans t ls t' recs /\ anchor_key (anchor t') = anchor_key (anchor s').
Proof.
  intros Ha Hg Hs. revert t Ha Hg. induction Hs as [s|s l rest s' recs Hno _ IH|s l r rest s' recs Hr Hl _ IH]; intros t Ha Hg.
  - exists t. split; [constructor|done].
  - destruct (IH (mkScan (anchor t) (gap t ++ l ++ [LF]))) as (t' & Ht & Hk); [done|simpl; by rewrite Hg|].
    exists t'. split; [by apply scans_torn|done].
  - destruct (IH (mkScan (chain r) [])) as (t' & Ht & Hk); [done|done|].
    exists t'. split; [|done]. eapply scans_record; [done| |done]. rewrite <- Hg. by eapply linked_key.
Qed.

(** The record [x] put in the place of one with chain [c]. *)
Definition forged (x : AuditRecord) (bx : rbytes) (c : AuditChain) : AuditRecord :=
  set_chain x (Some (mkChain (sequence c) (prev c) (sha256 bx) (torn c))).
(** The next record, relinked to it. *)
Definition relinked (y : AuditRecord) (bx : rbytes) (c : AuditChain) : AuditRecord :=
  set_chain y (Some (mkChain (sequence c) (Some (sha256 bx)) (hash c) (torn c))).

Lemma set_chain_twice r c d : set_chain (set_chain r c) d = set_chain r d.
Proof. done. Qed.

Lemma set_chain_id r : set_chain r (chain r) = r.
Proof. by destruct r. Qed.

Lemma forge_scan s0 l1 lk ln l2 s recs k n ck cn x bx lx ly :
  scans s0 (l1 ++ lk :: ln :: l2) s recs -> from_slice lk = Ok k -> from_slice ln = Ok n ->
  chain k = Some ck -> chain n = Some cn -> to_vec (set_chain x None) = Ok bx ->
  to_vec (forged x bx ck) = Ok lx -> to_vec (relinked n bx cn) = Ok ly ->
  exists s' recs', scans s0 (l1 ++ lx :: ly :: l2) s' recs' /\ anchor_key (anchor s') = anchor_key (anchor s)
    /\ forged x bx ck ∈ recs'.
Proof.
  intros Hs Hk Hn Hck Hcn Hbx Hlx Hly. apply scans_app in Hs as (s1 & r1 & r2 & H1 & H2 & ->).
  inversion H2 as [|? ? ? ? ? Hno|? ? k' ? ? rk Hk' Hlk H3]; subst; [by rewrite Hk in Hno|].
  rewrite Hk in Hk'. injection Hk' as <-.
  inversion H3 as [|? ? ? ? ? Hno|? ? n' ? ? rn Hn' Hln H4]; subst; [by rewrite Hn in Hno|].
  rewrite Hn in Hn'. injection Hn' as <-. simpl in Hln.
  destruct Hlk as (c & b & Hc & _ & Ec). rewrite Hck in Hc. injection Hc as <-.
  destruct Hln as (d & bn & Hd & Hbn & Ed). rewrite Hcn in Hd. injection Hd as <-.
  destruct (scans_key (mkScan (chain n) []) (mkScan (chain (relinked n bx cn)) []) l2 s rn) as (t & Ht & Hkey); [by rewrite Hcn|done|done|].
  exists t, (r1 ++ forged x bx ck :: relinked n bx cn :: rn). split_and!; [|done|set_solver].
  apply scans_app. eexists s1, r1, _. split_and!; [done| |done].
  eapply scans_record; [by apply codec_roundtrip| |eapply scans_record; [by apply codec_roundtrip| |exact Ht]].
  - exists (mkChain (sequence ck) (prev ck) (sha256 bx) (torn ck)), bx. split_and!; [done|done|]. by rewrite Ec.
  - exists (mkChain (sequence cn) (Some (sha256 bx)) (hash cn) (torn cn)), bn. split_and!; [done|done|].
    rewrite Ed, Hck, Ec. simpl. done.
Qed.

Definition unlines (ls : list rbytes) : rbytes := concat ((fun l => l ++ [LF]) <$> ls).

Definition plain_line (l : rbytes) : Prop := LF ∉ l /\ blank l = false.

Lemma lines_unlines ls : Forall plain_line ls -> lines (unlines ls) = ls.
Proof.
  induction 1 as [|l ls [Hl Hb] _ IH]; [done|].
  change (unlines (l :: ls)) with ((l ++ [LF]) ++ unlines ls). rewrite <- app_assoc. simpl.
  unfold lines in *. rewrite (split_sep _ l LF) by apply N.eqb_refl. rewrite filter_app, IH.
  rewrite split_LF_piece by done. by rewrite filter_cons, Hb.
Qed.

Lemma json_plain r b : to_vec r = Ok b -> plain_line b.
Proof. intros H. split; [by eapply codec_one_line|by eapply json_not_blank, codec_object]. Qed.
End Verified.

(** ** Properties *)

(** Appending. A record that [record] accepts ends the log as a link to the
    last record before it (its sequence is the next one, its [prev] that hash, its
    hash that of its own contents), and [verify] accepts the whole log and
    answers that link, also across a rotation and after torn lines. When the log
    is over the size limit it must hold a record, or nothing came before it. *)
Theorem audit_append {codec : RecordCodec} sha256 rb f r f' :
  record sha256 rb f r = Ok f' -> may_rotate sha256 f (full rb (log f)) ->
  exists s recs b c, readable sha256 f s recs /\ to_vec (set_chain r None) = Ok b
    /\ sequence c = next_sequence (anchor s) /\ prev c = hash <$> anchor s /\ hash c = sha256 b
    /\ verify sha256 f' = Ok c
    /\ readable sha256 f' (mkScan (Some c) [])
         ((if full rb (log f) then [] else recs) ++ [set_chain r (Some c)]).
Proof.
  unfold record. intros ([line rotate] & Hl & [= <-])%result_bind_ok Hm.
  assert (E : rotate = full rb (log f)) by (by apply record_line_ok in Hl as (? & ? & ? & ? & ? & _ & ? & _)).
  rewrite <- E in *.
  destruct (append_readable sha256 rb f r line rotate (length line) Hl Hm)
    as (s & recs & b & c & s' & recs' & H1 & H2 & H3 & H4 & H5 & H6 & H7).
  rewrite firstn_all in H6. destruct (H7 (le_n _)) as [-> ->].
  exists s, recs, b, c. split_and!; try done. apply verify_ok.
  exists (default [] (log (append f line rotate))). destruct rotate; eauto 10.
Qed.

(** C39: Crashes. However many appends were made and however many of them were
    cut short after any number of bytes (also between the rename of a rotation
    and the new file), the log stays usable: [record] refuses only a record that
    cannot be encoded, and [verify] never reports a broken chain. One kind of append
    is not among them: one that rotates a log without a single record in it over an
    earlier log that had one. The last clause says what it does: from then on
    [verify] reports a broken chain and [record] refuses every record. *)
Theorem audit_survives_crashes {codec : RecordCodec} sha256 rb f :
  history sha256 rb f ->
  (forall r e, record sha256 rb f r = Err e -> exists m, e = Encode m)
  /\ (forall e, verify sha256 f = Err e ->
       e = Chain (lit "log does not exist") \/ e = Chain (lit "log is empty"))
  /\ (forall r line, record_line sha256 rb f r = Ok (line, true) -> ~ may_rotate sha256 f true ->
       (exists m, verify sha256 (append f line true) = Err (Chain m))
       /\ forall r', exists m, record sha256 rb (append f line true) r' = Err (Chain m)).
Proof.
  intros Hh%history_sound. split_and!; [intros r e; by apply record_errors| |intros r line; by apply blind_rotation].
  intros e. destruct Hh as (s & recs & Hr). unfold verify, readable, scan_records in *.
  destruct (log f) as [raw|]; [|intros [= <-]; auto]. unfold start_of in Hr.
  rewrite (proj2 (scan_lines_ok _ _ _ _ _ _ _) Hr). simpl. destruct (anchor s); [done|]. intros [= <-]; auto.
Qed.

(** Queries. On a log that can be read, [query], which reads the file
    backwards in chunks and stops early, gives exactly the newest matching
    records of the whole log, newest first, up to the limit. *)
Theorem audit_query {codec : RecordCodec} sha256 f q s recs :
  readable sha256 f s recs ->
  query sha256 f q = Ok (newest_first (filter (fun r => matches q r = true) recs) (Some (effective_limit q))).
Proof.
  intros Hr. rewrite (query_spec _ _ _ s recs) by done. unfold newest_first. by rewrite filter_reverse.
Qed.

(** The hash of a record covers its contents but not its link, so the chain
    does not cascade. In a log that verifies, any record that another directly
    follows can be replaced by one with other contents: with its own hash
    recomputed and only the [prev] of its successor changed, the log verifies
    again and [verify] answers the same count and the same final hash. *)
Theorem audit_chain_does_not_cascade {codec : RecordCodec} sha256 rot l1 lk ln l2 k n ck cn x bx lx ly c :
  Forall plain_line (l1 ++ lk :: ln :: l2) ->
  verify sha256 (mkFiles (Some (unlines (l1 ++ lk :: ln :: l2))) rot) = Ok c ->
  from_slice lk = Ok k -> chain k = Some ck -> from_slice ln = Ok n -> chain n = Some cn ->
  to_vec (set_chain x None) = Ok bx -> to_vec (forged sha256 x bx ck) = Ok lx ->
  to_vec (relinked sha256 n bx cn) = Ok ly ->
  exists c', verify sha256 (mkFiles (Some (unlines (l1 ++ lx :: ly :: l2))) rot) = Ok c'
    /\ sequence c' = sequence c /\ hash c' = hash c.
Proof.
  intros Hp (raw & s & recs & [= <-] & Hr & Ha)%verify_ok Hk Hck Hn Hcn Hbx Hlx Hly.
  unfold readable in Hr. simpl in Hr. rewrite lines_unlines in Hr by done.
  destruct (forge_scan sha256 _ _ _ _ _ _ _ _ _ _ _ _ _ _ _ Hr Hk Hn Hck Hcn Hbx Hlx Hly) as (s' & recs' & Hs & Hkey & _).
  rewrite Ha in Hkey. destruct (anchor s') as [c'|] eqn:Ea; [|done]. simpl in Hkey. injection Hkey as E1 E2.
  exists c'. split; [|done]. apply verify_ok. eexists _, s', recs'. split_and!; [done| |done].
  unfold readable. simpl. rewrite lines_unlines; [done|].
  apply Forall_app in Hp as [Hp1 Hp2]. apply Forall_cons in Hp2 as [_ Hp2]. apply Forall_cons in Hp2 as [_ Hp2].
  apply Forall_app. split; [done|]. repeat constructor; eauto using json_plain; by eapply json_plain.
Qed.
