(* ===== verification/AuditDemo.v ===== *)
(** * A concrete record codec, and the audit theorems at concrete logs

    The laws of [RecordCodec] can hold: a codec that writes a record as an object
    of length-prefixed fields between braces. The witnesses of the audit log's
    theorems run on it, with the identity in the place of the digest. *)

From Stdlib Require Import ZArith.
From S2P Require Import Prelude Str Num Ip AuditLog.

(** ** Fields as tokens *)

Definition Parser (A : Type) := list N -> option (A * list N).

Definition put_str (s : rstr) : list N := N.of_nat (length s) :: s.
Definition get_str : Parser rstr := fun l =>
  match l with
  | n :: rest => let n := N.to_nat n in
                 if (n <=? length rest)%nat then Some (take n rest, drop n rest) else None
  | [] => None
  end.

Definition put_opt {A} (f : A -> list N) (o : option A) : list N :=
  match o with None => [0%N] | Some a => 1%N :: f a end.
Definition get_opt {A} (g : Parser A) : Parser (option A) := fun l =>
  match l with
  | 0%N :: rest => Some (None, rest)
  | 1%N :: rest => '(a, rest) ← g rest; Some (Some a, rest)
  | _ => None
  end.

Definition put_Z (z : Z) : list N := [if (z <? 0)%Z then 1%N else 0%N; Z.abs_N z].
Definition get_Z : Parser Z := fun l =>
  match l with
  | s :: n :: rest => Some (if (s =? 1)%N then Z.opp (Z.of_N n) else Z.of_N n, rest)
  | _ => None
  end.

(** A value of a finite list of values, by its index. *)
Definition index_of {A} `{EqDecision A} (l : list A) (a : A) : nat :=
  match list_find (eq a) l with Some (i, _) => i | None => 0%nat end.
Definition put_enum {A} `{EqDecision A} (l : list A) (a : A) : list N := [N.of_nat (index_of l a)].
Definition get_enum {A} (l : list A) : Parser A := fun t =>
  match t with i :: rest => a ← l !! N.to_nat i; Some (a, rest) | [] => None end.

Definition reads {A} (f : A -> list N) (g : Parser A) : Prop := forall a k, g (f a ++ k) = Some (a, k).

Lemma str_reads : reads put_str get_str.
Proof.
  intros s k. unfold get_str, put_str. simpl. rewrite Nat2N.id, length_app.
  rewrite (proj2 (Nat.leb_le _ _)) by lia. by rewrite take_app_length, drop_app_length.
Qed.

Lemma opt_reads {A} (f : A -> list N) g : reads f g -> reads (put_opt f) (get_opt g).
Proof. intros H [a|] k; simpl; [|done]. by rewrite H. Qed.

Lemma Z_reads : reads put_Z get_Z.
Proof. intros z k. unfold put_Z. simpl. do 2 f_equal. destruct (z <? 0)%Z eqn:E; bool_to_prop; simpl; lia. Qed.

Lemma enum_reads {A} `{EqDecision A} (l : list A) : (forall a, a ∈ l) -> reads (put_enum l) (get_enum l).
Proof.
  intros Hall a k. unfold put_enum, get_enum, index_of. simpl.
  destruct (list_find (eq a) l) as [[i b]|] eqn:E.
  - apply list_find_Some in E as (Hi & <- & _). by rewrite Nat2N.id, Hi.
  - exfalso. eapply list_find_None in E. rewrite Forall_forall in E. by apply (E a).
Qed.


Definition results := [ROk; RDenied; RError; RStarted].
Definition kinds := [LocalUser; SessionUser; Token].
Definition ops :=
  [ListModules; GetModule; Validate; Plan; Apply; ConfirmCommit; RollbackCommit; ListBackups; Restore;
   ServiceStatus; ServiceAction; HostProfileOp; AuditQueryOp; UpdateStatus; CertStatus; CertRenew; UpdateApply].

Definition put_chain (c : AuditChain) : list N :=
  put_Z (sequence c) ++ put_opt put_str (prev c) ++ put_str (hash c) ++ put_opt put_str (torn c).
Definition get_chain : Parser AuditChain := fun l =>
  '(sq, l) ← get_Z l; '(pv, l) ← get_opt get_str l; '(hs, l) ← get_str l; '(tn, l) ← get_opt get_str l;
  Some (mkChain sq pv hs tn, l).

Lemma chain_reads : reads put_chain get_chain.
Proof.
  intros c k. unfold get_chain, put_chain. rewrite <- !app_assoc.
  rewrite Z_reads. cbn [mbind option_bind]. rewrite (opt_reads _ _ str_reads). cbn [mbind option_bind].
  rewrite str_reads. cbn [mbind option_bind]. rewrite (opt_reads _ _ str_reads). by destruct c.
Qed.


Definition put_record (r : AuditRecord) : list N :=
  put_str (ts r) ++ put_str (who r) ++ put_enum kinds (kind r) ++ put_enum ops (op r)
  ++ put_opt put_str (module r) ++ put_opt put_str (prev_hash r) ++ put_opt put_str (new_hash r)
  ++ put_opt put_str (before_hash r) ++ put_opt put_str (after_hash r) ++ put_opt put_Z (commit_id r)
  ++ put_enum results (outcome r) ++ put_opt put_str (error_id r) ++ put_opt put_chain (chain r).

Definition get_record : Parser AuditRecord := fun l =>
  '(a, l) ← get_str l; '(b, l) ← get_str l; '(c, l) ← get_enum kinds l; '(d, l) ← get_enum ops l;
  '(e, l) ← get_opt get_str l; '(f, l) ← get_opt get_str l; '(g, l) ← get_opt get_str l;
  '(h, l) ← get_opt get_str l; '(i, l) ← get_opt get_str l; '(j, l) ← get_opt get_Z l;
  '(m, l) ← get_enum results l; '(n, l) ← get_opt get_str l; '(o, l) ← get_opt get_chain l;
  Some (mkRecord a b c d e f g h i j m n o, l).

Lemma record_reads : reads put_record get_record.
Proof.
  intros r k. unfold get_record, put_record. rewrite <- !app_assoc.
  repeat first
    [ rewrite str_reads; cbn [mbind option_bind]
    | rewrite (opt_reads _ _ str_reads); cbn [mbind option_bind]
    | rewrite (opt_reads _ _ Z_reads); cbn [mbind option_bind]
    | rewrite (opt_reads _ _ chain_reads); cbn [mbind option_bind]
    | rewrite enum_reads by (intros []; compute; repeat constructor); cbn [mbind option_bind] ].
  by destruct r.
Qed.

(** ** The wire form *)

Definition wire (r : AuditRecord) : rbytes := 123%N :: ((fun t => (t + 200)%N) <$> put_record r) ++ [125%N].

Definition unwire (b : rbytes) : result rstr AuditRecord :=
  match b with
  | c :: rest =>
      if (c =? 123)%N && ends_with 125%N rest then
        match get_record ((fun t => (t - 200)%N) <$> pop rest) with
        | Some (r, []) => Ok r
        | _ => Err (lit "syntax")
        end
      else Err (lit "syntax")
  | [] => Err (lit "syntax")
  end.

Lemma shift_back (l : list N) : (fun t => (t - 200)%N) <$> ((fun t => (t + 200)%N) <$> l) = l.
Proof. induction l as [|x l IH]; simpl; [done|]. f_equal; [lia|done]. Qed.

Lemma unwire_wire r : unwire (wire r) = Ok r.
Proof.
  unfold unwire, wire. rewrite ends_with_snoc, !N.eqb_refl, pop_snoc, shift_back. cbn [andb].
  pose proof (record_reads r []) as H. rewrite app_nil_r in H. by rewrite H.
Qed.

Lemma wire_elem r x : x ∈ wire r -> x = 123%N \/ x = 125%N \/ (200 <= x)%N.
Proof.
  unfold wire. rewrite elem_of_cons, elem_of_app, list_elem_of_fmap, list_elem_of_singleton.
  intros [->|[(y & -> & _)| ->]]; [auto| |auto]. right; right. lia.
Qed.

(** A proper prefix does not end in the closing brace. *)
Lemma unwire_prefix r n : (n < length (wire r))%nat -> is_ok (unwire (take n (wire r))) = false.
Proof.
  unfold wire. set (l := (fun t => (t + 200)%N) <$> put_record r). destruct n as [|n]; [done|].
  intros Hn. cbn [length] in Hn. rewrite length_app in Hn. cbn [length] in Hn.
  rewrite firstn_cons, take_app_le by lia. unfold unwire.
  destruct (ends_with 125%N (take n l)) eqn:E; [|by rewrite andb_false_r]. exfalso. unfold ends_with in E.
  apply bool_decide_eq_true, last_Some_elem_of, elem_of_take in E as (i & Hi & _).
  apply list_lookup_fmap_Some_1 in Hi as (y & Hy & _). lia.
Qed.

Lemma unwire_blank b : blank b = true -> is_ok (unwire b) = false.
Proof.
  destruct b as [|x b]; [done|]. unfold blank. simpl. intros [Hx _]%andb_true_iff.
  unfold unwire. destruct (x =? 123)%N eqn:E; [|done]. apply N.eqb_eq in E. by subst.
Qed.

Definition demo_codec : RecordCodec.
Proof.
  refine {| to_vec := fun r => Ok (wire r); from_slice := unwire |}.
  - intros r b [= <-]. apply unwire_wire.
  - intros r b [= <-]. done.
  - intros r b [= <-] H. apply wire_elem in H as [H|[H|H]]; unfold LF in H; lia.
  - apply unwire_blank.
  - intros r b n [= <-]. apply unwire_prefix.
Defined.

(** ** Concrete logs *)

#[local] Existing Instance demo_codec.
Definition digest (b : rbytes) : rstr := b.

Definition event (who_ : rstr) : AuditRecord :=
  mkRecord (lit "t") who_ LocalUser Apply None None None None None None ROk None None.

Definition no_files : Files := mkFiles None None.
Definition after (f : Files) (r : AuditRecord) : Files := unwrap_or (record digest AUDIT_ROTATE_BYTES f r) no_files.
Definition one : Files := after no_files (event (lit "a")).
Definition three : Files := after (after one (event (lit "b"))) (event (lit "c")).

(** The lines of the three records. *)
Definition log_lines : list rbytes := lines (default [] (log three)).
Definition line_of (i : nat) : rbytes := default [] (log_lines !! i).
Definition record_of (i : nat) : AuditRecord := unwrap_or (from_slice (line_of i)) (event (lit "")).
Definition chain_at (i : nat) : AuditChain := default (mkChain 0 None [] None) (chain (record_of i)).

Lemma one_readable : readable digest one (mkScan (chain (record_of 0)) []) [record_of 0].
Proof. apply (scan_lines_ok digest 1 _ None). vm_compute. reflexivity. Qed.

Lemma audit_append_witness : exists c, verify digest (after one (event (lit "b"))) = Ok c /\ sequence c = 2%Z.
Proof.
  destruct (audit_append digest AUDIT_ROTATE_BYTES one (event (lit "b")) (after one (event (lit "b"))))
    as (s & recs & b & c & Hr & _ & Hs & _ & _ & Hv & _).
  - vm_compute. reflexivity.
  - intros H. vm_compute in H. discriminate H.
  - exists c. split; [exact Hv|]. rewrite Hs.
    destruct (scans_fun digest _ _ _ _ _ _ Hr one_readable) as [-> _]. vm_compute. reflexivity.
Defined.

(** The log of one record and a second append cut after five bytes: it is read
    as one record, and a third append is accepted. *)
Definition second_line : rbytes := (unwrap_or (record_line digest AUDIT_ROTATE_BYTES one (event (lit "b"))) ([], false)).1.
Definition torn : Files := append one (take 5 second_line) false.

Lemma one_history : history digest AUDIT_ROTATE_BYTES one.
Proof.
  change (history digest AUDIT_ROTATE_BYTES
    (append no_files (take (length (line_of 0)  + 1) (line_of 0 ++ [LF])) false)).
  apply (history_append digest AUDIT_ROTATE_BYTES _ (event (lit "a"))).
  - apply history_new.
  - vm_compute. reflexivity.
  - intros H. discriminate H.
Qed.

(** With a limit of no bytes at all: one record, a second one that rotates it away and
    is cut short, and a third one that rotates the torn rest over it. *)
Definition rotated_torn : Files := append one (take 5 (unwrap_or (record_line digest 0 one (event (lit "b"))) ([], false)).1) true.
Definition blind : Files := unwrap_or (record digest 0 rotated_torn (event (lit "c"))) no_files.
Example blind_breaks : is_ok (verify digest rotated_torn) = true
  /\ verify digest blind = Err (Chain (lit "record 2 is not linked to its predecessor"))
  /\ record digest 0 blind (event (lit "d")) = Err (Chain (lit "record 2 is not linked to its predecessor")).
Proof. vm_compute. split_and!; reflexivity. Qed.

Lemma audit_survives_crashes_witness :
  log torn <> log one
  /\ (forall r e, record digest AUDIT_ROTATE_BYTES torn r = Err e -> exists m, e = Encode m)
  /\ (forall e, verify digest torn = Err e ->
       e = Chain (lit "log does not exist") \/ e = Chain (lit "log is empty")).
Proof.
  split; [vm_compute; discriminate|].
  enough (history digest AUDIT_ROTATE_BYTES torn) as Hh by (destruct (audit_survives_crashes digest AUDIT_ROTATE_BYTES torn Hh) as (H1 & H2 & _); split; assumption).
  apply (history_append digest AUDIT_ROTATE_BYTES _ (event (lit "b"))).
  - apply one_history.
  - vm_compute. reflexivity.
  - intros H. discriminate H.
Defined.

Lemma audit_query_witness :
  query digest one (mkQuery None None None) = Ok [record_of 0].
Proof.
  rewrite (audit_query digest one (mkQuery None None None) _ _ one_readable). vm_compute. reflexivity.
Defined.

Definition intruder : AuditRecord := event (lit "z").
Definition forged_line : rbytes := wire (forged digest intruder (wire intruder) (chain_at 1)).
Definition relinked_line : rbytes := wire (relinked digest (record_of 2) (wire intruder) (chain_at 2)).

Lemma audit_chain_does_not_cascade_witness :
  exists c', verify digest (mkFiles (Some (unlines [line_of 0; forged_line; relinked_line])) None) = Ok c'
    /\ sequence c' = sequence (chain_at 2) /\ hash c' = hash (chain_at 2).
Proof.
  apply (audit_chain_does_not_cascade digest None [line_of 0] (line_of 1) (line_of 2) []
           (record_of 1) (record_of 2) (chain_at 1) (chain_at 2) intruder (wire intruder) forged_line relinked_line (chain_at 2));
    try (vm_compute; reflexivity).
  repeat constructor; try (vm_compute; reflexivity);
    apply (bool_decide_eq_true_1 (LF ∉ _)); vm_compute; reflexivity.
Defined.
