(* ===== verification/Disk.v ===== *)
(** * The file system, with faults and crashes

    What [crates/detent-platform/src/fs/atomic.rs] and the monitor use of the
    operating system. A disk maps absolute paths to nodes; an operation is a
    state-passing computation that numbers its system calls and records every
    disk it goes through, a partial write byte by byte, so a crash is the choice
    of one recorded disk. Any call may fail: an environment names the calls that
    do, the error they give, and for a write how many bytes went out first.
    [NOENT] and [EXIST] are not injected: they depend on the disk alone.

    Not modelled: a symbolic link in the directory part of a path, another
    process that changes the same files while an operation runs, and a disk that
    reorders writes across an [fsync]. *)

From Stdlib Require Import ZArith.
From stdpp Require Import gmap sorting.
From S2P Require Import Prelude Str.
#[local] Open Scope Z_scope.

Abbreviation rbytes := (list N).

(** ** Paths *)

(** A component of a path; a name that is not UTF-8 is kept as its bytes. *)
Inductive Comp := Normal (name : rstr) | NotUtf8 (bytes : rbytes) | ParentDir.

Record Path := mkPath { is_absolute : bool; components : list Comp }.

#[export] Instance Comp_eq_dec : EqDecision Comp. Proof. solve_decision. Defined.
#[export] Instance Path_eq_dec : EqDecision Path. Proof. solve_decision. Defined.

#[export] Instance Comp_countable : Countable Comp.
Proof.
  refine (inj_countable'
    (fun c => match c with Normal n => inl n | NotUtf8 b => inr (inl b) | ParentDir => inr (inr ()) end)
    (fun x => match x with inl n => Normal n | inr (inl b) => NotUtf8 b | inr (inr _) => ParentDir end) _).
  by intros [].
Defined.

#[export] Instance Path_countable : Countable Path.
Proof.
  refine (inj_countable' (fun p => (is_absolute p, components p)) (fun x => mkPath x.1 x.2) _). by intros [].
Defined.

(** [Path::parent], [Path::join] of one name, [Path::file_name]. *)
Definition parent (p : Path) : option Path :=
  match components p with [] => None | cs => Some (mkPath (is_absolute p) (take (length cs - 1) cs)) end.

Definition join_name (p : Path) (name : rstr) : Path := mkPath (is_absolute p) (components p ++ [Normal name]).

Definition file_name (p : Path) : option Comp :=
  match last (components p) with Some ParentDir | None => None | Some c => Some c end.

(** The directories a path goes through, itself included, outermost first. *)
Definition ancestors (p : Path) : list Path :=
  (fun i => mkPath (is_absolute p) (take i (components p))) <$> seq 1 (length (components p)).

(** [PathBuf::from] a string: empty and [.] components vanish. (A leading [.] of
    a relative path does too; only its being relative is looked at.) *)
Definition SLASH : rchar := 47%N.
Definition path_of_str (s : rstr) : Path :=
  mkPath (starts_with SLASH s)
    (omap (fun part => if is_empty part || bool_decide (part = lit ".") then None
                       else Some (if bool_decide (part = lit "..") then ParentDir else Normal part))
          (split (N.eqb SLASH) s)).

(** [Path::join]. *)
Definition path_join (p q : Path) : Path :=
  if is_absolute q then q else mkPath (is_absolute p) (components p ++ components q).

(** [Path::starts_with]. *)
Definition path_starts_with (p base : Path) : bool :=
  if is_absolute base then is_absolute p && bool_decide (components base `prefix_of` components p)
  else bool_decide (components base = []) || negb (is_absolute p) && bool_decide (components base `prefix_of` components p).

Lemma parent_some p : components p <> [] ->
  parent p = Some (mkPath (is_absolute p) (take (length (components p) - 1) (components p))).
Proof. unfold parent. by destruct (components p). Qed.

Lemma parent_join p n : parent (join_name p n) = Some p.
Proof.
  rewrite parent_some by (simpl; by destruct (components p)). unfold join_name. simpl.
  rewrite length_app. simpl. rewrite Nat.add_sub, take_app_length. by destruct p.
Qed.

Lemma join_inj p q n k : join_name p n = join_name q k -> p = q /\ n = k.
Proof.
  intros H. pose proof (f_equal parent H) as H'. rewrite !parent_join in H'. injection H' as ->.
  injection H as H. apply app_inv_head in H. injection H as ->. done.
Qed.

(** ** Nodes *)

Record File := mkFile {
  contents : rbytes;
  mode : Z;
  owner : Z * Z;
  xattrs : list (rstr * rbytes);
  ino : Z;
  modified : Z;
}.

Inductive Node := Regular (f : File) | SymLink | Directory (m : Z) | Special.

Abbreviation Disk := (gmap Path Node).

Definition set_mode (m : Z) (f : File) : File := mkFile (contents f) m (owner f) (xattrs f) (ino f) (modified f).
Definition set_owner (o : Z * Z) (f : File) : File := mkFile (contents f) (mode f) o (xattrs f) (ino f) (modified f).
Definition set_attr (n : rstr) (v : rbytes) (f : File) : File :=
  mkFile (contents f) (mode f) (owner f) (filter (fun a => a.1 <> n) (xattrs f) ++ [(n, v)]) (ino f) (modified f).
Definition put (b : rbytes) (now : Z) (f : File) : File :=
  mkFile (contents f ++ b) (mode f) (owner f) (xattrs f) (ino f) now.
Definition truncated (now : Z) (f : File) : File := mkFile [] (mode f) (owner f) (xattrs f) (ino f) now.

(** Change the file at [p], if there is one. *)
Definition on_file (g : File -> File) (p : Path) (d : Disk) : Disk :=
  match d !! p with Some (Regular f) => <[p := Regular (g f)]> d | _ => d end.

(** ** Errors *)

Inductive Errno := NOENT | EXIST | LOOP | NOTDIR | ISDIR | ROFS | ACCES | PERM | NOTSUP | OTHER.
Inductive Fault := FReadOnly | FAccess | FPerm | FNotSup | FOther.

#[export] Instance Errno_eq_dec : EqDecision Errno. Proof. solve_decision. Defined.

Definition errno_of (f : Fault) : Errno :=
  match f with FReadOnly => ROFS | FAccess => ACCES | FPerm => PERM | FNotSup => NOTSUP | FOther => OTHER end.

(** [std::io::ErrorKind]. *)
Inductive ErrorKind := NotFound | AlreadyExists | PermissionDenied | ReadOnlyFilesystem | OtherKind.

#[export] Instance ErrorKind_eq_dec : EqDecision ErrorKind. Proof. solve_decision. Defined.

Definition kind (e : Errno) : ErrorKind :=
  match e with
  | NOENT => NotFound
  | EXIST => AlreadyExists
  | ACCES | PERM => PermissionDenied
  | ROFS => ReadOnlyFilesystem
  | _ => OtherKind
  end.

(** ** Computations *)

(** What the kernel and the hardware decide: the faults, the clock, the numbers
    of new inodes and the owner of new files. *)
Record Env := mkEnv {
  fault : nat -> option (Fault * nat);
  clock : nat -> Z;
  new_ino : nat -> Z;
  process_owner : Z * Z;
}.

Definition faulty (env : Env) : Prop := exists n f, fault env n = Some f.

Record St := mkSt { disk : Disk; calls : nat; seen : list Disk }.

Definition start (d : Disk) : St := mkSt d 0 [d].

Definition M (E A : Type) : Type := St -> result E A * St.

#[export] Instance M_ret E : MRet (M E) := fun _ a st => (Ok a, st).
Definition throw {E A} (e : E) : M E A := fun st => (Err e, st).

(** Run [m], then go on with its result, whatever it is. *)
Definition try {E F A B} (m : M E A) (h : result E A -> M F B) : M F B :=
  fun st => let '(r, st) := m st in h r st.

#[export] Instance M_bind E : MBind (M E) := fun _ _ f m =>
  try m (fun r => match r with Ok a => f a | Err e => throw e end).

Definition map_err {E F A} (g : E -> F) (m : M E A) : M F A :=
  try m (fun r => match r with Ok a => mret a | Err e => throw (g e) end).

(** [let _ = m;]: the error of [m] is dropped. *)
Definition ignore {E F A} (m : M E A) : M F () := try m (fun _ => mret ()).

Definition of_result {E A} (r : result E A) : M E A := fun st => (r, st).

(** A loop over a list that stops at the first error. *)
Fixpoint each {E A} (f : A -> M E ()) (l : list A) : M E () :=
  match l with
  | [] => mret ()
  | x :: l => f x ≫= fun _ => each f l
  end.

Section Calls.
Variable env : Env.

(** A system call that changes the disk at once or fails. *)
Definition sys {A} (act : nat -> Disk -> result Errno A * Disk) : M Errno A := fun st =>
  match fault env (calls st) with
  | Some (f, _) => (Err (errno_of f), mkSt (disk st) (S (calls st)) (seen st))
  | None => let '(r, d) := act (calls st) (disk st) in (r, mkSt d (S (calls st)) (d :: seen st))
  end.

(** [write_all] to the end of the file open at [p], byte by byte. *)
Definition write_all (p : Path) (b : rbytes) : M Errno () := fun st =>
  let n := calls st in
  let k := match fault env n with Some (_, k) => Nat.min k (length b) | None => length b end in
  let after i := on_file (put (take i b) (clock env n)) p (disk st) in
  (match fault env n with Some (f, _) => Err (errno_of f) | None => Ok () end,
   mkSt (after k) (S n) (reverse (after <$> seq 0 (S k)) ++ seen st)).

Definition now {E} : M E Z := fun st => (Ok (clock env (calls st)), st).

(** [open] of a directory. *)
Definition open_directory (p : Path) : M Errno () := sys (fun _ d =>
  (match d !! p with Some (Directory _) => Ok () | Some _ => Err NOTDIR | None => Err NOENT end, d)).

(** [statat] without following, and [openat] for reading. *)
Definition stat_nofollow (p : Path) : M Errno Node := sys (fun _ d =>
  (match d !! p with Some n => Ok n | None => Err NOENT end, d)).

Definition open_read (p : Path) : M Errno File := sys (fun _ d =>
  (match d !! p with
   | Some (Regular f) => Ok f
   | Some SymLink => Err LOOP
   | Some _ => Err OTHER
   | None => Err NOENT
   end, d)).

(** A call on an open file that reads its state. *)
Definition on_handle {A} (p : Path) (get : File -> A) : M Errno A := sys (fun _ d =>
  (match d !! p with Some (Regular f) => Ok (get f) | _ => Err OTHER end, d)).

(** A call on an open file that changes it. *)
Definition set_handle (p : Path) (g : File -> File) : M Errno () := sys (fun _ d => (Ok (), on_file g p d)).

(** [openat] with [O_CREAT | O_EXCL | O_NOFOLLOW]. *)
Definition create_new (p : Path) (m : Z) : M Errno () := sys (fun n d =>
  match d !! p with
  | Some _ => (Err EXIST, d)
  | None => (Ok (), <[p := Regular (mkFile [] m (process_owner env) [] (new_ino env n) (clock env n))]> d)
  end).

(** [openat] with [O_WRONLY | O_TRUNC | O_NOFOLLOW]. *)
Definition open_truncate (p : Path) : M Errno () := sys (fun n d =>
  match d !! p with
  | Some (Regular f) => (Ok (), <[p := Regular (truncated (clock env n) f)]> d)
  | Some SymLink => (Err LOOP, d)
  | Some (Directory _) => (Err ISDIR, d)
  | Some Special => (Ok (), d)
  | None => (Err NOENT, d)
  end).

Definition fsync (p : Path) : M Errno () := sys (fun _ d => (Ok (), d)).

(** [renameat] of a file; directories are not renamed here. *)
Definition rename (from to : Path) : M Errno () := sys (fun _ d =>
  match d !! from, d !! to with
  | None, _ => (Err NOENT, d)
  | Some (Directory _), _ => (Err OTHER, d)
  | Some _, Some (Directory _) => (Err ISDIR, d)
  | Some n, _ => (Ok (), <[to := n]> (delete from d))
  end).

Definition unlink (p : Path) : M Errno () := sys (fun _ d =>
  match d !! p with
  | Some (Directory _) => (Err ISDIR, d)
  | Some _ => (Ok (), delete p d)
  | None => (Err NOENT, d)
  end).

Definition mkdir (p : Path) : M Errno () := sys (fun _ d =>
  match d !! p with
  | Some (Directory _) => (Ok (), d)
  | Some _ => (Err NOTDIR, d)
  | None => (Ok (), <[p := Directory 493]> d)
  end).

(** [std::fs::create_dir_all]. *)
Definition create_dir_all (p : Path) : M Errno () := each mkdir (ancestors p).

(** [open] with [O_CREAT | O_TRUNC], and with [O_CREAT] alone. *)
Definition open_private (p : Path) (m : Z) : M Errno () := sys (fun n d =>
  match d !! p with
  | Some (Regular f) => (Ok (), <[p := Regular (truncated (clock env n) f)]> d)
  | Some (Directory _) => (Err ISDIR, d)
  | Some _ => (Err OTHER, d)
  | None => (Ok (), <[p := Regular (mkFile [] m (process_owner env) [] (new_ino env n) (clock env n))]> d)
  end).

Definition open_create (p : Path) (m : Z) : M Errno () := sys (fun n d =>
  match d !! p with
  | Some (Regular _) => (Ok (), d)
  | Some (Directory _) => (Err ISDIR, d)
  | Some _ => (Err OTHER, d)
  | None => (Ok (), <[p := Regular (mkFile [] m (process_owner env) [] (new_ino env n) (clock env n))]> d)
  end).

(** [mkdir] of one directory. *)
Definition make_dir (p : Path) (m : Z) : M Errno () := sys (fun _ d =>
  match d !! p with
  | Some _ => (Err EXIST, d)
  | None => (Ok (), <[p := Directory m]> d)
  end).

(** [std::fs::read]. *)
Definition read_file (p : Path) : M Errno rbytes :=
  _ ← open_read p;
  on_handle p contents.

(** [Path::is_dir]: [false] also when the answer cannot be had. *)
Definition is_dir {E} (p : Path) : M E bool :=
  try (stat_nofollow p) (fun r => mret (match r with Ok (Directory _) => true | _ => false end)).

(** [std::fs::read_dir]: the entries of a directory, in no order to rely on. *)
Definition children (p : Path) (d : Disk) : list (Comp * Node) :=
  omap (fun '(q, n) => if bool_decide (parent q = Some p) then (fun c => (c, n)) <$> last (components q) else None)
       (map_to_list d).

Definition read_dir (p : Path) : M Errno (list (Comp * Node)) := sys (fun _ d =>
  (match d !! p with Some (Directory _) => Ok (children p d) | Some _ => Err NOTDIR | None => Err NOENT end, d)).

End Calls.

(** ** Crash specifications

    [spec I P m Q]: from a disk in [P], whatever faults strike, [m] ends in [Q],
    and every disk on the way satisfies [I]. *)

Definition spec {E A} (I P : Disk -> Prop) (m : M E A) (Q : result E A -> Disk -> Prop) : Prop :=
  forall st, P (disk st) -> (exists new, seen (m st).2 = new ++ seen st /\ Forall I new) /\ Q (m st).1 (disk (m st).2).

(** The same with the postcondition split: a value, or an error. *)
Definition on_ok {E A} (Q : A -> Disk -> Prop) (R : E -> Disk -> Prop) (r : result E A) (d : Disk) : Prop :=
  match r with Ok a => Q a d | Err e => R e d end.

Section Rules.
Context {E F A B : Type}.
Implicit Types I P : Disk -> Prop.

Lemma spec_weaken I I' P P' (m : M E A) (Q Q' : result E A -> Disk -> Prop) :
  spec I' P' m Q' -> (forall d, P d -> P' d) -> (forall d, I' d -> I d) -> (forall r d, Q' r d -> Q r d) ->
  spec I P m Q.
Proof.
  intros H HP HI HQ st Hst. destruct (H st) as [(new & E1 & H1) H2]; [by apply HP|]. split; [|by apply HQ].
  exists new. split; [done|]. by eapply Forall_impl.
Qed.

Lemma spec_pre I P P' (m : M E A) Q : spec I P' m Q -> (forall d, P d -> P' d) -> spec I P m Q.
Proof. intros H HP st Hst. by apply H, HP. Qed.

Lemma spec_post I P (m : M E A) (Q Q' : result E A -> Disk -> Prop) :
  spec I P m Q' -> (forall r d, Q' r d -> Q r d) -> spec I P m Q.
Proof. intros H HQ st Hst. destruct (H st Hst) as [H1 H2]. eauto. Qed.

(** Nothing happens. *)
Lemma spec_still I P (r : result E A) (Q : result E A -> Disk -> Prop) : (forall d, P d -> Q r d) -> spec I P (fun st => (r, st)) Q.
Proof. intros H st Hst. split; [by exists []|by apply H]. Qed.

Lemma spec_ret I P (a : A) (Q : result E A -> Disk -> Prop) : (forall d, P d -> Q (Ok a) d) -> spec I P (mret a) Q.
Proof. apply spec_still. Qed.

Lemma spec_throw I P (e : E) (Q : result E A -> Disk -> Prop) : (forall d, P d -> Q (Err e) d) -> spec I P (throw e) Q.
Proof. apply spec_still. Qed.

Lemma spec_of_result I P (r : result E A) Q : (forall d, P d -> Q r d) -> spec I P (of_result r) Q.
Proof. apply spec_still. Qed.

Lemma spec_try I P (m : M E A) (h : result E A -> M F B) R Q :
  spec I P m R -> (forall r, spec I (R r) (h r) Q) -> spec I P (try m h) Q.
Proof.
  intros Hm Hh st Hst. unfold try. destruct (Hm st Hst) as [(new & E1 & H1) H2].
  destruct (m st) as [r st']. destruct (Hh r st' H2) as [(new' & E2 & H3) H4]. split; [|done].
  exists (new' ++ new). rewrite E2. simpl in E1. rewrite E1, (assoc_L (++)). split; [done|]. by apply Forall_app.
Qed.

(** From a disk of one's own choice to one that varies. *)
Lemma spec_rebase (J : Disk -> Disk -> Prop) I P (m : M E A) (Q : Disk -> result E A -> Disk -> Prop) :
  (forall d1, P d1 -> spec (J d1) (fun d => d = d1) m (Q d1)) -> (forall d1 d, P d1 -> J d1 d -> I d) ->
  spec I P m (fun r d => exists d1, P d1 /\ Q d1 r d).
Proof.
  intros H HI st Hst. destruct (H (disk st) Hst st eq_refl) as [(new & E1 & H1) H2]. split; [|by eauto].
  exists new. split; [done|]. eapply Forall_impl; [done|]. intros d. by apply HI.
Qed.

End Rules.

Lemma spec_bind {E A B} (I P : Disk -> Prop) (m : M E A) (f : A -> M E B) R Q :
  spec I P m R -> (forall a, spec I (R (Ok a)) (f a) Q) -> (forall e d, R (Err e) d -> Q (Err e) d) ->
  spec I P (m ≫= f) Q.
Proof.
  intros Hm Hf He. refine (spec_try _ _ _ _ _ _ Hm _). intros [a|e]; [apply Hf|]. by apply spec_throw, He.
Qed.

Lemma spec_map_err {E F A} (I P : Disk -> Prop) (g : E -> F) (m : M E A) (Q : result F A -> Disk -> Prop) :
  spec I P m (fun r d => Q (match r with Ok a => Ok a | Err e => Err (g e) end) d) -> spec I P (map_err g m) Q.
Proof. intros H. refine (spec_try _ _ _ _ _ _ H _). intros [a|e]; [by apply spec_ret|by apply spec_throw]. Qed.

Lemma spec_ignore {E F A} (I P : Disk -> Prop) (m : M E A) (Q : result F () -> Disk -> Prop) :
  spec I P m (fun _ d => Q (Ok ()) d) -> spec I P (ignore m) Q.
Proof. intros H. refine (spec_try _ _ _ _ _ _ H _). intros r. by apply spec_ret. Qed.

(** A loop that keeps an invariant. *)
Lemma spec_each {E A} (I P : Disk -> Prop) (f : A -> M E ()) l (R : E -> Disk -> Prop) :
  (forall x, x ∈ l -> spec I P (f x) (on_ok (fun _ => P) R)) -> spec I P (each f l) (on_ok (fun _ => P) R).
Proof.
  induction l as [|x l IH]; intros H; [by apply spec_ret|]. simpl. eapply spec_bind.
  - apply H. left.
  - intros a. apply IH. intros y Hy. apply H. by right.
  - done.
Qed.

Section CallRules.
Variable env : Env.
Implicit Types I P : Disk -> Prop.

Lemma spec_sys {A} I P act (Q : result Errno A -> Disk -> Prop) :
  (forall n d, P d -> I (act n d).2 /\ Q (act n d).1 (act n d).2) ->
  (forall f d, P d -> faulty env -> Q (Err (errno_of f)) d) -> spec I P (sys env act) Q.
Proof.
  intros H Hf st Hst. unfold sys. destruct (fault env (calls st)) as [[f k]|] eqn:E; simpl.
  - split; [by exists []|]. apply Hf; [done|]. unfold faulty. eauto.
  - destruct (act (calls st) (disk st)) as [r d] eqn:Ea; simpl.
    specialize (H (calls st) _ Hst). rewrite Ea in H. destruct H. split; [exists [d]; by repeat constructor|done].
Qed.

(** A call that reads. *)
Lemma spec_read {A} I P act (Q : result Errno A -> Disk -> Prop) :
  (forall d, P d -> I d) -> (forall n d, (act n d).2 = d) -> (forall n d, P d -> Q (act n d).1 d) ->
  (forall f d, P d -> faulty env -> Q (Err (errno_of f)) d) -> spec I P (sys env act) Q.
Proof. intros HI Hr HQ Hf. apply spec_sys; [|done]. intros n d Hd. rewrite Hr. eauto. Qed.

Lemma spec_write_all I P p b (Q : result Errno () -> Disk -> Prop) :
  (forall t d k, P d -> I (on_file (put (take k b) t) p d)) ->
  (forall t d, P d -> Q (Ok ()) (on_file (put b t) p d)) ->
  (forall t f d k, P d -> faulty env -> Q (Err (errno_of f)) (on_file (put (take k b) t) p d)) ->
  spec I P (write_all env p b) Q.
Proof.
  intros HI HQ Hf st Hst. unfold write_all. split.
  - cbn [seen snd]. eexists. split; [done|]. apply Forall_reverse, Forall_fmap, Forall_true.
    intros i. by apply HI.
  - cbn [fst snd disk]. destruct (fault env (calls st)) as [[f k]|] eqn:E.
    + apply Hf; [done|]. unfold faulty. eauto.
    + rewrite firstn_all. by apply HQ.
Qed.

Lemma spec_now {E} I P (Q : result E Z -> Disk -> Prop) : (forall t d, P d -> Q (Ok t) d) -> spec I P (now env) Q.
Proof. intros H st Hst. split; [by exists []|by apply H]. Qed.

Lemma spec_is_dir {E} I P p (Q : result E bool -> Disk -> Prop) :
  (forall d, P d -> I d) -> (forall d, P d -> Q (Ok false) d) ->
  (forall m d, P d -> d !! p = Some (Directory m) -> Q (Ok true) d) -> spec I P (is_dir env p) Q.
Proof.
  intros HI HQ Ht. unfold is_dir, stat_nofollow.
  eapply spec_try with (R := fun r d => P d /\ forall n, r = Ok n -> d !! p = Some n).
  - apply spec_read; try done. intros n d Hd. simpl. destruct (d !! p); naive_solver.
  - intros r. apply spec_ret. intros d [Hd Hr]. destruct r as [[]|]; eauto.
Qed.

End CallRules.

(** ** Frames *)

Definition is_directory (d : Disk) (p : Path) : Prop := exists m, d !! p = Some (Directory m).

(** Nothing outside [T] differs. *)
Definition agrees (T : Path -> Prop) (d0 d : Disk) : Prop := forall p, ~ T p -> d !! p = d0 !! p.

Lemma agrees_refl T d : agrees T d d.
Proof. done. Qed.

Lemma agrees_weaken (T T' : Path -> Prop) d0 d : agrees T d0 d -> (forall p, T p -> T' p) -> agrees T' d0 d.
Proof. intros H HT p Hp. apply H. naive_solver. Qed.

Lemma agrees_trans T d0 d1 d2 : agrees T d0 d1 -> agrees T d1 d2 -> agrees T d0 d2.
Proof. intros H1 H2 p Hp. rewrite H2 by done. by apply H1. Qed.

Lemma agrees_insert (T : Path -> Prop) d0 d p n : agrees T d0 d -> T p -> agrees T d0 (<[p := n]> d).
Proof. intros H Hp q Hq. rewrite lookup_insert_ne by naive_solver. by apply H. Qed.

Lemma agrees_delete (T : Path -> Prop) d0 d p : agrees T d0 d -> T p -> agrees T d0 (delete p d).
Proof. intros H Hp q Hq. rewrite lookup_delete_ne by naive_solver. by apply H. Qed.

Lemma agrees_on_file (T : Path -> Prop) d0 d g p : agrees T d0 d -> T p -> agrees T d0 (on_file g p d).
Proof. intros H Hp. unfold on_file. destruct (d !! p) as [[]|]; try done. by apply agrees_insert. Qed.

Lemma on_file_ne g p q d : p <> q -> on_file g p d !! q = d !! q.
Proof. intros H. unfold on_file. destruct (d !! p) as [[]|]; try done. by rewrite lookup_insert_ne. Qed.

Lemma on_file_eq g p d f : d !! p = Some (Regular f) -> on_file g p d !! p = Some (Regular (g f)).
Proof. intros H. unfold on_file. rewrite H. apply lookup_insert_eq. Qed.

(** The same, and what was a directory still is one. *)
Definition near (T : Path -> Prop) (d0 d : Disk) : Prop := agrees T d0 d /\ forall p, is_directory d0 p -> is_directory d p.

Lemma near_refl T d : near T d d.
Proof. by split. Qed.

Lemma near_trans T d0 d1 d2 : near T d0 d1 -> near T d1 d2 -> near T d0 d2.
Proof. intros [H1 H2] [H3 H4]. split; [by eapply agrees_trans|auto]. Qed.

Lemma near_weaken (T T' : Path -> Prop) d0 d : near T d0 d -> (forall p, T p -> T' p) -> near T' d0 d.
Proof. intros [H1 H2] HT. split; [by eapply agrees_weaken|done]. Qed.

Lemma near_insert (T : Path -> Prop) d p n : T p -> (forall m, d !! p = Some (Directory m) -> exists k, n = Directory k) -> near T d (<[p := n]> d).
Proof.
  intros Hp Hn. split; [by apply agrees_insert|]. intros q [m Hq]. destruct (decide (p = q)) as [<-|Hne].
  - destruct (Hn m Hq) as [k ->]. exists k. apply lookup_insert_eq.
  - exists m. by rewrite lookup_insert_ne.
Qed.

Lemma near_delete (T : Path -> Prop) d p : T p -> (forall m, d !! p <> Some (Directory m)) -> near T d (delete p d).
Proof.
  intros Hp Hn. split; [by apply agrees_delete|]. intros q [m Hq]. exists m. rewrite lookup_delete_ne; [done|].
  intros ->. by eapply Hn.
Qed.

Lemma near_on_file (T : Path -> Prop) d g p : T p -> near T d (on_file g p d).
Proof.
  intros Hp. unfold on_file. destruct (d !! p) as [[]|] eqn:E; try apply near_refl. apply near_insert; [done|]. congruence.
Qed.

#[export] Hint Resolve agrees_refl agrees_insert agrees_delete agrees_on_file : detent.
