(* ===== verification/Atomic.v ===== *)
(** * Atomic writes with backups

    [crates/detent-platform/src/fs/atomic.rs]: the write of a configuration file
    through a temporary file and a rename, with a backup of what was there, and
    the in-place write for a directory that refuses the temporary file, covered by
    a marker. The model runs on [Disk]: any system call may fail and every disk
    passed through is recorded. SHA-256, the JSON of the marker, the formatting of
    a timestamp and the random part of a temporary name are parameters. *)

From Stdlib Require Import ZArith.
From stdpp Require Import gmap sorting.
From S2P Require Import Prelude Str Num Ip Disk.
#[local] Open Scope Z_scope.

(** ** Constants *)

Definition DEFAULT_KEEP_BACKUPS : nat := 20.
Definition BACKUP_FILE_MODE : Z := 384.  (* 0o600 *)
Definition BACKUP_DIR_MODE : Z := 448.  (* 0o700 *)
Definition NAME_ATTEMPTS : nat := 32.
Definition BACKUP_DIGEST_HEX_LEN : nat := 8.

(** ** Digests *)

(** The 32 bytes. *)
Definition Sha256Digest := list Z.

Definition hex_byte (b : Z) : rstr := [digit_char (b / 16); digit_char (b mod 16)].
Definition digest_display (d : Sha256Digest) : rstr := concat (hex_byte <$> d).
Definition short_hex (d : Sha256Digest) : rstr := take BACKUP_DIGEST_HEX_LEN (digest_display d).

(** ** Errors, requests, outcomes *)

Inductive AtomicError :=
| RelativePath (path : Path)
| Symlink (path : Path)
| NotRegularFile (path : Path)
| Conflict (expected : Sha256Digest) (actual : option Sha256Digest)
| Io (op : rstr) (path : Path) (source : Errno)
| BadDigest
| Clock.

(** [char::is_ascii_hexdigit]. *)
Definition is_ascii_hexdigit (c : rchar) : bool :=
  is_ascii_digit c || ((65 <=? c) && (c <=? 70))%N || ((97 <=? c) && (c <=? 102))%N.

(** [u8::from_str_radix] of two hexadecimal digits. *)
Definition hex_pair (a b : rchar) : option Z :=
  match to_digit 16 a, to_digit 16 b with Some x, Some y => Some (16 * x + y) | _, _ => None end.

Fixpoint hex_pairs (s : rstr) : result AtomicError Sha256Digest :=
  match s with
  | a :: b :: s =>
      match hex_pair a b with
      | Some x => match hex_pairs s with Ok d => Ok (x :: d) | Err e => Err e end
      | None => Err BadDigest
      end
  | _ => Ok []
  end.

Definition digest_from_str (s : rstr) : result AtomicError Sha256Digest :=
  if negb (str_len s =? 64)%nat || negb (forallb is_ascii_hexdigit s) then Err BadDigest else hex_pairs s.

Inductive InPlace := Never | Marker (marker : Path) | Guarded.

Record InPlaceMarker := mkMarker { m_path : Path; m_backup : option Path; m_prev : Sha256Digest; m_new : Sha256Digest }.

Record WriteRequest := mkRequest {
  path : Path;
  new_contents : rbytes;
  expected_prev : option Sha256Digest;
  backup_dir : Path;
  keep_backups : nat;
  create_missing : bool;
  create_mode : Z;
  in_place : InPlace;
}.

Definition new_request (path : Path) (contents : rbytes) (backup_dir : Path) : WriteRequest :=
  mkRequest path contents None backup_dir DEFAULT_KEEP_BACKUPS false 420 Never.

Record WriteOutcome := mkOutcome {
  prev_digest : option Sha256Digest;
  new_digest : Sha256Digest;
  backup : option Path;
  created : bool;
  owner_preserved : bool;
}.

Record BackupEntry := mkBackup { b_path : Path; b_created : Z; b_digest : Sha256Digest; b_len : nat }.

(** [NOTSUP] stands for the errors that say there are no attributes here. *)
Definition xattr_unsupported (e : Errno) : bool :=
  match e with NOTSUP | PERM | ACCES => true | _ => false end.

(** The last [c] of [s] and what stands before and after it. *)
Definition rsplit_once (c : rchar) (s : rstr) : option (rstr * rstr) :=
  match split_once (N.eqb c) (reverse s) with Some (after, before) => Some (reverse before, reverse after) | None => None end.

(** [sort_unstable] on strings: the order of their bytes, which is that of their
    code points. *)
Fixpoint str_leb (a b : rstr) : bool :=
  match a, b with
  | [], _ => true
  | _, [] => false
  | x :: a, y :: b => (x <? y)%N || (x =? y)%N && str_leb a b
  end.

Definition str_le (a b : rstr) : Prop := str_leb a b = true.
#[export] Instance str_le_dec : RelDecision str_le. Proof. intros a b. unfold str_le. apply _. Defined.

(** What the code takes from the outside. *)
Record World := mkWorld {
  env : Env;
  sha256 : rbytes -> Sha256Digest;
  to_vec : InPlaceMarker -> option rbytes;
  stamp : Z -> option rstr;
  token : nat -> Z;
}.

Section Ops.
Variable w : World.
#[local] Abbreviation io op p m := (map_err (Io (lit op) p) m).

Definition digest_of (b : rbytes) : Sha256Digest := sha256 w b.

Definition relative (p : Path) : result AtomicError (Path * rstr) := Err (RelativePath p).

Definition split_path (p : Path) : result AtomicError (Path * rstr) :=
  if negb (is_absolute p) then relative p
  else match file_name p with
       | Some (Normal name) => match parent p with Some dir => Ok (dir, name) | None => relative p end
       | _ => relative p
       end.

Definition open_dir (dir : Path) : M AtomicError () := io "open" dir (open_directory (env w) dir).

Definition perm_bits (raw : Z) : Z := Z.land raw 4095.  (* 0o7777 *)
Definition to_mode (bits : Z) : Z := Z.land bits 4095.

Record Existing := mkExisting {
  e_file : File;
  e_contents : rbytes;
  e_digest : Sha256Digest;
  e_mode : Z;
  e_owner : Z * Z;
}.

Definition read_existing (dir : Path) (name : rstr) (p : Path) : M AtomicError (option Existing) :=
  let at_ := join_name dir name in
  try (stat_nofollow (env w) at_) (fun r =>
    match r with
    | Ok (Regular _) =>
        file ← io "openat" p (open_read (env w) at_);
        owner_mode ← io "fstat" p (on_handle (env w) at_ (fun f => (mode f, owner f)));
        bytes ← io "read" p (on_handle (env w) at_ contents);
        mret (Some (mkExisting file bytes (digest_of bytes) (perm_bits owner_mode.1) owner_mode.2))
    | Ok SymLink => throw (Symlink p)
    | Ok _ => throw (NotRegularFile p)
    | Err NOENT => mret None
    | Err e => throw (Io (lit "statat") p e)
    end).

Definition read_with_digest (p : Path) : M AtomicError (rbytes * Sha256Digest) :=
  '(dir, name) ← of_result (split_path p);
  _ ← open_dir dir;
  found ← read_existing dir name p;
  match found with
  | Some found => mret (e_contents found, e_digest found)
  | None => throw (Io (lit "openat") p NOENT)
  end.

(** ** Temporary files *)

Definition TEMP_PREFIX : rstr := lit ".detent-tmp-".
Definition temp_name (attempt : nat) : rstr :=
  let hex := show_hex (token w attempt) in TEMP_PREFIX ++ replicate (16 - length hex) 48%N ++ hex.

(** Create a new file, trying the next name while one is taken. *)
Fixpoint create_exclusive_from (dir p : Path) (m : Z) (name_for : nat -> rstr) (attempt tries : nat)
    : M AtomicError rstr :=
  match tries with
  | O => throw (Io (lit "openat") p EXIST)
  | S tries =>
      let candidate := name_for attempt in
      try (create_new (env w) (join_name dir candidate) (to_mode m)) (fun r =>
        match r with
        | Ok _ => mret candidate
        | Err EXIST => create_exclusive_from dir p m name_for (S attempt) tries
        | Err e => throw (Io (lit "openat") p e)
        end)
  end.

Definition create_exclusive (dir p : Path) (m : Z) (name_for : nat -> rstr) : M AtomicError rstr :=
  create_exclusive_from dir p m name_for 0 NAME_ATTEMPTS.

(** [TempGuard]: run [m]; when it fails, remove the file, if that works. *)
Definition guarded {A} (file : Path) (m : M AtomicError A) : M AtomicError A :=
  try m (fun r =>
    match r with
    | Ok a => mret a
    | Err e => ignore (unlink (env w) file) ≫= fun _ => throw e
    end).

Definition chown_changes (current target : Z * Z) (m : Z) : bool :=
  negb (current.1 =? target.1) || negb (current.2 =? target.2) || negb (Z.land m 3072 =? 0).  (* 0o6000 *)

(** One attribute: get it from the source, set it on the copy. *)
Definition copy_xattr (source : File) (dest p : Path) (name : rstr) : M AtomicError () :=
  try (sys (env w) (fun _ d => (Ok (snd <$> list_find (fun a => a.1 = name) (xattrs source)), d))) (fun r =>
    match r with
    | Ok (Some (_, value)) =>
        try (set_handle (env w) dest (set_attr name value)) (fun r =>
          match r with
          | Ok _ => mret ()
          | Err e => if xattr_unsupported e then mret () else throw (Io (lit "fsetxattr") p e)
          end)
    | Ok None => mret ()
    | Err e => if xattr_unsupported e then mret () else throw (Io (lit "fgetxattr") p e)
    end).

Definition copy_xattrs (source : File) (dest p : Path) : M AtomicError () :=
  try (sys (env w) (fun _ d => (Ok (fst <$> xattrs source), d))) (fun r =>
    match r with
    | Ok names => each (copy_xattr source dest p) names
    | Err e => if xattr_unsupported e then mret () else throw (Io (lit "flistxattr") p e)
    end).

(** Give the temporary file its owner; [false] when only root could. *)
Definition restore_owner (temp p : Path) (m : Z) (owner_ : option (Z * Z)) : M AtomicError bool :=
  match owner_ with
  | None => mret true
  | Some target =>
      current ← io "fstat" p (on_handle (env w) temp owner);
      if chown_changes current target m then
        try (set_handle (env w) temp (set_owner target)) (fun r =>
          match r with
          | Ok _ => mret true
          | Err PERM => mret false
          | Err e => throw (Io (lit "fchown") p e)
          end)
      else mret true
  end.

Definition replace_contents (dir : Path) (name : rstr) (p : Path) (b : rbytes) (m : Z)
    (owner_ : option (Z * Z)) (source : option File) : M AtomicError bool :=
  temp ← create_exclusive dir p m temp_name;
  let file := join_name dir temp in
  preserved ← guarded file (
    _ ← io "fchmod" p (set_handle (env w) file (set_mode (to_mode m)));
    preserved ← restore_owner file p m owner_;
    _ ← match source with Some source => copy_xattrs source file p | None => mret () end;
    _ ← io "write" p (write_all (env w) file b);
    _ ← io "fsync" p (fsync (env w) file);
    _ ← io "renameat" p (rename (env w) file (join_name dir name));
    mret preserved);
  _ ← io "fsync" p (fsync (env w) dir);
  mret preserved.

Definition temp_refused (e : AtomicError) : bool :=
  match e with
  | Io op _ source =>
      bool_decide (op = lit "openat")
      && (bool_decide (kind source = ReadOnlyFilesystem) || bool_decide (kind source = PermissionDenied))
  | _ => false
  end.

(** ** Writing in place *)

Definition write_marker (marker : Path) (record : InPlaceMarker) : M AtomicError () :=
  '(dir, name) ← of_result (split_path marker);
  _ ← open_dir dir;
  match to_vec w record with
  | None => throw (Io (lit "serialize") marker OTHER)
  | Some json =>
      let file := join_name dir name in
      _ ← io "openat" marker (create_new (env w) file (to_mode BACKUP_FILE_MODE));
      _ ← io "write" marker (write_all (env w) file json);
      _ ← io "fsync" marker (fsync (env w) file);
      io "fsync" dir (fsync (env w) dir)
  end.

Definition remove_marker (marker : Path) : M AtomicError () :=
  '(dir, name) ← of_result (split_path marker);
  _ ← open_dir dir;
  _ ← io "unlinkat" marker (unlink (env w) (join_name dir name));
  io "fsync" dir (fsync (env w) dir).

Definition write_in_place (dir : Path) (name : rstr) (p : Path) (found : Existing) (b : rbytes) : M AtomicError () :=
  let file := join_name dir name in
  _ ← io "openat" p (open_truncate (env w) file);
  now_ ← io "fstat" p (stat_nofollow (env w) file);
  match now_ with
  | Regular f =>
      if ino f =? ino (e_file found) then
        _ ← io "write" p (write_all (env w) file b);
        io "fsync" p (fsync (env w) file)
      else throw (NotRegularFile p)
  | _ => throw (NotRegularFile p)
  end.

(** ** Backups *)

Definition ensure_backup_dir (dir : Path) : M AtomicError () :=
  there ← is_dir (env w) dir;
  if there : bool then mret ()
  else
    _ ← io "mkdir" dir (create_dir_all (env w) dir);
    _ ← open_dir dir;
    io "fchmod" dir (sys (env w) (fun _ d =>
      (Ok (), match d !! dir with Some (Directory _) => <[dir := Directory BACKUP_DIR_MODE]> d | _ => d end))).

Definition backup_name (at_ : Z) (short default_stamp : rstr) (attempt : nat) : rstr :=
  match stamp w (at_ + Z.of_nat attempt) with
  | Some s => s ++ lit "-" ++ short
  | None => default_stamp ++ lit "-" ++ short
  end.

Definition write_backup (dir : Path) (b : rbytes) (digest : Sha256Digest) (at_ : Z) : M AtomicError Path :=
  _ ← ensure_backup_dir dir;
  stamped ← of_result (match stamp w at_ with Some s => Ok s | None => Err Clock end);
  _ ← open_dir dir;
  name ← create_exclusive dir dir BACKUP_FILE_MODE (backup_name at_ (short_hex digest) stamped);
  let p := join_name dir name in
  _ ← guarded p (
    _ ← io "fchmod" p (set_handle (env w) p (set_mode (to_mode BACKUP_FILE_MODE)));
    _ ← io "write" p (write_all (env w) p b);
    io "fsync" p (fsync (env w) p));
  _ ← io "fsync" dir (fsync (env w) dir);
  mret p.

Definition is_backup_name (name : rstr) : bool :=
  match rsplit_once 45%N name with
  | None => false
  | Some (s, short) =>
      (str_len short =? BACKUP_DIGEST_HEX_LEN)%nat && forallb is_ascii_hexdigit short
      && contains 84%N s && ends_with 90%N s
  end.

Definition backup_names (dir : Path) : M AtomicError (list rstr) :=
  entries ← io "readdir" dir (read_dir (env w) dir);
  mret (omap (fun '(c, n) => match c, n with
                             | Normal name, Regular _ => if is_backup_name name then Some name else None
                             | _, _ => None
                             end) entries).

(** Sorted, newest first. *)
Definition newest_first (names : list rstr) : list rstr := reverse (merge_sort str_le names).

Definition rotate_backups (dir : Path) (keep : nat) (newest : Path) : M AtomicError () :=
  names ← backup_names dir;
  if (length names <=? keep)%nat then mret ()
  else
    let others := filter (fun n => Some (Normal n) <> file_name newest) names in
    _ ← open_dir dir;
    _ ← each (fun name => io "unlinkat" (join_name dir name) (unlink (env w) (join_name dir name)))
             (drop (keep - 1) (newest_first others));
    io "fsync" dir (fsync (env w) dir).

(** ** The protocol *)

Definition take_backup (req : WriteRequest) (existing : option Existing) : M AtomicError (option Path) :=
  match existing with
  | Some found =>
      if (0 <? keep_backups req)%nat then
        at_ ← now (env w);
        p ← write_backup (backup_dir req) (e_contents found) (e_digest found) at_;
        _ ← rotate_backups (backup_dir req) (keep_backups req) p;
        mret (Some p)
      else mret None
  | None => mret None
  end.

(** The write to the same inode under a marker. *)
Definition marked_write (req : WriteRequest) (dir : Path) (name : rstr) (found : Existing) (marker backup : Path)
    : M AtomicError bool :=
  _ ← write_marker marker (mkMarker (path req) (Some backup) (e_digest found) (digest_of (new_contents req)));
  _ ← try (write_in_place dir name (path req) found (new_contents req)) (fun r =>
        match r with
        | Ok _ => remove_marker marker
        | Err e =>
            match e with
            | Io op _ _ =>
                if bool_decide (op = lit "openat") then remove_marker marker ≫= fun _ => throw e else throw e
            | _ => throw e
            end
        end);
  mret true.

(** After the temporary file was refused with [err]. *)
Definition fall_back (req : WriteRequest) (dir : Path) (name : rstr) (found : Existing) (backup : option Path)
    (err : AtomicError) : M AtomicError bool :=
  match in_place req with
  | Never => throw err
  | Marker marker =>
      match backup with
      | None => throw err
      | Some backup => marked_write req dir name found marker backup
      end
  | Guarded =>
      _ ← write_in_place dir name (path req) found (new_contents req);
      mret true
  end.

Definition write_atomic (req : WriteRequest) : M AtomicError WriteOutcome :=
  '(dir, name) ← of_result (split_path (path req));
  _ ← (if create_missing req then io "create_dir_all" dir (create_dir_all (env w) dir) else mret ());
  _ ← open_dir dir;
  existing ← read_existing dir name (path req);
  let actual := e_digest <$> existing in
  _ ← match expected_prev req with
      | Some expected => if bool_decide (actual = Some expected) then mret () else throw (Conflict expected actual)
      | None => mret ()
      end;
  backup ← take_backup req existing;
  let m := match existing with Some found => e_mode found | None => create_mode req end in
  preserved ← try (replace_contents dir name (path req) (new_contents req) m (e_owner <$> existing) (e_file <$> existing))
    (fun replaced =>
       match replaced, existing with
       | Err err, Some found => if temp_refused err then fall_back req dir name found backup err else throw err
       | _, _ => of_result replaced
       end);
  mret (mkOutcome actual (digest_of (new_contents req)) backup (match existing with None => true | Some _ => false end) preserved).

(** ** Listing and restoring *)

Definition list_backups (dir : Path) : M AtomicError (list BackupEntry) :=
  try (backup_names dir) (fun r =>
    match r with
    | Err (Io _ _ NOENT) => mret []
    | Err e => throw e
    | Ok names =>
        let fix read (names : list rstr) : M AtomicError (list BackupEntry) :=
          match names with
          | [] => mret []
          | name :: names =>
              let p := join_name dir name in
              '(bytes, digest) ← read_with_digest p;
              at_ ← io "stat" p (on_handle (env w) p modified);
              rest ← read names;
              mret (mkBackup p at_ digest (length bytes) :: rest)
          end in
        read (newest_first names)
    end).

Definition restore_backup_with (backup target : Path) (expected : option Sha256Digest) (how : InPlace)
    : M AtomicError WriteOutcome :=
  match parent backup with
  | None => throw (RelativePath backup)
  | Some dir =>
      '(bytes, _) ← read_with_digest backup;
      write_atomic (mkRequest target bytes expected dir DEFAULT_KEEP_BACKUPS false 420 how)
  end.

Definition restore_backup_expecting (backup target : Path) (expected : option Sha256Digest) : M AtomicError WriteOutcome :=
  restore_backup_with backup target expected Never.

Definition restore_backup (backup target : Path) : M AtomicError WriteOutcome :=
  restore_backup_expecting backup target None.

End Ops.

(** ** Digests as text *)

Lemma to_digit_char x : 0 <= x < 16 -> to_digit 16 (digit_char x) = Some x.
Proof.
  intros H. assert (E : Forall (fun x => to_digit 16 (digit_char x) = Some x) (seqZ 0 16)) by (repeat constructor).
  rewrite Forall_forall in E. apply E, elem_of_seqZ. lia.
Qed.

Lemma hex_char x : 0 <= x < 16 -> is_ascii_hexdigit (digit_char x) = true /\ len_utf8 (digit_char x) = 1%nat.
Proof.
  intros H. assert (E : Forall (fun x => is_ascii_hexdigit (digit_char x) = true /\ len_utf8 (digit_char x) = 1%nat) (seqZ 0 16))
    by (repeat constructor).
  rewrite Forall_forall in E. apply E, elem_of_seqZ. lia.
Qed.

Lemma digest_display_pairs d : Forall is_byte d ->
  hex_pairs (digest_display d) = Ok d /\ forallb is_ascii_hexdigit (digest_display d) = true
  /\ str_len (digest_display d) = (2 * length d)%nat.
Proof.
  induction 1 as [|x d Hx Hd (H1 & H2 & H3)]; [done|]. unfold is_byte in Hx.
  assert (0 <= x / 16 < 16) by (split; [apply Z.div_pos; lia|apply Z.div_lt_upper_bound; lia]).
  assert (0 <= x mod 16 < 16) by (apply Z.mod_pos_bound; lia).
  unfold digest_display in *. cbn [fmap list_fmap concat hex_byte app]. cbn [hex_pairs forallb].
  unfold hex_pair. rewrite !to_digit_char, H1, H2 by done. destruct (hex_char (x / 16)) as [-> E1]; [done|].
  destruct (hex_char (x mod 16)) as [-> E2]; [done|]. split_and!; [|done|].
  - do 2 f_equal. rewrite <- Z.div_mod; lia.
  - unfold str_len in *. cbn [sum_list_with]. rewrite E1, E2, H3. simpl. lia.
Qed.

(** A digest is read back from its text. *)
Lemma digest_roundtrip d : length d = 32%nat -> Forall is_byte d -> digest_from_str (digest_display d) = Ok d.
Proof.
  intros Hl Hd. destruct (digest_display_pairs d Hd) as (H1 & H2 & H3). unfold digest_from_str.
  by rewrite H3, Hl, H2.
Qed.
