(* ===== verification/AtomicSafe.v ===== *)
(** * What an atomic write keeps

    The crash safety of [Atomic]: for every choice of failing calls, at every
    moment of a write the target holds its old contents or the new ones, or a
    complete marker names the backup of the old ones; and what a write has done
    when it returns. *)

From Stdlib Require Import ZArith.
From stdpp Require Import gmap sorting.
From S2P Require Import Prelude Str Num Ip Disk Atomic.
#[local] Open Scope Z_scope.

(** ** A file of one's own

    [plus p F R]: a disk in [R] that has nothing at [p], with a file satisfying
    [F] added there. *)

Definition plus (p : Path) (F : File -> Prop) (R : Disk -> Prop) (d : Disk) : Prop :=
  exists d' f, d = <[p := Regular f]> d' /\ d' !! p = None /\ R d' /\ F f.

Abbreviation some_file := (fun _ : File => True).

Lemma plus_weaken p (F F' : File -> Prop) (R R' : Disk -> Prop) d :
  plus p F R d -> (forall f, F f -> F' f) -> (forall d, R d -> R' d) -> plus p F' R' d.
Proof. intros (d' & f & -> & H1 & H2 & H3) HF HR. exists d', f. split_and!; auto. Qed.

Lemma plus_any p (F : File -> Prop) R d : plus p F R d -> plus p some_file R d.
Proof. intros H. by eapply plus_weaken. Qed.

Section Own.
Variable ev : Env.
Variables (I R : Disk -> Prop) (p : Path).
Hypothesis rest_safe : forall d, R d -> I d.
Hypothesis file_safe : forall d, plus p some_file R d -> I d.

Lemma own_create m : spec I R (create_new ev p m)
  (on_ok (fun _ => plus p (fun f => contents f = []) R)
         (fun e d => R d /\ (faulty ev \/ e = EXIST /\ d !! p <> None))).
Proof.
  apply spec_sys.
  - intros n d Hd. destruct (d !! p) eqn:E; simpl.
    + split; [by apply rest_safe|]. split; [done|]. right. by rewrite E.
    + assert (H : plus p (fun f => contents f = []) R
        (<[p := Regular (mkFile [] m (process_owner ev) [] (new_ino ev n) (clock ev n))]> d)) by (eexists _, _; eauto).
      split; [|done]. by eapply file_safe, plus_any.
  - intros f d Hd Hf. split; [done|by left].
Qed.

Lemma own_set (F F' : File -> Prop) g : (forall f, F f -> F' (g f)) ->
  spec I (plus p F R) (set_handle ev p g) (on_ok (fun _ => plus p F' R) (fun _ d => plus p F R d /\ faulty ev)).
Proof.
  intros HF. apply spec_sys; [|done]. intros n d (d' & f & -> & Hn & Hr & Hf). simpl. unfold on_file.
  rewrite lookup_insert_eq, insert_insert_eq.
  assert (plus p F' R (<[p := Regular (g f)]> d')) by (eexists _, _; eauto).
  split; [|done]. by eapply file_safe, plus_any.
Qed.

Lemma own_read {A} (F : File -> Prop) act :
  (forall n d, (act n d).2 = d) -> (forall n d, exists a, (act n d).1 = Ok a) ->
  spec I (plus p F R) (sys (A := A) ev act) (on_ok (fun _ => plus p F R) (fun _ d => plus p F R d /\ faulty ev)).
Proof.
  intros H1 H2. apply spec_read; try done.
  - intros d Hd. by eapply file_safe, plus_any.
  - intros n d Hd. destruct (H2 n d) as [a ->]. done.
Qed.

Lemma own_handle {A} (F : File -> Prop) (get : File -> A) :
  spec I (plus p F R) (on_handle ev p get) (on_ok (fun _ => plus p F R) (fun _ d => plus p F R d /\ faulty ev)).
Proof.
  apply spec_read; try done.
  - intros d Hd. by eapply file_safe, plus_any.
  - intros n d (d' & f & -> & Hn & Hr & Hf). simpl. rewrite lookup_insert_eq. eexists _, _. eauto.
Qed.

Lemma own_write b :
  spec I (plus p (fun f => contents f = []) R) (write_all ev p b)
    (on_ok (fun _ => plus p (fun f => contents f = b) R) (fun _ d => plus p some_file R d /\ faulty ev)).
Proof.
  assert (H : forall t d k, plus p (fun f => contents f = []) R d ->
    plus p (fun f => contents f = take k b) R (on_file (put (take k b) t) p d)).
  { intros t d k (d' & f & -> & Hn & Hr & Hf). unfold on_file. rewrite lookup_insert_eq, insert_insert_eq.
    eexists _, _. split_and!; [done..|]. simpl. by rewrite Hf. }
  apply spec_write_all.
  - intros t d k Hd. by eapply file_safe, plus_any, H.
  - intros t d Hd. apply (H t d (length b)) in Hd. by rewrite firstn_all in Hd.
  - intros t f d k Hd Hf. split; [|done]. by eapply plus_any, H.
Qed.

Lemma own_unlink (F : File -> Prop) :
  spec I (plus p F R) (unlink ev p) (on_ok (fun _ => R) (fun _ d => plus p F R d /\ faulty ev)).
Proof.
  apply spec_sys; [|done]. intros n d (d' & f & -> & Hn & Hr & Hf). simpl. rewrite lookup_insert_eq. simpl.
  rewrite delete_insert_id by done. eauto.
Qed.

End Own.

(** ** Errors of a call, named *)

(** Not the refusal of a new file. *)
Definition no_refusal (e : AtomicError) : Prop := temp_refused e = false.

Lemma spec_io {A} I P op p (m : M Errno A) (Q : A -> Disk -> Prop) (S : Disk -> Prop) (C : Prop) :
  lit op <> lit "openat" -> spec I P m (on_ok Q (fun _ d => S d /\ C)) ->
  spec I P (map_err (Io (lit op) p) m) (on_ok Q (fun e d => S d /\ C /\ no_refusal e)).
Proof.
  intros Hop Hm. apply spec_map_err. eapply spec_post; [done|]. intros [a|e] d; simpl; [done|].
  intros [H1 H2]. split_and!; try done. unfold no_refusal, temp_refused. by rewrite bool_decide_false.
Qed.

Lemma spec_rename_err {E F A} I P (g : E -> F) (m : M E A) (Q : A -> Disk -> Prop) (S : Disk -> Prop) :
  spec I P m (on_ok Q (fun _ => S)) -> spec I P (map_err g m) (on_ok Q (fun _ => S)).
Proof. intros H. apply spec_map_err. eapply spec_post; [done|]. by intros [a|e]. Qed.

(** A pure fact of the precondition. *)
Lemma spec_assume {E A} I (C : Prop) P (m : M E A) Q : (C -> spec I P m Q) -> spec I (fun d => C /\ P d) m Q.
Proof. intros H st [Hc Hp]. by apply H. Qed.

Lemma spec_exists {E A X} I (P : X -> Disk -> Prop) (m : M E A) Q : (forall x, spec I (P x) m Q) -> spec I (fun d => exists x, P x d) m Q.
Proof. intros H st [x Hp]. by eapply H. Qed.

(** One call after another, each failing into [S]. *)
Lemma spec_then {A B} I P (m : M AtomicError A) (f : A -> M AtomicError B) Q' (Q : result AtomicError B -> Disk -> Prop)
    (S : AtomicError -> Disk -> Prop) :
  spec I P m (on_ok Q' S) -> (forall a, spec I (Q' a) (f a) Q) -> (forall e d, S e d -> Q (Err e) d) ->
  spec I P (m ≫= f) Q.
Proof. intros Hm Hf He. by eapply spec_bind. Qed.

Section Temp.
Variable w : World.
Variables (I R : Disk -> Prop) (p : Path).
Hypothesis rest_safe : forall d, R d -> I d.
Hypothesis file_safe : forall d, plus p some_file R d -> I d.
#[local] Abbreviation blank := (fun f : File => contents f = []).
#[local] Abbreviation lost := (fun e d => plus p some_file R d /\ faulty (env w) /\ no_refusal e).

Lemma lost_any e (F : File -> Prop) d : plus p F R d /\ faulty (env w) /\ no_refusal e -> lost e d.
Proof. intros (H & ? & ?). split_and!; try done. by eapply plus_any. Qed.

(** [TempGuard]: after a failure the file is gone, unless its removal failed too. *)
Lemma temp_guarded {A} (F : File -> Prop) (m : M AtomicError A) (Q : A -> Disk -> Prop) (X : AtomicError -> Prop) :
  spec I (plus p F R) m (on_ok Q (fun e d => plus p some_file R d /\ faulty (env w) /\ X e)) ->
  spec I (plus p F R) (guarded w p m)
    (on_ok Q (fun e d => (R d \/ plus p some_file R d) /\ faulty (env w) /\ X e)).
Proof.
  intros Hm. eapply spec_try; [exact Hm|]. intros [a|e]; simpl; [by apply spec_ret|].
  eapply spec_bind with (R := on_ok (fun _ d => (R d \/ plus p some_file R d) /\ faulty (env w) /\ X e) (fun _ _ => False));
    [| |done].
  - apply spec_ignore. intros st (H1 & H2 & H3).
    destruct (own_unlink (env w) I R p rest_safe some_file st H1) as [H4 H5]. split; [done|].
    destruct (unlink (env w) p st) as [[?|?] ?]; simpl in *; naive_solver.
  - intros ?. by apply spec_throw.
Qed.

Lemma temp_set op q g : lit op <> lit "openat" -> (forall f, contents (g f) = contents f) ->
  spec I (plus p blank R) (map_err (Io (lit op) q) (set_handle (env w) p g)) (on_ok (fun _ => plus p blank R) lost).
Proof.
  intros Hop Hg. eapply spec_post.
  - apply spec_io with (S := plus p blank R) (C := faulty (env w)); [done|].
    apply (own_set _ _ _ _ file_safe blank blank). intros f Hf. by rewrite Hg.
  - intros [a|e] d; simpl; [done|]. apply lost_any.
Qed.

Lemma temp_copy_xattr source q n : spec I (plus p blank R) (copy_xattr w source p q n) (on_ok (fun _ => plus p blank R) lost).
Proof.
  unfold copy_xattr. eapply spec_try; [apply (own_read _ _ _ _ file_safe blank); eauto|].
  intros [[[k v]|]|e]; simpl.
  - eapply spec_try; [by apply (own_set _ _ _ _ file_safe blank blank)|]. intros [a|e]; simpl.
    + by apply spec_ret.
    + destruct (xattr_unsupported e).
      * apply spec_ret. by intros d [? _].
      * apply spec_throw. intros d [Hd Hf]. apply (lost_any _ blank). split_and!; done.
  - by apply spec_ret.
  - destruct (xattr_unsupported e).
    + apply spec_ret. by intros d [? _].
    + apply spec_throw. intros d [Hd Hf]. apply (lost_any _ blank). split_and!; done.
Qed.

Lemma temp_copy_xattrs source q : spec I (plus p blank R) (copy_xattrs w source p q) (on_ok (fun _ => plus p blank R) lost).
Proof.
  unfold copy_xattrs. eapply spec_try; [apply (own_read _ _ _ _ file_safe blank); eauto|].
  intros [names|e]; simpl.
  - apply spec_each. intros n _. apply temp_copy_xattr.
  - destruct (xattr_unsupported e).
    + apply spec_ret. by intros d [? _].
    + apply spec_throw. intros d [Hd Hf]. apply (lost_any _ blank). split_and!; done.
Qed.

Lemma temp_restore_owner q m o : spec I (plus p blank R) (restore_owner w p q m o) (on_ok (fun _ => plus p blank R) lost).
Proof.
  unfold restore_owner. destruct o as [target|]; [|by apply spec_ret]. eapply spec_then.
  - apply spec_io; [done|]. by apply (own_handle _ _ _ _ file_safe).
  - intros current. destruct (chown_changes current target m); [|by apply spec_ret].
    eapply spec_try; [by apply (own_set _ _ _ _ file_safe blank blank)|]. intros [a|e]; simpl; [by apply spec_ret|].
    destruct e; try (apply spec_throw; intros d [Hd Hf]; apply (lost_any _ blank); split_and!; done).
    apply spec_ret. by intros d [? _].
  - intros e d. apply lost_any.
Qed.

Lemma temp_write op q b : lit op <> lit "openat" ->
  spec I (plus p blank R) (map_err (Io (lit op) q) (write_all (env w) p b))
    (on_ok (fun _ => plus p (fun f => contents f = b) R) lost).
Proof. intros Hop. apply spec_io; [done|]. by apply (own_write _ _ _ _ file_safe). Qed.

Lemma temp_fsync (F : File -> Prop) op q x : lit op <> lit "openat" ->
  spec I (plus p F R) (map_err (Io (lit op) q) (fsync (env w) x)) (on_ok (fun _ => plus p F R) lost).
Proof.
  intros Hop. eapply spec_post.
  - apply spec_io with (S := plus p F R) (C := faulty (env w)); [done|]. apply (own_read _ _ _ _ file_safe); eauto.
  - intros [a|e] d; simpl; [done|]. apply lost_any.
Qed.

End Temp.

(** ** A new file with a free name *)

(** Some disk in [R] has something at [p]. *)
Definition taken (R : Disk -> Prop) (p : Path) : Prop := exists d, R d /\ d !! p <> None.

Section Create.
Variable w : World.
Variables (I R : Disk -> Prop) (dir : Path) (name_for : nat -> rstr).
Hypothesis rest_safe : forall d, R d -> I d.
Hypothesis file_safe : forall i d, plus (join_name dir (name_for i)) some_file R d -> I d.

Lemma create_exclusive_from_spec q m attempt tries :
  spec I R (create_exclusive_from w dir q m name_for attempt tries)
    (on_ok (fun n d => (exists i, n = name_for i) /\ plus (join_name dir n) (fun f => contents f = []) R d)
           (fun e d => R d /\ (temp_refused e = true -> faulty (env w))
                       /\ (faulty (env w) \/ tries = O \/ taken R (join_name dir (name_for attempt))))).
Proof.
  revert attempt. induction tries as [|tries IH]; intros attempt; simpl.
  - apply spec_throw. intros d Hd. split_and!; [done| |auto]. intros H. by vm_compute in H.
  - eapply spec_try; [by apply (own_create _ I R); eauto|]. intros [a|e]; simpl.
    + apply spec_ret. simpl. eauto.
    + assert (Hthrow : e <> EXIST -> spec I (fun d => R d /\ (faulty (env w) \/ e = EXIST /\ d !! join_name dir (name_for attempt) <> None))
        (throw (A := rstr) (Io (lit "openat") q e))
        (on_ok (fun n d => (exists i, n = name_for i) /\ plus (join_name dir n) (fun f => contents f = []) R d)
           (fun e d => R d /\ (temp_refused e = true -> faulty (env w))
                       /\ (faulty (env w) \/ S tries = O \/ taken R (join_name dir (name_for attempt)))))).
      { intros He. apply spec_throw. intros d [Hd [Hf|[? _]]]; [|done]. simpl. auto. }
      destruct e; try (by apply Hthrow). eapply spec_post.
      * eapply spec_pre with (P' := fun d => R d /\ (faulty (env w) \/ taken R (join_name dir (name_for attempt)))).
        -- intros st [Hr Ht]. destruct (IH (S attempt) st Hr) as [H1 H2]. split; [exact H1|].
           instantiate (1 := fun r d => on_ok _ _ r d /\ (faulty (env w) \/ taken R (join_name dir (name_for attempt)))).
           simpl. split; [exact H2|done].
        -- intros d [Hr [?|[_ Ht]]]; split; auto. right. by exists d.
      * intros [n|e] d; simpl; intuition.
Qed.

Lemma create_exclusive_spec q m :
  spec I R (create_exclusive w dir q m name_for)
    (on_ok (fun n d => (exists i, n = name_for i) /\ plus (join_name dir n) (fun f => contents f = []) R d)
           (fun e d => R d /\ (temp_refused e = true -> faulty (env w))
                       /\ (faulty (env w) \/ taken R (join_name dir (name_for 0))))).
Proof.
  eapply spec_post; [apply create_exclusive_from_spec|]. intros [n|e] d; simpl; [done|].
  intros (H1 & H2 & H3). split_and!; try done. destruct H3 as [?|[[=]|?]]; auto.
Qed.

End Create.

(** ** The backup directory *)

(** No file stands where a directory of [p] is needed. *)
Definition passable (p : Path) (d : Disk) : Prop :=
  forall q, q ∈ ancestors p -> d !! q = None \/ is_directory d q.

Lemma elem_of_ancestors p q : q ∈ ancestors p -> (length (components q) <= length (components p))%nat.
Proof.
  unfold ancestors. rewrite list_elem_of_fmap. intros (i & -> & Hi%elem_of_seq). simpl. rewrite length_take. lia.
Qed.

Lemma ancestors_self p : components p <> [] -> p ∈ ancestors p.
Proof.
  intros H. unfold ancestors. apply list_elem_of_fmap. exists (length (components p)). split.
  - rewrite firstn_all. by destruct p.
  - apply elem_of_seq. destruct (components p); simpl in *; [done|lia].
Qed.

Lemma child_not_ancestor p n : join_name p n ∉ ancestors p.
Proof. intros H%elem_of_ancestors. simpl in H. rewrite length_app in H. simpl in H. lia. Qed.

Lemma open_dir_spec w (I : Disk -> Prop) p (P : Disk -> Prop) : (forall d, P d -> I d) ->
  spec I P (open_dir w p)
    (on_ok (fun _ d => P d /\ is_directory d p) (fun e d => P d /\ (is_directory d p -> faulty (env w)) /\ no_refusal e)).
Proof.
  intros HP. apply spec_map_err. apply spec_read; try done. intros n d Hd. simpl. unfold is_directory.
  destruct (d !! p) as [[| |m|]|] eqn:E; simpl; [| |by eauto|..]; (split_and!; [done|naive_solver|done]).
Qed.

Section Backup.
Variable w : World.
Variables (I : Disk -> Prop) (d0 : Disk) (B : Path) (A : Path -> Prop).
Hypothesis B_named : components B <> [].

Definition prepared (d : Disk) : Prop :=
  agrees (fun p => p ∈ ancestors B \/ A p) d0 d /\ (passable B d0 -> passable B d).

Hypothesis prepared_safe : forall d, prepared d -> I d.

Lemma prepared_dir d p m : prepared d -> p ∈ ancestors B -> (d !! p = None \/ is_directory d p) ->
  prepared (<[p := Directory m]> d).
Proof.
  intros [H1 H2] Hp Hd. split; [by apply agrees_insert; auto|]. intros Hpass q Hq.
  destruct (decide (q = p)) as [->|Hne].
  - right. exists m. apply lookup_insert_eq.
  - destruct (H2 Hpass q Hq) as [H|[k H]]; [left|right; exists k]; by rewrite lookup_insert_ne.
Qed.

Lemma mkdir_spec p (S : Disk -> Prop) : p ∈ ancestors B ->
  (forall d q m, S d -> S (<[q := Directory m]> d)) ->
  spec I (fun d => prepared d /\ S d) (mkdir (env w) p)
    (on_ok (fun _ d => (prepared d /\ S d) /\ is_directory d p)
           (fun _ d => prepared d /\ (passable B d0 -> faulty (env w)))).
Proof.
  intros Hp HS. apply spec_sys.
  - intros n d [Hd Hs]. destruct (d !! p) as [[f| |m|]|] eqn:E; simpl; try (split; [by apply prepared_safe|]).
    + split; [done|]. intros Hpass. destruct (proj2 Hd Hpass p Hp) as [?|[? ?]]; congruence.
    + split; [done|]. intros Hpass. destruct (proj2 Hd Hpass p Hp) as [?|[? ?]]; congruence.
    + split; [done|by exists m].
    + split; [done|]. intros Hpass. destruct (proj2 Hd Hpass p Hp) as [?|[? ?]]; congruence.
    + assert (prepared (<[p := Directory 493]> d)) by (apply prepared_dir; auto).
      split; [by apply prepared_safe|]. split; [by auto|]. eexists. apply lookup_insert_eq.
  - intros f d [Hd Hs] Hf. simpl. auto.
Qed.

Lemma create_dir_all_spec : spec I prepared (create_dir_all (env w) B)
  (on_ok (fun _ d => prepared d /\ is_directory d B) (fun _ d => prepared d /\ (passable B d0 -> faulty (env w)))).
Proof.
  unfold create_dir_all.
  assert (H : forall l (S : Disk -> Prop), (forall p, p ∈ l -> p ∈ ancestors B) -> (forall d q m, S d -> S (<[q := Directory m]> d)) ->
    spec I (fun d => prepared d /\ S d) (each (mkdir (env w)) l)
      (on_ok (fun _ d => (prepared d /\ S d) /\ forall p, p ∈ l -> is_directory d p)
             (fun _ d => prepared d /\ (passable B d0 -> faulty (env w))))).
  { induction l as [|p l IH]; intros S Hl HS; simpl.
    - apply spec_ret. intros d Hd. split; [done|]. by intros p ?%not_elem_of_nil.
    - eapply spec_bind; [apply (mkdir_spec p S); [apply Hl; left|done]| |done]. intros a. cbn [on_ok].
      eapply spec_post; [eapply spec_pre; [apply (IH (fun d => S d /\ is_directory d p))|]|].
      + intros q Hq. apply Hl. by right.
      + intros d q m [H1 [k H2]]. split; [by auto|]. destruct (decide (q = p)) as [->|?].
        * eexists. apply lookup_insert_eq.
        * exists k. by rewrite lookup_insert_ne.
      + intros d [[? ?] ?]. auto.
      + intros [b|e] d; cbn [on_ok]; [|done]. intros [[? [? ?]] Hq]. split; [done|].
        intros q [->|?]%elem_of_cons; auto. }
  eapply spec_post; [eapply spec_pre; [apply (H (ancestors B) (fun _ => True)); auto|by auto]|].
  intros [a|e] d; cbn [on_ok]; [|done]. intros [[? _] Hq]. split; [done|]. by apply Hq, ancestors_self.
Qed.

Lemma ensure_backup_dir_spec : spec I prepared (ensure_backup_dir w B)
  (on_ok (fun _ d => prepared d /\ is_directory d B) (fun _ d => prepared d /\ (passable B d0 -> faulty (env w)))).
Proof.
  unfold ensure_backup_dir. eapply spec_bind with
    (R := on_ok (fun (b : bool) d => prepared d /\ (b -> is_directory d B)) (fun _ _ => False)); [| |done].
  { apply spec_is_dir; [done|by intros|]. intros m d Hd Hm. split; [done|]. intros _. by exists m. }
  intros [|]; cbn [on_ok]; [apply spec_ret; intros d [? ?]; cbn; auto|].
  eapply spec_pre with (P' := prepared); [|by intros d [? _]].
  eapply spec_bind; [apply spec_rename_err, create_dir_all_spec| |].
  - intros a. cbn [on_ok]. eapply spec_bind; [apply open_dir_spec| |].
    + intros d [? _]. auto.
    + intros []. cbn [on_ok]. apply spec_map_err, spec_sys.
      * intros n d [[Hd _] [m Hm]]. simpl. rewrite Hm.
        assert (prepared (<[B := Directory BACKUP_DIR_MODE]> d)).
        2: { split; [by auto|]. split; [done|]. eexists. apply lookup_insert_eq. }
        apply prepared_dir; [done|by apply ancestors_self|]. right. by exists m.
      * intros f d [[Hd _] _] Hf. simpl. auto.
    + cbn [on_ok]. intros e d [[Hd Hdir] [Hf _]]. auto.
  - cbn [on_ok]. done.
Qed.

(** Beyond the directories, only files of [B] itself may differ. *)
Definition kept (d : Disk) : Prop := agrees (fun p => p ∈ ancestors B \/ A p \/ parent p = Some B) d0 d.

Lemma prepared_kept d : prepared d -> kept d.
Proof. intros [H _]. eapply agrees_weaken; [done|]. naive_solver. Qed.

Lemma plus_kept n F d : plus (join_name B n) F prepared d -> kept d.
Proof. intros (d' & f & -> & _ & H & _). apply agrees_insert; [by apply prepared_kept|]. right. right. apply parent_join. Qed.

Hypothesis kept_safe : forall d, kept d -> I d.
Hypothesis A_outside : forall n, ~ A (join_name B n).

(** The backup's first name is free and can be written down. *)
Definition nameable (digest : Sha256Digest) : Prop :=
  passable B d0 /\ forall t, exists s, stamp w t = Some s /\ d0 !! join_name B (s ++ lit "-" ++ short_hex digest) = None.

#[local] Abbreviation ready := (fun d => prepared d /\ is_directory d B).

Lemma write_backup_spec b digest t : spec I prepared (write_backup w B b digest t)
  (on_ok (fun p d => (exists n, p = join_name B n) /\ plus p (fun f => contents f = b) ready d)
         (fun _ d => kept d /\ (nameable digest -> faulty (env w)))).
Proof.
  unfold write_backup. eapply spec_bind; [apply ensure_backup_dir_spec| |].
  2: { intros e d [H1 H2]. split; [by apply prepared_kept|]. by intros [? _]; auto. }
  intros []. cbn [on_ok]. destruct (stamp w t) as [s|] eqn:Es.
  2: { apply spec_throw. intros d [Hd _]. split; [by apply prepared_kept|]. intros [_ H]. destruct (H t) as (? & ? & _). congruence. }
  eapply spec_bind with (R := on_ok (fun x d => x = s /\ ready d) (fun _ _ => False)); [by apply spec_of_result| |done].
  intros x. cbn [on_ok]. apply spec_assume. intros ->.
  eapply spec_bind; [apply open_dir_spec; by intros d [? _]; auto| |].
  2: { intros e d [[H1 H2] [H3 _]]. split; [by apply prepared_kept|]. auto. }
  intros []. cbn [on_ok]. eapply spec_pre with (P' := ready); [|by intros d [? _]].
  eapply spec_bind; [apply create_exclusive_spec| |].
  - intros d [? _]. auto.
  - intros i d Hd. eapply kept_safe, plus_kept, plus_weaken; [exact Hd|done|by intros ? [? _]].
  - intros n. cbn [on_ok]. apply spec_assume. intros _.
    assert (Hsafe : forall d, plus (join_name B n) some_file ready d -> I d).
    { intros d Hd. eapply kept_safe, plus_kept, plus_weaken; [exact Hd|done|by intros ? [? _]]. }
    assert (Hrest : forall d, ready d -> I d) by (intros d [? _]; auto).
    eapply spec_bind; [apply (temp_guarded _ _ _ _ Hrest) with (X := no_refusal)| |].
    + eapply spec_then; [by apply (temp_set _ _ _ _ Hsafe)| |done]. intros []. 
      eapply spec_then; [by apply (temp_write _ _ _ _ Hsafe)| |done]. intros [].
      by apply (temp_fsync _ _ _ _ Hsafe).
    + intros []. cbn [on_ok]. eapply spec_then; [by apply (temp_fsync _ _ _ _ Hsafe)| |].
      * intros []. apply spec_ret. cbn [on_ok]. eauto.
      * cbn [on_ok]. intros e d (H1 & H2 & _). split; [|done]. eapply plus_kept, plus_weaken; [exact H1|done|by intros ? [? _]].
    + cbn [on_ok]. intros e d ([[H _]|H] & H2 & _); (split; [|done]); [by apply prepared_kept|].
      eapply plus_kept, plus_weaken; [exact H|done|by intros ? [? _]].
  - cbn [on_ok]. intros e d ([Hd _] & _ & Ht). split; [by apply prepared_kept|]. intros [_ Hn].
    destruct Ht as [?|(d' & [[Hd' _] _] & Hx)]; [done|]. exfalso. apply Hx.
    destruct (Hn t) as (s' & Hs' & Hfree). rewrite Hd'.
    + unfold backup_name. rewrite Z.add_0_r, Es. congruence.
    + intros [H|H]; [by apply child_not_ancestor in H|by apply A_outside in H].
Qed.

End Backup.

(** ** The replacement *)

Section Replace.
Variable w : World.
Variables (I K : Disk -> Prop) (dir : Path) (name : rstr) (b : rbytes).
#[local] Abbreviation target := (join_name dir name).
#[local] Abbreviation temp i := (join_name dir (temp_name w i)).

(** A disk in [K] with the target replaced. *)
Definition replaced (d : Disk) : Prop := exists d' f, d = <[target := Regular f]> d' /\ K d' /\ contents f = b.

Hypothesis name_not_temp : forall i, temp_name w i <> name.
Hypothesis K_safe : forall d, K d -> I d.
Hypothesis temp_safe : forall i d, plus (temp i) some_file K d -> I d.
Hypothesis replaced_safe : forall d, replaced d -> I d.
Hypothesis no_directory : forall d, K d -> ~ is_directory d target.

Definition untouched (d : Disk) : Prop := K d \/ exists i, plus (temp i) some_file K d.

Lemma rename_spec i q : spec I (plus (temp i) (fun f => contents f = b) K)
  (map_err (Io (lit "renameat") q) (rename (env w) (temp i) target))
  (on_ok (fun _ => replaced) (fun e d => plus (temp i) some_file K d /\ faulty (env w) /\ no_refusal e)).
Proof.
  apply spec_io; [done|]. apply spec_sys.
  - intros n d (d' & f & -> & Hn & Hk & Hf). simpl. rewrite lookup_insert_eq, lookup_insert_ne.
    2: { intros [_ H]%join_inj. by apply (name_not_temp i). }
    rewrite delete_insert_id by done. pose proof (no_directory d' Hk) as Hd.
    assert (replaced (<[target := Regular f]> d')) by (eexists _, _; eauto).
    destruct (d' !! target) as [[]|] eqn:E; try by auto. destruct Hd. unfold is_directory. by eauto.
  - intros f d Hd Hf. split; [|done]. by eapply plus_any.
Qed.

Lemma replace_contents_spec q m o source :
  spec I K (replace_contents w dir name q b m o source)
    (on_ok (fun _ => replaced)
       (fun e d => (untouched d \/ replaced d) /\ (temp_refused e = true -> K d /\ faulty (env w))
                   /\ (faulty (env w) \/ taken K (temp 0)))).
Proof.
  unfold replace_contents. eapply spec_bind; [apply create_exclusive_spec; [done|exact temp_safe]| |].
  2: { cbn [on_ok]. intros e d (H1 & H2 & H3). split_and!; [left; by left|auto|done]. }
  intros tn. cbn [on_ok]. apply spec_assume. intros [i ->].
  assert (Hsafe : forall d, plus (temp i) some_file K d -> I d) by eauto.
  eapply spec_bind.
  - apply (temp_guarded _ _ _ _ K_safe) with (X := no_refusal) (Q := fun _ => replaced).
    eapply spec_then; [by apply (temp_set _ _ _ _ Hsafe)| |done]. intros [].
    eapply spec_then; [by apply (temp_restore_owner _ _ _ _ Hsafe)| |done]. intros preserved.
    eapply spec_then with (Q' := fun _ => plus (temp i) (fun f => contents f = []) K)
      (S := fun e d => plus (temp i) some_file K d /\ faulty (env w) /\ no_refusal e); [| |done].
    { destruct source as [source|]; [by apply (temp_copy_xattrs _ _ _ _ Hsafe)|by apply spec_ret]. }
    intros []. eapply spec_then; [by apply (temp_write _ _ _ _ Hsafe)| |done]. intros [].
    eapply spec_then; [by apply (temp_fsync _ _ _ _ Hsafe)| |done]. intros [].
    eapply spec_then; [apply rename_spec| |done]. intros []. by apply spec_ret.
  - intros preserved. cbn [on_ok]. eapply spec_then with (Q' := fun _ => replaced); [| |].
    + apply spec_io with (S := replaced) (C := faulty (env w)); [done|]. by apply spec_read.
    + intros []. by apply spec_ret.
    + cbn [on_ok]. intros e d (H1 & H2 & H3). split_and!; [by right| |by left].
      unfold no_refusal in H3. congruence.
  - cbn [on_ok]. intros e d ([H|H] & Hf & Hn); (split_and!; [left| |by left]); try (by left); try (right; by eauto);
      unfold no_refusal in Hn; congruence.
Qed.

End Replace.

(** ** Rotation *)

Lemma join_of q p c : parent q = Some p -> last (components q) = Some c -> q = mkPath (is_absolute p) (components p ++ [c]).
Proof.
  intros Hp [l Hl]%last_Some. rewrite parent_some in Hp by (rewrite Hl; by destruct l).
  rewrite Hl, length_app in Hp. simpl in Hp. rewrite Nat.add_sub, take_app_length in Hp. injection Hp as <-.
  simpl. rewrite <- Hl. by destruct q.
Qed.

Lemma NoDup_omap_inj {X Y} (f : X -> option Y) l :
  (forall x y z, x ∈ l -> y ∈ l -> f x = Some z -> f y = Some z -> x = y) -> NoDup l -> NoDup (omap f l).
Proof.
  intros Hf H. induction H as [|x l Hx Hl IH]; [constructor|]. csimpl.
  assert (NoDup (omap f l)) by (apply IH; intros a b z Ha Hb; apply Hf; by right).
  destruct (f x) as [y|] eqn:E; [|done]. constructor; [|done].
  intros (a & Ha & Hy)%list_elem_of_omap. apply Hx. by rewrite (Hf x a y); [|left|right|..].
Qed.

(** The file holding a backup. *)
Definition holds (p : Path) (F : File -> Prop) (d : Disk) : Prop := exists f, d !! p = Some (Regular f) /\ F f.

(** What [backup_names] makes of one entry of the directory. *)
Definition entry_name (e : Comp * Node) : option rstr :=
  match e with (Normal n, Regular _) => if is_backup_name n then Some n else None | _ => None end.

Lemma children_elem p d c n : (c, n) ∈ children p d -> exists q, d !! q = Some n /\ parent q = Some p /\ last (components q) = Some c.
Proof.
  unfold children. intros ([q k] & Hq%elem_of_map_to_list & H)%list_elem_of_omap. case_bool_decide; [|done].
  apply fmap_Some in H as (c' & ? & [= -> ->]). eauto.
Qed.

Lemma backup_names_found p d name : name ∈ omap entry_name (children p d) -> holds (join_name p name) some_file d.
Proof.
  intros ([c n] & Hc & H)%list_elem_of_omap. apply children_elem in Hc as (q & Hq & Hp & Hl).
  destruct c as [k| |], n; try done. simpl in H. destruct (is_backup_name k); [|done]. injection H as ->.
  rewrite (join_of _ _ _ Hp Hl) in Hq. by eexists.
Qed.

Lemma children_NoDup p d : NoDup (omap entry_name (children p d)).
Proof.
  assert (H : NoDup (children p d)).
  { apply NoDup_omap_inj; [|apply NoDup_map_to_list]. intros [q n] [q' n'] z _ _ H H'.
    repeat case_bool_decide; try done. apply fmap_Some in H as (c & Hc & ->), H' as (c' & Hc' & [= <- <-]).
    f_equal. by rewrite (join_of q p c), (join_of q' p c). }
  apply NoDup_omap_inj; [|done]. intros [c n] [c' n'] z Hx Hy Hc Hc'.
  apply children_elem in Hx as (q & Hq & Hp & Hl), Hy as (q' & Hq' & Hp' & Hl').
  assert (E : c = c').
  { destruct c as [k| |], n, c' as [k'| |], n'; try done. simpl in *. repeat case_match; congruence. }
  subst c'. f_equal. rewrite (join_of _ _ _ Hp Hl) in Hq. rewrite (join_of _ _ _ Hp' Hl') in Hq'. congruence.
Qed.

Lemma newest_first_perm names : newest_first names ≡ₚ names.
Proof. unfold newest_first. by rewrite reverse_Permutation, merge_sort_Permutation. Qed.

Section Rotate.
Variable w : World.
Variables (I : Disk -> Prop) (d0 : Disk) (B : Path) (A : Path -> Prop) (n : rstr) (F : File -> Prop).
#[local] Abbreviation b := (join_name B n).
Hypothesis B_named : components B <> [].
Hypothesis kept_safe : forall d, kept d0 B A d -> I d.

(** The backup is there, and beside it only the backup directory may differ. *)
Definition secured (d : Disk) : Prop := kept d0 B A d /\ is_directory d B /\ holds b F d.

Lemma secured_delete d k : secured d -> k <> n -> secured (delete (join_name B k) d).
Proof.
  intros (H1 & [m H2] & (f & H3 & H4)) Hk. split_and!.
  - apply agrees_delete; [done|]. right. right. apply parent_join.
  - exists m. rewrite lookup_delete_ne; [done|]. intros E. eapply (child_not_ancestor B k). rewrite E.
    by apply ancestors_self.
  - exists f. rewrite lookup_delete_ne; [done|]. by intros [_ ?]%join_inj.
Qed.

Lemma unlink_all_spec names : NoDup names -> n ∉ names ->
  spec I (fun d => secured d /\ forall k, k ∈ names -> holds (join_name B k) some_file d)
    (each (fun k => map_err (Io (lit "unlinkat") (join_name B k)) (unlink (env w) (join_name B k))) names)
    (on_ok (fun _ => secured) (fun _ d => kept d0 B A d /\ faulty (env w))).
Proof.
  intros Hnd Hn. induction Hnd as [|k names Hk Hnd IH]; simpl.
  - apply spec_ret. by intros d [? _].
  - apply not_elem_of_cons in Hn as [Hne Hn]. apply spec_then with
      (Q' := fun _ d => secured d /\ forall k, k ∈ names -> holds (join_name B k) some_file d)
      (S := fun _ d => kept d0 B A d /\ faulty (env w)); [|intros []; by apply IH|by intros].
    apply spec_rename_err, spec_sys.
    + intros c d [Hd Hall]. destruct (Hall k) as (f & Hf & _); [left|]. rewrite Hf. cbn [fst snd on_ok].
      assert (Hs : secured (delete (join_name B k) d)) by (by apply secured_delete).
      split; [by apply kept_safe, Hs|]. split; [done|]. intros x Hx. destruct (Hall x) as (g & Hg & _); [by right|].
      exists g. rewrite lookup_delete_ne; [done|]. intros [_ <-]%join_inj. done.
    + intros f d [Hd _] Hf. split; [apply Hd|done].
Qed.

Lemma rotate_backups_spec keep : spec I secured (rotate_backups w B keep b)
  (on_ok (fun _ => secured) (fun _ d => kept d0 B A d /\ faulty (env w))).
Proof.
  assert (Hi : forall d, secured d -> I d) by (intros d [? _]; auto).
  unfold rotate_backups, backup_names.
  eapply spec_bind with (R := on_ok (fun names d => (NoDup names) /\ (secured d /\ forall k, k ∈ names -> holds (join_name B k) some_file d))
                                    (fun _ d => kept d0 B A d /\ faulty (env w))).
  - eapply spec_bind with (R := on_ok (fun l d => secured d /\ l = children B d) (fun _ d => kept d0 B A d /\ faulty (env w))).
    + apply spec_rename_err, spec_read; try done.
      * intros c d (H1 & [m H2] & H3). simpl. rewrite H2. split; [|done]. by split_and!; [|exists m|].
      * intros f d [H _] Hf. done.
    + intros l. cbn [on_ok]. apply spec_ret. intros d [Hd ->]. cbn [on_ok].
      split; [apply (children_NoDup B d)|]. split; [done|]. intros k. apply (backup_names_found B d).
    + by intros.
  - intros names. cbn [on_ok]. apply spec_assume. intros Hnd. destruct (length names <=? keep)%nat.
    { apply spec_ret. by intros d [? _]. }
    set (old := drop _ _).
    assert (Hold : forall k, k ∈ old -> k ∈ names /\ k <> n).
    { intros k Hk. eapply elem_of_sublist in Hk; [|apply sublist_drop]. rewrite newest_first_perm, list_elem_of_filter in Hk.
      destruct Hk as [Hk ?]. split; [done|]. intros ->. apply Hk. unfold file_name, join_name. simpl. by rewrite last_snoc. }
    eapply spec_pre with (P' := fun d => secured d /\ forall k, k ∈ old -> holds (join_name B k) some_file d).
    2: { intros d [Hd Hk]. split; [done|]. intros k [Hx _]%Hold. by apply Hk. }
    eapply spec_bind.
    { apply open_dir_spec with (P := fun d => secured d /\ forall k, k ∈ old -> holds (join_name B k) some_file d).
      intros d [? _]. auto. }
    2: { cbn [on_ok]. intros e d ((Hs & _) & Hf & _). split; [apply Hs|]. apply Hf, Hs. }
    intros []. cbn [on_ok]. eapply spec_bind.
    + eapply spec_pre; [apply (unlink_all_spec old)|].
      * unfold old. eapply sublist_NoDup; [|apply sublist_drop]. rewrite newest_first_perm. by apply NoDup_filter.
      * intros Hx. by apply Hold in Hx as [_ ?].
      * by intros d [[? ?] _].
    + intros []. cbn [on_ok]. apply spec_rename_err, spec_read; try done. intros f d [? _] ?. done.
    + by intros.
  - by intros.
Qed.

End Rotate.

(** ** Writing in place *)

Section InPlace.
Variable w : World.
Variables (I K : Disk -> Prop) (dir : Path) (name : rstr) (b : rbytes) (f0 : File).
#[local] Abbreviation target := (join_name dir name).

(** A disk in [K] with another file at the target, on the same inode. *)
Definition rewritten (F : File -> Prop) (d : Disk) : Prop :=
  exists d' f, d = <[target := Regular f]> d' /\ K d' /\ ino f = ino f0 /\ F f.

Hypothesis K_target : forall d, K d -> d !! target = Some (Regular f0).
Hypothesis rewritten_safe : forall d, rewritten some_file d -> I d.

Lemma rewritten_any (F : File -> Prop) d : rewritten F d -> rewritten some_file d.
Proof. intros (d' & f & H1 & H2 & H3 & _). exists d', f. auto. Qed.

Lemma rewritten_put k t d : rewritten (fun f => contents f = []) d ->
  rewritten (fun f => contents f = take k b) (on_file (put (take k b) t) target d).
Proof.
  intros (d' & f & -> & H2 & H3 & Hf). unfold on_file. rewrite lookup_insert_eq, insert_insert_eq.
  exists d', (put (take k b) t f). split_and!; [done..|]. simpl. by rewrite Hf.
Qed.

Definition not_opened (e : AtomicError) : Prop := exists p c, e = Io (lit "openat") p c.

Lemma write_in_place_spec q found : e_file found = f0 ->
  spec I K (write_in_place w dir name q found b)
    (on_ok (fun _ => rewritten (fun f => contents f = b))
       (fun e d => faulty (env w) /\ (K d /\ not_opened e \/ rewritten some_file d /\ ~ not_opened e))).
Proof.
  intros Ef. unfold write_in_place.
  eapply spec_bind with (R := on_ok (fun _ => rewritten (fun f => contents f = []))
    (fun e d => faulty (env w) /\ (K d /\ not_opened e))).
  { apply spec_map_err, spec_sys.
    - intros n d Hd. rewrite (K_target _ Hd). cbn [fst snd on_ok].
      assert (rewritten (fun f => contents f = []) (<[target := Regular (truncated (clock (env w) n) f0)]> d)).
      { by exists d, (truncated (clock (env w) n) f0). }
      split; [|done]. by eapply rewritten_safe, rewritten_any.
    - intros f d Hd Hf. split_and!; [done..|]. by eexists _, _. }
  2: { cbn [on_ok]. intros e d (? & ? & ?). auto. }
  assert (Hno : forall op p c, lit op <> lit "openat" -> ~ not_opened (Io (lit op) p c)).
  { intros op p c Hop (? & ? & [= ?]). by apply Hop. }
  intros []. cbn [on_ok].
  eapply spec_bind with (R := on_ok (fun n d => rewritten (fun f => contents f = []) d /\ d !! target = Some n)
    (fun e d => faulty (env w) /\ (rewritten some_file d /\ ~ not_opened e))).
  { apply spec_map_err, spec_read; try done.
    - intros d Hd. by eapply rewritten_safe, rewritten_any.
    - intros n d Hd. simpl. destruct Hd as (d' & f & -> & H). rewrite lookup_insert_eq. simpl.
      split; [by exists d', f|]. by rewrite lookup_insert_eq.
    - intros f d Hd Hf. split_and!; [done|by eapply rewritten_any|]. by apply Hno. }
  2: { cbn [on_ok]. intros e d (? & ? & ?). auto. }
  intros n. cbn [on_ok].
  eapply spec_pre with (P' := fun d => (exists f, n = Regular f /\ ino f = ino f0) /\ rewritten (fun f => contents f = []) d).
  2: { intros d [(d' & f & -> & H1 & H2 & H3) Hn]. rewrite lookup_insert_eq in Hn. injection Hn as <-.
       split; [eauto|]. exists d', f. auto. }
  apply spec_assume. intros (f & -> & Hino). rewrite Ef, Hino, Z.eqb_refl.
  eapply spec_bind with (R := on_ok (fun _ => rewritten (fun f => contents f = b))
    (fun e d => faulty (env w) /\ (rewritten some_file d /\ ~ not_opened e))).
  { apply spec_map_err, spec_write_all.
    - intros t d k Hd. by eapply rewritten_safe, rewritten_any, rewritten_put.
    - intros t d Hd. apply (rewritten_put (length b) t) in Hd. by rewrite firstn_all in Hd.
    - intros t g d k Hd Hf. split_and!; [done|by eapply rewritten_any, rewritten_put|by apply Hno]. }
  - intros []. cbn [on_ok]. apply spec_map_err, spec_read; try done.
    + intros d Hd. by eapply rewritten_safe, rewritten_any.
    + intros g d Hd Hf. split; [done|]. right. split; [by eapply rewritten_any|by apply Hno].
  - cbn [on_ok]. intros e d (? & ? & ?). auto.
Qed.

End InPlace.

Lemma classic_open e : not_opened e \/ ~ not_opened e.
Proof.
  destruct e as [| | | |op p c| |]; try (right; by intros (? & ? & ?)).
  destruct (decide (op = lit "openat")) as [->|Hne]; [left; by eexists _, _|right]. intros (? & ? & [= ?]). done.
Qed.

Lemma split_path_join p dir name : split_path p = Ok (dir, name) -> p = join_name dir name.
Proof.
  unfold split_path. destruct (is_absolute p) eqn:Ea; [|done]. simpl. unfold file_name.
  destruct (last (components p)) as [[n|?|]|] eqn:E; try done.
  destruct (parent p) as [q|] eqn:Ep; [|done]. intros [= <- <-]. by apply (join_of _ _ _ Ep E).
Qed.

Section MarkerFile.
Variable w : World.
Variables (I K : Disk -> Prop) (m md : Path) (mn : rstr).
Hypothesis m_split : split_path m = Ok (md, mn).
Hypothesis K_safe : forall d, K d -> I d.

(** A file that holds the beginning of [json]. *)
Definition begun (json : rbytes) (f : File) : Prop := exists k, contents f = take k json.

Lemma begun_blank json f : contents f = [] -> begun json f.
Proof. by exists O. Qed.

Lemma begun_whole json f : contents f = json -> begun json f.
Proof. exists (length json). by rewrite firstn_all. Qed.

(** A file of one's own that is written once. *)
Lemma write_begun json : (forall d, plus m (begun json) K d -> I d) ->
  spec I (plus m (fun f => contents f = []) K) (write_all (env w) m json)
    (on_ok (fun _ => plus m (fun f => contents f = json) K) (fun _ => plus m (begun json) K)).
Proof.
  intros Hs. assert (H : forall t d k, plus m (fun f => contents f = []) K d ->
    plus m (fun f => contents f = take k json) K (on_file (put (take k json) t) m d)).
  { intros t d k (d' & f & -> & Hn & Hr & Hf). unfold on_file. rewrite lookup_insert_eq, insert_insert_eq.
    eexists _, _. split_and!; [done..|]. simpl. by rewrite Hf. }
  assert (Hp : forall t d k, plus m (fun f => contents f = []) K d -> plus m (begun json) K (on_file (put (take k json) t) m d)).
  { intros t d k Hd. eapply plus_weaken; [by apply H|by exists k|done]. }
  apply spec_write_all.
  - intros t d k Hd. by apply Hs, Hp.
  - intros t d Hd. apply (H t d (length json)) in Hd. by rewrite firstn_all in Hd.
  - intros t f d k Hd _. by apply Hp.
Qed.

Lemma write_marker_spec record :
  (forall json d, to_vec w record = Some json -> plus m (begun json) K d -> I d) ->
  spec I K (write_marker w m record)
    (on_ok (fun _ d => exists json, to_vec w record = Some json /\ plus m (fun f => contents f = json) K d)
       (fun _ d => K d \/ exists json, to_vec w record = Some json /\ plus m (begun json) K d)).
Proof.
  intros m_safe.
  pose proof (split_path_join _ _ _ m_split) as Em. unfold write_marker.
  eapply spec_bind with (R := on_ok (fun x d => x = (md, mn) /\ K d) (fun _ _ => False));
    [by apply spec_of_result; rewrite m_split| |done].
  intros x. cbn [on_ok]. apply spec_assume. intros ->.
  eapply spec_bind; [by apply open_dir_spec| |by cbn; intros e d [? _]; left].
  intros []. cbn [on_ok]. eapply spec_pre with (P' := K); [|by intros d [? _]].
  destruct (to_vec w record) as [json|]; [|by apply spec_throw; left]. rewrite <- Em.
  assert (Hs : forall d, plus m (begun json) K d -> I d) by (intros d; by apply m_safe).
  assert (Hw : forall d, plus m (fun f => contents f = json) K d -> plus m (begun json) K d).
  { intros d Hd. eapply plus_weaken; [exact Hd|apply begun_whole|done]. }
  assert (Hsync : forall x op p, spec I (plus m (fun f => contents f = json) K) (map_err (Io op p) (fsync (env w) x))
    (on_ok (fun _ => plus m (fun f => contents f = json) K) (fun _ => plus m (begun json) K))).
  { intros x op p. apply spec_rename_err, spec_read; try done; [by intros d Hd; apply Hs, Hw|by intros ? d ? ?; apply Hw]. }
  eapply spec_bind with (R := on_ok (fun _ => plus m (fun f => contents f = []) K) (fun _ => K)); [| |by cbn; left].
  { apply spec_rename_err, spec_sys; [|done]. intros c d Hd. destruct (d !! m) eqn:E; simpl; [by auto|].
    assert (H : plus m (fun f => contents f = []) K
      (<[m := Regular (mkFile [] (to_mode BACKUP_FILE_MODE) (process_owner (env w)) [] (new_ino (env w) c) (clock (env w) c))]> d)) by (eexists _, _; eauto).
    split; [|done]. apply Hs. eapply plus_weaken; [exact H|apply begun_blank|done]. }
  intros []. cbn [on_ok]. eapply spec_bind; [by apply spec_rename_err, write_begun|intros []|by cbn; eauto].
  cbn [on_ok]. eapply spec_bind; [apply Hsync|intros []|by cbn; eauto]. cbn [on_ok].
  eapply spec_post; [apply Hsync|]. intros [a|e] d; cbn [on_ok]; eauto.
Qed.

Lemma remove_marker_spec (P Q : Disk -> Prop) :
  (forall d, P d -> I d) -> (forall d, Q d -> I d) ->
  (forall d, P d -> exists f, d !! m = Some (Regular f) /\ Q (delete m d)) ->
  spec I P (remove_marker w m) (on_ok (fun _ => Q) (fun _ d => (P d \/ Q d) /\ (is_directory d md -> faulty (env w)))).
Proof.
  intros HP HQ Hdel. pose proof (split_path_join _ _ _ m_split) as Em. unfold remove_marker.
  eapply spec_bind with (R := on_ok (fun x d => x = (md, mn) /\ P d) (fun _ _ => False));
    [by apply spec_of_result; rewrite m_split| |done].
  intros x. cbn [on_ok]. apply spec_assume. intros ->.
  eapply spec_bind; [by apply open_dir_spec| |by cbn; intros e d (? & ? & _); auto].
  intros []. cbn [on_ok]. eapply spec_pre with (P' := P); [|by intros d [? _]]. rewrite <- Em.
  eapply spec_bind with (R := on_ok (fun _ => Q) (fun _ d => P d /\ faulty (env w))).
  - apply spec_rename_err, spec_sys; [|done]. intros n d Hd. destruct (Hdel d Hd) as (f & -> & Hq). simpl. auto.
  - intros []. cbn [on_ok]. apply spec_rename_err, spec_read; try done. cbn. auto.
  - cbn [on_ok]. intros e d [? ?]. auto.
Qed.

End MarkerFile.

(** ** Reading *)

Section Reading.
Variable w : World.

Definition found_as (f0 : File) (e : Existing) : Prop :=
  e_file e = f0 /\ e_contents e = contents f0 /\ e_digest e = sha256 w (contents f0).

Definition reads (f0 : option File) (e : option Existing) : Prop :=
  match f0, e with Some f0, Some e => found_as f0 e | None, None => True | _, _ => False end.

Variables (I P : Disk -> Prop) (dir : Path) (name : rstr) (q : Path).
Hypothesis P_safe : forall d, P d -> I d.
#[local] Abbreviation target := (join_name dir name).

Lemma read_get f0 {X} (get : File -> X) op :
  spec I (fun d => P d /\ d !! target = Some (Regular f0)) (map_err (Io op q) (on_handle (env w) target get))
    (on_ok (fun x d => x = get f0 /\ (P d /\ d !! target = Some (Regular f0))) (fun _ d => P d /\ faulty (env w))).
Proof.
  apply spec_rename_err, spec_read; try done; [by intros d [? _]; auto| |by intros f d [? _]].
  intros n d [Hd Ho]. simpl. by rewrite Ho.
Qed.

Definition current (d : Disk) (e : option Existing) : Prop := exists f0, d !! target = Regular <$> f0 /\ reads f0 e.

#[local] Abbreviation post := (on_ok (fun e d => P d /\ current d e)
  (fun (_ : AtomicError) d => P d /\ ((exists f0, d !! target = Regular <$> f0) -> faulty (env w)))).

Lemma read_regular f0 : spec I (fun d => P d /\ d !! target = Some (Regular f0))
  (file ← map_err (Io (lit "openat") q) (open_read (env w) target);
   owner_mode ← map_err (Io (lit "fstat") q) (on_handle (env w) target (fun f => (mode f, owner f)));
   bytes ← map_err (Io (lit "read") q) (on_handle (env w) target contents);
   mret (Some (mkExisting file bytes (digest_of w bytes) (perm_bits owner_mode.1) owner_mode.2))) post.
Proof.
  assert (Hfail : forall e d, P d /\ faulty (env w) -> post (Err e) d) by (intros e d [? ?]; simpl; auto).
  eapply spec_bind with (R := on_ok (fun x d => x = f0 /\ (P d /\ d !! target = Some (Regular f0))) (fun _ d => P d /\ faulty (env w)));
    [| |by apply Hfail].
  { apply spec_rename_err, spec_read; try done; [by intros d [? _]; auto| |by intros f d [? _]].
    intros n d [Hd Ho]. simpl. by rewrite Ho. }
  intros x. cbn [on_ok]. apply spec_assume. intros ->.
  eapply spec_bind; [apply read_get| |by apply Hfail]. intros x. cbn [on_ok]. apply spec_assume. intros ->.
  eapply spec_bind; [apply read_get| |by apply Hfail]. intros x. cbn [on_ok]. apply spec_assume. intros ->.
  apply spec_ret. intros d [Hd Ho]. split; [done|]. by exists (Some f0).
Qed.

Lemma read_existing_current : spec I P (read_existing w dir name q) post.
Proof.
  unfold read_existing.
  eapply spec_try with (R := fun r d => P d /\
    match r with Ok n => d !! target = Some n | Err e => e = NOENT /\ d !! target = None \/ e <> NOENT /\ faulty (env w) end).
  { apply spec_read; try done.
    - intros n d Hd. simpl. destruct (d !! target); auto.
    - intros f d Hd Hf. split; [done|]. right. by destruct f. }
  intros [[f0| | |]|e].
  2-4: apply spec_throw; intros d [Hd Hk]; split; [done|]; intros [[f0|] Ho]; rewrite Hk in Ho; discriminate.
  - apply read_regular.
  - destruct e; try (apply spec_throw; intros d [Hd [[? _]|[_ ?]]]; [discriminate|]; simpl; by auto).
    apply spec_ret. intros d [Hd [[_ Ho]|[? _]]]; [|done]. split; [done|]. by exists None.
Qed.

End Reading.

(** [read_with_digest]: the file there is, or an error. *)
Lemma read_with_digest_spec w I P p dir name : split_path p = Ok (dir, name) -> (forall d, P d -> I d) ->
  spec I P (read_with_digest w p)
    (on_ok (fun x d => P d /\ holds p (fun f => x = (contents f, sha256 w (contents f))) d)
           (fun _ d => P d /\ (is_directory d dir -> holds p some_file d -> faulty (env w)))).
Proof.
  intros Hs HP. pose proof (split_path_join _ _ _ Hs) as ->. unfold read_with_digest.
  eapply spec_bind with (R := on_ok (fun x d => x = (dir, name) /\ P d) (fun _ _ => False));
    [by apply spec_of_result; rewrite Hs| |done].
  intros x. cbn [on_ok]. apply spec_assume. intros ->.
  eapply spec_bind; [by apply open_dir_spec| |by cbn; intros e d (? & ? & _); auto].
  intros []. cbn [on_ok]. eapply spec_pre with (P' := P); [|by intros d [? _]].
  eapply spec_bind; [by apply read_existing_current|intros e|].
  - cbn [on_ok]. destruct e as [e|].
    + apply spec_ret. intros d (Hd & [f0|] & Ho & He); [|done]. destruct He as (_ & H2 & H3).
      split; [done|]. exists f0. by rewrite H2, H3.
    + apply spec_throw. intros d (Hd & [f0|] & Ho & He); [done|]. split; [done|]. intros _ (f & Hf & _).
      rewrite Ho in Hf. discriminate.
  - cbn [on_ok]. intros e d [Hd Hf]. split; [done|]. intros _ (f & Hx & _). apply Hf. by exists (Some f).
Qed.

(** ** The whole write *)

Section Write.
Variable w : World.
Variables (req : WriteRequest) (d0 : Disk) (dir : Path) (name : rstr).
#[local] Abbreviation target := (join_name dir name).
#[local] Abbreviation B := (backup_dir req).
#[local] Abbreviation temp i := (join_name dir (temp_name w i)).

(** Where the parts of a write lie: the target, its backups and the marker in
    three directories, none of them a file the write makes. *)
Record layout : Prop := {
  lay_path : split_path (path req) = Ok (dir, name);
  lay_backups : components B <> [];
  lay_apart : dir <> B;
  lay_above : target ∉ ancestors B;
  lay_below : forall n, join_name B n ∉ ancestors dir;
  lay_name : ~ TEMP_PREFIX `prefix_of` name;
  lay_marker : forall m, in_place req = Marker m ->
    exists md mn, split_path m = Ok (md, mn) /\ md <> dir /\ md <> B /\ m ∉ ancestors B /\ m ∉ ancestors dir;
}.
Hypothesis lay : layout.

(** The directories a write may be asked to make. *)
Definition on_the_way (p : Path) : Prop := create_missing req = true /\ p ∈ ancestors dir.
#[local] Abbreviation kept_ := (kept d0 B on_the_way).

(** What a write may touch. *)
Definition touched (p : Path) : Prop :=
  p = target \/ p ∈ ancestors B \/ on_the_way p \/ parent p = Some B \/ (exists i, p = temp i) \/ in_place req = Marker p.

(** The new contents are in place. *)
Definition written (d : Disk) : Prop := holds target (fun f => contents f = new_contents req) d.

(** The target may be torn: then a complete marker says so and names a backup of
    the old contents, or the caller's own marker does. *)
Definition covered (d : Disk) : Prop :=
  exists f0, d0 !! target = Some (Regular f0) /\ holds target some_file d
  /\ (in_place req = Guarded \/
      exists m n json, in_place req = Marker m
        /\ to_vec w (mkMarker target (Some (join_name B n)) (sha256 w (contents f0)) (sha256 w (new_contents req))) = Some json
        /\ holds m (fun f => contents f = json) d
        /\ holds (join_name B n) (fun f => contents f = contents f0) d).

(** The marker file is what it was, or holds the beginning of the record of this
    write; until it holds all of it the target is not touched. *)
Definition marker_kept (d : Disk) : Prop := forall m, in_place req = Marker m ->
  d !! m = d0 !! m \/
  exists f0 n json, d0 !! m = None /\ d0 !! target = Some (Regular f0)
    /\ to_vec w (mkMarker target (Some (join_name B n)) (sha256 w (contents f0)) (sha256 w (new_contents req))) = Some json
    /\ holds m (begun json) d /\ holds (join_name B n) (fun f => contents f = contents f0) d /\ is_directory d B
    /\ (holds m (fun f => contents f = json) d \/ d !! target = d0 !! target).

Definition safe (d : Disk) : Prop :=
  agrees touched d0 d /\ (d !! target = d0 !! target \/ written d \/ covered d) /\ marker_kept d.

Lemma name_not_temp i : temp_name w i <> name.
Proof. intros E. apply (lay_name lay). rewrite <- E. by eexists. Qed.

Lemma temp_ne_target i : temp i <> target.
Proof. intros [_ E]%join_inj. by apply (name_not_temp i). Qed.

Lemma kept_target d : kept_ d -> d !! target = d0 !! target.
Proof.
  intros H. apply H. intros [H1|[H1|H1]].
  - by apply (lay_above lay).
  - by destruct H1 as [_ H1%child_not_ancestor].
  - rewrite parent_join in H1. injection H1. apply (lay_apart lay).
Qed.

Lemma kept_touched d : kept_ d -> agrees touched d0 d.
Proof. intros H. eapply agrees_weaken; [exact H|]. unfold touched. naive_solver. Qed.

Lemma kept_marker d m : kept_ d -> in_place req = Marker m -> d !! m = d0 !! m.
Proof.
  intros H Hm. destruct (lay_marker lay m Hm) as (md & mn & E & H1 & H2 & H3 & H4). apply H. intros [H5|[[_ H5]|H5]]; try done.
  rewrite (split_path_join _ _ _ E), parent_join in H5. by injection H5.
Qed.

(** The marker does not lie where the rest of a write goes. *)
Lemma marker_apart m k : in_place req = Marker m -> m <> join_name dir k /\ m <> join_name B k.
Proof.
  intros Hm. destruct (lay_marker lay m Hm) as (md & mn & E & H1 & H2 & _). rewrite (split_path_join _ _ _ E).
  split; by intros [? _]%join_inj.
Qed.

Lemma kept_marker_insert d k n : kept_ d -> marker_kept (<[join_name dir k := n]> d).
Proof. intros H m Hm. left. rewrite lookup_insert_ne; [by apply kept_marker|]. by apply not_eq_sym, (marker_apart m k). Qed.

Lemma way_outside n : ~ on_the_way (join_name B n).
Proof. intros [_ H]. by apply (lay_below lay n). Qed.

Lemma kept_is_safe d : kept_ d -> safe d.
Proof. intros H. split_and!; [by apply kept_touched|left; by apply kept_target|]. intros m Hm. left. by apply kept_marker. Qed.

Lemma kept_insert d p n : kept_ d -> touched p -> agrees touched d0 (<[p := n]> d).
Proof. intros H Hp. apply agrees_insert; [by apply kept_touched|done]. Qed.

Lemma temp_is_safe i d (K : Disk -> Prop) : (forall d, K d -> kept_ d) -> plus (temp i) some_file K d -> safe d.
Proof.
  intros HK (d' & f & -> & Hn & Hk & _). apply HK in Hk. split_and!; [| |by apply kept_marker_insert].
  - apply kept_insert; [done|]. unfold touched. naive_solver.
  - left. rewrite lookup_insert_ne by apply temp_ne_target. by apply kept_target.
Qed.

Lemma replaced_is_safe d (K : Disk -> Prop) : (forall d, K d -> kept_ d) -> replaced K dir name (new_contents req) d -> safe d.
Proof.
  intros HK (d' & f & -> & Hk & Hf). apply HK in Hk. split_and!; [| |by apply kept_marker_insert].
  - apply kept_insert; [done|]. by left.
  - right. left. exists f. by rewrite lookup_insert_eq.
Qed.

(** *** The backup *)

(** [bk] is the backup of the old contents, when one is to be taken. *)
Definition backed_up (f0 : option File) (bk : option Path) (d : Disk) : Prop :=
  kept_ d /\
  match f0, bk with
  | Some f0, Some p => (exists n, p = join_name B n) /\ holds p (fun f => contents f = contents f0) d /\ is_directory d B
  | Some _, None => keep_backups req = O
  | None, bk => bk = None
  end.

Lemma backed_up_kept f0 bk d : backed_up f0 bk d -> kept_ d.
Proof. by intros [? _]. Qed.

(** Nothing but a fault can stop the backup. *)
Definition unobstructed (f0 : option File) : Prop :=
  match f0 with Some f0 => nameable w d0 B (sha256 w (contents f0)) | None => True end.

Lemma take_backup_spec f0 e : reads w f0 e ->
  spec safe (prepared d0 B on_the_way) (take_backup w req e)
    (on_ok (backed_up f0) (fun _ d => kept_ d /\ (unobstructed f0 -> faulty (env w)))).
Proof.
  intros He. assert (Hp : forall d, prepared d0 B on_the_way d -> safe d).
  { intros d Hd. by apply kept_is_safe, prepared_kept. }
  destruct f0 as [f0|], e as [e|]; try done; simpl.
  2: { apply spec_ret. intros d Hd. split; [by apply prepared_kept|done]. }
  destruct (0 <? keep_backups req)%nat eqn:Ek; bool_to_prop.
  2: { apply spec_ret. intros d Hd. split; [by apply prepared_kept|]. lia. }
  destruct He as (E1 & E2 & E3). rewrite E2, E3.
  eapply spec_bind with (R := on_ok (fun _ => prepared d0 B on_the_way) (fun _ _ => False)); [by apply spec_now| |done].
  intros t. cbn [on_ok].
  eapply spec_bind; [apply write_backup_spec with (A := on_the_way); try apply lay; auto using kept_is_safe, way_outside| |by intros].
  intros p. cbn [on_ok]. apply spec_assume. intros [n ->].
  eapply spec_pre with (P' := secured d0 B on_the_way n (fun f => contents f = contents f0)).
  2: { intros d Hd. split_and!.
       - eapply plus_kept, plus_weaken; [exact Hd|done|by intros ? [? _]].
       - destruct Hd as (d' & f & -> & _ & (_ & m & Hm) & _). exists m. rewrite lookup_insert_ne; [done|].
         intros E. apply (child_not_ancestor B n). rewrite E. apply ancestors_self, lay.
       - destruct Hd as (d' & f & -> & _ & _ & Hf). exists f. by rewrite lookup_insert_eq. }
  eapply spec_bind; [apply rotate_backups_spec; [apply lay|auto using kept_is_safe]|intros []|].
  - cbn [on_ok]. apply spec_ret. intros d (H1 & H2 & H3). split; [done|]. by eauto.
  - cbn [on_ok]. intros x d [? ?]. auto.
Qed.

(** *** The fallback *)

Section Fallback.
Variable f0 : File.
Hypothesis old_file : d0 !! target = Some (Regular f0).

Lemma backed_up_target bk d : backed_up (Some f0) bk d -> d !! target = Some (Regular f0).
Proof. intros [H _]. by rewrite kept_target. Qed.

Lemma guarded_safe bk d : in_place req = Guarded -> rewritten (backed_up (Some f0) bk) dir name f0 some_file d -> safe d.
Proof.
  intros Hg (d' & f & -> & Hk & _).
  split_and!; [apply kept_insert; [by eapply backed_up_kept|by left]| |by intros m Hm; congruence].
  right. right. exists f0. split_and!; [done| |by left]. exists f. by rewrite lookup_insert_eq.
Qed.

Section Marked.
Variables (m md : Path) (mn : rstr) (n : rstr) (json : rbytes).
Hypothesis m_split : split_path m = Ok (md, mn).
Hypothesis m_dir : md <> dir.
Hypothesis m_backups : md <> B.
Hypothesis m_place : in_place req = Marker m.
#[local] Abbreviation K := (backed_up (Some f0) (Some (join_name B n))).

Lemma m_target : m <> target.
Proof. rewrite (split_path_join _ _ _ m_split). by intros [? _]%join_inj. Qed.

Lemma marker_no_backup k : m <> join_name B k.
Proof. rewrite (split_path_join _ _ _ m_split). by intros [? _]%join_inj. Qed.

Hypothesis m_json : to_vec w (mkMarker target (Some (join_name B n)) (sha256 w (contents f0)) (sha256 w (new_contents req))) = Some json.

(** While the record is being written, and when it is written: [t] tells whether
    the target may have been touched. *)
Lemma m_file_kept d : plus m (begun json) K d ->
  agrees touched d0 d /\ d !! target = d0 !! target
  /\ d0 !! m = None /\ holds m (begun json) d /\ holds (join_name B n) (fun f => contents f = contents f0) d /\ is_directory d B.
Proof.
  intros (d' & f & -> & Hn & Hk & Hf). pose proof (backed_up_kept _ _ _ Hk) as Hk'. pose proof (marker_no_backup n) as Hmn.
  destruct Hk as [_ (_ & (h & Hh & Hc) & (bm & HB))]. split_and!.
  - apply kept_insert; [done|]. unfold touched. naive_solver.
  - rewrite lookup_insert_ne by apply m_target. by apply kept_target.
  - by rewrite <- (kept_marker d' m Hk' m_place).
  - exists f. by rewrite lookup_insert_eq.
  - exists h. by rewrite lookup_insert_ne.
  - exists bm. rewrite lookup_insert_ne; [done|]. intros E.
    destruct (lay_marker lay m m_place) as (? & ? & ? & ? & ? & Habove & _).
    apply Habove. rewrite E. apply ancestors_self, (lay_backups lay).
Qed.

Lemma m_file_safe d : plus m (begun json) K d -> safe d.
Proof.
  intros (Ha & Ht & Hn & Hm & Hb & Hd)%m_file_kept. split_and!; [done|by left|].
  intros m' Hm'. rewrite m_place in Hm'. injection Hm' as <-. right. exists f0, n, json. split_and!; auto.
Qed.

Lemma marked_target d F : plus m F K d -> d !! target = Some (Regular f0).
Proof. intros (d' & f & -> & _ & Hk & _). rewrite lookup_insert_ne by apply m_target. by eapply backed_up_target. Qed.

(** The target rewritten while the marker stands. *)
#[local] Abbreviation marked := (plus m (fun f => contents f = json) K).

Lemma marked_safe d : rewritten marked dir name f0 some_file d -> safe d.
Proof.
  intros (d' & f & -> & Hmk & _). destruct (m_file_kept d') as (Ha & Ht & Hn & _ & (h & Hh & Hc) & (bm & HB)).
  { eapply plus_weaken; [done|apply begun_whole|done]. }
  destruct Hmk as (d1 & g & -> & _ & _ & Hg). pose proof m_target as Hmt.
  assert (Hne : join_name B n <> target) by (intros [? _]%join_inj; by apply (lay_apart lay)).
  assert (HBt : B <> target).
  { intros E. pose proof (ancestors_self B (lay_backups lay)) as H. rewrite E in H at 1. by apply (lay_above lay). }
  assert (Hg' : holds m (fun f => contents f = json) (<[target := Regular f]> (<[m := Regular g]> d1))).
  { exists g. by rewrite lookup_insert_ne, lookup_insert_eq. }
  assert (Hh' : holds (join_name B n) (fun f => contents f = contents f0) (<[target := Regular f]> (<[m := Regular g]> d1))).
  { exists h. by rewrite lookup_insert_ne. }
  split_and!; [apply agrees_insert; [done|by left]| |].
  - right. right. exists f0. split_and!; [done|by exists f; rewrite lookup_insert_eq|]. right. by exists m, n, json.
  - intros m' Hm'. rewrite m_place in Hm'. injection Hm' as <-. right. exists f0, n, json. split_and!; auto.
    + destruct Hg' as (g' & ? & ?). exists g'. split; [done|]. by apply begun_whole.
    + exists bm. by rewrite lookup_insert_ne.
Qed.

Lemma unmark_rewritten d F : rewritten marked dir name f0 F d ->
  exists f, d !! m = Some (Regular f) /\ rewritten K dir name f0 F (delete m d).
Proof.
  pose proof m_target as Hm. intros (d' & f & -> & (d1 & g & -> & Hn & Hk & Hg) & Hi & Hf). exists g. split.
  - by rewrite lookup_insert_ne, lookup_insert_eq.
  - rewrite delete_insert_ne, delete_insert_id by done. by exists d1, f.
Qed.

Lemma unmark d : marked d -> exists f, d !! m = Some (Regular f) /\ K (delete m d).
Proof.
  intros (d1 & g & -> & Hn & Hk & Hg). exists g. rewrite lookup_insert_eq, delete_insert_id; done.
Qed.

End Marked.

Lemma backed_up_safe bk d : backed_up (Some f0) bk d -> safe d.
Proof. intros H. by eapply kept_is_safe, backed_up_kept. Qed.

Lemma rewritten_is_replaced bk d :
  rewritten (backed_up (Some f0) bk) dir name f0 (fun f => contents f = new_contents req) d ->
  replaced (backed_up (Some f0) bk) dir name (new_contents req) d.
Proof. intros (d' & f & -> & H & _ & Hf). by exists d', f. Qed.

Lemma replaced_backed_up_safe bk d : replaced (backed_up (Some f0) bk) dir name (new_contents req) d -> safe d.
Proof. apply replaced_is_safe. intros ?. apply backed_up_kept. Qed.

Lemma marked_write_spec found m n : found_as w f0 found -> in_place req = Marker m ->
  spec safe (backed_up (Some f0) (Some (join_name B n))) (marked_write w req dir name found m (join_name B n))
    (on_ok (fun _ => replaced (backed_up (Some f0) (Some (join_name B n))) dir name (new_contents req)) (fun _ => safe)).
Proof.
  intros (Ef & _ & Ed) Ep. destruct (lay_marker lay m Ep) as (md & mn & Hm & H1 & H2 & _).
  set (K := backed_up (Some f0) (Some (join_name B n))).
  assert (Hmf : forall json d, to_vec w (mkMarker target (Some (join_name B n)) (sha256 w (contents f0)) (sha256 w (new_contents req))) = Some json ->
    plus m (begun json) K d -> safe d) by (intros json d ?; by apply (m_file_safe m md mn n)).
  unfold marked_write. rewrite (split_path_join _ _ _ (lay_path lay)), Ed. fold (digest_of w (new_contents req)).
  eapply spec_bind; [apply (write_marker_spec w safe K m md mn Hm)| |].
  { intros d. apply backed_up_safe. }
  { apply Hmf. }
  2: { cbn [on_ok]. intros e d [Hd|(json & Hj & Hd)]; [by eapply backed_up_safe|by eapply Hmf]. }
  intros []. cbn [on_ok]. apply spec_exists. intros json. apply spec_assume. intros Hj.
  set (MK := plus m (fun f => contents f = json) K).
  assert (Hms : forall F d, rewritten MK dir name f0 F d -> safe d).
  { intros F d Hd. apply (marked_safe m md mn n json); try done. by eapply rewritten_any. }
  eapply spec_bind with (R := on_ok (fun _ => replaced K dir name (new_contents req)) (fun _ => safe)); [| |done].
  2: { intros []. by apply spec_ret. }
  eapply spec_try.
  { apply (write_in_place_spec w safe MK dir name (new_contents req) f0); [|apply Hms|done].
    intros d. by apply (marked_target m md mn n). }
  assert (Hkeep : forall e : AtomicError, spec safe (fun d => faulty (env w) /\ rewritten MK dir name f0 some_file d)
    (throw e) (on_ok (fun _ : () => replaced K dir name (new_contents req)) (fun _ => safe))).
  { intros e. apply spec_throw. intros d [_ Hd]. by eapply Hms. }
  intros [[]|e]; cbn [on_ok].
  - eapply spec_post; [apply (remove_marker_spec w safe m md mn Hm _ (rewritten K dir name f0 (fun f => contents f = new_contents req)))|].
    + apply Hms.
    + intros d Hd. by eapply replaced_backed_up_safe, rewritten_is_replaced.
    + intros d. by apply (unmark_rewritten m md mn n json).
    + intros [[]|e] d; cbn [on_ok]; [apply rewritten_is_replaced|]. intros [[Hd|Hd] _]; [by eapply Hms|].
      by eapply replaced_backed_up_safe, rewritten_is_replaced.
  - destruct (classic_open e) as [(p & c & ->)|Hno].
    + rewrite bool_decide_true by done. eapply spec_pre with (P' := MK).
      2: { intros d [_ [[? _]|[_ H]]]; [done|]. destruct H. by eexists _, _. }
      eapply spec_bind; [apply (remove_marker_spec w safe m md mn Hm MK K)| |].
      * intros d Hd. eapply Hmf; [done|]. eapply plus_weaken; [exact Hd|apply begun_whole|done].
      * apply backed_up_safe.
      * apply unmark.
      * intros []. cbn [on_ok]. apply spec_throw. intros d. apply backed_up_safe.
      * cbn [on_ok]. intros x d [[Hd|Hd] _]; [|by eapply backed_up_safe].
        eapply Hmf; [done|]. eapply plus_weaken; [exact Hd|apply begun_whole|done].
    + eapply spec_pre; [|intros d [Hf [[_ H]|[H _]]]; [by destruct Hno|exact (conj Hf H)]].
      destruct e; try apply Hkeep. rewrite bool_decide_false; [apply Hkeep|]. intros ->. apply Hno. by eexists _, _.
Qed.

Lemma fall_back_spec bk found err : found_as w f0 found ->
  spec safe (backed_up (Some f0) bk) (fall_back w req dir name found bk err)
    (on_ok (fun _ => replaced (backed_up (Some f0) bk) dir name (new_contents req)) (fun _ => safe)).
Proof.
  intros Hfound. unfold fall_back. destruct (in_place req) as [|m|] eqn:Ep.
  - apply spec_throw. intros d. apply backed_up_safe.
  - destruct bk as [p|]; [|apply spec_throw; intros d; apply backed_up_safe].
    eapply spec_pre with (P' := fun d => (exists n, p = join_name B n) /\ backed_up (Some f0) (Some p) d).
    2: { intros d Hd. split; [apply Hd|done]. }
    apply spec_assume. intros [n ->]. by apply marked_write_spec.
  - eapply spec_bind; [apply (write_in_place_spec w safe (backed_up (Some f0) bk) dir name (new_contents req) f0)|intros []|].
    + intros d. apply backed_up_target.
    + intros d. by apply guarded_safe.
    + apply Hfound.
    + cbn [on_ok]. apply spec_ret. intros d. apply rewritten_is_replaced.
    + cbn [on_ok]. intros e d [_ [[Hd _]|[Hd _]]]; [by eapply backed_up_safe|by eapply guarded_safe].
Qed.

End Fallback.
(** *** Reading what is there *)

(** The file at the target before the write, when that is a file or nothing. *)
Definition old_is (f0 : option File) : Prop := d0 !! target = Regular <$> f0.

(** What was read is what is there. *)
Definition read_post (P : Disk -> Prop) : result AtomicError (option Existing) -> Disk -> Prop :=
  on_ok (fun e d => (exists f0, old_is f0 /\ reads w f0 e) /\ P d)
        (fun _ d => P d /\ ((exists f0, old_is f0) -> faulty (env w))).

Lemma read_existing_spec P q : (forall d, P d -> safe d) -> (forall d, P d -> d !! target = d0 !! target) ->
  spec safe P (read_existing w dir name q) (read_post P).
Proof.
  intros HP Ht. eapply spec_post; [by apply read_existing_current|]. unfold old_is, current.
  intros [e|e] d; cbn [on_ok read_post]; intros [Hd H]; rewrite (Ht d Hd) in H; [split; [|done]|split; [done|]].
  - destruct H as (f0 & ? & ?). eauto.
  - done.
Qed.

(** *** The result *)

(** Nothing but a fault can stop the write, if the digest is the expected one. *)
Record good (f0 : option File) : Prop := {
  good_dir : is_directory d0 dir;
  good_way : passable dir d0;
  good_old : old_is f0;
  good_backup : unobstructed f0;
  good_temp : d0 !! temp 0 = None /\ temp 0 ∉ ancestors B;
}.

(** The target is not the file the caller expects. *)
Definition mismatch : Prop :=
  exists x, expected_prev req = Some x /\ forall f0, old_is f0 -> (fun f => sha256 w (contents f)) <$> f0 <> Some x.

(** After a successful write: the new contents, a backup of the old ones, and
    neither a temporary file nor a marker. *)
Definition finished (out : WriteOutcome) (d : Disk) : Prop :=
  written d
  /\ agrees (fun p => p = target \/ p ∈ ancestors B \/ on_the_way p \/ parent p = Some B) d0 d
  /\ new_digest out = sha256 w (new_contents req)
  /\ ~ mismatch
  /\ exists f0, old_is f0 /\ prev_digest out = (fun f => sha256 w (contents f)) <$> f0
       /\ (created out = true <-> f0 = None)
       /\ match f0, backup out with
          | Some f0, Some p =>
              (exists n, p = join_name B n) /\ holds p (fun f => contents f = contents f0) d /\ is_directory d B
          | Some _, None => keep_backups req = O
          | None, b => b = None
          end.

(** After a refused write. *)
Definition refused (d : Disk) : Prop :=
  safe d /\ (mismatch -> d !! target = d0 !! target) /\ (forall f0, good f0 -> mismatch \/ faulty (env w)).

Definition started (d : Disk) : Prop :=
  prepared d0 B on_the_way d /\ (is_directory d0 dir -> is_directory d dir) /\ (passable dir d0 -> passable dir d).

Lemma started_safe d : started d -> safe d.
Proof. intros [H _]. by apply kept_is_safe, prepared_kept. Qed.

Lemma start_spec : spec safe started
  (if create_missing req then map_err (Io (lit "create_dir_all") dir) (create_dir_all (env w) dir) else mret ())
  (on_ok (fun _ => started) (fun _ d => started d /\ (passable dir d0 -> faulty (env w)))).
Proof.
  destruct (create_missing req) eqn:Ec; [|by apply spec_ret].
  apply spec_rename_err. unfold create_dir_all.
  apply spec_each with (R := fun _ d => started d /\ (passable dir d0 -> faulty (env w))).
  intros p Hp. apply spec_sys; [|by intros].
  intros n d Hd. destruct (d !! p) as [[f| |m|]|] eqn:E; cbn [fst snd on_ok];
    try (split; [by apply started_safe|]); try done.
  1-3: split; [done|]; intros Hpass; destruct (proj2 (proj2 Hd) Hpass p Hp) as [?|[? ?]]; congruence.
  assert (Hs : started (<[p := Directory 493]> d)); [|split; [by apply started_safe|done]].
  assert (Hpass : forall q, passable q d -> passable q (<[p := Directory 493]> d)).
  { intros q Hq r Hr. destruct (decide (r = p)) as [->|Hne].
    - right. eexists. apply lookup_insert_eq.
    - destruct (Hq r Hr) as [H|[k H]]; [left|right; exists k]; by rewrite lookup_insert_ne. }
  destruct Hd as ([H1 H2] & H3 & H4). split_and!; [split|..].
  - apply agrees_insert; [done|]. by right; split.
  - auto.
  - intros H. apply H3 in H as [m Hm]. exists m. rewrite lookup_insert_ne; [done|]. congruence.
  - auto.
Qed.

Lemma started_target d : started d -> d !! target = d0 !! target.
Proof. intros [H _]. by apply kept_target, prepared_kept. Qed.

Lemma started_refused d : started d -> (forall f0, good f0 -> mismatch \/ faulty (env w)) -> refused d.
Proof. intros Hs Hg. split; [by apply started_safe|]. split; [|done]. intros _. by apply started_target. Qed.

Lemma finish f0 bk d m : old_is f0 -> ~ mismatch -> replaced (backed_up f0 bk) dir name (new_contents req) d ->
  finished (mkOutcome ((fun f => sha256 w (contents f)) <$> f0) (digest_of w (new_contents req)) bk
              (match f0 with None => true | Some _ => false end) m) d.
Proof.
  intros Ho Hm (d' & f & -> & [Hk Hb] & Hf). split_and!.
  - exists f. by rewrite lookup_insert_eq.
  - apply agrees_insert; [|by left]. eapply agrees_weaken; [exact Hk|]. naive_solver.
  - done.
  - done.
  - exists f0. split_and!; [done..|by destruct f0|]. simpl. destruct f0 as [f0|]; [|done].
    destruct bk as [p|]; [|done]. destruct Hb as ([n ->] & (g & Hg & Hc) & [k Hk']). split_and!; [by eauto|exists g|exists k];
      (rewrite lookup_insert_ne; [done|]); intros E.
    + apply join_inj in E as [E _]. by apply (lay_apart lay).
    + apply (lay_above lay). rewrite E. apply ancestors_self, lay.
Qed.

(** The temporary file or, when its directory refuses it, the write in place. *)
Lemma replace_spec f0 e bk m : old_is f0 -> reads w f0 e ->
  spec safe (backed_up f0 bk)
    (try (replace_contents w dir name (path req) (new_contents req) m (e_owner <$> e) (e_file <$> e)) (fun r =>
       match r, e with
       | Err err, Some found => if temp_refused err then fall_back w req dir name found bk err else throw err
       | _, _ => of_result r
       end))
    (on_ok (fun _ => replaced (backed_up f0 bk) dir name (new_contents req))
           (fun _ d => safe d /\ (d0 !! temp 0 = None /\ temp 0 ∉ ancestors B -> faulty (env w)))).
Proof.
  intros Ho He. assert (HK : forall d, backed_up f0 bk d -> kept_ d) by (intros d; apply backed_up_kept).
  eapply spec_try.
  { apply (replace_contents_spec w safe (backed_up f0 bk) dir name (new_contents req)).
    - intros i. apply name_not_temp.
    - intros d Hd. by apply kept_is_safe, HK.
    - intros i d. by apply temp_is_safe.
    - intros d. by apply replaced_is_safe.
    - intros d Hd%HK [k Hk]. rewrite (kept_target d Hd), Ho in Hk. by destruct f0. }
  assert (Hun : forall d, untouched w (backed_up f0 bk) dir d \/ replaced (backed_up f0 bk) dir name (new_contents req) d -> safe d).
  { intros d [[Hd|[i Hd]]|Hd]; [by apply kept_is_safe, HK|by eapply temp_is_safe|by eapply replaced_is_safe]. }
  assert (Htaken : taken (backed_up f0 bk) (temp 0) -> d0 !! temp 0 = None /\ temp 0 ∉ ancestors B -> False).
  { intros (d & Hd%HK & Hx) [Hfree Hb]. apply Hx. rewrite (Hd (temp 0)); [done|]. intros [H|[H|H]]; [done| |].
    - by destruct H as [_ H%child_not_ancestor].
    - rewrite parent_join in H. injection H. apply (lay_apart lay). }
  intros [a|err]; [by destruct e; apply spec_of_result|]. cbn [on_ok].
  set (post := on_ok (fun _ : bool => replaced (backed_up f0 bk) dir name (new_contents req))
    (fun (_ : AtomicError) d => safe d /\ (d0 !! temp 0 = None /\ temp 0 ∉ ancestors B -> faulty (env w)))).
  assert (Hthrow : spec safe (fun d => (untouched w (backed_up f0 bk) dir d \/ replaced (backed_up f0 bk) dir name (new_contents req) d)
      /\ (faulty (env w) \/ taken (backed_up f0 bk) (temp 0))) (throw err) post).
  { apply spec_throw. intros d [H1 [H2|H2]]; (split; [by apply Hun|]); [done|]. intros H. by destruct (Htaken H2 H). }
  destruct e as [found|]; [|eapply spec_pre; [apply Hthrow|by intros d (? & _ & ?)]].
  destruct (temp_refused err) eqn:Er; [|eapply spec_pre; [apply Hthrow|by intros d (? & _ & ?)]]. unfold post.
  destruct f0 as [f0|]; [|done].
  eapply spec_pre with (P' := fun d => faulty (env w) /\ backed_up (Some f0) bk d); [|intros d (_ & H & _); by destruct (H Er)].
  apply spec_assume. intros Hf. eapply spec_post; [by apply fall_back_spec|]. intros [x|x] d; cbn [on_ok]; auto.
Qed.

Lemma old_is_fun f0 f1 : old_is f0 -> old_is f1 -> f0 = f1.
Proof. unfold old_is. destruct f0, f1; simpl; congruence. Qed.

Lemma reads_digest f0 e : reads w f0 e -> e_digest <$> e = (fun f => sha256 w (contents f)) <$> f0.
Proof. destruct f0, e; try done. intros (_ & _ & H). simpl. by rewrite H. Qed.

Lemma write_atomic_spec : spec safe (fun d => d = d0) (write_atomic w req) (on_ok finished (fun _ => refused)).
Proof.
  unfold write_atomic.
  eapply spec_bind with (R := on_ok (fun x d => x = (dir, name) /\ started d) (fun _ _ => False)); [| |done].
  { apply spec_of_result. intros d ->. rewrite (lay_path lay). split; [done|]. by repeat split. }
  intros x. cbn [on_ok]. apply spec_assume. intros ->.
  eapply spec_bind; [apply start_spec| |].
  2: { intros e d [Hd Hf]. apply started_refused; [done|]. intros f0 Hg. right. apply Hf, Hg. }
  intros []. cbn [on_ok]. eapply spec_bind; [apply open_dir_spec, started_safe| |].
  2: { intros e d (Hd & Hf & _). apply started_refused; [done|]. intros f0 Hg. right. apply Hf, Hd, Hg. }
  intros []. cbn [on_ok]. eapply spec_pre with (P' := started); [|by intros d [? _]].
  eapply spec_bind; [apply (read_existing_spec started); auto using started_safe, started_target| |].
  2: { intros e d [Hd Hf]. apply started_refused; [done|]. intros f0 Hg. right. apply Hf. exists f0. apply Hg. }
  intros e. cbn [on_ok read_post]. apply spec_assume. intros (f0 & Ho & He). rewrite (reads_digest _ _ He).
  set (actual := _ <$> f0).
  eapply spec_bind with (R := on_ok (fun _ d => ~ mismatch /\ started d) (fun _ d => mismatch /\ started d)).
  { assert (Hm : forall x, expected_prev req = Some x -> actual <> Some x -> mismatch).
    { intros x Hx Ha. exists x. split; [done|]. intros f1 H1. by rewrite (old_is_fun f1 f0). }
    destruct (expected_prev req) as [x|] eqn:Ex.
    - case_bool_decide as E; [apply spec_ret|apply spec_throw]; intros d Hd; (split; [|done]); [|by eapply Hm].
      intros (y & Hy & Hn). rewrite Ex in Hy. injection Hy as <-. by apply (Hn f0).
    - apply spec_ret. intros d Hd. split; [|done]. by intros (y & Hy & _); rewrite Ex in Hy. }
  2: { cbn [on_ok]. intros x d [Hm Hd]. apply started_refused; auto. }
  intros []. cbn [on_ok]. apply spec_assume. intros Hnm.
  eapply spec_bind; [eapply spec_pre; [by apply take_backup_spec|by intros d [? _]]| |].
  2: { cbn [on_ok]. intros x d [Hd Hf]. split; [by apply kept_is_safe|]. split; [done|].
       intros f1 Hg. right. apply Hf. rewrite (old_is_fun f0 f1); [apply Hg|done|apply Hg]. }
  intros bk. cbn [on_ok]. eapply spec_bind; [by apply replace_spec| |].
  2: { cbn [on_ok]. intros x d [Hd Hf]. split; [done|]. split; [done|]. intros f1 Hg. right. apply Hf, Hg. }
  intros preserved. cbn [on_ok]. apply spec_ret. intros d Hd.
  assert (Ec : match e with None => true | Some _ => false end = match f0 with None => true | Some _ => false end)
    by (by destruct f0, e).
  rewrite Ec. by apply finish.
Qed.

End Write.
