(* ===== verification/Restore.v ===== *)
(** * Writes and restores: the properties

    What [Atomic] promises its callers, stated on whole runs: crash safety, the
    outcome of a write, and that restoring the backup of a write undoes it. The
    witnesses run on a concrete disk. *)

From Stdlib Require Import ZArith.
From stdpp Require Import gmap sorting.
From S2P Require Import Prelude Str Num Ip Disk Atomic AtomicSafe.
#[local] Open Scope Z_scope.

(** From one specification to one run. *)
Lemma spec_run {E A} (I : Disk -> Prop) (m : M E A) (Q : result E A -> Disk -> Prop) d :
  spec I (fun x => x = d) m Q -> I d -> Forall I (seen (m (start d)).2) /\ Q (m (start d)).1 (disk (m (start d)).2).
Proof.
  intros H Hd. destruct (H (start d) eq_refl) as [(new & -> & Hn) HQ]. split; [|done].
  apply Forall_app. split; [done|]. by repeat constructor.
Qed.

Lemma start_safe w req d0 dir name : safe w req d0 dir name d0.
Proof. split_and!; [apply agrees_refl|by left|by left]. Qed.

(** ** Restoring *)

Section Restore.
Variable w : World.
Variables (b B target : Path) (n : rstr) (d0 : Disk) (dir : Path) (name : rstr).
Variables (expected : option Sha256Digest) (how : InPlace) (fb : File).
Hypothesis b_path : split_path b = Ok (B, n).
Hypothesis b_dir : is_directory d0 B.
Hypothesis b_file : d0 !! b = Some (Regular fb).

(** The write a restore makes. *)
Definition restoring : WriteRequest := mkRequest target (contents fb) expected B DEFAULT_KEEP_BACKUPS false 420 how.
Hypothesis lay : layout restoring dir name.

Lemma restore_spec : spec (safe w restoring d0 dir name) (fun d => d = d0) (restore_backup_with w b target expected how)
  (on_ok (finished w restoring d0 dir name) (fun _ => refused w restoring d0 dir name)).
Proof.
  unfold restore_backup_with. rewrite (split_path_join _ _ _ b_path), parent_join.
  rewrite <- (split_path_join _ _ _ b_path).
  eapply spec_bind; [apply (read_with_digest_spec w _ (fun d => d = d0) b B n b_path)| |].
  - intros d ->. apply start_safe.
  - intros [bytes digest]. cbn [on_ok].
    eapply spec_pre with (P' := fun d => bytes = contents fb /\ d = d0).
    2: { intros d [-> (f & Hf & [= -> ->])]. by simplify_eq. }
    apply spec_assume. intros ->. by apply (write_atomic_spec w restoring d0 dir name lay).
  - cbn [on_ok]. intros e d [-> Hf]. split; [apply start_safe|]. split; [done|]. intros f0 Hg. right.
    apply Hf; [done|by exists fb].
Qed.

End Restore.

(** ** Properties *)

(** C7: Crash safety. Whatever system calls of a write fail, and wherever it is
    cut off, at every moment the target is the old file, or holds the whole new
    contents, or is covered: a complete marker names the target and a backup that
    holds the old contents. Nothing else changes but the backup directory and
    temporary files. *)
Theorem write_crash_safe w req d0 dir name : layout req dir name ->
  Forall (safe w req d0 dir name) (seen (write_atomic w req (start d0)).2).
Proof.
  intros lay. eapply spec_run; [by apply write_atomic_spec|apply start_safe].
Qed.

(** C14: The outcome of a write. A write that reports success has put the new
    contents in place, kept a backup of the old ones when one was asked for,
    found the expected digest, and left neither a temporary file nor a marker; a
    write that fails leaves the target alone when the digest was not the expected
    one. On a disk where nothing is in the way, with the expected digest and no
    failing call, the write does succeed. *)
Theorem write_outcome w req d0 dir name : layout req dir name ->
  let '(r, st) := write_atomic w req (start d0) in
  match r with
  | Ok out => finished w req d0 dir name out (disk st)
  | Err _ => safe w req d0 dir name (disk st) /\ (mismatch w req d0 dir name -> disk st !! join_name dir name = d0 !! join_name dir name)
  end
  /\ ((exists f0, good w req d0 dir name f0) -> ~ mismatch w req d0 dir name -> ~ faulty (env w) -> exists out, r = Ok out).
Proof.
  intros lay. destruct (spec_run _ _ _ d0 (write_atomic_spec w req d0 dir name lay)) as [_ H]; [apply start_safe|].
  destruct (write_atomic w req (start d0)) as [[out|e] st]; cbn [fst snd on_ok] in H; split; eauto.
  - destruct H as (H1 & H2 & _). auto.
  - destruct H as (_ & _ & H3). intros [f0 Hg] Hm Hf. by destruct (H3 f0 Hg).
Qed.

(** C15: A restore undoes a write. When a write of an existing file succeeded and
    nobody changed the target since, restoring its backup with the digest of the
    new contents as the guard puts the old contents back, if no call fails; if
    somebody did change it, the guard keeps their contents. *)
Theorem restore_undoes_write w w' req d0 dir name out d1 b n how f0 :
  layout req dir name -> finished w req d0 dir name out d1 -> d0 !! join_name dir name = Some (Regular f0) ->
  backup out = Some b -> split_path b = Ok (backup_dir req, n) -> sha256 w' = sha256 w ->
  (forall fb, layout (restoring (backup_dir req) (join_name dir name) (Some (new_digest out)) how fb) dir name
     /\ exists f1, good w' (restoring (backup_dir req) (join_name dir name) (Some (new_digest out)) how fb) d1 dir name f1) ->
  ~ faulty (env w') ->
  let '(r, st) := restore_backup_with w' b (join_name dir name) (Some (new_digest out)) how (start d1) in
  (exists out', r = Ok out') /\ holds (join_name dir name) (fun f => contents f = contents f0) (disk st).
Proof.
  intros lay (Hw & _ & Hnew & _ & f0' & Ho & _ & _ & Hb) H0 Eb Hsplit Hsha Hgood Hnf.
  rewrite (old_is_fun d0 dir name f0' (Some f0)) in Hb by done. rewrite Eb in Hb.
  destruct Hb as ([n' ->] & (fb & Hfb & Hc) & Hdir). destruct (Hgood fb) as [lay' [f1 Hg]].
  destruct (spec_run _ _ _ d1 (restore_spec w' _ (backup_dir req) (join_name dir name) n d1 dir name
    (Some (new_digest out)) how fb Hsplit Hdir Hfb lay')) as [_ H]; [apply start_safe|].
  destruct (restore_backup_with _ _ _ _ _ _) as [[out'|e] st]; cbn [fst snd on_ok] in H.
  - split; [by eauto|]. destruct H as [(f & Hf & Hfc) _]. exists f. split; [done|]. simpl in Hfc. by rewrite Hfc.
  - exfalso. destruct H as (_ & _ & H3). destruct (H3 f1 Hg) as [(x & Hx & Hm)|?]; [|done]. injection Hx as <-.
    destruct Hw as (f & Hf & Hfc). apply (Hm (Some f)); [done|]. simpl. by rewrite Hfc, Hsha, Hnew.
Qed.

(** ** A concrete disk *)

Module Demo.

Definition calm : Env := mkEnv (fun _ => None) Z.of_nat Z.of_nat (0, 0).
Definition w : World := mkWorld calm (fun b => Z.of_N <$> b) (fun _ => Some (lit "{}"))
  (fun t => Some (lit "T" ++ show_dec t ++ lit "Z")) Z.of_nat.

Definition p (l : list rstr) : Path := mkPath true (Normal <$> l).
Definition etc : Path := p [lit "etc"].
Definition state : Path := p [lit "var"; lit "detent"].
Definition backups : Path := p [lit "var"; lit "detent"; lit "backups"; lit "hosts"].
Definition file (b : rbytes) : File := mkFile b 420 (0, 0) [] 7 0.
Definition before : Disk :=
  <[p [lit "etc"] := Directory 493]> (<[p [lit "var"] := Directory 493]> (<[state := Directory 493]>
    (<[p [lit "etc"; lit "hosts"] := Regular (file (lit "old"))]> ∅))).

Definition request (how : InPlace) : WriteRequest :=
  mkRequest (p [lit "etc"; lit "hosts"]) (lit "new") (Some (sha256 w (lit "old"))) backups 3 false 420 how.
Definition marker : Path := p [lit "var"; lit "detent"; lit "marker"].

Lemma deep_outside B d n : (length (components d) < S (length (components B)))%nat -> join_name B n ∉ ancestors d.
Proof. intros H E%elem_of_ancestors. simpl in E. rewrite length_app in E. simpl in E. lia. Qed.

Lemma request_layout how : how = Never \/ how = Marker marker -> layout (request how) etc (lit "hosts").
Proof.
  intros Hh. split; try done.
  - by apply (bool_decide_eq_false_1 (_ ∈ _)); vm_compute.
  - intros n. apply deep_outside. simpl. lia.
  - intros [k E]. discriminate E.
  - intros m E. destruct Hh as [Hh | Hh]; simpl in E; rewrite Hh in E; [done|]. injection E as <-. exists state, (lit "marker").
    split_and!; try done; apply (bool_decide_eq_false_1 (_ ∈ _)); by vm_compute.
Qed.

(** A name nothing on the disk starts with. *)
Definition starts (c : rchar) (q : Path) : bool :=
  match last (components q) with Some (Normal (x :: _)) => (x =? c)%N | _ => false end.

Lemma free_name (d : Disk) B c s : forallb (fun x => negb (starts c x.1)) (map_to_list d) = true -> d !! join_name B (c :: s) = None.
Proof.
  intros H. destruct (d !! _) as [n|] eqn:E; [|done]. exfalso. apply elem_of_map_to_list in E.
  rewrite forallb_forall in H. apply list_elem_of_In in E. specialize (H _ E). unfold starts in H. simpl in H.
  rewrite last_snoc, N.eqb_refl in H. done.
Qed.

Lemma passable_by p (d : Disk) : forallb (fun q => match d !! q with None | Some (Directory _) => true | _ => false end) (ancestors p) = true -> passable p d.
Proof.
  intros H q Hq. rewrite forallb_forall in H. apply list_elem_of_In in Hq. specialize (H _ Hq). cbv beta in H. unfold is_directory.
  destruct (d !! q) as [[]|]; naive_solver.
Qed.

Lemma before_good how : good w (request how) before etc (lit "hosts") (Some (file (lit "old"))).
Proof.
  split; try done.
  - by exists 493.
  - by apply passable_by.
  - split; [by apply passable_by|]. intros t. eexists. split; [done|]. by apply free_name.
  - split; [done|]. by apply (bool_decide_eq_false_1 (_ ∈ _)); vm_compute.
Qed.

Definition after : Disk := disk (write_atomic w (request Never) (start before)).2.

(** The same host later: its backups have other names. *)
Definition later : World := mkWorld calm (sha256 w) (to_vec w) (fun t => Some (lit "UTZ" ++ show_dec t)) Z.of_nat.

Definition hosts : Path := join_name etc (lit "hosts").
Definition saved : rstr := lit "T5Z-6f6c64".
Definition outcome : WriteOutcome :=
  mkOutcome (Some (sha256 w (lit "old"))) (sha256 w (lit "new")) (Some (join_name backups saved)) false true.

Lemma ran : (write_atomic w (request Never) (start before)).1 = Ok outcome.
Proof. by vm_compute. Qed.

Lemma after_finished : finished w (request Never) before etc (lit "hosts") outcome after.
Proof.
  destruct (spec_run _ _ _ before (write_atomic_spec w (request Never) before etc (lit "hosts") (request_layout Never (or_introl eq_refl)))) as [_ H].
  { apply start_safe. }
  rewrite ran in H. exact H.
Qed.

Lemma restoring_layout fb x : layout (restoring backups hosts x Never fb) etc (lit "hosts").
Proof.
  split; try done.
  - by apply (bool_decide_eq_false_1 (_ ∈ _)); vm_compute.
  - intros n. apply deep_outside. simpl. lia.
  - intros [k E]. discriminate E.
Qed.

Definition is_file_b (d : Disk) (q : Path) : bool := match d !! q with Some (Regular _) => true | _ => false end.
Definition is_dir_b (d : Disk) (q : Path) : bool := match d !! q with Some (Directory _) => true | _ => false end.
Definition absent (d : Disk) (q : Path) : bool := match d !! q with None => true | _ => false end.

Lemma is_file_by d q : is_file_b d q = true -> exists f, d !! q = Some (Regular f).
Proof. unfold is_file_b. destruct (d !! q) as [[]|]; naive_solver. Qed.

Lemma is_dir_by d q : is_dir_b d q = true -> is_directory d q.
Proof. unfold is_dir_b, is_directory. destruct (d !! q) as [[]|]; naive_solver. Qed.

Lemma absent_by d q : absent d q = true -> d !! q = None.
Proof. unfold absent. destruct (d !! q) as [[]|]; naive_solver. Qed.

Lemma after_good fb x : exists f1, good later (restoring backups hosts x Never fb) after etc (lit "hosts") f1.
Proof.
  destruct (is_file_by after hosts) as [f1 Hf]; [by vm_compute|]. exists (Some f1). split.
  - apply is_dir_by. by vm_compute.
  - apply passable_by. by vm_compute.
  - exact Hf.
  - split; [apply passable_by; by vm_compute|]. intros t. eexists. split; [reflexivity|]. apply free_name. by vm_compute.
  - split; [apply absent_by; by vm_compute|]. by apply (bool_decide_eq_false_1 (_ ∈ _)); vm_compute.
Qed.

End Demo.

(** A write in place under a marker that is cut off by faults: here every write
    to a temporary file in [/etc] is refused. *)
Lemma write_crash_safe_witness :
  let w := mkWorld (mkEnv (fun n => if (n =? 19)%nat then Some (FReadOnly, O) else None) Z.of_nat Z.of_nat (0, 0))
             (sha256 Demo.w) (to_vec Demo.w) (stamp Demo.w) (token Demo.w) in
  Forall (safe w (Demo.request (Marker Demo.marker)) Demo.before Demo.etc (lit "hosts"))
    (seen (write_atomic w (Demo.request (Marker Demo.marker)) (start Demo.before)).2).
Proof. intros w. apply write_crash_safe, Demo.request_layout. by right. Defined.

Lemma write_outcome_witness : exists out, (write_atomic Demo.w (Demo.request Never) (start Demo.before)).1 = Ok out.
Proof.
  pose proof (write_outcome Demo.w (Demo.request Never) Demo.before Demo.etc (lit "hosts")
    (Demo.request_layout Never (or_introl eq_refl))) as H.
  destruct (write_atomic _ _ _) as [r st]. destruct H as [_ H]. apply H.
  - eexists. apply Demo.before_good.
  - intros (x & [= <-] & Hx). by apply (Hx (Some (Demo.file (lit "old")))).
  - by intros (n & f & [=]).
Defined.

Lemma restore_undoes_write_witness :
  let '(r, st) := restore_backup_with Demo.later (join_name Demo.backups Demo.saved) Demo.hosts
                    (Some (sha256 Demo.w (lit "new"))) Never (start Demo.after) in
  (exists out', r = Ok out') /\ holds Demo.hosts (fun f => contents f = lit "old") (disk st).
Proof.
  apply (restore_undoes_write Demo.w Demo.later (Demo.request Never) Demo.before Demo.etc (lit "hosts") Demo.outcome
           Demo.after (join_name Demo.backups Demo.saved) Demo.saved Never (Demo.file (lit "old"))); try reflexivity.
  - apply Demo.request_layout. by left.
  - apply Demo.after_finished.
  - intros fb. split; [apply Demo.restoring_layout|apply Demo.after_good].
  - by intros (n & f & [=]).
Defined.
