(* ===== verification/Utf8.v ===== *)
(** * UTF-8 decoding and text searching

    What the source uses of [str] beyond [Str]: [str::from_utf8],
    [String::from_utf8_lossy], [lines], and the search functions that take a
    string pattern. Bytes are [list N]. *)

From Stdlib Require Import ZArith.
From S2P Require Import Prelude Str Num.
#[local] Open Scope N_scope.

(** ** Decoding *)

Definition in_range (lo hi b : N) : bool := (lo <=? b) && (b <=? hi).
Definition continuation (b : N) : bool := in_range 128 191 b.

(** The second bytes a leading byte allows, and how many bytes its character has. *)
Definition second_ok (b : N) (x : N) : bool :=
  if b =? 224 then in_range 160 191 x
  else if b =? 237 then in_range 128 159 x
  else if b =? 240 then in_range 144 191 x
  else if b =? 244 then in_range 128 143 x
  else continuation x.

Definition width (b : N) : nat :=
  if in_range 194 223 b then 2
  else if in_range 224 239 b then 3
  else if in_range 240 244 b then 4
  else 0.

(** One character, or the length of the invalid piece in its place, as
    [core::str::Utf8Chunks] cuts it: up to the first byte that cannot follow. *)
Definition next_char (b : N) (rest : list N) : N + nat :=
  if b <? 128 then inl b
  else match width b, rest with
       | 2%nat, x :: _ => if continuation x then inl ((b - 192) * 64 + (x - 128)) else inr 1%nat
       | 3%nat, x :: rest =>
           if second_ok b x then
             match rest with
             | y :: _ => if continuation y then inl ((b - 224) * 4096 + (x - 128) * 64 + (y - 128)) else inr 2%nat
             | [] => inr 2%nat
             end
           else inr 1%nat
       | 4%nat, x :: rest =>
           if second_ok b x then
             match rest with
             | y :: rest =>
                 if continuation y then
                   match rest with
                   | z :: _ => if continuation z
                               then inl ((b - 240) * 262144 + (x - 128) * 4096 + (y - 128) * 64 + (z - 128)) else inr 3%nat
                   | [] => inr 3%nat
                   end
                 else inr 2%nat
             | [] => inr 2%nat
             end
           else inr 1%nat
       | _, _ => inr 1%nat
       end.

(** The characters and the invalid pieces of [b]; [skip] bytes are already used. *)
Fixpoint chunks (skip : nat) (b : list N) : list (option rchar) :=
  match b with
  | [] => []
  | x :: rest =>
      match skip with
      | S k => chunks k rest
      | O => match next_char x rest with
             | inl c => Some c :: chunks (len_utf8 c - 1) rest
             | inr n => None :: chunks (n - 1) rest
             end
      end
  end.

Definition REPLACEMENT : rchar := 65533.
Definition from_utf8_lossy (b : list N) : rstr := default REPLACEMENT <$> chunks 0 b.
Definition from_utf8 (b : list N) : option rstr := mapM (fun c => c) (chunks 0 b).

(** [str::as_bytes]. *)
Definition as_bytes (s : rstr) : list N := Z.to_N <$> bytes s.

(** ** Round trip *)

(** The Unicode scalar values: what a [char] can be. *)
Definition is_char (c : rchar) : Prop := c < 55296 \/ 57343 < c < 1114112.

Definition utf8_bytes (c : rchar) : list N := Z.to_N <$> utf8 c.

Lemma utf8_bytes_1 c : c < 128 -> utf8_bytes c = [c].
Proof. intros H. unfold utf8_bytes. rewrite utf8_ascii by done. simpl. f_equal. lia. Qed.

Lemma utf8_bytes_2 c : 128 <= c < 2048 -> utf8_bytes c = [192 + c / 64; 128 + c mod 64].
Proof.
  intros H. unfold utf8_bytes, utf8. rewrite (proj2 (Z.ltb_ge _ _)), (proj2 (Z.ltb_lt _ _)) by lia. simpl.
  repeat f_equal; zify; Z.to_euclidean_division_equations; lia.
Qed.

Lemma utf8_bytes_3 c : 2048 <= c < 65536 -> utf8_bytes c = [224 + c / 4096; 128 + c / 64 mod 64; 128 + c mod 64].
Proof.
  intros H. unfold utf8_bytes, utf8. rewrite !(proj2 (Z.ltb_ge _ _)), (proj2 (Z.ltb_lt _ _)) by lia. simpl.
  repeat f_equal; zify; Z.to_euclidean_division_equations; lia.
Qed.

Lemma utf8_bytes_4 c : 65536 <= c -> utf8_bytes c = [240 + c / 262144; 128 + c / 4096 mod 64; 128 + c / 64 mod 64; 128 + c mod 64].
Proof.
  intros H. unfold utf8_bytes, utf8. rewrite !(proj2 (Z.ltb_ge _ _)) by lia. simpl.
  repeat f_equal; zify; Z.to_euclidean_division_equations; lia.
Qed.

Lemma in_range_true lo hi x : lo <= x <= hi -> in_range lo hi x = true.
Proof. intros H. unfold in_range. by rewrite !(proj2 (N.leb_le _ _)) by lia. Qed.

Lemma in_range_false lo hi x : x < lo \/ hi < x -> in_range lo hi x = false.
Proof. intros H. unfold in_range. destruct (lo <=? x) eqn:E1, (x <=? hi) eqn:E2; bool_to_prop; auto; lia. Qed.

Ltac div_mod := zify; Z.to_euclidean_division_equations; lia.

Lemma next_char_utf8 c rest : is_char c ->
  exists b t, utf8_bytes c = b :: t /\ next_char b (t ++ rest) = inl c /\ length t = (len_utf8 c - 1)%nat.
Proof.
  intros Hc. unfold len_utf8, next_char, is_char in *.
  destruct (c <? 128) eqn:E1; [|destruct (c <? 2048) eqn:E2; [|destruct (c <? 65536) eqn:E3]]; bool_to_prop.
  - rewrite utf8_bytes_1 by done. eexists _, _. split; [done|]. by rewrite (proj2 (N.ltb_lt _ _)).
  - rewrite utf8_bytes_2 by done. eexists _, _. split; [done|]. rewrite (proj2 (N.ltb_ge _ _)) by div_mod. unfold width, continuation.
    rewrite in_range_true by div_mod. simpl. rewrite in_range_true by div_mod. split; [f_equal; div_mod|done].
  - rewrite utf8_bytes_3 by done. eexists _, _. split; [done|]. rewrite (proj2 (N.ltb_ge _ _)) by div_mod. unfold width, continuation.
    rewrite in_range_false, in_range_true by div_mod. cbn [app].
    assert (second_ok (224 + c / 4096) (128 + c / 64 mod 64) = true) as ->.
    { unfold second_ok, continuation. repeat case_if; bool_to_prop; apply in_range_true; div_mod. }
    rewrite in_range_true by div_mod. split; [f_equal; div_mod|done].
  - rewrite utf8_bytes_4 by done. eexists _, _. split; [done|]. rewrite (proj2 (N.ltb_ge _ _)) by div_mod. unfold width, continuation.
    rewrite !in_range_false, in_range_true by div_mod. cbn [app].
    assert (second_ok (240 + c / 262144) (128 + c / 4096 mod 64) = true) as ->.
    { unfold second_ok, continuation. repeat case_if; bool_to_prop; apply in_range_true; div_mod. }
    rewrite !in_range_true by div_mod. split; [f_equal; div_mod|done].
Qed.

Lemma chunks_skip t rest : chunks (length t) (t ++ rest) = chunks 0 rest.
Proof. induction t as [|x t IH]; [done|]. exact IH. Qed.

Lemma chunks_utf8 s : Forall is_char s -> chunks 0 (as_bytes s) = Some <$> s.
Proof.
  induction 1 as [|c s Hc Hs IH]; [done|]. unfold as_bytes in *. rewrite bytes_cons, fmap_app.
  destruct (next_char_utf8 c (Z.to_N <$> bytes s) Hc) as (b & t & E & Hn & Hl). unfold utf8_bytes in E. rewrite E. cbn [app chunks].
  rewrite Hn, <- Hl, chunks_skip, IH. done.
Qed.

(** Text read back from its own bytes. *)
Lemma from_utf8_bytes s : Forall is_char s -> from_utf8 (as_bytes s) = Some s.
Proof. intros H. unfold from_utf8. rewrite chunks_utf8 by done. apply mapM_Some, Forall2_fmap_l. clear H. by induction s; constructor. Qed.

Lemma lossy_of_valid b s : from_utf8 b = Some s -> from_utf8_lossy b = s.
Proof.
  unfold from_utf8, from_utf8_lossy. intros H%mapM_Some. induction H as [|x y l k Hxy Hl IH]; [done|]. csimpl. by rewrite Hxy, IH.
Qed.

(** ** Searching *)

Definition begins (pat s : rstr) : bool := bool_decide (pat `prefix_of` s).

(** [str::strip_prefix] with a string. *)
Definition strip_prefix_str (pat s : rstr) : option rstr := if begins pat s then Some (drop (length pat) s) else None.

(** [str::split_once] with a string. *)
Fixpoint split_once_str (pat s : rstr) : option (rstr * rstr) :=
  match strip_prefix_str pat s with
  | Some rest => Some ([], rest)
  | None => match s with [] => None | c :: s => (fun p => (c :: p.1, p.2)) <$> split_once_str pat s end
  end.

(** The suffixes of [s] at the matches of [pat], which do not overlap. *)
Fixpoint matches_at (pat : rstr) (skip : nat) (s : rstr) : list rstr :=
  match s with
  | [] => []
  | c :: s' =>
      match skip with
      | S k => matches_at pat k s'
      | O => if begins pat s then s :: matches_at pat (length pat - 1) s' else matches_at pat 0 s'
      end
  end.

Definition contains_str (pat s : rstr) : bool := is_empty pat || negb (is_empty (matches_at pat 0 s)).

(** [str::ends_with] with a string. *)
Definition ends (pat s : rstr) : bool := bool_decide (pat `suffix_of` s).

(** [str::replace]. *)
Fixpoint replace_from (pat rep : rstr) (skip : nat) (s : rstr) : rstr :=
  match s with
  | [] => []
  | c :: s' =>
      match skip with
      | S k => replace_from pat rep k s'
      | O => if begins pat s then rep ++ replace_from pat rep (length pat - 1) s' else c :: replace_from pat rep 0 s'
      end
  end.

Definition replace (pat rep s : rstr) : rstr := replace_from pat rep 0 s.

(** [str::lines]: without the line feed and one carriage return before it. *)
Definition line_body (seg : rstr) : rstr :=
  match strip_suffix LF seg with
  | Some body => default body (strip_suffix CR body)
  | None => seg
  end.
Definition lines (s : rstr) : list rstr := line_body <$> split_inclusive s.

(** The longest prefix of at most [n] bytes that ends at a character. *)
Fixpoint take_bytes (n : nat) (s : rstr) : rstr :=
  match s with
  | [] => []
  | c :: s => if (len_utf8 c <=? n)%nat then c :: take_bytes (n - len_utf8 c) s else []
  end.
