(* ===== verification/Tokens.v ===== *)
(** * API tokens: [crates/detent-web/src/auth/token.rs]

    The token store over [CredFile.v]. A token is 32 random bytes shown once;
    the file holds its SHA-256. *)

From Stdlib Require Import ZArith.
From stdpp Require Import gmap.
From S2P Require Import Prelude Stateful Str Num Ip Utf8 AuthErr Time CredFile Session.

(** ** Data *)

Definition TOKENS_VERSION : Z := 1.
Definition MAX_TOKENS : nat := 64.
Definition MAX_LABEL_LEN : nat := 64.
Definition ID_BYTES : nat := 8.

Definition is_ascii_graphic (c : rchar) : bool := ((33 <=? c) && (c <=? 126))%N.

Definition label_is_valid (label : rstr) : bool :=
  negb (is_empty label) && (str_len label <=? MAX_LABEL_LEN) && forallb (fun c => is_ascii_graphic c || (c =? SPACE)%N) label.

Record TokenRecord := mkToken {
  tr_id : rstr; tr_label : rstr; tr_digest : rstr; tr_scope : Scope; tr_created : rstr; tr_expires_at : option Z;
}.

Record TokenView := mkTokenView {
  tv_id : rstr; tv_label : rstr; tv_scopes : list rstr; tv_created : rstr; tv_expires_at : option Z;
}.

Record TokenIdentity := mkIdentity { ti_id : rstr; ti_label : rstr; ti_scopes : Scopes }.

Record TokensFile := mkTokensFile { tf_version : Z; tf_tokens : list TokenRecord }.

(** [secret::hex]. *)
Definition hex (bytes : list N) : rstr :=
  concat ((fun b => [digit_char (Z.of_N b / 16); digit_char (Z.of_N b mod 16)]) <$> bytes).

Definition token_view (r : TokenRecord) : TokenView :=
  mkTokenView (tr_id r) (tr_label r) (scope_names (scopes_of (tr_scope r))) (tr_created r) (tr_expires_at r).

Definition token_identity (r : TokenRecord) : TokenIdentity := mkIdentity (tr_id r) (tr_label r) (scopes_of (tr_scope r)).

(** [record.expires_at.is_some_and(|deadline| now_unix >= deadline)]. *)
Definition token_expired (now_unix : Z) (r : TokenRecord) : bool :=
  match tr_expires_at r with Some deadline => (deadline <=? now_unix)%Z | None => false end.

(** ** The store *)

Section Tokens.
Variable host : Host.
(** [<state_root>/state/tokens.json], as the errors name it. *)
Variable path : rstr.
(** [serde_json] on the envelope, and SHA-256. *)
Variable from_slice : rbytes -> option TokensFile.
Variable to_vec : TokensFile -> option rbytes.
Variable sha256 : rbytes -> list N.

Definition digest_of (token : rstr) : rstr := hex (sha256 (as_bytes token)).

Definition decode (raw : rbytes) : result AuthError (list TokenRecord) :=
  match from_slice raw with
  | None => Err (StoreMalformed path)
  | Some f =>
      if negb (tf_version f =? TOKENS_VERSION)%Z then Err (StoreMalformed path)
      else if forallb (fun r => label_is_valid (tr_label r)) (tf_tokens f) then Ok (tf_tokens f)
      else Err (StoreMalformed path)
  end.

Definition encode (tokens : list TokenRecord) : result AuthError rbytes :=
  match to_vec (mkTokensFile TOKENS_VERSION tokens) with
  | Some encoded => Ok (encoded ++ [LF])
  | None => Err (StoreMalformed path)
  end.

Abbreviation TokenStore := (Store TokenRecord ()).
Abbreviation TM := (SE TokenStore AuthError).

Definition token_link (before now : list TokenRecord) (x : ()) : () := x.

Definition load_tokens : TM () := load host path decode.
Definition refresh_tokens : TM () := refresh host path decode token_link (StoreRead path).
Definition mutate_tokens (change : list TokenRecord -> result AuthError (list TokenRecord)) : TM () :=
  mutate host path decode encode token_link UnknownToken change.

Definition list_tokens : TM (list TokenView) := tokens ← snapshot; mret (token_view <$> tokens).

(** [issue]. The two random draws and the clock are arguments: 32 bytes for the
    token and [ID_BYTES] for the id, or none when the system refuses. *)
Definition issue (label : rstr) (scope : Scope) (expires_at : option Z)
    (random : option rbytes) (random_id : option rbytes) (now : rstr) : TM (rstr * TokenView) :=
  if negb (label_is_valid label)
  then throw (NameInvalid (take MAX_LABEL_LEN (filter (fun c => is_ascii_graphic c || (c =? SPACE)%N = true) label)))
  else
    secret ← give (match random with Some b => Ok (hex b) | None => Err Entropy end);
    id ← give (match random_id with Some b => Ok (hex b) | None => Err Entropy end);
    let record := mkToken id label (digest_of secret) scope now expires_at in
    _ ← mutate_tokens (fun tokens => if (MAX_TOKENS <=? length tokens)%nat then Err TokenLimit else Ok (tokens ++ [record]));
    mret (secret, token_view record).

(** The loop of [authenticate]: the last record that matches. *)
Definition matched (wanted : rstr) (tokens : list TokenRecord) : option TokenRecord :=
  foldl (fun m r => if ct_eq (tr_digest r) wanted then Some r else m) None tokens.

Definition authenticate (presented : rstr) (now_unix : Z) : TM TokenIdentity :=
  _ ← refresh_tokens;
  tokens ← snapshot;
  match matched (digest_of presented) tokens with
  | None => throw UnknownToken
  | Some r => if token_expired now_unix r then throw UnknownToken else mret (token_identity r)
  end.

Definition sweep_expired (now_unix : Z) : TM nat :=
  _ ← refresh_tokens;
  tokens ← snapshot;
  if negb (existsb (token_expired now_unix) tokens) then mret 0
  else
    before ← snapshot;
    _ ← mutate_tokens (fun tokens => Ok (filter (fun r => token_expired now_unix r = false) tokens));
    later ← snapshot;
    mret (length before - length later).

Definition revoke (id : rstr) : TM () :=
  mutate_tokens (fun tokens =>
    let kept := filter (fun r => tr_id r <> id) tokens in
    if (length kept =? length tokens)%nat then Err UnknownToken else Ok kept).

(** ** Runs *)

Inductive Step :=
| TForeign (f : option StoredFile)
| TRefresh
| TIssue (label : rstr) (scope : Scope) (expires_at : option Z) (random random_id : option rbytes) (now : rstr)
| TAuthenticate (presented : rstr) (now_unix : Z)
| TSweep (now_unix : Z)
| TRevoke (id : rstr).

Definition step (s : TokenStore) (op : Step) : TokenStore :=
  match op with
  | TForeign f => foreign f s
  | TRefresh => (refresh_tokens s).2
  | TIssue label scope expires_at random random_id now => (issue label scope expires_at random random_id now s).2
  | TAuthenticate presented now_unix => (authenticate presented now_unix s).2
  | TSweep now_unix => (sweep_expired now_unix s).2
  | TRevoke id => (revoke id s).2
  end.

Definition run (s : TokenStore) (ops : list Step) : TokenStore := foldl step s ops.

End Tokens.

(** ** What the store promises *)

(** The answer the records on file give to a token. *)
Definition answer (sha256 : rbytes -> list N) (tokens : list TokenRecord) (presented : rstr) (now_unix : Z)
    : result AuthError TokenIdentity :=
  match last (filter (fun r => tr_digest r = digest_of sha256 presented) tokens) with
  | Some r => if token_expired now_unix r then Err UnknownToken else Ok (token_identity r)
  | None => Err UnknownToken
  end.

Section Promises.
Variable host : Host.
Variable path : rstr.
Variable from_slice : rbytes -> option TokensFile.
Variable to_vec : TokensFile -> option rbytes.
Variable sha256 : rbytes -> list N.
Variable content_of : Fingerprint -> rbytes.

(** What the store relies on: fingerprints that tell files apart, no other
    process between two calls of one operation, metadata for a file just
    written, and [serde_json] reading back what it wrote. *)
Record sound_host : Prop := {
  sh_stamp : forall n b, content_of (stamp host n b) = b;
  sh_quiet : forall n, meddle host n = None;
  sh_stat : forall n, write_outcome host n = Written -> stat_fails host (S n) = false;
  sh_serde : forall f b, to_vec f = Some b -> from_slice (b ++ [LF]) = Some f;
}.

Definition labels_valid (tokens : list TokenRecord) : Prop := Forall (fun r => label_is_valid (tr_label r) = true) tokens.

Lemma matched_last wanted tokens : matched wanted tokens = last (filter (fun r => tr_digest r = wanted) tokens).
Proof.
  unfold matched. induction tokens as [|r tokens IH] using rev_ind; [done|].
  rewrite foldl_snoc, filter_app, IH, filter_cons, filter_nil.
  destruct (decide (tr_digest r = wanted)) as [E|E].
  - rewrite (proj2 (ct_eq_true _ _) E). by rewrite last_snoc.
  - rewrite (proj2 (ct_eq_false _ _) E). by rewrite app_nil_r.
Qed.

Lemma decode_labels b l : decode path from_slice b = Ok l -> labels_valid l.
Proof.
  unfold decode. destruct (from_slice b) as [f|]; [|done]. destruct (negb _); [done|].
  destruct (forallb _ _) eqn:E; [|done]. intros [= <-]. apply Forall_forall. intros r Hr%list_elem_of_In.
  rewrite forallb_forall in E. by apply E.
Qed.

Context (Hsound : sound_host).

Lemma encode_decode_tokens l b : labels_valid l -> encode path to_vec l = Ok b -> decode path from_slice b = Ok l.
Proof.
  unfold encode, decode. destruct (to_vec _) as [v|] eqn:Ev; [|done]. intros Hl [= <-].
  rewrite (sh_serde Hsound _ _ Ev). cbn [tf_version tf_tokens negb Z.eqb TOKENS_VERSION Pos.eqb].
  rewrite (proj2 (forallb_forall _ l)); [done|]. intros r Hr%list_elem_of_In. unfold labels_valid in Hl. rewrite Forall_forall in Hl. by apply Hl.
Qed.

Abbreviation store := (Store TokenRecord ()).
Abbreviation follows := (CredFile.follows (decode path from_slice) content_of).
Abbreviation on_file := (CredFile.on_file (decode path from_slice)).
Abbreviation changed := (CredFile.changed (decode path from_slice)).
Abbreviation read_error := (CredFile.read_error host path (decode path from_slice)).

Lemma tokens_refresh_spec (s : store) :
  follows s ->
  let '(r, s') := refresh_tokens host path from_slice s in
  follows s' /\ file s' = file s /\
  match r with
  | Ok _ => exists i', inner s' = Some i' /\ on_file s = Ok (records i')
  | Err e => read_error s e
  end.
Proof.
  intros Hf. pose proof (refresh_spec host path (decode path from_slice) token_link (StoreRead path) content_of (sh_quiet Hsound)
    labels_valid (Forall_nil_2 _) decode_labels (fun _ _ _ => eq_refl) s Hf) as H.
  unfold refresh_tokens. destruct (refresh _ _ _ _ _ s) as [[[]|e] s']; naive_solver.
Qed.

Lemma tokens_mutate_spec change (s : store) :
  follows s -> (forall l l', labels_valid l -> change l = Ok l' -> labels_valid l') ->
  let '(r, s') := mutate_tokens host path from_slice to_vec change s in
  follows s' /\
  match r with
  | Ok _ => changed change s s' /\ exists i', inner s' = Some i' /\ on_file s' = Ok (records i')
  | Err e => file s' = file s \/ changed change s s'
  end.
Proof.
  intros Hf Hch. pose proof (mutate_spec host path (decode path from_slice) (encode path to_vec) token_link UnknownToken content_of
    (sh_stamp Hsound) (sh_quiet Hsound) (sh_stat Hsound) labels_valid (Forall_nil_2 _) decode_labels encode_decode_tokens
    (fun _ _ _ => eq_refl) change s Hf Hch) as H.
  unfold mutate_tokens. destruct (mutate _ _ _ _ _ _ change s) as [[[]|e] s']; unfold CredFile.changed; naive_solver.
Qed.

Lemma authenticate_spec presented now_unix (s : store) :
  follows s ->
  let '(r, s') := authenticate host path from_slice sha256 presented now_unix s in
  follows s' /\ file s' = file s
  /\ ((exists tokens, on_file s = Ok tokens /\ r = answer sha256 tokens presented now_unix)
      \/ exists e, r = Err e /\ read_error s e).
Proof.
  intros Hf. pose proof (tokens_refresh_spec s Hf) as H. unfold authenticate, mbind, SE_bind, after.
  destruct (refresh_tokens _ _ _ s) as [[[]|e] s1].
  - destruct H as (Hf1 & E1 & i & Hi & Ho). unfold snapshot, reading. rewrite Hi.
    rewrite matched_last. unfold answer.
    assert (forall r : result AuthError TokenIdentity, r = match last (filter (fun r => tr_digest r = digest_of sha256 presented) (records i)) with
        | Some r => if token_expired now_unix r then Err UnknownToken else Ok (token_identity r) | None => Err UnknownToken end ->
      follows s1 /\ file s1 = file s /\ ((exists tokens, on_file s = Ok tokens /\ r = answer sha256 tokens presented now_unix)
      \/ exists e, r = Err e /\ read_error s e)) as Hr by eauto 8.
    destruct (last _); [|by apply Hr]. unfold mret, SE_ret, throw. destruct (token_expired _ _); by apply Hr.
  - destruct H as (Hf1 & E1 & He). unfold throw. eauto 8.
Qed.

Definition new_token (label : rstr) (scope : Scope) (expires_at : option Z) (secret id : rbytes) (now : rstr) : TokenRecord :=
  mkToken (hex id) label (digest_of sha256 (hex secret)) scope now expires_at.

Lemma issue_spec label scope expires_at random random_id now (s : store) :
  follows s ->
  let '(r, s') := issue host path from_slice to_vec sha256 label scope expires_at random random_id now s in
  follows s' /\
  match r with
  | Ok (secret, view) => exists b id tokens, random = Some b /\ random_id = Some id /\ secret = hex b
      /\ on_file s = Ok tokens /\ length tokens < MAX_TOKENS
      /\ on_file s' = Ok (tokens ++ [new_token label scope expires_at b id now])
      /\ view = token_view (new_token label scope expires_at b id now)
  | Err _ => file s' = file s \/ exists b id tokens, random = Some b /\ random_id = Some id
      /\ on_file s = Ok tokens /\ length tokens < MAX_TOKENS
      /\ on_file s' = Ok (tokens ++ [new_token label scope expires_at b id now])
  end.
Proof.
  intros Hf. unfold issue, mbind, SE_bind, after, give. destruct (label_is_valid label) eqn:El; cbn [negb]; [|unfold throw; auto].
  destruct random as [b|]; [|unfold throw; auto]. destruct random_id as [id|]; [|unfold throw; auto].
  set (change := fun tokens => if (MAX_TOKENS <=? length tokens)%nat then _ else _).
  assert (Hc : forall l l', change l = Ok l' -> length l < MAX_TOKENS /\ l' = l ++ [new_token label scope expires_at b id now]).
  { intros l l'. unfold change. destruct (Nat.leb_spec MAX_TOKENS (length l)); [done|]. by intros [= <-]. }
  pose proof (tokens_mutate_spec change s Hf) as H.
  destruct (mutate_tokens _ _ _ _ change s) as [[[]|e] s1].
  - destruct H as (Hf1 & (l & l' & Ho & Hl & Ho') & _).
    { intros l l' Hv [_ ->]%Hc. apply Forall_app. split; [done|]. by apply Forall_singleton. }
    apply Hc in Hl as [Hlt ->]. unfold mret, SE_ret. split; [done|]. exists b, id, l. by split_and!.
  - destruct H as (Hf1 & [?|(l & l' & Ho & Hl & Ho')]); [|unfold throw; auto|].
    { intros l l' Hv [_ ->]%Hc. apply Forall_app. split; [done|]. by apply Forall_singleton. }
    apply Hc in Hl as [Hlt ->]. unfold throw. split; [done|]. right. exists b, id, l. by split_and!.
Qed.

Lemma filter_labels (P : TokenRecord -> Prop) `{!forall x, Decision (P x)} l : labels_valid l -> labels_valid (filter P l).
Proof. unfold labels_valid. rewrite !Forall_forall. intros Hl x [_ Hx]%list_elem_of_filter. by apply Hl. Qed.

Lemma filter_same_length {A} (P : A -> Prop) `{!forall x, Decision (P x)} (l : list A) :
  length (filter P l) = length l <-> Forall P l.
Proof.
  induction l as [|x l IH]; [done|]. rewrite filter_cons, Forall_cons. destruct (decide (P x)); simpl.
  - rewrite <- IH. naive_solver lia.
  - pose proof (length_filter P l). split; [lia|naive_solver].
Qed.

Lemma revoke_spec id (s : store) :
  follows s ->
  let '(r, s') := revoke host path from_slice to_vec id s in
  follows s' /\
  match r with
  | Ok _ => exists tokens, on_file s = Ok tokens /\ (exists x, x ∈ tokens /\ tr_id x = id)
      /\ on_file s' = Ok (filter (fun x => tr_id x <> id) tokens)
  | Err _ => file s' = file s \/ exists tokens, on_file s = Ok tokens /\ on_file s' = Ok (filter (fun x => tr_id x <> id) tokens)
  end.
Proof.
  intros Hf. unfold revoke. set (change := fun tokens => _).
  assert (Hc : forall l l', change l = Ok l' -> (exists x, x ∈ l /\ tr_id x = id) /\ l' = filter (fun x => tr_id x <> id) l).
  { intros l l'. unfold change. cbv zeta. destruct (Nat.eqb_spec (length (filter (fun x => tr_id x <> id) l)) (length l)) as [|Hn]; [done|].
    intros [= <-]. split; [|done]. rewrite filter_same_length in Hn.
    apply not_Forall_Exists in Hn; [|apply _]. apply list.Exists_exists in Hn as (x & Hx & Hi). exists x. split; [done|]. by apply dec_stable. }
  pose proof (tokens_mutate_spec change s Hf) as H.
  destruct (mutate_tokens _ _ _ _ change s) as [[[]|e] s1].
  - destruct H as (Hf1 & (l & l' & Ho & Hl & Ho') & _); [by intros l l' Hv [_ ->]%Hc; apply filter_labels|].
    apply Hc in Hl as [Hx ->]. eauto 8.
  - destruct H as (Hf1 & [?|(l & l' & Ho & Hl & Ho')]); [by intros l l' Hv [_ ->]%Hc; apply filter_labels|auto|].
    apply Hc in Hl as [_ ->]. eauto 8.
Qed.

Lemma sweep_spec now_unix (s : store) :
  follows s ->
  let '(r, s') := sweep_expired host path from_slice to_vec now_unix s in
  let alive := filter (fun x => token_expired now_unix x = false) in
  follows s' /\
  match r with
  | Ok k => exists tokens, on_file s = Ok tokens /\ on_file s' = Ok (alive tokens) /\ k = length tokens - length (alive tokens)
  | Err _ => file s' = file s \/ exists tokens, on_file s = Ok tokens /\ on_file s' = Ok (alive tokens)
  end.
Proof.
  intros Hf. pose proof (tokens_refresh_spec s Hf) as H. unfold sweep_expired, mbind, SE_bind, after, snapshot, reading.
  destruct (refresh_tokens _ _ _ s) as [[[]|e] s1]; [|unfold throw; naive_solver].
  destruct H as (Hf1 & E1 & i & Hi & Ho). rewrite Hi.
  assert (on_file s1 = Ok (records i)) as Ho1 by (unfold CredFile.on_file; by rewrite E1).
  destruct (existsb (token_expired now_unix) (records i)) eqn:Ex; cbn [negb].
  - set (change := fun tokens => Ok _). pose proof (tokens_mutate_spec change s1 Hf1) as H.
    destruct (mutate_tokens _ _ _ _ change s1) as [[[]|e] s2].
    + destruct H as (Hf2 & (l & l' & Hl & Hc & Hl') & i' & Hi' & Hoi'); [by intros l l' Hv [= <-]; apply filter_labels|].
      injection Hc as <-. rewrite Ho1 in Hl. injection Hl as <-. rewrite Hl' in Hoi'. injection Hoi' as E. rewrite Hi, Hi'.
      unfold mret, SE_ret. split; [done|]. exists (records i). split_and!; [done|done|by rewrite E].
    + destruct H as (Hf2 & [E2|(l & l' & Hl & Hc & Hl')]); [by intros l l' Hv [= <-]; apply filter_labels|unfold throw; rewrite E2; auto|].
      injection Hc as <-. rewrite Ho1 in Hl. injection Hl as <-. unfold throw. eauto 6.
  - unfold mret, SE_ret. split; [done|]. exists (records i).
    assert (filter (fun x => token_expired now_unix x = false) (records i) = records i) as ->; [|by rewrite Nat.sub_diag].
    clear -Ex. induction (records i) as [|x l IH]; [done|]. cbn [existsb] in Ex.
    apply orb_false_iff in Ex as [Ex El]. rewrite filter_cons, decide_True by done. by rewrite IH.
Qed.

Lemma step_follows s op :
  follows s -> (forall f, op = TForeign f -> honest content_of f) ->
  follows (step host path from_slice to_vec sha256 s op).
Proof.
  intros Hf Hop. destruct op as [f| |label scope expires_at random random_id now|presented now_unix|now_unix|id]; simpl.
  - apply foreign_follows; [by apply Hop|done].
  - pose proof (tokens_refresh_spec s Hf) as H. by destruct (refresh_tokens _ _ _ s); destruct H.
  - pose proof (issue_spec label scope expires_at random random_id now s Hf) as H. by destruct (issue _ _ _ _ _ _ _ _ _ _ _ s); destruct H.
  - pose proof (authenticate_spec presented now_unix s Hf) as H. by destruct (authenticate _ _ _ _ _ _ s); destruct H.
  - pose proof (sweep_spec now_unix s Hf) as H. by destruct (sweep_expired _ _ _ _ _ s); destruct H.
  - pose proof (revoke_spec id s Hf) as H. by destruct (revoke _ _ _ _ _ s); destruct H.
Qed.

Lemma run_follows ops : forall s,
  follows s -> (forall f, TForeign f ∈ ops -> honest content_of f) ->
  follows (run host path from_slice to_vec sha256 s ops).
Proof.
  induction ops as [|op ops IH]; intros s Hf Hop; [done|]. cbn [run foldl]. apply IH.
  - apply step_follows; [done|]. intros f ->. apply Hop. by left.
  - intros f Hin. apply Hop. by right.
Qed.

Lemma loaded_follows s0 s :
  honest content_of (file s0) -> load_tokens host path from_slice s0 = (Ok (), s) -> follows s.
Proof.
  intros Hh Hl. pose proof (load_spec host path (decode path from_slice) content_of (sh_quiet Hsound) s0 Hh) as H.
  unfold load_tokens in Hl. rewrite Hl in H. by destruct H as (_ & H & _).
Qed.

(** No operation of this process but [issue] adds a record. *)
Lemma step_records s op tokens :
  follows s -> on_file s = Ok tokens -> (forall f, op <> TForeign f) ->
  exists tokens', on_file (step host path from_slice to_vec sha256 s op) = Ok tokens' /\
    forall x, x ∈ tokens' -> x ∈ tokens \/
      exists label scope expires_at random id now, op = TIssue label scope expires_at random (Some id) now /\ tr_id x = hex id.
Proof.
  intros Hf Ho Hop.
  assert (Hkeep : forall s' : store, file s' = file s -> exists tokens', on_file s' = Ok tokens' /\
    forall x, x ∈ tokens' -> x ∈ tokens \/
      exists label scope expires_at random id now, op = TIssue label scope expires_at random (Some id) now /\ tr_id x = hex id).
  { intros s' E. exists tokens. unfold CredFile.on_file in *. rewrite E. auto. }
  destruct op as [f| |label scope expires_at random random_id now|presented now_unix|now_unix|id]; simpl.
  - by destruct (Hop f).
  - pose proof (tokens_refresh_spec s Hf) as H. destruct (refresh_tokens _ _ _ s). destruct H as (_ & E & _). by apply Hkeep.
  - pose proof (issue_spec label scope expires_at random random_id now s Hf) as H.
    assert (Hadd : forall (s' : store) b id l, random_id = Some id -> on_file s = Ok l ->
      on_file s' = Ok (l ++ [new_token label scope expires_at b id now]) ->
      exists tokens', on_file s' = Ok tokens' /\ forall x, x ∈ tokens' -> x ∈ tokens \/
        exists label' scope' expires' random' id' now', TIssue label scope expires_at random random_id now
          = TIssue label' scope' expires' random' (Some id') now' /\ tr_id x = hex id').
    { intros s' b id l -> Hl Hl'. rewrite Ho in Hl. injection Hl as <-. eexists. split; [done|].
      intros x [?| ->%list_elem_of_singleton]%elem_of_app; [by left|]. right. by repeat eexists. }
    destruct (issue _ _ _ _ _ _ _ _ _ _ _ s) as [[[secret view]|e] s']; destruct H as [_ H].
    + destruct H as (b & id & l & _ & ? & _ & ? & _ & ? & _). eauto.
    + destruct H as [?|(b & id & l & _ & ? & ? & _ & ?)]; eauto.
  - pose proof (authenticate_spec presented now_unix s Hf) as H. destruct (authenticate _ _ _ _ _ _ s).
    destruct H as (_ & E & _). by apply Hkeep.
  - pose proof (sweep_spec now_unix s Hf) as H. destruct (sweep_expired _ _ _ _ _ s) as [[k|e] s']; destruct H as [_ H].
    + destruct H as (l & Hl & Hl' & _). rewrite Ho in Hl. injection Hl as <-. eexists. split; [done|].
      intros x [_ Hx]%list_elem_of_filter. auto.
    + destruct H as [?|(l & Hl & Hl')]; [by apply Hkeep|]. rewrite Ho in Hl. injection Hl as <-. eexists. split; [done|].
      intros x [_ Hx]%list_elem_of_filter. auto.
  - pose proof (revoke_spec id s Hf) as H. destruct (revoke _ _ _ _ _ s) as [[u|e] s']; destruct H as [_ H].
    + destruct H as (l & Hl & _ & Hl'). rewrite Ho in Hl. injection Hl as <-. eexists. split; [done|].
      intros x [_ Hx]%list_elem_of_filter. auto.
    + destruct H as [?|(l & Hl & Hl')]; [by apply Hkeep|]. rewrite Ho in Hl. injection Hl as <-. eexists. split; [done|].
      intros x [_ Hx]%list_elem_of_filter. auto.
Qed.

(** Nobody, in this process or another, gives the id [id] again. *)
Definition spares (id : rstr) (op : Step) : Prop :=
  match op with
  | TForeign f => honest content_of f
      /\ exists tokens, decoded (decode path from_slice) (contents <$> f) = Ok tokens /\ Forall (fun x => tr_id x <> id) tokens
  | TIssue _ _ _ _ (Some b) _ => hex b <> id
  | _ => True
  end.

Definition no_record (id : rstr) (s : store) : Prop := exists tokens, on_file s = Ok tokens /\ Forall (fun x => tr_id x <> id) tokens.

Lemma run_no_record id ops : forall s,
  follows s -> no_record id s -> Forall (spares id) ops ->
  follows (run host path from_slice to_vec sha256 s ops) /\ no_record id (run host path from_slice to_vec sha256 s ops).
Proof.
  induction ops as [|op ops IH]; intros s Hf Hn Hop; [done|]. inversion Hop as [|? ? Hsp Hops]; subst.
  cbn [run foldl]. apply IH; [|destruct Hn as (l & Hl & Hfa)|done].
  - apply step_follows; [done|]. intros f ->. apply Hsp.
  - assert ((exists f, op = TForeign f) \/ forall f, op <> TForeign f) as [[f ->]|Hnf]; [destruct op; eauto|by destruct Hsp|].
    destruct (step_records s op l Hf Hl) as (l' & Hl' & Hx); [done|]. exists l'. split; [done|].
    apply Forall_forall. intros x [Hin|(? & ? & ? & ? & b & ? & -> & ->)]%Hx; [|by simpl in Hsp].
    rewrite Forall_forall in Hfa. by apply Hfa.
Qed.

Lemma answer_in tokens presented now_unix identity :
  answer sha256 tokens presented now_unix = Ok identity ->
  exists r, r ∈ tokens /\ tr_digest r = digest_of sha256 presented /\ token_expired now_unix r = false /\ identity = token_identity r.
Proof.
  unfold answer. destruct (last _) as [r|] eqn:El; [|done]. destruct (token_expired now_unix r) eqn:Ee; [done|]. intros [= <-].
  apply last_Some_elem_of, list_elem_of_filter in El as [? ?]. eauto.
Qed.

Lemma answer_new tokens record presented now_unix :
  tr_digest record = digest_of sha256 presented ->
  answer sha256 (tokens ++ [record]) presented now_unix =
    if token_expired now_unix record then Err UnknownToken else Ok (token_identity record).
Proof. intros E. unfold answer. rewrite filter_app, filter_cons, decide_True by done. by rewrite filter_nil, last_snoc. Qed.

(** ** The theorems *)

(** C29: After any history of this process and of others, a request with a token is
    answered by the records then on file, the last match deciding, or by the
    failure to read them, and changes nothing. *)
Theorem token_authenticate_exact s0 s ops presented now_unix :
  honest content_of (file s0) -> load_tokens host path from_slice s0 = (Ok (), s) ->
  (forall f, TForeign f ∈ ops -> honest content_of f) ->
  let s1 := run host path from_slice to_vec sha256 s ops in
  let '(r, s2) := authenticate host path from_slice sha256 presented now_unix s1 in
  file s2 = file s1
  /\ ((exists tokens, on_file s1 = Ok tokens /\ r = answer sha256 tokens presented now_unix)
      \/ exists e, r = Err e /\ read_error s1 e)
  /\ forall identity, r = Ok identity -> exists tokens record, on_file s1 = Ok tokens /\ record ∈ tokens
      /\ tr_digest record = digest_of sha256 presented /\ token_expired now_unix record = false /\ identity = token_identity record.
Proof.
  intros Hh Hl Hops s1. assert (Hf1 : follows s1) by (apply run_follows; [by eapply loaded_follows|done]).
  pose proof (authenticate_spec presented now_unix s1 Hf1) as H. destruct (authenticate _ _ _ _ _ _ s1) as [r s2].
  destruct H as (_ & E & H). split_and!; [done|done|]. intros identity ->.
  destruct H as [(tokens & Ho & Ha)|(e & ? & _)]; [|done]. symmetry in Ha. apply answer_in in Ha as (x & ?). eauto.
Qed.

(** The life of a token. [issue] appends one record while there is room and its
    secret opens until its expiry; [revoke] removes the records with its id and
    no other; [sweep_expired] removes exactly the expired. No later request is
    answered with a revoked id as long as every file another process leaves
    decodes and has no record with that id ([spares]): a process that read the
    file before the revocation and writes it after puts the record back. *)
Theorem token_lifecycle (s : store) :
  follows s ->
  (forall label scope expires_at random random_id now secret view s1 now_unix,
    issue host path from_slice to_vec sha256 label scope expires_at random random_id now s = (Ok (secret, view), s1) ->
    exists tokens b id, on_file s = Ok tokens /\ length tokens < MAX_TOKENS /\ secret = hex b /\ view = token_view (new_token label scope expires_at b id now)
      /\ on_file s1 = Ok (tokens ++ [new_token label scope expires_at b id now])
      /\ ((forall n, stat_fails host n || read_fails host n = false) ->
          (authenticate host path from_slice sha256 secret now_unix s1).1 =
            if token_expired now_unix (new_token label scope expires_at b id now) then Err UnknownToken
            else Ok (mkIdentity (hex id) label (scopes_of scope))))
  /\ (forall id s1, revoke host path from_slice to_vec id s = (Ok (), s1) ->
    (exists tokens, on_file s = Ok tokens /\ on_file s1 = Ok (filter (fun x => tr_id x <> id) tokens))
    /\ forall ops presented now_unix identity, Forall (spares id) ops ->
      (authenticate host path from_slice sha256 presented now_unix (run host path from_slice to_vec sha256 s1 ops)).1 = Ok identity ->
      ti_id identity <> id)
  /\ (forall now_unix k s1, sweep_expired host path from_slice to_vec now_unix s = (Ok k, s1) ->
    exists tokens, let alive := filter (fun x => token_expired now_unix x = false) tokens in
      on_file s = Ok tokens /\ on_file s1 = Ok alive /\ k = length tokens - length alive).
Proof.
  intros Hf. split_and!.
  - intros label scope expires_at random random_id now secret view s1 now_unix Hi.
    pose proof (issue_spec label scope expires_at random random_id now s Hf) as H. rewrite Hi in H.
    destruct H as (Hf1 & b & id & tokens & -> & -> & -> & Ho & Hlt & Ho1 & ->). exists tokens, b, id. split_and!; [done..|].
    intros Hcalls. pose proof (authenticate_spec (hex b) now_unix s1 Hf1) as H.
    destruct (authenticate _ _ _ _ _ _ s1) as [r s2]. destruct H as (_ & _ & [(l & Hl & ->)|(e & _ & He)]).
    + rewrite Ho1 in Hl. injection Hl as <-. by rewrite answer_new.
    + destruct He as [[_ [n Hn]]|He]; [by rewrite Hcalls in Hn|by rewrite Ho1 in He].
  - intros id s1 Hr. pose proof (revoke_spec id s Hf) as H. rewrite Hr in H. destruct H as (Hf1 & l & Hl0 & _ & Hl).
    split; [by exists l|]. intros ops presented now_unix identity Hops Ha.
    destruct (run_no_record id ops s1 Hf1) as [Hf2 (l2 & Hl2 & Hno)]; [|done|].
    { eexists. split; [done|]. apply Forall_forall. by intros x [? _]%list_elem_of_filter. }
    pose proof (authenticate_spec presented now_unix _ Hf2) as H.
    destruct (authenticate _ _ _ _ _ _ _) as [r s2]. cbn [fst] in Ha. subst r.
    destruct H as (_ & _ & [(l' & Hl' & Hr')|(e & ? & _)]); [|done]. rewrite Hl2 in Hl'. injection Hl' as <-.
    symmetry in Hr'. apply answer_in in Hr' as (x & Hx & _ & _ & ->). rewrite Forall_forall in Hno. by apply Hno.
  - intros now_unix k s1 Hs. pose proof (sweep_spec now_unix s Hf) as H. rewrite Hs in H. destruct H as (_ & l & ? & ? & ->).
    by exists l.
Qed.

End Promises.

(** ** A store on a concrete host *)

#[export] Instance TokenScope_eq_dec : EqDecision Scope. Proof. solve_decision. Defined.
#[export] Instance TokenScope_countable : Countable Scope.
Proof. refine (inj_countable' (fun s => match s with Read => true | Write => false end) (fun b : bool => if b then Read else Write) _). by intros []. Defined.

#[export] Instance TokenRecord_eq_dec : EqDecision TokenRecord. Proof. solve_decision. Defined.
#[export] Instance TokenRecord_countable : Countable TokenRecord.
Proof.
  refine (inj_countable' (fun r => (tr_id r, tr_label r, tr_digest r, tr_scope r, tr_created r, tr_expires_at r))
    (fun x => let '(id, label, digest, scope, created, expires_at) := x in mkToken id label digest scope created expires_at) _).
  by intros [].
Defined.

Module TokenDemo.

Definition path : rstr := lit "tokens.json".
Definition host : Host := calm_host.
Definition content_of := calm_content.
Definition to_vec (f : TokensFile) : option rbytes := to_vec_with (fun f => (tf_version f, tf_tokens f)) f.
Definition from_slice (b : rbytes) : option TokensFile := from_slice_with (fun x => mkTokensFile x.1 x.2) b.
Definition sha256 (b : rbytes) : list N := 7%N :: b.

Lemma sound_tokens_demo : sound_host host from_slice to_vec content_of.
Proof.
  split; [apply calm_stamp|done..|]. intros f b. apply serde_with. by intros [].
Qed.

Definition empty : Store TokenRecord () := mkCred None 0 None ().
Definition start : Store TokenRecord () := (load_tokens host path from_slice empty).2.
Definition monitoring : Step := TIssue (lit "monitoring") Read (Some 100%Z) (Some [1%N]) (Some [2%N]) (lit "2026").
Definition backup : Step := TIssue (lit "backup") Write None (Some [3%N]) (Some [4%N]) (lit "2026").
Definition after (ops : list Step) : Store TokenRecord () := run host path from_slice to_vec sha256 start ops.
Definition ask (s : Store TokenRecord ()) (token : rstr) (now : Z) : result AuthError TokenIdentity :=
  (authenticate host path from_slice sha256 token now s).1.

Lemma run_nil s : run host path from_slice to_vec sha256 s [] = s.
Proof. reflexivity. Qed.

End TokenDemo.

Lemma token_authenticate_exact_witness :
  (TokenDemo.ask (TokenDemo.after [TokenDemo.monitoring; TokenDemo.backup]) (hex [3%N]) 500 = Ok (mkIdentity (hex [4%N]) (lit "backup") (scopes_of Write))
    /\ TokenDemo.ask (TokenDemo.after [TokenDemo.monitoring; TokenDemo.backup]) (hex [1%N]) 100 = Err UnknownToken
    /\ TokenDemo.ask (TokenDemo.after [TokenDemo.monitoring; TForeign None]) (hex [1%N]) 0 = Err UnknownToken)
  /\ let s1 := TokenDemo.after [TokenDemo.monitoring; TForeign None] in
     let '(r, s2) := authenticate TokenDemo.host TokenDemo.path TokenDemo.from_slice TokenDemo.sha256 (hex [1%N]) 0 s1 in
     file s2 = file s1
     /\ ((exists tokens, on_file (decode TokenDemo.path TokenDemo.from_slice) s1 = Ok tokens /\ r = answer TokenDemo.sha256 tokens (hex [1%N]) 0)
         \/ exists e, r = Err e /\ read_error TokenDemo.host TokenDemo.path (decode TokenDemo.path TokenDemo.from_slice) s1 e)
     /\ forall identity, r = Ok identity -> exists tokens record, on_file (decode TokenDemo.path TokenDemo.from_slice) s1 = Ok tokens /\ record ∈ tokens
      /\ tr_digest record = digest_of TokenDemo.sha256 (hex [1%N]) /\ token_expired 0 record = false /\ identity = token_identity record.
Proof.
  split; [vm_compute; repeat split; reflexivity|].
  apply (token_authenticate_exact TokenDemo.host TokenDemo.path TokenDemo.from_slice TokenDemo.to_vec TokenDemo.sha256
    TokenDemo.content_of TokenDemo.sound_tokens_demo TokenDemo.empty TokenDemo.start [TokenDemo.monitoring; TForeign None] (hex [1%N]) 0%Z); [done|done|].
  intros f [H|[H|[]]]%list_elem_of_In; [discriminate H|injection H as <-; done].
Defined.

Lemma token_lifecycle_witness :
  let s := TokenDemo.after [TokenDemo.monitoring; TokenDemo.backup] in
  let s1 := (revoke TokenDemo.host TokenDemo.path TokenDemo.from_slice TokenDemo.to_vec (hex [4%N]) s).2 in
  (TokenDemo.ask s (hex [3%N]) 500 = Ok (mkIdentity (hex [4%N]) (lit "backup") (scopes_of Write))
    /\ TokenDemo.ask s1 (hex [3%N]) 500 = Err UnknownToken
    /\ (sweep_expired TokenDemo.host TokenDemo.path TokenDemo.from_slice TokenDemo.to_vec 100 s).1 = Ok 1%nat)
  /\ forall identity, (authenticate TokenDemo.host TokenDemo.path TokenDemo.from_slice TokenDemo.sha256 (hex [1%N]) 0 s1).1 = Ok identity -> ti_id identity <> hex [4%N].
Proof.
  split; [vm_compute; repeat split; reflexivity|]. intros identity Hask.
  assert (Hf : follows (decode TokenDemo.path TokenDemo.from_slice) TokenDemo.content_of (TokenDemo.after [TokenDemo.monitoring; TokenDemo.backup])).
  { apply (run_follows _ _ _ _ _ _ TokenDemo.sound_tokens_demo).
    - by apply (loaded_follows _ _ _ _ _ TokenDemo.sound_tokens_demo TokenDemo.empty).
    - intros f [H|[H|[]]]%list_elem_of_In; discriminate H. }
  destruct (token_lifecycle TokenDemo.host TokenDemo.path TokenDemo.from_slice TokenDemo.to_vec TokenDemo.sha256
    TokenDemo.content_of TokenDemo.sound_tokens_demo _ Hf) as (_ & Hrev & _).
  assert (forall x, x = revoke TokenDemo.host TokenDemo.path TokenDemo.from_slice TokenDemo.to_vec (hex [4%N])
      (TokenDemo.after [TokenDemo.monitoring; TokenDemo.backup]) -> x.1 = Ok () -> ti_id identity <> hex [4%N]) as Hx.
  { intros x E Hx. destruct (Hrev (hex [4%N]) x.2) as [_ Hno]; [rewrite <- E; by apply pair_ok|].
    apply (Hno [] (hex [1%N]) 0%Z identity); [done|rewrite TokenDemo.run_nil, E; exact Hask]. }
  apply (Hx _ eq_refl). vm_compute. reflexivity.
Defined.

(** What [sh_quiet] excludes: another process revokes a token after [load] read
    the file and before it took the fingerprint. The records read are kept with
    the fingerprint of the later file, so the token is answered from then on. *)
Module TokenRace.

Definition written (s : Store TokenRecord ()) : option StoredFile := file s.
Definition before : option StoredFile := written (TokenDemo.after [TokenDemo.backup]).
Definition revoked : option StoredFile := written (TokenDemo.after [TokenDemo.backup; TRevoke (hex [4%N])]).
Definition host : Host := mkHost (fun n => if (n =? 1)%nat then Some revoked else None)
  (fun _ => false) (fun _ => false) (fun _ => Written) (stamp calm_host).
Definition loaded : Store TokenRecord () := (load_tokens host TokenDemo.path TokenDemo.from_slice (mkCred before 0 None ())).2.
Definition later (n : nat) : Store TokenRecord () :=
  run host TokenDemo.path TokenDemo.from_slice TokenDemo.to_vec TokenDemo.sha256 loaded (replicate n TRefresh).

Example load_race :
  on_file (decode TokenDemo.path TokenDemo.from_slice) (later 3) = Ok []
  /\ (authenticate host TokenDemo.path TokenDemo.from_slice TokenDemo.sha256 (hex [3%N]) 0 (later 3)).1
     = Ok (mkIdentity (hex [4%N]) (lit "backup") (scopes_of Write)).
Proof. vm_compute. by split. Qed.

End TokenRace.
