(* ===== verification/Users.v ===== *)
(** * Accounts: [crates/detent-web/src/auth/users.rs] and [auth/password.rs]

    The user store over [CredFile.v], with Argon2id as parameters. The store is
    linked to the table of browser sessions: when a re-read of the file finds
    other credentials, the sessions of those accounts end. *)

From Stdlib Require Import ZArith.
From stdpp Require Import gmap.
From S2P Require Import Prelude Stateful Str Num Utf8 AuthErr Time CredFile Totp Session.

(** ** Names and passwords *)

Definition USERS_VERSION : Z := 1.
Definition MAX_NAME_LEN : nat := 32.
Definition MIN_PASSWORD_CHARS : nat := 12.
Definition MAX_PASSWORD_CHARS : nat := 128.

Definition name_start (c : rchar) : bool := is_ascii_lowercase c || is_ascii_digit c.
Definition name_char (c : rchar) : bool := name_start c || bool_decide (c ∈ lit "._-").

Definition name_is_valid (name : rstr) : bool :=
  if is_empty name || (MAX_NAME_LEN <? str_len name) then false
  else if negb (from_option name_start false (head name)) then false
  else forallb name_char name.

Definition check_password (password : rstr) : result AuthError () :=
  if length password <? MIN_PASSWORD_CHARS then Err PasswordTooShort
  else if MAX_PASSWORD_CHARS <? length password then Err PasswordTooLong
  else Ok ().

(** [char::is_ascii] and not [char::is_control]. *)
Definition printable_ascii (c : rchar) : bool := ((32 <=? c) && (c <=? 126))%N.

Definition check_name (name : rstr) : result AuthError () :=
  if name_is_valid name then Ok ()
  else Err (NameInvalid (take MAX_NAME_LEN (filter (fun c => printable_ascii c = true) name))).

(** ** The hasher *)

(** A parsed PHC string: the fields [needs_rehash] reads. *)
Record Phc := mkPhc { algorithm : rstr; version : option Z; p_m : option Z; p_t : option Z; p_p : option Z }.

Record Hasher := mkHasher { dummy : rstr; cost : Z * Z * Z }.

Section Hashing.
(** Argon2id: the PHC string of a salt and a password at a cost, the test of a
    password against a PHC string, and the parser of one. *)
Variable hash_password : Z * Z * Z -> rbytes -> rbytes -> option rstr.
Variable verify_phc : rbytes -> rstr -> bool.
Variable parse_phc : rstr -> option Phc.

Definition needs_rehash (h : Hasher) (phc : rstr) : bool :=
  match parse_phc phc with
  | None => true
  | Some parsed =>
      let '(m_kib, t, p) := cost h in
      negb (bool_decide (algorithm parsed = lit "argon2id"))
      || negb (bool_decide (version parsed = Some 19%Z))
      || negb (bool_decide (p_m parsed = Some m_kib))
      || negb (bool_decide (p_t parsed = Some t))
      || negb (bool_decide (p_p parsed = Some p))
  end.

(** [hash] with the salt it draws. *)
Definition hash (h : Hasher) (salt : rbytes) (password : rstr) : result AuthError rstr :=
  match hash_password (cost h) salt (as_bytes password) with Some phc => Ok phc | None => Err Hash end.

Definition verify (password phc : rstr) : bool := verify_phc (as_bytes password) phc.

Definition verify_dummy (h : Hasher) (password : rstr) : bool := let _ := verify password (dummy h) in false.

(** ** Records *)

Record UserRecord := mkUser {
  u_name : rstr; u_phc : rstr; u_totp_secret : option rstr; u_totp_last_counter : option Z;
  u_must_change_password : bool; u_created : rstr; u_updated : rstr;
}.

Record UserView := mkUserView {
  uv_name : rstr; uv_totp_enrolled : bool; uv_must_change_password : bool; uv_created : rstr; uv_updated : rstr;
}.

Record VerifiedUser := mkVerified {
  v_name : rstr; v_totp : option TotpSecret; v_totp_last_counter : option Z; v_must_change_password : bool;
}.

Record UsersFile := mkUsersFile { uf_version : Z; uf_users : list UserRecord }.

Definition is_some {A} (o : option A) : bool := match o with Some _ => true | None => false end.

Definition user_view (r : UserRecord) : UserView :=
  mkUserView (u_name r) (is_some (u_totp_secret r)) (u_must_change_password r) (u_created r) (u_updated r).

Definition set_phc (phc : rstr) (r : UserRecord) : UserRecord :=
  mkUser (u_name r) phc (u_totp_secret r) (u_totp_last_counter r) (u_must_change_password r) (u_created r) (u_updated r).
Definition set_must_change (b : bool) (r : UserRecord) : UserRecord :=
  mkUser (u_name r) (u_phc r) (u_totp_secret r) (u_totp_last_counter r) b (u_created r) (u_updated r).
Definition set_secret (secret : option rstr) (counter : option Z) (r : UserRecord) : UserRecord :=
  mkUser (u_name r) (u_phc r) secret counter (u_must_change_password r) (u_created r) (u_updated r).
Definition set_updated (now : rstr) (r : UserRecord) : UserRecord :=
  mkUser (u_name r) (u_phc r) (u_totp_secret r) (u_totp_last_counter r) (u_must_change_password r) (u_created r) now.

(** [users.iter().find(|record| record.name == name)]. *)
Fixpoint find_user (name : rstr) (users : list UserRecord) : option UserRecord :=
  match users with [] => None | r :: rest => if bool_decide (u_name r = name) then Some r else find_user name rest end.

(** A change of the record [iter_mut().find] gives. *)
Fixpoint change_user (name : rstr) (change : UserRecord -> result AuthError UserRecord) (users : list UserRecord)
    : result AuthError (list UserRecord) :=
  match users with
  | [] => Err UnknownUser
  | r :: rest =>
      if bool_decide (u_name r = name) then (r ← change r; Ok (r :: rest))
      else (rest ← change_user name change rest; Ok (r :: rest))
  end.

(** ** Credentials and sessions *)

Definition Credentials := gmap rstr (rstr * option rstr).

Definition credentials (users : list UserRecord) : Credentials :=
  foldl (fun m r => <[u_name r := (u_phc r, u_totp_secret r)]> m) ∅ users.

(** The session table, and whether it is attached (and its lock sound). *)
Record Link := mkLink { attached : bool; table : SessionStore }.

Definition end_changed (after : Credentials) (st : SessionStore) (p : rstr * (rstr * option rstr)) : SessionStore :=
  match after !! p.1 with
  | None => revoke_subject st p.1
  | Some n => if bool_decide (n = p.2) then st else revoke_subject st p.1
  end.

Section Store.
Context `{!Iteration rstr (rstr * option rstr)}.
Variable host : Host.
(** [<state_root>/state/users.json], as the errors name it. *)
Variable path : rstr.
(** [serde_json] on the envelope. *)
Variable from_slice : rbytes -> option UsersFile.
Variable to_vec : UsersFile -> option rbytes.

(** What a re-read does with the records before and after it. *)
Definition end_sessions (before after : list UserRecord) (l : Link) : Link :=
  if attached l then mkLink true (foldl (end_changed (credentials after)) (table l) (iter (credentials before))) else l.

Fixpoint check_records (seen : gset rstr) (records : list UserRecord) : result AuthError () :=
  match records with
  | [] => Ok ()
  | r :: rest =>
      _ ← check_name (u_name r);
      if bool_decide (u_name r ∈ seen) then Err (StoreMalformed path) else check_records ({[u_name r]} ∪ seen) rest
  end.

Definition decode_users (raw : rbytes) : result AuthError (list UserRecord) :=
  match from_slice raw with
  | None => Err (StoreMalformed path)
  | Some f =>
      if negb (uf_version f =? USERS_VERSION)%Z then Err (StoreMalformed path)
      else (_ ← check_records ∅ (uf_users f); Ok (uf_users f))
  end.

Definition encode_users (users : list UserRecord) : result AuthError rbytes :=
  match to_vec (mkUsersFile USERS_VERSION users) with
  | Some encoded => Ok (encoded ++ [LF])
  | None => Err (StoreMalformed path)
  end.

Abbreviation UserStore := (Store UserRecord Link).
Abbreviation UM := (SE UserStore AuthError).

Definition load_users : UM () := load host path decode_users.
Definition refresh_users : UM () := refresh host path decode_users end_sessions Hash.
Definition mutate_users (change : list UserRecord -> result AuthError (list UserRecord)) : UM () :=
  mutate host path decode_users encode_users end_sessions Hash change.

Definition list_users : UM (list UserView) := users ← snapshot; mret (user_view <$> users).
Definition no_users : UM bool := users ← snapshot; mret (is_empty users).
Definition attach_sessions (sessions : SessionStore) : UM () :=
  updating (fun s => mkCred (file s) (calls s) (inner s) (mkLink true sessions)).

(** [update]. *)
Definition update_user (name : rstr) (change : UserRecord -> UserRecord) (now : rstr) : UM () :=
  mutate_users (change_user name (fun r => Ok (set_updated now (change r)))).

Definition created_user (name phc : rstr) (must_change_password : bool) (now : rstr) : UserRecord :=
  mkUser name phc None None must_change_password now now.

Definition create_user (h : Hasher) (salt : rbytes) (name password : rstr) (must_change_password : bool) (now : rstr) : UM () :=
  _ ← give (check_name name);
  phc ← give (hash h salt password);
  mutate_users (fun users =>
    if existsb (fun r => bool_decide (u_name r = name)) users then Err UserExists
    else Ok (users ++ [created_user name phc must_change_password now])).

Definition stored_secret (r : UserRecord) : result AuthError (option TotpSecret) :=
  match u_totp_secret r with Some text => (secret ← from_base32 text; Ok (Some secret)) | None => Ok None end.

Definition verify_password (h : Hasher) (salt : rbytes) (name password now : rstr) : UM VerifiedUser :=
  _ ← refresh_users;
  users ← snapshot;
  match find_user name users with
  | None => let _refused := verify_dummy h password in throw InvalidCredentials
  | Some record =>
      if negb (verify password (u_phc record)) then throw InvalidCredentials
      else
        _ ← (if needs_rehash h (u_phc record) then (phc ← give (hash h salt password); update_user (u_name record) (set_phc phc) now) else mret ());
        totp ← give (stored_secret record);
        mret (mkVerified (u_name record) totp (u_totp_last_counter record) (u_must_change_password record))
  end.

Definition set_password (h : Hasher) (salt : rbytes) (name password now : rstr) : UM () :=
  phc ← give (hash h salt password);
  update_user name (fun r => set_must_change false (set_phc phc r)) now.

Definition set_totp (name : rstr) (secret : option TotpSecret) (now : rstr) : UM () :=
  update_user name (set_secret (to_base32 <$> secret) None) now.

Definition note_counter (counter : Z) (now : rstr) (r : UserRecord) : result AuthError UserRecord :=
  if from_option (fun last => counter <=? last)%Z false (u_totp_last_counter r) then Err InvalidCredentials
  else Ok (set_updated now (set_secret (u_totp_secret r) (Some counter) r)).

Definition note_totp_counter (name : rstr) (counter : Z) (now : rstr) : UM () :=
  mutate_users (change_user name (note_counter counter now)).

Definition remove_user (name : rstr) : UM () :=
  mutate_users (fun users =>
    let kept := filter (fun r => u_name r <> name) users in
    if (length kept =? length users)%nat then Err UnknownUser else Ok kept).

End Store.
End Hashing.

(** ** The abstract store: accounts by name *)

Definition accounts (users : list UserRecord) : gmap rstr UserRecord := list_to_map ((fun r => (u_name r, r)) <$> users).

Definition users_valid (users : list UserRecord) : Prop :=
  Forall (fun r => name_is_valid (u_name r) = true) users /\ NoDup (u_name <$> users).

Lemma accounts_find users name : accounts users !! name = find_user name users.
Proof.
  unfold accounts. induction users as [|r users IH]; [done|]. csimpl. case_bool_decide as E.
  - subst. apply lookup_insert_eq.
  - by rewrite lookup_insert_ne.
Qed.

Lemma accounts_none users name : accounts users !! name = None <-> name ∉ u_name <$> users.
Proof.
  rewrite accounts_find. induction users as [|r users IH]; csimpl; [split; [intros _; apply not_elem_of_nil|done]|].
  rewrite not_elem_of_cons. case_bool_decide as E; [naive_solver|]. rewrite IH. naive_solver.
Qed.

Lemma find_user_name name users r : find_user name users = Some r -> u_name r = name /\ r ∈ users.
Proof.
  induction users as [|x users IH]; [done|]. simpl. case_bool_decide as E; [intros [= <-]; split; [done|by left]|].
  intros [? ?]%IH. split; [done|by right].
Qed.

Lemma accounts_in users r : users_valid users -> r ∈ users -> accounts users !! u_name r = Some r.
Proof.
  intros [_ Hn] Hr. apply elem_of_list_to_map_1.
  - rewrite <- list_fmap_compose. exact Hn.
  - apply (list_elem_of_fmap_2 (fun r => (u_name r, r)) _ _ Hr).
Qed.

(** [iter_mut().find] is an update of the map. *)
Lemma change_user_accounts name change users :
  (forall r r', change r = Ok r' -> u_name r' = u_name r) ->
  match change_user name change users with
  | Ok users' => (u_name <$> users') = (u_name <$> users) /\ exists r r', accounts users !! name = Some r /\ change r = Ok r'
      /\ accounts users' = <[name := r']> (accounts users)
  | Err e => match accounts users !! name with Some r => change r = Err e | None => e = UnknownUser end
  end.
Proof.
  intros Hname. induction users as [|x users IH]; [done|]. cbn [change_user]. unfold accounts. csimpl. case_bool_decide as E.
  - subst name. unfold mbind, result_bind. destruct (change x) as [x'|e] eqn:Ec; [|by rewrite lookup_insert_eq].
    csimpl. rewrite (Hname _ _ Ec). split; [done|]. exists x, x'. rewrite lookup_insert_eq. by rewrite insert_insert_eq.
  - unfold mbind, result_bind. destruct (change_user name change users) as [users'|e].
    + csimpl. destruct IH as [-> (r & r' & Hr & Hc & Ha)]. split; [done|]. exists r, r'. rewrite lookup_insert_ne by done.
      split_and!; [done|done|]. unfold accounts in *. rewrite Ha. by apply insert_insert_ne.
    + by rewrite lookup_insert_ne.
Qed.

Lemma change_user_valid name change users users' :
  (forall r r', change r = Ok r' -> u_name r' = u_name r) -> users_valid users -> change_user name change users = Ok users' ->
  users_valid users'.
Proof.
  intros Hname [Hv Hn] Hc. pose proof (change_user_accounts name change users Hname) as H. rewrite Hc in H. destruct H as [E _].
  split; [|by rewrite E]. apply (Forall_fmap u_name (fun n => name_is_valid n = true)). rewrite E. by apply Forall_fmap.
Qed.

Lemma accounts_snoc users r : accounts users !! u_name r = None -> accounts (users ++ [r]) = <[u_name r := r]> (accounts users).
Proof.
  intros Hn. unfold accounts. rewrite fmap_app, list_to_map_app. csimpl. apply map_eq. intros i.
  destruct (decide (i = u_name r)) as [->|Hi].
  - rewrite lookup_union_r by exact Hn. by rewrite !lookup_insert_eq.
  - rewrite lookup_insert_ne by done. rewrite lookup_union. rewrite (lookup_insert_ne ∅), lookup_empty by done. by destruct (_ !! i).
Qed.

Lemma accounts_remove users name : accounts (filter (fun r => u_name r <> name) users) = delete name (accounts users).
Proof.
  apply map_eq. intros i. rewrite lookup_delete. rewrite !accounts_find. induction users as [|x users IH]; [by destruct (decide _)|].
  rewrite filter_cons. simpl. destruct (decide (u_name x <> name)) as [Hx|Hx].
  - simpl. case_bool_decide; [|done]. by rewrite decide_False by congruence.
  - apply dec_stable in Hx. rewrite IH. case_bool_decide; [|done]. by rewrite !decide_True by congruence.
Qed.

(** ** The file's checks *)

Lemma check_name_ok name : check_name name = Ok () -> name_is_valid name = true.
Proof. unfold check_name. by destruct (name_is_valid name). Qed.

Lemma check_records_ok path users : forall seen, check_records path seen users = Ok () ->
  users_valid users /\ forall r, r ∈ users -> u_name r ∉ seen.
Proof.
  induction users as [|r users IH]; intros seen; simpl.
  { intros _. split; [split; constructor|]. intros r Hr. by apply elem_of_nil in Hr. }
  unfold mbind, result_bind. destruct (check_name (u_name r)) as [[]|] eqn:En; [|done]. apply check_name_ok in En.
  case_bool_decide as Hs; [done|]. intros [[Hv Hn] Hd]%IH. split.
  - split; [by constructor|]. csimpl. constructor; [|done]. intros (x & Hx & Hi)%list_elem_of_fmap.
    apply (Hd x Hi). set_solver.
  - intros x [->|Hx]%elem_of_cons; [done|]. specialize (Hd x Hx). set_solver.
Qed.

Lemma check_records_valid path users : forall seen, users_valid users -> (forall r, r ∈ users -> u_name r ∉ seen) ->
  check_records path seen users = Ok ().
Proof.
  induction users as [|r users IH]; intros seen [Hv Hn] Hd; [done|]. simpl. inversion Hv as [|? ? Hr Hv']; subst.
  csimpl in Hn. apply NoDup_cons in Hn as [Hr' Hn]. unfold check_name. rewrite Hr. unfold mbind, result_bind.
  rewrite bool_decide_false by (apply Hd; by left). apply IH; [by split|].
  intros x Hx [Hy%elem_of_singleton|Hs]%elem_of_union.
  - apply Hr'. rewrite <- Hy. by apply list_elem_of_fmap_2.
  - apply (Hd x); [by right|done].
Qed.

Lemma decode_users_valid path from_slice b l : decode_users path from_slice b = Ok l -> users_valid l.
Proof.
  unfold decode_users. destruct (from_slice b) as [f|]; [|done]. destruct (negb _); [done|].
  unfold mbind, result_bind. destruct (check_records path ∅ (uf_users f)) as [[]|] eqn:E; [|done]. intros [= <-].
  by apply check_records_ok in E as [? _].
Qed.

(** ** Ending sessions *)

Lemma retain_true st : retain st (fun _ => true) = st.
Proof. unfold retain. destruct st as [[m|] i a c]; [|done]. unfold set_entries. simpl. f_equal. f_equal. apply map_filter_id. done. Qed.

Lemma retain_retain st k k' : retain (retain st k) k' = retain st (fun e => k e && k' e).
Proof.
  unfold retain. destruct st as [[m|] i a c]; [|done]. unfold set_entries. simpl. f_equal. f_equal.
  rewrite map_filter_filter. apply map_filter_ext. intros d e _. simpl. rewrite andb_true_iff. naive_solver.
Qed.

(** An account whose credentials are others after: gone, or changed. *)
Definition changed_credentials (before after : Credentials) (name : rstr) : Prop :=
  exists old, before !! name = Some old /\ after !! name <> Some old.

Definition ends (after : Credentials) (l : list (rstr * (rstr * option rstr))) (name : rstr) : bool :=
  existsb (fun p => bool_decide (p.1 = name) && negb (bool_decide (after !! p.1 = Some p.2))) l.

Lemma end_changed_retain after l : forall st,
  foldl (end_changed after) st l = retain st (fun e => negb (ends after l (subject (session e)))).
Proof.
  induction l as [|p l IH]; intros st; [symmetry; apply retain_true|]. cbn [foldl]. rewrite IH.
  assert (end_changed after st p = retain st (fun e => negb (bool_decide (p.1 = subject (session e)) && negb (bool_decide (after !! p.1 = Some p.2))))) as ->.
  { unfold end_changed, revoke_subject. destruct (after !! p.1) as [n|] eqn:E.
    - case_bool_decide as Hn.
      + rewrite bool_decide_true by congruence. symmetry. transitivity (retain st (fun _ => true)); [|apply retain_true].
        unfold retain. destruct (entries st); [|done]. do 2 f_equal. apply map_filter_ext. intros. by rewrite andb_false_r.
      + unfold retain. destruct (entries st); [|done]. do 2 f_equal. apply map_filter_ext. intros d e _.
        rewrite (bool_decide_false (Some n = Some p.2)) by congruence. rewrite andb_true_r.
        by rewrite (bool_decide_ext (p.1 = _) (subject (session e) = p.1)).
    - unfold retain. destruct (entries st); [|done]. do 2 f_equal. apply map_filter_ext. intros d e _.
      rewrite (bool_decide_false (None = Some p.2)) by done. rewrite andb_true_r.
      by rewrite (bool_decide_ext (p.1 = _) (subject (session e) = p.1)). }
  rewrite retain_retain. unfold retain. destruct (entries st); [|done]. do 2 f_equal. apply map_filter_ext. intros d e _.
  cbn [ends existsb]. by rewrite negb_orb.
Qed.

Lemma ends_spec `{!Iteration rstr (rstr * option rstr)} before after name :
  ends after (iter before) name = true <-> changed_credentials before after name.
Proof.
  unfold ends, changed_credentials. rewrite existsb_exists. split.
  - intros ([n old] & Hin & H). simpl in H. apply andb_true_iff in H as [->%bool_decide_eq_true Hn%negb_true_iff%bool_decide_eq_false].
    apply list_elem_of_In in Hin. rewrite iter_perm in Hin. apply elem_of_map_to_list in Hin. exists old. split; done.
  - intros (old & Hb & Ha). exists (name, old). split.
    + apply list_elem_of_In. rewrite iter_perm. by apply elem_of_map_to_list.
    + simpl. rewrite (bool_decide_true (name = name)) by done. by rewrite (bool_decide_false (after !! name = Some old)) by done.
Qed.

(** A session is live after the re-read exactly when it was and its account
    still has the same credentials, in whatever order they are compared. *)
Lemma end_sessions_spec `{!Iteration rstr (rstr * option rstr)} before after l m :
  attached l = true -> entries (table l) = Some m ->
  exists m', entries (table (end_sessions before after l)) = Some m'
    /\ forall d e, m' !! d = Some e <-> m !! d = Some e /\ ~ changed_credentials (credentials before) (credentials after) (subject (session e)).
Proof.
  intros Ha Hm. unfold end_sessions. rewrite Ha. cbn [table]. rewrite end_changed_retain. unfold retain. rewrite Hm.
  eexists. split; [done|]. intros d e. rewrite map_lookup_filter_Some. cbn [snd]. rewrite <- ends_spec.
  destruct (ends _ _ _); naive_solver.
Qed.

Lemma end_sessions_same `{!Iteration rstr (rstr * option rstr)} users l : users_valid users -> end_sessions users users l = l.
Proof.
  intros _. unfold end_sessions. destruct l as [[] st]; [|done]. simpl. f_equal. rewrite end_changed_retain.
  transitivity (retain st (fun _ => true)); [|apply retain_true]. unfold retain. destruct (entries st); [|done].
  do 2 f_equal. apply map_filter_ext. intros d e _. destruct (ends _ _ _) eqn:E; [|done].
  apply ends_spec in E as (? & ? & ?). naive_solver.
Qed.

(** ** The operations, and what they are of the map of accounts *)

Inductive UserOp :=
| Create (salt : rbytes) (name password : rstr) (must_change_password : bool) (now : rstr)
| Verify (salt : rbytes) (name password now : rstr)
| SetPassword (salt : rbytes) (name password now : rstr)
| SetTotp (name : rstr) (secret : option TotpSecret) (now : rstr)
| NoteCounter (name : rstr) (counter : Z) (now : rstr)
| Remove (name : rstr).

Section Operations.
Context `{!Iteration rstr (rstr * option rstr)}.
Variable hash_password : Z * Z * Z -> rbytes -> rbytes -> option rstr.
Variable verify_phc : rbytes -> rstr -> bool.
Variable parse_phc : rstr -> option Phc.
Variable h : Hasher.
Variable host : Host.
Variable path : rstr.
Variable from_slice : rbytes -> option UsersFile.
Variable to_vec : UsersFile -> option rbytes.

Abbreviation store := (Store UserRecord Link).
Abbreviation Accounts := (gmap rstr UserRecord).
Abbreviation hashed := (hash hash_password h).

(** An operation: a login answers the account it verified. *)
Definition exec (op : UserOp) : SE store AuthError (option VerifiedUser) :=
  match op with
  | Create salt name password must now =>
      _ ← create_user hash_password host path from_slice to_vec h salt name password must now; mret None
  | Verify salt name password now =>
      v ← verify_password hash_password verify_phc parse_phc host path from_slice to_vec h salt name password now; mret (Some v)
  | SetPassword salt name password now =>
      _ ← set_password hash_password host path from_slice to_vec h salt name password now; mret None
  | SetTotp name secret now => _ ← set_totp host path from_slice to_vec name secret now; mret None
  | NoteCounter name counter now => _ ← note_totp_counter host path from_slice to_vec name counter now; mret None
  | Remove name => _ ← remove_user host path from_slice to_vec name; mret None
  end.

(** The abstract store: a change of one account, or of none. *)
Definition at_account (a : Accounts) (name : rstr) (f : UserRecord -> result AuthError UserRecord) : result AuthError Accounts :=
  match a !! name with None => Err UnknownUser | Some r => (fun r' => <[name := r']> a) <$> f r end.

Definition create_account (salt : rbytes) (name password : rstr) (must : bool) (now : rstr) (a : Accounts) : result AuthError Accounts :=
  _ ← check_name name;
  phc ← hashed salt password;
  match a !! name with Some _ => Err UserExists | None => Ok (<[name := created_user name phc must now]> a) end.

Definition remove_account (name : rstr) (a : Accounts) : result AuthError Accounts :=
  match a !! name with None => Err UnknownUser | Some _ => Ok (delete name a) end.

(** The change a login makes: the hash at the present cost. *)
Definition rehash_account (salt : rbytes) (password now : rstr) (r : UserRecord) (a : Accounts) : result AuthError Accounts :=
  if needs_rehash parse_phc h (u_phc r)
  then (phc ← hashed salt password; at_account a (u_name r) (fun r => Ok (set_updated now (set_phc phc r))))
  else Ok a.

Definition verified (r : UserRecord) : result AuthError VerifiedUser :=
  (fun totp => mkVerified (u_name r) totp (u_totp_last_counter r) (u_must_change_password r)) <$> stored_secret r.

Definition changing (a : Accounts) (r : result AuthError Accounts) : result AuthError (option VerifiedUser) * Accounts :=
  match r with Ok a' => (Ok None, a') | Err e => (Err e, a) end.

(** The answer of an operation and the accounts after it. *)
Definition spec (a : Accounts) (op : UserOp) : result AuthError (option VerifiedUser) * Accounts :=
  match op with
  | Create salt name password must now => changing a (create_account salt name password must now a)
  | Verify salt name password now =>
      match a !! name with
      | None => (Err InvalidCredentials, a)
      | Some r =>
          if verify verify_phc password (u_phc r)
          then match rehash_account salt password now r a with
               | Err e => (Err e, a)
               | Ok a' => (Some <$> verified r, a')
               end
          else (Err InvalidCredentials, a)
      end
  | SetPassword salt name password now =>
      changing a (phc ← hashed salt password; at_account a name (fun r => Ok (set_updated now (set_must_change false (set_phc phc r)))))
  | SetTotp name secret now => changing a (at_account a name (fun r => Ok (set_updated now (set_secret (to_base32 <$> secret) None r))))
  | NoteCounter name counter now => changing a (at_account a name (note_counter counter now))
  | Remove name => changing a (remove_account name a)
  end.

(** ** The refinement *)

Variable content_of : Fingerprint -> rbytes.

(** What the store relies on, as for the tokens. *)
Record sound_users : Prop := {
  su_stamp : forall n b, content_of (stamp host n b) = b;
  su_quiet : forall n, meddle host n = None;
  su_stat : forall n, write_outcome host n = Written -> stat_fails host (S n) = false;
  su_serde : forall f b, to_vec f = Some b -> from_slice (b ++ [LF]) = Some f;
}.
Context (Hsound : sound_users).

Abbreviation follows := (CredFile.follows (decode_users path from_slice) content_of).
Abbreviation on_file := (CredFile.on_file (decode_users path from_slice)).
Abbreviation read_error := (CredFile.read_error host path (decode_users path from_slice)).
Abbreviation told := (CredFile.told (decode_users path from_slice) end_sessions).

Lemma encode_decode_users l b : users_valid l -> encode_users path to_vec l = Ok b -> decode_users path from_slice b = Ok l.
Proof.
  unfold encode_users, decode_users. destruct (to_vec _) as [v|] eqn:Ev; [|done]. intros Hl [= <-].
  rewrite (su_serde Hsound _ _ Ev). cbn [uf_version uf_users negb Z.eqb USERS_VERSION Pos.eqb].
  rewrite check_records_valid; [done|done|]. intros r _. apply not_elem_of_empty.
Qed.

Lemma on_file_valid (s : store) l : on_file s = Ok l -> users_valid l.
Proof.
  unfold CredFile.on_file, decoded. destruct (contents <$> file s); [apply decode_users_valid|].
  intros [= <-]. split; constructor.
Qed.

(** The failures of the file and of the serialiser. *)
Definition storage_error (e : AuthError) : Prop :=
  (e = StoreRead path /\ exists n, stat_fails host n || read_fails host n = true)
  \/ write_error host path e
  \/ (e = StoreMalformed path /\ exists l, to_vec (mkUsersFile USERS_VERSION l) = None).

(** What an operation did between two states of the store: nothing, as the file
    could not be read or the operation fails whatever it holds; or what its specification says, of the file; or it
    failed on the disk, before or after the change. *)
Definition does {A} (sp : Accounts -> result AuthError A * Accounts) (s s' : store) (r : result AuthError A) : Prop :=
  (file s' = file s /\ exists e, r = Err e /\ (read_error s e \/ forall a, sp a = (Err e, a)))
  \/ exists l l', on_file s = Ok l /\ on_file s' = Ok l'
     /\ ((r, accounts l') = sp (accounts l)
         \/ exists e, r = Err e /\ storage_error e /\ (accounts l' = accounts l \/ accounts l' = (sp (accounts l)).2)).

Lemma users_refresh_spec (s : store) :
  follows s ->
  let '(r, s') := refresh_users host path from_slice s in
  follows s' /\ file s' = file s /\
  match r with
  | Ok _ => (exists i', inner s' = Some i' /\ on_file s = Ok (records i')) /\ told s s'
  | Err e => read_error s e /\ linked s' = linked s
  end.
Proof.
  apply (refresh_spec host path (decode_users path from_slice) end_sessions Hash content_of (su_quiet Hsound) users_valid
    (conj (Forall_nil_2 _) (NoDup_nil_2)) (decode_users_valid path from_slice) end_sessions_same).
Qed.

Definition plain (sp : Accounts -> result AuthError Accounts) (a : Accounts) : result AuthError () * Accounts :=
  match sp a with Ok a' => (Ok (), a') | Err e => (Err e, a) end.

(** A change of the list that is [sp] of the map. *)
Definition models (change : list UserRecord -> result AuthError (list UserRecord)) (sp : Accounts -> result AuthError Accounts) : Prop :=
  forall l, users_valid l ->
    match change l with
    | Ok l' => users_valid l' /\ sp (accounts l) = Ok (accounts l')
    | Err e => sp (accounts l) = Err e
    end.

Lemma users_mutate_spec change sp (s : store) :
  follows s -> models change sp ->
  let '(r, s') := mutate_users host path from_slice to_vec change s in
  follows s' /\ does (plain sp) s s' r /\ (linked s' = linked s \/ told s s').
Proof.
  intros Hf Hm.
  assert (Hv : forall l l', users_valid l -> change l = Ok l' -> users_valid l').
  { intros l l' Hl Hc. specialize (Hm l Hl). rewrite Hc in Hm. by destruct Hm. }
  pose proof (mutate_spec host path (decode_users path from_slice) (encode_users path to_vec) end_sessions Hash content_of
    (su_stamp Hsound) (su_quiet Hsound) (su_stat Hsound) users_valid (conj (Forall_nil_2 _) (NoDup_nil_2))
    (decode_users_valid path from_slice) encode_decode_users end_sessions_same change s Hf Hv) as H.
  assert (Hsp : forall l l', on_file s = Ok l -> change l = Ok l' -> plain sp (accounts l) = (Ok (), accounts l')).
  { intros l l' Ho Hc. specialize (Hm l (on_file_valid _ _ Ho)). rewrite Hc in Hm. destruct Hm as [_ E]. unfold plain. by rewrite E. }
  assert (Hsame : forall s' : store, file s' = file s -> on_file s' = on_file s) by (intros s' E; unfold CredFile.on_file; by rewrite E).
  unfold mutate_users. destruct (mutate _ _ _ _ _ _ change s) as [[[]|e] s'].
  - destruct H as (Hf' & (l & l' & Ho & Hc & Ho') & _ & Ht). split_and!; [done| |by right].
    right. exists l, l'. split_and!; [done..|]. left. by rewrite (Hsp l l').
  - destruct H as (Hf' & Ht & H). split_and!; [done| |done].
    destruct H as [[E He]|(l & Ho & [[E Hc]|(l' & Hc & [[E He]|[E He]])])].
    + left. eauto 6.
    + right. exists l, l. rewrite (Hsame _ E). split_and!; [done..|]. left. unfold plain.
      specialize (Hm l (on_file_valid _ _ Ho)). rewrite Hc in Hm. by rewrite Hm.
    + right. exists l, l. rewrite (Hsame _ E). split_and!; [done..|]. right. exists e. split_and!; [done| |by left].
      unfold encode_users in He. destruct (to_vec _) eqn:Ev; [done|]. injection He as <-. right. right. eauto.
    + assert (exists l2, on_file s' = Ok l2 /\ (l2 = l \/ l2 = l')) as (l2 & Ho2 & Hl2).
      { destruct E as [E|E]; [exists l; rewrite (Hsame _ E)|exists l']; auto. }
      right. exists l, l2. split_and!; [done..|]. right. exists e. split_and!; [done|by right; left|].
      rewrite (Hsp l l') by done. by destruct Hl2 as [-> | ->]; [left|right].
Qed.

Lemma models_change name f : (forall r r', f r = Ok r' -> u_name r' = u_name r) -> models (change_user name f) (fun a => at_account a name f).
Proof.
  intros Hn l Hl. pose proof (change_user_accounts name f l Hn) as H. unfold at_account.
  destruct (change_user name f l) as [l'|e] eqn:E.
  - destruct H as (_ & r & r' & -> & Hr & ->). rewrite Hr. split; [by eapply change_user_valid|done].
  - destruct (accounts l !! name); [by rewrite H|by subst].
Qed.

Lemma models_create name record : u_name record = name -> name_is_valid name = true ->
  models (fun users => if existsb (fun r => bool_decide (u_name r = name)) users then Err UserExists else Ok (users ++ [record]))
    (fun a => match a !! name with Some _ => Err UserExists | None => Ok (<[name := record]> a) end).
Proof.
  intros En Hn l [Hv Hd].
  assert (existsb (fun r => bool_decide (u_name r = name)) l = is_some (accounts l !! name)) as ->.
  { rewrite accounts_find. clear. induction l as [|r l IH]; [done|]. simpl. by case_bool_decide. }
  destruct (accounts l !! name) eqn:E; [done|]. simpl. subst name. split; [|by rewrite accounts_snoc].
  apply accounts_none in E. split; [apply Forall_app; split; [done|by apply Forall_singleton]|].
  rewrite fmap_app. apply NoDup_app. split_and!; [done| |apply NoDup_singleton].
  intros x Hx Hr%list_elem_of_singleton. by subst.
Qed.

Lemma models_remove name :
  models (fun users => let kept := filter (fun r => u_name r <> name) users in
    if (length kept =? length users)%nat then Err UnknownUser else Ok kept) (remove_account name).
Proof.
  intros l [Hv Hd]. cbv zeta. unfold remove_account.
  assert (length (filter (fun r => u_name r <> name) l) = length l <-> accounts l !! name = None) as Hlen.
  { rewrite accounts_none. clear. induction l as [|r l IH]; [csimpl; split; [intros _; apply not_elem_of_nil|done]|].
    rewrite filter_cons. csimpl. rewrite not_elem_of_cons. pose proof (length_filter (fun r => u_name r <> name) l).
    destruct (decide (u_name r <> name)); simpl; [rewrite <- IH; naive_solver lia|naive_solver lia]. }
  destruct (Nat.eqb_spec (length (filter (fun r => u_name r <> name) l)) (length l)) as [E|E].
  - apply Hlen in E. by rewrite E.
  - destruct (accounts l !! name) eqn:Ea; [|by destruct E; apply Hlen]. split; [|by rewrite accounts_remove]. split.
    + rewrite Forall_forall in *. intros x [_ Hx]%list_elem_of_filter. by apply Hv.
    + eapply sublist_NoDup; [exact Hd|]. apply fmap_sublist, sublist_filter.
Qed.

Definition linked_ok (s s' : store) : Prop := linked s' = linked s \/ told s s'.

(** An operation that answers nothing. *)
Lemma exec_unit (m : SE store AuthError ()) sp (s : store) :
  (let '(r, s') := m s in follows s' /\ does (plain sp) s s' r /\ linked_ok s s') ->
  let '(r, s') := (_ ← m; mret (A := option VerifiedUser) None) s in
  follows s' /\ does (fun a => changing a (sp a)) s s' r /\ linked_ok s s'.
Proof.
  unfold mbind, SE_bind, after, mret, SE_ret, throw. destruct (m s) as [[[]|e] s']; intros (Hf & Hd & Ht); (split_and!; [done| |done]).
  - destruct Hd as [(_ & e & ? & _)|(l & l' & Ho & Ho' & [E|(e & ? & _)])]; [done| |done].
    right. exists l, l'. split_and!; [done..|]. left. unfold plain, changing in *. destruct (sp (accounts l)); naive_solver.
  - destruct Hd as [(E & e' & [= <-] & He)|(l & l' & Ho & Ho' & H)].
    + left. split; [done|]. exists e. split; [done|]. destruct He as [He|He]; [by left|]. right. intros a. specialize (He a).
      unfold plain, changing in *. destruct (sp a); naive_solver.
    + right. exists l, l'. split_and!; [done..|]. unfold plain, changing in *.
      destruct H as [H|(e' & [= <-] & He & H)]; [left; destruct (sp (accounts l)); congruence|].
      right. exists e. split_and!; [done..|]. by destruct (sp (accounts l)).
Qed.

(** An operation that first computes something, or fails. *)
Lemma exec_give {A} (g : result AuthError A) (m : A -> SE store AuthError ()) sp (s : store) :
  follows s ->
  (forall a, g = Ok a -> let '(r, s') := m a s in follows s' /\ does (plain (sp a)) s s' r /\ linked_ok s s') ->
  let '(r, s') := (a ← give g; m a) s in
  follows s' /\ does (plain (fun x => a ← g; sp a x)) s s' r /\ linked_ok s s'.
Proof.
  intros Hf Hm. unfold mbind at 1, SE_bind, after, give, throw. destruct g as [a|e]; [by apply Hm|].
  split_and!; [done| |by left]. left. split; [done|]. exists e. split; [done|by right].
Qed.

Lemma update_spec name f now (s : store) :
  follows s -> (forall r, u_name (f r) = u_name r) ->
  let '(r, s') := update_user host path from_slice to_vec name f now s in
  follows s' /\ does (plain (fun a => at_account a name (fun r => Ok (set_updated now (f r))))) s s' r /\ linked_ok s s'.
Proof. intros Hf Hn. apply users_mutate_spec; [done|]. apply models_change. intros r r' [= <-]. apply Hn. Qed.

Lemma create_user_spec salt name password must now (s : store) :
  follows s ->
  let '(r, s') := create_user hash_password host path from_slice to_vec h salt name password must now s in
  follows s' /\ does (plain (create_account salt name password must now)) s s' r /\ linked_ok s s'.
Proof.
  intros Hf. unfold create_user, create_account. apply (exec_give (check_name name) _ (fun _ x => phc ← hashed salt password; _)); [done|].
  intros [] Hn%check_name_ok. apply (exec_give (hashed salt password) _ (fun phc a => _)); [done|].
  intros phc _. apply users_mutate_spec; [done|]. by apply models_create.
Qed.

(** The end of a login, once the password is good. *)
Lemma answer_verified record (s : store) :
  (totp ← give (stored_secret record);
   mret (mkVerified (u_name record) totp (u_totp_last_counter record) (u_must_change_password record))) s = (verified record, s).
Proof. unfold mbind, SE_bind, after, give, verified, throw, mret, SE_ret. by destruct (stored_secret record). Qed.

(** A login that found the account and the password rewrites the hash or not,
    and the link hears nothing more. *)
Lemma rehash_spec salt record password now (s : store) l :
  follows s -> on_file s = Ok l -> accounts l !! u_name record = Some record ->
  let '(r, s') := (if needs_rehash parse_phc h (u_phc record)
    then (phc ← give (hashed salt password); update_user host path from_slice to_vec (u_name record) (set_phc phc) now) else mret ()) s in
  follows s' /\ does (plain (rehash_account salt password now record)) s s' r /\ linked_ok s s'.
Proof.
  intros Hf Ho Hr. unfold rehash_account. destruct (needs_rehash _ _ _).
  - apply (exec_give (hashed salt password) _ (fun phc a => at_account a (u_name record) _)); [done|].
    intros phc _. by apply update_spec.
  - unfold mret, SE_ret. split_and!; [done| |by left]. right. exists l, l. split_and!; [done..|]. by left.
Qed.

Lemma does_file {A} (sp : Accounts -> result AuthError A * Accounts) (s s1 s' : store) r :
  file s1 = file s -> does sp s1 s' r -> does sp s s' r.
Proof. intros E. unfold does, CredFile.read_error, CredFile.on_file. by rewrite E. Qed.

(** After a re-read, a later operation tells the link nothing more. *)
Lemma told_once (s s1 s' : store) i :
  told s s1 -> inner s1 = Some i -> on_file s1 = Ok (records i) -> linked_ok s1 s' -> told s s'.
Proof.
  intros (i0 & l0 & Hi0 & Hl0 & Hk0) Hi Ho1 Hk. exists i0, l0. split_and!; [done..|].
  destruct Hk as [->|(i1 & l1 & Hi1 & Hl1 & ->)]; [done|]. rewrite Hi in Hi1. injection Hi1 as <-.
  rewrite Ho1 in Hl1. injection Hl1 as <-. rewrite end_sessions_same by by eapply on_file_valid. done.
Qed.

Lemma pair_weaken {A B} (x : A * B) (P Q : A -> B -> Prop) :
  (forall a b, P a b -> Q a b) -> (let '(a, b) := x in P a b) -> let '(a, b) := x in Q a b.
Proof. destruct x. auto. Qed.

(** The part of a login after the password was found good. *)
Lemma verify_good salt record password now (s : store) l :
  follows s -> on_file s = Ok l -> accounts l !! u_name record = Some record -> verify verify_phc password (u_phc record) = true ->
  let '(r, s') := (_ ← (if needs_rehash parse_phc h (u_phc record)
      then (phc ← give (hashed salt password); update_user host path from_slice to_vec (u_name record) (set_phc phc) now) else mret ());
    totp ← give (stored_secret record);
    mret (mkVerified (u_name record) totp (u_totp_last_counter record) (u_must_change_password record))) s in
  follows s' /\ does (fun a => spec a (Verify salt (u_name record) password now)) s s' (Some <$> r) /\ linked_ok s s'.
Proof.
  intros Hf Ho Hr Hv. pose proof (rehash_spec salt record password now s l Hf Ho Hr) as H.
  unfold mbind at 1, SE_bind, after at 1. destruct (_ s) as [r2 s2] eqn:E2 in H |- *. clear E2. destruct H as (Hf2 & Hd & Hk).
  assert (Hsp : spec (accounts l) (Verify salt (u_name record) password now) =
    match rehash_account salt password now record (accounts l) with
    | Err e => (Err e, accounts l) | Ok a' => (Some <$> verified record, a') end) by (simpl; by rewrite Hr, Hv).
  assert (Hfile : file s2 = file s -> on_file s2 = Ok l) by (intros E; unfold CredFile.on_file in *; by rewrite E).
  destruct r2 as [[]|e]; [rewrite answer_verified|unfold throw]; (split_and!; [done| |done]).
  - destruct Hd as [(_ & e & ? & _)|(l0 & l' & Hl & Hl' & [E|(e & ? & _)])]; [done| |done].
    rewrite Ho in Hl. injection Hl as <-. right. exists l, l'. split_and!; [done..|]. left. rewrite Hsp.
    unfold plain in E. destruct (rehash_account _ _ _ _ _); [by injection E as ->|done].
  - destruct Hd as [(E & e' & [= <-] & [He|He])|(l0 & l' & Hl & Hl' & H)].
    + left. eauto 6.
    + right. exists l, l. split_and!; [done|by apply Hfile|]. left. rewrite Hsp. specialize (He (accounts l)).
      unfold plain in He. destruct (rehash_account _ _ _ _ _); [done|]. by injection He as ->.
    + rewrite Ho in Hl. injection Hl as <-. right. exists l, l'. split_and!; [done..|]. rewrite Hsp. unfold plain in H.
      destruct H as [H|(e' & [= <-] & He & H)]; [left|right; exists e; split_and!; [done..|]]; destruct (rehash_account _ _ _ _ _);
        first [discriminate H|by injection H as -> ->|exact H].
Qed.

Lemma verify_password_spec salt name password now (s : store) :
  follows s ->
  let '(r, s') := verify_password hash_password verify_phc parse_phc host path from_slice to_vec h salt name password now s in
  follows s' /\ does (fun a => spec a (Verify salt name password now)) s s' (Some <$> r) /\ linked_ok s s'.
Proof.
  intros Hf. pose proof (users_refresh_spec s Hf) as H. unfold verify_password. unfold mbind at 1 2, SE_bind, after at 1 2.
  destruct (refresh_users _ _ _ s) as [[[]|e] s1]; cycle 1.
  { destruct H as (Hf1 & E1 & He & El). unfold throw. split_and!; [done| |by left]. left. split; [done|]. eauto. }
  destruct H as (Hf1 & E1 & (i & Hi & Ho) & Ht). unfold snapshot, reading. rewrite Hi.
  assert (on_file s1 = Ok (records i)) as Ho1 by (unfold CredFile.on_file in *; by rewrite E1).
  assert (Hsame : (Err InvalidCredentials, accounts (records i)) = spec (accounts (records i)) (Verify salt name password now) ->
    follows s1 /\ does (fun a => spec a (Verify salt name password now)) s s1 (Err InvalidCredentials) /\ linked_ok s s1).
  { intros Hr. split_and!; [done| |by right]. right. exists (records i), (records i). split_and!; [done..|]. by left. }
  rewrite <- accounts_find. destruct (accounts (records i) !! name) as [record|] eqn:Er; [|apply Hsame; simpl; by rewrite Er].
  assert (u_name record = name) as <- by (rewrite accounts_find in Er; by apply find_user_name in Er as [? _]).
  destruct (verify verify_phc password (u_phc record)) eqn:Ev; cbn [negb]; [|apply Hsame; simpl; by rewrite Er, Ev].
  refine (pair_weaken _ _ _ _ (verify_good salt record password now s1 _ Hf1 Ho1 Er Ev)).
  intros r2 s2 (Hf2 & Hd & Hk). split; [done|]. split; [by eapply does_file|]. right. by eapply told_once.
Qed.

Lemma exec_spec op (s : store) :
  follows s ->
  let '(r, s') := exec op s in follows s' /\ does (fun a => spec a op) s s' r /\ linked_ok s s'.
Proof.
  intros Hf. destruct op as [salt name password must now|salt name password now|salt name password now|name secret now|name counter now|name]; cbn [exec spec].
  - apply (exec_unit _ (create_account salt name password must now)). by apply create_user_spec.
  - pose proof (verify_password_spec salt name password now s Hf) as H. unfold mbind, SE_bind, after, mret, SE_ret, throw.
    by destruct (verify_password _ _ _ _ _ _ _ _ _ _ _ _ s) as [[v|e] s'].
  - apply (exec_unit _ (fun a => phc ← hashed salt password; at_account a name _)).
    apply (exec_give (hashed salt password) _ (fun phc a => at_account a name _)); [done|]. intros phc _. by apply update_spec.
  - apply (exec_unit _ (fun a => at_account a name _)). by apply update_spec.
  - apply (exec_unit _ (fun a => at_account a name _)). apply users_mutate_spec; [done|]. apply models_change.
    intros r r'. unfold note_counter. case_if; [done|]. by intros [= <-].
  - apply (exec_unit _ (remove_account name)). apply users_mutate_spec; [done|]. apply models_remove.
Qed.

(** ** Runs *)

Inductive UserStep :=
| UForeign (f : option StoredFile)
| URefresh
| UDo (op : UserOp).

Definition user_step (s : store) (o : UserStep) : store :=
  match o with
  | UForeign f => foreign f s
  | URefresh => (refresh_users host path from_slice s).2
  | UDo op => (exec op s).2
  end.

Definition user_run (s : store) (ops : list UserStep) : store := foldl user_step s ops.

Lemma user_run_follows ops : forall s,
  follows s -> (forall f, UForeign f ∈ ops -> honest content_of f) -> follows (user_run s ops).
Proof.
  induction ops as [|o ops IH]; intros s Hf Hops; [done|]. cbn [user_run foldl]. apply IH; [|intros f Hin; apply Hops; by right].
  destruct o as [f| |op]; simpl.
  - apply foreign_follows; [|done]. apply Hops. by left.
  - pose proof (users_refresh_spec s Hf) as H. by destruct (refresh_users _ _ _ s); destruct H.
  - pose proof (exec_spec op s Hf) as H. by destruct (exec op s); destruct H.
Qed.

Lemma loaded_users_follow s0 s :
  honest content_of (file s0) -> load_users host path from_slice s0 = (Ok (), s) -> follows s.
Proof.
  intros Hh Hl. pose proof (load_spec host path (decode_users path from_slice) content_of (su_quiet Hsound) s0 Hh) as H.
  unfold load_users in Hl. rewrite Hl in H. by destruct H as (_ & H & _).
Qed.

(** No failure of the disk and of the serialiser. *)
Definition no_failures : Prop :=
  (forall n, stat_fails host n || read_fails host n = false) /\ (forall n, write_outcome host n = Written)
  /\ forall f, to_vec f <> None.

Lemma does_exactly {A} (sp : Accounts -> result AuthError A * Accounts) (s s' : store) r l :
  no_failures -> does sp s s' r -> on_file s = Ok l -> exists l', on_file s' = Ok l' /\ (r, accounts l') = sp (accounts l).
Proof.
  intros (Hc & Hw & Ht) Hd Ho.
  destruct Hd as [(E & e & -> & [[[_ [n Hn]]|He]|He])|(l0 & l' & Hl & Hl' & [H|(e & _ & H & _)])].
  - by rewrite Hc in Hn.
  - by rewrite Ho in He.
  - exists l. rewrite He. split; [|done]. unfold CredFile.on_file in *. by rewrite E.
  - rewrite Ho in Hl. injection Hl as <-. eauto.
  - destruct H as [[_ [n Hn]]|[[_ [n Hn]]|[_ [? Hn]]]]; [by rewrite Hc in Hn|by rewrite Hw in Hn|by apply Ht in Hn].
Qed.

(** The records in memory name the accounts on file, or those of an older file. *)
Lemma credentials_lookup users name : users_valid users ->
  credentials users !! name = (fun r => (u_phc r, u_totp_secret r)) <$> accounts users !! name.
Proof.
  intros [_ Hn]. unfold credentials. rewrite accounts_find.
  assert (H : forall (m : Credentials), NoDup (u_name <$> users) ->
    foldl (fun m r => <[u_name r := (u_phc r, u_totp_secret r)]> m) m users !! name
    = match find_user name users with Some r => Some (u_phc r, u_totp_secret r) | None => m !! name end).
  { clear Hn. induction users as [|r users IH]; intros m Hn; [done|]. csimpl in Hn. apply NoDup_cons in Hn as [Hr Hn]. simpl.
    rewrite IH by done. case_bool_decide as E.
    - subst name. destruct (find_user (u_name r) users) as [r'|] eqn:Ef; [|apply lookup_insert_eq].
      apply find_user_name in Ef as [E Hin]. destruct Hr. rewrite <- E. by apply list_elem_of_fmap_2.
    - destruct (find_user name users); [done|]. by apply lookup_insert_ne. }
  rewrite H by done. by destruct (find_user name users).
Qed.

(** ** The replay guard *)

Definition guarded (name : rstr) (c : Z) (a : Accounts) : Prop :=
  forall r, a !! name = Some r -> exists k, u_totp_last_counter r = Some k /\ (c <= k)%Z.

(** The operations that start no new sequence of codes for [name]. *)
Definition keeps_sequence (name : rstr) (o : UserStep) : Prop :=
  match o with
  | UForeign _ => False
  | UDo (Create _ n _ _ _) | UDo (SetTotp n _ _) => n <> name
  | _ => True
  end.

Lemma guarded_at name c a n f a' :
  guarded name c a -> at_account a n f = Ok a' ->
  (n = name -> forall r r', f r = Ok r' -> forall k, u_totp_last_counter r = Some k ->
     exists k', u_totp_last_counter r' = Some k' /\ (k <= k')%Z) ->
  guarded name c a'.
Proof.
  intros Hg Ha Hf. unfold at_account in Ha. destruct (a !! n) as [r|] eqn:Er; [|done].
  destruct (f r) as [r'|] eqn:Ef; [|done]. injection Ha as <-. intros x. destruct (decide (n = name)) as [->|Hn].
  - rewrite lookup_insert_eq. intros [= <-]. destruct (Hg _ Er) as (k & Hk & ?). destruct (Hf eq_refl _ _ Ef k Hk) as (k' & ? & ?).
    exists k'. split; [done|lia].
  - rewrite lookup_insert_ne by done. apply Hg.
Qed.

Lemma guarded_spec name c op a : guarded name c a -> keeps_sequence name (UDo op) -> guarded name c (spec a op).2.
Proof.
  intros Hg Hk. destruct op as [salt n password must now|salt n password now|salt n password now|n secret now|n counter now|n]; cbn [spec].
  - destruct (create_account _ _ _ _ _ _) as [a'|] eqn:E; [|done]. unfold create_account, mbind, result_bind in E.
    destruct (check_name n); [|done]. destruct (hashed salt password); [|done]. destruct (a !! n); [done|]. injection E as <-.
    intros r. simpl. rewrite lookup_insert_ne by done. apply Hg.
  - destruct (a !! n) as [r|] eqn:Er; [|done]. destruct (verify _ _ _); [|done].
    destruct (rehash_account _ _ _ _ _) as [a'|] eqn:E; [|done]. simpl. unfold rehash_account in E.
    destruct (needs_rehash _ _ _); [|by injection E as <-]. unfold mbind, result_bind in E. destruct (hashed salt password); [|done].
    eapply guarded_at; [exact Hg|exact E|]. intros _ x x' [= <-] k Hx. by exists k.
  - destruct (hashed salt password) as [phc|]; [|done]. simpl. destruct (at_account _ _ _) eqn:E; [|done].
    eapply guarded_at; [exact Hg|exact E|]. intros _ x x' [= <-] k Hx. by exists k.
  - destruct (at_account _ _ _) eqn:E; [|done]. by eapply guarded_at; [exact Hg|exact E|].
  - destruct (at_account _ _ _) eqn:E; [|done]. eapply guarded_at; [exact Hg|exact E|].
    intros _ x x'. unfold note_counter. intros Hn k Hx. rewrite Hx in Hn. simpl in Hn.
    destruct (Z.leb_spec counter k); [done|]. injection Hn as <-. exists counter. split; [done|lia].
  - unfold remove_account. destruct (a !! n); [|done]. intros r. cbn [changing snd]. rewrite lookup_delete_Some. intros [_ Hr]. by apply Hg.
Qed.

Definition guards (name : rstr) (c : Z) (s : store) : Prop := exists l, on_file s = Ok l /\ guarded name c (accounts l).

Lemma guards_exec name c op (s : store) :
  follows s -> guards name c s -> keeps_sequence name (UDo op) -> guards name c (exec op s).2.
Proof.
  intros Hf (l & Ho & Hg) Hk. pose proof (exec_spec op s Hf) as H. destruct (exec op s) as [r s']. destruct H as (_ & Hd & _). simpl.
  destruct Hd as [[E _]|(l0 & l' & Hl & Hl' & H)].
  - exists l. split; [|done]. unfold CredFile.on_file in *. by rewrite E.
  - rewrite Ho in Hl. injection Hl as <-. exists l'. split; [done|]. pose proof (guarded_spec name c op _ Hg Hk) as Hs.
    destruct H as [H|(e & _ & _ & [-> | ->])]; [|done..]. destruct (spec (accounts l) op). by injection H as -> ->.
Qed.

Lemma guards_run name c ops : forall s,
  follows s -> guards name c s -> Forall (keeps_sequence name) ops -> follows (user_run s ops) /\ guards name c (user_run s ops).
Proof.
  induction ops as [|o ops IH]; intros s Hf Hg Hops; [done|]. inversion Hops as [|? ? Ho Hops']; subst. cbn [user_run foldl].
  assert (follows (user_step s o)) as Hf1.
  { apply (user_run_follows [o] s Hf). intros f Hin%list_elem_of_singleton. by subst o. }
  apply IH; [done| |done]. destruct o as [f| |op]; simpl in *; [done| |by apply guards_exec].
  destruct Hg as (l & Hl & Hg). exists l. split; [|done]. pose proof (users_refresh_spec s Hf) as H.
  destruct (refresh_users _ _ _ s) as [r s']. destruct H as (_ & E & _). simpl. unfold CredFile.on_file in *. by rewrite E.
Qed.

(** ** The theorems *)

(** C26: After any history of this process and of others, an operation of the store
    is its specification over the map of accounts: the answer, the errors in
    their order, and the accounts on file after it. A file that cannot be read
    changes nothing; a write that fails leaves the accounts before or after the
    change, and without failures the answer is exact. Names on file stay valid
    and unique. *)
Theorem users_refine s0 s ops op :
  honest content_of (file s0) -> load_users host path from_slice s0 = (Ok (), s) ->
  (forall f, UForeign f ∈ ops -> honest content_of f) ->
  let s1 := user_run s ops in
  let '(r, s2) := exec op s1 in
  does (fun a => spec a op) s1 s2 r
  /\ (no_failures -> forall l, on_file s1 = Ok l -> exists l', on_file s2 = Ok l' /\ (r, accounts l') = spec (accounts l) op)
  /\ (forall l, on_file s2 = Ok l -> users_valid l).
Proof.
  intros Hh Hl Hops s1. assert (Hf1 : follows s1) by (apply user_run_follows; [by eapply loaded_users_follow|done]).
  pose proof (exec_spec op s1 Hf1) as H. destruct (exec op s1) as [r s2]. destruct H as (_ & Hd & _).
  split_and!; [done| |apply on_file_valid]. intros Hno l Ho. by apply (does_exactly (fun a => spec a op) s1).
Qed.

(** C27: When another process changed the file, the next re-read ends the sessions of
    the accounts whose password or second factor is no longer the same, or which
    are gone, and of no other account. *)
Theorem users_end_sessions s ops f m :
  follows s -> (forall g, UForeign g ∈ ops -> honest content_of g) -> honest content_of f ->
  let s1 := user_run s ops in
  attached (linked s1) = true -> entries (table (linked s1)) = Some m ->
  forall s2, refresh_users host path from_slice (foreign f s1) = (Ok (), s2) ->
  exists i known m', inner s1 = Some i /\ on_file s2 = Ok known /\ entries (table (linked s2)) = Some m'
    /\ forall d e, m' !! d = Some e <-> m !! d = Some e
        /\ forall old, accounts (records i) !! subject (session e) = Some old ->
           exists new, accounts known !! subject (session e) = Some new /\ u_phc new = u_phc old /\ u_totp_secret new = u_totp_secret old.
Proof.
  intros Hf Hops Hh s1 Ha Hm s2 Hr. assert (Hf1 : follows (foreign f s1)) by (apply foreign_follows; [done|by apply user_run_follows]).
  pose proof (users_refresh_spec _ Hf1) as H. rewrite Hr in H. destruct H as (_ & E & _ & (i & known & Hi & Hk & Hl)).
  destruct (end_sessions_spec (records i) known (linked s1) m Ha Hm) as (m' & Hm' & Hlive).
  exists i, known, m'. split_and!; [done| |by rewrite Hl|].
  { unfold CredFile.on_file in *. by rewrite E. }
  assert (Hvi : users_valid (records i)).
  { destruct Hf1 as [_ (i1 & Hi1 & Hs1)]. rewrite Hi in Hi1. injection Hi1 as <-.
    by eapply (synced_valid _ _ users_valid (conj (Forall_nil_2 _) (NoDup_nil_2)) (decode_users_valid path from_slice)). }
  intros d e. rewrite Hlive. apply and_iff_compat_l. unfold changed_credentials.
  rewrite !credentials_lookup by first [done|by eapply on_file_valid]. split.
  - intros Hn old Ho. rewrite Ho in Hn. destruct (accounts known !! subject (session e)) as [new|]; [|destruct Hn; eexists; by split].
    exists new. split; [done|]. apply dec_stable. intros Hne. apply Hn. eexists. split; [done|]. simpl. intros [= E1 E2]. by apply Hne.
  - intros Hall (c & Hc & Hne). destruct (accounts (records i) !! subject (session e)) as [old|]; [|done].
    destruct (Hall old eq_refl) as (new & Hnew & E1 & E2). rewrite Hnew in Hne. apply Hne. rewrite <- Hc. simpl. by rewrite E1, E2.
Qed.

(** C28: A counter recorded for an account is never recorded again, nor an earlier
    one, by whatever operations of this process follow, until the second factor
    is set anew or the account created again: two requests with one code cannot
    both pass. *)
Theorem users_counter_once s name counter now s1 ops counter' now' :
  follows s -> exec (NoteCounter name counter now) s = (Ok None, s1) -> Forall (keeps_sequence name) ops ->
  (exec (NoteCounter name counter' now') (user_run s1 ops)).1 = Ok None -> (counter < counter')%Z.
Proof.
  intros Hf He Hops He'. pose proof (exec_spec (NoteCounter name counter now) s Hf) as H. rewrite He in H. destruct H as (Hf1 & Hd & _).
  assert (guards name counter s1) as Hg.
  { destruct Hd as [(_ & e & ? & _)|(l & l' & _ & Hl' & [H|(e & ? & _)])]; [done| |done]. exists l'. split; [done|].
    cbn [spec] in H. unfold at_account in H. destruct (accounts l !! name) as [r|]; [|done]. unfold note_counter in H.
    destruct (from_option _ _ _); [done|]. injection H as H. rewrite H. intros x. rewrite lookup_insert_eq. intros [= <-]. by exists counter. }
  destruct (guards_run name counter ops s1 Hf1 Hg Hops) as [Hf2 (l2 & Hl2 & Hg2)].
  pose proof (exec_spec (NoteCounter name counter' now') _ Hf2) as H.
  destruct (exec _ (user_run s1 ops)) as [r s2]. cbn [fst] in He'. subst r. destruct H as (_ & Hd2 & _).
  destruct Hd2 as [(_ & e & ? & _)|(l & l' & Hl & _ & [H|(e & ? & _)])]; [done| |done].
  rewrite Hl2 in Hl. injection Hl as <-. cbn [spec] in H. unfold at_account in H.
  destruct (accounts l2 !! name) as [r|] eqn:Er; [|done]. destruct (Hg2 r Er) as (k & Hk & ?). unfold note_counter in H.
  rewrite Hk in H. simpl in H. destruct (Z.leb_spec counter' k); [done|lia].
Qed.

End Operations.

(** ** Accounts on a concrete host *)

#[export] Instance UserRecord_eq_dec : EqDecision UserRecord. Proof. solve_decision. Defined.
#[export] Instance UserRecord_countable : Countable UserRecord.
Proof.
  refine (inj_countable' (fun r => (u_name r, u_phc r, u_totp_secret r, u_totp_last_counter r, u_must_change_password r, u_created r, u_updated r))
    (fun x => let '(name, phc, secret, counter, must, created, updated) := x in mkUser name phc secret counter must created updated) _).
  by intros [].
Defined.

Module UsersDemo.

#[export] Instance iteration : Iteration rstr (rstr * option rstr) := canonical_iteration rstr (rstr * option rstr).

(** A password hash that holds the password after its salt; hashes that start
    with [o] are of an older cost. *)
Definition hash_password (c : Z * Z * Z) (salt password : rbytes) : option rstr := Some (lit "$" ++ take 1 salt ++ password).
Definition verify_phc (password : rbytes) (phc : rstr) : bool := bool_decide (drop 2 phc = password).
Definition parse_phc (phc : rstr) : option Phc :=
  if bool_decide (take 1 phc = lit "$") then Some (mkPhc (lit "argon2id") (Some 19%Z) (Some 8%Z) (Some 1%Z) (Some 1%Z)) else None.
Definition h : Hasher := mkHasher (lit "$0dummy") (8, 1, 1)%Z.

Definition path : rstr := lit "users.json".
Definition host : Host := calm_host.
Definition content_of := calm_content.
Definition to_vec (f : UsersFile) : option rbytes := to_vec_with (fun f => (uf_version f, uf_users f)) f.
Definition from_slice (b : rbytes) : option UsersFile := from_slice_with (fun x => mkUsersFile x.1 x.2) b.

Lemma sound_users_demo : sound_users host from_slice to_vec content_of.
Proof. split; [apply calm_stamp|done..|]. intros f b. apply serde_with. by intros []. Qed.

Definition session_of (name : rstr) : Session := new_session name (scopes_of Write) false (lit "c") (lit "h") 0%Z 0%Z.
Definition live : gmap Digest Entry :=
  <[[1%Z] := mkEntry (lit "a") (session_of (lit "alice")) None]> {[ [2%Z] := mkEntry (lit "b") (session_of (lit "bob")) None ]}.
Definition sessions : SessionStore := set_entries (Session.new 1000 1000) live.

Definition empty : Store UserRecord Link := mkCred None 0 None (mkLink true sessions).
Definition start : Store UserRecord Link := (load_users host path from_slice empty).2.

Definition alice : UserOp := Create [1%N] (lit "alice") (lit "correct horse") false (lit "2026").
Definition bob : UserOp := Create [2%N] (lit "bob") (lit "battery staple") true (lit "2026").
Abbreviation run := (user_run hash_password verify_phc parse_phc h host path from_slice to_vec start).
Abbreviation run_from := (user_run hash_password verify_phc parse_phc h host path from_slice to_vec).
Definition do (op : UserOp) (s : Store UserRecord Link) : result AuthError (option VerifiedUser) :=
  (exec hash_password verify_phc parse_phc h host path from_slice to_vec op s).1.

Lemma start_follows : follows (decode_users path from_slice) content_of start.
Proof. by apply (loaded_users_follow host path from_slice to_vec content_of sound_users_demo empty). Qed.

Example logins :
  do (Verify [3%N] (lit "bob") (lit "battery staple") (lit "2027")) (run [UDo alice; UDo bob]) = Ok (Some (mkVerified (lit "bob") None None true))
  /\ do (Verify [3%N] (lit "bob") (lit "battery stable") (lit "2027")) (run [UDo alice; UDo bob]) = Err InvalidCredentials
  /\ do (Verify [3%N] (lit "eve") (lit "battery staple") (lit "2027")) (run [UDo alice; UDo bob]) = Err InvalidCredentials
  /\ do (Create [3%N] (lit "Bob") (lit "x") false (lit "2027")) (run []) = Err (NameInvalid (lit "Bob"))
  /\ do bob (run [UDo alice; UDo bob]) = Err UserExists.
Proof. vm_compute. by repeat split. Qed.

(** The file another process leaves: alice with a new password. *)
Definition elsewhere : option StoredFile :=
  file (run [UDo alice; UDo bob; UDo (SetPassword [4%N] (lit "alice") (lit "tr0ub4dor and 3") (lit "2028"))]).

Lemma elsewhere_honest : honest content_of elsewhere.
Proof.
  apply (fo_file (decode_users path from_slice) content_of). apply (user_run_follows _ _ _ _ _ _ _ _ _ sound_users_demo); [apply start_follows|].
  intros f [H|[H|[H|[]]]]%list_elem_of_In; discriminate H.
Qed.

End UsersDemo.
#[local] Existing Instance UsersDemo.iteration.

Lemma users_refine_witness :
  let s1 := UsersDemo.run [UDo UsersDemo.alice] in
  let '(r, s2) := exec UsersDemo.hash_password UsersDemo.verify_phc UsersDemo.parse_phc UsersDemo.h UsersDemo.host UsersDemo.path
    UsersDemo.from_slice UsersDemo.to_vec UsersDemo.bob s1 in
  does UsersDemo.host UsersDemo.path UsersDemo.from_slice UsersDemo.to_vec
    (fun a => spec UsersDemo.hash_password UsersDemo.verify_phc UsersDemo.parse_phc UsersDemo.h a UsersDemo.bob) s1 s2 r
  /\ (no_failures UsersDemo.host UsersDemo.to_vec -> forall l, on_file (decode_users UsersDemo.path UsersDemo.from_slice) s1 = Ok l ->
      exists l', on_file (decode_users UsersDemo.path UsersDemo.from_slice) s2 = Ok l'
        /\ (r, accounts l') = spec UsersDemo.hash_password UsersDemo.verify_phc UsersDemo.parse_phc UsersDemo.h (accounts l) UsersDemo.bob)
  /\ (forall l, on_file (decode_users UsersDemo.path UsersDemo.from_slice) s2 = Ok l -> users_valid l).
Proof.
  apply (users_refine UsersDemo.hash_password UsersDemo.verify_phc UsersDemo.parse_phc UsersDemo.h UsersDemo.host UsersDemo.path
    UsersDemo.from_slice UsersDemo.to_vec UsersDemo.content_of UsersDemo.sound_users_demo UsersDemo.empty UsersDemo.start [UDo UsersDemo.alice] UsersDemo.bob);
    [done|done|].
  intros f [H|[]]%list_elem_of_In. discriminate H.
Defined.

Lemma users_end_sessions_witness :
  let s1 := UsersDemo.run [UDo UsersDemo.alice; UDo UsersDemo.bob] in
  let refreshed := refresh_users UsersDemo.host UsersDemo.path UsersDemo.from_slice (foreign UsersDemo.elsewhere s1) in
  (refreshed.1 = Ok () /\ entries (table (linked refreshed.2)) = Some {[ [2%Z] := mkEntry (lit "b") (UsersDemo.session_of (lit "bob")) None ]})
  /\ exists i known m', inner s1 = Some i /\ on_file (decode_users UsersDemo.path UsersDemo.from_slice) refreshed.2 = Ok known
    /\ entries (table (linked refreshed.2)) = Some m'
    /\ forall d e, m' !! d = Some e <-> UsersDemo.live !! d = Some e
        /\ forall old, accounts (records i) !! subject (session e) = Some old ->
           exists new, accounts known !! subject (session e) = Some new /\ u_phc new = u_phc old /\ u_totp_secret new = u_totp_secret old.
Proof.
  intros s1 refreshed. split; [split; vm_compute; reflexivity|].
  refine (users_end_sessions UsersDemo.hash_password UsersDemo.verify_phc UsersDemo.parse_phc UsersDemo.h UsersDemo.host UsersDemo.path
    UsersDemo.from_slice UsersDemo.to_vec UsersDemo.content_of UsersDemo.sound_users_demo UsersDemo.start [UDo UsersDemo.alice; UDo UsersDemo.bob]
    UsersDemo.elsewhere UsersDemo.live UsersDemo.start_follows _ _ _ _ (refreshed.2) _).
  - intros f [H|[H|[]]]%list_elem_of_In; discriminate H.
  - apply UsersDemo.elsewhere_honest.
  - vm_compute. reflexivity.
  - vm_compute. reflexivity.
  - apply pair_ok. vm_compute. reflexivity.
Defined.

Lemma users_counter_once_witness :
  let note c := NoteCounter (lit "alice") c (lit "2026") in
  let exec_demo := exec UsersDemo.hash_password UsersDemo.verify_phc UsersDemo.parse_phc UsersDemo.h UsersDemo.host UsersDemo.path
    UsersDemo.from_slice UsersDemo.to_vec in
  let s := UsersDemo.run [UDo UsersDemo.alice] in
  let s1 := (exec_demo (note 7%Z) s).2 in
  ((exec_demo (note 7%Z) s).1 = Ok None /\ (exec_demo (note 7%Z) s1).1 = Err InvalidCredentials
    /\ (exec_demo (note 8%Z) s1).1 = Ok None)
  /\ ((exec_demo (note 8%Z) (UsersDemo.run_from s1 [UDo UsersDemo.bob])).1 = Ok None -> (7 < 8)%Z).
Proof.
  cbv zeta. split; [split_and!; vm_compute; reflexivity|].
  refine (users_counter_once UsersDemo.hash_password UsersDemo.verify_phc UsersDemo.parse_phc UsersDemo.h UsersDemo.host UsersDemo.path
    UsersDemo.from_slice UsersDemo.to_vec UsersDemo.content_of UsersDemo.sound_users_demo (UsersDemo.run [UDo UsersDemo.alice]) (lit "alice") 7%Z (lit "2026") _ [UDo UsersDemo.bob] 8%Z (lit "2026") _ (pair_ok _ _ _) _).
  - apply (user_run_follows _ _ _ _ _ _ _ _ _ UsersDemo.sound_users_demo); [apply UsersDemo.start_follows|].
    intros f [H|[]]%list_elem_of_In. discriminate H.
  - vm_compute. reflexivity.
  - apply Forall_singleton. simpl. discriminate.
Defined.

(** What [su_quiet] excludes: the command line sets a password between the check
    of a login and the rewrite of its old hash. The rewrite hashes the password
    that was checked over the new one, so the old password is back. *)
Module RehashRace.

Import UsersDemo.

Definition old_cost (s : Store UserRecord Link) : option StoredFile :=
  match on_file (decode_users path from_slice) s with
  | Ok users => match encode_users path to_vec ((fun r => set_phc (lit "o1correct horse") r) <$> users) with
                | Ok b => Some (mkFile b (calm_stamp_of b)) | Err _ => None end
  | Err _ => None
  end.
Definition before : option StoredFile := old_cost (run [UDo alice]).
Definition reset (s : Store UserRecord Link) : option StoredFile :=
  file (user_run hash_password verify_phc parse_phc h host path from_slice to_vec s
    [UDo (SetPassword [9%N] (lit "alice") (lit "a new password") (lit "2028"))]).
Definition loaded (host : Host) : Store UserRecord Link :=
  (load_users host path from_slice (mkCred before 0 None (mkLink true sessions))).2.

(** Calls 0 and 1 load, call 2 is the re-read of the login, call 3 the re-read of
    the rewrite. *)
Definition raced : Host := mkHost (fun n => if (n =? 3)%nat then Some (reset (loaded calm_host)) else None)
  (fun _ => false) (fun _ => false) (fun _ => Written) (stamp calm_host).

Definition after : Store UserRecord Link :=
  (exec hash_password verify_phc parse_phc h raced path from_slice to_vec (Verify [5%N] (lit "alice") (lit "correct horse") (lit "2029")) (loaded raced)).2.

Example rehash_race :
  (exec hash_password verify_phc parse_phc h raced path from_slice to_vec (Verify [5%N] (lit "alice") (lit "a new password") (lit "2030")) after).1
    = Err InvalidCredentials
  /\ (exec hash_password verify_phc parse_phc h raced path from_slice to_vec (Verify [5%N] (lit "alice") (lit "correct horse") (lit "2030")) after).1
    = Ok (Some (mkVerified (lit "alice") None None false)).
Proof. vm_compute. by split. Qed.

End RehashRace.
