(* ===== verification/Nfs.v ===== *)
(** * The [nfs] module: [crates/modules/nfs/src/lib.rs]

    [/etc/exports]: one export point a line, with the clients that may mount it
    and their options. *)

From Stdlib Require Import ZArith.
From stdpp Require Import gmap.
From S2P Require Import Prelude Align Str Num Ip Utf8 Doc DocEdit Diag Version Config LineModule.

(** ** Model *)

Record NfsClient := mkClient { host : rstr; options : list rstr }.

#[export] Instance NfsClient_eq_dec : EqDecision NfsClient.
Proof. solve_decision. Defined.

Record Export := mkExport { path : rstr; clients : list NfsClient }.

#[export] Instance Export_eq_dec : EqDecision Export.
Proof. solve_decision. Defined.

Record NfsModel := mkNfs { exports_ : list Export }.
#[export] Instance NfsModel_eq_dec : EqDecision NfsModel.
Proof. solve_decision. Defined.

(** ** Parsing and rendering *)

Definition LPAREN : rchar := 40%N.
Definition RPAREN : rchar := 41%N.
Definition COMMA : rchar := 44%N.
Definition DASH : rchar := 45%N.
Definition ROOT : rchar := 47%N.
Definition BACKSLASH_ : rchar := 92%N.
Definition NUMBER_SIGN : rchar := 35%N.

(** Characters that would truncate a line or join it to the next: [#], the double quote and the backslash. *)
Definition SPECIAL : list rchar := [NUMBER_SIGN; 34%N; BACKSLASH_].

Definition parse_client (token : rstr) : option NfsClient :=
  '(host, options_raw) ←
    match split_once (N.eqb LPAREN) token with
    | Some (host, rest) =>
        options_raw ← strip_suffix RPAREN rest;
        if contains_any [LPAREN; RPAREN] options_raw then None else Some (host, options_raw)
    | None => Some (token, [])
    end;
  if is_empty host || contains_any SPECIAL host || starts_with DASH host then None
  else if contains_any SPECIAL options_raw then None
  else Some (mkClient host (filter (fun o => is_empty o = false) (split (N.eqb COMMA) options_raw))).

Definition parse_export (r : rstr) : option Export :=
  if ends_with BACKSLASH_ (trim r) then None
  else match split_whitespace r with
       | [] => None
       | path :: tokens =>
           if negb (starts_with ROOT path) then None
           else if contains_any SPECIAL path then None
           else clients ← mapM parse_client tokens; Some (mkExport path clients)
       end.

Definition nfs_classify (r : rstr) : LineKind :=
  if is_empty (trim r) then Blank
  else if starts_with NUMBER_SIGN (trim_start r) then Comment
  else match parse_export r with Some _ => Directive | None => Unknown end.

(** The messages of the source also quote the text with [{:?}]. *)
Definition nfs_message (what r : rstr) : rstr := lit "export " ++ what ++ r.

Definition client_text (c : NfsClient) : rstr :=
  host c ++ (if is_empty (options c) then [] else [LPAREN] ++ join [COMMA] (options c) ++ [RPAREN]).

Definition export_line (e : Export) : rstr := path e ++ concat ((fun c => SPACE :: client_text c) <$> clients e).

(** The first refusal of the loop over the clients. *)
Definition client_refusal (c : NfsClient) : option EditError :=
  if starts_with DASH (host c) || contains_any SPECIAL (host c)
  then Some (Unsupported (nfs_message (lit "host would not round-trip: ") (host c)))
  else (fun o => Unsupported (nfs_message (lit "option would not round-trip: ") o))
         <$> find (contains_any SPECIAL) (options c).

Definition nfs_render_line (e : Export) : result EditError rstr :=
  if contains_any SPECIAL (path e) then Err (Unsupported (nfs_message (lit "path would not round-trip: ") (path e)))
  else match head (omap client_refusal (clients e)) with
       | Some err => Err err
       | None =>
           let r := export_line e in
           if contains_any [LF; CR; NUL] r then Err (LineBreakInValue r)
           else if bool_decide (parse_export r = Some e) then Ok r
           else Err (Unsupported (nfs_message (lit "does not round-trip through the file format: ") r))
       end.

(** ** Validation *)

Definition EMPTY_PATH : MessageId := lit "nfs-empty-path".
Definition RELATIVE_PATH : MessageId := lit "nfs-relative-path".
Definition EMPTY_HOST : MessageId := lit "nfs-empty-host".
Definition INVALID_OPTION : MessageId := lit "nfs-invalid-option".
Definition BAD_HOST : MessageId := lit "nfs-bad-host".
Definition BAD_PATH : MessageId := lit "nfs-bad-path".
Definition BAD_CONTINUATION : MessageId := lit "nfs-bad-continuation".
Definition NO_ROOT_SQUASH : MessageId := lit "nfs-no-root-squash".
Definition SEC_SYS_ONLY : MessageId := lit "nfs-sec-sys-only".
Definition WORLD_EXPORT : MessageId := lit "nfs-world-export".
Definition SUBTREE_UNDECIDED : MessageId := lit "nfs-subtree-undecided".
Definition ROOT_SQUASH_UNDECIDED : MessageId := lit "nfs-root-squash-undecided".
Definition SYNC_UNDECIDED : MessageId := lit "nfs-sync-undecided".

Definition is_valid_option (o : rstr) : bool :=
  negb (is_empty o) && negb (existsb is_whitespace o) && negb (contains_any (LPAREN :: RPAREN :: SPECIAL) o).

Definition sec_flavors (opts : list rstr) : option (list rstr) :=
  sec ← find (begins (lit "sec=")) opts;
  '(_, flavors) ← split_once (N.eqb 61) sec;
  Some (split (N.eqb 58) flavors).

Definition includes_sys (flavors : list rstr) : bool := existsb (fun f => bool_decide (f = lit "sys")) flavors.

Definition among (words : list rstr) (o : rstr) : bool := existsb (fun w => bool_decide (o = w)) words.

Definition entry_path (index : nat) : FieldPath := lit "entries/" ++ show_nat index.
Definition client_path (index client_index : nat) : FieldPath :=
  entry_path index ++ lit "/clients/" ++ show_nat client_index.

Definition validate_option (c : NfsClient) (index client_index option_index : nat) (o : rstr) : Diagnostics :=
  let field := client_path index client_index ++ lit "/options/" ++ show_nat option_index in
  let finding sev id k v := with_arg k v (with_field field (new_diagnostic sev id)) in
  (if ends_with BACKSLASH_ (trim_end o) then [finding Error BAD_CONTINUATION (lit "option") o] else [])
  ++ (if is_valid_option o then [] else [finding Error INVALID_OPTION (lit "option") o])
  ++ (if bool_decide (o = lit "no_root_squash") then [finding Warning NO_ROOT_SQUASH (lit "host") (host c)] else [])
  ++ (if bool_decide (o = lit "rw") && among [lit "*"; lit "*.*"; lit "0.0.0.0/0"; lit "::/0"] (host c)
      then [finding Warning WORLD_EXPORT (lit "host") (host c)] else []).

Definition validate_client (index client_index : nat) (c : NfsClient) : Diagnostics :=
  let finding sev id field k v := with_arg k v (with_field field (new_diagnostic sev id)) in
  let host_field := client_path index client_index ++ lit "/host" in
  let options_field := client_path index client_index ++ lit "/options" in
  let has wanted := existsb (among wanted) (options c) in
  (if is_empty (host c) then [with_field host_field (new_diagnostic Error EMPTY_HOST)]
   else if starts_with DASH (host c) || contains_any SPECIAL (host c)
   then [finding Error BAD_HOST host_field (lit "host") (host c)] else [])
  ++ concat (imap (validate_option c index client_index) (options c))
  ++ (if match sec_flavors (options c) with None => true | Some flavors => includes_sys flavors end
      then [finding Warning SEC_SYS_ONLY options_field (lit "host") (host c)] else [])
  ++ (if has [lit "subtree_check"; lit "no_subtree_check"] then []
      else [finding Recommendation SUBTREE_UNDECIDED options_field (lit "host") (host c)])
  ++ (if has [lit "root_squash"; lit "no_root_squash"] then []
      else [finding Recommendation ROOT_SQUASH_UNDECIDED options_field (lit "host") (host c)])
  ++ (if has [lit "sync"; lit "async"] then []
      else [finding Recommendation SYNC_UNDECIDED options_field (lit "host") (host c)]).

Definition validate_export (index : nat) (e : Export) : Diagnostics :=
  let finding id field := with_arg (lit "path") (path e) (with_field field (new_diagnostic Error id)) in
  let path_field := entry_path index ++ lit "/path" in
  (if is_empty (path e) then [with_field path_field (new_diagnostic Error EMPTY_PATH)]
   else if negb (starts_with ROOT (path e)) then [finding RELATIVE_PATH path_field]
   else if ends_with BACKSLASH_ (trim_end (path e)) then [finding BAD_CONTINUATION path_field]
   else if contains_any SPECIAL (path e) then [finding BAD_PATH path_field] else [])
  ++ concat (imap (validate_client index) (clients e))
  ++ (if ends_with BACKSLASH_ (trim_end (export_line e)) && negb (ends_with BACKSLASH_ (trim_end (path e)))
      then [finding BAD_CONTINUATION (entry_path index)] else []).

Definition nfs_validate (m : NfsModel) (_ : HostProfile) : Diagnostics := concat (imap validate_export (exports_ m)).

Definition nfs_defaults (_ : HostProfile) : NfsModel := mkNfs [].

(** ** The module *)

Definition nfs_parse (src : rstr) : result ParseError Document := Ok (parse src nfs_classify).

Definition nfs_to_model (doc : Document) : result ModelError NfsModel :=
  Ok (mkNfs (omap (fun l => parse_export (raw l)) (lines_of_kind Directive doc))).

Definition nfs_apply (doc : Document) (m : NfsModel) : result EditError (Document * EditReport) :=
  edit_entries parse_export nfs_render_line (fun _ => false) (exports_ m) doc.

#[export] Instance NfsModule : ConfigModule := {
  Doc := Document;
  Model := NfsModel;
  cm_parse := nfs_parse;
  cm_render := render;
  cm_to_model := nfs_to_model;
  cm_apply := nfs_apply;
  cm_validate := nfs_validate;
  cm_defaults := nfs_defaults;
  cm_model_target := fun _ => Ok None;
}.

(** ** What a line parses to *)

Definition word (w : rstr) : Prop := w <> [] /\ forall c, c ∈ w -> is_whitespace c = false.
Definition plain_text (w : rstr) : Prop := contains_any SPECIAL w = false.

Record option_ok (o : rstr) : Prop := {
  oo_word : word o;
  oo_plain : plain_text o;
  oo_split : forall c, c ∈ o -> c <> LPAREN /\ c <> RPAREN /\ c <> COMMA;
}.

Record client_ok (c : NfsClient) : Prop := {
  co_word : word (host c);
  co_plain : plain_text (host c);
  co_paren : LPAREN ∉ host c;
  co_dash : starts_with DASH (host c) = false;
  co_options : Forall option_ok (options c);
}.

Record export_ok (e : Export) : Prop := {
  eo_root : starts_with ROOT (path e) = true;
  eo_word : word (path e);
  eo_plain : plain_text (path e);
  eo_clients : Forall client_ok (clients e);
}.

Lemma contains_any_app cs a b : contains_any cs (a ++ b) = contains_any cs a || contains_any cs b.
Proof.
  apply eq_bool_prop_intro. rewrite orb_True, !Is_true_true. rewrite <- !not_false_iff_true, !contains_any_false.
  setoid_rewrite elem_of_app. split; [|by intros [H|H] Hn; apply H; auto].
  intros H. destruct (contains_any cs a) eqn:Ea; [left|right].
  - intros Hn. by rewrite (proj2 (contains_any_false cs a) Hn) in Ea.
  - intros Hn. apply H. intros c [Hc|Hc]; [|by apply Hn]. by apply (proj1 (contains_any_false cs a) Ea).
Qed.

Lemma plain_sub s w : plain_text s -> (forall c, c ∈ w -> c ∈ s) -> plain_text w.
Proof. unfold plain_text. rewrite !contains_any_false. auto. Qed.

Lemma plain_join sep parts : plain_text sep -> Forall plain_text parts -> plain_text (join sep parts).
Proof.
  unfold plain_text. rewrite contains_any_false. intros Hsep Hp. apply contains_any_false.
  intros c [Hc|(w & Hw & Hc)]%elem_of_join; [auto|]. rewrite Forall_forall in Hp.
  by apply (proj1 (contains_any_false _ _) (Hp w Hw)).
Qed.

(** The pieces of an option list. *)
Lemma options_ok raw :
  plain_text raw -> contains_any [LPAREN; RPAREN] raw = false -> (forall c, c ∈ raw -> is_whitespace c = false) ->
  Forall option_ok (filter (fun o => is_empty o = false) (split (N.eqb COMMA) raw)).
Proof.
  intros Hp Hpar Hws. apply Forall_forall. intros o [Ho Hin]%list_elem_of_filter.
  assert (Hsub : forall c, c ∈ o -> c ∈ raw /\ (COMMA =? c)%N = false) by (intros c; by apply split_elem).
  split.
  - split; [by intros ->|]. intros c Hc. apply Hws. by apply Hsub.
  - eapply plain_sub; [exact Hp|]. intros c Hc. by apply Hsub.
  - intros c Hc. destruct (Hsub c Hc) as [Hr Hco]. rewrite contains_any_false in Hpar. specialize (Hpar c Hr).
    apply N.eqb_neq in Hco. repeat split; [..|congruence]; intros ->; apply Hpar; set_solver.
Qed.

Lemma parse_client_ok token c : word token -> parse_client token = Some c -> client_ok c.
Proof.
  unfold parse_client. intros [Hne Hws] H. apply bind_Some in H as ([h raw] & Hs & H).
  destruct (is_empty h || contains_any SPECIAL h || starts_with DASH h) eqn:E1; [done|].
  destruct (contains_any SPECIAL raw) eqn:E2; [done|]. injection H as <-. bool_to_prop.
  assert ((forall x, x ∈ h -> x ∈ token /\ x <> LPAREN) /\ (forall x, x ∈ raw -> x ∈ token)
          /\ contains_any [LPAREN; RPAREN] raw = false) as (Hh & Hr & Hpar).
  { destruct (split_once _ token) as [[a b]|] eqn:E.
    - apply split_once_app in E as (x & -> & _ & Ha). destruct (strip_suffix RPAREN b) as [o|] eqn:Eo; [|done].
      cbn [mbind option_bind] in Hs. destruct (contains_any [LPAREN; RPAREN] o) eqn:Ep; [done|]. injection Hs as <- <-.
      apply strip_suffix_some in Eo as ->. split_and!; [|set_solver|done].
      intros y Hy. split; [set_solver|]. intros ->. by specialize (Ha _ Hy).
    - injection Hs as <- <-. split_and!; [|set_solver|done]. intros y Hy. split; [done|]. intros ->.
      by specialize (proj1 (split_once_none _ _) E _ Hy). }
  split; cbn [host options].
  - split; [by intros ->|]. intros x Hx. by apply Hws, Hh.
  - done.
  - intros Hx. by apply Hh in Hx as [_ ?].
  - done.
  - apply options_ok; [done|done|]. auto.
Qed.

Lemma parse_export_ok r e : parse_export r = Some e -> export_ok e.
Proof.
  unfold parse_export. destruct (ends_with _ _); [done|].
  destruct (split_whitespace r) as [|p tokens] eqn:E; [done|].
  destruct (starts_with ROOT p) eqn:Er; [|done]. cbn [negb].
  destruct (contains_any SPECIAL p) eqn:Ep; [done|]. intros (cs & Hcs%mapM_Some & [= <-])%bind_Some.
  assert (Hw : forall w, w ∈ p :: tokens -> word w).
  { intros w Hw. rewrite <- E in Hw. destruct (split_whitespace_words _ _ Hw) as [? Hc]. split; [done|]. intros c. apply Hc. }
  split; cbn [path clients]; [done|apply Hw; by left|done|].
  apply Forall_forall. intros c Hc. apply list_elem_of_lookup in Hc as [i Hi].
  destruct (Forall2_lookup_r _ _ _ _ _ Hcs Hi) as (t & Ht & Hp). eapply parse_client_ok; [|exact Hp].
  apply Hw. right. by eapply list_elem_of_lookup_2.
Qed.

(** ** What a line carries *)

Lemma client_text_chars c x : x ∈ client_text c -> x ∈ host c \/ x ∈ [LPAREN; RPAREN; COMMA] \/ exists o, o ∈ options c /\ x ∈ o.
Proof.
  unfold client_text. intros [?|Hx]%elem_of_app; [by left|right]. destruct (options c) as [|o os] eqn:E; [set_solver|].
  cbn [is_empty] in Hx. rewrite <- E in *. rewrite !elem_of_app in Hx. destruct Hx as [Hx|[Hx|Hx]]; [left; set_solver| |left; set_solver].
  apply elem_of_join in Hx as [Hx|?]; [left; set_solver|by right].
Qed.

Lemma client_text_word c : client_ok c -> word (client_text c).
Proof.
  intros [[Hne Hws] _ _ _ Ho]. split; [unfold client_text; by destruct (host c)|].
  intros x [Hx|[Hx|(o & Hin & Hx)]]%client_text_chars; [auto| |].
  - rewrite !elem_of_cons, elem_of_nil in Hx. destruct_or! Hx; by subst.
  - rewrite Forall_forall in Ho. by apply (Ho o Hin).
Qed.

Lemma filter_all {A} (P : A -> Prop) `{forall x, Decision (P x)} l : Forall P l -> filter P l = l.
Proof. induction 1 as [|x l Hx Hl IH]; [done|]. by rewrite filter_cons_True, IH. Qed.

Lemma parse_client_text c : client_ok c -> parse_client (client_text c) = Some c.
Proof.
  intros [[Hne Hws] Hp Hpar Hd Ho]. destruct c as [h os]; cbn [host options] in *. unfold parse_client, client_text; cbn [host options].
  assert (is_empty h = false) as Hh by (by destruct h).
  assert (forall y, y ∈ h -> (LPAREN =? y)%N = false) as Hl by (intros y Hy; apply N.eqb_neq; by intros <-).
  destruct (is_empty os) eqn:E.
  - destruct os; [|done]. rewrite app_nil_r, (proj2 (split_once_none _ _)) by done. cbn [mbind option_bind].
    by rewrite Hh, Hp, Hd.
  - cbn [app]. rewrite split_once_at by done. rewrite (proj2 (strip_suffix_some RPAREN _ (join [COMMA] os)) eq_refl).
    cbn [mbind option_bind].
    assert (Forall plain_text os) as Hpl by (eapply Forall_impl; [exact Ho|]; by intros ? []).
    assert (Forall (fun w => forall y, y ∈ w -> (COMMA =? y)%N = false) os) as Hco.
    { eapply Forall_impl; [exact Ho|]. intros w [_ _ Hs] y Hy. apply N.eqb_neq. intros <-. by apply Hs in Hy as (_ & _ & ?). }
    assert (contains_any [LPAREN; RPAREN] (join [COMMA] os) = false) as ->.
    { apply contains_any_false. intros x [->%list_elem_of_singleton|(w & Hw & Hx)]%elem_of_join Hin; [by vm_compute in Hin; set_solver|].
      rewrite Forall_forall in Ho. destruct (oo_split _ (Ho w Hw) x Hx) as (? & ? & _). set_solver. }
    cbn [mbind option_bind]. rewrite Hh, Hp, Hd. cbn [orb].
    assert (contains_any SPECIAL (join [COMMA] os) = false) as -> by (by apply plain_join).
    rewrite split_join by (done || by destruct os). rewrite filter_all; [done|].
    eapply Forall_impl; [exact Ho|]. intros w [[? _] _ _]. by destruct w.
Qed.

Lemma export_line_join e : export_line e = join [SPACE] (path e :: (client_text <$> clients e)).
Proof.
  unfold export_line. generalize (path e) as p. induction (clients e) as [|c cs IH]; intros p; [simpl; by rewrite app_nil_r|].
  csimpl. by rewrite IH.
Qed.

Lemma export_line_words e : export_ok e -> split_whitespace (export_line e) = path e :: (client_text <$> clients e).
Proof.
  intros [_ Hw _ Hc]. rewrite export_line_join. apply split_whitespace_join; [|done].
  constructor; [exact Hw|]. apply Forall_fmap. eapply Forall_impl; [exact Hc|]. apply client_text_word.
Qed.

Lemma export_line_plain e : export_ok e -> plain_text (export_line e).
Proof.
  intros [_ _ Hp Hc]. rewrite export_line_join. apply plain_join; [done|]. constructor; [exact Hp|].
  apply Forall_fmap. eapply Forall_impl; [exact Hc|]. intros c [_ Hh _ _ Ho]. apply contains_any_false.
  intros x [Hx|[Hx|(o & Hin & Hx)]]%client_text_chars.
  - by apply (proj1 (contains_any_false _ _) Hh).
  - rewrite !elem_of_cons, elem_of_nil in Hx. destruct_or! Hx; try done; subst; by vm_compute; set_solver.
  - rewrite Forall_forall in Ho. by apply (proj1 (contains_any_false _ _) (oo_plain _ (Ho o Hin))).
Qed.

Lemma plain_no_backslash s t : plain_text s -> (forall c, c ∈ t -> c ∈ s) -> ends_with BACKSLASH_ t = false.
Proof.
  intros Hp Hs. apply not_true_iff_false. intros E%ends_with_inv.
  apply (proj1 (contains_any_false _ _) Hp BACKSLASH_); [apply Hs; rewrite E; set_solver|]. unfold SPECIAL. set_solver.
Qed.

Lemma parse_export_line e : export_ok e -> parse_export (export_line e) = Some e.
Proof.
  intros He. unfold parse_export. rewrite (plain_no_backslash (export_line e)) by (by apply export_line_plain || (intros ?; apply trim_elem)).
  rewrite export_line_words by done. destruct He as [Hr _ Hp Hc]. rewrite Hr, Hp. cbn [negb].
  rewrite (mapM_fmap_Forall_Some _ client_text) by (eapply Forall_impl; [exact Hc|apply parse_client_text]). by destruct e.
Qed.

(** ** The line format *)

Lemma client_refusal_plain c : client_ok c -> client_refusal c = None.
Proof.
  intros [_ Hp _ Hd Ho]. unfold client_refusal. rewrite Hd, Hp. cbn [orb].
  destruct (find _ (options c)) as [o|] eqn:E; [|done]. apply find_some in E as [Hin E].
  rewrite Forall_forall in Ho. apply list_elem_of_In in Hin. by rewrite (oo_plain _ (Ho o Hin)) in E.
Qed.

Lemma clients_unrefused cs : Forall client_ok cs -> head (omap client_refusal cs) = None.
Proof. induction 1 as [|c cs Hc Hcs IH]; [done|]. csimpl. by rewrite client_refusal_plain. Qed.

Lemma nfs_render_ok e r : nfs_render_line e = Ok r -> check_raw r = Ok () /\ parse_export r = Some e.
Proof.
  unfold nfs_render_line. destruct (contains_any SPECIAL (path e)); [done|]. destruct (head _); [done|]. cbv zeta.
  destruct (contains_any [LF; CR; NUL] _) eqn:E; [done|].
  destruct (bool_decide _) eqn:Eb; [|done]. intros [= <-]. bool_to_prop. by split; [apply unbroken_ok|].
Qed.

Lemma nfs_render_line_eq e r : nfs_render_line e = Ok r -> r = export_line e.
Proof.
  unfold nfs_render_line. cbv zeta. repeat case_match; try done. by intros [= <-].
Qed.

Lemma line_unbroken e : export_ok e -> NUL ∉ export_line e -> contains_any [LF; CR; NUL] (export_line e) = false.
Proof.
  intros He Hn. apply contains_any_false. intros c Hc Hb.
  assert (c <> LF /\ c <> CR) as [??].
  { rewrite export_line_join in Hc. apply elem_of_join in Hc as [->%list_elem_of_singleton|(w & Hw & Hc)]; [done|].
    rewrite <- export_line_words in Hw by done. destruct (split_whitespace_words _ _ Hw) as [_ Hws].
    destruct (Hws c Hc) as [Hc' _]. split; by intros ->. }
  rewrite !elem_of_cons, elem_of_nil in Hb. destruct_or! Hb; by subst.
Qed.

Lemma parse_export_cr : cr_stable parse_export.
Proof. intros r. unfold parse_export. by rewrite trim_snoc, split_whitespace_snoc. Qed.

Lemma parse_export_start r e :
  parse_export r = Some e -> exists c t, trim_start r = c :: t /\ (NUMBER_SIGN =? c)%N = false.
Proof.
  unfold parse_export. destruct (ends_with _ _); [done|]. destruct (split_whitespace r) as [|p ts] eqn:E; [done|].
  pose proof (split_whitespace_head _ _ _ E) as Hh. unfold starts_with. destruct (bool_decide _) eqn:Eb; [|done].
  bool_to_prop. intros _. rewrite Eb in Hh. destruct (trim_start r) as [|c t]; [done|]. injection Hh as <-. eauto.
Qed.

Definition export_texts (e : Export) : list rstr := path e :: concat ((fun c => host c :: options c) <$> clients e).

Lemma export_texts_line e s c : s ∈ export_texts e -> c ∈ s -> c ∈ export_line e.
Proof.
  unfold export_texts, export_line. intros [->|Hs]%elem_of_cons Hc; [set_solver|]. apply elem_of_app. right.
  apply elem_of_concat in Hs as (l & Hs & Hl). apply list_elem_of_fmap in Hl as (cl & -> & Hcl).
  apply elem_of_concat. exists (SPACE :: client_text cl). split; [|by apply (list_elem_of_fmap_2 (fun c => SPACE :: client_text c))].
  apply elem_of_cons. right. unfold client_text. apply elem_of_app. apply elem_of_cons in Hs as [->|Hs]; [by left|right].
  destruct (options cl) as [|o os] eqn:E; [set_solver|]. rewrite <- E in *. cbn [is_empty].
  pose proof (join_elem [COMMA] _ _ _ Hs Hc). destruct (is_empty (options cl)) eqn:E2; [by rewrite E in E2|]. set_solver.
Qed.

Lemma nfs_render_break e s c :
  s ∈ export_texts e -> c ∈ s -> c ∈ [LF; CR; NUL] -> exists x, nfs_render_line e = Err x.
Proof.
  intros Hs Hc Hb. destruct (nfs_render_line e) as [r|x] eqn:E; [exfalso|eauto].
  pose proof (nfs_render_line_eq _ _ E) as ->. apply nfs_render_ok in E as [Hck _]. unfold check_raw in Hck.
  rewrite (breaks_raw c) in Hck; [done|done|]. by eapply export_texts_line.
Qed.

Lemma nfs_classify_eq r : nfs_classify r =
  if is_empty (trim r) then Blank else if starts_comment (N.eqb NUMBER_SIGN) r then Comment
  else match parse_export r with Some _ => Directive | None => Unknown end.
Proof. unfold nfs_classify. by rewrite starts_comment_eqb. Qed.

#[export] Instance nfs_format : LineFormat Export := {
  lf_eq_dec := Export_eq_dec;
  lf_classify := nfs_classify;
  lf_parse := parse_export;
  lf_render := nfs_render_line;
  lf_comment := N.eqb NUMBER_SIGN;
  lf_opens_section := fun _ => false;
  lf_texts := export_texts;
  lf_classify_eq := nfs_classify_eq;
  lf_parse_cr := parse_export_cr;
  lf_render_ok := nfs_render_ok;
  lf_render_start := fun e r H => parse_export_start r e (proj2 (nfs_render_ok e r H));
  lf_render_break := nfs_render_break;
}.

#[export] Instance nfs_entries : EntryList Export NfsModel := {
  of_entries := mkNfs;
  entries_of := exports_;
  entries_of_list := fun _ => eq_refl;
  list_of_entries := fun m => match m with mkNfs _ => eq_refl end;
}.

#[export] Instance nfs_laws : ConfigModuleLaws NfsModule := line_laws nfs_validate nfs_defaults.

(** ** What validation accepts *)

Record client_valid (c : NfsClient) : Prop := {
  cv_host : host c <> [];
  cv_dash : starts_with DASH (host c) = false;
  cv_plain : plain_text (host c);
  cv_options : Forall (fun o => is_valid_option o = true) (options c);
}.

Record export_valid (e : Export) : Prop := {
  ev_root : starts_with ROOT (path e) = true;
  ev_plain : plain_text (path e);
  ev_clients : Forall client_valid (clients e);
}.

Lemma trim_end_elem s c : c ∈ trim_end s -> c ∈ s.
Proof. destruct (trim_end_matches_prefix is_whitespace s) as [k Hk]. intros Hc. rewrite Hk. apply elem_of_app. by left. Qed.

Lemma valid_option_plain o : is_valid_option o = true -> plain_text o.
Proof.
  unfold is_valid_option, plain_text. intros H. bool_to_prop. apply contains_any_false.
  intros c Hc Hin. apply (proj1 (contains_any_false _ _) H0 c Hc). by do 2 right.
Qed.

Lemma validate_option_ok c i ci oi o : has_errors (validate_option c i ci oi o) = false <-> is_valid_option o = true.
Proof.
  unfold validate_option. cbv zeta. rewrite !has_errors_app, !orb_false_iff. destruct (is_valid_option o) eqn:E.
  - split; [done|]. intros _.
    rewrite (plain_no_backslash o) by (by apply valid_option_plain || apply trim_end_elem). repeat split; by case_match.
  - by split; [intros (_ & ? & _)|].
Qed.

Lemma validate_client_ok i ci c : has_errors (validate_client i ci c) = false <-> client_valid c.
Proof.
  unfold validate_client. cbv zeta. rewrite !has_errors_app, !orb_false_iff.
  rewrite (has_errors_imap _ (fun o => is_valid_option o = true)) by (intros; apply validate_option_ok).
  destruct (is_empty (host c)) eqn:Eh; [split; [by intros [? _]|]; intros [? _ _ _]; by destruct (host c)|].
  destruct (starts_with DASH (host c)) eqn:Ed; [split; [by intros [? _]|intros [_ ? _ _]; congruence]|]. cbn [orb].
  destruct (contains_any SPECIAL (host c)) eqn:Ep; [split; [by intros [? _]|intros [_ _ ? _]; unfold plain_text in *; congruence]|].
  split.
  - intros (_ & Ho & _). split; [by intros E; rewrite E in Eh|done..].
  - intros [_ _ _ Ho]. repeat split; try done; by case_match.
Qed.

Lemma valid_line_plain e : export_valid e -> plain_text (export_line e).
Proof.
  intros [_ Hp Hc]. rewrite export_line_join. apply plain_join; [done|]. constructor; [exact Hp|].
  apply Forall_fmap. eapply Forall_impl; [exact Hc|]. intros c [_ _ Hh Ho]. apply contains_any_false.
  intros x [Hx|[Hx|(o & Hin & Hx)]]%client_text_chars.
  - by apply (proj1 (contains_any_false _ _) Hh).
  - rewrite !elem_of_cons, elem_of_nil in Hx. destruct_or! Hx; try done; subst; by vm_compute; set_solver.
  - rewrite Forall_forall in Ho. by apply (proj1 (contains_any_false _ _) (valid_option_plain _ (Ho o Hin))).
Qed.

Lemma validate_export_ok i e : has_errors (validate_export i e) = false <-> export_valid e.
Proof.
  unfold validate_export. cbv zeta. rewrite !has_errors_app, !orb_false_iff.
  rewrite (has_errors_imap _ client_valid) by (intros; apply validate_client_ok). split.
  - intros (Hp & Hc & _). split; [..|done].
    + destruct (starts_with ROOT (path e)); [done|]. by destruct (is_empty (path e)).
    + unfold plain_text. destruct (contains_any SPECIAL (path e)); [|done].
      by destruct (is_empty (path e)), (starts_with ROOT (path e)), (ends_with BACKSLASH_ (trim_end (path e))).
  - intros He. pose proof (valid_line_plain e He) as Hl. destruct He as [Hr Hp Hc].
    rewrite Hr, Hp, !plain_no_backslash with (s := path e) by (done || apply trim_end_elem).
    rewrite (plain_no_backslash (export_line e)) by (done || apply trim_end_elem).
    repeat split; try done. destruct (path e); done.
Qed.

Lemma nfs_validate_ok m p : has_errors (nfs_validate m p) = false <-> Forall export_valid (exports_ m).
Proof. apply has_errors_imap. intros. apply validate_export_ok. Qed.

(** What validation does not look at and the file cannot carry. *)
Record export_clean (e : Export) : Prop := {
  ec_path : forall c, c ∈ path e -> is_whitespace c = false;
  ec_hosts : forall c x, c ∈ clients e -> x ∈ host c -> is_whitespace x = false /\ x <> LPAREN;
  ec_options : forall c o, c ∈ clients e -> o ∈ options c -> COMMA ∉ o;
}.

Lemma export_ok_split e : export_ok e <-> export_valid e /\ export_clean e.
Proof.
  split.
  - intros [Hr [Hpn Hpw] Hpp Hc]. rewrite Forall_forall in Hc. split; [split; [done..|]|split; [done|..]].
    + apply Forall_forall. intros c Hin. destruct (Hc c Hin) as [[? _] ? _ ? Ho]. split; try done.
      eapply Forall_impl; [exact Ho|]. intros o [[Hn Hw] Hp Hs]. unfold is_valid_option. apply andb_true_iff. split.
      * apply andb_true_iff. split; [by destruct o|]. apply negb_true_iff, not_true_iff_false.
        intros (x & Hx%list_elem_of_In & E)%existsb_exists. by rewrite Hw in E.
      * apply negb_true_iff, contains_any_false. intros x Hx. rewrite !not_elem_of_cons.
        destruct (Hs x Hx) as (? & ? & _). split_and!; [done|done|]. by apply (proj1 (contains_any_false _ _) Hp).
    + intros c x Hin Hx. destruct (Hc c Hin) as [[_ Hw] _ Hl _ _]. split; [by apply Hw|]. by intros ->.
    + intros c o Hin Ho Hco. destruct (Hc c Hin) as [_ _ _ _ Hos]. rewrite Forall_forall in Hos.
      by apply (oo_split _ (Hos o Ho)) in Hco as (_ & _ & ?).
  - intros [[Hr Hp Hc] [Cp Ch Co]]. split; [done|split; [by intros E; rewrite E in Hr|done]|done|].
    rewrite Forall_forall in Hc. apply Forall_forall. intros c Hin. destruct (Hc c Hin) as [Hh Hd Hpl Ho].
    split; try done.
    + split; [done|]. intros x Hx. by apply (Ch c).
    + intros Hx. by apply (Ch c LPAREN) in Hx as [_ ?].
    + rewrite Forall_forall in Ho. apply Forall_forall. intros o Hino. pose proof (Ho o Hino) as Hv.
      split; [|by apply valid_option_plain|]; unfold is_valid_option in Hv; bool_to_prop.
      * split; [by intros ->|]. intros x Hx. apply not_true_iff_false. intros E. apply not_true_iff_false in H1. apply H1.
        apply existsb_exists. exists x. by rewrite <- list_elem_of_In.
      * intros x Hx. pose proof (proj1 (contains_any_false _ _) H0 x Hx) as Hn. rewrite !not_elem_of_cons in Hn.
        split_and!; [tauto|tauto|]. intros ->. by apply (Co c o).
Qed.

Lemma nfs_writable_iff e r :
  nfs_render_line e = Ok r <-> r = export_line e /\ export_ok e /\ NUL ∉ export_line e.
Proof.
  split.
  - intros H. pose proof (nfs_render_line_eq _ _ H) as ->. apply nfs_render_ok in H as [Hck He%parse_export_ok].
    split_and!; [done|done|]. intros Hn. unfold check_raw in Hck. rewrite (breaks_raw NUL) in Hck by (done || set_solver). done.
  - intros (-> & He & Hn). unfold nfs_render_line. destruct (He) as [_ _ Hp Hc]. rewrite Hp, (clients_unrefused _ Hc). cbv zeta.
    rewrite line_unbroken by done. by rewrite bool_decide_true by (by apply parse_export_line).
Qed.

(** ** Properties *)

(** What the nfs module can write. An export is rendered exactly when its
    path is an absolute path of one word, every host is one word with no opening
    parenthesis and no leading dash, every option is one word without
    parentheses or commas, none of them holds a double quote, a backslash or a
    number sign, and there is no NUL; the line is then the path and, after one
    space each, the clients. Anything else is refused. *)
Theorem nfs_writable (e : Export) (r : rstr) :
  nfs_render_line e = Ok r <-> r = export_line e /\ export_ok e /\ NUL ∉ export_line e.
Proof. apply nfs_writable_iff. Qed.

(** What nfs validation accepts, and what it leaves to the printer. It
    reports no error exactly when every path is absolute, every host is given
    and starts with no dash, every option is a token, and none of them holds a
    character that would cut or continue the line. Of a model without errors an
    export is refused by the printer exactly when its path or a host holds
    whitespace, a host holds an opening parenthesis, an option holds a comma, or
    some text holds NUL. *)
Theorem nfs_validate_spec (m : NfsModel) (profile : HostProfile) :
  (has_errors (nfs_validate m profile) = false <-> Forall export_valid (exports_ m))
  /\ (has_errors (nfs_validate m profile) = false ->
      forall e, e ∈ exports_ m ->
        ((exists r, nfs_render_line e = Ok r) <-> export_clean e /\ NUL ∉ export_line e)).
Proof.
  split; [apply nfs_validate_ok|]. intros Hv%nfs_validate_ok e He. rewrite Forall_forall in Hv. specialize (Hv e He).
  setoid_rewrite nfs_writable_iff. setoid_rewrite export_ok_split. naive_solver.
Qed.

Definition sample_export : Export :=
  mkExport (lit "/srv") [mkClient (lit "*.lan") [lit "rw"; lit "sync"]; mkClient (lit "@admins") []].

Lemma nfs_validate_spec_witness :
  (exists r, nfs_render_line sample_export = Ok r)
  <-> export_clean sample_export /\ NUL ∉ export_line sample_export.
Proof.
  apply (proj2 (nfs_validate_spec (mkNfs [sample_export]) (mkProfile Linux Systemd [] ∅ 0))); [by vm_compute|by left].
Defined.

(** A host with a space passes validation and is refused when the model is applied. *)
Example nfs_spaced_host :
  let m := mkNfs [mkExport (lit "/srv") [mkClient (lit "a b") [lit "sync"]]] in
  has_errors (nfs_validate m (mkProfile Linux Systemd [] ∅ 0)) = false
  /\ is_ok (nfs_apply (parse [] nfs_classify) m) = false.
Proof. by vm_compute. Qed.
