(* ===== verification/Samba.v ===== *)
(** * The [samba] module: [crates/modules/samba/src/lib.rs]

    [smb.conf]: [[section]] headers and [key = value] directives, a directive in
    the section of the nearest header above it. *)

From Stdlib Require Import ZArith.
From stdpp Require Import gmap.
From S2P Require Import Prelude Align Str Num Doc DocEdit Utf8 Ip Diag Version Config LineModule.
Import Doc.

(** ** Model *)

Record SmbEntry := mkSmb { section : option rstr; key : rstr; value : rstr }.

#[export] Instance SmbEntry_eq_dec : EqDecision SmbEntry.
Proof. solve_decision. Defined.

Record SambaModel := mkSamba { smb_entries : list SmbEntry }.
#[export] Instance SambaModel_eq_dec : EqDecision SambaModel.
Proof. solve_decision. Defined.

(** ** Parsing and rendering *)

Definition NUMBER_SIGN : rchar := 35%N.
Definition ROOT : rchar := 47%N.
Definition SEMICOLON : rchar := 59%N.
Definition EQUALS : rchar := 61%N.
Definition LBRACKET : rchar := 91%N.
Definition BACKSLASH_ : rchar := 92%N.
Definition RBRACKET : rchar := 93%N.

Definition parse_entry (r : rstr) : option SmbEntry :=
  let trimmed := trim r in
  if ends_with BACKSLASH_ trimmed then None
  else match strip_prefix LBRACKET trimmed ≫= strip_suffix RBRACKET with
       | Some inner => let name := trim inner in if is_empty name then None else Some (mkSmb (Some name) [] [])
       | None =>
           '(k, v) ← split_once (N.eqb EQUALS) trimmed;
           if is_empty (trim k) then None else Some (mkSmb None (trim k) (trim v))
       end.

Definition is_comment_char (c : rchar) : bool := (c =? NUMBER_SIGN)%N || (c =? SEMICOLON)%N.

Definition samba_classify (r : rstr) : LineKind :=
  if is_empty (trim r) then Blank
  else if starts_where is_comment_char (trim_start r) then Comment
  else match parse_entry r with Some _ => Directive | None => Unknown end.

Definition opens_section (r : rstr) : bool := starts_with LBRACKET (trim_start r).

(** A section name that the syntax would cut. *)
Definition bad_section (name : rstr) : bool :=
  contains LBRACKET name || contains RBRACKET name || contains ROOT name || ends_with BACKSLASH_ name.

Definition bad_key (k : rstr) : bool :=
  starts_with LBRACKET k || starts_with ROOT k || starts_with NUMBER_SIGN k || starts_with SEMICOLON k
  || ends_with BACKSLASH_ k.

Definition entry_line (e : SmbEntry) : rstr :=
  match section e with
  | Some name => [LBRACKET] ++ name ++ [RBRACKET]
  | None => if is_empty (value e) then key e ++ lit " =" else key e ++ lit " = " ++ value e
  end.

(** The messages of the source also quote the text with [{:?}]. *)
Definition section_message (name : rstr) : rstr := lit "section name would not round-trip: " ++ name.
Definition syntax_message (e : SmbEntry) : rstr := lit "entry would not round-trip due to smb.conf syntax: " ++ entry_line e.
Definition samba_roundtrip_message (r : rstr) : rstr := lit "entry does not round-trip through the file format: " ++ r.

Definition samba_render_line (e : SmbEntry) : result EditError rstr :=
  let refused := match section e with
    | Some name => if bad_section name then Some (section_message name) else None
    | None => if bad_key (key e) || ends_with BACKSLASH_ (value e) then Some (syntax_message e) else None
    end in
  match refused with
  | Some message => Err (Unsupported message)
  | None =>
      let r := entry_line e in
      if contains_any [LF; CR; NUL] r then Err (LineBreakInValue r)
      else if bool_decide (parse_entry r = Some e) then Ok r
      else Err (Unsupported (samba_roundtrip_message r))
  end.

(** ** Validation *)

Definition EMPTY_KEY : MessageId := lit "samba-empty-key".
Definition EMPTY_SECTION : MessageId := lit "samba-empty-section".
Definition BAD_KEY : MessageId := lit "samba-bad-key".
Definition BAD_VALUE : MessageId := lit "samba-bad-value".
Definition BAD_SECTION : MessageId := lit "samba-bad-section".
Definition GUEST_OK : MessageId := lit "samba-guest-ok".
Definition MAP_TO_GUEST : MessageId := lit "samba-map-to-guest".
Definition MIN_PROTOCOL : MessageId := lit "samba-min-protocol".
Definition SMB_ENCRYPT : MessageId := lit "samba-smb-encrypt".
Definition RESTRICT_ANONYMOUS : MessageId := lit "samba-restrict-anonymous".
Definition REC_SERVER_SIGNING : MessageId := lit "samba-rec-server-signing".
Definition REC_LOAD_PRINTERS : MessageId := lit "samba-rec-load-printers".
Definition REC_INTERFACES : MessageId := lit "samba-rec-interfaces".
Definition WRITABLE_EXPOSURE : MessageId := lit "samba-writable-exposure".
Definition ROOT_COMMAND : MessageId := lit "samba-root-command".
Definition CLIENT_COMMAND : MessageId := lit "samba-client-command".
Definition USERSHARE_GUESTS : MessageId := lit "samba-usershare-guests".
Definition WIDE_LINKS : MessageId := lit "samba-wide-links".

Definition PARAMETER_SINCE : list (rstr * rstr) :=
  [(lit "clientsmbtransports", lit "4.23"); (lit "serversmbtransports", lit "4.23")].

Definition ROOT_COMMANDS : list rstr :=
  [lit "rootpreexec"; lit "rootpostexec"; lit "adduserscript"; lit "deleteuserscript"; lit "addgroupscript";
   lit "deletegroupscript"; lit "addusertogroupscript"; lit "deleteuserfromgroupscript"; lit "setprimarygroupscript";
   lit "addmachinescript"; lit "renameuserscript"; lit "usernamemapscript"; lit "panicaction"; lit "shutdownscript";
   lit "abortshutdownscript"; lit "addsharecommand"; lit "changesharecommand"; lit "deletesharecommand"].

Definition CLIENT_COMMANDS : list rstr := [lit "messagecommand"; lit "magicscript"].

(** [DESCRIPTOR.upstream.project]. *)
Definition SAMBA_PROJECT : rstr := lit "samba".

Definition among (words : list rstr) (w : rstr) : bool := existsb (fun x => bool_decide (w = x)) words.

Definition is_true (v : rstr) : bool :=
  among [lit "yes"; lit "true"; lit "on"; lit "1"] (to_ascii_lowercase (trim v)).

Definition entries_path (index : nat) (name : rstr) : FieldPath := lit "entries/" ++ show_nat index ++ lit "/" ++ name.

Definition validate_entry (index : nat) (e : SmbEntry) : Diagnostics :=
  let finding id name := with_field (entries_path index name) (new_diagnostic Error id) in
  match section e with
  | Some name =>
      if is_empty name then [finding EMPTY_SECTION (lit "section")]
      else if bad_section name then [with_arg (lit "section") name (finding BAD_SECTION (lit "section"))]
      else []
  | None =>
      (if is_empty (key e) then [finding EMPTY_KEY (lit "key")]
       else if bad_key (key e) then [with_arg (lit "key") (key e) (finding BAD_KEY (lit "key"))]
       else [])
      ++ (if ends_with BACKSLASH_ (value e) then [with_arg (lit "value") (value e) (finding BAD_VALUE (lit "value"))] else [])
  end.

Definition SMB3_BASE_RANK : nat := 4.

Definition protocol_rank (v : rstr) : option nat :=
  let v := char_to_ascii_uppercase <$> trim v in
  if among [lit "CORE"; lit "COREPLUS"; lit "LANMAN1"; lit "LANMAN2"] v then Some 0
  else if among [lit "NT1"] v then Some 1
  else if among [lit "SMB2_02"; lit "SMB2"] v then Some 2
  else if among [lit "SMB2_10"] v then Some 3
  else if among [lit "SMB3_00"; lit "SMB3"] v then Some 4
  else if among [lit "SMB3_02"] v then Some 5
  else if among [lit "SMB3_11"] v then Some 6
  else None.

Definition UNSET : rstr := lit "(unset)".

Section Unicode.
(** [char::to_lowercase] of the standard library: the tables of Unicode. *)
Variable to_lowercase : rchar -> rstr.

Definition normalise (name : rstr) : rstr := concat (to_lowercase <$> filter (fun c => is_whitespace c = false) name).

Definition parameter_since (k : rstr) : option rstr :=
  snd <$> find (fun row => bool_decide (fst row = normalise k)) PARAMETER_SINCE.

Definition validate_since (profile : HostProfile) (index : nat) (e : SmbEntry) : Diagnostics :=
  match parameter_since (key e) with
  | Some since => option_list (since_diagnostic profile SAMBA_PROJECT (key e) since (entries_path index (lit "key")))
  | None => []
  end.

(** [in_section]: the current section against the wanted one. *)
Definition in_section (current wanted : option rstr) : bool :=
  match current, wanted with
  | None, None => true
  | Some current, Some wanted => eq_ignore_ascii_case current wanted
  | _, _ => false
  end.

Definition named (keys : list rstr) (e : SmbEntry) : bool :=
  existsb (fun k => bool_decide (normalise k = normalise (key e))) keys.

(** The closure [find]: the loop, with its two variables. *)
Fixpoint find_from (wanted : option rstr) (keys : list rstr) (current found : option rstr) (es : list SmbEntry) : option rstr :=
  match es with
  | [] => found
  | e :: es =>
      match section e with
      | Some name => find_from wanted keys (Some name) found es
      | None => find_from wanted keys current
                  (if in_section current wanted && named keys e then Some (value e) else found) es
      end
  end.

Definition find_in (es : list SmbEntry) (wanted : option rstr) (keys : list rstr) : option rstr :=
  find_from wanted keys None None es.

Definition or_else {A} (a b : option A) : option A := match a with Some x => Some x | None => b end.

Definition value_of_in_section (es : list SmbEntry) (sec : option rstr) (keys : list rstr) : option rstr :=
  let find wanted := find_in es wanted keys in
  if match sec with None => true | Some name => eq_ignore_ascii_case name (lit "global") end
  then or_else (find (Some (lit "global"))) (find None)
  else or_else (find sec) (or_else (find (Some (lit "global"))) (find None)).

Definition offending (es : list SmbEntry) (sec : option rstr) (keys : list rstr) (wanted : rstr) : option rstr :=
  v ← value_of_in_section es sec keys; if eq_ignore_ascii_case v wanted then None else Some v.

(** The warnings of [validate_scope]; [lookup] is the effective value of a parameter. *)
Definition with_value (sev : Severity) (id : MessageId) (v : rstr) : Diagnostic := with_arg (lit "value") v (new_diagnostic sev id).

Definition warn_if (id : MessageId) (v : option rstr) : Diagnostics := option_list (with_value Warning id <$> v).

Definition when (p : rstr -> bool) (v : option rstr) : option rstr := v ← v; if p v then Some v else None.

Definition holds (p : rstr -> bool) (v : option rstr) : bool := match v with Some v => p v | None => false end.

Definition scope_warnings (es : list SmbEntry) (sec : option rstr) : Diagnostics :=
  let lookup := value_of_in_section es sec in
  warn_if GUEST_OK (offending es sec [lit "guestok"; lit "public"] (lit "no"))
  ++ warn_if MAP_TO_GUEST (offending es sec [lit "maptoguest"] (lit "Never"))
  ++ warn_if MIN_PROTOCOL (when (fun v => match protocol_rank v with Some rank => rank <? SMB3_BASE_RANK | None => false end)
                             (lookup [lit "serverminprotocol"; lit "minprotocol"]))
  ++ warn_if SMB_ENCRYPT (offending es sec [lit "smbencrypt"; lit "serversmbencrypt"] (lit "required"))
  ++ warn_if RESTRICT_ANONYMOUS (when (fun v => match parse_unsigned 32 (trim v) with Some count => (count <? 2)%Z | None => false end)
                                   (lookup [lit "restrictanonymous"]))
  ++ (if holds (fun v => eq_ignore_ascii_case v (lit "yes") || is_empty v) (lookup [lit "writeable"; lit "writable"; lit "writeok"])
         || holds (fun v => eq_ignore_ascii_case v (lit "no") || is_empty v) (lookup [lit "readonly"])
         || holds (fun v => negb (is_empty v)) (lookup [lit "writelist"])
      then [new_diagnostic Warning WRITABLE_EXPOSURE] else [])
  ++ warn_if WIDE_LINKS (when is_true (lookup [lit "widelinks"])).

Definition scope_recommendations (es : list SmbEntry) (sec : option rstr) : Diagnostics :=
  let lookup := value_of_in_section es sec in
  let recommend id wanted v :=
    match v with
    | Some v => if eq_ignore_ascii_case v wanted then [] else [with_value Recommendation id v]
    | None => [with_value Recommendation id UNSET]
    end in
  recommend REC_SERVER_SIGNING (lit "mandatory") (lookup [lit "serversigning"])
  ++ recommend REC_LOAD_PRINTERS (lit "no") (lookup [lit "loadprinters"])
  ++ match lookup [lit "interfaces"] with None => [new_diagnostic Recommendation REC_INTERFACES] | Some _ => [] end.

Definition validate_scope (es : list SmbEntry) (sec : option rstr) (recommendations : bool) : Diagnostics :=
  scope_warnings es sec ++ (if recommendations then scope_recommendations es sec else []).

(** The sections the loop of [validate_values] collects, the first spelling of each. *)
Definition add_section (known : list rstr) (e : SmbEntry) : list rstr :=
  match section e with
  | Some name => if eq_ignore_ascii_case name (lit "global") || existsb (fun k => eq_ignore_ascii_case k name) known
                 then known else known ++ [name]
  | None => known
  end.

Definition sections (es : list SmbEntry) : list rstr := foldl add_section [] es.

(** The command parameters of the same loop. *)
Definition command_id (e : SmbEntry) : option MessageId :=
  match section e with
  | Some _ => None
  | None =>
      if is_empty (value e) then None
      else let name := normalise (key e) in
        if among ROOT_COMMANDS name then Some ROOT_COMMAND
        else if among CLIENT_COMMANDS name then Some CLIENT_COMMAND else None
  end.

Definition command_findings (es : list SmbEntry) : Diagnostics :=
  omap (fun e => (fun id => with_arg (lit "key") (key e) (new_diagnostic Warning id)) <$> command_id e) es.

Definition validate_values (es : list SmbEntry) : Diagnostics :=
  command_findings es
  ++ warn_if USERSHARE_GUESTS (when is_true (value_of_in_section es None [lit "usershareallowguests"]))
  ++ validate_scope es None true
  ++ concat ((fun name => validate_scope es (Some name) false) <$> sections es).

Definition samba_validate (m : SambaModel) (profile : HostProfile) : Diagnostics :=
  concat (imap (fun i e => validate_entry i e ++ validate_since profile i e) (smb_entries m))
  ++ validate_values (smb_entries m).

(** ** Defaults *)

Definition directive (k v : rstr) : SmbEntry := mkSmb None k v.

Definition hardened_global : SambaModel :=
  mkSamba [mkSmb (Some (lit "global")) [] [];
           directive (lit "server min protocol") (lit "SMB3_00");
           directive (lit "server signing") (lit "mandatory");
           directive (lit "smb encrypt") (lit "required");
           directive (lit "map to guest") (lit "Never");
           directive (lit "restrict anonymous") (lit "2");
           directive (lit "load printers") (lit "no")].

Definition samba_defaults (profile : HostProfile) : SambaModel :=
  match os profile with Linux | MacOs | OtherOs => hardened_global end.

(** ** The module *)

Definition samba_parse (src : rstr) : result ParseError Document := Ok (parse src samba_classify).

Definition samba_to_model (doc : Document) : result ModelError SambaModel :=
  Ok (mkSamba (omap (fun l => parse_entry (raw l)) (lines_of_kind Directive doc))).

Definition samba_apply (doc : Document) (m : SambaModel) : result EditError (Document * EditReport) :=
  edit_entries parse_entry samba_render_line opens_section (smb_entries m) doc.

#[export] Instance SambaModule : ConfigModule := {
  Config.Doc := Document;
  Model := SambaModel;
  cm_parse := samba_parse;
  cm_render := render;
  cm_to_model := samba_to_model;
  cm_apply := samba_apply;
  cm_validate := samba_validate;
  cm_defaults := samba_defaults;
  cm_model_target := fun _ => Ok None;
}.

End Unicode.

(** ** What a line parses to *)

(** An entry that a line of the file can carry. *)
Definition carried (e : SmbEntry) : Prop :=
  match section e with
  | Some name => key e = [] /\ value e = [] /\ name <> [] /\ trimmed name
  | None => key e <> [] /\ trimmed (key e) /\ EQUALS ∉ key e /\ trimmed (value e)
  end.

(** No text of the entry is one the printer refuses for the syntax. *)
Definition plain (e : SmbEntry) : Prop :=
  match section e with
  | Some name => bad_section name = false
  | None => bad_key (key e) = false /\ ends_with BACKSLASH_ (value e) = false
  end.

Lemma parse_entry_carried r e : parse_entry r = Some e -> carried e.
Proof.
  unfold parse_entry, carried. cbv zeta. destruct (ends_with _ _); [done|].
  destruct (strip_prefix LBRACKET (trim r) ≫= strip_suffix RBRACKET) as [inner|].
  - pose proof (trim_trimmed inner) as Ht. destruct (trim inner) as [|c t] eqn:Ei; [done|]. intros [= <-]. simpl. by split_and!.
  - destruct (split_once (N.eqb EQUALS) (trim r)) as [[k v]|] eqn:E; [|done]. simpl.
    apply split_once_app in E as (x & _ & _ & Hk).
    pose proof (trim_trimmed k) as Ht. destruct (trim k) as [|c t] eqn:Ek; [done|]. intros [= <-]. simpl.
    split_and!; [done|done| |apply trim_trimmed]. intros Hc. rewrite <- Ek in Hc.
    specialize (Hk EQUALS). rewrite N.eqb_refl in Hk. by discriminate Hk; apply trim_elem.
Qed.

Lemma samba_parse_entry_cr : cr_stable parse_entry.
Proof. intros r. unfold parse_entry. by rewrite trim_snoc. Qed.

Lemma strip_prefix_none c s : starts_with c s = false -> strip_prefix c s = None.
Proof. unfold starts_with. destruct s as [|x s]; [done|]. simpl. intros H%bool_decide_eq_false. case_match; [|done]. bool_to_prop. congruence. Qed.

Lemma header_trimmed name : trim ([LBRACKET] ++ name ++ [RBRACKET]) = [LBRACKET] ++ name ++ [RBRACKET].
Proof.
  apply trimmed_trim. split; [by intros c [= <-]|]. intros c.
  rewrite app_assoc, last_snoc. by intros [= <-].
Qed.

Lemma samba_entry_line_trimmed k v : k <> [] -> trimmed k -> trimmed v -> trimmed (entry_line (mkSmb None k v)).
Proof.
  intros Hk [Hh _] [_ Hl]. unfold entry_line. cbn [section key value].
  assert (forall t, head (k ++ t) = head k) as Hkh by (by destruct k).
  destruct v as [|c v]; cbn [is_empty]; split; intros x; rewrite ?Hkh; try apply Hh.
  - change (lit " =") with ([SPACE] ++ [EQUALS]). rewrite app_assoc, last_snoc. by intros [= <-].
  - rewrite app_assoc, last_app_cons. apply Hl.
Qed.

Lemma samba_parse_entry_line e : carried e -> plain e -> parse_entry (entry_line e) = Some e.
Proof.
  unfold carried, plain. destruct e as [[name|] k v]; cbn [section key value].
  - intros (-> & -> & Hn & Ht) _. unfold parse_entry. cbv zeta. unfold entry_line. cbn [section].
    rewrite header_trimmed. unfold ends_with. rewrite app_assoc, last_snoc, bool_decide_false by done.
    rewrite <- app_assoc. simpl. rewrite (proj2 (strip_suffix_some RBRACKET _ name)) by done.
    rewrite trimmed_trim by done. by destruct name.
  - intros (Hk & Htk & Heq & Htv) [Hb Hv]. unfold parse_entry. cbv zeta.
    rewrite (trimmed_trim _ (samba_entry_line_trimmed k v Hk Htk Htv)).
    assert (ends_with BACKSLASH_ (entry_line (mkSmb None k v)) = false) as ->.
    { unfold entry_line, ends_with in *. cbn [section value key]. destruct v as [|c v]; cbn [is_empty].
      - change (lit " =") with ([SPACE] ++ [EQUALS]). by rewrite app_assoc, last_snoc, bool_decide_false.
      - by rewrite app_assoc, last_app_cons. }
    rewrite strip_prefix_none.
    2: { unfold bad_key in Hb. rewrite !orb_false_iff in Hb. destruct Hb as ((((Hb & _) & _) & _) & _).
         unfold entry_line. cbn [section value key]. revert Hb. by destruct k, v. }
    assert (split_once (N.eqb EQUALS) (entry_line (mkSmb None k v))
      = Some (k ++ [SPACE], if is_empty v then [] else SPACE :: v)) as E.
    { unfold entry_line. cbn [section value key].
      replace (if is_empty v then k ++ lit " =" else k ++ lit " = " ++ v)
        with ((k ++ [SPACE]) ++ EQUALS :: (if is_empty v then [] else SPACE :: v)) by (destruct v; by rewrite <- app_assoc).
      apply split_once_at; [|done]. intros y Hy. apply N.eqb_neq. intros <-. set_solver. }
    cbn [option_bind mbind]. rewrite E. simpl. rewrite trim_snoc, trimmed_trim by done.
    replace (is_empty k) with false by (by destruct k). do 2 f_equal.
    destruct v as [|c v]; [done|]. cbn [is_empty].
    transitivity (trim (c :: v)); [|by apply trimmed_trim]. done.
Qed.

Lemma samba_render_ok e r : samba_render_line e = Ok r -> check_raw r = Ok () /\ parse_entry r = Some e.
Proof.
  unfold samba_render_line. cbv zeta. case_match; [done|]. destruct (contains_any _ _) eqn:E; [done|].
  destruct (bool_decide _) eqn:Eb; [|done]. intros [= <-]. bool_to_prop. by split; [apply unbroken_ok|].
Qed.

Lemma render_plain e r : samba_render_line e = Ok r -> r = entry_line e /\ plain e.
Proof.
  unfold samba_render_line, plain. cbv zeta. intros H. destruct (section e).
  - destruct (bad_section _); [done|]. repeat case_match; by simplify_eq.
  - destruct (bad_key (key e)), (ends_with _ (value e)); try done. cbn [orb] in H. repeat case_match; by simplify_eq.
Qed.

Lemma samba_render_start e r :
  samba_render_line e = Ok r -> exists c t, trim_start r = c :: t /\ is_comment_char c = false.
Proof.
  intros H. destruct (render_plain _ _ H) as [-> Hp]. destruct (samba_render_ok _ _ H) as [_ Hc%parse_entry_carried].
  unfold carried, plain, entry_line in *. destruct e as [[name|] k v]; cbn [section key value] in *; [by eauto|].
  destruct Hc as (Hk & [Hh _] & _), Hp as [Hb _]. destruct k as [|c k]; [done|].
  assert (is_comment_char c = false).
  { unfold bad_key in Hb. rewrite !orb_false_iff in Hb. destruct Hb as ((((_ & _) & Hn) & Hs) & _).
    unfold starts_with in *. bool_to_prop. unfold is_comment_char. apply orb_false_iff. split; apply N.eqb_neq; intros ->; [by apply Hn|by apply Hs]. }
  specialize (Hh c eq_refl).
  destruct v; cbn [is_empty]; rewrite <- app_comm_cons, (trim_start_id c) by done; eauto.
Qed.

Definition entry_texts (e : SmbEntry) : list rstr := option_list (section e) ++ [key e; value e].

Lemma entry_line_texts e s c : carried e -> s ∈ entry_texts e -> c ∈ s -> c ∈ entry_line e.
Proof.
  unfold carried, entry_texts, entry_line. destruct e as [[name|] k v]; cbn [section key value option_list].
  - intros (-> & -> & _) Hs Hc. simpl in Hs. rewrite !elem_of_cons, elem_of_nil in Hs.
    destruct Hs as [->|[->|[->|?]]]; [|by apply elem_of_nil in Hc..|done]. rewrite !elem_of_app. auto.
  - intros _ Hs Hc. simpl in Hs. rewrite !elem_of_cons, elem_of_nil in Hs.
    destruct Hs as [->|[->|?]]; [by destruct v; cbn [is_empty]; rewrite !elem_of_app; auto| |done].
    destruct v; cbn [is_empty]; [by apply elem_of_nil in Hc|rewrite !elem_of_app; auto].
Qed.

Lemma samba_render_break e s c :
  s ∈ entry_texts e -> c ∈ s -> c ∈ [LF; CR; NUL] -> exists x, samba_render_line e = Err x.
Proof.
  intros Hs Hc Hb. destruct (samba_render_line e) as [r|x] eqn:E; [exfalso|eauto].
  destruct (render_plain _ _ E) as [-> _]. destruct (samba_render_ok _ _ E) as [Hr%check_raw_ok Hp%parse_entry_carried].
  pose proof (entry_line_texts _ _ _ Hp Hs Hc). rewrite !elem_of_cons, elem_of_nil in Hb. naive_solver.
Qed.

#[export] Instance samba_format : LineFormat SmbEntry := {
  lf_eq_dec := SmbEntry_eq_dec;
  lf_classify := samba_classify;
  lf_parse := parse_entry;
  lf_render := samba_render_line;
  lf_comment := is_comment_char;
  lf_opens_section := opens_section;
  lf_texts := entry_texts;
  lf_classify_eq := fun r => eq_refl;
  lf_parse_cr := samba_parse_entry_cr;
  lf_render_ok := samba_render_ok;
  lf_render_start := samba_render_start;
  lf_render_break := samba_render_break;
}.

#[export] Instance samba_entries : EntryList SmbEntry SambaModel := {
  of_entries := mkSamba;
  entries_of := smb_entries;
  entries_of_list := fun _ => eq_refl;
  list_of_entries := fun m => match m with mkSamba _ => eq_refl end;
}.

#[export] Instance samba_laws to_lowercase : ConfigModuleLaws (SambaModule to_lowercase) :=
  line_laws (samba_validate to_lowercase) samba_defaults.

Lemma samba_render_entry_iff e r :
  samba_render_line e = Ok r <-> r = entry_line e /\ carried e /\ plain e /\ (LF ∉ r /\ CR ∉ r /\ NUL ∉ r).
Proof.
  split.
  - intros H. destruct (render_plain _ _ H) as [-> Hp]. destruct (samba_render_ok _ _ H) as [Hr%check_raw_ok Hc%parse_entry_carried].
    exact (conj eq_refl (conj Hc (conj Hp Hr))).
  - intros (-> & Hc & Hp & Hb%check_raw_ok). unfold check_raw in Hb. unfold samba_render_line. cbv zeta.
    destruct (contains_any _ _); [done|]. rewrite bool_decide_true by (by apply samba_parse_entry_line).
    unfold plain in Hp. destruct (section e); [by rewrite Hp|]. by destruct Hp as [-> ->].
Qed.

(** ** What validation accepts *)

Section Accepted.
Variable to_lowercase : rchar -> rstr.

Record entry_valid (profile : HostProfile) (e : SmbEntry) : Prop := {
  ev_named : match section e with Some name => name <> [] | None => key e <> [] end;
  ev_plain : plain e;
  ev_since : forall since, parameter_since to_lowercase (key e) = Some since -> ~ too_old profile SAMBA_PROJECT since;
}.

Lemma samba_validate_entry_ok i e :
  has_errors (validate_entry i e) = false
  <-> match section e with Some name => name <> [] | None => key e <> [] end /\ plain e.
Proof.
  unfold validate_entry, plain. cbv zeta. destruct (section e) as [name|].
  - destruct name as [|c name]; [simpl; naive_solver|]. cbn [is_empty].
    destruct (bad_section _); simpl; naive_solver.
  - rewrite has_errors_app, orb_false_iff. destruct (key e) as [|c k]; cbn [is_empty]; [simpl; naive_solver|].
    destruct (bad_key _), (ends_with _ _); simpl; naive_solver.
Qed.

Lemma samba_since_ok profile i e :
  has_errors (validate_since to_lowercase profile i e) = false
  <-> forall since, parameter_since to_lowercase (key e) = Some since -> ~ too_old profile SAMBA_PROJECT since.
Proof. unfold validate_since. destruct (parameter_since _ _); [rewrite since_finding_ok|]; naive_solver. Qed.

Lemma no_errors_warn id v : has_errors (warn_if id v) = false.
Proof. by destruct v. Qed.

Lemma scope_no_errors es sec b : has_errors (validate_scope to_lowercase es sec b) = false.
Proof.
  unfold validate_scope, scope_warnings, scope_recommendations. cbv zeta.
  rewrite !has_errors_app, !orb_false_iff, !no_errors_warn. split_and!; try done; [by case_match|].
  destruct b; [|done]. rewrite !has_errors_app, !orb_false_iff. split_and!; by repeat case_match.
Qed.

Lemma values_no_errors es : has_errors (validate_values to_lowercase es) = false.
Proof.
  unfold validate_values. rewrite !has_errors_app, !orb_false_iff, no_errors_warn, scope_no_errors. split_and!; try done.
  - rewrite has_errors_false. unfold command_findings. apply Forall_forall. intros d (e & _ & Hd)%list_elem_of_omap.
    destruct (command_id to_lowercase e); [|done]. by injection Hd as <-.
  - rewrite has_errors_concat. induction (sections es) as [|s ss IH]; [done|]. csimpl. by rewrite scope_no_errors.
Qed.

Lemma samba_validate_ok m profile :
  has_errors (samba_validate to_lowercase m profile) = false <-> Forall (entry_valid profile) (smb_entries m).
Proof.
  unfold samba_validate. rewrite has_errors_app, values_no_errors, orb_false_r. apply has_errors_imap.
  intros i e. rewrite has_errors_app, orb_false_iff, samba_validate_entry_ok, samba_since_ok.
  split; [by intros [[? ?] ?]|by intros [? ? ?]].
Qed.

(** What is documented of [char::to_lowercase]: on ASCII it is the ASCII mapping. *)
Definition ascii_lowercase : Prop := forall c, (c < 128)%N -> to_lowercase c = [char_to_ascii_lowercase c].

Lemma normalise_ascii name :
  ascii_lowercase -> Forall (fun c => (c < 128)%N) name ->
  normalise to_lowercase name = to_ascii_lowercase (filter (fun c => is_whitespace c = false) name).
Proof.
  intros Hl. unfold normalise, to_ascii_lowercase. induction 1 as [|c name Hc _ IH]; [done|].
  rewrite filter_cons. destruct (decide _); [|done]. csimpl. by rewrite IH, Hl.
Qed.

Lemma defaults_valid profile : ascii_lowercase -> has_errors (samba_validate to_lowercase (samba_defaults profile) profile) = false.
Proof.
  intros Hl. apply samba_validate_ok.
  assert (samba_defaults profile = hardened_global) as -> by (unfold samba_defaults; by case_match).
  assert (Forall (fun e => forallb (fun c => (c <? 128)%N) (key e) = true
    /\ existsb (fun row => bool_decide (fst row = to_ascii_lowercase (filter (fun c => is_whitespace c = false) (key e)))) PARAMETER_SINCE = false
    /\ has_errors (validate_entry 0 e) = false) (smb_entries hardened_global)) as Hd.
  { repeat (apply Forall_cons; split; [by vm_compute|]). by apply Forall_nil. }
  eapply Forall_impl; [exact Hd|]. intros e (Ha & Hp & [? ?]%samba_validate_entry_ok). split; try done.
  intros since Hs. unfold parameter_since in Hs. rewrite normalise_ascii in Hs; [|done|].
  - apply fmap_Some in Hs as (row & Hr%find_some & _). destruct Hr as [Hin Hr].
    rewrite <- not_true_iff_false, existsb_exists in Hp. exfalso. eauto.
  - rewrite forallb_forall in Ha. apply Forall_forall. intros c Hc%list_elem_of_In. by apply N.ltb_lt, Ha.
Qed.

(** ** Effective values *)

(** The directives of a model, each with the section it stands in. *)
Fixpoint scoped (current : option rstr) (es : list SmbEntry) : list (option rstr * SmbEntry) :=
  match es with
  | [] => []
  | e :: es => match section e with Some name => scoped (Some name) es | None => (current, e) :: scoped current es end
  end.

(** The values a section itself gives to a parameter, in file order. *)
Definition own_values (es : list SmbEntry) (wanted : option rstr) (keys : list rstr) : list rstr :=
  omap (fun '(sec, e) => if in_section sec wanted && named to_lowercase keys e then Some (value e) else None) (scoped None es).

Lemma find_from_last wanted keys es : forall current found,
  find_from to_lowercase wanted keys current found es
  = or_else (last (omap (fun '(sec, e) => if in_section sec wanted && named to_lowercase keys e then Some (value e) else None)
                     (scoped current es))) found.
Proof.
  induction es as [|e es IH]; intros current found; [done|]. cbn [find_from scoped].
  destruct (section e) as [name|]; [by rewrite IH|]. rewrite IH. csimpl.
  destruct (_ && _); [|done]. by destruct (omap _ _) as [|v vs] using rev_ind; [|rewrite app_comm_cons, !last_snoc].
Qed.

Lemma find_in_last es wanted keys : find_in to_lowercase es wanted keys = last (own_values es wanted keys).
Proof. unfold find_in. rewrite find_from_last. unfold own_values. by destruct (last _). Qed.

Lemma eq_ignore_trans a b c : eq_ignore_ascii_case a b = true -> eq_ignore_ascii_case c a = eq_ignore_ascii_case c b.
Proof. unfold eq_ignore_ascii_case. intros ->%bool_decide_eq_true. done. Qed.

Lemma eq_ignore_sym a b : eq_ignore_ascii_case a b = eq_ignore_ascii_case b a.
Proof. unfold eq_ignore_ascii_case. apply bool_decide_ext. split; congruence. Qed.

(** A section is its name without regard to case. *)
Lemma scope_warnings_case es a b :
  eq_ignore_ascii_case a b = true -> scope_warnings to_lowercase es (Some a) = scope_warnings to_lowercase es (Some b).
Proof.
  intros H. assert (forall keys, value_of_in_section to_lowercase es (Some a) keys = value_of_in_section to_lowercase es (Some b) keys) as Hv.
  { intros keys. unfold value_of_in_section. cbv zeta.
    rewrite (eq_ignore_sym a), (eq_ignore_sym b), (eq_ignore_trans a b) by done.
    assert (find_in to_lowercase es (Some a) keys = find_in to_lowercase es (Some b) keys) as ->; [|done].
    rewrite !find_in_last. unfold own_values. f_equal. apply list_omap_ext, Forall_Forall2_diag, Forall_true. intros [sec e].
    destruct sec as [c|]; [|done]. cbn [in_section]. by rewrite (eq_ignore_trans a b). }
  unfold scope_warnings, offending. cbv zeta. by rewrite !Hv.
Qed.

Lemma sections_complete es name :
  (exists e, e ∈ es /\ section e = Some name) ->
  eq_ignore_ascii_case name (lit "global") = true \/ exists k, k ∈ sections es /\ eq_ignore_ascii_case k name = true.
Proof.
  intros (e & He & Hs). unfold sections. induction es as [|x es IH] using rev_ind; [by apply elem_of_nil in He|].
  rewrite foldl_snoc. set (known := foldl add_section [] es) in *. unfold add_section.
  apply elem_of_app in He as [He| ->%list_elem_of_singleton].
  - destruct (IH He) as [?|(k & Hk & Hn)]; [by left|right]. exists k. split; [|done].
    destruct (section x); [|done]. case_match; [done|set_solver].
  - rewrite Hs. destruct (eq_ignore_ascii_case name (lit "global")); [by left|right]. cbn [orb].
    destruct (existsb _ known) eqn:E.
    + apply existsb_exists in E as (k & Hk%list_elem_of_In & Hn). eauto.
    + exists name. split; [set_solver|]. unfold eq_ignore_ascii_case. by rewrite bool_decide_true.
Qed.

(** A share whose name is some spelling of [global] is the global section. *)
Lemma scope_warnings_global es name :
  eq_ignore_ascii_case name (lit "global") = true -> scope_warnings to_lowercase es (Some name) = scope_warnings to_lowercase es None.
Proof.
  intros H. assert (forall keys, value_of_in_section to_lowercase es (Some name) keys = value_of_in_section to_lowercase es None keys) as Hv.
  { intros keys. unfold value_of_in_section. cbv zeta. by rewrite H. }
  unfold scope_warnings, offending. cbv zeta. by rewrite !Hv.
Qed.

Lemma scope_reported m profile sec d :
  match sec with Some name => exists e, e ∈ smb_entries m /\ section e = Some name | None => True end ->
  d ∈ scope_warnings to_lowercase (smb_entries m) sec -> d ∈ samba_validate to_lowercase m profile.
Proof.
  intros Hs Hd. unfold samba_validate, validate_values. rewrite !elem_of_app. right. right. right.
  assert (d ∈ scope_warnings to_lowercase (smb_entries m) None
    \/ exists k, k ∈ sections (smb_entries m) /\ d ∈ scope_warnings to_lowercase (smb_entries m) (Some k)) as [?|(k & Hk & ?)].
  { destruct sec as [name|]; [|by left].
    destruct (sections_complete _ _ Hs) as [Hg|(k & Hk & Hn)]; [left; by rewrite (scope_warnings_global _ name) in Hd|].
    right. exists k. by rewrite (scope_warnings_case _ k name). }
  - left. unfold validate_scope. set_solver.
  - right. apply elem_of_concat. eexists. split; [|apply list_elem_of_fmap; eauto]. unfold validate_scope. set_solver.
Qed.

End Accepted.

(** ** Properties *)

(** What the samba module can write. A header is rendered exactly when its
    name is non-empty, trimmed and holds no bracket, slash or trailing
    backslash; a directive when its key is non-empty, trimmed, without [=], not
    the start of a section, a comment or a path and not ending in a backslash,
    and its value is trimmed and does not end in a backslash; and there is no
    line break or NUL. The line is then [[name]], [key = value], or [key =]. *)
Theorem samba_writable (e : SmbEntry) (r : rstr) :
  samba_render_line e = Ok r <-> r = entry_line e /\ carried e /\ plain e /\ (LF ∉ r /\ CR ∉ r /\ NUL ∉ r).
Proof. apply samba_render_entry_iff. Qed.

(** What samba validation promises. It reports no error exactly when every
    header has a name and every directive a key, none of them holds syntax the
    printer refuses, and no parameter needs a newer samba than the one known to
    be installed. Its warnings look at effective values: the last directive of
    the share itself, else of [global], else above every header; every warning
    about the global section and about any share that has a header is reported,
    however the header is spelt. The defaults pass on every host. *)
Theorem samba_validate_spec (to_lowercase : rchar -> rstr) (m : SambaModel) (profile : HostProfile) :
  let es := smb_entries m in
  (has_errors (samba_validate to_lowercase m profile) = false <-> Forall (entry_valid to_lowercase profile) es)
  /\ (forall name keys, value_of_in_section to_lowercase es (Some name) keys
        = let own s := last (own_values to_lowercase es s keys) in
          let global := or_else (own (Some (lit "global"))) (own None) in
          if eq_ignore_ascii_case name (lit "global") then global else or_else (own (Some name)) global)
  /\ (forall d, d ∈ scope_warnings to_lowercase es None -> d ∈ samba_validate to_lowercase m profile)
  /\ (forall name d, (exists e, e ∈ es /\ section e = Some name) ->
        d ∈ scope_warnings to_lowercase es (Some name) -> d ∈ samba_validate to_lowercase m profile)
  /\ (ascii_lowercase to_lowercase -> has_errors (samba_validate to_lowercase (samba_defaults profile) profile) = false).
Proof.
  cbv zeta. split_and!.
  - apply samba_validate_ok.
  - intros name keys. unfold value_of_in_section. cbv zeta. by rewrite !find_in_last.
  - intros d. by apply (scope_reported _ _ _ None).
  - intros name d Hs. by apply (scope_reported _ _ _ (Some name)).
  - apply defaults_valid.
Qed.

(** A share that turns guest access on under another spelling of its name, and
    inherits the write list of the global section. *)
Definition guest_model : SambaModel :=
  mkSamba [directive (lit "write list") (lit "@staff"); mkSmb (Some (lit "Data")) [] []; directive (lit "path") (lit "/srv");
           mkSmb (Some (lit "DATA")) [] []; directive (lit "Guest OK") (lit "yes")].

Definition ascii_lower (c : rchar) : rstr := [char_to_ascii_lowercase c].

Lemma samba_validate_spec_witness :
  with_value Warning GUEST_OK (lit "yes") ∈ samba_validate ascii_lower guest_model (mkProfile Linux Systemd [] ∅ 0)
  /\ new_diagnostic Warning WRITABLE_EXPOSURE ∈ samba_validate ascii_lower guest_model (mkProfile Linux Systemd [] ∅ 0).
Proof.
  destruct (samba_validate_spec ascii_lower guest_model (mkProfile Linux Systemd [] ∅ 0)) as (_ & _ & _ & Hs & _).
  split; apply (Hs (lit "Data")).
  - exists (mkSmb (Some (lit "Data")) [] []). split; [|done]. right. by left.
  - left.
  - exists (mkSmb (Some (lit "Data")) [] []). split; [|done]. right. by left.
  - right. left.
Defined.
