(* ===== verification/Descriptor.v ===== *)
(** * Module descriptors

    What a module declares about itself, [crates/detent-core/src/descriptor.rs]:
    the files it owns, the services and the validators it names. All of it is
    static data; the allow-list of the monitor is built from it. *)

From Stdlib Require Import ZArith.
From stdpp Require Import gmap.
From S2P Require Import Prelude Str Doc Diag.
#[local] Open Scope Z_scope.

(** A path written in the source. *)
Definition PathSpec := rstr.

Module Kind.
Inductive TargetKind := File | DropInDir | Directory.
End Kind.
Abbreviation TargetKind := Kind.TargetKind.

#[export] Instance TargetKind_eq_dec : EqDecision TargetKind.
Proof. solve_decision. Defined.

Inductive Owner := Root | Named (account : rstr).

Record Target := mkTarget {
  t_path : PathSpec;
  t_kind : TargetKind;
  t_mode : Z;
  t_owner : Owner;
  backend_detect : HostProfile -> bool;
}.

Record Upstream := mkUpstream {
  project : rstr;
  repo_url : rstr;
  tracked_version : rstr;
  release_feed : option rstr;
  docs : list rstr;
}.

Record UnitNames := mkUnits { systemd : list rstr; openrc : list rstr; bsdrc : list rstr }.

Module Core.
Inductive ServiceAction := Restart | Reload | Start | Stop.
End Core.

#[export] Instance core_action_eq_dec : EqDecision Core.ServiceAction.
Proof. solve_decision. Defined.

Record ReloadCommand := mkReload { r_program : PathSpec; r_args : list rstr }.

Record ServiceBinding := mkBinding {
  units : UnitNames;
  actions : list Core.ServiceAction;
  b_applies_to : list PathSpec;
  reload : list ReloadCommand;
}.

(** Does a declaration that names [applies_to] concern the file [path]? *)
Definition applies (applies_to : list PathSpec) (path : rstr) : bool :=
  is_empty applies_to || existsb (fun spec => bool_decide (spec = path)) applies_to.

Definition serves (b : ServiceBinding) (path : rstr) : bool := applies (b_applies_to b) path.

Inductive ArgTemplate := Literal (s : rstr) | TempFile.
Inductive CheckExpectation := ExitZero | StdoutContains (s : rstr).

Record ExternalCheck := mkCheck {
  c_program : PathSpec;
  c_args : list ArgTemplate;
  expects : CheckExpectation;
  c_applies_to : list PathSpec;
  stage_as : option rstr;
  run_as_dir_owner : bool;
}.

Definition judges (c : ExternalCheck) (path : rstr) : bool := applies (c_applies_to c) path.

Record MountUnit := mkMountUnit { mountpoint : rstr; unit_name : rstr }.
Definition AddedMounts := rstr -> rstr -> list MountUnit.

Record ModuleDescriptor := mkDescriptor {
  d_id : rstr;
  display_name_id : MessageId;
  d_targets : list Target;
  upstream : Upstream;
  services : list ServiceBinding;
  d_checks : list ExternalCheck;
  commit_confirm : bool;
  reload_unit_files : bool;
  added_mounts : option AddedMounts;
  security_notes : list MessageId;
}.

(** ** Files that live at another path on some hosts *)

Definition slash : rchar := 47%N.

(** The part after the last slash. *)
Definition file_name_of (t : Target) : option rstr := last (split (N.eqb slash) (t_path t)).

Definition drop_ins (chosen : Target) : rstr := t_path chosen ++ lit ".d/".

Definition detected_file (chosen : Target) (profile : HostProfile) (t : Target) : bool :=
  bool_decide (t_kind chosen = Kind.File) && bool_decide (t_kind t = Kind.File)
  && bool_decide (t_path t <> t_path chosen) && backend_detect t profile.

Definition alternatives (d : ModuleDescriptor) (chosen : Target) (profile : HostProfile) : list Target :=
  filter (fun t => Is_true (detected_file chosen profile t && bool_decide (file_name_of t = file_name_of chosen))) (d_targets d).

Definition drop_in (d : ModuleDescriptor) (chosen : Target) (profile : HostProfile) : list Target :=
  filter (fun t => Is_true (detected_file chosen profile t && bool_decide (drop_ins chosen `prefix_of` t_path t))) (d_targets d).

Definition relocated (d : ModuleDescriptor) (chosen : Target) (profile : HostProfile) (exists_ : rstr -> bool) : Target :=
  let alts := alternatives d chosen profile in
  let drops := drop_in d chosen profile in
  if (is_empty alts && is_empty drops) || exists_ (t_path chosen) then chosen
  else match List.find (fun t => exists_ (t_path t)) alts with
       | Some t => t
       | None => default chosen (head drops)
       end.

(** ** The file of a module on a host *)

Lemma find_elem {A} (p : A -> bool) l x : List.find p l = Some x -> x ∈ l /\ p x = true.
Proof. intros [H ?]%find_some. by rewrite list_elem_of_In. Qed.

Lemma detected_file_elim chosen profile t : detected_file chosen profile t = true ->
  t_kind chosen = Kind.File /\ t_kind t = Kind.File /\ t_path t <> t_path chosen /\ backend_detect t profile = true.
Proof. unfold detected_file. intros H. by bool_to_prop. Qed.

(** A stand-in is a detected file of the module with the same name that exists,
    or its drop-in when no such file does; a target that exists is never
    replaced. *)
Lemma relocated_spec d chosen profile ex t : relocated d chosen profile ex = t -> t <> chosen ->
  t ∈ d_targets d /\ t_kind t = Kind.File /\ backend_detect t profile = true /\ ex (t_path chosen) = false
  /\ (ex (t_path t) = true /\ file_name_of t = file_name_of chosen
      \/ drop_ins chosen `prefix_of` t_path t
         /\ forall u, u ∈ alternatives d chosen profile -> ex (t_path u) = false).
Proof.
  unfold relocated. intros H Hne. destruct ((_ && _) || _) eqn:E; [congruence|].
  apply orb_false_iff in E as [_ E].
  destruct (List.find _ _) as [u|] eqn:F.
  - simplify_eq. apply find_elem in F as [F Hu].
    apply list_elem_of_filter in F as [[H1 H2]%Is_true_true%andb_true_iff F].
    destruct (detected_file_elim _ _ _ H1) as (_ & ? & _ & ?). bool_to_prop. split_and!; auto.
  - destruct (drop_in d chosen profile) as [|u l] eqn:D; simpl in H; [congruence|]. simplify_eq.
    assert (Hin : t ∈ drop_in d chosen profile) by (rewrite D; left).
    apply list_elem_of_filter in Hin as [[H1 H2]%Is_true_true%andb_true_iff Hin].
    destruct (detected_file_elim _ _ _ H1) as (_ & ? & _ & ?). bool_to_prop. split_and!; auto. right. split; [done|].
    intros u Hu%list_elem_of_In. by apply (find_none _ _ F u).
Qed.
