(* ===== verification/Proto.v ===== *)
(** * The wire protocol of the monitor and the worker

    [crates/detent-platform/src/privsep/proto.rs]: the closed sets of requests and
    responses, their ids, which requests change state, release tags, and the size
    rules of the codec. [postcard] and [semver] are parameters. *)

From Stdlib Require Import ZArith.
From stdpp Require Import gmap.
From S2P Require Import Prelude Str Doc Diag Descriptor Disk Atomic.
#[local] Open Scope Z_scope.

Definition PROTO_VERSION : N := 4.
Definition MAX_FRAME : N := 1024 * 1024.
Definition MAX_RELEASE_TAG_LEN : nat := 64.

(** ** Release tags *)

Section Tags.
Context {Semver : Type}.
Variable parse_version : rstr -> option Semver.
Variable build_is_empty : Semver -> bool.
Variable newer : Semver -> Semver -> bool.
(** The version of this build. *)
Variable current : Semver.

Definition tag_char (c : rchar) : bool :=
  is_ascii_alphanumeric c || (c =? 46)%N || (c =? 45)%N.  (* . - *)

(** The version a tag names, if it has the leading [v]. *)
Definition tag_version (tag : rstr) : option Semver := strip_prefix 118%N tag ≫= parse_version.

Definition is_release_tag (tag : rstr) : bool :=
  (str_len tag <=? MAX_RELEASE_TAG_LEN)%nat && forallb tag_char tag
  && match tag_version tag with Some v => build_is_empty v | None => false end.

Inductive UpdateTagRefusal := NotReleaseTag | NotNewer.

Definition check_update_tag (tag : rstr) : result UpdateTagRefusal () :=
  if negb (is_release_tag tag) then Err NotReleaseTag
  else match tag_version tag with
       | Some v => if newer v current then Ok () else Err NotNewer
       | None => Err NotReleaseTag
       end.

(** An accepted tag is safe as an instance name and as an argument. *)
Lemma check_update_tag_ok tag : check_update_tag tag = Ok () ->
  head tag = Some 118%N /\ (length tag <= MAX_RELEASE_TAG_LEN)%nat /\ Forall (fun c => tag_char c = true) tag
  /\ exists v, tag_version tag = Some v /\ build_is_empty v = true /\ newer v current = true.
Proof.
  unfold check_update_tag, is_release_tag. intros H. destruct (tag_version tag) as [v|] eqn:E; [|by rewrite andb_false_r in H].
  destruct (_ && _) eqn:F; simpl in H; [|done]. bool_to_prop. destruct (newer v current) eqn:G; [|done].
  assert (Hlen : (length tag <= str_len tag)%nat).
  { clear. unfold str_len. induction tag as [|c t IH]; simpl; [done|].
    assert (1 <= len_utf8 c)%nat by (unfold len_utf8; repeat case_match; lia). lia. }
  split_and!; [|lia|by apply Forall_forall; intros c Hc; eapply forallb_forall; [done|]; apply list_elem_of_In|by eauto].
  unfold tag_version, strip_prefix in E. destruct tag as [|c t]; [done|]. simpl in *. by repeat case_match; simplify_eq; bool_to_prop; subst.
Qed.

End Tags.

(** ** Identifiers *)

(** 16-bit indices into the tables of the monitor. *)
Abbreviation TargetId := N (only parsing).
Abbreviation CheckId := N (only parsing).
Abbreviation BindingId := N (only parsing).
Abbreviation ModuleId := N (only parsing).
(** 32-bit. *)
Abbreviation BackupId := N (only parsing).
Abbreviation CommitId := N (only parsing).

(** ** Wire mirrors *)

Module Wire.
Inductive PathKind := File | DropInDir | Directory.
Inductive ServiceAction := Restart | Reload | Start | Stop | Status.
End Wire.
Abbreviation PathKind := Wire.PathKind.

#[export] Instance PathKind_eq_dec : EqDecision PathKind.
Proof. solve_decision. Defined.

Definition kind_of (k : TargetKind) : PathKind :=
  match k with Kind.File => Wire.File | Kind.DropInDir => Wire.DropInDir | Kind.Directory => Wire.Directory end.

Definition to_core (a : Wire.ServiceAction) : option Core.ServiceAction :=
  match a with
  | Wire.Restart => Some Core.Restart
  | Wire.Reload => Some Core.Reload
  | Wire.Start => Some Core.Start
  | Wire.Stop => Some Core.Stop
  | Wire.Status => None
  end.

Definition from_core (a : Core.ServiceAction) : Wire.ServiceAction :=
  match a with
  | Core.Restart => Wire.Restart
  | Core.Reload => Wire.Reload
  | Core.Start => Wire.Start
  | Core.Stop => Wire.Stop
  end.

Lemma to_from_core a : to_core (from_core a) = Some a.
Proof. by destruct a. Qed.

Record PendingService := mkPendingService { ps_binding : BindingId; ps_action : Wire.ServiceAction }.

(** ** Requests *)

Module Req.
Inductive Request :=
| Hello (proto : N)
| ReadTarget (target : TargetId)
| WriteTarget (target : TargetId) (expected_prev : option Sha256Digest) (bytes : rbytes) (journal : bool)
| RunCheck (check : CheckId) (bytes : rbytes)
| Service (binding : BindingId) (action : Wire.ServiceAction)
| ListBackups (module : ModuleId)
| Restore (module : ModuleId) (backup : BackupId)
| StartConfirmTimer (commit : CommitId) (timeout_s : Z) (service : option PendingService)
| ConfirmCommit (commit : CommitId)
| Mount (target : TargetId)
| ReplaceBinary (tag : rstr) (len : Z) (sha256 : Sha256Digest)
| Shutdown
| RollbackCommit (commit : CommitId)
| PendingCommit
| ReloadUnitFiles (module : ModuleId)
| StageBegin (tag : rstr) (len : Z) (sha256 : Sha256Digest) (bundle : rbytes)
| StageUpdate (offset : Z) (chunk : rbytes)
| StartUpdate (tag : rstr).
End Req.
Abbreviation Request := Req.Request.

Definition changes_state (r : Request) : bool :=
  match r with
  | Req.WriteTarget _ _ _ _ | Req.Restore _ _ | Req.StartConfirmTimer _ _ _ | Req.ConfirmCommit _ | Req.RollbackCommit _
  | Req.Mount _ | Req.ReplaceBinary _ _ _ | Req.ReloadUnitFiles _ | Req.StageBegin _ _ _ _ | Req.StageUpdate _ _
  | Req.StartUpdate _ => true
  | Req.Service _ Wire.Status => false
  | Req.Service _ _ => true
  | Req.Hello _ | Req.ReadTarget _ | Req.RunCheck _ _ | Req.ListBackups _ | Req.PendingCommit | Req.Shutdown => false
  end.

(** Requests that write no target and open or close no commit. *)
Definition writes_nothing (r : Request) : bool :=
  match r with
  | Req.WriteTarget _ _ _ _ | Req.Restore _ _ | Req.StartConfirmTimer _ _ _ | Req.ConfirmCommit _ | Req.RollbackCommit _ => false
  | _ => true
  end.

(** ** Responses *)

Record TargetInfo := mkTargetInfo { ti_id : TargetId; ti_module : ModuleId; ti_path : rstr; ti_kind : PathKind }.
Record CheckInfo := mkCheckInfo { ci_id : CheckId; ci_module : ModuleId; ci_program : rstr; ci_targets : list TargetId }.
Record BindingInfo := mkBindingInfo {
  bi_id : BindingId;
  bi_module : ModuleId;
  bi_unit : rstr;
  bi_actions : list Wire.ServiceAction;
  bi_targets : list TargetId;
}.
Record ModuleInfo := mkModuleInfo { mi_id : ModuleId; mi_name : rstr; mi_commit_confirm : bool }.

Record HelloAck := mkHelloAck {
  ack_proto : N;
  ack_modules : list ModuleInfo;
  ack_targets : list TargetInfo;
  ack_checks : list CheckInfo;
  ack_bindings : list BindingInfo;
}.

Record TargetContents := mkContents { tc_target : TargetId; tc_bytes : rbytes; tc_digest : Sha256Digest }.

Record WriteReceipt := mkReceipt {
  wr_target : TargetId;
  wr_prev_digest : option Sha256Digest;
  wr_new_digest : Sha256Digest;
  wr_created : bool;
  wr_backed_up : bool;
  wr_owner_preserved : bool;
}.

Record BackupInfo := mkBackupInfo {
  bk_id : BackupId;
  bk_target : TargetId;
  bk_name : rstr;
  bk_created_unix_s : Z;
  bk_digest : Sha256Digest;
  bk_len : nat;
}.

Record CheckOutcome := mkCheckOutcome { co_check : CheckId; passed : bool; exit_code : option Z; co_detail : rstr }.
Record ServiceOutcome := mkServiceOutcome { so_binding : BindingId; so_active : bool; so_detail : rstr }.

Inductive UnitState := Active | Inactive | UFailed | Activating | Deactivating | UUnknown.
Record UnitStatus := mkUnitStatus { us_unit : rstr; us_state : UnitState; us_enabled : option bool; us_since : option (Z * Z) }.

Inductive MountState := MMounted | AlreadyMounted | MPending | MFailed | Protected | Stopped.
Record MountOutcome := mkMountOutcome { mo_mountpoint : rstr; mo_unit : rstr; mo_state : MountState; mo_detail : rstr }.

(** ** Errors *)

Module Ids.
Inductive IdKind := Target | Check | Binding | Module_ | Backup | Commit.
End Ids.

Definition id_kind_name (k : Ids.IdKind) : rstr :=
  match k with
  | Ids.Target => lit "target"
  | Ids.Check => lit "check"
  | Ids.Binding => lit "binding"
  | Ids.Module_ => lit "module"
  | Ids.Backup => lit "backup"
  | Ids.Commit => lit "commit"
  end.

Module PErr.
Inductive ProtoError :=
| VersionMismatch (expected got : N)
| HandshakeRequired
| UnknownId (kind : Ids.IdKind) (id : N)
| ActionNotAllowed
| Conflict (expected : Sha256Digest) (actual : option Sha256Digest)
| CommitPending (commit : CommitId)
| CommitExpired (commit : CommitId)
| Unsupported (message : rstr)
| Unavailable (message : rstr)
| Io (message : rstr)
| VerificationFailed
| NotFound
| StateLockUnavailable
| UpdateRunning.
End PErr.
Abbreviation ProtoError := PErr.ProtoError.

Module Resp.
Inductive Response :=
| HelloAck (ack : HelloAck)
| Target (t : TargetContents)
| Written (w : WriteReceipt)
| Checked (c : CheckOutcome)
| Serviced (s : ServiceOutcome)
| Backups (l : list BackupInfo)
| Restored (target : TargetId) (new_digest : Sha256Digest)
| ConfirmTimerStarted (commit : CommitId) (timeout_s : Z) (rollback_targets : Z)
| Committed (commit : CommitId)
| ShuttingDown
| Error (e : ProtoError)
| RolledBack (commit : CommitId) (restored : Z)
| Replaced (version : rstr)
| Pending (commit : option CommitId)
| UnitFilesReloaded (detail : rstr)
| Mounted (activated : bool) (units : list MountOutcome)
| Staged (received : Z)
| UpdateStarted (detail : rstr)
| UnitStatus (s : UnitStatus).
End Resp.
Abbreviation Response := Resp.Response.

Inductive CodecError := CodecOversize (len : N) | CodecMalformed (message : rstr).

(** ** The codec *)

Definition byte_len (b : rbytes) : N := N.of_nat (length b).

(** What the code relies on of [postcard]: a value encodes to bytes that give it
    back, whatever follows them. *)
Class Postcard (T : Type) := {
  to_allocvec : T -> result rstr rbytes;
  take_from_bytes : rbytes -> result rstr (T * rbytes);
}.
Class PostcardLaws (T : Type) `{Postcard T} :=
  take_to : forall v b rest, to_allocvec v = Ok b -> take_from_bytes (b ++ rest) = Ok (v, rest).

Section Codec.
Context {T : Type} `{Postcard T}.

Definition encode (v : T) : result CodecError rbytes :=
  match to_allocvec v with
  | Err e => Err (CodecMalformed e)
  | Ok b => if (MAX_FRAME <? byte_len b)%N then Err (CodecOversize (byte_len b)) else Ok b
  end.

Variable show_trailing : nat -> rstr.

Definition decode (b : rbytes) : result CodecError T :=
  if (MAX_FRAME <? byte_len b)%N then Err (CodecOversize (byte_len b))
  else match take_from_bytes b with
       | Err e => Err (CodecMalformed e)
       | Ok (v, rest) => if is_empty rest then Ok v else Err (CodecMalformed (show_trailing (length rest)))
       end.

Lemma encode_ok v b : encode v = Ok b -> to_allocvec v = Ok b /\ (byte_len b <= MAX_FRAME)%N.
Proof. unfold encode. destruct (to_allocvec v) as [b'|]; [|done]. case_if; [done|]. intros [= <-]. bool_to_prop. done. Qed.

Lemma decode_encode `{!PostcardLaws T} v b : encode v = Ok b -> decode b = Ok v.
Proof.
  intros [Hb Hl]%encode_ok. unfold decode. apply N.ltb_ge in Hl as ->.
  pose proof (take_to v b [] Hb) as E. rewrite app_nil_r in E. by rewrite E.
Qed.

(** A frame decodes exactly or not at all: nothing may follow the message. *)
Lemma decode_exact `{!PostcardLaws T} v b rest : to_allocvec v = Ok b -> rest <> [] -> exists e, decode (b ++ rest) = Err e.
Proof.
  intros Hb Hr. unfold decode. case_if; [eauto|]. rewrite (take_to v b rest Hb). destruct rest; [done|]. eauto.
Qed.

End Codec.
