(* ===== verification/Transport.v ===== *)
(** * The privsep channel

    [crates/detent-platform/src/privsep/transport.rs]: messages framed by a 4-byte
    length over a byte stream. The socket is the sequence of answers its reads
    give: chunks of any size, interruptions, timeouts, the end, or an error; a
    chunk longer than the buffer stays for the next read. *)

From Stdlib Require Import ZArith.
From stdpp Require Import gmap.
From S2P Require Import Prelude Str Num Doc Diag Descriptor Disk Atomic Proto.

Definition HEADER_LEN : nat := 4.

(** [std::io::ErrorKind], as far as a socket call gives it. *)
Inductive SocketError := Interrupted | WouldBlock | TimedOut | BrokenPipe | ConnectionReset | UnexpectedEof | InvalidInput | OtherError.

Inductive ChannelError :=
| Closed
| Oversize (len : N)
| Decode (e : CodecError)
| Timeout
| SocketIo (e : SocketError).

Definition is_protocol_violation (e : ChannelError) : bool :=
  match e with Oversize _ | Decode _ => true | _ => false end.

Definition is_timeout (e : SocketError) : bool := match e with WouldBlock | TimedOut => true | _ => false end.

Definition map_timeout_error (e : SocketError) (timeout_is_zero : bool) : ChannelError :=
  match e with InvalidInput => if timeout_is_zero then SocketIo e else Closed | _ => SocketIo e end.

Definition map_write_error (e : SocketError) : ChannelError :=
  match e with
  | BrokenPipe | ConnectionReset | UnexpectedEof => Closed
  | WouldBlock | TimedOut => Timeout
  | _ => SocketIo e
  end.

(** What the next reads of the socket answer; no bytes means the end of the
    stream, and after the last answer nothing more arrives in time. *)
Inductive Read := Data (b : rbytes) | ReadError (e : SocketError).
Abbreviation Stream := (list Read).

Inductive Filled := Full (buf : rbytes) | Idle.

Definition timed_out (filled : rbytes) : result ChannelError Filled :=
  if is_empty filled then Ok Idle else Err Timeout.

Fixpoint read_exact_or_idle (need : nat) (filled : rbytes) (s : Stream) : result ChannelError Filled * Stream :=
  if (need =? 0)%nat then (Ok (Full filled), s)
  else match s with
  | [] => (timed_out filled, [])
  | Data b :: s' =>
      if (length b =? 0)%nat then (Err Closed, s')
      else if (length b <=? need)%nat then read_exact_or_idle (need - length b) (filled ++ b) s'
      else (Ok (Full (filled ++ take need b)), Data (drop need b) :: s')
  | ReadError e :: s' =>
      match e with
      | Interrupted => read_exact_or_idle need filled s'
      | _ => if is_timeout e then (timed_out filled, s') else (Err (SocketIo e), s')
      end
  end.

(** [u32::to_be_bytes] and [u32::from_be_bytes]. *)
Definition to_be_bytes (n : N) : rbytes := [n / 16777216 mod 256; n / 65536 mod 256; n / 256 mod 256; n mod 256]%N.
Definition from_be_bytes (b : rbytes) : N := fold_left (fun acc x => acc * 256 + x)%N b 0%N.

Lemma be_bytes n : (n < 2 ^ 32)%N -> from_be_bytes (to_be_bytes n) = n.
Proof.
  intros H. unfold from_be_bytes, to_be_bytes. cbn [fold_left].
  zify. Z.to_euclidean_division_equations. lia.
Qed.

Section Channel.
Context {T : Type} `{Postcard T}.
Variable show_trailing : nat -> rstr.

(** The bytes [send] writes, or why it does not. *)
Definition frame (m : T) : result ChannelError rbytes :=
  match encode m with
  | Ok body => Ok (to_be_bytes (byte_len body) ++ body)
  | Err (CodecOversize len) => Err (Oversize len)
  | Err other => Err (Decode other)
  end.

(** [written]: how the socket takes the frame. *)
Definition send (m : T) (written : option SocketError) : result ChannelError rbytes :=
  match frame m, written with
  | Ok f, None => Ok f
  | Ok _, Some e => Err (map_write_error e)
  | Err e, _ => Err e
  end.

Definition poll_recv (s : Stream) : result ChannelError (option T) * Stream :=
  match read_exact_or_idle HEADER_LEN [] s with
  | (Err e, s) => (Err e, s)
  | (Ok Idle, s) => (Ok None, s)
  | (Ok (Full header), s) =>
      let len := from_be_bytes header in
      if (MAX_FRAME <? len)%N then (Err (Oversize len), s)
      else match read_exact_or_idle (N.to_nat len) [] s with
           | (Err e, s) => (Err e, s)
           | (Ok Idle, s) => (Err Timeout, s)
           | (Ok (Full body), s) =>
               match decode show_trailing body with
               | Ok m => (Ok (Some m), s)
               | Err e => (Err (Decode e), s)
               end
           end
  end.

Definition recv (s : Stream) : result ChannelError T * Stream :=
  match poll_recv s with
  | (Ok (Some m), s) => (Ok m, s)
  | (Ok None, s) => (Err Timeout, s)
  | (Err e, s) => (Err e, s)
  end.

(** ** Delivery *)

(** [s] delivers [b], cut into reads in any way and interrupted at will, and
    then goes on as [t]. *)
Inductive delivers : Stream -> rbytes -> Stream -> Prop :=
| delivers_done s : delivers s [] s
| delivers_data b s rest t : b <> [] -> delivers s rest t -> delivers (Data b :: s) (b ++ rest) t
| delivers_interrupted s b t : delivers s b t -> delivers (ReadError Interrupted :: s) b t.

Lemma fill_delivers s b t need filled : delivers s b t -> (need <= length b)%nat ->
  exists s', read_exact_or_idle need filled s = (Ok (Full (filled ++ take need b)), s') /\ delivers s' (drop need b) t.
Proof.
  intros Hd. revert need filled. induction Hd as [s|b s rest t Hb Hd IH|s b t Hd IH]; intros need filled Hn.
  - simpl in Hn. assert (need = 0)%nat as -> by lia. exists s. rewrite app_nil_r. split; [by destruct s|constructor].
  - cbn [read_exact_or_idle]. destruct (need =? 0)%nat eqn:E; bool_to_prop.
    { subst. eexists. rewrite take_0, app_nil_r, drop_0. split; [done|]. by constructor. }
    destruct (length b =? 0)%nat eqn:E0; bool_to_prop; [by destruct b|].
    rewrite length_app in Hn. destruct (length b <=? need)%nat eqn:E1; bool_to_prop.
    + destruct (IH (need - length b)%nat (filled ++ b)) as (s' & H1 & H2); [lia|]. exists s'.
      rewrite H1, take_app, drop_app, (take_ge b), (drop_ge b) by lia. by rewrite (assoc_L _).
    + eexists. rewrite take_app_le, drop_app_le by lia. split; [done|].
      constructor; [|done]. intros E2%(f_equal length). rewrite length_drop in E2. simpl in E2. lia.
  - cbn [read_exact_or_idle]. destruct (need =? 0)%nat eqn:E; bool_to_prop.
    + subst. eexists. rewrite app_nil_r, drop_0. split; [done|]. by constructor.
    + by apply IH.
Qed.

Lemma fill_header s header rest t : length header = HEADER_LEN -> delivers s (header ++ rest) t ->
  exists s', read_exact_or_idle HEADER_LEN [] s = (Ok (Full header), s') /\ delivers s' rest t.
Proof.
  intros Hh Hd. destruct (fill_delivers _ _ _ HEADER_LEN [] Hd) as (s1 & -> & Hd1); [rewrite length_app; lia|].
  rewrite <- Hh, take_app_length, drop_app_length in *. eauto.
Qed.

(** Silence before the buffer is full. *)
Lemma fill_silent s b e t need filled : is_timeout e = true -> delivers s b (ReadError e :: t) -> (length b < need)%nat ->
  read_exact_or_idle need filled s = (Ok Idle, t) /\ filled ++ b = []
  \/ read_exact_or_idle need filled s = (Err Timeout, t) /\ filled ++ b <> [].
Proof.
  intros He Hd. remember (ReadError e :: t) as t' eqn:Et.
  revert need filled. induction Hd as [s|b s rest t0 Hb Hd IH|s b t0 Hd IH]; intros need filled Hn; subst.
  - cbn [read_exact_or_idle]. simpl in Hn. destruct (need =? 0)%nat eqn:E; bool_to_prop; [lia|]. rewrite app_nil_r.
    destruct e; try done; simpl; unfold timed_out; destruct filled; simpl; auto.
  - cbn [read_exact_or_idle]. rewrite length_app in Hn. destruct (need =? 0)%nat eqn:E; bool_to_prop; [lia|].
    destruct (length b =? 0)%nat eqn:E0; bool_to_prop; [by destruct b|].
    rewrite (proj2 (Nat.leb_le (length b) need)) by lia. rewrite (assoc_L _). apply IH; [done|lia].
  - cbn [read_exact_or_idle]. destruct (need =? 0)%nat eqn:E; bool_to_prop; [lia|]. by apply IH.
Qed.

Context `{!PostcardLaws T}.

Lemma frame_ok m f : frame m = Ok f -> exists body, encode m = Ok body /\ f = to_be_bytes (byte_len body) ++ body.
Proof. unfold frame. destruct (encode m) as [b|[]]; naive_solver. Qed.

Lemma poll_recv_frame m f s rest t : frame m = Ok f -> delivers s (f ++ rest) t ->
  exists s', poll_recv s = (Ok (Some m), s') /\ delivers s' rest t.
Proof.
  intros (body & He & ->)%frame_ok Hd. destruct (encode_ok m body He) as [_ Hl].
  assert (Hlen : (byte_len body < 2 ^ 32)%N) by (unfold MAX_FRAME in Hl; lia).
  unfold poll_recv. rewrite <- (assoc_L (++)) in Hd. destruct (fill_header s (to_be_bytes (byte_len body)) (body ++ rest) t eq_refl Hd) as (s1 & -> & Hd1).
  rewrite be_bytes by done. pose proof Hl as ->%N.ltb_ge.
  destruct (fill_delivers _ _ _ (N.to_nat (byte_len body)) [] Hd1) as (s2 & -> & Hd2).
  { rewrite length_app. unfold byte_len. lia. }
  unfold byte_len in Hd2 |- *. rewrite Nat2N.id, take_app_length, drop_app_length in *. cbn [app].
  rewrite (decode_encode _ m body He). eauto.
Qed.

(** The messages a reader gets until the stream has no more of them. *)
Fixpoint receive (n : nat) (s : Stream) : list T * Stream :=
  match n with
  | O => ([], s)
  | S n => match poll_recv s with
           | (Ok (Some m), s) => let '(ms, s) := receive n s in (m :: ms, s)
           | (_, s) => ([], s)
           end
  end.


(** Delivery. However the socket cuts the bytes of a sequence of sent messages
    into reads, and however often a read is interrupted, the reader gets exactly
    those messages in order, and not one byte beyond them is consumed. *)
Theorem channel_delivers ms fs s t rest : mapM frame ms = Ok fs -> delivers s (concat fs ++ rest) t ->
  exists s', receive (length ms) s = (ms, s') /\ delivers s' rest t.
Proof.
  revert fs s. induction ms as [|m ms IH]; intros fs s Hf Hd.
  - injection Hf as <-. exists s. by split.
  - apply result_bind_ok in Hf as (f & Hm & Hf). apply result_bind_ok in Hf as (fs' & Hms & Hf). injection Hf as <-.
    cbn [concat] in Hd. rewrite <- (assoc_L (++)) in Hd.
    destruct (poll_recv_frame m f s _ t Hm Hd) as (s1 & Hp & Hd1).
    destruct (IH fs' s1 Hms Hd1) as (s2 & Hr & Hd2). exists s2. cbn [length receive]. by rewrite Hp, Hr.
Qed.

(** What the reader refuses. A header above the limit is refused before any
    byte of the body is read; a frame with bytes after its message is refused; a
    stream that falls silent inside a frame is an error, and before a frame it is
    not. *)
Theorem channel_refuses s t header : length header = HEADER_LEN ->
  (forall rest, (MAX_FRAME < from_be_bytes header)%N -> delivers s (header ++ rest) t ->
     exists s', poll_recv s = (Err (Oversize (from_be_bytes header)), s') /\ delivers s' rest t)
  /\ (forall m b extra rest, to_allocvec m = Ok b -> extra <> [] -> from_be_bytes header = byte_len (b ++ extra) ->
     delivers s (header ++ (b ++ extra) ++ rest) t -> exists e s', poll_recv s = (Err e, s') /\ is_protocol_violation e = true)
  /\ (forall b e, (length b < N.to_nat (from_be_bytes header))%nat -> (from_be_bytes header <= MAX_FRAME)%N ->
     is_timeout e = true -> delivers s (header ++ b) (ReadError e :: t) -> poll_recv s = (Err Timeout, t))
  /\ (forall e, is_timeout e = true -> poll_recv (ReadError e :: t) = (Ok None, t)).
Proof.
  intros Hh. split_and!.
  - intros rest Hl Hd. unfold poll_recv. destruct (fill_header s header rest t Hh Hd) as (s1 & -> & Hd1).
    apply N.ltb_lt in Hl as ->. eauto.
  - intros m b extra rest Hb Hx Hl Hd. unfold poll_recv. destruct (fill_header s header _ t Hh Hd) as (s1 & -> & Hd1).
    case_if; [by eauto|]. rewrite Hl.
    destruct (fill_delivers _ _ _ (N.to_nat (byte_len (b ++ extra))) [] Hd1) as (s2 & -> & _).
    { unfold byte_len. rewrite !length_app. lia. }
    unfold byte_len. rewrite Nat2N.id, take_app_length. cbn [app].
    destruct (decode_exact show_trailing m b extra Hb Hx) as [e ->]. eauto.
  - intros b e Hb Hl He Hd. unfold poll_recv. destruct (fill_header s header b _ Hh Hd) as (s1 & -> & Hd1).
    apply N.ltb_ge in Hl as ->. by destruct (fill_silent _ _ e t _ [] He Hd1 Hb) as [[-> _]|[-> _]].
  - intros e He. unfold poll_recv. by destruct e.
Qed.

End Channel.

(** ** Witnesses *)

Module OneByte.
(** A message of one byte. *)
#[export] Instance postcard : Postcard N := {|
  to_allocvec v := Ok [v];
  take_from_bytes b := match b with v :: rest => Ok (v, rest) | [] => Err [] end;
|}.
#[export] Instance laws : PostcardLaws N.
Proof. intros v b rest [= <-]. done. Qed.
Definition stream : Stream := [Data [0]; ReadError Interrupted; Data [0; 0; 1; 7; 0; 0]; Data [0; 1; 8; 9]]%N.
End OneByte.
Import OneByte.

Lemma channel_delivers_witness : exists s', receive (fun _ => []) 2 OneByte.stream = ([7; 8]%N, s') /\ delivers s' [9%N] [].
Proof.
  apply (channel_delivers (fun _ => []) [7; 8]%N [[0; 0; 0; 1; 7]; [0; 0; 0; 1; 8]]%N); [reflexivity|].
  apply (delivers_data [0%N] _ [0; 0; 1; 7; 0; 0; 0; 1; 8; 9]%N); [done|]. constructor.
  apply (delivers_data [0; 0; 1; 7; 0; 0]%N _ [0; 1; 8; 9]%N); [done|].
  apply (delivers_data [0; 1; 8; 9]%N _ []); [done|]. constructor.
Defined.

Lemma channel_refuses_witness : exists s', poll_recv (T := N) (fun _ => []) [Data [255; 0; 0; 0; 5]%N] = (Err (Oversize 4278190080), s')
  /\ delivers s' [5%N] [].
Proof.
  refine (proj1 (channel_refuses (T := N) (fun _ => []) _ [] [255; 0; 0; 0]%N eq_refl) [5%N] _ _); [done|].
  apply (delivers_data [255; 0; 0; 0; 5]%N [] []); [done|constructor].
Defined.
