(* ===== verification/Client.v ===== *)
(** * The worker's client

    [crates/detent-platform/src/privsep/worker.rs]: the typed requests of the
    unprivileged process, over any peer that takes a request and answers. The
    client records what it asked and what came back. *)

From Stdlib Require Import ZArith.
From stdpp Require Import gmap.
From S2P Require Import Prelude Str Num Ip Doc Diag Descriptor Disk Atomic Proto Transport Stateful.
#[local] Open Scope Z_scope.

(** ** Errors *)

Module CErr.
Inductive ClientError :=
| Channel (e : ChannelError)
| Remote (e : ProtoError)
| Unexpected (want got : rstr)
| NotGreeted.
End CErr.
Abbreviation ClientError := CErr.ClientError.

Definition show_id (n : N) : rstr := show_dec (Z.of_N n).

(** [Display] of [ProtoError]. *)
Definition proto_error_text (e : ProtoError) : rstr :=
  match e with
  | PErr.VersionMismatch expected got =>
      lit "protocol version mismatch: monitor speaks " ++ show_id expected ++ lit ", worker speaks " ++ show_id got
  | PErr.HandshakeRequired => lit "handshake required before any other request"
  | PErr.UnknownId k i => lit "unknown " ++ id_kind_name k ++ lit " id " ++ show_id i
  | PErr.ActionNotAllowed => lit "service action is not allowed for this binding"
  | PErr.Conflict _ _ => lit "target changed on disk since it was read"
  | PErr.CommitPending c => lit "commit " ++ show_id c ++ lit " is already pending"
  | PErr.CommitExpired c => lit "commit " ++ show_id c ++ lit " confirmation window expired"
  | PErr.Unsupported m => lit "unsupported request: " ++ m
  | PErr.Unavailable m => lit "unavailable: " ++ m
  | PErr.Io m => lit "i/o error: " ++ m
  | PErr.VerificationFailed => lit "staged release verification failed"
  | PErr.NotFound => lit "target does not exist"
  | PErr.StateLockUnavailable => lit "the monitor does not hold the state lock; state changes are refused"
  | PErr.UpdateRunning => lit "an update is already running"
  end.

(** [Display] of [ClientError]. *)
Definition client_error_text (e : ClientError) : rstr :=
  match e with
  | CErr.Channel _ => lit "privsep channel failed"
  | CErr.Remote e => lit "monitor refused the request: " ++ proto_error_text e
  | CErr.Unexpected want got => lit "monitor answered " ++ got ++ lit " where " ++ want ++ lit " was expected"
  | CErr.NotGreeted => lit "privsep handshake has not happened yet"
  end.

Definition variant_name (r : Response) : rstr :=
  match r with
  | Resp.HelloAck _ => lit "HelloAck"
  | Resp.Target _ => lit "Target"
  | Resp.Written _ => lit "Written"
  | Resp.Checked _ => lit "Checked"
  | Resp.Serviced _ => lit "Serviced"
  | Resp.Backups _ => lit "Backups"
  | Resp.Restored _ _ => lit "Restored"
  | Resp.ConfirmTimerStarted _ _ _ => lit "ConfirmTimerStarted"
  | Resp.Committed _ => lit "Committed"
  | Resp.ShuttingDown => lit "ShuttingDown"
  | Resp.Error _ => lit "Error"
  | Resp.RolledBack _ _ => lit "RolledBack"
  | Resp.Replaced _ => lit "Replaced"
  | Resp.Pending _ => lit "Pending"
  | Resp.UnitFilesReloaded _ => lit "UnitFilesReloaded"
  | Resp.Mounted _ _ => lit "Mounted"
  | Resp.Staged _ => lit "Staged"
  | Resp.UpdateStarted _ => lit "UpdateStarted"
  | Resp.UnitStatus _ => lit "UnitStatus"
  end.

Definition unexpected (want : rstr) (got : Response) : ClientError :=
  match got with Resp.Error e => CErr.Remote e | _ => CErr.Unexpected want (variant_name got) end.

(** ** The peer *)

(** What is at the other end of the channel. *)
Class Peer (S : Type) := {
  peer_send : Request -> S -> result ChannelError () * S;
  peer_recv : S -> result ChannelError Response * S;
}.

Section Client.
Context {S : Type} `{!Peer S}.

Record Client := mkClient {
  peer : S;
  tables : option HelloAck;
  asked : list (Request * result ClientError Response);
}.

Abbreviation CM A := (SE Client ClientError A).

Definition new_client (s : S) : Client := mkClient s None [].

(** ** Plumbing *)

Definition exchange (r : Request) (s : S) : result ClientError Response * S :=
  match peer_send r s with
  | (Err e, s) => (Err (CErr.Channel e), s)
  | (Ok _, s) =>
      match peer_recv s with
      | (Err e, s) => (Err (CErr.Channel e), s)
      | (Ok response, s) => (Ok response, s)
      end
  end.

Definition call (r : Request) : CM Response := fun c =>
  let '(answer, s) := exchange r (peer c) in (answer, mkClient s (tables c) (asked c ++ [(r, answer)])).

Definition checked_call (r : Request) : CM Response :=
  t ← reading tables;
  match t with
  | None => throw CErr.NotGreeted
  | Some _ => response ← call r; match response with Resp.Error e => throw (CErr.Remote e) | _ => mret response end
  end.

(** One request, and the part of the answer that is wanted. *)
Definition expecting {A} (want : rstr) (part : Response -> option A) (r : Request) : CM A :=
  response ← checked_call r;
  match part response with Some a => mret a | None => throw (unexpected want response) end.

Definition set_tables (ack : HelloAck) : CM () := updating (fun c => mkClient (peer c) (Some ack) (asked c)).

Definition hello : CM HelloAck :=
  response ← call (Req.Hello PROTO_VERSION);
  match response with
  | Resp.HelloAck ack => _ ← set_tables ack; mret ack
  | other => throw (unexpected (lit "HelloAck") other)
  end.

(** ** Operations *)

Definition read_target (t : TargetId) : CM TargetContents :=
  expecting (lit "Target") (fun r => match r with Resp.Target c => Some c | _ => None end) (Req.ReadTarget t).

Definition write_target (t : TargetId) (expected_prev : option Sha256Digest) (b : rbytes) (journal : bool) : CM WriteReceipt :=
  expecting (lit "Written") (fun r => match r with Resp.Written w => Some w | _ => None end) (Req.WriteTarget t expected_prev b journal).

Definition run_check (c : CheckId) (b : rbytes) : CM CheckOutcome :=
  expecting (lit "Checked") (fun r => match r with Resp.Checked o => Some o | _ => None end) (Req.RunCheck c b).

Definition service (b : BindingId) (a : Wire.ServiceAction) : CM ServiceOutcome :=
  expecting (lit "Serviced") (fun r => match r with Resp.Serviced o => Some o | _ => None end) (Req.Service b a).

Definition service_status (b : BindingId) : CM UnitStatus :=
  expecting (lit "UnitStatus") (fun r => match r with Resp.UnitStatus s => Some s | _ => None end) (Req.Service b Wire.Status).

Definition reload_unit_files (m : ModuleId) : CM rstr :=
  expecting (lit "UnitFilesReloaded") (fun r => match r with Resp.UnitFilesReloaded d => Some d | _ => None end) (Req.ReloadUnitFiles m).

Definition mount (t : TargetId) : CM (bool * list MountOutcome) :=
  expecting (lit "Mounted") (fun r => match r with Resp.Mounted a u => Some (a, u) | _ => None end) (Req.Mount t).

Definition list_backups (m : ModuleId) : CM (list BackupInfo) :=
  expecting (lit "Backups") (fun r => match r with Resp.Backups l => Some l | _ => None end) (Req.ListBackups m).

Definition restore (m : ModuleId) (b : BackupId) : CM (TargetId * Sha256Digest) :=
  expecting (lit "Restored") (fun r => match r with Resp.Restored t d => Some (t, d) | _ => None end) (Req.Restore m b).

Definition start_confirm_timer (c : CommitId) (timeout_s : Z) (s : option PendingService) : CM (Z * Z) :=
  expecting (lit "ConfirmTimerStarted")
    (fun r => match r with Resp.ConfirmTimerStarted _ t n => Some (t, n) | _ => None end) (Req.StartConfirmTimer c timeout_s s).

Definition pending_commit : CM (option CommitId) :=
  expecting (lit "Pending") (fun r => match r with Resp.Pending c => Some c | _ => None end) Req.PendingCommit.

Definition confirm_commit (c : CommitId) : CM CommitId :=
  expecting (lit "Committed") (fun r => match r with Resp.Committed c => Some c | _ => None end) (Req.ConfirmCommit c).

Definition rollback_commit (c : CommitId) : CM (CommitId * Z) :=
  expecting (lit "RolledBack") (fun r => match r with Resp.RolledBack c n => Some (c, n) | _ => None end) (Req.RollbackCommit c).

Definition start_update (tag : rstr) : CM rstr :=
  expecting (lit "UpdateStarted") (fun r => match r with Resp.UpdateStarted d => Some d | _ => None end) (Req.StartUpdate tag).

Definition shutdown : CM () :=
  expecting (lit "ShuttingDown") (fun r => match r with Resp.ShuttingDown => Some () | _ => None end) Req.Shutdown.

(** ** Table lookups *)

Definition ack (t : option HelloAck) : result ClientError HelloAck :=
  match t with Some a => Ok a | None => Err CErr.NotGreeted end.

Definition targets (t : option HelloAck) : result ClientError (list TargetInfo) := ack_targets <$> ack t.
Definition bindings (t : option HelloAck) : result ClientError (list BindingInfo) := ack_bindings <$> ack t.

Definition module_id (t : option HelloAck) (name : rstr) : option ModuleId :=
  a ← t; mi_id <$> List.find (fun m => bool_decide (mi_name m = name)) (ack_modules a).

Definition target_id (t : option HelloAck) (module path : rstr) (k : PathKind) : option TargetId :=
  m ← module_id t module;
  a ← t;
  ti_id <$> List.find (fun x => (ti_module x =? m)%N && bool_decide (ti_path x = path) && bool_decide (ti_kind x = k)) (ack_targets a).

Definition binding_id (t : option HelloAck) (module : rstr) : option BindingId :=
  m ← module_id t module;
  a ← t;
  bi_id <$> List.find (fun b => (bi_module b =? m)%N) (ack_bindings a).

Definition check_id (t : option HelloAck) (module : rstr) : option CheckId :=
  m ← module_id t module;
  a ← t;
  ci_id <$> List.find (fun c => (ci_module c =? m)%N) (ack_checks a).

(** ** What a call asks *)

(** What the answer to a request means for the call that made it. *)
Definition verdict {A} (want : rstr) (part : Response -> option A) (answer : result ClientError Response) : result ClientError A :=
  match answer with
  | Err e => Err e
  | Ok (Resp.Error e) => Err (CErr.Remote e)
  | Ok response => match part response with Some a => Ok a | None => Err (unexpected want response) end
  end.

(** A client that was greeted asks [r] once; another asks nothing. *)
Definition one {A} (t : option HelloAck) (want : rstr) (part : Response -> option A) (r : Request) (a : result ClientError A)
    (new : list (Request * result ClientError Response)) : Prop :=
  match t with
  | Some _ => exists answer, new = [(r, answer)] /\ a = verdict want part answer
  | None => new = [] /\ a = Err CErr.NotGreeted
  end.

(** The tables the client knows. *)
Definition knows (t : option HelloAck) (c : Client) : Prop := tables c = t.

(** A call as one step. *)
Lemma expecting_run {A} want (part : Response -> option A) r c :
  expecting want part r c = match tables c with
    | None => (Err CErr.NotGreeted, c)
    | Some _ => let '(answer, s) := exchange r (peer c) in
        (verdict want part answer, mkClient s (tables c) (asked c ++ [(r, answer)]))
    end.
Proof.
  unfold expecting, checked_call, call, mbind, SE_bind, after, reading, throw, mret, SE_ret, give.
  destruct (tables c) eqn:Et; simpl; [|done]. destruct (exchange r (peer c)) as [[response|e] s]; simpl; [|by rewrite Et].
  rewrite Et. destruct response; simpl; try destruct (part _); done.
Qed.

Lemma says_expecting {A} t want (part : Response -> option A) r :
  says asked (knows t) (expecting want part r) (one t want part r).
Proof.
  unfold says, knows. intros c Hc. rewrite expecting_run, !Hc. destruct t as [ack0|].
  - destruct (exchange r (peer c)) as [answer s]. split; [done|]. exists [(r, answer)]. split; [done|]. by exists answer.
  - split; [done|]. exists []. by rewrite app_nil_r.
Qed.

End Client.
Arguments Client S : clear implicits.
