(* ===== verification/Allow.v ===== *)
(** * The allow-list of the monitor

    [crates/detent-platform/src/privsep/allowlist.rs]: the tables that turn an id
    the worker sends into a path, a validator or a service. They are built once
    from the module descriptors. The reference [declared_targets] and its kin say
    what the tables hold without the accumulators of [from_modules]. *)

From Stdlib Require Import ZArith.
From stdpp Require Import gmap.
From S2P Require Import Prelude Str Num Ip Doc Diag Descriptor Disk Atomic Proto.
#[local] Open Scope Z_scope.

Definition DEFAULT_STATE_ROOT : rstr := lit "/var/lib/detent".
Definition BACKUPS_DIR : rstr := lit "backups".
Definition CHECK_TMP_DIR : rstr := lit "tmp".
Definition CANDIDATE_PREFIX : rstr := lit ".detent-candidate-".

Module Init.
Inductive InitFlavor := Systemd | OpenRc | BsdRc.
End Init.

Record MonitorConfig := mkConfig {
  state_root : Path;
  cfg_keep_backups : nat;
  cfg_init : Init.InitFlavor;
  activate_mounts : bool;
}.

Definition default_config : MonitorConfig :=
  mkConfig (path_of_str DEFAULT_STATE_ROOT) DEFAULT_KEEP_BACKUPS Init.Systemd false.
Definition with_state_root (root : Path) : MonitorConfig :=
  mkConfig root (cfg_keep_backups default_config) (cfg_init default_config) (activate_mounts default_config).

Inductive AllowlistError :=
| TooManyEntries (kind : rstr) (width : nat)
| DuplicateModule (name : rstr)
| RelativeTargetPath (module : rstr).

(** [te_text] is the path as it is written, [te_path] the path it names. *)
Record TargetEntry := mkTargetEntry {
  te_id : TargetId;
  te_module : ModuleId;
  te_text : rstr;
  te_kind : PathKind;
  te_create_mode : Z;
  te_backup_dir : Path;
}.
Definition te_path (e : TargetEntry) : Path := path_of_str (te_text e).

Record CheckEntry := mkCheckEntry { ce_id : CheckId; ce_module : ModuleId; ce_check : ExternalCheck; ce_targets : list TargetId }.
Record BindingEntry := mkBindingEntry { be_id : BindingId; be_module : ModuleId; be_binding : ServiceBinding; be_targets : list TargetId }.

Record Allowlist := mkAllowlist {
  config : MonitorConfig;
  a_modules : list ModuleDescriptor;
  a_targets : list TargetEntry;
  a_checks : list CheckEntry;
  a_bindings : list BindingEntry;
  by_name : gmap rstr ModuleId;
}.

(** ** Building the tables *)

Definition narrow_u16 (index : nat) (kind : rstr) : result AllowlistError N :=
  if (N.of_nat index <=? 65535)%N then Ok (N.of_nat index) else Err (TooManyEntries kind 16).

Definition narrow_u16_saturating (index : nat) : N :=
  if (N.of_nat index <=? 65535)%N then N.of_nat index else 65535%N.

Definition backup_dir_for (root : Path) (module : rstr) : Path :=
  path_join (join_name root BACKUPS_DIR) (path_of_str module).

Definition resolve_target (id : TargetId) (module : ModuleId) (descriptor : ModuleDescriptor) (t : Target)
    (module_backups : Path) (ordinal : nat) : result AllowlistError TargetEntry :=
  if negb (is_absolute (path_of_str (t_path t))) then Err (RelativeTargetPath (d_id descriptor))
  else Ok (mkTargetEntry id module (t_path t) (kind_of (t_kind t)) (t_mode t)
             (join_name module_backups (show_dec (Z.of_nat ordinal)))).

Fixpoint add_targets (module : ModuleId) (d : ModuleDescriptor) (backups : Path) (ordinal : nat) (ts : list Target)
    (targets : list TargetEntry) : result AllowlistError (list TargetEntry) :=
  match ts with
  | [] => Ok targets
  | t :: ts =>
      id ← narrow_u16 (length targets) (lit "target");
      entry ← resolve_target id module d t backups ordinal;
      add_targets module d backups (S ordinal) ts (targets ++ [entry])
  end.

(** The module's own targets that [keep] accepts, by their text. *)
Definition own (targets : list TargetEntry) (first_target : nat) (keep : rstr -> bool) : list TargetId :=
  te_id <$> filter (fun e => Is_true (keep (te_text e))) (drop first_target targets).

(** The loops over the checks and the bindings of a module: each gets the next
    index of its table. *)
Fixpoint push_all {A B} (kind : rstr) (entry : N -> A -> B) (xs : list A) (table : list B) : result AllowlistError (list B) :=
  match xs with
  | [] => Ok table
  | x :: xs =>
      id ← narrow_u16 (length table) kind;
      push_all kind entry xs (table ++ [entry id x])
  end.

Definition add_checks (module : ModuleId) (judged : ExternalCheck -> list TargetId) : list ExternalCheck -> list CheckEntry
    -> result AllowlistError (list CheckEntry) :=
  push_all (lit "check") (fun id c => mkCheckEntry id module c (judged c)).

Definition add_bindings (module : ModuleId) (served : ServiceBinding -> list TargetId) : list ServiceBinding -> list BindingEntry
    -> result AllowlistError (list BindingEntry) :=
  push_all (lit "binding") (fun id b => mkBindingEntry id module b (served b)).

(** One module after the other, from [index] on. *)
Fixpoint add_modules (cfg : MonitorConfig) (index : nat) (ms : list ModuleDescriptor)
    (names : gmap rstr ModuleId) (targets : list TargetEntry) (checks : list CheckEntry) (bindings : list BindingEntry)
    : result AllowlistError (gmap rstr ModuleId * list TargetEntry * list CheckEntry * list BindingEntry) :=
  match ms with
  | [] => Ok (names, targets, checks, bindings)
  | d :: ms =>
      module ← narrow_u16 index (lit "module");
      if bool_decide (is_Some (names !! d_id d)) then Err (DuplicateModule (d_id d))
      else
        let names := <[d_id d := module]> names in
        let first_target := length targets in
        targets ← add_targets module d (backup_dir_for (state_root cfg) (d_id d)) 0 (d_targets d) targets;
        checks ← add_checks module (fun c => own targets first_target (judges c)) (d_checks d) checks;
        bindings ← add_bindings module (fun b => own targets first_target (serves b)) (services d) bindings;
        add_modules cfg (S index) ms names targets checks bindings
  end.

Definition from_modules (ms : list ModuleDescriptor) (cfg : MonitorConfig) : result AllowlistError Allowlist :=
  '(names, targets, checks, bindings) ← add_modules cfg 0 ms ∅ [] [] [];
  Ok (mkAllowlist cfg ms targets checks bindings names).

(** ** Lookups *)

Section Lookups.
Variable a : Allowlist.

Definition keep_backups_of : nat := cfg_keep_backups (config a).
Definition check_tmp_dir : Path := join_name (state_root (config a)) CHECK_TMP_DIR.

Definition target (id : TargetId) : option TargetEntry := a_targets a !! N.to_nat id.
Definition check (id : CheckId) : option CheckEntry := a_checks a !! N.to_nat id.
Definition binding (id : BindingId) : option BindingEntry := a_bindings a !! N.to_nat id.
Definition module (id : ModuleId) : option ModuleDescriptor := a_modules a !! N.to_nat id.
Definition module_id (name : rstr) : option ModuleId := by_name a !! name.

Definition reloads_unit_files : bool := existsb reload_unit_files (a_modules a).

(** Is [p] a target of a module that [has] something? *)
Definition target_of (has : ModuleDescriptor -> bool) (p : Path) : bool :=
  existsb has (omap (fun e => module (te_module e)) (filter (fun e => te_path e = p) (a_targets a))).

Definition starts_mounts_after (p : Path) : bool :=
  target_of (fun d => match added_mounts d with Some _ => true | None => false end) p.
Definition reloads_unit_files_after (p : Path) : bool := target_of reload_unit_files p.

Definition targets_of (m : ModuleId) : list TargetEntry := filter (fun e => te_module e = m) (a_targets a).
Definition checks_of (m : ModuleId) : list CheckEntry := filter (fun c => ce_module c = m) (a_checks a).

Definition file_targets (m : ModuleId) : list TargetEntry := filter (fun e => te_kind e = Wire.File) (targets_of m).

(** [exists_]: which paths exist on the host. *)
Definition candidate_dir (exists_ : rstr -> bool) (m : ModuleId) (profile : HostProfile) : option Path :=
  d ← module m;
  let targets := file_targets m in
  let entry_of (t : Target) := List.find (fun e => bool_decide (te_text e = t_path t)) targets in
  let chosen := List.find (fun t => match entry_of t with Some _ => true | None => false end)
                  (filter (fun t => Is_true (backend_detect t profile)) (d_targets d)) in
  primary ← match chosen ≫= fun t => entry_of (relocated d t profile exists_) with
            | Some e => Some e
            | None => head targets
            end;
  parent (te_path primary).

Definition check_candidate_dir (exists_ : rstr -> bool) (id : CheckId) (profile : HostProfile) : option Path :=
  entry ← check id;
  if is_empty (c_applies_to (ce_check entry)) then candidate_dir exists_ (ce_module entry) profile
  else
    t ← List.find (fun t => bool_decide (te_kind t = Wire.File)) (omap target (ce_targets entry));
    parent (te_path t).

Definition preferred_unit (b : ServiceBinding) (init : Init.InitFlavor) : rstr :=
  let list := match init with
              | Init.Systemd => systemd (units b)
              | Init.OpenRc => openrc (units b)
              | Init.BsdRc => bsdrc (units b)
              end in
  default [] (match head list with Some u => Some u | None => head (systemd (units b)) end).

Definition hello_ack : HelloAck :=
  mkHelloAck PROTO_VERSION
    (imap (fun index d => mkModuleInfo (narrow_u16_saturating index) (d_id d) (commit_confirm d)) (a_modules a))
    ((fun e => mkTargetInfo (te_id e) (te_module e) (te_text e) (te_kind e)) <$> a_targets a)
    ((fun e => mkCheckInfo (ce_id e) (ce_module e) (c_program (ce_check e)) (ce_targets e)) <$> a_checks a)
    ((fun e => mkBindingInfo (be_id e) (be_module e) (preferred_unit (be_binding e) (cfg_init (config a)))
                 (from_core <$> actions (be_binding e)) (be_targets e)) <$> a_bindings a).

End Lookups.

(** ** What the tables hold *)

Definition fits16 (n : nat) : Prop := (N.of_nat n <= 65536)%N.

Lemma narrow_u16_ok n kind : fits16 (S n) -> narrow_u16 n kind = Ok (N.of_nat n).
Proof. unfold fits16, narrow_u16. intros H. by rewrite (proj2 (N.leb_le _ _)) by lia. Qed.

Lemma narrow_u16_err n kind : ~ fits16 (S n) -> exists e, narrow_u16 n kind = Err e.
Proof. unfold fits16, narrow_u16. intros H. rewrite (proj2 (N.leb_gt _ _)) by lia. eauto. Qed.

Lemma push_all_spec {A B} kind (entry : N -> A -> B) xs table : fits16 (length table) ->
  match push_all kind entry xs table with
  | Ok r => r = table ++ imap (fun i x => entry (N.of_nat (length table + i)) x) xs /\ fits16 (length table + length xs)
  | Err _ => ~ fits16 (length table + length xs)
  end.
Proof.
  revert table. induction xs as [|x xs IH]; intros table Hf; cbn [push_all].
  { simpl. by rewrite app_nil_r, Nat.add_0_r. }
  destruct (decide (fits16 (S (length table)))) as [Hs|Hs].
  - rewrite narrow_u16_ok by done. cbn [mbind result_bind]. specialize (IH (table ++ [entry (N.of_nat (length table)) x])).
    rewrite length_app in IH. cbn [length] in IH. rewrite Nat.add_1_r in IH. specialize (IH Hs).
    cbn [length]. rewrite <- Nat.add_succ_comm. destruct (push_all _ _ _ _) as [r|e]; [|done]. destruct IH as [-> ?]. split; [|done].
    rewrite <- (assoc_L (++)), imap_cons. cbn [app]. do 2 f_equal; [by rewrite Nat.add_0_r|].
    apply imap_ext. intros i y _. cbn [compose]. do 2 f_equal. lia.
  - destruct (narrow_u16_err _ kind Hs) as [e ->]. cbn [mbind result_bind]. unfold fits16 in *. simpl. lia.
Qed.

Definition absolute_target (t : Target) : Prop := is_absolute (path_of_str (t_path t)) = true.

(** The entry of the [ordinal]-th target of the [mi]-th module. *)
Definition entry_for (cfg : MonitorConfig) (id mi : nat) (d : ModuleDescriptor) (ordinal : nat) (t : Target) : TargetEntry :=
  mkTargetEntry (N.of_nat id) (N.of_nat mi) (t_path t) (kind_of (t_kind t)) (t_mode t)
    (join_name (backup_dir_for (state_root cfg) (d_id d)) (show_dec (Z.of_nat ordinal))).

Lemma add_targets_spec cfg mi d ordinal ts targets : fits16 (length targets) ->
  match add_targets (N.of_nat mi) d (backup_dir_for (state_root cfg) (d_id d)) ordinal ts targets with
  | Ok r => r = targets ++ imap (fun i t => entry_for cfg (length targets + i) mi d (ordinal + i) t) ts
            /\ fits16 (length targets + length ts) /\ Forall absolute_target ts
  | Err _ => ~ (fits16 (length targets + length ts) /\ Forall absolute_target ts)
  end.
Proof.
  revert ordinal targets. induction ts as [|t ts IH]; intros ordinal targets Hf; cbn [add_targets].
  { simpl. by rewrite app_nil_r, Nat.add_0_r. }
  destruct (decide (fits16 (S (length targets)))) as [Hs|Hs].
  2: { destruct (narrow_u16_err _ (lit "target") Hs) as [e ->]. cbn [mbind result_bind]. unfold fits16 in *. simpl. lia. }
  rewrite narrow_u16_ok by done. cbn [mbind result_bind]. unfold resolve_target, absolute_target in *.
  destruct (is_absolute (path_of_str (t_path t))) eqn:Habs; cbn [negb]; [|intros [_ [? _]%Forall_cons]; congruence].
  specialize (IH (S ordinal) (targets ++ [entry_for cfg (length targets) mi d ordinal t])).
  rewrite length_app in IH. cbn [length] in IH. rewrite Nat.add_1_r in IH. specialize (IH Hs).
  cbn [length mbind result_bind]. rewrite <- Nat.add_succ_comm. unfold entry_for in IH at 1.
  destruct (add_targets _ _ _ _ _ _) as [r|e]; [|by intros [? [_ ?]%Forall_cons]; apply IH].
  destruct IH as (-> & ? & ?). split; [|split; [done|by apply Forall_cons]].
  rewrite <- (assoc_L (++)), imap_cons. cbn [app]. do 2 f_equal; [by rewrite !Nat.add_0_r|].
  apply imap_ext. intros i y _. cbn [compose]. f_equal; lia.
Qed.

(** Everything the modules declare, with the position of each thing: the module's
    index and descriptor and the ordinal within the module. *)
Fixpoint declared {A} (get : ModuleDescriptor -> list A) (mi : nat) (ms : list ModuleDescriptor) : list (nat * ModuleDescriptor * nat * A) :=
  match ms with
  | [] => []
  | d :: ms => imap (fun ordinal x => (mi, d, ordinal, x)) (get d) ++ declared get (S mi) ms
  end.

Section Reference.
Variable cfg : MonitorConfig.

Definition ref_targets (base mi : nat) (ms : list ModuleDescriptor) : list TargetEntry :=
  imap (fun i '(mi, d, ordinal, t) => entry_for cfg (base + i) mi d ordinal t) (declared d_targets mi ms).

(** The ids of the targets of module [mi] that [keep] accepts. *)
Definition owned (targets : list TargetEntry) (mi : nat) (keep : rstr -> bool) : list TargetId :=
  te_id <$> filter (fun e => te_module e = N.of_nat mi /\ Is_true (keep (te_text e))) targets.

Definition ref_checks (targets : list TargetEntry) (base mi : nat) (ms : list ModuleDescriptor) : list CheckEntry :=
  imap (fun i '(mi, _, _, c) => mkCheckEntry (N.of_nat (base + i)) (N.of_nat mi) c (owned targets mi (judges c)))
       (declared d_checks mi ms).

Definition ref_bindings (targets : list TargetEntry) (base mi : nat) (ms : list ModuleDescriptor) : list BindingEntry :=
  imap (fun i '(mi, _, _, b) => mkBindingEntry (N.of_nat (base + i)) (N.of_nat mi) b (owned targets mi (serves b)))
       (declared services mi ms).

Lemma declared_index {A} (get : ModuleDescriptor -> list A) mi ms x :
  x ∈ declared get mi ms -> exists k d ordinal y, x = ((mi + k)%nat, d, ordinal, y) /\ ms !! k = Some d /\ get d !! ordinal = Some y.
Proof.
  revert mi. induction ms as [|d ms IH]; intros mi; [by intros ?%not_elem_of_nil|]. cbn [declared].
  rewrite elem_of_app. intros [H|H].
  - apply elem_of_lookup_imap in H as (ordinal & y & -> & Hy). exists 0%nat, d, ordinal, y. by rewrite Nat.add_0_r.
  - apply IH in H as (k & d' & ordinal & y & -> & Hd & Hy). exists (S k), d', ordinal, y. by rewrite Nat.add_succ_r.
Qed.

Lemma ref_targets_module base mi ms : Forall (fun e => (N.of_nat mi <= te_module e)%N) (ref_targets base mi ms).
Proof.
  apply Forall_forall. intros e H. apply elem_of_lookup_imap in H as (i & [[[k d] ord] t] & -> & Ht).
  apply list_elem_of_lookup_2, declared_index in Ht as (k' & ? & ? & ? & [= -> <- <- <-] & _). simpl. lia.
Qed.

(** What [own] sees of the table is what [owned] finds in the final one. *)
Lemma own_owned targets new later mi keep :
  Forall (fun e => (te_module e < N.of_nat mi)%N) targets -> Forall (fun e => te_module e = N.of_nat mi) new ->
  Forall (fun e => (N.of_nat (S mi) <= te_module e)%N) later ->
  own (targets ++ new) (length targets) keep = owned ((targets ++ new) ++ later) mi keep.
Proof.
  intros H1 H2 H3. unfold own, owned. rewrite drop_app_length, !filter_app. f_equal.
  assert (E : forall l, Forall (fun e => te_module e <> N.of_nat mi) l ->
    filter (fun e => te_module e = N.of_nat mi /\ Is_true (keep (te_text e))) l = []).
  { intros l Hl. induction Hl as [|e l He Hl IH]; [done|]. rewrite filter_cons_False by tauto. done. }
  rewrite (E targets), (E later); [|eapply Forall_impl; [done|]; simpl; lia..]. rewrite app_nil_r. simpl.
  induction H2 as [|e l He Hl IH]; [done|]. destruct (decide (Is_true (keep (te_text e)))).
  - rewrite !filter_cons_True by done. by rewrite IH.
  - rewrite !filter_cons_False by tauto. done.
Qed.

(** When the tables can be built. *)
Definition acceptable (names : gmap rstr ModuleId) (mi nt nc nb : nat) (ms : list ModuleDescriptor) : Prop :=
  NoDup (d_id <$> ms) /\ Forall (fun d => names !! d_id d = None) ms
  /\ Forall (fun d => Forall absolute_target (d_targets d)) ms
  /\ fits16 (mi + length ms) /\ fits16 (nt + length (declared d_targets mi ms))
  /\ fits16 (nc + length (declared d_checks mi ms)) /\ fits16 (nb + length (declared services mi ms)).

(** Numbering a table, module after module. *)
Lemma numbered_cons {A B} (entry : nat -> nat * ModuleDescriptor * nat * A -> B) get base mi d ms :
  imap (fun i x => entry (base + i)%nat x) (declared get mi (d :: ms))
  = imap (fun i x => entry (base + i)%nat (mi, d, i, x)) (get d)
    ++ imap (fun i x => entry (base + length (get d) + i)%nat x) (declared get (S mi) ms).
Proof.
  cbn [declared]. rewrite imap_app, length_imap. f_equal.
  - apply list_eq. intros i. rewrite !list_lookup_imap. by destruct (get d !! i).
  - apply imap_ext. intros i x _. f_equal. lia.
Qed.

Lemma declared_length {A} (get : ModuleDescriptor -> list A) mi d ms :
  length (declared get mi (d :: ms)) = (length (get d) + length (declared get (S mi) ms))%nat.
Proof. cbn [declared]. by rewrite length_app, length_imap. Qed.

Lemma fits16_le n m : fits16 n -> (m <= n)%nat -> fits16 m.
Proof. unfold fits16. lia. Qed.

(** The tables after one more module. *)
Definition targets_with (mi : nat) (d : ModuleDescriptor) (targets : list TargetEntry) : list TargetEntry :=
  targets ++ imap (fun i t => entry_for cfg (length targets + i) mi d i t) (d_targets d).
Definition checks_with (mi : nat) (d : ModuleDescriptor) (targets : list TargetEntry) (checks : list CheckEntry) : list CheckEntry :=
  checks ++ imap (fun i c => mkCheckEntry (N.of_nat (length checks + i)) (N.of_nat mi) c
                               (own (targets_with mi d targets) (length targets) (judges c))) (d_checks d).
Definition bindings_with (mi : nat) (d : ModuleDescriptor) (targets : list TargetEntry) (bindings : list BindingEntry)
    : list BindingEntry :=
  bindings ++ imap (fun i b => mkBindingEntry (N.of_nat (length bindings + i)) (N.of_nat mi) b
                                 (own (targets_with mi d targets) (length targets) (serves b))) (services d).

Definition accepts_one (names : gmap rstr ModuleId) (mi nt nc nb : nat) (d : ModuleDescriptor) : Prop :=
  fits16 (S mi) /\ names !! d_id d = None /\ Forall absolute_target (d_targets d)
  /\ fits16 (nt + length (d_targets d)) /\ fits16 (nc + length (d_checks d)) /\ fits16 (nb + length (services d)).

Lemma add_one mi d ms names targets checks bindings :
  fits16 (length targets) -> fits16 (length checks) -> fits16 (length bindings) ->
  accepts_one names mi (length targets) (length checks) (length bindings) d
    /\ add_modules cfg mi (d :: ms) names targets checks bindings
       = add_modules cfg (S mi) ms (<[d_id d := N.of_nat mi]> names) (targets_with mi d targets)
           (checks_with mi d targets checks) (bindings_with mi d targets bindings)
  \/ ~ accepts_one names mi (length targets) (length checks) (length bindings) d
    /\ exists e, add_modules cfg mi (d :: ms) names targets checks bindings = Err e.
Proof.
  intros Ht Hc Hb. cbn [add_modules]. unfold accepts_one.
  destruct (decide (fits16 (S mi))) as [Hs|Hs].
  2: { destruct (narrow_u16_err _ (lit "module") Hs) as [e ->]. right. naive_solver. }
  rewrite narrow_u16_ok by done. cbn [mbind result_bind].
  destruct (names !! d_id d) eqn:En; [right; split; [naive_solver|rewrite bool_decide_true; eauto]|].
  rewrite bool_decide_false by (intros [? ?]; done).
  pose proof (add_targets_spec cfg mi d 0 (d_targets d) targets Ht) as H. destruct (add_targets _ _ _ _ _ _) as [t1|e].
  2: { right. split; [naive_solver|by eauto]. }
  destruct H as (Et & Hft & Habs). change (t1 = targets_with mi d targets) in Et. subst t1. cbn [mbind result_bind].
  unfold add_checks. pose proof (push_all_spec (lit "check") (fun id c => mkCheckEntry id (N.of_nat mi) c
    (own (targets_with mi d targets) (length targets) (judges c))) (d_checks d) checks Hc) as H.
  destruct (push_all (lit "check") _ _ _) as [c1|e]; [|right; split; [naive_solver|by eauto]].
  destruct H as [Ec Hfc]. change (c1 = checks_with mi d targets checks) in Ec. subst c1. cbn [mbind result_bind].
  unfold add_bindings. pose proof (push_all_spec (lit "binding") (fun id b => mkBindingEntry id (N.of_nat mi) b
    (own (targets_with mi d targets) (length targets) (serves b))) (services d) bindings Hb) as H.
  destruct (push_all (lit "binding") _ _ _) as [b1|e]; [|right; split; [naive_solver|by eauto]].
  destruct H as [Eb Hfb]. change (b1 = bindings_with mi d targets bindings) in Eb. subst b1. left. by split_and!.
Qed.

Lemma acceptable_cons names mi nt nc nb d ms :
  acceptable names mi nt nc nb (d :: ms) <->
  accepts_one names mi nt nc nb d
  /\ acceptable (<[d_id d := N.of_nat mi]> names) (S mi) (nt + length (d_targets d)) (nc + length (d_checks d))
       (nb + length (services d)) ms.
Proof.
  unfold acceptable, accepts_one. rewrite !declared_length, fmap_cons, NoDup_cons, !Forall_cons. cbn [length].
  rewrite !Nat.add_assoc, <- Nat.add_succ_comm.
  assert (Hn : Forall (fun x => <[d_id d := N.of_nat mi]> names !! d_id x = None) ms
               <-> d_id d ∉ d_id <$> ms /\ Forall (fun x => names !! d_id x = None) ms).
  { rewrite !Forall_forall, list_elem_of_fmap. split.
    - intros H. split; [intros (x & E & Hx); specialize (H x Hx); by rewrite <- E, lookup_insert_eq in H|].
      intros x Hx. specialize (H x Hx). destruct (decide (d_id d = d_id x)) as [E|E].
      + by rewrite E, lookup_insert_eq in H.
      + by rewrite lookup_insert_ne in H.
    - intros [H1 H2] x Hx. rewrite lookup_insert_ne; [by apply H2|]. naive_solver. }
  rewrite Hn. split; [|tauto]. intros ((H1 & H2) & (H3 & H4) & (H5 & H6) & H7 & H8 & H9 & H10).
  split_and!; try done; [apply (fits16_le _ _ H7)|apply (fits16_le _ _ H8)|apply (fits16_le _ _ H9)|apply (fits16_le _ _ H10)]; lia.
Qed.

(** What [add_modules] returns. *)
Definition built (mi : nat) (ms : list ModuleDescriptor) (names : gmap rstr ModuleId) (targets : list TargetEntry)
    (checks : list CheckEntry) (bindings : list BindingEntry)
    (r : gmap rstr ModuleId * list TargetEntry * list CheckEntry * list BindingEntry) : Prop :=
  let '(names', targets', checks', bindings') := r in
  targets' = targets ++ ref_targets (length targets) mi ms
  /\ checks' = checks ++ ref_checks targets' (length checks) mi ms
  /\ bindings' = bindings ++ ref_bindings targets' (length bindings) mi ms
  /\ (forall n id, names' !! n = Some id <->
       names !! n = Some id \/ exists k d, ms !! k = Some d /\ d_id d = n /\ id = N.of_nat (mi + k)).

Lemma built_cons mi d ms names targets checks bindings r :
  Forall (fun e => (te_module e < N.of_nat mi)%N) targets ->
  accepts_one names mi (length targets) (length checks) (length bindings) d ->
  Forall (fun x => <[d_id d := N.of_nat mi]> names !! d_id x = None) ms ->
  built (S mi) ms (<[d_id d := N.of_nat mi]> names) (targets_with mi d targets) (checks_with mi d targets checks)
    (bindings_with mi d targets bindings) r ->
  built mi (d :: ms) names targets checks bindings r.
Proof.
  destruct r as [[[names' targets'] checks'] bindings']. unfold built. intros Hmod (_ & Hn & _) Hms (Et & Ec & Eb & En).
  assert (Hnew : Forall (fun e => te_module e = N.of_nat mi) (imap (fun i t => entry_for cfg (length targets + i) mi d i t) (d_targets d))).
  { apply Forall_forall. intros e (i & t & -> & _)%elem_of_lookup_imap. done. }
  assert (Hown : forall keep, own (targets_with mi d targets) (length targets) keep = owned targets' mi keep).
  { intros keep. rewrite Et. apply own_owned; [done..|]. apply ref_targets_module. }
  split_and!.
  - rewrite Et. unfold ref_targets at 2. rewrite (numbered_cons (fun i '(mi, d, ordinal, t) => entry_for cfg i mi d ordinal t)).
    unfold targets_with, ref_targets. rewrite length_app, length_imap. by rewrite (assoc_L (++)).
  - rewrite Ec. unfold ref_checks at 2. rewrite (numbered_cons (fun i '(mi, _, _, c) => mkCheckEntry (N.of_nat i) (N.of_nat mi) c (owned targets' mi (judges c)))).
    unfold checks_with, ref_checks. rewrite length_app, length_imap, (assoc_L (++)). do 2 f_equal. apply imap_ext. intros i c _. by rewrite Hown.
  - rewrite Eb. unfold ref_bindings at 2. rewrite (numbered_cons (fun i '(mi, _, _, b) => mkBindingEntry (N.of_nat i) (N.of_nat mi) b (owned targets' mi (serves b)))).
    unfold bindings_with, ref_bindings. rewrite length_app, length_imap, (assoc_L (++)). do 2 f_equal. apply imap_ext. intros i c _. by rewrite Hown.
  - intros n id. rewrite En. split.
    + intros [H|(k & x & Hk & <- & ->)]; [|right; exists (S k), x; by rewrite Nat.add_succ_r].
      destruct (decide (d_id d = n)) as [<-|Hne]; [|by rewrite lookup_insert_ne in H; auto].
      rewrite lookup_insert_eq in H. injection H as <-. right. exists 0%nat, d. by rewrite Nat.add_0_r.
    + intros [H|([|k] & x & Hk & <- & ->)].
      * left. rewrite lookup_insert_ne; [done|]. intros <-. congruence.
      * injection Hk as ->. left. by rewrite lookup_insert_eq, Nat.add_0_r.
      * right. exists k, x. by rewrite Nat.add_succ_r.
Qed.

Lemma add_modules_spec mi ms names targets checks bindings :
  fits16 mi -> fits16 (length targets) -> fits16 (length checks) -> fits16 (length bindings) ->
  Forall (fun e => (te_module e < N.of_nat mi)%N) targets ->
  match add_modules cfg mi ms names targets checks bindings with
  | Ok r => built mi ms names targets checks bindings r
            /\ acceptable names mi (length targets) (length checks) (length bindings) ms
  | Err _ => ~ acceptable names mi (length targets) (length checks) (length bindings) ms
  end.
Proof.
  revert mi names targets checks bindings. induction ms as [|d ms IH]; intros mi names targets checks bindings Hm Ht Hc Hb Hmod.
  { cbn [add_modules]. unfold built, ref_targets, ref_checks, ref_bindings, acceptable. simpl. rewrite !app_nil_r, !Nat.add_0_r.
    split_and!; auto using NoDup_nil_2. intros n id. split; [by left|by intros [?|(k & ? & ? & _)]]. }
  destruct (add_one mi d ms names targets checks bindings Ht Hc Hb) as [[Hone ->]|[Hone [e ->]]].
  2: { intros H%acceptable_cons. naive_solver. }
  pose proof Hone as (Hs & _ & _ & Ht' & Hc' & Hb').
  specialize (IH (S mi) (<[d_id d := N.of_nat mi]> names) (targets_with mi d targets) (checks_with mi d targets checks)
    (bindings_with mi d targets bindings) Hs).
  assert (E1 : length (targets_with mi d targets) = (length targets + length (d_targets d))%nat) by (unfold targets_with; by rewrite length_app, length_imap).
  assert (E2 : length (checks_with mi d targets checks) = (length checks + length (d_checks d))%nat) by (unfold checks_with; by rewrite length_app, length_imap).
  assert (E3 : length (bindings_with mi d targets bindings) = (length bindings + length (services d))%nat) by (unfold bindings_with; by rewrite length_app, length_imap).
  rewrite E1, E2, E3 in IH. specialize (IH Ht' Hc' Hb').
  assert (Hmod' : Forall (fun e => (te_module e < N.of_nat (S mi))%N) (targets_with mi d targets)).
  { apply Forall_app. split; [eapply Forall_impl; [exact Hmod|]; simpl; lia|].
    apply Forall_forall. intros x (i & t & -> & _)%elem_of_lookup_imap. simpl. lia. }
  specialize (IH Hmod'). destruct (add_modules _ _ _ _ _ _ _) as [r|e].
  - destruct IH as [Hbuilt Hacc]. split; [|by apply acceptable_cons]. eapply built_cons; eauto. by destruct Hacc as (_ & ? & _).
  - intros H%acceptable_cons. naive_solver.
Qed.

End Reference.

(** ** Properties *)

(** C16: The allow-list. The tables are built exactly when no two modules share an
    id, every target path is absolute and every table fits its 16-bit ids; and
    then they are exactly what the descriptors declare: an id is the position of
    its entry, every target, check and binding of every module has one, a check
    or binding lists the ids of its own module's targets it applies to, and the
    name of a module finds its id. *)
Theorem allowlist_exact ms cfg :
  match from_modules ms cfg with
  | Ok a =>
      config a = cfg /\ a_modules a = ms /\ a_targets a = ref_targets cfg 0 0 ms
      /\ a_checks a = ref_checks (a_targets a) 0 0 ms /\ a_bindings a = ref_bindings (a_targets a) 0 0 ms
      /\ (forall name id, module_id a name = Some id <-> exists d, ms !! N.to_nat id = Some d /\ d_id d = name)
      /\ acceptable ∅ 0 0 0 0 ms
  | Err _ => ~ acceptable ∅ 0 0 0 0 ms
  end.
Proof.
  unfold from_modules. pose proof (add_modules_spec cfg 0 ms ∅ [] [] []) as H.
  destruct (add_modules _ _ _ _ _ _ _) as [[[[names targets] checks] bindings]|e]; cbn [mbind result_bind].
  - destruct H as [(-> & -> & -> & Hn) Hacc]; [done..|]. simpl. split_and!; try done. intros name id. unfold module_id. simpl. rewrite Hn.
    split.
    + intros [?|(k & d & Hk & <- & ->)]; [done|]. exists d. by rewrite Nat2N.id.
    + intros (d & Hd & <-). right. exists (N.to_nat id), d. simpl. by rewrite N2Nat.id.
  - by apply H.
Qed.
