(* ===== verification/ExecDeny.v ===== *)
(** * Directives that run code

    [crates/detent-platform/src/privsep/exec_deny.rs] and the fstab decoding of
    [crates/detent-core/src/fstab.rs]: the monitor refuses a candidate file that
    adds, or changes the value of, a directive that makes a privileged daemon run
    or load code. Each format is read as the code reads it. *)

From Stdlib Require Import ZArith.
From stdpp Require Import gmap.
From S2P Require Import Prelude Str Num Ip Utf8 Disk Atomic.
#[local] Open Scope N_scope.

(** ** Shared readings *)

Definition BACKSLASH : rchar := 92.
Definition QUOTE : rchar := 34.
Definition EQUALS : rchar := 61.

Definition one_of (cs : rstr) (c : rchar) : bool := existsb (N.eqb c) cs.
Definition starts_in (cs : rstr) (s : rstr) : bool := match s with c :: _ => one_of cs c | [] => false end.
Definition word_in (ws : list rstr) (w : rstr) : bool := existsb (fun x => bool_decide (x = w)) ws.

Definition squash (text : rstr) : rstr := join [SPACE] (split_whitespace text).

Definition join_continuations (text : rstr) : rstr :=
  replace [BACKSLASH; LF] [SPACE] (replace [BACKSLASH; CR; LF] [SPACE] text).

Definition joined_head (joins : rstr -> bool) (line : rstr) : option rstr :=
  body ← strip_suffix LF line;
  '(head, tail) ← rsplit_once BACKSLASH body;
  if joins tail then Some head else None.

Definition join_where (text : rstr) (joins : rstr -> bool) : rstr :=
  concat ((fun line => match joined_head joins line with Some head => head ++ [SPACE] | None => line end)
            <$> split_inclusive text).

Definition key_value (sep : rchar -> bool) (line : rstr) : rstr * rstr := default (line, []) (split_once sep line).

(** ** smb.conf *)

Definition samba_key (key : rstr) : rstr :=
  to_ascii_lowercase (filter (fun c => Is_true (negb (is_whitespace c) && negb (c =? 95))) key).

Definition samba_exec (key : rstr) : bool :=
  contains_str (lit "exec") key || ends (lit "script") key || ends (lit "command") key || ends (lit "backend") key
  || word_in [lit "include"; lit "configfile"; lit "panicaction"; lit "vfsobjects"; lit "preloadmodules"] key.

Definition samba_directive (line : rstr) : option rstr :=
  let line := trim line in
  if is_empty line || starts_in (lit "#;[") line then None
  else
    let '(key, value) := key_value (N.eqb EQUALS) line in
    let key := samba_key key in
    if samba_exec key then Some (key ++ [EQUALS] ++ squash value) else None.

Definition samba_directives (text : rstr) : list rstr := omap samba_directive (lines text).

Definition samba_readings (text : rstr) : list rstr :=
  [text; join_where text is_empty; join_continuations text; join_where text (forallb (one_of [SPACE; TAB; CR]))].

Definition samba (text : rstr) : list rstr :=
  ((fun line => lit "continued " ++ squash line)
     <$> filter (fun line => Is_true (starts_in (lit "#;[") line && ends_with BACKSLASH line)) (trim <$> lines text))
  ++ concat (imap (fun view reading => (fun d => show_dec (Z.of_nat view) ++ [COLON] ++ d) <$> samba_directives reading)
                  (samba_readings text)).

(** ** dnsmasq and Kea *)

Definition dnsmasq_directive (line : rstr) : option rstr :=
  let line := trim line in
  if starts_in (lit "#") line then None
  else
    let '(key, value) := key_value (N.eqb EQUALS) line in
    let key := to_ascii_lowercase (trim_start_matches (N.eqb 45) (trim key)) in
    if word_in [lit "dhcp-script"; lit "dhcp-luascript"; lit "dhcp-scriptuser"; lit "conf-file"; lit "conf-dir"; lit "conf-script"] key
    then Some (key ++ [EQUALS] ++ squash value) else None.

Definition dnsmasq (text : rstr) : list rstr := omap dnsmasq_directive (lines text).

(** [u32::from_str_radix(_, 16)], then [char::from_u32]. *)
Fixpoint hex_value (acc : Z) (s : rstr) : option Z :=
  match s with
  | [] => Some acc
  | c :: s => d ← to_digit 16 c; hex_value (acc * 16 + d)%Z s
  end.

Definition hex_char_of (hex : rstr) : option rchar :=
  let digits := default hex (strip_prefix PLUS hex) in
  if is_empty digits then None
  else v ← hex_value 0 digits; if (55296 <=? v)%Z && (v <=? 57343)%Z then None else Some (Z.to_N v).

(** The character of the four digits [s] starts with. *)
Definition decoded_escape (s : rstr) : option rchar :=
  if (length (take 4 s) =? 4)%nat then hex_char_of (take 4 s) else None.

Fixpoint decode_escapes_from (skip : nat) (s : rstr) : rstr :=
  match s with
  | [] => []
  | c :: s' =>
      match skip with
      | S k => decode_escapes_from k s'
      | O =>
          if (c =? BACKSLASH) && starts_with 117 s' then
            match decoded_escape (drop 1 s') with
            | Some x => x :: decode_escapes_from 5 s'
            | None => c :: 117 :: decode_escapes_from 1 s'
            end
          else c :: decode_escapes_from 0 s'
      end
  end.

Definition decode_json_escapes (text : rstr) : rstr := decode_escapes_from 0 text.

(** The text through the end of its first balanced group. *)
Fixpoint bracketed_from (depth : nat) (in_string escaped : bool) (s : rstr) : rstr :=
  match s with
  | [] => []
  | c :: s =>
      c :: (if in_string then
              if escaped then bracketed_from depth true false s
              else if c =? BACKSLASH then bracketed_from depth true true s
              else bracketed_from depth (negb (c =? QUOTE)) false s
            else if c =? QUOTE then bracketed_from depth true escaped s
            else if one_of (lit "[{") c then bracketed_from (S depth) false escaped s
            else if one_of (lit "]}") c then
              if (depth - 1 =? 0)%nat then [] else bracketed_from (depth - 1) false escaped s
            else bracketed_from depth false escaped s)
  end.

Definition bracketed (text : rstr) : rstr := bracketed_from 0 false false text.

(** The text through the first [?>]. *)
Definition through_close (rest : rstr) : rstr :=
  match matches_at (lit "?>") 0 rest with
  | [] => rest
  | tail :: _ => take (length rest - length tail + 2) rest
  end.

Definition kea (text : rstr) : list rstr :=
  let doc := to_ascii_lowercase (squash (decode_json_escapes text)) in
  (bracketed <$> matches_at ([QUOTE] ++ lit "hooks-libraries" ++ [QUOTE]) 0 doc)
  ++ (through_close <$> matches_at (lit "<?include") 0 doc).

(** ** chrony and unbound *)

Definition chrony_directive (line : rstr) : option rstr :=
  let line := trim line in
  if starts_in (lit "#!;%") line then None
  else
    let '(key, value) := key_value is_whitespace line in
    let key := to_ascii_lowercase key in
    if word_in [lit "include"; lit "confdir"; lit "sourcedir"; lit "pidfile"; lit "user"] key
    then Some (key ++ [SPACE] ++ squash value) else None.

Definition chrony (text : rstr) : list rstr := omap chrony_directive (lines text).

Fixpoint unbound_tokens (line : rstr) (tokens : list rstr) : list rstr :=
  match tokens with
  | [] => []
  | token :: tokens =>
      match split_once (N.eqb COLON) token with
      | None => unbound_tokens line tokens
      | Some (key, value) =>
          let key := to_ascii_lowercase key in
          let exec := word_in [lit "include"; lit "include-toplevel"; lit "python-script"; lit "dynlib-file"] key in
          let module_config := bool_decide (key = lit "module-config") in
          let directive (value : rstr) :=
            if module_config then
              let rest := to_ascii_lowercase line in
              if contains_str (lit "python") rest || contains_str (lit "dynlib") rest
              then [key ++ lit ": " ++ squash rest] else []
            else [key ++ lit ": " ++ value] in
          if negb exec && negb module_config then unbound_tokens line tokens
          else if is_empty value then
            match tokens with
            | [] => directive []
            | next :: tokens => directive next ++ unbound_tokens line tokens
            end
          else directive value ++ unbound_tokens line tokens
      end
  end.

Definition unbound_line (line : rstr) : list rstr :=
  let line := default [] (head (split (N.eqb 35) line)) in unbound_tokens line (split_whitespace line).

Definition unbound (text : rstr) : list rstr := concat (unbound_line <$> lines text).

(** ** ifupdown *)

Definition is_shell_inert (c : rchar) : bool := is_ascii_alphanumeric c || one_of (lit ".:/-_+,= " ++ [TAB]) c.

Definition plain_address (word : rstr) : bool :=
  negb (is_empty word) && forallb (fun c => is_ascii_alphanumeric c || one_of (lit ".:/") c) word.

Definition is_route_form (line : rstr) : bool :=
  match split_whitespace line with
  | [w1; w2; w3; w4; to; w6; via] =>
      bool_decide (w1 = lit "up") && bool_decide (w2 = lit "ip") && bool_decide (w3 = lit "route") && bool_decide (w4 = lit "add")
      && bool_decide (w6 = lit "via") && plain_address to && plain_address via
  | _ => false
  end.

Definition hook_words : list rstr :=
  [lit "up"; lit "down"; lit "pre-up"; lit "post-up"; lit "pre-down"; lit "post-down"; lit "source"; lit "source-directory";
   lit "mapping"; lit "script"; lit "map"].

Definition option_name (first : rstr) : bool :=
  match first with c :: _ => is_ascii_alphanumeric c | [] => false end
  && forallb (fun c => is_ascii_alphanumeric c || one_of (lit "-_") c) first.

Definition ifupdown_directive (line : rstr) : option rstr :=
  let line := trim line in
  if starts_in (lit "#") line then None
  else
    first ← head (split_whitespace line);
    let key := to_ascii_lowercase (fst (key_value (N.eqb EQUALS) first)) in
    let hook := word_in hook_words key in
    let shell := option_name first && negb (forallb is_shell_inert line) in
    if hook && negb (bool_decide (key = lit "up") && is_route_form line) || shell then Some (squash line) else None.

Definition ifupdown (text : rstr) : list rstr := omap ifupdown_directive (lines text).

(** ** fstab *)

(** [unmangle] and [octal_byte] of [fstab.rs]. *)
Definition octal_digit (d : N) : bool := in_range 48 55 d.
Definition octal_byte (a b c : N) : option N :=
  if octal_digit a && octal_digit b && octal_digit c then
    let v := (a - 48) * 64 + (b - 48) * 8 + (c - 48) in if v <=? 255 then Some v else None
  else None.

Fixpoint unmangle_from (skip : nat) (raw : list N) : list N :=
  match raw with
  | [] => []
  | byte :: tail =>
      match skip with
      | S k => unmangle_from k tail
      | O =>
          match (if byte =? BACKSLASH then match tail with a :: b :: c :: _ => octal_byte a b c | _ => None end else None) with
          | Some decoded => decoded :: unmangle_from 3 tail
          | None => byte :: unmangle_from 0 tail
          end
      end
  end.

Definition unmangle (raw : list N) : list N := unmangle_from 0 raw.

Definition SAFE_SYSTEMD_OPTIONS : list rstr :=
  [lit "automount"; lit "idle-timeout"; lit "mount-timeout"; lit "device-timeout"; lit "rw-only"].

Definition PROTECTED_TREES : list rstr :=
  [lit "/bin"; lit "/boot"; lit "/etc"; lit "/lib"; lit "/lib32"; lit "/lib64"; lit "/libx32"; lit "/root"; lit "/run";
   lit "/sbin"; lit "/usr"; lit "/var/lib/detent"; lit "/var/lock"; lit "/var/run"].

Definition WRITABLE_DIRS : list rstr := [lit "/tmp"; lit "/var/tmp"; lit "/dev/shm"].

Definition protected_mountpoint (raw : rstr) : bool :=
  if word_in [lit "none"; lit "swap"] raw then false
  else match from_utf8 (unmangle (as_bytes raw)) with
       | None => true
       | Some decoded =>
           let p := path_of_str decoded in
           if negb (is_absolute p) || existsb (fun c => bool_decide (c = ParentDir)) (components p) then true
           else existsb (fun tree => path_starts_with p (path_of_str tree) || path_starts_with (path_of_str tree) p) PROTECTED_TREES
                || existsb (fun dir => path_starts_with p (path_of_str dir) && negb (bool_decide (p = path_of_str dir))) WRITABLE_DIRS
       end.

Definition binds (options : rstr) : bool :=
  existsb (fun o => word_in [lit "bind"; lit "rbind"] o
                    || existsb (fun key => begins key o) [lit "lowerdir="; lit "upperdir="; lit "workdir="])
          (split (N.eqb 44) options).

Definition replaces_system_files (fields : list rstr) : bool :=
  match fields !! 1%nat with
  | None => false
  | Some mountpoint =>
      if match head fields with Some spec => starts_with 35 spec | None => false end then false
      else
        let lower i := to_ascii_lowercase <$> fields !! i in
        match lower 2%nat with Some kind => contains_str (lit "overlay") kind | None => false end
        || match lower 3%nat with Some options => binds options | None => false end
        || protected_mountpoint mountpoint
  end.

Definition unsafe_option (word : rstr) : bool :=
  match strip_prefix_str (lit "x-systemd.") word with
  | Some option_ => negb (word_in SAFE_SYSTEMD_OPTIONS (fst (key_value (N.eqb EQUALS) option_)))
  | None => false
  end
  || begins (lit "helper=") word || begins (lit "uhelper=") word.

Definition fstab_exec (line : rstr) : bool :=
  let fields := split_whitespace line in
  match fields !! 2%nat with Some kind => contains_str (lit "fuse") (to_ascii_lowercase kind) | None => false end
  || replaces_system_files fields
  || existsb (fun word => unsafe_option (to_ascii_lowercase word)) (split (fun c => (c =? 44) || is_whitespace c) line).

Definition fstab (text : rstr) : list rstr := squash <$> filter (fun line => Is_true (fstab_exec line)) (lines text).

(** ** exports *)

Definition is_plain_nonzero_id (id : rstr) : bool :=
  match id with c :: _ => in_range 49 57 c | [] => false end && forallb is_ascii_digit id
  && match parse_unsigned 32 id with Some _ => true | None => false end.

Definition maps_to_root (word : rstr) : bool :=
  bool_decide (word = lit "no_root_squash")
  || match (match strip_prefix_str (lit "anonuid=") word with
            | Some id => Some id
            | None => strip_prefix_str (lit "anongid=") word
            end) with
     | Some id => negb (is_plain_nonzero_id id)
     | None => false
     end.

Definition exports_exec (line : rstr) : bool :=
  existsb maps_to_root (split (fun c => one_of (lit ",()") c || is_whitespace c) line).

Definition exports (text : rstr) : list rstr :=
  squash <$> filter (fun line => Is_true (exports_exec line)) (lines (join_continuations text)).

(** ** The gate *)

Definition exec_directives (module : rstr) (text : rstr) : list rstr :=
  if bool_decide (module = lit "samba") then samba text
  else if bool_decide (module = lit "dhcp") then dnsmasq text ++ kea text
  else if bool_decide (module = lit "chrony") then chrony text
  else if bool_decide (module = lit "resolver") then unbound text
  else if bool_decide (module = lit "network") then ifupdown text
  else if bool_decide (module = lit "mounts") then fstab text
  else if bool_decide (module = lit "nfs") then exports text
  else [].

(** [Vec::swap_remove]: the last element takes the place of the removed one. *)
Definition swap_remove {A} (at_ : nat) (l : list A) : list A :=
  match last l with
  | Some z => if (at_ =? length l - 1)%nat then take at_ l else <[at_ := z]> (take (length l - 1) l)
  | None => l
  end.

Fixpoint any_new (before found : list rstr) : bool :=
  match found with
  | [] => false
  | x :: found =>
      match list_find (fun seen => seen = x) before with
      | None => true
      | Some (at_, _) => any_new (swap_remove at_ before) found
      end
  end.

Definition adds_exec_directive (module : rstr) (previous candidate : list N) : bool :=
  any_new (exec_directives module (from_utf8_lossy previous)) (exec_directives module (from_utf8_lossy candidate)).

(** ** What the gate decides *)

Lemma swap_remove_perm {A} (l : list A) at_ x : l !! at_ = Some x -> x :: swap_remove at_ l ≡ₚ l.
Proof.
  intros Hx. unfold swap_remove. pose proof (lookup_lt_Some _ _ _ Hx) as Hlt.
  destruct l as [|z l _] using rev_ind; [done|]. rewrite last_snoc, length_app in *. cbn [length] in *.
  replace (length l + 1 - 1)%nat with (length l) by lia. destruct (at_ =? length l)%nat eqn:E; bool_to_prop.
  - subst. rewrite list_lookup_middle in Hx by done. injection Hx as ->. rewrite take_app_length. by rewrite (comm (++)).
  - rewrite take_app_length. rewrite lookup_app_l in Hx by lia.
    rewrite (insert_take_drop l at_ z) by lia. rewrite <- (take_drop_middle l at_ x Hx) at 3.
    rewrite <- !Permutation_middle, app_nil_r. constructor.
Qed.

(** The loop over the found directives: no directive occurs more often in
    [found] than in [before]. *)
Lemma any_new_spec before found : any_new before found = false <-> found ⊆+ before.
Proof.
  revert before. induction found as [|x found IH]; intros before; cbn [any_new].
  { split; [intros _; apply submseteq_nil_l|done]. }
  destruct (list_find (fun seen => seen = x) before) as [[i y]|] eqn:E.
  - apply list_find_Some in E as (Hy & -> & _). pose proof (swap_remove_perm _ _ _ Hy) as Hp. rewrite IH. split.
    + intros H. rewrite <- Hp. by apply submseteq_skip.
    + intros H. rewrite <- Hp in H. apply submseteq_cons_l in H as (k & Hk & H).
      by rewrite (Permutation_cons_inv Hk).
  - split; [done|]. intros H. apply list_find_None in E. exfalso.
    assert (Hx : x ∈ before) by (eapply elem_of_submseteq; [|exact H]; left).
    rewrite Forall_forall in E. by apply (E x).
Qed.

Lemma adds_exec_spec module previous candidate :
  adds_exec_directive module previous candidate = false <->
  exec_directives module (from_utf8_lossy candidate) ⊆+ exec_directives module (from_utf8_lossy previous).
Proof. apply any_new_spec. Qed.

(** The execution gate. It accepts a candidate exactly when the execution
    directives of the candidate, with their values, are among those of the file
    it replaces, each at most as often. So no sequence of accepted writes,
    however long, brings in a directive that the first file did not have. *)
Theorem exec_gate module previous :
  (forall candidate, adds_exec_directive module previous candidate = false <->
     exec_directives module (from_utf8_lossy candidate) ⊆+ exec_directives module (from_utf8_lossy previous))
  /\ (forall later, rtc (fun a b => adds_exec_directive module a b = false) previous later ->
       adds_exec_directive module previous later = false).
Proof.
  split; [intros candidate; apply adds_exec_spec|].
  intros later H. apply adds_exec_spec. induction H as [x|x y z Hxy _ IH]; [done|].
  apply adds_exec_spec in Hxy. by rewrite IH.
Qed.

(** ** Bypasses that are caught, and edits that are let through *)

#[local] Abbreviation text l := (as_bytes (join [LF] l)) (only parsing).

Example samba_underscore : adds_exec_directive (lit "samba") (text [lit "[global]"]) (text [lit "[global]"; lit "root_preexec = /bin/sh"]) = true.
Proof. reflexivity. Qed.
Example samba_split_name :
  adds_exec_directive (lit "samba") (text [lit "[s]"]) (text [lit "[s]"; lit "root pre\"; lit "exec = /bin/sh"]) = true.
Proof. reflexivity. Qed.
Example samba_reordered :
  adds_exec_directive (lit "samba") (text [lit "[s]"; lit "root preexec = /bin/true"; lit "path = /a"])
    (text [lit "[s]"; lit "path = /b"; lit "root preexec = /bin/true"]) = false.
Proof. reflexivity. Qed.
Example kea_escaped_key :
  adds_exec_directive (lit "dhcp") [] (as_bytes ([QUOTE] ++ lit "hooks\u002dlibraries" ++ [QUOTE] ++ lit ": [1]")) = true.
Proof. reflexivity. Qed.
Example route_form : adds_exec_directive (lit "network") [] (text [lit "	up ip route add 10.0.0.0/8 via 192.0.2.1"]) = false.
Proof. reflexivity. Qed.
Example route_with_command :
  adds_exec_directive (lit "network") [] (text [lit "	up ip route add 10.0.0.0/8 via 192.0.2.1;id"]) = true.
Proof. reflexivity. Qed.
Example fstab_octal : adds_exec_directive (lit "mounts") [] (text [lit "/dev/sdb1 /\145tc/x ext4 defaults 0 2"]) = true.
Proof. reflexivity. Qed.
Example fstab_data : adds_exec_directive (lit "mounts") [] (text [lit "/dev/sdb1 /srv/my\040data ext4 defaults 0 2"]) = false.
Proof. reflexivity. Qed.
Example exports_wrapped : adds_exec_directive (lit "nfs") [] (text [lit "/srv 192.0.2.0/24(rw,anonuid=4294967296)"]) = true.
Proof. reflexivity. Qed.
