(* ===== verification/ModuleGate.v ===== *)
(** * The modules against the monitor's content gate

    A module edits a file as a list of entries; the monitor of
    [privsep/exec_deny.rs] reads the same file as text and refuses one that adds
    a directive that runs code. This file relates the two readings: what the
    gate finds in an edited file is what it finds in the entries of the model,
    and in the lines the module keeps. *)

From stdpp Require Import gmap.
From S2P Require Import Prelude Align Str Num Ip Utf8 ExecDeny Doc DocEdit Diag Version Config LineModule Chrony.

(** ** A line gate over a line format *)

Section LineGate.
Context {T : Type} `{LineFormat T} {X : Type}.
Variable g : rstr -> option X.
Variable h : T -> option X.
Hypothesis g_cr : cr_stable g.
Hypothesis g_empty : g [] = None.
Hypothesis g_entry : forall r e, lf_parse r = Some e -> g r = h e.

Lemma g_bare r : g (bare r) = g r.
Proof.
  unfold bare. destruct (trim_end_matches_app (N.eqb CR) r) as (k & Hk & Hall). rewrite Hk at 2. clear Hk.
  induction k as [|c k IH] using rev_ind; [by rewrite app_nil_r|].
  rewrite (proj1 (N.eqb_eq CR c) (Hall c ltac:(set_solver))) at 1.
  rewrite <- (proj1 (N.eqb_eq CR c) (Hall c ltac:(set_solver))).
  rewrite app_assoc, g_cr. apply IH. set_solver.
Qed.

Lemma g_line_body l : wf_line lf_classify l -> g (line_body (Doc.render_line l)) = g (raw l).
Proof.
  intros ([Hlf _] & _ & _). unfold line_body, Doc.render_line. destruct (ending l); simpl.
  - rewrite (proj2 (strip_suffix_some LF _ (raw l)) eq_refl).
    destruct (strip_suffix CR (raw l)) as [b|] eqn:E; [|done]. apply strip_suffix_some in E as ->. by rewrite g_cr.
  - rewrite (proj2 (strip_suffix_some LF (raw l ++ [CR; LF]) (raw l ++ [CR]))) by (by rewrite <- app_assoc).
    by rewrite (proj2 (strip_suffix_some CR _ (raw l)) eq_refl).
  - rewrite app_nil_r. rewrite (proj2 (strip_suffix_none LF (raw l))); [done|].
    apply not_true_iff_false. intros E%ends_with_inv. apply Hlf. rewrite E. set_solver.
Qed.

(** The lines of a rendered document, as [str::lines] cuts them. *)
Lemma gate_lines doc :
  wf_lines lf_classify (lines doc) -> omap g (Utf8.lines (render doc)) = omap g (raw <$> lines doc).
Proof.
  intros (Hl & Hb & _). unfold Utf8.lines, render. rewrite (split_inclusive_render lf_classify) by done. clear Hb.
  induction Hl as [|l ls Hl Hls IH]; [done|]. csimpl. by rewrite g_line_body, IH.
Qed.

(** What the gate finds in the lines comes from the entries and from the other lines. *)
Lemma gate_parts ls :
  Forall (wf_line lf_classify) ls ->
  omap g (raw <$> ls) ≡ₚ omap h (entries ls) ++ omap (fun x => g x.2) (others ls).
Proof.
  induction 1 as [|l ls [[_ Hk] _] _ IH]; [done|]. unfold entries, others in *. csimpl.
  unfold other_of at 1. change (entry_of ec_parse l) with (entry_of lf_parse l).
  destruct (entry_of lf_parse l) as [e|] eqn:E.
  - unfold entry_of in E. case_bool_decide; [|done]. rewrite (g_entry _ _ E). csimpl.
    destruct (h e); csimpl; by rewrite IH.
  - destruct (is_empty (bare (raw l))) eqn:Eb.
    + rewrite <- (g_bare (raw l)). destruct (bare (raw l)); [|done]. by rewrite g_empty.
    + csimpl. rewrite g_bare. destruct (g (raw l)); [|done]. by rewrite IH, Permutation_middle.
Qed.

(** An edit adds what the gate looks for exactly when the model does. *)
Lemma gate_edit wanted s doc' report :
  edit wanted (parse s lf_classify) = Ok (doc', report) ->
  omap g (Utf8.lines (render doc')) ⊆+ omap g (Utf8.lines s)
  <-> omap h wanted ⊆+ omap h (entries (lines (parse s lf_classify))).
Proof.
  intros He. pose proof (wf_parse lf_classify s) as Hw.
  destruct (edit_exact wanted _ doc' report (reach_parse _ s) He) as (Hent & Hoth & Hr).
  destruct (reachable_wf _ lf_classify_cr _ Hr) as [Hw' _].
  rewrite <- (render_parse_lines lf_classify s) at 1. change (concat _) with (render (parse s lf_classify)).
  rewrite !gate_lines, !gate_parts by (try done; by apply Hw || by apply Hw'). rewrite Hent, Hoth. split.
  - apply submseteq_app_inv_r.
  - intros H1. by apply submseteq_app.
Qed.

End LineGate.

(** ** chrony *)

(** The directive the gate sees in a setting. *)
Definition gated_setting (s : Setting) : option rstr :=
  let k := to_ascii_lowercase (key s) in
  if word_in [lit "include"; lit "confdir"; lit "sourcedir"; lit "pidfile"; lit "user"] k
  then Some (k ++ [SPACE] ++ squash (value s)) else None.

Lemma chrony_directive_cr : cr_stable chrony_directive.
Proof. intros r. unfold chrony_directive. by rewrite trim_snoc. Qed.

Lemma squash_trim_start v : squash (trim_start v) = squash v.
Proof. unfold squash. by rewrite split_whitespace_start. Qed.

Lemma chrony_directive_setting r s : parse_setting r = Some s -> chrony_directive r = gated_setting s.
Proof.
  unfold parse_setting, chrony_directive, gated_setting. cbv zeta. destruct (trim r) as [|x t] eqn:E; [done|].
  cbn [is_empty orb starts_where]. destruct (is_comment_char x) eqn:Ec; [done|].
  assert (starts_in (lit "#!;%") (x :: t) = false) as ->.
  { revert Ec. unfold is_comment_char, contains. simpl. rewrite !orb_false_iff. tauto. }
  unfold key_value. destruct (split_once is_whitespace (x :: t)) as [[k v]|]; cbn [default].
  - intros [= <-]. cbn [key value]. by rewrite squash_trim_start.
  - case_match; [|done]. by intros [= <-].
Qed.

(** ** Properties *)

(** The chrony module against the monitor's content gate. After an accepted
    edit, the gate lets the new file through exactly when the settings of the
    new model that load files, or name the daemon's user or pid file, are among
    those of the old model, each at most as often: the lines the module does not
    understand, comments and layout play no part. *)
Theorem chrony_gate (s : rstr) (m : ChronyModel) (doc' : Document) (report : EditReport) :
  chrony_apply (parse s chrony_classify) m = Ok (doc', report) ->
  Forall is_char s -> Forall is_char (render doc') ->
  adds_exec_directive (lit "chrony") (as_bytes s) (as_bytes (render doc')) = false
  <-> exists old, chrony_to_model (parse s chrony_classify) = Ok old
        /\ omap gated_setting (settings m) ⊆+ omap gated_setting (settings old).
Proof.
  intros Ha Hs Hd. rewrite adds_exec_spec, (lossy_of_valid _ _ (from_utf8_bytes _ Hs)), (lossy_of_valid _ _ (from_utf8_bytes _ Hd)).
  change (exec_directives (lit "chrony")) with chrony. unfold chrony.
  rewrite (gate_edit (H := chrony_format) chrony_directive gated_setting chrony_directive_cr eq_refl chrony_directive_setting (settings m) s doc' report Ha).
  unfold chrony_to_model. rewrite (directive_entries (H := chrony_format)). split; [eauto|].
  by intros (old & [= <-] & ?).
Qed.

(** A file with a pid file line; the model changes its value, which the gate refuses. *)
Module GateDemo.

Definition before : rstr := join [LF] [lit "pidfile /run/a.pid"; lit "pool a.example iburst"; lit "include"].
Definition moved (path : rstr) : ChronyModel :=
  mkChrony [mkSetting (lit "pidfile") path; mkSetting (lit "pool") (lit "b.example iburst nts")].
Definition edited (path : rstr) : Document * EditReport :=
  unwrap_or (chrony_apply (parse before chrony_classify) (moved path)) (parse [] chrony_classify, mkReport 0 0 0).

Lemma chrony_edited_ok path :
  is_ok (chrony_apply (parse before chrony_classify) (moved path)) = true ->
  chrony_apply (parse before chrony_classify) (moved path) = Ok ((edited path).1, (edited path).2).
Proof. unfold edited. apply unwrap_pair. Qed.

End GateDemo.

Lemma chrony_gate_witness :
  adds_exec_directive (lit "chrony") (as_bytes GateDemo.before) (as_bytes (render (GateDemo.edited (lit "/run/a.pid")).1)) = false
  /\ adds_exec_directive (lit "chrony") (as_bytes GateDemo.before) (as_bytes (render (GateDemo.edited (lit "/run/b.pid")).1)) = true.
Proof.
  split; [|by vm_compute].
  refine (proj2 (chrony_gate GateDemo.before (GateDemo.moved (lit "/run/a.pid")) (GateDemo.edited (lit "/run/a.pid")).1 (GateDemo.edited (lit "/run/a.pid")).2 _ _ _) _).
  - apply GateDemo.chrony_edited_ok. by vm_compute.
  - apply (bool_decide_unpack _). by vm_compute.
  - apply (bool_decide_unpack _). by vm_compute.
  - eexists. split; [reflexivity|]. apply (bool_decide_unpack _). by vm_compute.
Defined.
