(* ===== verification/SambaGate.v ===== *)
(** * The samba module against the monitor's content gate

    The gate reads [smb.conf] four ways, to be safe against the ways samba joins
    continued lines; the module reads single lines. *)

From stdpp Require Import gmap.
From S2P Require Import Prelude Align Str Num Ip Utf8 Disk Atomic ExecDeny Doc DocEdit Diag Version Config LineModule ModuleGate Samba.

(** ** One entry *)

(** The directive the gate sees in an entry. *)
Definition gated_entry (e : SmbEntry) : option rstr :=
  match section e with
  | Some _ => None
  | None =>
      if starts_in (lit "#;[") (key e) then None
      else let k := samba_key (key e) in
           if samba_exec k then Some (k ++ [EQUALS] ++ squash (value e)) else None
  end.

Lemma samba_directive_cr : cr_stable samba_directive.
Proof. intros r. unfold samba_directive. by rewrite trim_snoc. Qed.

Lemma squash_trim v : squash (trim v) = squash v.
Proof.
  unfold squash. rewrite <- (split_whitespace_start v). f_equal. unfold trim, trim_end.
  destruct (trim_end_matches_app is_whitespace (trim_start v)) as (ws & E & Hws). rewrite E at 2. clear E.
  induction ws as [|c ws IH] using rev_ind; [by rewrite app_nil_r|].
  rewrite app_assoc, split_whitespace_snoc by (apply Hws; set_solver). apply IH. set_solver.
Qed.

Lemma samba_key_trim k : samba_key (trim k) = samba_key k.
Proof.
  unfold samba_key. f_equal. unfold trim, trim_end.
  set (P := fun c : rchar => Is_true (negb (is_whitespace c) && negb (c =? 95)%N)).
  assert (forall ws, (forall y, y ∈ ws -> is_whitespace y = true) -> filter P ws = []) as Hf.
  { induction ws as [|c ws IH]; intros Hw; [done|]. rewrite filter_cons, decide_False; [apply IH; set_solver|].
    unfold P. rewrite (Hw c) by set_solver. by intros []. }
  destruct (trim_start_suffix k) as (ws & E & Hws). rewrite E at 2.
  destruct (trim_end_matches_app is_whitespace (trim_start k)) as (ws' & E' & Hws'). rewrite E' at 2.
  by rewrite !filter_app, (Hf ws), (Hf ws'), app_nil_r by done.
Qed.

Lemma starts_in_head cs a b : head a = head b -> starts_in cs a = starts_in cs b.
Proof. destruct a, b; naive_solver. Qed.

Lemma samba_directive_entry r e : parse_entry r = Some e -> samba_directive r = gated_entry e.
Proof.
  unfold parse_entry, samba_directive, gated_entry. cbv zeta. destruct (trim_trimmed r) as [Hh _].
  destruct (ends_with _ _); [done|]. set (t := trim r) in *. clearbody t.
  destruct (strip_prefix LBRACKET t ≫= strip_suffix RBRACKET) as [inner|] eqn:Eb.
  - case_match; [done|]. intros [= <-]. cbn [section]. destruct t as [|c t]; [done|]. simpl in Eb.
    case_match; [|done]. bool_to_prop. subst c. done.
  - destruct (split_once (N.eqb Samba.EQUALS) t) as [[k v]|] eqn:E; [|done]. simpl.
    destruct (is_empty (trim k)) eqn:Ek; [done|]. intros [= <-]. cbn [section key value].
    unfold key_value. change (ExecDeny.EQUALS) with Samba.EQUALS. rewrite E. cbn [default].
    rewrite samba_key_trim, squash_trim.
    apply split_once_app in E as (x & -> & _ & _).
    replace (is_empty (k ++ x :: v)) with false by (by destruct k). cbn [orb].
    assert (trim k <> []) as Hk by (by destruct (trim k)).
    rewrite (starts_in_head _ (trim k) (k ++ x :: v)); [done|].
    rewrite trim_head. destruct k as [|c k]; [done|]. cbn [app head] in *. specialize (Hh c eq_refl).
    by rewrite trim_start_id.
Qed.

(** ** Continued lines *)

(** A line that ends in a backslash, which samba may join with the next. *)
Definition continued_line (r : rstr) : option () := if ends_with BACKSLASH (trim r) then Some () else None.

Definition continued (text : rstr) : Prop := exists r, r ∈ Utf8.lines text /\ continued_line r = Some ().

Lemma continued_line_cr : cr_stable continued_line.
Proof. intros r. unfold continued_line. by rewrite trim_snoc. Qed.

Lemma continued_line_entry r e : parse_entry r = Some e -> continued_line r = None.
Proof. unfold parse_entry, continued_line. cbv zeta. change BACKSLASH with BACKSLASH_. by destruct (ends_with _ _). Qed.

Lemma not_continued text : ~ continued text <-> omap continued_line (Utf8.lines text) = [].
Proof.
  unfold continued. split.
  - intros Hn. induction (Utf8.lines text) as [|r rs IH]; [done|]. csimpl.
    destruct (continued_line r) as [[]|] eqn:E; [exfalso; apply Hn; exists r; set_solver|].
    apply IH. intros (x & Hx & ?). apply Hn. exists x. set_solver.
  - intros Hn (r & Hr & Hc). assert (() ∈ omap continued_line (Utf8.lines text)) as H by (apply list_elem_of_omap; eauto).
    rewrite Hn in H. by apply elem_of_nil in H.
Qed.

(** An edit makes no line continue. *)
Lemma edit_not_continued wanted s doc' report :
  edit wanted (parse s samba_classify) = Ok (doc', report) -> ~ continued s -> ~ continued (render doc').
Proof.
  intros He. rewrite !not_continued. intros Hs.
  pose proof (gate_edit (H := samba_format) continued_line (fun _ => None) continued_line_cr eq_refl continued_line_entry wanted s doc' report He) as [_ H].
  rewrite Hs in H. apply submseteq_nil_r, H.
  assert (forall l : list SmbEntry, omap (fun _ => None : option ()) l = []) as -> by (by induction l). apply submseteq_nil_l.
Qed.

(** Every end of a line is in a segment. *)
Lemma segment_at p q b : LF ∉ q -> exists y, (y ++ q ++ [LF]) ∈ split_inclusive (p ++ q ++ LF :: b).
Proof.
  intros Hq. induction p as [|c p IH].
  - exists []. cbn [app]. rewrite split_inclusive_line by done. by left.
  - destruct IH as (y & Hy). cbn [app split_inclusive]. destruct (c =? LF)%N; [exists y; by right|].
    destruct (split_inclusive (p ++ q ++ LF :: b)) as [|seg segs]; [by apply elem_of_nil in Hy|].
    apply elem_of_cons in Hy as [<-|Hy]; [exists (c :: y); by left|exists y; by right].
Qed.

Lemma ends_trim_blank y ws :
  (forall c, c ∈ ws -> is_whitespace c = true) -> ends_with BACKSLASH (trim (y ++ BACKSLASH :: ws)) = true.
Proof.
  intros Hws. replace (trim (y ++ BACKSLASH :: ws)) with (trim (y ++ [BACKSLASH])).
  - unfold trim, trim_end. destruct (trim_start_suffix (y ++ [BACKSLASH])) as (w & E & Hw).
    destruct (trim_start (y ++ [BACKSLASH])) as [|x t _] eqn:Et using rev_ind.
    { rewrite app_nil_r in E. specialize (Hw BACKSLASH). rewrite <- E in Hw.
      discriminate Hw. apply elem_of_app. right. by left. }
    rewrite app_assoc in E. apply app_inj_2 in E as [_ [= <-]]; [|done].
    rewrite trim_end_matches_id; [unfold ends_with; by rewrite last_snoc, bool_decide_true|].
    intros c. rewrite last_snoc. by intros [= <-].
  - induction ws as [|c ws IH] using rev_ind; [done|]. rewrite app_comm_cons, app_assoc, (trim_snoc _ c) by (apply Hws, elem_of_app; right; by left).
    apply IH. intros x Hx. apply Hws, elem_of_app. by left.
Qed.

(** A segment whose line ends in a backslash, up to blanks. *)
Lemma segment_continued text y ws :
  (y ++ BACKSLASH :: ws ++ [LF]) ∈ split_inclusive text -> (forall c, c ∈ ws -> is_whitespace c = true) -> continued text.
Proof.
  intros Hs Hws. exists (line_body (y ++ BACKSLASH :: ws ++ [LF])). split; [by apply list_elem_of_fmap_2|].
  unfold continued_line, line_body.
  rewrite (proj2 (strip_suffix_some LF _ (y ++ BACKSLASH :: ws))) by (by rewrite <- app_assoc).
  destruct (strip_suffix CR (y ++ BACKSLASH :: ws)) as [b|] eqn:E; simpl; [|by rewrite ends_trim_blank].
  apply strip_suffix_some in E. assert (trim b = trim (b ++ [CR])) as -> by (by rewrite trim_snoc).
  by rewrite <- E, ends_trim_blank.
Qed.

Lemma replace_absent (pat rep s : rstr) : pat <> [] -> (forall a b, s <> a ++ pat ++ b) -> Utf8.replace pat rep s = s.
Proof.
  intros Hp. unfold Utf8.replace. induction s as [|c s IH]; intros Hs; [done|]. cbn [replace_from].
  unfold begins. rewrite bool_decide_false; [|intros [b Hb]; by apply (Hs [] b)].
  f_equal. apply IH. intros a b E. apply (Hs (c :: a) b). by rewrite E.
Qed.

Lemma join_continuations_id text : ~ continued text -> join_continuations text = text.
Proof.
  intros Hn. unfold join_continuations.
  assert (forall w, w = [] \/ w = [CR] -> forall rep, Utf8.replace (BACKSLASH :: w ++ [LF]) rep text = text) as Hr.
  { intros w Hw rep. apply replace_absent; [done|]. intros a b ->. apply Hn.
    destruct (segment_at a (BACKSLASH :: w) b) as (y & Hy); [destruct Hw as [-> | ->]; set_solver|].
    apply (segment_continued _ y w); [|destruct Hw as [-> | ->]; intros c; [by intros ?%elem_of_nil|by intros ->%list_elem_of_singleton]].
    rewrite app_comm_cons, <- (app_assoc (BACKSLASH :: w)). exact Hy. }
  rewrite (Hr [CR]) by auto. by apply (Hr []); auto.
Qed.

Lemma rsplit_once_app c s a b : rsplit_once c s = Some (a, b) -> s = a ++ c :: b.
Proof.
  unfold rsplit_once. destruct (split_once _ _) as [[x y]|] eqn:E; [|done]. intros [= <- <-].
  apply split_once_app in E as (z & E & Hz%N.eqb_eq & _). subst z. apply (f_equal reverse) in E.
  rewrite reverse_involutive, reverse_app, reverse_cons in E. by rewrite E, <- app_assoc.
Qed.

Lemma joined_head_none text joins seg :
  ~ continued text -> (forall t, joins t = true -> forall c, c ∈ t -> is_whitespace c = true) ->
  seg ∈ split_inclusive text -> joined_head joins seg = None.
Proof.
  intros Hn Hj Hs. unfold joined_head. destruct (strip_suffix LF seg) as [body|] eqn:E; [|done]. simpl.
  destruct (rsplit_once BACKSLASH body) as [[h t]|] eqn:Er; [|done]. simpl.
  destruct (joins t) eqn:Et; [|done]. exfalso. apply Hn. apply strip_suffix_some in E as ->.
  apply rsplit_once_app in Er as ->. apply (segment_continued _ h t); [|by apply Hj].
  revert Hs. by rewrite <- app_assoc.
Qed.

Lemma join_where_id text joins :
  ~ continued text -> (forall t, joins t = true -> forall c, c ∈ t -> is_whitespace c = true) -> join_where text joins = text.
Proof.
  intros Hn Hj. unfold join_where. rewrite <- (concat_split_inclusive text) at 2. f_equal.
  rewrite <- (list_fmap_id (split_inclusive text)) at 2. apply list_fmap_ext. intros i seg Hi.
  by rewrite (joined_head_none text joins seg) by (done || by eapply list_elem_of_lookup_2).
Qed.

(** ** The whole file *)

Lemma submseteq_omap {A B} (f : A -> option B) (l k : list A) : l ⊆+ k -> omap f l ⊆+ omap f k.
Proof.
  induction 1 as [|x l k _ IH|x y l|x l k _ IH|l k m _ IH1 _ IH2]; csimpl; [done| | | |by etransitivity].
  - destruct (f x); [by apply submseteq_skip|done].
  - destruct (f x), (f y); try done. apply submseteq_swap.
  - destruct (f x); [by apply submseteq_cons|done].
Qed.

(** The directives of the first reading: the lines as they stand. *)
Definition untag (x : rstr) : option rstr := match x with 48%N :: 58%N :: d => Some d | _ => None end.

Lemma untag_none {A} (f : A -> rstr) ds : (forall d, untag (f d) = None) -> omap untag (f <$> ds) = [].
Proof. intros H. induction ds as [|d ds IH]; [done|]. csimpl. by rewrite H. Qed.

Lemma samba_tagged text : samba text
  = ((fun line => lit "continued " ++ squash line)
       <$> filter (fun line => Is_true (starts_in (lit "#;[") line && ends_with BACKSLASH line)) (trim <$> Utf8.lines text))
    ++ concat (zip_with (fun tag reading => (fun d => tag ++ d) <$> samba_directives reading)
                 [lit "0:"; lit "1:"; lit "2:"; lit "3:"] (samba_readings text)).
Proof. reflexivity. Qed.

Lemma untag_samba text : omap untag (samba text) = samba_directives text.
Proof.
  rewrite samba_tagged. cbn [samba_readings zip_with concat]. rewrite !omap_app, (untag_none (fun line => lit "continued " ++ squash line)) by done.
  rewrite (untag_none (fun d => lit "1:" ++ d)), (untag_none (fun d => lit "2:" ++ d)), (untag_none (fun d => lit "3:" ++ d)), !app_nil_r by done.
  cbn [app]. induction (samba_directives text) as [|d ds IH]; [done|].
  transitivity (d :: omap untag ((fun d => lit "0:" ++ d) <$> ds)); [reflexivity|by rewrite IH].
Qed.

Lemma samba_plain text : ~ continued text ->
  samba text = concat ((fun tag => (fun d => tag ++ d) <$> samba_directives text) <$> [lit "0:"; lit "1:"; lit "2:"; lit "3:"]).
Proof.
  intros Hn. rewrite samba_tagged.
  assert (forall joins, (joins = is_empty \/ joins = forallb (one_of [SPACE; TAB; CR])) -> join_where text joins = text) as Hj.
  { intros joins Hj. apply join_where_id; [done|]. intros t Ht c Hc. destruct Hj as [-> | ->].
    - destruct t; [by apply elem_of_nil in Hc|done].
    - rewrite forallb_forall in Ht. specialize (Ht c ltac:(by apply list_elem_of_In)).
      unfold one_of in Ht. cbn [existsb] in Ht. rewrite !orb_true_iff, !N.eqb_eq in Ht. by destruct Ht as [->|[->|[->|?]]]. }
  unfold samba_readings. rewrite !Hj, join_continuations_id by auto. cbn [zip_with fmap list_fmap concat].
  assert (filter (fun line => Is_true (starts_in (lit "#;[") line && ends_with BACKSLASH line)) (trim <$> Utf8.lines text) = []) as ->; [|done].
  apply elem_of_nil_inv. intros line [Hl (r & -> & Hr)%list_elem_of_fmap]%list_elem_of_filter. apply Hn. exists r. split; [done|].
  unfold continued_line. apply Is_true_true in Hl. apply andb_true_iff in Hl as [_ ->]. done.
Qed.

(** What the gate says of two texts, in terms of their directives line by line. *)
Lemma samba_submseteq new old : samba new ⊆+ samba old -> samba_directives new ⊆+ samba_directives old.
Proof. intros H%(submseteq_omap untag). by rewrite !untag_samba in H. Qed.

Lemma samba_submseteq_plain new old : ~ continued new -> ~ continued old ->
  samba new ⊆+ samba old <-> samba_directives new ⊆+ samba_directives old.
Proof.
  intros Hn Ho. split; [apply samba_submseteq|]. intros H. rewrite !samba_plain by done. cbn [fmap list_fmap concat].
  repeat (apply submseteq_app; [by apply fmap_submseteq|]). done.
Qed.

(** ** Commands *)

Section Commands.
Variable to_lowercase : rchar -> rstr.

(** What the Unicode tables say of [char::to_lowercase]: on ASCII it is the
    ASCII mapping, and of the other characters only the Kelvin sign has a lower
    case made of ASCII characters, a [k]. *)
Definition unicode_lowercase : Prop :=
  ascii_lowercase to_lowercase
  /\ forall c, (128 <= c)%N -> Forall (fun x => (x < 128)%N) (to_lowercase c) -> to_lowercase c = lit "k".

Lemma normalise_key name : unicode_lowercase ->
  Forall (fun c => (c < 128)%N /\ c <> 107%N /\ c <> 95%N) (normalise to_lowercase name) ->
  samba_key name = normalise to_lowercase name.
Proof.
  intros [Ha Hk]. unfold normalise, samba_key, to_ascii_lowercase. induction name as [|c name IH]; [done|].
  rewrite !filter_cons. destruct (is_whitespace c) eqn:Ew.
  - rewrite (decide_False (P := true = false)) by done. rewrite decide_False by (by intros []). exact IH.
  - rewrite (decide_True (P := false = false)) by done. csimpl. intros Hw. apply Forall_app in Hw as [Hc Hn].
    destruct (N.lt_ge_cases c 128) as [Hlt|Hge].
    2: { rewrite (Hk c Hge) in Hc; [|eapply Forall_impl; [exact Hc|naive_solver]].
         apply Forall_cons in Hc as [(_ & ? & _) _]. done. }
    rewrite (Ha c Hlt) in Hc |- *. apply Forall_cons in Hc as [(_ & _ & H95) _].
    rewrite decide_True; [csimpl; by rewrite IH|]. rewrite (proj2 (N.eqb_neq c 95)); [done|].
    intros ->. by apply H95.
Qed.

Definition plain_word (w : rstr) : bool := forallb (fun c => ((c <? 128) && negb (c =? 107) && negb (c =? 95))%N) w.

Lemma plain_word_forall w : plain_word w = true -> Forall (fun c => (c < 128)%N /\ c <> 107%N /\ c <> 95%N) w.
Proof.
  unfold plain_word. rewrite forallb_forall. intros H. apply Forall_forall. intros c Hc%list_elem_of_In.
  specialize (H c Hc). rewrite !andb_true_iff, !negb_true_iff, N.ltb_lt, !N.eqb_neq in H. tauto.
Qed.

Lemma among_elem ws w : among ws w = true <-> w ∈ ws.
Proof.
  unfold among. rewrite existsb_exists. split.
  - intros (x & Hx%list_elem_of_In & ->%bool_decide_eq_true). done.
  - intros Hw. exists w. split; [by apply list_elem_of_In|by apply bool_decide_eq_true].
Qed.

(** Every command the module warns about is one the gate looks for. *)
Lemma command_gated e id : unicode_lowercase -> command_id to_lowercase e = Some id -> plain e ->
  exists d, gated_entry e = Some d.
Proof.
  intros Hu. unfold command_id, plain, gated_entry. destruct (section e); [done|]. intros Hc [Hb _].
  assert (starts_in (lit "#;[") (key e) = false) as ->.
  { unfold bad_key in Hb. rewrite !orb_false_iff in Hb. destruct Hb as ((((Hl & _) & Hn) & Hs) & _).
    destruct (key e) as [|c k]; [done|]. unfold starts_with in *. cbn [head] in *. bool_to_prop.
    change (starts_in (lit "#;[") (c :: k)) with ((c =? 35)%N || ((c =? 59)%N || ((c =? 91)%N || false))).
    rewrite !orb_false_iff, !N.eqb_neq. split_and!; [intros ->; by apply Hn|intros ->; by apply Hs|intros ->; by apply Hl|done]. }
  assert (normalise to_lowercase (key e) ∈ ROOT_COMMANDS ++ CLIENT_COMMANDS) as Hin.
  { destruct (is_empty (value e)); [done|]. cbv zeta in Hc. apply elem_of_app.
    destruct (among ROOT_COMMANDS _) eqn:E1; [left; by apply among_elem|].
    destruct (among CLIENT_COMMANDS _) eqn:E2; [right; by apply among_elem|done]. }
  assert (forall w, w ∈ ROOT_COMMANDS ++ CLIENT_COMMANDS -> plain_word w = true /\ samba_exec w = true) as Hw.
  { intros w. assert (forallb (fun w => plain_word w && samba_exec w) (ROOT_COMMANDS ++ CLIENT_COMMANDS) = true) as Hall by (by vm_compute).
    rewrite forallb_forall in Hall. intros Hx%list_elem_of_In. by apply andb_true_iff, Hall. }
  destruct (Hw _ Hin) as [Hp He]. rewrite (normalise_key (key e) Hu) by (by apply plain_word_forall). rewrite He. eauto.
Qed.

End Commands.

(** ** Properties *)

(** C31: The samba module against the monitor's content gate. After an accepted
    edit the gate lets the new file through only when the parameters of the new
    model that run programs or load code or configuration are, with their
    values, among those of the old model, each at most as often; and exactly
    then, when no line of the old file ends in a backslash. Every command the
    module warns about counts among them, so an edit that adds one is refused. *)
Theorem samba_gate (s : rstr) (m : SambaModel) (doc' : Document) (report : EditReport) :
  let old := omap (fun l => parse_entry (raw l)) (lines_of_kind Directive (parse s samba_classify)) in
  let passes := adds_exec_directive (lit "samba") (as_bytes s) (as_bytes (render doc')) = false in
  samba_apply (parse s samba_classify) m = Ok (doc', report) ->
  Forall is_char s -> Forall is_char (render doc') ->
  (passes -> omap gated_entry (smb_entries m) ⊆+ omap gated_entry old)
  /\ (~ continued s -> omap gated_entry (smb_entries m) ⊆+ omap gated_entry old -> passes)
  /\ (forall to_lowercase e id, unicode_lowercase to_lowercase -> e ∈ smb_entries m -> plain e ->
        command_id to_lowercase e = Some id -> gated_entry e ∉ gated_entry <$> old -> ~ passes).
Proof.
  cbv zeta. intros Ha Hs Hd.
  assert (adds_exec_directive (lit "samba") (as_bytes s) (as_bytes (render doc')) = false <-> samba (render doc') ⊆+ samba s) as Hpass.
  { by rewrite adds_exec_spec, (lossy_of_valid _ _ (from_utf8_bytes _ Hs)), (lossy_of_valid _ _ (from_utf8_bytes _ Hd)). }
  pose proof (gate_edit (H := samba_format) samba_directive gated_entry samba_directive_cr eq_refl samba_directive_entry
                (smb_entries m) s doc' report Ha) as Hg.
  rewrite (directive_entries (H := samba_format)). split_and!.
  - intros Hp%Hpass. by apply Hg, samba_submseteq.
  - intros Hn Ho. apply Hpass, samba_submseteq_plain; [|done|by apply Hg]. by eapply edit_not_continued.
  - intros to_lowercase e id Hu He Hpl Hc Hnew Hp%Hpass%samba_submseteq%Hg.
    destruct (command_gated to_lowercase e id Hu Hc Hpl) as [d Hgd].
    assert (d ∈ omap gated_entry (smb_entries m)) as Hin by (apply list_elem_of_omap; eauto).
    eapply elem_of_submseteq in Hin; [|exact Hp]. apply list_elem_of_omap in Hin as (e' & He' & Hd').
    apply Hnew. rewrite Hgd, <- Hd'. by apply list_elem_of_fmap_2.
Qed.

Module SambaGateDemo.

Definition before : rstr := join [LF] [lit "[global]"; lit "workgroup = HOME"; lit "[data]"; lit "path = /srv"; []].
Definition shared : list SmbEntry := [mkSmb (Some (lit "global")) [] []; directive (lit "workgroup") (lit "LAB");
  mkSmb (Some (lit "data")) [] []; directive (lit "path") (lit "/srv")].
Definition command : SmbEntry := directive (lit "Root PreExec") (lit "/bin/run").
Definition edited (m : SambaModel) : Document * EditReport :=
  unwrap_or (samba_apply (parse before samba_classify) m) (parse [] samba_classify, mkReport 0 0 0).

Lemma samba_edited_ok m :
  is_ok (samba_apply (parse before samba_classify) m) = true -> samba_apply (parse before samba_classify) m = Ok ((edited m).1, (edited m).2).
Proof. unfold edited. apply unwrap_pair. Qed.

End SambaGateDemo.

Lemma samba_gate_witness :
  adds_exec_directive (lit "samba") (as_bytes SambaGateDemo.before)
    (as_bytes (render (SambaGateDemo.edited (mkSamba SambaGateDemo.shared)).1)) = false
  /\ adds_exec_directive (lit "samba") (as_bytes SambaGateDemo.before)
       (as_bytes (render (SambaGateDemo.edited (mkSamba (SambaGateDemo.shared ++ [SambaGateDemo.command]))).1)) <> false.
Proof.
  split.
  - destruct (samba_gate SambaGateDemo.before (mkSamba SambaGateDemo.shared)
      (SambaGateDemo.edited (mkSamba SambaGateDemo.shared)).1 (SambaGateDemo.edited (mkSamba SambaGateDemo.shared)).2) as (_ & H & _).
    + apply SambaGateDemo.samba_edited_ok. by vm_compute.
    + apply (bool_decide_unpack _). by vm_compute.
    + apply (bool_decide_unpack _). by vm_compute.
    + apply H; [apply not_continued; by vm_compute|]. apply (bool_decide_unpack _). by vm_compute.
  - destruct (samba_gate SambaGateDemo.before (mkSamba (SambaGateDemo.shared ++ [SambaGateDemo.command]))
      (SambaGateDemo.edited (mkSamba (SambaGateDemo.shared ++ [SambaGateDemo.command]))).1
      (SambaGateDemo.edited (mkSamba (SambaGateDemo.shared ++ [SambaGateDemo.command]))).2) as (_ & _ & H).
    + apply SambaGateDemo.samba_edited_ok. by vm_compute.
    + apply (bool_decide_unpack _). by vm_compute.
    + apply (bool_decide_unpack _). by vm_compute.
    + apply (H ascii_lower SambaGateDemo.command ROOT_COMMAND).
      * split; [done|]. intros c Hc [Hl _]%Forall_cons. exfalso. revert Hl. unfold char_to_ascii_lowercase.
        assert (is_ascii_uppercase c = false) as ->; [|lia]. unfold is_ascii_uppercase.
        apply andb_false_iff. right. apply N.leb_gt. lia.
      * cbn [smb_entries]. apply elem_of_app. right. by left.
      * by split; vm_compute.
      * by vm_compute.
      * apply (bool_decide_unpack _). by vm_compute.
Defined.
