(* ===== verification/Mounts.v ===== *)
(** * The [mounts] module: [crates/modules/mounts/src/lib.rs]

    [/etc/fstab]: six fields a line; and the systemd mount units of the entries
    an edit adds. *)

From Stdlib Require Import ZArith.
From stdpp Require Import gmap.
From S2P Require Import Prelude Align Str Num Ip Utf8 Disk Atomic ExecDeny Descriptor Doc DocEdit Diag Version Config LineModule.

(** ** Model *)

Record FsEntry := mkFsEntry {
  spec : rstr;
  mountpoint : rstr;
  fstype : rstr;
  options : list rstr;
  dump : Z;
  pass : Z;
}.

#[export] Instance FsEntry_eq_dec : EqDecision FsEntry.
Proof. solve_decision. Defined.

Record MountsModel := mkMounts { table : list FsEntry }.
#[export] Instance MountsModel_eq_dec : EqDecision MountsModel.
Proof. solve_decision. Defined.

(** ** Parsing and rendering *)

Definition HASH : rchar := 35%N.
Definition COMMA : rchar := 44%N.
Definition SLASH : rchar := 47%N.

Definition parse_entry (r : rstr) : option FsEntry :=
  let trimmed := trim r in
  if is_empty trimmed || starts_with HASH trimmed then None
  else match split_whitespace trimmed with
       | [spec; mountpoint; fstype; options; dump; pass] =>
           dump ← parse_unsigned 8 dump;
           pass ← parse_unsigned 8 pass;
           Some (mkFsEntry spec mountpoint fstype (split (N.eqb COMMA) options) dump pass)
       | _ => None
       end.

Definition mounts_classify (r : rstr) : LineKind :=
  if is_empty (trim r) then Blank
  else if starts_with HASH (trim_start r) then Comment
  else match parse_entry r with Some _ => Directive | None => Unknown end.

Definition entry_line (e : FsEntry) : rstr :=
  spec e ++ [SPACE] ++ mountpoint e ++ [SPACE] ++ fstype e ++ [SPACE] ++ join [COMMA] (options e)
  ++ [SPACE] ++ show_dec (dump e) ++ [SPACE] ++ show_dec (pass e).

(** The message of the source also quotes the line with [{raw:?}]. *)
Definition mounts_roundtrip_message (r : rstr) : rstr :=
  lit "entry does not round-trip through the file format: " ++ r.

Definition render_entry (e : FsEntry) : result EditError rstr :=
  let r := entry_line e in
  if contains_any [LF; CR; NUL] r then Err (LineBreakInValue r)
  else if bool_decide (parse_entry r = Some e) then Ok r
  else Err (Unsupported (mounts_roundtrip_message r)).

(** ** Added mounts *)

#[export] Instance MountUnit_eq_dec : EqDecision MountUnit.
Proof. solve_decision. Defined.

(** The components of a path, without empty ones and [.]; none when there is a [..]. *)
Fixpoint normal_parts (parts : list rstr) : option (list rstr) :=
  match parts with
  | [] => Some []
  | part :: parts =>
      if is_empty part || bool_decide (part = lit ".") then normal_parts parts
      else if bool_decide (part = lit "..") then None
      else (part ::.) <$> normal_parts parts
  end.

Definition normalized_mountpoint (r : rstr) : option rstr :=
  decoded ← from_utf8 (unmangle (as_bytes r));
  rest ← strip_prefix SLASH decoded;
  parts ← normal_parts (split (N.eqb SLASH) rest);
  Some (SLASH :: join [SLASH] parts).

Definition plain_byte (b : N) : bool := is_ascii_alphanumeric b || contains b (lit ":_.").

Definition escape_byte (index : nat) (b : N) : rstr :=
  if (b =? SLASH)%N then lit "-"
  else if plain_byte b && negb ((index =? 0) && (b =? DOT)%N) then [b]
  else lit "\x" ++ [digit_char (Z.of_N b / 16); digit_char (Z.of_N b mod 16)].

Definition escape_path (path : rstr) : rstr :=
  let rest := trim_start_matches (N.eqb SLASH) path in
  if is_empty rest then lit "-" else concat (imap escape_byte (as_bytes rest)).

Definition has_option (e : FsEntry) (o : rstr) : bool := existsb (fun known => bool_decide (known = o)) (options e).

Definition unit_suffix (e : FsEntry) : rstr :=
  if has_option e (lit "x-systemd.automount") then lit "automount" else lit "mount".

(** One round of the loop of [added_mounts]. *)
Definition added_step (before : list FsEntry) (units : list MountUnit) (e : FsEntry) : list MountUnit :=
  if bool_decide (fstype e = lit "swap") || has_option e (lit "noauto") then units
  else match normalized_mountpoint (mountpoint e) with
       | None => units
       | Some path =>
           let unchanged := existsb (fun old => bool_decide (normalized_mountpoint (mountpoint old) = Some path)
                                                && bool_decide (spec old = spec e) && bool_decide (fstype old = fstype e)) before in
           if unchanged || existsb (fun u => bool_decide (Descriptor.mountpoint u = path)) units then units
           else units ++ [mkMountUnit path (escape_path path ++ [DOT] ++ unit_suffix e)]
       end.

Definition added_mounts (previous current : rstr) : list MountUnit :=
  foldl (added_step (omap parse_entry (Utf8.lines previous))) [] (omap parse_entry (Utf8.lines current)).

(** ** Validation *)

Definition EMPTY_SPEC : MessageId := lit "mounts-empty-spec".
Definition EMPTY_MOUNTPOINT : MessageId := lit "mounts-empty-mountpoint".
Definition INVALID_FSTYPE : MessageId := lit "mounts-invalid-fstype".
Definition PASS_TOO_HIGH : MessageId := lit "mounts-pass-too-high".
Definition ROOT_PASS : MessageId := lit "mounts-root-pass".
Definition MISSING_NOFAIL : MessageId := lit "mounts-missing-nofail".
Definition MISSING_GUARDS : MessageId := lit "mounts-missing-guards".
Definition NETWORK_AUTOMOUNT : MessageId := lit "mounts-network-automount".
Definition NOAUTO_WITHOUT_USER : MessageId := lit "mounts-noauto-without-user".
Definition MISSING_BOOT_ESCAPE : MessageId := lit "mounts-missing-boot-escape".
Definition CRITICAL_NO_AUTO : MessageId := lit "mounts-critical-noauto".
Definition RELATIVE_MOUNTPOINT : MessageId := lit "mounts-relative-mountpoint".
Definition NO_ROOT_ENTRY : MessageId := lit "mounts-no-root-entry".

Definition one_word (words : list rstr) (w : rstr) : bool := existsb (fun x => bool_decide (w = x)) words.

Definition is_boot_critical (m : rstr) : bool :=
  one_word [lit "/"; lit "/boot"; lit "/efi"] m || begins (lit "/boot/") m || begins (lit "/efi/") m.

Definition is_valid_fstype (t : rstr) : bool :=
  negb (is_empty t) && forallb (fun c => is_ascii_alphanumeric c || contains c (lit ".-_")) t.

Definition is_kernel_state_fstype (t : rstr) : bool :=
  one_word [lit "proc"; lit "sysfs"; lit "devtmpfs"; lit "devpts"; lit "mqueue"; lit "cgroup"; lit "cgroup2"; lit "autofs";
            lit "efivarfs"; lit "bpf"; lit "debugfs"; lit "tracefs"; lit "configfs"; lit "fusectl"; lit "hugetlbfs"] t.

Definition is_removable (e : FsEntry) : bool :=
  begins (lit "/media") (mountpoint e) || begins (lit "/mnt") (mountpoint e)
  || one_word [lit "vfat"; lit "exfat"; lit "ntfs"] (fstype e).

Definition is_network_fstype (t : rstr) : bool := one_word [lit "nfs"; lit "nfs4"; lit "cifs"; lit "smbfs"] t.

Definition MOUNT_GUARDS : list rstr := [lit "nosuid"; lit "nodev"; lit "noexec"].

Definition missing_guards (opts : list rstr) : list rstr :=
  filter (fun guard => one_word opts guard = false) MOUNT_GUARDS.

Definition has_boot_escape (opts : list rstr) : bool := existsb (one_word [lit "nofail"; lit "noauto"]) opts.

Definition validate_entry (index : nat) (e : FsEntry) : Diagnostics :=
  let field name := lit "entries/" ++ show_nat index ++ lit "/" ++ name in
  let finding sev id name args :=
    foldl (fun d arg => with_arg (fst arg) (snd arg) d) (with_field (field name) (new_diagnostic sev id)) args in
  let at_index := (lit "index", show_nat index) in
  let at_mountpoint := (lit "mountpoint", mountpoint e) in
  let boot_critical := is_boot_critical (mountpoint e) in
  let swap_or_kernel := bool_decide (fstype e = lit "swap") || is_kernel_state_fstype (fstype e) in
  (if is_empty (spec e) then [finding Error EMPTY_SPEC (lit "spec") [at_index]] else [])
  ++ (if is_empty (mountpoint e) then [finding Error EMPTY_MOUNTPOINT (lit "mountpoint") [at_index]]
      else if negb (starts_with SLASH (mountpoint e)) && negb (one_word [lit "none"; lit "swap"] (mountpoint e))
      then [finding Error RELATIVE_MOUNTPOINT (lit "mountpoint") [at_index; at_mountpoint]] else [])
  ++ (if is_valid_fstype (fstype e) then [] else [finding Error INVALID_FSTYPE (lit "fstype") [(lit "fstype", fstype e)]])
  ++ (if (2 <? pass e)%Z then [finding Error PASS_TOO_HIGH (lit "pass") [at_index; (lit "pass", show_dec (pass e))]] else [])
  ++ (if bool_decide (mountpoint e = lit "/") && negb (pass e =? 1)%Z
      then [finding Warning ROOT_PASS (lit "pass") [(lit "pass", show_dec (pass e))]] else [])
  ++ (if boot_critical && has_option e (lit "noauto")
      then [finding Error CRITICAL_NO_AUTO (lit "options") [at_mountpoint]] else [])
  ++ (if negb boot_critical && negb (bool_decide (mountpoint e = lit "none")) && negb swap_or_kernel
         && negb (has_boot_escape (options e))
      then [finding Warning MISSING_BOOT_ESCAPE (lit "options") [at_mountpoint]] else [])
  ++ (if is_removable e && negb (has_option e (lit "nofail"))
      then [finding Warning MISSING_NOFAIL (lit "options") [at_mountpoint]] else [])
  ++ (if negb (bool_decide (mountpoint e = lit "/")) && negb swap_or_kernel && negb (is_empty (missing_guards (options e)))
      then [finding Warning MISSING_GUARDS (lit "options")
              [at_mountpoint; (lit "missing", join (lit ", ") (missing_guards (options e)))]] else [])
  ++ (if is_network_fstype (fstype e) && negb (has_option e (lit "x-systemd.automount"))
      then [finding Recommendation NETWORK_AUTOMOUNT (lit "options") [at_mountpoint]] else [])
  ++ (if has_option e (lit "noauto") && negb (has_option e (lit "user"))
      then [finding Recommendation NOAUTO_WITHOUT_USER (lit "options") [at_mountpoint]] else []).

Definition mounts_validate (m : MountsModel) (_ : HostProfile) : Diagnostics :=
  concat (imap validate_entry (table m))
  ++ (if negb (is_empty (table m)) && negb (existsb (fun e => bool_decide (mountpoint e = lit "/")) (table m))
      then [with_field (lit "entries") (new_diagnostic Warning NO_ROOT_ENTRY)] else []).

Definition mounts_defaults (_ : HostProfile) : MountsModel := mkMounts [].

(** ** The module *)

Definition mounts_parse (src : rstr) : result ParseError Document := Ok (parse src mounts_classify).

Definition mounts_to_model (doc : Document) : result ModelError MountsModel :=
  Ok (mkMounts (omap (fun l => parse_entry (raw l)) (lines_of_kind Directive doc))).

Definition mounts_apply (doc : Document) (m : MountsModel) : result EditError (Document * EditReport) :=
  edit_entries parse_entry render_entry (fun _ => false) (table m) doc.

#[export] Instance MountsModule : ConfigModule := {
  Doc := Document;
  Model := MountsModel;
  cm_parse := mounts_parse;
  cm_render := render;
  cm_to_model := mounts_to_model;
  cm_apply := mounts_apply;
  cm_validate := mounts_validate;
  cm_defaults := mounts_defaults;
  cm_model_target := fun _ => Ok None;
}.

(** ** What a line carries *)

Definition field (w : rstr) : Prop := w <> [] /\ forall c, c ∈ w -> is_whitespace c = false.

Record entry_ok (e : FsEntry) : Prop := {
  eo_spec : field (spec e);
  eo_start : starts_with HASH (spec e) = false;
  eo_mountpoint : field (mountpoint e);
  eo_fstype : field (fstype e);
  eo_options : options e <> [] /\ field (join [COMMA] (options e)) /\ Forall (fun o => COMMA ∉ o) (options e);
  eo_dump : fits 8 (dump e);
  eo_pass : fits 8 (pass e);
}.

(** A byte reads back as written, and is one word. *)
Definition byte_reads (n : Z) : bool :=
  bool_decide (parse_unsigned 8 (show_dec n) = Some n) && negb (is_empty (show_dec n))
  && forallb (fun c => negb (is_whitespace c)) (show_dec n).

Lemma show_byte n : fits 8 n -> parse_unsigned 8 (show_dec n) = Some n /\ field (show_dec n).
Proof.
  intros Hn. assert (byte_reads n = true) as H.
  { assert (forallb byte_reads (Z.of_nat <$> seq 0 256) = true) as Hall by (by vm_compute).
    rewrite forallb_forall in Hall. apply Hall. apply list_elem_of_In. apply list_elem_of_fmap.
    exists (Z.to_nat n). unfold fits, max_of in Hn. split; [lia|]. apply elem_of_seq. lia. }
  unfold byte_reads in H. bool_to_prop. split; [done|]. split; [by intros E; rewrite E in H1|].
  intros c Hc. rewrite forallb_forall in H0. apply list_elem_of_In in Hc. by apply negb_true_iff, H0.
Qed.

Definition entry_words (e : FsEntry) : list rstr :=
  [spec e; mountpoint e; fstype e; join [COMMA] (options e); show_dec (dump e); show_dec (pass e)].

Lemma entry_line_join e : entry_line e = join [SPACE] (entry_words e).
Proof. done. Qed.

Lemma entry_words_fields e : entry_ok e -> Forall field (entry_words e).
Proof.
  intros [Hs _ Hm Hf (_ & Ho & _) Hd Hp]. repeat (constructor; [by try apply show_byte|]). constructor.
Qed.

Lemma entry_line_words e : entry_ok e -> split_whitespace (entry_line e) = entry_words e.
Proof. intros He. rewrite entry_line_join. by apply split_whitespace_join; [apply entry_words_fields|]. Qed.

Lemma entry_line_trimmed e : entry_ok e -> trim (entry_line e) = entry_line e.
Proof.
  intros He. pose proof (entry_words_fields e He) as Hw. rewrite Forall_forall in Hw.
  apply trimmed_trim. split; intros c Hc.
  - assert (c ∈ spec e) as Hin; [|by apply (Hw (spec e)); [left|]].
    destruct (Hw (spec e) ltac:(by left)) as [Hne _]. unfold entry_line in Hc.
    destruct (spec e) as [|x s]; [done|]. injection Hc as ->. by left.
  - destruct (show_byte (pass e)) as [_ [Hne Hws]]; [by destruct He|]. apply Hws.
    unfold entry_line in Hc. rewrite !app_assoc in Hc.
    destruct (show_dec (pass e)) as [|x s] eqn:E using rev_ind; [done|].
    rewrite app_assoc, last_snoc in Hc. injection Hc as ->. set_solver.
Qed.

Lemma starts_with_head c a b : head a = head b -> starts_with c a = starts_with c b.
Proof. unfold starts_with. by intros ->. Qed.

Lemma parse_entry_line e : entry_ok e -> parse_entry (entry_line e) = Some e.
Proof.
  intros He. unfold parse_entry. rewrite entry_line_trimmed, entry_line_words by done. cbv zeta.
  destruct (He) as [[Hne _] Hst _ _ (Hone & Ho & Hc) Hd Hp].
  assert (head (entry_line e) = head (spec e)) as Hh by (unfold entry_line; by destruct (spec e)).
  rewrite (starts_with_head _ _ _ Hh), Hst. assert (is_empty (entry_line e) = false) as -> by (unfold entry_line; by destruct (spec e)).
  cbn [orb entry_words]. destruct (show_byte _ Hd) as [-> _], (show_byte _ Hp) as [-> _]. cbn [mbind option_bind].
  rewrite split_join; [by destruct e|done| |done].
  eapply Forall_impl; [exact Hc|]. intros o Ho' y Hy. apply N.eqb_neq. by intros <-.
Qed.

Lemma parse_entry_ok r e : parse_entry r = Some e -> entry_ok e.
Proof.
  unfold parse_entry. cbv zeta. destruct (is_empty (trim r)) eqn:Et; [done|]. cbn [orb].
  destruct (starts_with HASH (trim r)) eqn:Es; [done|].
  destruct (split_whitespace (trim r)) as [|s [|m [|f [|o [|d [|p [|x ?]]]]]]] eqn:E; try done.
  intros (dn & Hd & H)%bind_Some. apply bind_Some in H as (pn & Hp & [= <-]).
  assert (forall w, w ∈ [s; m; f; o; d; p] -> field w) as Hf.
  { intros w Hw. rewrite <- E in Hw. destruct (split_whitespace_words _ _ Hw) as [? Hc]. split; [done|]. intros c. apply Hc. }
  assert (join [COMMA] (split (N.eqb COMMA) o) = o) as Ho by apply join_split.
  split; cbn [spec mountpoint fstype options dump pass]; try (apply Hf; set_solver).
  - rewrite <- Es. apply starts_with_head. rewrite (split_whitespace_head _ _ _ E).
    symmetry. by rewrite <- trim_head, trim_trim.
  - split_and!; [apply split_nonempty|rewrite Ho; apply Hf; set_solver|].
    apply Forall_forall. intros w Hw Hc. destruct (split_elem _ _ _ _ Hw Hc) as [_ ?]. done.
  - by eapply parse_unsigned_fits.
  - by eapply parse_unsigned_fits.
Qed.

(** ** The line format *)

Lemma render_entry_ok e r : render_entry e = Ok r -> check_raw r = Ok () /\ parse_entry r = Some e.
Proof.
  unfold render_entry. cbv zeta. destruct (contains_any _ _) eqn:E; [done|].
  destruct (bool_decide _) eqn:Eb; [|done]. intros [= <-]. bool_to_prop. by split; [apply unbroken_ok|].
Qed.

Definition entry_texts (e : FsEntry) : list rstr := [spec e; mountpoint e; fstype e] ++ options e.

Lemma entry_texts_line e s c : s ∈ entry_texts e -> c ∈ s -> c ∈ entry_line e.
Proof.
  unfold entry_texts. intros [Hs|Hs]%elem_of_app Hc; rewrite entry_line_join.
  - apply (join_elem _ _ s); [|done]. unfold entry_words. set_solver.
  - apply (join_elem _ _ (join [COMMA] (options e))); [unfold entry_words; set_solver|by apply (join_elem _ _ s)].
Qed.

Lemma mounts_render_break e s c :
  s ∈ entry_texts e -> c ∈ s -> c ∈ [LF; CR; NUL] -> exists x, render_entry e = Err x.
Proof.
  intros Hs Hc Hb. unfold render_entry. cbv zeta. rewrite (breaks_raw c) by (done || by eapply entry_texts_line). eauto.
Qed.

Lemma parse_entry_cr : cr_stable parse_entry.
Proof. intros r. unfold parse_entry. by rewrite trim_snoc. Qed.

Lemma mounts_entry_start r e : parse_entry r = Some e -> exists c t, trim_start r = c :: t /\ (HASH =? c)%N = false.
Proof.
  unfold parse_entry. cbv zeta. pose proof (trim_head r) as Hh. destruct (trim r) as [|x t]; [done|].
  destruct (starts_with HASH (x :: t)) eqn:Es; [done|]. intros _. destruct (trim_start r) as [|y u]; [done|].
  injection Hh as ->. exists y, u. split; [done|]. apply N.eqb_neq. intros <-.
  unfold starts_with in Es. by rewrite bool_decide_true in Es.
Qed.

Lemma mounts_classify_eq r : mounts_classify r =
  if is_empty (trim r) then Blank else if starts_comment (N.eqb HASH) r then Comment
  else match parse_entry r with Some _ => Directive | None => Unknown end.
Proof. unfold mounts_classify. by rewrite starts_comment_eqb. Qed.

#[export] Instance mounts_format : LineFormat FsEntry := {
  lf_eq_dec := FsEntry_eq_dec;
  lf_classify := mounts_classify;
  lf_parse := parse_entry;
  lf_render := render_entry;
  lf_comment := N.eqb HASH;
  lf_opens_section := fun _ => false;
  lf_texts := entry_texts;
  lf_classify_eq := mounts_classify_eq;
  lf_parse_cr := parse_entry_cr;
  lf_render_ok := render_entry_ok;
  lf_render_start := fun e r H => mounts_entry_start r e (proj2 (render_entry_ok e r H));
  lf_render_break := mounts_render_break;
}.

#[export] Instance mounts_entries : EntryList FsEntry MountsModel := {
  of_entries := mkMounts;
  entries_of := table;
  entries_of_list := fun _ => eq_refl;
  list_of_entries := fun m => match m with mkMounts _ => eq_refl end;
}.

#[export] Instance mounts_laws : ConfigModuleLaws MountsModule := line_laws mounts_validate mounts_defaults.

Lemma render_entry_iff e r :
  render_entry e = Ok r <-> r = entry_line e /\ entry_ok e /\ NUL ∉ entry_line e.
Proof.
  split.
  - intros H. assert (r = entry_line e) as -> by (unfold render_entry in H; cbv zeta in H; repeat case_match; by simplify_eq).
    apply render_entry_ok in H as [Hck He%parse_entry_ok]. split_and!; [done|done|].
    intros Hn. unfold check_raw in Hck. rewrite (breaks_raw NUL) in Hck by (done || set_solver). done.
  - intros (-> & He & Hn). unfold render_entry. cbv zeta.
    assert (contains_any [LF; CR; NUL] (entry_line e) = false) as ->; [|by rewrite bool_decide_true by (by apply parse_entry_line)].
    apply contains_any_false. intros c Hc Hb.
    assert (c <> LF /\ c <> CR) as [??]; [|rewrite !elem_of_cons, elem_of_nil in Hb; destruct_or! Hb; by subst].
    rewrite entry_line_join in Hc. apply elem_of_join in Hc as [->%list_elem_of_singleton|(w & Hw & Hc)]; [done|].
    pose proof (entry_words_fields e He) as Hf. rewrite Forall_forall in Hf. destruct (Hf w Hw) as [_ Hws].
    specialize (Hws c Hc). split; by intros ->.
Qed.

(** ** What validation accepts *)

Record entry_valid (e : FsEntry) : Prop := {
  ev_spec : spec e <> [];
  ev_mountpoint : starts_with SLASH (mountpoint e) = true \/ mountpoint e = lit "none" \/ mountpoint e = lit "swap";
  ev_fstype : is_valid_fstype (fstype e) = true;
  ev_pass : (pass e <= 2)%Z;
  ev_boot : is_boot_critical (mountpoint e) = true -> lit "noauto" ∉ options e;
}.

Lemma has_option_iff e o : has_option e o = true <-> o ∈ options e.
Proof.
  unfold has_option. rewrite existsb_exists. setoid_rewrite <- list_elem_of_In. split.
  - intros (x & Hx & Hb). by bool_to_prop; subst.
  - intros Ho. exists o. by rewrite bool_decide_true.
Qed.

Lemma no_errors_if (b : bool) ds : has_errors (if b then ds else []) = false <-> (b = true -> has_errors ds = false).
Proof. destruct b; naive_solver. Qed.

Lemma validate_entry_ok i e : has_errors (validate_entry i e) = false <-> entry_valid e.
Proof.
  unfold validate_entry. cbv zeta. rewrite !has_errors_app, !orb_false_iff. split.
  - intros (Hs & Hm & Hf & Hp & _ & Hb & _). split.
    + intros E. by rewrite E in Hs.
    + destruct (mountpoint e) as [|x m] eqn:E; [done|]. cbn [is_empty] in Hm. rewrite <- E in *.
      destruct (starts_with SLASH (mountpoint e)); [by left|right]. cbn [negb andb] in Hm.
      unfold one_word in Hm. cbn [existsb] in Hm.
      destruct (bool_decide_reflect (mountpoint e = lit "none")); [by left|].
      destruct (bool_decide_reflect (mountpoint e = lit "swap")); [by right|done].
    + by destruct (is_valid_fstype (fstype e)).
    + destruct (2 <? pass e)%Z eqn:E; [done|]. bool_to_prop. lia.
    + intros Hc Ho%has_option_iff. by rewrite Hc, Ho in Hb.
  - intros [Hs Hm Hf Hp Hb]. rewrite Hf. rewrite (proj2 (Z.ltb_ge _ _) Hp).
    repeat match goal with |- _ /\ _ => split end; try done; rewrite ?no_errors_if; try done.
    + intros E. by destruct (spec e).
    + destruct Hm as [Hm|[-> | ->]]; [|done..]. rewrite Hm. by destruct (mountpoint e).
    + intros [Hc Ho%has_option_iff]%andb_true_iff. by apply Hb in Hc.
Qed.

Lemma mounts_validate_ok m p : has_errors (mounts_validate m p) = false <-> Forall entry_valid (table m).
Proof.
  unfold mounts_validate. rewrite has_errors_app, orb_false_iff, (has_errors_imap _ entry_valid) by (intros; apply validate_entry_ok).
  split; [by intros []|]. intros H. split; [done|]. by case_match.
Qed.

(** ** Unit names *)

Definition hex_digit_value (c : rchar) : N := if is_ascii_digit c then (c - 48)%N else (c - 87)%N.

(** [systemd-escape --unescape --path] on a name [escape_path] made. *)
Fixpoint unescape (s : rstr) : list N :=
  match s with
  | [] => []
  | c :: s' =>
      if (c =? 45)%N then SLASH :: unescape s'
      else if (c =? 92)%N
      then match s' with
           | _ :: h :: l :: rest => (hex_digit_value h * 16 + hex_digit_value l)%N :: unescape rest
           | _ => []
           end
      else c :: unescape s'
  end.

(** One byte reads back, whatever follows. *)
Lemma unescape_byte i b rest : (b < 256)%N -> unescape (escape_byte i b ++ rest) = b :: unescape rest.
Proof.
  intros Hb. unfold escape_byte. destruct (N.eqb_spec b SLASH) as [->|Hs]; [done|].
  destruct (plain_byte b && negb ((i =? 0) && (b =? DOT)%N)) eqn:E.
  - cbn [app unescape]. assert (b <> 45%N /\ b <> 92%N) as [H1 H2].
    { apply andb_true_iff in E as [E _]. split; by intros ->. }
    by rewrite (proj2 (N.eqb_neq _ _) H1), (proj2 (N.eqb_neq _ _) H2).
  - cbn [lit app]. change (lit "\x") with [92%N; 120%N]. cbn [app unescape N.eqb Pos.eqb]. f_equal.
    assert (forallb (fun b => (hex_digit_value (digit_char (Z.of_N b / 16)) * 16
                               + hex_digit_value (digit_char (Z.of_N b mod 16)) =? b)%N) (N.of_nat <$> seq 0 256) = true) as Hall
      by (by vm_compute).
    rewrite forallb_forall in Hall. apply N.eqb_eq, Hall. apply list_elem_of_In, list_elem_of_fmap.
    exists (N.to_nat b). split; [lia|]. apply elem_of_seq. lia.
Qed.

Lemma unescape_bytes (bs : list N) : forall (f : nat -> N -> rstr), (forall i b, exists j, f i b = escape_byte j b) ->
  Forall (fun b => (b < 256)%N) bs -> unescape (concat (imap f bs)) = bs.
Proof.
  induction bs as [|b bs IH]; intros f Hf Hbs; [done|]. apply Forall_cons in Hbs as [Hb Hbs].
  rewrite imap_cons. cbn [concat]. destruct (Hf 0 b) as [j ->]. rewrite unescape_byte by done. f_equal.
  apply IH; [|done]. intros i x. apply (Hf (S i)).
Qed.

(** A character of a unit name: a letter, a digit, or one of [: _ . \ -]. *)
Definition unit_char (c : rchar) : bool := is_ascii_alphanumeric c || contains c (lit ":_.\-").

Lemma escape_byte_chars i b : (b < 256)%N -> Forall (fun c => unit_char c = true) (escape_byte i b).
Proof.
  intros Hb. unfold escape_byte. destruct (b =? SLASH)%N; [by repeat constructor|].
  destruct (plain_byte b && _) eqn:E.
  - constructor; [|constructor]. apply andb_true_iff in E as [E _]. unfold plain_byte in E. unfold unit_char.
    apply orb_true_iff in E as [E|E]; [by rewrite E|]. apply orb_true_iff. right.
    apply contains_In in E. apply contains_In. simpl in *. tauto.
  - assert (forallb (fun n => unit_char (digit_char (Z.of_nat n))) (seq 0 16) = true) as Hall by (by vm_compute).
    rewrite forallb_forall in Hall.
    assert (Hd : forall d, (0 <= d < 16)%Z -> unit_char (digit_char d) = true).
    { intros d Hd. rewrite <- (Z2Nat.id d) by lia. apply Hall, list_elem_of_In, elem_of_seq. lia. }
    repeat constructor; try done; apply Hd.
    + split; [apply Z.div_pos; lia|apply Z.div_lt_upper_bound; lia].
    + apply Z.mod_pos_bound. lia.
Qed.

Lemma concat_imap_forall {A B} (P : B -> Prop) (Q : A -> Prop) (l : list A) : forall (f : nat -> A -> list B),
  (forall i x, Q x -> Forall P (f i x)) -> Forall Q l -> Forall P (concat (imap f l)).
Proof.
  induction l as [|x l IH]; intros f Hf Hl; [constructor|]. apply Forall_cons in Hl as [Hx Hl].
  rewrite imap_cons. cbn [concat]. apply Forall_app. split; [by apply Hf|]. apply IH; [|done].
  intros i y Hy. by apply (Hf (S i)).
Qed.

Lemma as_bytes_small s : Forall is_char s -> Forall (fun b => (b < 256)%N) (as_bytes s).
Proof.
  induction 1 as [|c s Hc Hs IH]; [constructor|]. unfold as_bytes. rewrite bytes_cons, fmap_app. apply Forall_app.
  split; [|exact IH]. change (Z.to_N <$> utf8 c) with (utf8_bytes c). unfold is_char in Hc.
  pose proof (N.mod_lt c 64 ltac:(done)) as M1. pose proof (N.mod_lt (c / 64) 64 ltac:(done)) as M2.
  pose proof (N.mod_lt (c / 4096) 64 ltac:(done)) as M3.
  assert (Hd : forall k m, (0 < k)%N -> (c < k * m)%N -> (c / k < m)%N) by (intros; by apply N.Div0.div_lt_upper_bound).
  apply Forall_forall. intros x. destruct (N.lt_ge_cases c 128); [|destruct (N.lt_ge_cases c 2048); [|destruct (N.lt_ge_cases c 65536)]].
  - rewrite utf8_bytes_1 by done. intros ->%list_elem_of_singleton. lia.
  - specialize (Hd 64 32)%N. rewrite utf8_bytes_2, !elem_of_cons, elem_of_nil by done. intros [->|[->|[]]]; lia.
  - specialize (Hd 4096 16)%N. rewrite utf8_bytes_3, !elem_of_cons, elem_of_nil by done. intros [->|[->|[->|[]]]]; lia.
  - specialize (Hd 262144 5)%N. rewrite utf8_bytes_4, !elem_of_cons, elem_of_nil by done.
    intros [->|[->|[->|[->|[]]]]]; lia.
Qed.

(** A normalized absolute path, as [normalized_mountpoint] returns it. *)
Definition normal_path (p : rstr) : Prop :=
  exists parts, p = SLASH :: join [SLASH] parts
    /\ Forall (fun part => part <> [] /\ part <> lit "." /\ part <> lit ".." /\ SLASH ∉ part) parts.

Lemma normal_parts_ok parts out :
  normal_parts parts = Some out -> Forall (fun part => SLASH ∉ part) parts ->
  Forall (fun part => part <> [] /\ part <> lit "." /\ part <> lit ".." /\ SLASH ∉ part) out.
Proof.
  revert out. induction parts as [|p parts IH]; intros out; cbn [normal_parts].
  { intros [= <-] _. constructor. }
  intros H [Hp Hps]%Forall_cons. destruct (is_empty p || bool_decide (p = lit ".")) eqn:E1; [by apply IH|].
  destruct (bool_decide_reflect (p = lit "..")) as [|Hdd]; [done|].
  destruct (normal_parts parts) as [out'|]; [|done]. injection H as <-. bool_to_prop.
  constructor; [|by apply IH]. split_and!; try done. by intros ->.
Qed.

Lemma normalized_normal r p : normalized_mountpoint r = Some p -> normal_path p.
Proof.
  unfold normalized_mountpoint. intros (d & _ & H)%bind_Some. apply bind_Some in H as (rest & _ & H).
  apply bind_Some in H as (parts & Hp & [= <-]). exists parts. split; [done|].
  eapply normal_parts_ok; [exact Hp|]. apply Forall_forall. intros w Hw Hc.
  by destruct (split_elem _ _ _ _ Hw Hc) as [_ ?].
Qed.

(** What follows the leading slash. *)
Lemma normal_rest p : normal_path p -> exists rest, p = SLASH :: rest
  /\ trim_start_matches (N.eqb SLASH) p = rest /\ head rest <> Some SLASH.
Proof.
  intros (parts & -> & Hp). exists (join [SLASH] parts). split; [done|].
  assert (head (join [SLASH] parts) <> Some SLASH) as Hh.
  { destruct Hp as [|w parts (Hw & _ & _ & Hs) _]; [done|]. cbn [join].
    destruct w as [|x w]; [done|]. destruct parts; intros [= ->]; apply Hs; by left. }
  split; [|done]. unfold trim_start_matches. cbn [drop_while]. rewrite N.eqb_refl.
  apply drop_while_id. intros c Hc. apply N.eqb_neq. by intros <-.
Qed.

Lemma unescape_escape_path p :
  normal_path p -> Forall is_char p -> unescape (escape_path p) = match as_bytes (tail p) with [] => [SLASH] | bs => bs end.
Proof.
  intros (rest & -> & Hr & _)%normal_rest [_ Hc]%Forall_cons. unfold escape_path. rewrite Hr. cbv zeta. cbn [tail].
  destruct rest as [|x rest]; [done|]. cbn [is_empty].
  rewrite unescape_bytes; [|by eauto|by apply as_bytes_small].
  assert (as_bytes (x :: rest) <> []) as Hne; [|by destruct (as_bytes (x :: rest))].
  unfold as_bytes. rewrite bytes_cons, fmap_app. pose proof (utf8_nonempty x). by destruct (utf8 x).
Qed.

Lemma as_bytes_inj a b : Forall is_char a -> Forall is_char b -> as_bytes a = as_bytes b -> a = b.
Proof. intros Ha Hb E. apply (inj Some). by rewrite <- (from_utf8_bytes a), <- (from_utf8_bytes b), E. Qed.

Lemma escape_path_inj p q :
  normal_path p -> normal_path q -> Forall is_char p -> Forall is_char q -> escape_path p = escape_path q -> p = q.
Proof.
  intros Hp Hq Cp Cq E. pose proof (unescape_escape_path p Hp Cp) as Up. pose proof (unescape_escape_path q Hq Cq) as Uq.
  rewrite E, Uq in Up. clear Uq E.
  destruct (normal_rest p Hp) as (a & -> & _ & Ha), (normal_rest q Hq) as (b & -> & _ & Hb). cbn [tail] in *.
  apply Forall_cons in Cp as [_ Cp], Cq as [_ Cq]. f_equal. apply as_bytes_inj; [done|done|].
  assert (forall s, Forall is_char s -> head s <> Some SLASH -> as_bytes s <> [SLASH]) as Hslash.
  { intros s Hs Hh Es. apply Hh. by rewrite (as_bytes_inj s [SLASH] Hs ltac:(by repeat constructor) Es). }
  destruct (as_bytes a) eqn:Ea, (as_bytes b) eqn:Eb; try done.
  - exfalso. apply (Hslash b); [done|done|]. by rewrite Eb, Up.
  - exfalso. apply (Hslash a); [done|done|]. by rewrite Ea, <- Up.
Qed.

Lemma first_byte x s : x <> SLASH -> exists b bs, as_bytes (x :: s) = b :: bs /\ b <> SLASH.
Proof.
  intros Hx. unfold as_bytes. rewrite bytes_cons, fmap_app. pose proof (utf8_nonempty x) as Hne.
  destruct (utf8 x) as [|b bs] eqn:E; [done|]. exists (Z.to_N b), ((Z.to_N <$> bs) ++ (Z.to_N <$> bytes s)). split; [done|].
  intros Eb. destruct (N.lt_ge_cases x 128) as [Hl|Hh].
  - rewrite utf8_ascii in E by done. injection E as <- _. rewrite N2Z.id in Eb. done.
  - pose proof (utf8_high x b Hh ltac:(rewrite E; by left)). unfold SLASH in Eb. lia.
Qed.

(** A unit name holds only what systemd allows, and starts with a dash for [/] alone. *)
Lemma escape_path_safe p :
  normal_path p -> Forall is_char p ->
  Forall (fun c => unit_char c = true) (escape_path p) /\ escape_path p <> []
  /\ (starts_with 45%N (escape_path p) = true -> p = [SLASH]).
Proof.
  intros (rest & -> & Hr & Hh)%normal_rest [_ Hc]%Forall_cons. unfold escape_path. rewrite Hr. cbv zeta.
  destruct rest as [|x rest]; [by split_and!; [repeat constructor|..]|]. cbn [is_empty].
  assert (x <> SLASH) as Hx by (by intros ->). destruct (first_byte x rest Hx) as (b & bs & Eb & Hb).
  pose proof (as_bytes_small _ Hc) as Hs. split; [|rewrite Eb, imap_cons; cbn [concat]].
  - eapply concat_imap_forall; [|exact Hs]. intros i y Hy. by apply escape_byte_chars.
  - unfold escape_byte at 1 3. rewrite (proj2 (N.eqb_neq _ _) Hb).
    destruct (plain_byte b && _) eqn:E; [|done]. split; [done|]. cbn [app]. unfold starts_with. cbn [head].
    intros Hd. bool_to_prop. injection Hd as ->. done.
Qed.

(** ** Added units *)

(** An entry that systemd mounts on its own: not swap, not [noauto]. *)
Definition mounted (e : FsEntry) : Prop := fstype e <> lit "swap" /\ lit "noauto" ∉ options e.

(** The table before mounts the same thing there. *)
Definition unchanged_in (before : list FsEntry) (e : FsEntry) (path : rstr) : Prop :=
  exists old, old ∈ before /\ normalized_mountpoint (mountpoint old) = Some path
    /\ spec old = spec e /\ fstype old = fstype e.

(** [e] calls for a unit on [path]. *)
Definition calls (before : list FsEntry) (e : FsEntry) (path : rstr) : Prop :=
  mounted e /\ normalized_mountpoint (mountpoint e) = Some path /\ ~ unchanged_in before e path.

Definition unit_of (e : FsEntry) (path : rstr) : MountUnit :=
  mkMountUnit path (escape_path path ++ [DOT] ++ unit_suffix e).

Lemma existsb_elem {A} (p : A -> bool) (l : list A) : existsb p l = true <-> exists x, x ∈ l /\ p x = true.
Proof. rewrite existsb_exists. by setoid_rewrite <- list_elem_of_In. Qed.

(** One round: a unit is added exactly when the entry calls for one on a path that has none yet. *)
Lemma added_step_spec before units e :
  (exists path, calls before e path /\ path ∉ (Descriptor.mountpoint <$> units)
    /\ added_step before units e = units ++ [unit_of e path])
  \/ (forall path, calls before e path -> path ∈ (Descriptor.mountpoint <$> units)) /\ added_step before units e = units.
Proof.
  unfold added_step. destruct (bool_decide (fstype e = lit "swap") || has_option e (lit "noauto")) eqn:E1.
  { right. split; [|done]. intros path ([Hs Hn] & _). exfalso. apply orb_true_iff in E1 as [E1|E1%has_option_iff]; [|done].
    by bool_to_prop. }
  apply orb_false_iff in E1 as [Hs Hn]. apply bool_decide_eq_false in Hs.
  assert (mounted e) as Hm by (split; [done|]; intros Ho%has_option_iff; congruence).
  destruct (normalized_mountpoint (mountpoint e)) as [path|] eqn:Ep; [|right; split; [intros path (_ & Hp & _); congruence|done]].
  cbv zeta. destruct (existsb (fun old => _ && _ && _) before) eqn:E2.
  { right. split; [|done]. intros path' (_ & Hp & Hu). exfalso. apply Hu. assert (path' = path) as -> by congruence.
    apply existsb_elem in E2 as (old & Ho & E2). bool_to_prop. by exists old. }
  destruct (existsb (fun u => bool_decide (Descriptor.mountpoint u = path)) units) eqn:E3; cbn [orb].
  - right. split; [|done]. intros path' (_ & Hp & _). assert (path' = path) as -> by congruence.
    apply existsb_elem in E3 as (u & Hu & E3). bool_to_prop. apply list_elem_of_fmap. by exists u.
  - left. exists path. split_and!; [|intros (u & -> & Hu)%list_elem_of_fmap|done].
    + split_and!; [done|done|]. intros (old & Ho & H1 & H2 & H3). apply not_true_iff_false in E2. apply E2.
      apply existsb_elem. exists old. split; [done|]. by rewrite !bool_decide_true.
    + apply not_true_iff_false in E3. apply E3. apply existsb_elem. exists u. by rewrite bool_decide_true.
Qed.

Record units_ok (before done_ : list FsEntry) (units : list MountUnit) : Prop := {
  uo_sound : forall u, u ∈ units -> exists e, e ∈ done_ /\ calls before e (Descriptor.mountpoint u) /\ u = unit_of e (Descriptor.mountpoint u);
  uo_complete : forall e path, e ∈ done_ -> calls before e path -> path ∈ (Descriptor.mountpoint <$> units);
  uo_once : NoDup (Descriptor.mountpoint <$> units);
}.

Lemma added_steps_ok before todo done_ units :
  units_ok before done_ units -> units_ok before (done_ ++ todo) (foldl (added_step before) units todo).
Proof.
  revert done_ units. induction todo as [|e todo IH]; intros done_ units Hok; [by rewrite app_nil_r|].
  rewrite (assoc_L (++) done_ [e] todo : done_ ++ e :: todo = _). apply IH. destruct Hok as [Hs Hc Hn].
  destruct (added_step_spec before units e) as [(path & Hcall & Hnew & ->)|[Hold ->]]; split.
  - intros u [Hu| ->%list_elem_of_singleton]%elem_of_app.
    + destruct (Hs u Hu) as (e' & ? & ?). exists e'. set_solver.
    + exists e. cbn [unit_of Descriptor.mountpoint]. set_solver.
  - intros e' p' [He| ->%list_elem_of_singleton]%elem_of_app Hp; rewrite fmap_app, elem_of_app; [left; by eapply Hc|].
    right. destruct Hcall as (_ & H1 & _), Hp as (_ & H2 & _). cbn. apply list_elem_of_singleton. congruence.
  - rewrite fmap_app. apply NoDup_app. split_and!; [done| |apply NoDup_singleton].
    intros x Hx ->%list_elem_of_singleton. done.
  - intros u Hu. destruct (Hs u Hu) as (e' & ? & ?). exists e'. set_solver.
  - intros e' p' [He| ->%list_elem_of_singleton]%elem_of_app Hp; [by eapply Hc|by apply Hold].
  - done.
Qed.

Lemma added_units_ok previous current :
  units_ok (omap parse_entry (Utf8.lines previous)) (omap parse_entry (Utf8.lines current)) (added_mounts previous current).
Proof. apply (added_steps_ok _ _ [] []). split; [set_solver..|constructor]. Qed.

(** ** Properties *)

(** What the mounts module can write. An entry is rendered exactly when its
    first three fields are words, the first starting no comment, its options
    joined by commas are one word that splits back into them, both numbers are
    bytes and there is no NUL; the line is then the six fields with single
    spaces. *)
Theorem mounts_writable (e : FsEntry) (r : rstr) :
  render_entry e = Ok r <-> r = entry_line e /\ entry_ok e /\ NUL ∉ entry_line e.
Proof. apply render_entry_iff. Qed.

(** What mounts validation accepts: no error exactly when every entry names
    what it mounts, has an absolute mount point or one of [none] and [swap], a
    well-formed type and a pass of at most 2, and no entry the boot needs is
    marked [noauto]. *)
Theorem mounts_validate_spec (m : MountsModel) (profile : HostProfile) :
  has_errors (mounts_validate m profile) = false <-> Forall entry_valid (table m).
Proof. apply mounts_validate_ok. Qed.

(** The mount units of an edit. Each listed unit is that of an entry of the
    new table that is mounted on its own, with a normalized mount point where
    the old table did not mount the same thing; each such entry's mount point is
    listed, once; and a unit name holds only characters systemd allows, never
    starts with a dash unless it is the root's, and determines its mount point. *)
Theorem added_mounts_spec (previous current : rstr) :
  let before := omap parse_entry (Utf8.lines previous) in
  let entries := omap parse_entry (Utf8.lines current) in
  let units := added_mounts previous current in
  (forall u, u ∈ units -> exists e, e ∈ entries /\ calls before e (Descriptor.mountpoint u) /\ u = unit_of e (Descriptor.mountpoint u))
  /\ (forall e path, e ∈ entries -> calls before e path -> path ∈ (Descriptor.mountpoint <$> units))
  /\ NoDup (Descriptor.mountpoint <$> units)
  /\ (forall p, normal_path p -> Forall is_char p ->
        Forall (fun c => unit_char c = true) (escape_path p)
        /\ (starts_with 45%N (escape_path p) = true -> p = [SLASH])
        /\ (forall q, normal_path q -> Forall is_char q -> escape_path p = escape_path q -> p = q)).
Proof.
  cbv zeta. destruct (added_units_ok previous current) as [Hs Hc Hn]. split_and!; [exact Hs|exact Hc|exact Hn|].
  intros p Hp Cp. destruct (escape_path_safe p Hp Cp) as (? & _ & ?). split_and!; [done|done|].
  intros q Hq Cq. by apply escape_path_inj.
Qed.

Module FstabDemo.

Definition old_table : rstr := lit "/dev/sda1 / ext4 defaults 0 1" ++ [LF] ++ lit "/dev/sdb1 /srv ext4 nofail 0 2" ++ [LF].
Definition new_line_ : rstr := lit "/dev/sdc1 /data\040x/ ext4 x-systemd.automount,nofail 0 2".
Definition new_table : rstr := old_table ++ lit "/dev/sdd1 none swap sw 0 0" ++ [LF] ++ new_line_ ++ [LF].
Definition new_entry : FsEntry :=
  mkFsEntry (lit "/dev/sdc1") (lit "/data\040x/") (lit "ext4") [lit "x-systemd.automount"; lit "nofail"] 0 2.

End FstabDemo.

Lemma added_mounts_spec_witness :
  added_mounts FstabDemo.old_table FstabDemo.new_table = [mkMountUnit (lit "/data x") (lit "data\x20x.automount")]
  /\ lit "/data x" ∈ (Descriptor.mountpoint <$> added_mounts FstabDemo.old_table FstabDemo.new_table).
Proof.
  split; [by vm_compute|].
  apply (proj1 (proj2 (added_mounts_spec FstabDemo.old_table FstabDemo.new_table)) FstabDemo.new_entry).
  - apply (bool_decide_unpack _). by vm_compute.
  - split_and!.
    + split; [discriminate|]. apply (bool_decide_unpack _). by vm_compute.
    + by vm_compute.
    + intros (old & Ho & Hp & _). revert Hp. apply (bool_decide_unpack (normalized_mountpoint (mountpoint old) <> Some (lit "/data x"))).
      assert (forallb (fun old => bool_decide (normalized_mountpoint (mountpoint old) <> Some (lit "/data x")))
                (omap parse_entry (Utf8.lines FstabDemo.old_table)) = true) as Hall by (by vm_compute).
      rewrite forallb_forall in Hall. apply Is_true_true, Hall. by apply list_elem_of_In.
Defined.
