(* ===== verification/Modules.v ===== *)
(** * The modules pass the conformance kit

    [module_conformance!] of [crates/detent-core/src/conformance.rs] as the
    modules instantiate it: every check, on every input. *)

From Stdlib Require Import ZArith.
From stdpp Require Import gmap.
From S2P Require Import Prelude Align Str Num Ip Utf8 ExecDeny Descriptor Doc DocEdit Diag Config LineModule Conformance Hosts Chrony Nfs Mounts Samba.

(** [PartialEq] of the models. *)
#[export] Instance hosts_model_eq : EqDecision (Model (ConfigModule := HostsModule)) := HostsModel_eq_dec.
#[export] Instance chrony_model_eq : EqDecision (Model (ConfigModule := ChronyModule)) := ChronyModel_eq_dec.
#[export] Instance nfs_model_eq : EqDecision (Model (ConfigModule := NfsModule)) := NfsModel_eq_dec.
#[export] Instance mounts_model_eq : EqDecision (Model (ConfigModule := MountsModule)) := MountsModel_eq_dec.
#[export] Instance samba_model_eq to_lowercase : EqDecision (Model (ConfigModule := SambaModule to_lowercase)) := SambaModel_eq_dec.

Lemma forallb_elem {A} (p : A -> bool) l : forallb p l = true -> forall x, x ∈ l -> p x = true.
Proof. rewrite forallb_forall. intros H x Hx. apply H. by apply list_elem_of_In. Qed.

Lemma hosts_defaults_render p e :
  default_name_ok p -> e ∈ model_entries (hosts_defaults p) -> is_ok (hosts_render_line e) = true.
Proof.
  unfold default_name_ok, hosts_defaults. intros Hn. cbn [model_entries].
  destruct (os p); [|by (revert e; apply forallb_elem)..].
  intros [->|[He|He]%elem_of_app]%elem_of_cons; [done| |revert e He; by apply forallb_elem].
  destruct (hostname p) as [|c h]; [by apply elem_of_nil in He|].
  cbn [is_empty] in He. apply list_elem_of_singleton in He as ->.
  destruct (Hn eq_refl) as [Hg _]; [done|].
  destruct (hosts_render_total (entry DEBIAN_HOSTNAME_IP [c :: h]) 127 0 1 1) as [r Hr];
    [done|unfold octet; lia..|done|by apply Forall_cons|done|]. by rewrite Hr.
Qed.

(** C19: The five line-oriented modules pass the conformance kit on every input, not just on
    the generated ones: for every source text and every model, parsing and
    rendering is the identity, applying a file's own model reports no edit,
    an accepted model reads back equal and its text parses to the edited
    document, and a probe whose new value holds a line break or NUL is refused;
    and the suite is not vacuous, since the defaults apply to an empty file (for
    hosts, when the host's name is a valid hostname other than localhost). *)
Theorem modules_conform (to_lowercase : rchar -> rstr) (fixtures : list rstr) (p : HostProfile) :
  conforms HostsModule Document_eqb /\ conforms ChronyModule Document_eqb
  /\ conforms NfsModule Document_eqb /\ conforms MountsModule Document_eqb
  /\ conforms (SambaModule to_lowercase) Document_eqb
  /\ (fixtures <> [] ->
        (default_name_ok p -> check_not_vacuous HostsModule fixtures p = Ok ())
        /\ check_not_vacuous ChronyModule fixtures p = Ok ()
        /\ check_not_vacuous NfsModule fixtures p = Ok ()
        /\ check_not_vacuous MountsModule fixtures p = Ok ()
        /\ check_not_vacuous (SambaModule to_lowercase) fixtures p = Ok ()).
Proof.
  assert (H1 : conforms HostsModule Document_eqb) by exact (line_conforms hosts_validate hosts_defaults).
  assert (H2 : conforms ChronyModule Document_eqb) by exact (line_conforms chrony_validate chrony_defaults).
  assert (H3 : conforms NfsModule Document_eqb) by exact (line_conforms nfs_validate nfs_defaults).
  assert (H4 : conforms MountsModule Document_eqb) by exact (line_conforms mounts_validate mounts_defaults).
  assert (H5 : conforms (SambaModule to_lowercase) Document_eqb) by exact (line_conforms (samba_validate to_lowercase) samba_defaults).
  do 5 (split; [assumption|]). intros Hf. split_and!.
  - intros Hn. apply (conforms_not_vacuous _ _ H1 _ _ Hf).
    destruct (line_apply_total hosts_validate hosts_defaults [] (hosts_defaults p)) as [dr Hdr]; [|by exists (parse [] hosts_classify), dr].
    intros e. by apply hosts_defaults_render.
  - apply (conforms_not_vacuous _ _ H2 _ _ Hf).
    destruct (line_apply_total chrony_validate chrony_defaults [] (chrony_defaults p)) as [dr Hdr]; [|by exists (parse [] chrony_classify), dr].
    apply forallb_elem. unfold chrony_defaults. by destruct (os p).
  - apply (conforms_not_vacuous _ _ H3 _ _ Hf).
    destruct (line_apply_total nfs_validate nfs_defaults [] (nfs_defaults p)) as [dr Hdr]; [by intros e ?%elem_of_nil|by exists (parse [] nfs_classify), dr].
  - apply (conforms_not_vacuous _ _ H4 _ _ Hf).
    destruct (line_apply_total mounts_validate mounts_defaults [] (mounts_defaults p)) as [dr Hdr]; [by intros e ?%elem_of_nil|by exists (parse [] mounts_classify), dr].
  - apply (conforms_not_vacuous _ _ H5 _ _ Hf).
    destruct (line_apply_total (samba_validate to_lowercase) samba_defaults [] (samba_defaults p)) as [dr Hdr]; [|by exists (parse [] samba_classify), dr].
    apply forallb_elem. unfold samba_defaults. by destruct (os p).
Qed.

Lemma modules_conform_witness :
  let p := mkProfile Linux Systemd (lit "nas") ∅ 1024 in
  check_not_vacuous HostsModule [lit "10.0.0.1 nas"] p = Ok ()
  /\ check_injection_rejected HostsModule (lit "10.0.0.1 nas")
       (mkModel [mkEntry (V4 10 0 0 1) [lit "nas"] (Some (lit "a" ++ [LF] ++ lit "10.0.0.2 evil"))]) = Ok ().
Proof.
  cbv zeta.
  destruct (modules_conform ascii_lower [lit "10.0.0.1 nas"] (mkProfile Linux Systemd (lit "nas") ∅ 1024)) as (Hh & _ & _ & _ & _ & Hv).
  split.
  - destruct Hv as [Hv _]; [done|]. apply Hv. intros _ _. split; [split; [|split]; vm_compute; reflexivity|vm_compute; discriminate].
  - apply (conforms_injection _ _ Hh). eexists. split; [by left|]. split; [by apply (bool_decide_unpack _); vm_compute|].
    exists (lit "a" ++ [LF] ++ lit "10.0.0.2 evil"), LF.
    split_and!; [right; by left|right; by left|by left].
Defined.
