(* ===== verification/Hooks.v ===== *)
(** * The monitor's surroundings

    The state of the monitor ([crates/detent-platform/src/privsep/monitor.rs]:
    [Monitor], [Pending], the commit marker), its collaborators ([CheckRunner],
    [ServiceControl]) and the computations its handlers are written in. A hook
    answers by an oracle and leaves a trace; it does not touch the files the
    monitor writes. A computation keeps its changes to the monitor when it fails,
    as [&mut self] does. *)

From Stdlib Require Import ZArith.
From stdpp Require Import gmap.
From S2P Require Import Prelude Str Num Doc Diag Descriptor Disk Atomic Proto.
#[local] Open Scope Z_scope.

(** ** Hooks *)

Module HErr.
Inductive HookError := Unavailable (message : rstr) | Failed (message : rstr).
End HErr.
Abbreviation HookError := HErr.HookError.

Definition hook_error_text (e : HookError) : rstr := match e with HErr.Unavailable m | HErr.Failed m => m end.

Definition hook_to_proto (e : HookError) : ProtoError :=
  match e with HErr.Unavailable m => PErr.Unavailable m | HErr.Failed m => PErr.Io m end.

Inductive UpdateStart := Started (detail : rstr) | AlreadyRunning.

(** [CheckRunner] and [ServiceControl]: the answer to the [n]-th call. *)
Record Hooks := mkHooks {
  configured : bool;
  run_check_hook : nat -> ExternalCheck -> Path -> result HookError CheckOutcome;
  service_hook : nat -> ServiceBinding -> Core.ServiceAction -> result HookError ServiceOutcome;
  service_status_hook : nat -> ServiceBinding -> result HookError UnitStatus;
  reload_unit_files_hook : nat -> result HookError rstr;
  start_added_mounts_hook : nat -> TargetId -> result HookError (list MountOutcome);
  stop_started_mounts_hook : nat -> result HookError (list MountOutcome);
  forget_started_mounts_hook : nat -> result HookError ();
  start_update_hook : nat -> rstr -> result HookError UpdateStart;
}.

Definition no_mount_units : HookError := HErr.Unavailable (lit "mount units are not available in this build").
Definition no_services : HookError := HErr.Unavailable (lit "service control is not available in this build").

(** [Hooks::default]: [NoChecks] and [NoServices]. *)
Definition default_hooks : Hooks :=
  mkHooks false
    (fun _ _ _ => Err (HErr.Unavailable (lit "external checks are not available in this build")))
    (fun _ _ _ => Err no_services) (fun _ _ => Err no_services) (fun _ => Err no_services)
    (fun _ _ => Err no_mount_units) (fun _ => Err no_mount_units) (fun _ => Err no_mount_units)
    (fun _ _ => Err (HErr.Unavailable (lit "starting an update is not available in this build"))).

(** What the monitor asked of its collaborators. *)
Inductive HookCall :=
| RanCheck (check : ExternalCheck) (candidate : Path)
| ActedOn (binding : ServiceBinding) (action : Core.ServiceAction)
| ReadStatus (binding : ServiceBinding)
| ReloadedUnits
| StartedMounts (target : TargetId)
| StoppedMounts
| ForgotMounts
| StartedUpdate (tag : rstr).

(** ** The monitor *)

Record RollbackEntry := mkRollback {
  rb_target : TargetId;
  rb_path : Path;
  rb_backup : Path;
  rb_new_digest : option Sha256Digest;
}.

Record PendingCommitMarker := mkPendingMarker {
  pm_commit : CommitId;
  pm_deadline_unix_ms : Z;
  pm_entries : list RollbackEntry;
  pm_service : option PendingService;
}.

Record Pending := mkPending {
  p_commit : CommitId;
  p_deadline : Z;
  p_entries : list RollbackEntry;
  p_service : option PendingService;
}.

Record Monitor := mkMonitor { greeted : bool; journal : list RollbackEntry; pending : option Pending }.

Definition new_monitor : Monitor := mkMonitor false [] None.

Definition has_pending_commit (m : Monitor) : bool := match pending m with Some _ => true | None => false end.

Inductive ExitReason := ExitShutdown | PeerClosed | ProtocolMismatch | ProtocolViolation.

(** ** The log of state-changing requests *)

Record RequestSummary := mkSummary {
  s_request : rstr;
  s_target : option N;
  s_module : option N;
  s_binding : option N;
  s_commit : option N;
  s_action : option rstr;
  s_size : option nat;
  s_digest : option rstr;
}.

Definition named (request : rstr) : RequestSummary := mkSummary request None None None None None None None.

Definition action_name (a : Wire.ServiceAction) : rstr :=
  match a with
  | Wire.Restart => lit "restart"
  | Wire.Reload => lit "reload"
  | Wire.Start => lit "start"
  | Wire.Stop => lit "stop"
  | Wire.Status => lit "status"
  end.

Definition summary_of (sha256 : rbytes -> Sha256Digest) (r : Request) : option RequestSummary :=
  if negb (changes_state r) then None
  else match r with
  | Req.WriteTarget target _ b _ =>
      Some (mkSummary (lit "write_target") (Some target) None None None None (Some (length b)) (Some (digest_display (sha256 b))))
  | Req.Restore module _ => Some (mkSummary (lit "restore") None (Some module) None None None None None)
  | Req.Service binding action =>
      Some (mkSummary (lit "service") None None (Some binding) None (Some (action_name action)) None None)
  | Req.StartConfirmTimer commit _ _ => Some (mkSummary (lit "start_confirm_timer") None None None (Some commit) None None None)
  | Req.ConfirmCommit commit => Some (mkSummary (lit "confirm_commit") None None None (Some commit) None None None)
  | Req.RollbackCommit commit => Some (mkSummary (lit "rollback_commit") None None None (Some commit) None None None)
  | Req.Mount target => Some (mkSummary (lit "mount") (Some target) None None None None None None)
  | Req.ReloadUnitFiles module => Some (mkSummary (lit "reload_unit_files") None (Some module) None None None None None)
  | Req.StartUpdate _ => Some (named (lit "start_update"))
  | Req.ReplaceBinary _ _ _ => Some (named (lit "replace_binary"))
  | Req.StageBegin _ _ _ _ => Some (named (lit "stage_begin"))
  | Req.StageUpdate _ _ => Some (named (lit "stage_update"))
  | Req.Hello _ | Req.ReadTarget _ | Req.RunCheck _ _ | Req.ListBackups _ | Req.PendingCommit | Req.Shutdown => None
  end.

Lemma summary_iff sha256 r : summary_of sha256 r = None <-> changes_state r = false.
Proof. destruct r as [| | | |b []| | | | | | | | | | | | |]; done. Qed.

(** ** Computations *)

(** The file system, the monitor, what the hooks were asked, the lines logged, the
    responses sent, and how often the monotonic clock was read. *)
Record Host := mkHost {
  fs : St;
  mon : Monitor;
  trace : list HookCall;
  logged : list (RequestSummary * bool);
  sent : list Response;
  ticks : nat;
}.

Definition MM (E A : Type) : Type := Host -> result E A * Host.

#[export] Instance MM_ret E : MRet (MM E) := fun _ a h => (Ok a, h).
Definition fail {E A} (e : E) : MM E A := fun h => (Err e, h).

Definition attempt {E F A B} (m : MM E A) (k : result E A -> MM F B) : MM F B :=
  fun h => let '(r, h) := m h in k r h.

#[export] Instance MM_bind E : MBind (MM E) := fun _ _ f m =>
  attempt m (fun r => match r with Ok a => f a | Err e => fail e end).

Definition catch_err {E F A} (g : E -> F) (m : MM E A) : MM F A :=
  attempt m (fun r => match r with Ok a => mret a | Err e => fail (g e) end).

(** Drop the error of [m]; it is only logged. *)
Definition logged_only {E F} {A : Type} (m : MM E A) : MM F () := attempt m (fun _ => mret ()).

Definition on_disk {E A} (m : M E A) : MM E A := fun h =>
  let '(r, st) := m (fs h) in (r, mkHost st (mon h) (trace h) (logged h) (sent h) (ticks h)).

Definition get {E A} (f : Host -> A) : MM E A := fun h => (Ok (f h), h).

Definition set_monitor {E} (g : Monitor -> Monitor) : MM E () := fun h =>
  (Ok (), mkHost (fs h) (g (mon h)) (trace h) (logged h) (sent h) (ticks h)).

Definition call_hook {A} (c : HookCall) (answer : nat -> result HookError A) : MM HookError A := fun h =>
  (answer (length (trace h)), mkHost (fs h) (mon h) (trace h ++ [c]) (logged h) (sent h) (ticks h)).

Definition log_request {E} (s : RequestSummary) (r : Response) : MM E () := fun h =>
  (Ok (), mkHost (fs h) (mon h) (trace h) (logged h ++ [(s, match r with Resp.Error _ => false | _ => true end)]) (sent h) (ticks h)).

Definition send_response {E} (r : Response) : MM E () := fun h =>
  (Ok (), mkHost (fs h) (mon h) (trace h) (logged h) (sent h ++ [r]) (ticks h)).

(** [Instant::now]. *)
Definition read_clock {E} (instant : nat -> Z) : MM E Z := fun h =>
  (Ok (instant (ticks h)), mkHost (fs h) (mon h) (trace h) (logged h) (sent h) (S (ticks h))).

Definition set_greeted (m : Monitor) : Monitor := mkMonitor true (journal m) (pending m).
Definition set_journal (j : list RollbackEntry) (m : Monitor) : Monitor := mkMonitor (greeted m) j (pending m).
Definition set_pending (p : option Pending) (m : Monitor) : Monitor := mkMonitor (greeted m) (journal m) p.
