(* ===== verification/Monitor.v ===== *)
(** * The monitor

    The privileged request server, [crates/detent-platform/src/privsep/monitor.rs].
    Every handler is here, with the guards and the early returns of the code; a
    request failure is a response, a failure of the monitor itself an error. *)

From Stdlib Require Import ZArith.
From stdpp Require Import gmap sorting.
From S2P Require Import Prelude Str Num Ip Utf8 Doc Diag Descriptor Disk Atomic Proto Transport Allow ExecDeny Hooks.
#[local] Open Scope Z_scope.

Definition PENDING_COMMIT_MARKER : rstr := lit "pending-commit.json".
Definition IN_PLACE_MARKER : rstr := lit "write-in-progress.json".
Definition MONITOR_LOCK : rstr := lit "monitor.lock".
Definition PENDING_POLL : Z := 20.
Definition MAX_CONFIRM_TIMEOUT_S : Z := 3600.
Definition DETAIL_LIMIT : nat := 512.
Definition DEFAULT_STAGING_DIR : rstr := lit "/run/detent/staging".

Module MErr.
Inductive MonitorError :=
| Channel (e : ChannelError)
| Busy
| State (op : rstr) (source : Errno)
| CorruptMarker
| LockUnavailable.
End MErr.
Abbreviation MonitorError := MErr.MonitorError.

Inductive StateLock := Held | Unavailable.
Definition is_held (l : StateLock) : bool := match l with Held => true | Unavailable => false end.
Definition require_held (l : StateLock) : result MonitorError StateLock :=
  match l with Held => Ok l | Unavailable => Err MErr.LockUnavailable end.

Record Recovered := mkRecovered { rec_commit : CommitId; rec_restored : nat; rec_failures : list rstr }.

Inductive InPlaceOutcome := Whole | Restored | RestoreFailed (message : rstr) | Refused.
Record InPlaceRecovered := mkInPlaceRecovered { ir_path : Path; ir_outcome : InPlaceOutcome }.

(** A module the registry holds; its model stays inside. *)
Record DynModule := mkDyn {
  dm_id : rstr;
  dm_Value : Type;
  dm_parse : rstr -> result rstr dm_Value;
  dm_validate : dm_Value -> HostProfile -> result rstr Diagnostics;
}.

Inductive DirOwner := Euid | EuidOrRoot | AnyOwner.
Definition accepts (o : DirOwner) (uid euid : Z) : bool :=
  match o with
  | Euid => uid =? euid
  | EuidOrRoot => (uid =? euid) || (uid =? 0)
  | AnyOwner => true
  end.
Definition of_candidate_dir (c : ExternalCheck) : DirOwner := if run_as_dir_owner c then AnyOwner else EuidOrRoot.

Definition truncate (detail : rstr) : rstr :=
  if (str_len detail <=? DETAIL_LIMIT)%nat then detail else take_bytes DETAIL_LIMIT detail.

Definition unknown (k : Ids.IdKind) (id : N) : Response := Resp.Error (PErr.UnknownId k id).

Definition io_text (s : rstr) : Response := Resp.Error (PErr.Io s).

(** What the handlers take from outside: the file system and the digest ([w]),
    the tables, the collaborators, the monotonic clock, JSON, the wording of
    system errors, the module registry, the owners of directories and the names
    [tempfile] tries. *)
Record Setup := mkSetup {
  w : World;
  allow : Allowlist;
  hooks : Hooks;
  instant : nat -> Z;
  instant_limit : Z;
  pending_to_vec : PendingCommitMarker -> option rbytes;
  pending_from_slice : rbytes -> option PendingCommitMarker;
  marker_from_slice : rbytes -> option InPlaceMarker;
  kind_text : ErrorKind -> rstr;
  errno_text : Errno -> rstr;
  atomic_text : AtomicError -> rstr;
  registry : list DynModule;
  host_profile : HostProfile;
  staging_dir : Path;
  euid : Z;
  dir_uid : Path -> Z;
  candidate_name : nat -> rstr;
  tempfile_tries : nat;
  has_updater : bool;
  tag_refusal : rstr -> result UpdateTagRefusal ();
  pkg_version : rstr;
  lock_is_free : bool;
}.

Section Handlers.
Variable s : Setup.
#[local] Abbreviation ev := (env (w s)).
#[local] Abbreviation root := (state_root (config (allow s))).

Definition in_place_marker : Path := join_name root IN_PLACE_MARKER.
Definition marker_path : Path := join_name root PENDING_COMMIT_MARKER.

(** ** Errors on the wire *)

Definition atomic_to_proto (e : AtomicError) : ProtoError :=
  match e with
  | Atomic.Conflict expected actual => PErr.Conflict expected actual
  | Atomic.Io op _ source => PErr.Io (op ++ lit ": " ++ kind_text s (kind source))
  | RelativePath _ => PErr.Io (lit "path is not absolute")
  | Symlink _ => PErr.Io (lit "target is a symlink")
  | NotRegularFile _ => PErr.Io (lit "target is not a regular file")
  | BadDigest => PErr.Io (lit "invalid digest")
  | Clock => PErr.Io (lit "system clock out of range")
  end.

Definition not_found (e : AtomicError) : bool :=
  match e with Atomic.Io _ _ source => bool_decide (kind source = NotFound) | _ => false end.

Definition refuse_update_tag (tag : rstr) (refusal : UpdateTagRefusal) : ProtoError :=
  match refusal with
  | NotReleaseTag => PErr.Io (lit "not a release tag")
  | NotNewer => PErr.Io (lit "refusing downgrade to " ++ tag ++ lit " from " ++ pkg_version s)
  end.

(** A handler that answers early. *)
Definition answer {E} (m : MM Response Response) : MM E Response :=
  attempt m (fun r => match r with Ok a => mret a | Err a => mret a end).

(** ** Reading *)

Definition read_target (id : TargetId) : MM Response Response :=
  match target (allow s) id with
  | None => mret (unknown Ids.Target id)
  | Some entry =>
      attempt (on_disk (read_with_digest (w s) (te_path entry))) (fun r =>
        mret match r with
             | Ok (bytes, digest) => Resp.Target (mkContents id bytes digest)
             | Err e => if not_found e then Resp.Error PErr.NotFound else Resp.Error (atomic_to_proto e)
             end)
  end.

(** ** Candidate files for external checks *)

Definition require_trusted_dir (dir : Path) (what : rstr) (o : DirOwner) : MM ProtoError () :=
  _ ← attempt (on_disk (open_directory ev dir)) (fun r =>
        match r with
        | Ok _ => mret ()
        | Err LOOP | Err NOTDIR => fail (PErr.Io (what ++ lit " is not trusted"))
        | Err e => fail (PErr.Io (lit "open " ++ what ++ lit ": " ++ errno_text s e))
        end);
  node ← catch_err (fun e => PErr.Io (lit "stat " ++ what ++ lit ": " ++ errno_text s e)) (on_disk (stat_nofollow ev dir));
  match node with
  | Directory m =>
      if accepts o (dir_uid s dir) (euid s) && (Z.land m 18 =? 0)  (* 0o022 *)
      then mret () else fail (PErr.Io (what ++ lit " is not trusted"))
  | _ => fail (PErr.Io (what ++ lit " is not trusted"))
  end.

Definition ensure_staging_dir (dir : Path) : MM ProtoError Path :=
  let failed e := PErr.Io (lit "create monitor staging directory: " ++ kind_text s (kind e)) in
  _ ← match parent dir with
      | Some p => if bool_decide (p = mkPath false []) then mret () else catch_err failed (on_disk (create_dir_all ev p))
      | None => mret ()
      end;
  _ ← attempt (on_disk (make_dir ev dir 448)) (fun r =>  (* 0o700 *)
        match r with
        | Ok _ => mret ()
        | Err e => if bool_decide (kind e = AlreadyExists) then mret () else fail (failed e)
        end);
  _ ← require_trusted_dir dir (lit "monitor staging directory") Euid;
  mret dir.

(** [tempfile_in]: a new [0600] file with the prefix, under the next free name. *)
Fixpoint tempfile_in (dir : Path) (attempt_ tries : nat) : M Errno Path :=
  match tries with
  | O => throw EXIST
  | S tries =>
      let p := join_name dir (CANDIDATE_PREFIX ++ candidate_name s attempt_) in
      try (create_new ev p 384) (fun r =>  (* 0o600 *)
        match r with
        | Ok _ => mret p
        | Err EXIST => tempfile_in dir (S attempt_) tries
        | Err e => throw e
        end)
  end.

Definition create_candidate (dir : Path) : MM Errno Path := on_disk (
  _ ← open_directory ev dir;
  tempfile_in dir 0 (tempfile_tries s)).

Definition path_exists (d : Disk) (text : rstr) : bool := bool_decide (is_Some (d !! path_of_str text)).

Definition create_check_candidate (id : CheckId) (spec : ExternalCheck) : MM ProtoError Path :=
  let cannot e := PErr.Io (lit "cannot create a candidate file: " ++ kind_text s (kind e)) in
  let staged := dir ← ensure_staging_dir (staging_dir s); catch_err cannot (create_candidate dir) in
  d ← get (fun h => disk (fs h));
  match check_candidate_dir (allow s) (path_exists d) id (host_profile s) with
  | None => staged
  | Some dir =>
      _ ← require_trusted_dir dir (lit "candidate directory") (of_candidate_dir spec);
      attempt (create_candidate dir) (fun r =>
        match r with
        | Ok p => mret p
        | Err e =>
            if bool_decide (kind e = ReadOnlyFilesystem) || bool_decide (kind e = PermissionDenied) then staged
            else fail (cannot e)
        end)
  end.

(** [RemoveOnDrop]: the file goes whatever [m] does. *)
Definition removing {E A} (p : Path) (m : MM E A) : MM E A :=
  attempt m (fun r => attempt (on_disk (unlink ev p)) (fun _ h => (r, h))).

Definition write_all_and_sync (p : Path) (b : rbytes) : MM Errno () := on_disk (
  _ ← write_all ev p b;
  fsync ev p).

(** ** The content gate *)

Definition validate_candidate (m : DynModule) (b : rbytes) : result Response () :=
  match from_utf8 b with
  | None => Err (io_text (lit "module content is not valid UTF-8"))
  | Some source =>
      match dm_parse m source with
      | Err e => Err (io_text (lit "module parser rejected candidate content: " ++ e))
      | Ok model =>
          match dm_validate m model (host_profile s) with
          | Err e => Err (io_text (lit "module validation rejected candidate content: " ++ e))
          | Ok diagnostics =>
              if has_errors diagnostics then Err (io_text (lit "module validation rejected candidate content")) else Ok ()
          end
      end
  end.

Definition gate_content (m : ModuleId) (previous : list rbytes) (b : rbytes) : result Response () :=
  match module (allow s) m with
  | None => Err (unknown Ids.Module_ m)
  | Some descriptor =>
      if forallb (fun p => adds_exec_directive (d_id descriptor) p b) previous
      then Err (io_text (lit "module content adds a forbidden execution directive"))
      else match List.find (fun x => bool_decide (dm_id x = d_id descriptor)) (registry s) with
           | None => Err (io_text (lit "module parser is unavailable"))
           | Some x => validate_candidate x b
           end
  end.

Definition of_res {E A} (r : result E A) : MM E A := fun h => (r, h).

(** Run the check against the bytes in a candidate file. *)
Definition check_bytes {A} (id : CheckId) (spec : ExternalCheck) (b : rbytes) (k : CheckOutcome -> MM Response A) : MM Response A :=
  p ← catch_err Resp.Error (create_check_candidate id spec);
  removing p (
    _ ← catch_err (fun e => io_text (lit "cannot write the candidate file: " ++ kind_text s (kind e))) (write_all_and_sync p b);
    outcome ← catch_err (fun e => Resp.Error (hook_to_proto e))
                (call_hook (RanCheck spec p) (fun n => run_check_hook (hooks s) n spec p));
    k outcome).

Fixpoint run_checks (entries : list CheckEntry) (b : rbytes) : MM Response () :=
  match entries with
  | [] => mret ()
  | entry :: entries =>
      _ ← check_bytes (ce_id entry) (ce_check entry) b (fun outcome =>
            if passed outcome then mret () else fail (io_text (lit "external validator rejected candidate content")));
      run_checks entries b
  end.

Definition revalidate (m : ModuleId) (target_text : rstr) (previous b : rbytes) : MM Response () :=
  _ ← of_res (gate_content m [previous] b);
  if configured (hooks s)
  then run_checks (filter (fun e => Is_true (judges (ce_check e) target_text)) (checks_of (allow s) m)) b
  else mret ().

(** ** Writing *)

Definition write_request (entry : TargetEntry) (expected_prev : option Sha256Digest) (b : rbytes) : WriteRequest :=
  mkRequest (te_path entry) b expected_prev (te_backup_dir entry) (keep_backups_of (allow s)) false (te_create_mode entry)
    (Marker in_place_marker).

(** Remember a journaled write that has a backup. *)
Definition journaled (id : TargetId) (entry : TargetEntry) (out : WriteOutcome) (m : Monitor) : Monitor :=
  match backup out with
  | None => m
  | Some b =>
      let j := match pending m with None => [] | Some _ => journal m end in
      set_journal (j ++ [mkRollback id (te_path entry) b (Some (new_digest out))]) m
  end.

Definition write_target (id : TargetId) (expected_prev : option Sha256Digest) (b : rbytes) (journal_ : bool) : MM Response Response :=
  match target (allow s) id with
  | None => mret (unknown Ids.Target id)
  | Some entry =>
      previous ← attempt (on_disk (read_with_digest (w s) (te_path entry))) (fun r =>
        match r with
        | Ok (contents, _) => mret contents
        | Err e => if not_found e then mret [] else fail (Resp.Error (atomic_to_proto e))
        end);
      _ ← revalidate (te_module entry) (te_text entry) previous b;
      out ← catch_err (fun e => Resp.Error (atomic_to_proto e)) (on_disk (write_atomic (w s) (write_request entry expected_prev b)));
      _ ← (if journal_ then set_monitor (journaled id entry out) else mret ());
      mret (Resp.Written (mkReceipt id (prev_digest out) (new_digest out) (created out)
              (match backup out with Some _ => true | None => false end) (owner_preserved out)))
  end.

(** ** Checks, services, mounts, updates *)

(** The current contents of the files a check judges. *)
Fixpoint current_contents (ts : list TargetEntry) : MM Response (list rbytes) :=
  match ts with
  | [] => mret []
  | t :: ts =>
      here ← attempt (on_disk (read_with_digest (w s) (te_path t))) (fun r =>
               mret (match r with Ok (contents, _) => [contents] | Err _ => [] end));
      rest ← current_contents ts;
      mret (here ++ rest)
  end.

Definition run_check (id : CheckId) (b : rbytes) : MM Response Response :=
  match check (allow s) id with
  | None => mret (unknown Ids.Check id)
  | Some entry =>
      previous ← current_contents (filter (fun t => te_kind t = Wire.File) (omap (target (allow s)) (ce_targets entry)));
      _ ← of_res (gate_content (ce_module entry) (if is_empty previous then [[]] else previous) b);
      check_bytes id (ce_check entry) b (fun outcome =>
        mret (Resp.Checked (mkCheckOutcome id (passed outcome) (exit_code outcome) (truncate (co_detail outcome)))))
  end.

Definition hooked {A} (m : MM HookError A) : MM Response A := catch_err (fun e => Resp.Error (hook_to_proto e)) m.

Definition service (id : BindingId) (action : Wire.ServiceAction) : MM Response Response :=
  match binding (allow s) id with
  | None => mret (unknown Ids.Binding id)
  | Some entry =>
      let b := be_binding entry in
      match to_core action with
      | None => status ← hooked (call_hook (ReadStatus b) (fun n => service_status_hook (hooks s) n b)); mret (Resp.UnitStatus status)
      | Some core =>
          if negb (bool_decide (core ∈ actions b)) then mret (Resp.Error PErr.ActionNotAllowed)
          else
            outcome ← hooked (call_hook (ActedOn b core) (fun n => service_hook (hooks s) n b core));
            mret (Resp.Serviced (mkServiceOutcome id (so_active outcome) (truncate (so_detail outcome))))
      end
  end.

Definition reload_unit_files_request (m : ModuleId) : MM Response Response :=
  match module (allow s) m with
  | None => mret (unknown Ids.Module_ m)
  | Some descriptor =>
      if negb (reload_unit_files descriptor) then mret (Resp.Error PErr.ActionNotAllowed)
      else
        detail ← hooked (call_hook ReloadedUnits (reload_unit_files_hook (hooks s)));
        mret (Resp.UnitFilesReloaded (truncate detail))
  end.

Definition declares_mounts (d : ModuleDescriptor) : bool := match added_mounts d with Some _ => true | None => false end.

Definition mount (id : TargetId) : MM Response Response :=
  match target (allow s) id with
  | None => mret (unknown Ids.Target id)
  | Some entry =>
      if match module (allow s) (te_module entry) with Some d => negb (declares_mounts d) | None => true end
      then mret (Resp.Error PErr.ActionNotAllowed)
      else if negb (activate_mounts (config (allow s))) then mret (Resp.Mounted false [])
      else
        units ← hooked (call_hook (StartedMounts id) (fun n => start_added_mounts_hook (hooks s) n id));
        mret (Resp.Mounted true
                ((fun u => mkMountOutcome (mo_mountpoint u) (mo_unit u) (mo_state u) (truncate (mo_detail u))) <$> units))
  end.

Definition start_update (tag : rstr) : MM Response Response :=
  match tag_refusal s tag with
  | Err refusal => mret (Resp.Error (refuse_update_tag tag refusal))
  | Ok _ =>
      if negb (has_updater s) then mret (Resp.Error (PErr.Unsupported (lit "this build has no updater")))
      else
        started ← hooked (call_hook (StartedUpdate tag) (fun n => start_update_hook (hooks s) n tag));
        mret match started with
             | Started detail => Resp.UpdateStarted (truncate detail)
             | AlreadyRunning => Resp.Error PErr.UpdateRunning
             end
  end.

(** ** Backups *)

(** [Ord for Path]: component by component, names by their bytes. *)
Fixpoint bytes_leb (a b : rbytes) : bool :=
  match a, b with
  | [], _ => true
  | _, [] => false
  | x :: a, y :: b => (x <? y)%N || (x =? y)%N && bytes_leb a b
  end.

Definition comp_bytes (c : Comp) : option rbytes :=
  match c with ParentDir => None | Normal n => Some (as_bytes n) | NotUtf8 b => Some b end.

Definition comp_leb (a b : Comp) : bool :=
  match comp_bytes a, comp_bytes b with
  | None, _ => true
  | Some _, None => false
  | Some a, Some b => bytes_leb a b
  end.

Fixpoint comps_leb (a b : list Comp) : bool :=
  match a, b with
  | [], _ => true
  | _, [] => false
  | x :: a, y :: b => if comp_leb x y then negb (comp_leb y x) || comps_leb a b else false
  end.

Definition path_leb (p q : Path) : bool :=
  if bool_decide (is_absolute p = is_absolute q) then comps_leb (components p) (components q) else is_absolute p.

Abbreviation Row := (TargetId * Path * BackupEntry)%type.

(** Newest first; then by path. *)
Definition row_leb (l r : Row) : bool :=
  (b_created r.2 <? b_created l.2) || (b_created r.2 =? b_created l.2) && path_leb (b_path l.2) (b_path r.2).
Definition row_le (l r : Row) : Prop := row_leb l r = true.
#[export] Instance row_le_dec : RelDecision row_le. Proof. intros a b. unfold row_le. apply _. Defined.

Fixpoint backup_rows (ts : list TargetEntry) : MM Response (list Row) :=
  match ts with
  | [] => mret []
  | t :: ts =>
      entries ← catch_err (fun e => Resp.Error (atomic_to_proto e)) (on_disk (list_backups (w s) (te_backup_dir t)));
      rest ← backup_rows ts;
      mret (((fun e => (te_id t, te_path t, e)) <$> entries) ++ rest)
  end.

Definition file_name_lossy (p : Path) : rstr :=
  match file_name p with
  | Some (Normal n) => n
  | Some (NotUtf8 b) => from_utf8_lossy b
  | _ => []
  end.

Definition backup_info (index : nat) (row : Row) : BackupInfo :=
  mkBackupInfo (N.min (N.of_nat index) 4294967295) row.1.1 (file_name_lossy (b_path row.2))
    (Z.max 0 (b_created row.2) / 1000000000) (b_digest row.2) (b_len row.2).

Definition collect_backups (m : ModuleId) : MM Response (list (BackupInfo * Path * Path)) :=
  match module (allow s) m with
  | None => fail (unknown Ids.Module_ m)
  | Some _ =>
      rows ← backup_rows (targets_of (allow s) m);
      mret (imap (fun index row => (backup_info index row, b_path row.2, row.1.2)) (merge_sort row_le rows))
  end.

Definition list_backups_request (m : ModuleId) : MM Response Response :=
  entries ← collect_backups m;
  mret (Resp.Backups ((fun row => row.1.1) <$> entries)).

Definition restore (m : ModuleId) (backup_ : BackupId) : MM Response Response :=
  listing ← collect_backups m;
  match listing !! N.to_nat backup_ with
  | None => mret (unknown Ids.Backup backup_)
  | Some (info, source, target_path) =>
      attempt (on_disk (restore_backup_with (w s) source target_path None (Marker in_place_marker))) (fun r =>
        mret match r with
             | Ok out => Resp.Restored (bk_target info) (new_digest out)
             | Err e => Resp.Error (atomic_to_proto e)
             end)
  end.

(** ** The pending-commit marker *)

Definition write_private (p : Path) (b : rbytes) : MM Errno () := on_disk (
  _ ← open_private ev p 384;  (* 0o600 *)
  _ ← write_all ev p b;
  fsync ev p).

Definition write_pending_marker (marker : PendingCommitMarker) : MM MonitorError () :=
  _ ← catch_err (MErr.State (lit "create_dir_all")) (on_disk (create_dir_all ev root));
  match pending_to_vec s marker with
  | None => fail MErr.CorruptMarker
  | Some json => catch_err (MErr.State (lit "write")) (write_private marker_path json)
  end.

Definition clear_marker : MM MonitorError () :=
  attempt (on_disk (unlink ev marker_path)) (fun r =>
    match r with
    | Ok _ => mret ()
    | Err e => if bool_decide (kind e = NotFound) then mret () else fail (MErr.State (lit "remove_file") e)
    end).

(** ** Rolling back *)

Definition replay_reload (entries : list RollbackEntry) : MM HookError () :=
  if existsb (fun e => reloads_unit_files_after (allow s) (rb_path e)) entries
  then _ ← call_hook ReloadedUnits (reload_unit_files_hook (hooks s)); mret ()
  else mret ().

Definition starts_mounts (entries : list RollbackEntry) : bool :=
  existsb (fun e => starts_mounts_after (allow s) (rb_path e)) entries.

Definition stop_started_mounts (entries : list RollbackEntry) : MM HookError () :=
  if starts_mounts entries then _ ← call_hook StoppedMounts (stop_started_mounts_hook (hooks s)); mret () else mret ().

Definition replay_service (service_ : option PendingService) : MM HookError () :=
  match service_ with
  | None => mret ()
  | Some ps =>
      match binding (allow s) (ps_binding ps) with
      | None => fail (HErr.Failed (lit "service binding " ++ show_dec (Z.of_N (ps_binding ps)) ++ lit " disappeared"))
      | Some entry =>
          match to_core (ps_action ps) with
          | None => fail (HErr.Failed (lit "pending service action is not mutating"))
          | Some action =>
              if negb (bool_decide (action ∈ actions (be_binding entry)))
              then fail (HErr.Failed (lit "pending service action is no longer allowed"))
              else
                _ ← call_hook (ActedOn (be_binding entry) action) (fun n => service_hook (hooks s) n (be_binding entry) action);
                mret ()
          end
      end
  end.

(** One entry: restore its backup, if the target still holds what was written. *)
Definition restore_entry (e : RollbackEntry) : M AtomicError WriteOutcome :=
  restore_backup_with (w s) (rb_backup e) (rb_path e) (rb_new_digest e) (Marker in_place_marker).

(** Every entry in turn; how many were restored, and the errors of the others. *)
Fixpoint restore_each {E} (entries : list RollbackEntry) : MM E (nat * list AtomicError) :=
  match entries with
  | [] => mret (O, [])
  | e :: entries =>
      r ← attempt (on_disk (restore_entry e)) (fun r => mret r);
      '(restored, errors) ← restore_each entries;
      mret match r with Ok _ => (S restored, errors) | Err err => (restored, err :: errors) end
  end.

Definition roll_back {E} (entries : list RollbackEntry) : MM E nat :=
  '(restored, _) ← restore_each (reverse entries);
  mret restored.

(** What [rollback_commit], [enforce_deadline] and [rollback_pending_on_exit] do
    with the commit they have taken. *)
Definition roll_back_commit (p : Pending) : MM MonitorError nat :=
  _ ← logged_only (stop_started_mounts (p_entries p));
  restored ← roll_back (p_entries p);
  _ ← logged_only (replay_reload (p_entries p));
  _ ← logged_only (replay_service (p_service p));
  _ ← clear_marker;
  mret restored.

Definition current_pending {E} : MM E (option Pending) := get (fun h => pending (mon h)).

Definition rollback_pending_on_exit : MM MonitorError () :=
  p ← current_pending;
  match p with
  | None => mret ()
  | Some p => _ ← set_monitor (set_pending None); _ ← roll_back_commit p; mret ()
  end.

(** ** Commit-confirm *)

Definition unix_millis {E} : MM E Z := on_disk (t ← now ev; mret (Z.max 0 t / 1000000)).

Definition clamp (lo hi x : Z) : Z := Z.max lo (Z.min hi x).

Definition start_confirm_timer (commit : CommitId) (timeout_s : Z) (service_ : option PendingService) : MM MonitorError Response :=
  p ← current_pending;
  match p with
  | Some p => mret (Resp.Error (PErr.CommitPending (p_commit p)))
  | None =>
      let timeout_s := clamp 1 MAX_CONFIRM_TIMEOUT_S timeout_s in
      entries ← get (fun h => journal (mon h));
      _ ← set_monitor (set_journal []);
      let rollback_targets := Z.min 65535 (Z.of_nat (length entries)) in
      at_ ← read_clock (instant s);
      let deadline := at_ + timeout_s * 1000000000 in
      if instant_limit s <? deadline then fail MErr.CorruptMarker
      else
        ms ← unix_millis;
        _ ← write_pending_marker (mkPendingMarker commit (saturating_add 128 ms (saturating_mul 128 timeout_s 1000)) entries service_);
        _ ← set_monitor (set_pending (Some (mkPending commit deadline entries service_)));
        mret (Resp.ConfirmTimerStarted commit timeout_s rollback_targets)
  end.

Definition enforce_deadline : MM MonitorError () :=
  p ← current_pending;
  match p with
  | None => mret ()
  | Some p =>
      at_ ← read_clock (instant s);
      if at_ <? p_deadline p then mret ()
      else _ ← set_monitor (set_pending None); _ ← roll_back_commit p; mret ()
  end.

Definition confirm_commit (commit : CommitId) : MM MonitorError Response :=
  p ← current_pending;
  match p with
  | Some p =>
      if negb (p_commit p =? commit)%N then mret (unknown Ids.Commit commit)
      else
        at_ ← read_clock (instant s);
        if p_deadline p <=? at_ then
          _ ← enforce_deadline;
          mret (Resp.Error (PErr.CommitExpired commit))
        else
          _ ← set_monitor (set_pending None);
          _ ← (if starts_mounts (p_entries p)
               then logged_only (call_hook ForgotMounts (forget_started_mounts_hook (hooks s))) else mret ());
          _ ← clear_marker;
          mret (Resp.Committed commit)
  | None => mret (unknown Ids.Commit commit)
  end.

Definition rollback_commit (commit : CommitId) : MM MonitorError Response :=
  p ← current_pending;
  match p with
  | Some p =>
      if negb (p_commit p =? commit)%N then mret (unknown Ids.Commit commit)
      else
        _ ← set_monitor (set_pending None);
        restored ← roll_back_commit p;
        mret (Resp.RolledBack commit (Z.min 65535 (Z.of_nat restored)))
  | None => mret (unknown Ids.Commit commit)
  end.

(** ** Recovery at start-up *)

(** [None] when the file is not there. *)
Definition read_marker (p : Path) : MM MonitorError (option rbytes) :=
  attempt (on_disk (read_file ev p)) (fun r =>
    match r with
    | Ok raw => mret (Some raw)
    | Err e => if bool_decide (kind e = NotFound) then mret None else fail (MErr.State (lit "read") e)
    end).

(** The target the marker names, with a backup in its own backup directory. *)
Definition marked_entry (m : InPlaceMarker) : option TargetEntry :=
  List.find (fun e =>
    bool_decide (te_path e = m_path m) && bool_decide (te_kind e = Wire.File)
    && bool_decide ((m_backup m ≫= parent) = Some (te_backup_dir e))) (take 65536 (a_targets (allow s))).

Definition remove_in_place_marker : MM MonitorError () :=
  catch_err (fun _ => MErr.State (lit "remove_file") OTHER) (on_disk (remove_marker (w s) in_place_marker)).

Definition current_digest {E} (p : Path) : MM E (option Sha256Digest) :=
  attempt (on_disk (read_with_digest (w s) p)) (fun r =>
    mret match r with Ok (_, digest) => Some digest | Err _ => None end).

Definition recover_in_place : MM MonitorError (option InPlaceRecovered) :=
  raw ← read_marker in_place_marker;
  match raw with
  | None => mret None
  | Some raw =>
      match marker_from_slice s raw with
      | None => fail MErr.CorruptMarker
      | Some m =>
          outcome ← match marked_entry m, m_backup m with
                    | Some _, Some b =>
                        now_ ← current_digest (m_path m);
                        if bool_decide (now_ = Some (m_new m)) || bool_decide (now_ = Some (m_prev m)) then
                          _ ← remove_in_place_marker; mret Whole
                        else
                          attempt (on_disk (restore_backup_with (w s) b (m_path m) None Guarded)) (fun r =>
                            match r with
                            | Ok _ => _ ← remove_in_place_marker; mret Restored
                            | Err e => mret (RestoreFailed (atomic_text s e))
                            end)
                    | _, _ => _ ← remove_in_place_marker; mret Refused
                    end;
          mret (Some (mkInPlaceRecovered (m_path m) outcome))
      end
  end.

(** The message of a hook that failed, if it did. *)
Definition failure_of {E} (m : MM HookError ()) : MM E (list rstr) :=
  attempt m (fun r => mret match r with Ok _ => [] | Err e => [hook_error_text e] end).

Definition recover_pending : MM MonitorError (option Recovered) :=
  _ ← recover_in_place;
  raw ← read_marker marker_path;
  match raw with
  | None => mret None
  | Some raw =>
      match pending_from_slice s raw with
      | None => fail MErr.CorruptMarker
      | Some m =>
          f1 ← failure_of (stop_started_mounts (pm_entries m));
          '(restored, errors) ← restore_each (reverse (pm_entries m));
          f2 ← failure_of (replay_reload (pm_entries m));
          f3 ← failure_of (replay_service (pm_service m));
          _ ← catch_err (MErr.State (lit "remove_file")) (on_disk (unlink ev marker_path));
          mret (Some (mkRecovered (pm_commit m) restored (f1 ++ (atomic_text s <$> errors) ++ f2 ++ f3)))
      end
  end.

(** ** Dispatch *)

Definition dispatch (r : Request) : MM MonitorError Response :=
  m ← get mon;
  if negb (greeted m) then
    match r with
    | Req.Hello proto =>
        if (proto =? PROTO_VERSION)%N then _ ← set_monitor set_greeted; mret (Resp.HelloAck (hello_ack (allow s)))
        else mret (Resp.Error (PErr.VersionMismatch PROTO_VERSION proto))
    | _ => mret (Resp.Error PErr.HandshakeRequired)
    end
  else
    response ←
      match r with
      | Req.Hello _ => mret (Resp.Error PErr.HandshakeRequired)
      | Req.ReadTarget t => answer (read_target t)
      | Req.WriteTarget t expected_prev b j => answer (write_target t expected_prev b j)
      | Req.RunCheck c b => answer (run_check c b)
      | Req.Service b action => answer (service b action)
      | Req.ListBackups m => answer (list_backups_request m)
      | Req.Restore m b => answer (restore m b)
      | Req.StartConfirmTimer c timeout_s service_ => start_confirm_timer c timeout_s service_
      | Req.ConfirmCommit c => confirm_commit c
      | Req.RollbackCommit c => rollback_commit c
      | Req.PendingCommit => p ← current_pending; mret (Resp.Pending (p_commit <$> p))
      | Req.Mount t => answer (mount t)
      | Req.ReplaceBinary _ _ _ | Req.StageBegin _ _ _ _ | Req.StageUpdate _ _ =>
          mret (Resp.Error (PErr.Unsupported (lit "the monitor installs no release; use StartUpdate")))
      | Req.Shutdown => mret Resp.ShuttingDown
      | Req.ReloadUnitFiles m => answer (reload_unit_files_request m)
      | Req.StartUpdate tag => answer (start_update tag)
      end;
    _ ← match summary_of (sha256 (w s)) r with Some x => log_request x response | None => mret () end;
    mret response.

(** ** Serving *)

(** One turn of the loop as the channel sees it: setting the read timeout,
    receiving, sending. *)
Record Turn := mkTurn {
  on_timeout : option ChannelError;
  received : result ChannelError (option Request);
  on_send : option ChannelError;
}.

Definition finish_send_error (e : ChannelError) : result MonitorError ExitReason :=
  match e with
  | Closed | Timeout => Ok PeerClosed
  | Oversize _ => Ok ProtocolViolation
  | other => Err (MErr.Channel other)
  end.

Definition is_fatal (r : Response) : bool :=
  match r with Resp.Error (PErr.VersionMismatch _ _) | Resp.Error PErr.HandshakeRequired => true | _ => false end.

Definition handle (lock_held : bool) (r : Request) : MM MonitorError Response :=
  m ← get mon;
  if negb lock_held && greeted m && changes_state r then mret (Resp.Error PErr.StateLockUnavailable) else dispatch r.

(** [timeout] is the read timeout the channel has; when the turns are over the
    peer is gone. *)
Fixpoint serve_loop (idle_timeout timeout : Z) (lock_held : bool) (turns : list Turn) : MM MonitorError ExitReason :=
  match turns with
  | [] => mret PeerClosed
  | t :: turns =>
      p ← current_pending;
      let want := match p with Some _ => PENDING_POLL | None => idle_timeout end in
      match (if timeout =? want then None else on_timeout t) with
      | Some Closed => mret PeerClosed
      | Some e => fail (MErr.Channel e)
      | None =>
          match received t with
          | Ok None => _ ← enforce_deadline; serve_loop idle_timeout want lock_held turns
          | Ok (Some r) =>
              response ← handle lock_held r;
              match on_send t with
              | Some e => of_res (finish_send_error e)
              | None =>
                  _ ← send_response response;
                  match r with
                  | Req.Shutdown => mret ExitShutdown
                  | _ =>
                      if is_fatal response then mret ProtocolMismatch
                      else _ ← enforce_deadline; serve_loop idle_timeout want lock_held turns
                  end
              end
          | Err Closed => mret PeerClosed
          | Err e => if is_protocol_violation e then mret ProtocolViolation else fail (MErr.Channel e)
          end
      end
  end.

Definition serve_locked (idle_timeout : Z) (lock : StateLock) (turns : list Turn) : MM MonitorError ExitReason :=
  attempt (serve_loop idle_timeout idle_timeout (is_held lock) turns) (fun result =>
    attempt rollback_pending_on_exit (fun cleanup =>
      of_res match result, cleanup with
             | Ok reason, Ok _ => Ok reason
             | Err e, Ok _ | Ok _, Err e => Err e
             | Err _, Err cleanup => Err cleanup
             end)).

(** ** The state lock *)

Definition unavailable_when_denied (op : rstr) (source : Errno) : result MonitorError StateLock :=
  if bool_decide (kind source = PermissionDenied) then Ok Unavailable else Err (MErr.State op source).

Definition lock_state : MM MonitorError StateLock :=
  attempt (on_disk (create_dir_all ev root)) (fun r =>
    match r with
    | Err e => of_res (unavailable_when_denied (lit "create_dir_all") e)
    | Ok _ =>
        attempt (on_disk (open_create ev (join_name root MONITOR_LOCK) 384)) (fun r =>
          match r with
          | Err e => of_res (unavailable_when_denied (lit "open lock") e)
          | Ok _ => if lock_is_free s then mret Held else fail MErr.Busy
          end)
    end).

Definition lock_exclusive : MM MonitorError StateLock :=
  l ← lock_state; of_res (require_held l).

Definition serve (idle_timeout : Z) (turns : list Turn) : MM MonitorError ExitReason :=
  l ← lock_state;
  _ ← (if is_held l then _ ← recover_pending; mret () else mret ());
  serve_locked idle_timeout l turns.

End Handlers.
