(* ===== verification/MonitorLogic.v ===== *)
(** * Reasoning about the monitor

    Triples for the computations of [Hooks]: what holds of the monitor and the
    disk before and after, of every disk in between and of every hook call made,
    whatever calls fail. *)

From Stdlib Require Import ZArith.
From stdpp Require Import gmap.
From S2P Require Import Prelude Str Num Doc Diag Descriptor Disk Atomic AtomicSafe Proto Hooks.
#[local] Open Scope Z_scope.

Abbreviation Assertion := (Monitor -> Disk -> Prop).

(** [hspec I T P m Q]: from [P], [m] ends in [Q], passes only through disks in [I]
    and makes only hook calls in [T]. *)
Definition hspec {E A} (I : Disk -> Prop) (T : HookCall -> Prop) (P : Assertion) (m : MM E A) (Q : result E A -> Assertion) : Prop :=
  forall h, P (mon h) (disk (fs h)) ->
    (exists new, seen (fs (m h).2) = new ++ seen (fs h) /\ Forall I new)
    /\ (exists calls, trace (m h).2 = trace h ++ calls /\ Forall T calls)
    /\ Q (m h).1 (mon (m h).2) (disk (fs (m h).2)).

Section Rules.
Context {E A : Type}.
Implicit Types (I : Disk -> Prop) (T : HookCall -> Prop) (P : Assertion).

Lemma h_weaken I T P P' (m : MM E A) (Q Q' : result E A -> Assertion) :
  hspec I T P' m Q' -> (forall x d, P x d -> P' x d) -> (forall r x d, Q' r x d -> Q r x d) -> hspec I T P m Q.
Proof. intros H HP HQ h Hh. destruct (H h (HP _ _ Hh)) as (H1 & H2 & H3). eauto. Qed.

Lemma h_pre I T P P' (m : MM E A) Q : hspec I T P' m Q -> (forall x d, P x d -> P' x d) -> hspec I T P m Q.
Proof. intros H HP. by eapply h_weaken. Qed.

Lemma h_post I T P (m : MM E A) (Q Q' : result E A -> Assertion) :
  hspec I T P m Q' -> (forall r x d, Q' r x d -> Q r x d) -> hspec I T P m Q.
Proof. intros H HQ. by eapply h_weaken. Qed.

Lemma h_still I T P (r : result E A) (Q : result E A -> Assertion) : (forall x d, P x d -> Q r x d) -> hspec I T P (fun h => (r, h)) Q.
Proof. intros H h Hh. split_and!; [by exists []|exists []; by rewrite app_nil_r|by apply H]. Qed.

Lemma h_ret I T P (a : A) (Q : result E A -> Assertion) : (forall x d, P x d -> Q (Ok a) x d) -> hspec I T P (mret a) Q.
Proof. apply h_still. Qed.

Lemma h_fail I T P (e : E) (Q : result E A -> Assertion) : (forall x d, P x d -> Q (Err e) x d) -> hspec I T P (fail e) Q.
Proof. apply h_still. Qed.

Lemma h_get I T P (f : Host -> A) (g : Monitor -> Disk -> A) (Q : result E A -> Assertion) :
  (forall h, f h = g (mon h) (disk (fs h))) -> (forall x d, P x d -> Q (Ok (g x d)) x d) -> hspec I T P (get f) Q.
Proof.
  intros Hf H h Hh. split_and!; [by exists []|exists []; by rewrite app_nil_r|]. simpl. rewrite Hf. by apply H.
Qed.

Lemma h_exists {X} I T (P : X -> Assertion) (m : MM E A) Q : (forall x, hspec I T (P x) m Q) -> hspec I T (fun y d => exists x, P x y d) m Q.
Proof. intros H h [x Hp]. by eapply H. Qed.

Lemma h_assume I T (C : Prop) P (m : MM E A) Q : (C -> hspec I T P m Q) -> hspec I T (fun x d => C /\ P x d) m Q.
Proof. intros H h [Hc Hp]. by apply H. Qed.

End Rules.

Lemma h_attempt {E F A B} I T P (m : MM E A) (k : result E A -> MM F B) R Q :
  hspec I T P m R -> (forall r, hspec I T (R r) (k r) Q) -> hspec I T P (attempt m k) Q.
Proof.
  intros Hm Hk h Hh. unfold attempt. destruct (Hm h Hh) as ((n1 & E1 & H1) & (t1 & E2 & H2) & H3).
  destruct (m h) as [r h']. simpl in *. destruct (Hk r h' H3) as ((n2 & E3 & H4) & (t2 & E4 & H5) & H6). split_and!; [| |done].
  - exists (n2 ++ n1). rewrite E3, E1, (assoc_L (++)). split; [done|by apply Forall_app].
  - exists (t1 ++ t2). rewrite E4, E2, (assoc_L (++)). split; [done|by apply Forall_app].
Qed.

Lemma h_bind {E A B} I T P (m : MM E A) (k : A -> MM E B) R Q :
  hspec I T P m R -> (forall a, hspec I T (R (Ok a)) (k a) Q) -> (forall e x d, R (Err e) x d -> Q (Err e) x d) ->
  hspec I T P (m ≫= k) Q.
Proof.
  intros Hm Hk He. refine (h_attempt _ _ _ _ _ _ _ Hm _). intros [a|e]; [apply Hk|]. by apply h_fail, He.
Qed.

Lemma h_catch {E F A} I T P (g : E -> F) (m : MM E A) (Q : result F A -> Assertion) :
  hspec I T P m (fun r => Q (match r with Ok a => Ok a | Err e => Err (g e) end)) -> hspec I T P (catch_err g m) Q.
Proof. intros H. refine (h_attempt _ _ _ _ _ _ _ H _). intros [a|e]; [by apply h_ret|by apply h_fail]. Qed.

Lemma h_logged {E F A} I T P (m : MM E A) (Q : result F () -> Assertion) :
  hspec I T P m (fun _ => Q (Ok ())) -> hspec I T P (logged_only m) Q.
Proof. intros H. refine (h_attempt _ _ _ _ _ _ _ H _). intros r. by apply h_ret. Qed.

Lemma h_set {E} I T P g (Q : result E () -> Assertion) : (forall x d, P x d -> Q (Ok ()) (g x) d) -> hspec I T P (set_monitor g) Q.
Proof. intros H h Hh. split_and!; [by exists []|exists []; by rewrite app_nil_r|by apply H]. Qed.

Lemma h_hook {A} I T P c (answer : nat -> result HookError A) (Q : result HookError A -> Assertion) :
  T c -> (forall r x d, P x d -> Q r x d) -> hspec I T P (call_hook c answer) Q.
Proof. intros Hc H h Hh. split_and!; [by exists []|exists [c]; split; [done|by repeat constructor]|by apply H]. Qed.

Lemma h_clock {E} I T P instant (Q : result E Z -> Assertion) :
  (forall t x d, P x d -> Q (Ok t) x d) -> hspec I T P (read_clock instant) Q.
Proof. intros H h Hh. split_and!; [by exists []|exists []; by rewrite app_nil_r|by apply H]. Qed.

Lemma h_log {E} I T P x r (Q : result E () -> Assertion) : (forall y d, P y d -> Q (Ok ()) y d) -> hspec I T P (log_request x r) Q.
Proof. intros H h Hh. split_and!; [by exists []|exists []; by rewrite app_nil_r|by apply H]. Qed.

Lemma h_send {E} I T P r (Q : result E () -> Assertion) : (forall y d, P y d -> Q (Ok ()) y d) -> hspec I T P (send_response r) Q.
Proof. intros H h Hh. split_and!; [by exists []|exists []; by rewrite app_nil_r|by apply H]. Qed.

(** A file operation leaves the monitor alone. *)
Lemma h_disk {E A} I T P (m : M E A) (Q : result E A -> Assertion) :
  (forall x, spec I (P x) m (fun r => Q r x)) -> hspec I T P (on_disk m) Q.
Proof.
  intros H h Hh. unfold on_disk. destruct (H (mon h) (fs h) Hh) as [(new & E1 & H1) H2].
  destruct (m (fs h)) as [r st]. simpl in *. split_and!; [by exists new|exists []; by rewrite app_nil_r|done].
Qed.

(** [keeps I T J m R]: [m] keeps the invariant [J] of monitor and disk, and a
    value it returns satisfies [R]. *)
Definition keeps {E A} (I : Disk -> Prop) (T : HookCall -> Prop) (J : Assertion) (m : MM E A) (R : A -> Prop) : Prop :=
  hspec I T J m (fun r x d => J x d /\ forall a, r = Ok a -> R a).

Section Keeps.
Variables (I : Disk -> Prop) (T : HookCall -> Prop) (J : Assertion).

Lemma k_ret {E A} (a : A) (R : A -> Prop) : R a -> keeps (E := E) I T J (mret a) R.
Proof. intros H. apply h_ret. naive_solver. Qed.
Lemma k_fail {E A} (e : E) (R : A -> Prop) : keeps I T J (fail e) R.
Proof. apply h_fail. naive_solver. Qed.
Lemma k_res {E A} (r : result E A) (R : A -> Prop) : (forall a, r = Ok a -> R a) -> keeps I T J (fun h => (r, h)) R.
Proof. intros H. apply h_still. naive_solver. Qed.
Lemma k_attempt {E F A B} (m : MM E A) (k : result E A -> MM F B) R S :
  keeps I T J m R -> (forall r, (forall a, r = Ok a -> R a) -> keeps I T J (k r) S) -> keeps I T J (attempt m k) S.
Proof.
  intros Hm Hk. eapply h_attempt; [exact Hm|]. intros r. simpl.
  eapply h_pre with (P' := fun x d => (forall a, r = Ok a -> R a) /\ J x d); [|naive_solver].
  apply h_assume. apply Hk.
Qed.
Lemma k_bind {E A B} (m : MM E A) (k : A -> MM E B) R S :
  keeps I T J m R -> (forall a, R a -> keeps I T J (k a) S) -> keeps I T J (m ≫= k) S.
Proof. intros Hm Hk. eapply k_attempt; [exact Hm|]. intros [a|e] Hr; [by apply Hk, Hr|apply k_fail]. Qed.
Lemma k_catch {E F A} (g : E -> F) (m : MM E A) R : keeps I T J m R -> keeps I T J (catch_err g m) R.
Proof. intros Hm. eapply k_attempt; [exact Hm|]. intros [a|e] Hr; [by apply k_ret, Hr|apply k_fail]. Qed.
Lemma k_logged {E F A} (m : MM E A) R : keeps I T J m R -> keeps (E := F) I T J (logged_only m) (fun _ => True).
Proof. intros Hm. eapply k_attempt; [exact Hm|]. intros r _. by apply k_ret. Qed.
Lemma k_weaken {E A} (m : MM E A) (R S : A -> Prop) : keeps I T J m R -> (forall a, R a -> S a) -> keeps I T J m S.
Proof. intros Hm H. eapply h_post; [exact Hm|]. naive_solver. Qed.
Lemma k_get {E A} (f : Host -> A) : keeps (E := E) I T J (get f) (fun _ => True).
Proof. intros h Hh. split_and!; [by exists []|exists []; by rewrite app_nil_r|done..]. Qed.
Lemma k_hook {A} c (answer : nat -> result HookError A) : T c -> keeps I T J (call_hook c answer) (fun _ => True).
Proof. intros Hc. apply h_hook; naive_solver. Qed.
Lemma k_clock {E} instant : keeps (E := E) I T J (read_clock instant) (fun _ => True).
Proof. apply h_clock. naive_solver. Qed.
Lemma k_log {E} x r : keeps (E := E) I T J (log_request x r) (fun _ => True).
Proof. apply h_log. naive_solver. Qed.
Lemma k_send {E} r : keeps (E := E) I T J (send_response r) (fun _ => True).
Proof. apply h_send. naive_solver. Qed.
Lemma k_set {E} g : (forall x d, J x d -> J (g x) d) -> keeps (E := E) I T J (set_monitor g) (fun _ => True).
Proof. intros H. apply h_set. naive_solver. Qed.
Lemma k_disk {E A} (m : M E A) (R : A -> Prop) :
  (forall x, spec I (J x) m (fun r d => J x d /\ forall a, r = Ok a -> R a)) -> keeps I T J (on_disk m) R.
Proof. intros H. by apply h_disk. Qed.

End Keeps.
