(* ===== verification/Frames.v ===== *)
(** * Where file operations write

    [within F m R]: whatever calls fail, [m] changes nothing outside [F] and no
    directory into something else, at any moment, and a value it returns satisfies [R]. Every operation of [Atomic]
    gets its frame here; no assumption on the layout of the disk is needed. *)

From Stdlib Require Import ZArith.
From stdpp Require Import gmap sorting.
From S2P Require Import Prelude Str Num Ip Disk Atomic AtomicSafe.
#[local] Open Scope Z_scope.

Abbreviation anything := (fun _ => True).

Definition within {E A} (F : Path -> Prop) (m : M E A) (R : A -> Prop) : Prop :=
  forall d0, spec (near F d0) (near F d0) m (fun r d => near F d0 d /\ forall a, r = Ok a -> R a).

(** One node changed, and no directory. *)
Ltac near_tac :=
  first [apply near_refl|apply near_insert; [by auto|naive_solver congruence]|apply near_delete; [by auto|congruence]].

Section Rules.
Variable F : Path -> Prop.

Lemma in_ret {E A} (a : A) (R : A -> Prop) : R a -> within (E := E) F (mret a) R.
Proof. intros H d0. apply spec_ret. naive_solver. Qed.

Lemma in_throw {E A} (e : E) (R : A -> Prop) : within F (throw e) R.
Proof. intros d0. apply spec_throw. naive_solver. Qed.

Lemma in_res {E A} (r : result E A) (R : A -> Prop) : (forall a, r = Ok a -> R a) -> within F (of_result r) R.
Proof. intros H d0. apply spec_of_result. naive_solver. Qed.

Lemma in_try {E E' A B} (m : M E A) (k : result E A -> M E' B) R S :
  within F m R -> (forall r, (forall a, r = Ok a -> R a) -> within F (k r) S) -> within F (try m k) S.
Proof.
  intros Hm Hk d0. eapply spec_try; [apply Hm|]. intros r. simpl.
  eapply spec_pre with (P' := fun d => (forall a, r = Ok a -> R a) /\ near F d0 d); [|naive_solver].
  apply spec_assume. intros Hr. by apply Hk.
Qed.

Lemma in_bind {E A B} (m : M E A) (k : A -> M E B) R S :
  within F m R -> (forall a, R a -> within F (k a) S) -> within F (m ≫= k) S.
Proof. intros Hm Hk. eapply in_try; [exact Hm|]. intros [a|e] Hr; [by apply Hk, Hr|apply in_throw]. Qed.

Lemma in_map_err {E E' A} (g : E -> E') (m : M E A) R : within F m R -> within F (map_err g m) R.
Proof. intros Hm. eapply in_try; [exact Hm|]. intros [a|e] Hr; [by apply in_ret, Hr|apply in_throw]. Qed.

Lemma in_ignore {E E' A} (m : M E A) R : within F m R -> within (E := E') F (ignore m) anything.
Proof. intros Hm. eapply in_try; [exact Hm|]. intros r _. by apply in_ret. Qed.

Lemma in_weaken {E A} (m : M E A) (R S : A -> Prop) : within F m R -> (forall a, R a -> S a) -> within F m S.
Proof. intros Hm HR d0. eapply spec_post; [apply Hm|]. naive_solver. Qed.

Lemma in_each {E A} (f : A -> M E ()) l : (forall x, x ∈ l -> within F (f x) anything) -> within F (each f l) anything.
Proof.
  induction l as [|x l IH]; intros H; [by apply in_ret|]. simpl. eapply in_bind; [apply H; left|]. intros ? _. apply IH.
  intros y Hy. apply H. by right.
Qed.

Lemma in_sys {A} ev act (R : A -> Prop) :
  (forall n d, near F d (act n d).2) -> (forall n d a, (act n d).1 = Ok a -> R a) -> within F (sys ev act) R.
Proof.
  intros Ha HR d0. apply spec_sys.
  - intros n d Hd. assert (near F d0 (act n d).2) by (eapply near_trans; [exact Hd|apply Ha]). split; [done|]. eauto.
  - intros f d Hd _. split; [done|]. by intros a [=].
Qed.

Lemma in_read {A} ev act (R : A -> Prop) :
  (forall n d, (act n d).2 = d) -> (forall n d a, (act n d).1 = Ok a -> R a) -> within F (sys ev act) R.
Proof. intros Ha HR. apply in_sys; [|done]. intros n d. rewrite Ha. apply near_refl. Qed.

Lemma in_write_all ev p b : F p -> within F (write_all ev p b) anything.
Proof.
  intros Hp d0. apply spec_write_all; intros; [|split..]; try done; (eapply near_trans; [done|by apply near_on_file]).
Qed.

Lemma in_set ev p g : F p -> within F (set_handle ev p g) anything.
Proof. intros Hp. apply in_sys; [|done]. intros n d. by apply near_on_file. Qed.

Lemma in_create ev p m : F p -> within F (create_new ev p m) anything.
Proof. intros Hp. apply in_sys; [|done]. intros n d. destruct (d !! p) eqn:?; simpl; near_tac. Qed.

Lemma in_truncate ev p : F p -> within F (open_truncate ev p) anything.
Proof. intros Hp. apply in_sys; [|done]. intros n d. destruct (d !! p) as [[]|] eqn:?; simpl; near_tac. Qed.

Lemma in_open_private ev p m : F p -> within F (open_private ev p m) anything.
Proof. intros Hp. apply in_sys; [|done]. intros n d. destruct (d !! p) as [[]|] eqn:?; simpl; near_tac. Qed.

Lemma in_open_create ev p m : F p -> within F (open_create ev p m) anything.
Proof. intros Hp. apply in_sys; [|done]. intros n d. destruct (d !! p) as [[]|] eqn:?; simpl; near_tac. Qed.

Lemma in_unlink ev p : F p -> within F (unlink ev p) anything.
Proof. intros Hp. apply in_sys; [|done]. intros n d. destruct (d !! p) as [[]|] eqn:?; simpl; near_tac. Qed.

Lemma in_rename ev p q : F p -> F q -> within F (rename ev p q) anything.
Proof.
  intros Hp Hq. apply in_sys; [|done]. intros n d. destruct (d !! p) as [x|] eqn:Ep; simpl; [|near_tac].
  assert (H : (forall m, d !! p <> Some (Directory m)) -> (forall m, d !! q <> Some (Directory m)) -> near F d (<[q := x]> (delete p d))).
  { intros H1 H2. eapply near_trans; [by apply (near_delete _ _ p)|]. apply near_insert; [done|]. intros m Hm.
    destruct (decide (p = q)) as [->|?]; [by rewrite lookup_delete_eq in Hm|]. rewrite lookup_delete_ne in Hm by done. naive_solver. }
  destruct x; try near_tac; destruct (d !! q) as [[]|] eqn:Eq; simpl; try near_tac; apply H; congruence.
Qed.

Lemma in_make_dir ev p m : F p -> within F (make_dir ev p m) anything.
Proof. intros Hp. apply in_sys; [|done]. intros n d. destruct (d !! p) eqn:?; simpl; near_tac. Qed.

Lemma in_create_dir_all ev p : (forall q, q ∈ ancestors p -> F q) -> within F (create_dir_all ev p) anything.
Proof.
  intros Hp. apply in_each. intros q Hq%Hp. apply in_sys; [|done]. intros n d.
  destruct (d !! q) as [[]|] eqn:?; simpl; near_tac.
Qed.

Lemma in_fsync ev p : within F (fsync ev p) anything.
Proof. by apply in_read. Qed.
Lemma in_stat ev p : within F (stat_nofollow ev p) anything.
Proof. by apply in_read. Qed.
Lemma in_open_directory ev p : within F (open_directory ev p) anything.
Proof. by apply in_read. Qed.
Lemma in_open_read ev p : within F (open_read ev p) anything.
Proof. by apply in_read. Qed.
Lemma in_handle {A} ev p (get : File -> A) : within F (on_handle ev p get) anything.
Proof. by apply in_read. Qed.
Lemma in_read_dir ev p : within F (read_dir ev p) anything.
Proof. by apply in_read. Qed.
Lemma in_now {E} ev : within (E := E) F (now ev) anything.
Proof. intros d0. apply spec_now. naive_solver. Qed.
Lemma in_read_file ev p : within F (read_file ev p) anything.
Proof. eapply in_bind; [apply in_open_read|]. intros ? _. apply in_handle. Qed.

Lemma in_any {E A} (m : M E A) (R : A -> Prop) : within F m R -> within F m anything.
Proof. intros H. by eapply in_weaken. Qed.

End Rules.

(** Take an operation apart; what is left are its writes. *)
Ltac in_step :=
  match goal with
  | |- within _ (mret _) _ => apply in_ret
  | |- within _ (throw _) _ => apply in_throw
  | |- within _ (map_err _ _) _ => apply in_map_err
  | |- within _ (mbind _ _) _ => eapply in_bind; [|intros ? ?]
  | |- within _ (try _ _) _ => eapply in_try; [|intros ? ?]
  | |- within _ (ignore _) _ => eapply in_ignore
  | |- within _ (fsync _ _) _ => apply in_fsync
  | |- within _ (stat_nofollow _ _) _ => apply in_stat
  | |- within _ (open_directory _ _) _ => apply in_open_directory
  | |- within _ (open_read _ _) _ => apply in_open_read
  | |- within _ (on_handle _ _ _) _ => apply in_handle
  | |- within _ (read_dir _ _) _ => apply in_read_dir
  | |- within _ (match ?x with _ => _ end) _ => destruct x eqn:?
  end.
Ltac in_tac := repeat in_step.

(** ** Atomic files *)

Section Ops.
Variable w : World.
Variable F : Path -> Prop.

Lemma in_open_dir p : within F (open_dir w p) anything.
Proof. unfold open_dir. in_tac. Qed.

Lemma in_read_existing dir name p : within F (read_existing w dir name p) anything.
Proof. unfold read_existing. in_tac; done.
Qed.

Lemma in_read_with_digest p : within F (read_with_digest w p) anything.
Proof.
  unfold read_with_digest. eapply in_bind; [by apply (in_res _ _ anything)|]. intros [dir name] _.
  eapply in_bind; [apply in_open_dir|]. intros ? _. eapply in_bind; [apply in_read_existing|]. intros ? _. in_tac; done.
Qed.

Lemma in_create_exclusive_from dir p m name_for attempt tries :
  (forall i, F (join_name dir (name_for i))) ->
  within F (create_exclusive_from w dir p m name_for attempt tries) (fun t => exists i, t = name_for i).
Proof.
  intros HF. revert attempt. induction tries as [|tries IH]; intros attempt; cbn [create_exclusive_from]; [apply in_throw|].
  eapply in_try; [by apply in_create|]. intros [?|[]] _; try apply in_throw; [by apply in_ret; eauto|apply IH].
Qed.

Lemma in_guarded {A} file (m : M AtomicError A) R : F file -> within F m R -> within F (guarded w file m) R.
Proof.
  intros HF Hm. eapply in_try; [exact Hm|]. intros [a|e] Hr; [by apply in_ret, Hr|].
  eapply in_bind; [by eapply in_ignore, in_unlink|]. intros ? _. apply in_throw.
Qed.

Lemma in_copy_xattrs source dest p : F dest -> within F (copy_xattrs w source dest p) anything.
Proof.
  intros HF. unfold copy_xattrs. eapply in_try; [by apply (in_read _ _ _ anything)|]. intros [names|e] _; [|in_tac; done].
  apply in_each. intros name _. unfold copy_xattr. eapply in_try; [by apply (in_read _ _ _ anything)|].
  intros [[[? value]|]|e'] _; [|by apply in_ret|in_tac; done]. eapply in_try; [by apply in_set|]. intros r _. in_tac; done.
Qed.

Lemma in_restore_owner temp p m o : F temp -> within F (restore_owner w temp p m o) anything.
Proof.
  intros HF. unfold restore_owner. destruct o as [o|]; [|by apply in_ret]. eapply in_bind; [apply in_map_err, in_handle|].
  intros c _. destruct (chown_changes _ _ _); [|by apply in_ret]. eapply in_try; [by apply in_set|]. intros r _. in_tac; done.
Qed.

Lemma in_replace_contents dir name p b m o source :
  F (join_name dir name) -> (forall i, F (join_name dir (temp_name w i))) ->
  within F (replace_contents w dir name p b m o source) anything.
Proof.
  intros Ht Hi. unfold replace_contents. eapply in_bind; [by apply in_create_exclusive_from|]. intros t [i ->].
  eapply in_bind.
  - apply in_guarded with (R := anything); [done|].
    eapply in_bind; [by apply in_map_err, in_set|]. intros ? _.
    eapply in_bind; [by apply in_restore_owner|]. intros ? _.
    eapply in_bind; [destruct source; [by apply in_copy_xattrs|by apply in_ret]|]. intros ? _.
    eapply in_bind; [by apply in_map_err, in_write_all|]. intros ? _.
    eapply in_bind; [apply in_map_err, in_fsync|]. intros ? _.
    eapply in_bind; [by apply in_map_err, in_rename|]. intros ? _. by apply in_ret.
  - intros ? _. eapply in_bind; [apply in_map_err, in_fsync|]. intros ? _. by apply in_ret.
Qed.

Lemma in_split {E B} p (k : Path * rstr -> M E B) (g : AtomicError -> E) S :
  (forall dir name, split_path p = Ok (dir, name) -> p = join_name dir name -> within F (k (dir, name)) S) ->
  within F (map_err g (of_result (split_path p)) ≫= k) S.
Proof.
  intros Hk. eapply in_bind with (R := fun x => split_path p = Ok x).
  - apply in_map_err, in_res. auto.
  - intros [dir name] E1. apply Hk; [done|]. by apply split_path_join.
Qed.

Lemma in_split' {B} p (k : Path * rstr -> M AtomicError B) S :
  (forall dir name, split_path p = Ok (dir, name) -> p = join_name dir name -> within F (k (dir, name)) S) ->
  within F (of_result (split_path p) ≫= k) S.
Proof.
  intros Hk. eapply in_bind with (R := fun x => split_path p = Ok x); [by apply in_res|].
  intros [dir name] E1. apply Hk; [done|]. by apply split_path_join.
Qed.

Lemma in_write_marker m record : F m -> within F (write_marker w m record) anything.
Proof.
  intros Hm. apply in_split'. intros dir name _ ->. eapply in_bind; [apply in_open_dir|]. intros ? _.
  destruct (to_vec w record); [|apply in_throw].
  eapply in_bind; [by apply in_map_err, in_create|]. intros ? _.
  eapply in_bind; [by apply in_map_err, in_write_all|]. intros ? _. in_tac.
Qed.

Lemma in_remove_marker m : F m -> within F (remove_marker w m) anything.
Proof.
  intros Hm. apply in_split'. intros dir name _ ->. eapply in_bind; [apply in_open_dir|]. intros ? _.
  eapply in_bind; [by apply in_map_err, in_unlink|]. intros ? _. in_tac.
Qed.

Lemma in_write_in_place dir name p found b : F (join_name dir name) -> within F (write_in_place w dir name p found b) anything.
Proof.
  intros Ht. unfold write_in_place. eapply in_bind; [by apply in_map_err, in_truncate|]. intros ? _.
  eapply in_bind; [apply in_map_err, in_stat|]. intros n _. destruct n; try apply in_throw.
  destruct (_ =? _); [|apply in_throw]. eapply in_bind; [by apply in_map_err, in_write_all|]. intros ? _. in_tac.
Qed.

(** *** Backups *)

Variable B : Path.
Hypothesis B_dirs : forall p, p ∈ ancestors B -> F p.
Hypothesis B_self : F B.
Hypothesis B_files : forall n, F (join_name B n).

Lemma in_ensure_backup_dir : within F (ensure_backup_dir w B) anything.
Proof.
  unfold ensure_backup_dir, is_dir. eapply in_bind; [eapply in_try; [apply in_stat|]; intros r _; by apply (in_ret _ _ anything)|].
  intros [] _; [by apply in_ret|]. eapply in_bind; [by apply in_map_err, in_create_dir_all|]. intros ? _.
  eapply in_bind; [apply in_open_dir|]. intros ? _. apply in_map_err, in_sys; [|done].
  intros n d. simpl. destruct (d !! B) as [[]|] eqn:?; near_tac.
Qed.

Lemma in_write_backup b digest t : within F (write_backup w B b digest t) (fun p => exists n, p = join_name B n).
Proof.
  unfold write_backup. eapply in_bind; [apply in_ensure_backup_dir|]. intros ? _.
  eapply in_bind; [by apply (in_res _ _ anything)|]. intros st _.
  eapply in_bind; [apply in_open_dir|]. intros ? _.
  eapply in_bind; [by apply in_create_exclusive_from|]. intros n _.
  eapply in_bind.
  - apply in_guarded with (R := anything); [done|].
    eapply in_bind; [by apply in_map_err, in_set|]. intros ? _.
    eapply in_bind; [by apply in_map_err, in_write_all|]. intros ? _. in_tac.
  - intros ? _. eapply in_bind; [apply in_map_err, in_fsync|]. intros ? _. apply in_ret. eauto.
Qed.

Lemma in_backup_names : within F (backup_names w B) anything.
Proof. unfold backup_names. in_tac; done.
Qed.

Lemma in_rotate_backups keep newest : within F (rotate_backups w B keep newest) anything.
Proof.
  unfold rotate_backups. eapply in_bind; [apply in_backup_names|]. intros names _. destruct (_ <=? _)%nat; [by apply in_ret|].
  eapply in_bind; [apply in_open_dir|]. intros ? _. eapply in_bind; [|intros ? _; in_tac].
  apply in_each. intros n _. by apply in_map_err, in_unlink.
Qed.

Lemma in_list_backups : within F (list_backups w B) (Forall (fun e => exists n, b_path e = join_name B n)).
Proof.
  unfold list_backups. eapply in_try; [apply in_backup_names|]. intros [names|e] _.
  2: { destruct e as [| | | |op p []| |]; try apply in_throw. by apply in_ret. }
  induction (newest_first names) as [|n l IH]; [by apply in_ret|].
  eapply in_bind; [apply in_read_with_digest|]. intros [bytes digest] _.
  eapply in_bind; [apply in_map_err, in_handle|]. intros t _.
  eapply in_bind; [exact IH|]. intros rest Hr. apply in_ret. constructor; [by eexists|done].
Qed.

Lemma in_take_backup req existing : backup_dir req = B ->
  within F (take_backup w req existing) (fun b => forall p, b = Some p -> exists n, p = join_name B n).
Proof.
  intros HB. unfold take_backup. rewrite HB. destruct existing as [found|]; [|by apply in_ret].
  destruct (0 <? _)%nat; [|by apply in_ret]. eapply in_bind; [apply in_now|]. intros t _.
  eapply in_bind; [apply in_write_backup|]. intros p Hp. eapply in_bind; [apply in_rotate_backups|]. intros ? _.
  apply in_ret. by intros q [= <-].
Qed.

(** *** The whole write *)

Lemma in_fall_back req dir name found bk err :
  F (join_name dir name) -> (forall m, in_place req = Marker m -> F m) ->
  within F (fall_back w req dir name found bk err) anything.
Proof.
  intros Ht Hm. unfold fall_back. destruct (in_place req) as [|m|] eqn:Ep; [apply in_throw| |].
  - destruct bk as [b|]; [|apply in_throw]. unfold marked_write.
    eapply in_bind; [by apply in_write_marker, Hm|]. intros ? _. eapply in_bind; [|intros ? _; by apply in_ret].
    eapply in_try; [by apply in_write_in_place|]. intros [?|e] _; [by apply in_remove_marker, Hm|].
    destruct e; try apply in_throw. destruct (bool_decide _); [|apply in_throw].
    eapply in_bind; [by apply in_remove_marker, Hm|]. intros ? _. apply in_throw.
  - eapply in_bind; [by apply in_write_in_place|]. intros ? _. by apply in_ret.
Qed.

(** Where a write may write. *)
Definition write_area (req : WriteRequest) (p : Path) : Prop :=
  p = path req \/ (exists dir i, parent (path req) = Some dir /\ p = join_name dir (temp_name w i))
  \/ create_missing req = true /\ (exists dir, parent (path req) = Some dir /\ p ∈ ancestors dir)
  \/ p = backup_dir req \/ p ∈ ancestors (backup_dir req) \/ (exists n, p = join_name (backup_dir req) n)
  \/ in_place req = Marker p.

Lemma in_write_atomic req : backup_dir req = B -> (forall p, write_area req p -> F p) ->
  within F (write_atomic w req) (fun out => forall p, backup out = Some p -> exists n, p = join_name B n).
Proof.
  intros HB HF. apply in_split'. intros dir name _ Ep.
  assert (Hpar : parent (path req) = Some dir) by (rewrite Ep; apply parent_join).
  assert (Ht : F (join_name dir name)) by (apply HF; left; by rewrite Ep).
  eapply in_bind with (R := anything).
  { destruct (create_missing req) eqn:Ec; [|by apply in_ret]. apply in_map_err, in_create_dir_all. intros q Hq.
    apply HF. right. right. left. by eauto. }
  intros ? _. eapply in_bind; [apply in_open_dir|]. intros ? _.
  eapply in_bind; [apply in_read_existing|]. intros existing _.
  eapply in_bind with (R := anything).
  { destruct (expected_prev req); [|by apply in_ret]. destruct (bool_decide _); [by apply in_ret|apply in_throw]. }
  intros ? _. eapply in_bind; [by apply in_take_backup|]. intros bk Hbk.
  eapply in_bind with (R := anything); [|intros ? _; by apply in_ret].
  eapply in_try; [apply in_replace_contents; [done|]; intros i; apply HF; right; left; by eauto|].
  intros [x|err] _; [by apply in_res|]. destruct existing as [found|]; [|by apply in_res].
  destruct (temp_refused err); [|apply in_throw]. apply in_fall_back; [done|].
  intros m Hm. apply HF. by repeat right.
Qed.

End Ops.

(** A restore writes where the write it makes does. *)
Lemma in_restore_dir w F b target expected how B : parent b = Some B ->
  (forall bytes p, write_area w (mkRequest target bytes expected B DEFAULT_KEEP_BACKUPS false 420 how) p -> F p) ->
  within F (restore_backup_with w b target expected how) anything.
Proof.
  intros Hb HF. unfold restore_backup_with. rewrite Hb. eapply in_bind; [apply in_read_with_digest|].
  intros [bytes digest] _. eapply in_any, (in_write_atomic w F B); [..|done|apply HF].
  - intros p Hp. apply (HF bytes). do 4 right. by left.
  - apply (HF bytes). do 3 right. by left.
  - intros k. apply (HF bytes). do 5 right. left. by eauto.
Qed.
