(* ===== verification/MountRun.v ===== *)
(** * Mount activation: the runner's side

    [crates/detent-platform/src/privsep/mounts.rs]: after an apply the runner
    starts the mount units of the entries the apply added, records them first,
    and on a rollback stops exactly those. The init system answers by an oracle;
    the trace keeps what it was asked, with the disk of that moment. *)

From Stdlib Require Import ZArith.
From stdpp Require Import gmap.
From S2P Require Import Prelude Str Num Utf8 Doc Diag Descriptor Disk Atomic AtomicSafe Proto Allow Hooks Monitor MonitorLogic Frames.

(** ** The unit interface *)

(** [service::State] and [service::MountUnitState]. *)
Record MountUnitState := mkUnitState { mus_unit : rstr; mus_state : UnitState; mus_detail : rstr }.

#[export] Instance UnitState_eq_dec : EqDecision UnitState.
Proof. solve_decision. Defined.

(** The calls of the [ServiceControl] trait on mount units: the answer to the [n]-th. *)
Record UnitControl := mkUnitControl {
  mount_unit_states : nat -> list rstr -> result HookError (list MountUnitState);
  start_mount_units : nat -> list rstr -> result HookError (list MountUnitState);
  stop_mount_units : nat -> list rstr -> result HookError (list MountUnitState);
}.

Inductive UnitCall :=
| AskedStates (units : list rstr) (d : Disk)
| StartedUnits (units : list rstr) (d : Disk)
| StoppedUnits (units : list rstr) (d : Disk).

(** ** Names of mount units *)

Definition MAX_UNIT_NAME_LEN : nat := 256.

Definition strip_suffix_str (pat s : rstr) : option rstr :=
  if ends pat s then Some (take (length s - length pat) s) else None.

Definition unit_name_char (c : rchar) : bool := is_ascii_alphanumeric c || contains c (lit ":_.\-").

Definition validate_mount_unit_name (name : rstr) : bool :=
  let stem := match strip_suffix_str (lit ".mount") name with
              | Some stem => Some stem
              | None => strip_suffix_str (lit ".automount") name
              end in
  (str_len name <=? MAX_UNIT_NAME_LEN)%nat
  && match stem with Some stem => negb (is_empty stem) && negb (starts_with 45%N stem) | None => false end
  && forallb unit_name_char name.

(** ** The record *)

Record Recorded := mkRecorded { rc_mountpoint : rstr; rc_unit : rstr }.
Record MountRecord := mkMountRecord { rec_path : Path; rec_digest : Sha256Digest; rec_units : list Recorded }.

Definition RECORD : rstr := lit "started-mounts.json".
Definition RECORD_TEMP : rstr := lit "." ++ RECORD ++ lit ".tmp".
Definition PROTECTED : list rstr := [lit "/etc"; lit "/usr"; lit "/boot"].

(** ** Computations of the runner *)

Record Runner := mkRunner { rn_host : Host; rn_calls : list UnitCall }.
Definition RM (E A : Type) : Type := Runner -> result E A * Runner.

Definition r_try {E F A B} (m : RM E A) (k : result E A -> RM F B) : RM F B := fun x => let '(r, x) := m x in k r x.
Definition r_ret {E A} (a : A) : RM E A := fun x => (Ok a, x).
Definition r_fail {E A} (e : E) : RM E A := fun x => (Err e, x).
Definition r_bind {E A B} (m : RM E A) (k : A -> RM E B) : RM E B :=
  r_try m (fun r => match r with Ok a => k a | Err e => r_fail e end).

Declare Scope runner_scope.
Notation "x ↩ m ; k" := (r_bind m (fun x => k)) (at level 20, m at level 100, k at level 200, right associativity) : runner_scope.
Notation "' p ↩ m ; k" := (r_bind m (fun x => match x with p => k end))
  (at level 20, p pattern, m at level 100, k at level 200, right associativity) : runner_scope.
#[local] Open Scope runner_scope.

Definition failed (message : rstr) : HookError := HErr.Failed message.

(** A computation of the monitor's library, its error as a hook error. *)
Definition on_host {E A} (g : E -> rstr) (m : MM E A) : RM HookError A := fun x =>
  let '(r, h) := m (rn_host x) in
  (match r with Ok a => Ok a | Err e => Err (failed (g e)) end, mkRunner h (rn_calls x)).

Definition ask {A} (c : Disk -> UnitCall) (answer : nat -> result HookError A) : RM HookError A := fun x =>
  (answer (length (rn_calls x)), mkRunner (rn_host x) (rn_calls x ++ [c (disk (fs (rn_host x)))])).

Definition some_or {A} (message : rstr) (o : option A) : RM HookError A :=
  match o with Some a => r_ret a | None => r_fail (failed message) end.

Section Runner.
Variable s : Setup.
Variable services : UnitControl.
(** The directory of the running binary, when it is known. *)
Variable exe_dir : option Path.
(** [serde_json] on the record. *)
Variable record_to_vec : MountRecord -> option rbytes.
Variable record_from_slice : rbytes -> option MountRecord.
#[local] Abbreviation ev := (env (w s)).

Definition hook_text (e : ProtoError) : rstr := match e with PErr.Io m => m | _ => [] end.

Definition trusted (dir : Path) : RM HookError () :=
  on_host hook_text (require_trusted_dir s dir (lit "mount record directory") Euid).

(** The closure [write]: a temporary file, renamed over the record. *)
Definition replace_record (dir : Path) (json : rbytes) : M Errno () :=
  let temp := join_name dir RECORD_TEMP in
  open_private ev temp 384 ≫= fun _ =>  (* 0o600 *)
  write_all ev temp json ≫= fun _ =>
  fsync ev temp ≫= fun _ =>
  rename ev temp (join_name dir RECORD).

Definition write_record (dir : Path) (r : MountRecord) : RM HookError () :=
  _ ↩ trusted dir;
  json ↩ some_or (lit "the record is not JSON") (record_to_vec r);
  on_host (fun e => lit "write the mount record: " ++ errno_text s e) (on_disk (replace_record dir json)).

Definition read_record (dir : Path) : RM HookError (option MountRecord) :=
  _ ↩ trusted dir;
  r_try (on_host (errno_text s) (attempt (on_disk (read_file ev (join_name dir RECORD))) (fun r => mret r))) (fun r =>
    match r with
    | Ok (Ok raw) =>
        match record_from_slice raw with
        | Some record => r_ret (Some record)
        | None => r_fail (failed (lit "the mount record is corrupt"))
        end
    | Ok (Err NOENT) => r_ret None
    | Ok (Err e) => r_fail (failed (lit "read the mount record: " ++ errno_text s e))
    | Err e => r_fail e
    end).

Definition forget_started (dir : Path) : RM HookError () :=
  _ ↩ trusted dir;
  r_try (on_host (errno_text s) (attempt (on_disk (unlink ev (join_name dir RECORD))) (fun r => mret r))) (fun r =>
    match r with
    | Ok (Ok _) | Ok (Err NOENT) => r_ret ()
    | Ok (Err e) => r_fail (failed (lit "remove the mount record: " ++ errno_text s e))
    | Err e => r_fail e
    end).

(** ** Protected mount points *)

Definition protected_paths : list Path :=
  (path_of_str <$> PROTECTED) ++ [state_root (config (allow s))] ++ option_list exe_dir.

Definition covers (mountpoint : rstr) (paths : list Path) : bool :=
  bool_decide (mountpoint = lit "/")
  || existsb (fun p => path_starts_with p (path_of_str mountpoint) || path_starts_with (path_of_str mountpoint) p) paths.

(** ** Starting *)

Definition state_of (found : list MountUnitState) (unit : rstr) : option UnitState :=
  mus_state <$> find (fun f => bool_decide (mus_unit f = unit)) found.

Definition started_state (after : list MountUnitState) (unit : rstr) : MountState * rstr :=
  match find (fun f => bool_decide (mus_unit f = unit)) after with
  | Some f => (match mus_state f with Active => MMounted | Activating => MPending | _ => MFailed end, mus_detail f)
  | None => (MFailed, lit "no state reported")
  end.

Definition file_text (b : rbytes) : RM HookError rstr := some_or (lit "the file is not UTF-8") (from_utf8 b).

Definition read_bytes (p : Path) : RM HookError (rbytes * Sha256Digest) :=
  on_host (atomic_text s) (on_disk (read_with_digest (w s) p)).

(** No call for an empty list. *)
Definition ask_units (c : list rstr -> Disk -> UnitCall) (answer : nat -> list rstr -> result HookError (list MountUnitState))
    (units : list rstr) : RM HookError (list MountUnitState) :=
  if is_empty units then r_ret [] else ask (c units) (fun n => answer n units).

Definition recorded_of (u : MountUnit) : Recorded := mkRecorded (mountpoint u) (unit_name u).

Definition mount_target (id : TargetId) : option TargetEntry :=
  match target (allow s) id with Some e => if bool_decide (te_kind e = Wire.File) then Some e else None | None => None end.

Definition start_added (dir : Path) (id : TargetId) : RM HookError (list MountOutcome) :=
  if negb (activate_mounts (config (allow s)))
  then r_fail (failed (lit "mount activation is off ([mounts] activate_new_entries)"))
  else
    entry ↩ some_or (lit "unknown file target") (mount_target id);
    added ↩ some_or (lit "the target's module declares no mounts") (module (allow s) (te_module entry) ≫= added_mounts);
    '(current, digest) ↩ read_bytes (te_path entry);
    backups ↩ on_host (atomic_text s) (on_disk (list_backups (w s) (te_backup_dir entry)));
    newest ↩ some_or (lit "no backup to compare the target with") (head backups);
    '(previous, _) ↩ read_bytes (b_path newest);
    old ↩ file_text previous;
    new ↩ file_text current;
    let units := added old new in
    let refused := filter (fun u => covers (mountpoint u) protected_paths = true) units in
    let allowed := filter (fun u => covers (mountpoint u) protected_paths = false) units in
    before ↩ ask_units AskedStates (mount_unit_states services) (unit_name <$> allowed);
    let to_start := recorded_of <$> filter (fun u => state_of before (unit_name u) <> Some Active) allowed in
    _ ↩ write_record dir (mkMountRecord (te_path entry) digest to_start);
    after ↩ ask_units StartedUnits (start_mount_units services) (rc_unit <$> to_start);
    r_ret (((fun u => mkMountOutcome (mountpoint u) (unit_name u) Protected []) <$> refused)
           ++ ((fun u =>
                  let '(state, detail) :=
                    if existsb (fun r => bool_decide (rc_unit r = unit_name u)) to_start
                    then started_state after (unit_name u) else (AlreadyMounted, []) in
                  mkMountOutcome (mountpoint u) (unit_name u) state detail) <$> allowed)).

(** ** Stopping *)

Definition declares (p : Path) : bool :=
  existsb (fun e => bool_decide (te_path e = p) && bool_decide (te_kind e = Wire.File)
                    && match module (allow s) (te_module e) with Some d => declares_mounts d | None => false end)
          (take 65536 (a_targets (allow s))).

Definition stopped_state (after : list MountUnitState) (unit : rstr) : MountState * rstr :=
  match find (fun f => bool_decide (mus_unit f = unit)) after with
  | Some f => (match mus_state f with Inactive => Stopped | _ => MFailed end, mus_detail f)
  | None => (MFailed, lit "no state reported")
  end.

Definition stop_started (dir : Path) : RM HookError (list MountOutcome) :=
  found ↩ read_record dir;
  match found with
  | None => r_ret []
  | Some record =>
      _ ↩ forget_started dir;
      if negb (declares (rec_path record)) then r_fail (failed (lit "the record names a target that declares no mounts"))
      else match find (fun r => negb (validate_mount_unit_name (rc_unit r))) (rec_units record) with
           | Some r => r_fail (failed (lit "invalid unit name: " ++ rc_unit r))
           | None =>
               '(_, digest) ↩ read_bytes (rec_path record);
               if negb (bool_decide (digest = rec_digest record))
               then r_fail (failed (lit "the file changed after the mounts were started; nothing was stopped"))
               else
                 let names := rc_unit <$> rec_units record in
                 if is_empty names then r_ret []
                 else
                   after ↩ ask (StoppedUnits names) (fun n => stop_mount_units services n names);
                   r_ret ((fun r => let '(state, detail) := stopped_state after (rc_unit r) in
                                    mkMountOutcome (rc_mountpoint r) (rc_unit r) state detail) <$> rec_units record)
           end
  end.

(** [record_dir]: the parent of the staging directory. *)
Definition record_dir (staging : Path) : option Path :=
  match parent staging with Some p => if bool_decide (p = mkPath false []) then None else Some p | None => None end.

End Runner.

(** ** Reasoning about the runner *)

Abbreviation Claims := (list UnitCall -> Disk -> Prop).

(** From [P] on the calls so far and the disk, [m] ends in [Q]. *)
Definition rspec {E A} (P : Claims) (m : RM E A) (Q : result E A -> Claims) : Prop :=
  forall x, P (rn_calls x) (disk (fs (rn_host x))) -> Q (m x).1 (rn_calls (m x).2) (disk (fs (rn_host (m x).2))).

Section Rules.
Context {E A : Type}.
Implicit Types P : Claims.

Lemma rs_post P (m : RM E A) (Q Q' : result E A -> Claims) : rspec P m Q' -> (forall r cs d, Q' r cs d -> Q r cs d) -> rspec P m Q.
Proof. intros H HQ x Hx. by apply HQ, H. Qed.

Lemma rs_pre P P' (m : RM E A) Q : rspec P' m Q -> (forall cs d, P cs d -> P' cs d) -> rspec P m Q.
Proof. intros H HP x Hx. by apply H, HP. Qed.

Lemma rs_ret P (a : A) (Q : result E A -> Claims) : (forall cs d, P cs d -> Q (Ok a) cs d) -> rspec P (r_ret a) Q.
Proof. intros H x. apply H. Qed.

Lemma rs_fail P (e : E) (Q : result E A -> Claims) : (forall cs d, P cs d -> Q (Err e) cs d) -> rspec P (r_fail e) Q.
Proof. intros H x. apply H. Qed.

Lemma rs_assume (C : Prop) P (m : RM E A) Q : (C -> rspec P m Q) -> rspec (fun cs d => C /\ P cs d) m Q.
Proof. intros H x [Hc Hp]. by apply H. Qed.

End Rules.

Lemma rs_try {E F A B} P (m : RM E A) (k : result E A -> RM F B) R Q :
  rspec P m R -> (forall r, rspec (R r) (k r) Q) -> rspec P (r_try m k) Q.
Proof. intros Hm Hk x Hx. unfold r_try. specialize (Hm x Hx). destruct (m x) as [r x']. by apply (Hk r x'). Qed.

Lemma rs_bind {E A B} P (m : RM E A) (k : A -> RM E B) R Q :
  rspec P m R -> (forall a, rspec (R (Ok a)) (k a) Q) -> (forall e cs d, R (Err e) cs d -> Q (Err e) cs d) -> rspec P (r_bind m k) Q.
Proof. intros Hm Hk He. eapply rs_try; [exact Hm|]. intros [a|e]; [apply Hk|by apply rs_fail, He]. Qed.

(** A step that keeps an assertion and yields a fact about its value. *)
Definition keeping {E A} (P : Claims) (m : RM E A) (R : A -> Prop) : Prop :=
  rspec P m (fun r cs d => P cs d /\ forall a, r = Ok a -> R a).

Lemma rs_keep {E A B} P (m : RM E A) (k : A -> RM E B) (R : A -> Prop) Q :
  keeping P m R -> (forall a, R a -> rspec P (k a) Q) -> (forall e cs d, P cs d -> Q (Err e) cs d) -> rspec P (r_bind m k) Q.
Proof.
  intros Hm Hk He. eapply rs_bind; [exact Hm| |by intros e cs d [? _]; apply He].
  intros a x [Hx Ha]. by apply (Hk a); [apply Ha|].
Qed.

Lemma keep_some {A} P msg (o : option A) : keeping P (some_or msg o) (fun a => o = Some a).
Proof. destruct o; intros x Hx; simpl; naive_solver. Qed.

Definition lifted {E A} (g : E -> rstr) (r : result E A) : result HookError A :=
  match r with Ok a => Ok a | Err e => Err (failed (g e)) end.

Lemma rs_host {E A} P (g : E -> rstr) (m : MM E A) Q :
  (forall cs, hspec (fun _ => True) (fun _ => True) (fun _ d => P cs d) m (fun r _ d => Q (lifted g r) cs d)) ->
  rspec P (on_host g m) Q.
Proof.
  intros H x Hx. unfold on_host. destruct (H (rn_calls x) (rn_host x) Hx) as (_ & _ & HQ).
  by destruct (m (rn_host x)) as [r h].
Qed.

Lemma rs_disk {E A} P (g : E -> rstr) (m : M E A) Q :
  (forall cs, spec (fun _ => True) (P cs) m (fun r d => Q (lifted g r) cs d)) -> rspec P (on_host g (on_disk m)) Q.
Proof. intros H. apply rs_host. intros cs. apply h_disk. intros _. apply H. Qed.

(** What reads changes nothing. *)
Lemma spec_within_none {E A} (P : Disk -> Prop) (m : M E A) R :
  within (fun _ => False) m R -> spec (fun _ => True) P m (fun r d => P d /\ forall a, r = Ok a -> R a).
Proof.
  intros H st Hst. destruct (H (disk st) st (near_refl _ _)) as [(new & E1 & _) [[Ha _] HR]].
  split; [exists new; split; [done|by apply Forall_true]|]. split; [|done].
  enough (disk (m st).2 = disk st) as -> by done. apply map_eq. intros p. apply Ha. intros [].
Qed.

Lemma keep_read {E A} P (g : E -> rstr) (m : M E A) R : within (fun _ => False) m R -> keeping P (on_host g (on_disk m)) R.
Proof.
  intros H. apply rs_disk. intros cs. eapply spec_post; [by apply spec_within_none|].
  intros [a|e] d [Hd Hr]; (split; [exact Hd|]); intros a' Ea; [|discriminate Ea]. injection Ea as <-. by apply Hr.
Qed.

Section Specs.
Variable s : Setup.
Variable services : UnitControl.
Variable exe_dir : option Path.
Variable record_to_vec : MountRecord -> option rbytes.
Variable record_from_slice : rbytes -> option MountRecord.

Lemma keep_trusted P dir : keeping P (trusted s dir) (fun _ => True).
Proof.
  unfold trusted. apply rs_host. intros cs.
  eapply h_post with (Q' := fun _ _ d => P cs d); [|by intros [] ? ? ?].
  assert (Hr : forall {E A} (m : M E A), within (fun _ => False) m (fun _ => True) ->
    hspec (fun _ => True) (fun _ => True) (fun _ d => P cs d) (on_disk m) (fun _ _ d => P cs d)).
  { intros E A m Hm. apply h_disk. intros _. eapply spec_post; [by apply spec_within_none|]. by intros ? ? []. }
  unfold require_trusted_dir. eapply h_bind with (R := fun _ _ d => P cs d); [| |done].
  - eapply h_attempt; [apply Hr, in_open_directory|]. intros [?|[]]; first [by apply h_ret|by apply h_fail].
  - intros ?. eapply h_bind with (R := fun _ _ d => P cs d); [apply h_catch; eapply h_post; [apply Hr, in_stat|done]| |done].
    intros n. destruct n; try by apply h_fail. destruct (_ && _); [by apply h_ret|by apply h_fail].
Qed.

(** A read returns the contents of the file and their digest. *)
Lemma rs_read_bytes P p :
  rspec P (read_bytes s p) (fun r cs d => P cs d /\ forall b digest, r = Ok (b, digest) ->
    exists f, d !! p = Some (Regular f) /\ b = contents f /\ digest = sha256 (w s) b).
Proof.
  unfold read_bytes. apply rs_disk. intros cs. destruct (split_path p) as [[dir name]|e] eqn:E.
  - eapply spec_post; [eapply (read_with_digest_spec (w s) (fun _ => True) (P cs)); [exact E|done]|].
    intros [[b dg]|e] d; [|by intros [? _]]. intros [Hd (f & Hf & Hx)]. split; [done|].
    intros ? ? [= <- <-]. exists f. by simplify_eq.
  - unfold read_with_digest. rewrite E. by apply spec_throw.
Qed.

Lemma rs_ask_units P c answer units :
  rspec P (ask_units c answer units) (fun _ cs d => P cs d \/ exists cs0, cs = cs0 ++ [c units d] /\ P cs0 d).
Proof. unfold ask_units. destruct (is_empty units); intros x Hx; simpl; [by left|right; eauto]. Qed.

(** The files a record is written to. *)
Definition spare (dir p : Path) : Prop := p = join_name dir RECORD_TEMP \/ p = join_name dir RECORD.

Lemma in_replace_record dir json : within (spare dir) (replace_record s dir json) (fun _ => True).
Proof.
  eapply in_bind; [apply in_open_private; by left|]. intros ? _.
  eapply in_bind; [apply in_write_all; by left|]. intros ? _.
  eapply in_bind; [apply in_fsync|]. intros ? _. apply in_rename; [by left|by right].
Qed.

Lemma write_ops_json dir json (P : Disk -> Prop) :
  spec (fun _ => True) P (replace_record s dir json)
    (fun r d => r = Ok () -> exists f, d !! join_name dir RECORD = Some (Regular f) /\ contents f = json).
Proof.
  unfold replace_record. cbv zeta. set (temp := join_name dir RECORD_TEMP).
  eapply spec_bind with (R := on_ok (fun _ d => exists f, d !! temp = Some (Regular f) /\ contents f = []) (fun _ _ => True)); [| |done].
  { apply spec_sys; [|done]. intros n d _. destruct (d !! temp) as [[]|]; simpl; try done;
      (split; [done|]; eexists; split; [apply lookup_insert_eq|done]). }
  intros ?. eapply spec_bind with (R := on_ok (fun _ d => exists f, d !! temp = Some (Regular f) /\ contents f = json) (fun _ _ => True)); [| |done].
  { apply spec_write_all; [done| |done]. intros t d (f & Hf & Hc). eexists. split; [by apply on_file_eq|]. simpl. by rewrite Hc. }
  intros ?. eapply spec_bind with (R := on_ok (fun _ d => exists f, d !! temp = Some (Regular f) /\ contents f = json) (fun _ _ => True)); [| |done].
  { apply spec_read; [done|done|by intros n d ?|done]. }
  intros ?. apply spec_sys; [|by intros]. intros n d (f & Hf & Hc). split; [done|]. simpl. rewrite Hf.
  destruct (d !! join_name dir RECORD) as [[]|]; intros H; try done; exists f; (split; [apply lookup_insert_eq|done]).
Qed.

Definition recorded (dir : Path) (r : MountRecord) (d : Disk) : Prop :=
  exists f, d !! join_name dir RECORD = Some (Regular f) /\ record_to_vec r = Some (contents f).

Lemma rs_write_record P dir r :
  rspec P (write_record s record_to_vec dir r)
    (fun res cs d => exists d0, P cs d0 /\ near (spare dir) d0 d /\ (res = Ok () -> recorded dir r d)).
Proof.
  unfold write_record. eapply rs_keep; [apply keep_trusted| |by intros e cs d; exists d; split_and!; [|apply near_refl|]].
  intros ? _. eapply rs_keep; [apply keep_some| |by intros e cs d; exists d; split_and!; [|apply near_refl|]].
  intros json Hj. apply rs_disk. intros cs st Hst. 
  destruct (in_replace_record dir json (disk st) st (near_refl _ _)) as [(new & E & Hn) [H1 _]].
  destruct (write_ops_json dir json (fun _ => True) st I) as [_ H2].
  split; [exists new; split; [done|by apply Forall_true]|]. exists (disk st). split_and!; [done|done|].
  destruct (_ st).1 as [[]|]; [|done]. intros _. destruct (H2 eq_refl) as (f & Hf & <-). by exists f.
Qed.

(** *** Starting *)

(** A record that tells what is on the disk [d0]: the target's contents, and
    units the module lists for them against a backup, none of them over a
    protected path. *)
Definition truthful (d0 : Disk) (id : TargetId) (r : MountRecord) : Prop :=
  exists entry added current backup before old new,
    mount_target s id = Some entry
    /\ module (allow s) (te_module entry) ≫= added_mounts = Some added
    /\ activate_mounts (config (allow s)) = true
    /\ rec_path r = te_path entry
    /\ d0 !! te_path entry = Some (Regular current) /\ rec_digest r = sha256 (w s) (contents current)
    /\ parent backup = Some (te_backup_dir entry) /\ d0 !! backup = Some (Regular before)
    /\ from_utf8 (contents before) = Some old /\ from_utf8 (contents current) = Some new
    /\ forall u, u ∈ rec_units r -> exists m, m ∈ added old new /\ u = recorded_of m
         /\ covers (mountpoint m) (protected_paths s exe_dir) = false.

Definition start_call (d0 : Disk) (dir : Path) (id : TargetId) (c : UnitCall) : Prop :=
  match c with
  | AskedStates _ d => d = d0
  | StartedUnits names d =>
      near (spare dir) d0 d
      /\ exists r, truthful d0 id r /\ names = rc_unit <$> rec_units r /\ recorded dir r d
  | StoppedUnits _ _ => False
  end.

Lemma rs_start_added dir id d0 :
  rspec (fun cs d => cs = [] /\ d = d0) (start_added s services exe_dir record_to_vec dir id)
    (fun _ cs d => near (spare dir) d0 d /\ Forall (start_call d0 dir id) cs).
Proof.
  set (start := fun cs d => cs = [] /\ d = d0).
  assert (Hend : forall cs d, start cs d -> near (spare dir) d0 d /\ Forall (start_call d0 dir id) cs).
  { intros cs d [-> ->]. split; [apply near_refl|constructor]. }
  unfold start_added. destruct (activate_mounts _) eqn:Ea; [|by apply rs_fail]. cbn [negb].
  eapply rs_keep; [apply keep_some|intros entry He|by auto].
  eapply rs_keep; [apply keep_some|intros added Hadd|by auto].
  eapply rs_bind; [apply rs_read_bytes|intros [current digest]|by intros ? ? ? [? _]; auto].
  eapply rs_pre with (P' := fun cs d => (exists fc, d0 !! te_path entry = Some (Regular fc) /\ current = contents fc
      /\ digest = sha256 (w s) (contents fc)) /\ start cs d).
  2: { intros cs d [[-> ->] Hf]. destruct (Hf _ _ eq_refl) as (f & ? & -> & ->). split; [by exists f|done]. }
  apply rs_assume. intros (fc & Hc & -> & ->).
  eapply rs_keep; [apply keep_read, in_list_backups|intros backups Hb|by auto].
  eapply rs_keep; [apply keep_some|intros newest Hn|by auto].
  eapply rs_bind; [apply rs_read_bytes|intros [previous dg]|by intros ? ? ? [? _]; auto].
  eapply rs_pre with (P' := fun cs d => (exists fb, d0 !! b_path newest = Some (Regular fb) /\ previous = contents fb) /\ start cs d).
  2: { intros cs d [[-> ->] Hf]. destruct (Hf _ _ eq_refl) as (f & ? & -> & _). split; [by exists f|done]. }
  apply rs_assume. intros (fb & Hp & ->).
  eapply rs_keep; [apply keep_some|intros old Ho|by auto]. eapply rs_keep; [apply keep_some|intros new Hw|by auto]. cbv zeta.
  eapply rs_bind; [apply rs_ask_units|intros before|].
  2: { intros ? cs d [?|(cs0 & -> & -> & ->)]; [by auto|]. split; [apply near_refl|by repeat constructor]. }
  set (units := added old new). set (allowed := filter _ units). set (to_start := recorded_of <$> _).
  set (r := mkMountRecord (te_path entry) (sha256 (w s) (contents fc)) to_start).
  assert (Hr : truthful d0 id r).
  { exists entry, added, fc, (b_path newest), fb, old, new. split_and!; try done.
    - destruct backups as [|b bs]; [done|]. injection Hn as ->. apply Forall_cons in Hb as [[n ->] _]. apply parent_join.
    - intros u (m & -> & Hm)%list_elem_of_fmap. apply list_elem_of_filter in Hm as [_ Hm].
      apply list_elem_of_filter in Hm as [Hm1 Hm2]. by exists m. }
  set (mid := fun (cs : list UnitCall) (d : Disk) => d = d0 /\ Forall (start_call d0 dir id) cs).
  eapply rs_pre with (P' := mid).
  2: { intros cs d [[-> ->]|(cs0 & -> & -> & ->)]; (split; [done|]); by repeat constructor. }
  eapply rs_bind; [apply rs_write_record|intros []|].
  2: { intros ? cs d (d1 & [-> ?] & ? & _). by split. }
  eapply rs_pre with (P' := fun cs d => (near (spare dir) d0 d /\ Forall (start_call d0 dir id) cs) /\ recorded dir r d).
  2: { intros cs d (d1 & [-> ?] & ? & Hrec). split; [done|by apply Hrec]. }
  assert (Hlast : forall cs d, ((near (spare dir) d0 d /\ Forall (start_call d0 dir id) cs) /\ recorded dir r d)
      \/ (exists cs0, cs = cs0 ++ [StartedUnits (rc_unit <$> to_start) d]
            /\ (near (spare dir) d0 d /\ Forall (start_call d0 dir id) cs0) /\ recorded dir r d) ->
      near (spare dir) d0 d /\ Forall (start_call d0 dir id) cs).
  { intros cs d [[? _]|(cs0 & -> & [Hn' Hcs] & Hrec)]; [done|]. split; [done|]. apply Forall_app. split; [done|].
    constructor; [|constructor]. split; [done|]. by exists r. }
  eapply rs_bind; [apply rs_ask_units|intros after; apply rs_ret; exact Hlast|intros ? cs d; exact (Hlast cs d)].
Qed.

(** *** Stopping *)

(** A file operation whose error is looked at. *)
Lemma rs_attempt {E A} P (g : E -> rstr) (m : M Errno A) Q :
  (forall cs, spec (fun _ => True) (P cs) m (fun r d => Q (Ok r) cs d)) ->
  rspec P (on_host g (attempt (on_disk m) (fun r => mret r))) Q.
Proof.
  intros H. apply rs_host. intros cs. eapply h_attempt; [apply h_disk; intros x; apply H|]. intros r. by apply h_ret.
Qed.

Lemma spec_read_file (P : Disk -> Prop) p :
  spec (fun _ => True) P (read_file (env (w s)) p)
    (fun r d => P d /\ forall b, r = Ok b -> exists f, d !! p = Some (Regular f) /\ b = contents f).
Proof.
  unfold read_file. eapply spec_bind with (R := fun _ d => P d); [|intros f|by intros e d ?].
  - by apply spec_read.
  - apply spec_read; [done|done| |done]. intros n d Hd. split; [done|]. simpl.
    destruct (d !! p) as [[f0| | |]|]; intros b E; try discriminate E. injection E as <-. by exists f0.
Qed.

Lemma rs_read_record P dir :
  rspec P (read_record s record_from_slice dir) (fun r cs d => P cs d /\ forall record, r = Ok (Some record) ->
    exists f, d !! join_name dir RECORD = Some (Regular f) /\ record_from_slice (contents f) = Some record).
Proof.
  unfold read_record. eapply rs_keep; [apply keep_trusted|intros ? _|by intros ? cs d ?].
  eapply rs_try with (R := fun r cs d => P cs d /\ forall b, r = Ok (Ok b) ->
    exists f, d !! join_name dir RECORD = Some (Regular f) /\ b = contents f).
  { apply rs_attempt. intros cs. eapply spec_post; [apply spec_read_file|]. intros r d [Hd Hb]. split; [done|].
    intros b [= Hr]. by apply Hb. }
  intros [[raw|[]]|e]; try (first [apply rs_ret|apply rs_fail]; by intros cs d [? _]).
  destruct (record_from_slice raw) as [record|] eqn:E; [apply rs_ret|apply rs_fail; by intros cs d [? _]].
  intros cs d [Hd Hf]. split; [done|]. intros ? [= <-]. destruct (Hf raw eq_refl) as (f & ? & ->). by exists f.
Qed.

Lemma rs_forget_started P dir :
  rspec P (forget_started s dir) (fun r cs d => exists d0, P cs d0 /\ near (spare dir) d0 d
    /\ (r = Ok () -> d !! join_name dir RECORD = None)).
Proof.
  unfold forget_started.
  eapply rs_keep; [apply keep_trusted|intros ? _|by intros ? cs d ?; exists d; split_and!; [|apply near_refl|]].
  eapply rs_try; [apply rs_attempt with (Q := fun r cs d => exists d0, P cs d0 /\ near (spare dir) d0 d
    /\ (r = Ok (Ok ()) \/ r = Ok (Err NOENT) -> d !! join_name dir RECORD = None))|].
  - intros cs. apply spec_sys.
    + intros n d Hd. split; [done|]. destruct (d !! join_name dir RECORD) as [[| | |]|] eqn:E; simpl;
        (exists d); (split; [done|]);
        try (split; [apply near_delete; [by right|naive_solver congruence]|intros _; apply lookup_delete_eq]);
        (split; [apply near_refl|]); try done; by intros [?|?].
    + intros f d Hd _. exists d. split_and!; [done|apply near_refl|]. by destruct f; intros [?|?].
  - intros [[[]|[]]|e]; first [apply rs_ret|apply rs_fail]; intros cs d (d0 & ? & ? & H); exists d0; split_and!; auto; done.
Qed.

Definition stop_call (d0 : Disk) (dir : Path) (c : UnitCall) : Prop :=
  match c with
  | StoppedUnits names d =>
      near (spare dir) d0 d /\ d !! join_name dir RECORD = None
      /\ exists f record current,
           d0 !! join_name dir RECORD = Some (Regular f) /\ record_from_slice (contents f) = Some record
           /\ names = rc_unit <$> rec_units record
           /\ Forall (fun n => validate_mount_unit_name n = true) names /\ declares s (rec_path record) = true
           /\ d !! rec_path record = Some (Regular current) /\ sha256 (w s) (contents current) = rec_digest record
  | _ => False
  end.

Lemma rs_stop_started dir d0 :
  rspec (fun cs d => cs = [] /\ d = d0) (stop_started s services record_from_slice dir)
    (fun _ cs d => near (spare dir) d0 d /\ Forall (stop_call d0 dir) cs).
Proof.
  assert (Hend : forall cs d, cs = [] /\ d = d0 -> near (spare dir) d0 d /\ Forall (stop_call d0 dir) cs).
  { intros cs d [-> ->]. split; [apply near_refl|constructor]. }
  unfold stop_started. eapply rs_bind; [apply rs_read_record|intros found|by intros ? cs d [? _]; auto].
  destruct found as [record|]; [|by apply rs_ret; intros cs d [? _]; auto].
  eapply rs_pre with (P' := fun cs d => (exists f, d0 !! join_name dir RECORD = Some (Regular f)
    /\ record_from_slice (contents f) = Some record) /\ cs = [] /\ d = d0).
  2: { intros cs d [[-> ->] Hf]. by destruct (Hf record eq_refl) as (f & ? & ?); split; [exists f|]. }
  apply rs_assume. intros (f & Hf & Hrec).
  eapply rs_bind; [apply rs_forget_started|intros []|by intros ? cs d (d1 & [-> ->] & ? & _); split; [|constructor]].
  eapply rs_pre with (P' := fun cs d => cs = [] /\ near (spare dir) d0 d /\ d !! join_name dir RECORD = None).
  2: { intros cs d (d1 & [-> ->] & ? & Hn). split_and!; auto. }
  assert (Hquiet : forall cs d, cs = [] /\ near (spare dir) d0 d /\ d !! join_name dir RECORD = None ->
    near (spare dir) d0 d /\ Forall (stop_call d0 dir) cs) by (intros cs d (-> & ? & _); by split; [|constructor]).
  destruct (declares s (rec_path record)) eqn:Edecl; [|by apply rs_fail]. cbn [negb].
  destruct (find _ (rec_units record)) as [bad|] eqn:Ev; [by apply rs_fail|].
  eapply rs_bind; [apply rs_read_bytes|intros [b digest]|by intros ? cs d [? _]; auto].
  destruct (bool_decide_reflect (digest = rec_digest record)) as [->|]; [|by apply rs_fail; intros cs d [? _]; auto]. cbn [negb].
  destruct (is_empty _); [by apply rs_ret; intros cs d [? _]; auto|].
  eapply rs_bind with (R := fun _ cs d => near (spare dir) d0 d /\ Forall (stop_call d0 dir) cs); [|intros after; by apply rs_ret|done].
  intros x [(Hcs & Hn & Hno) Hread]. cbn [ask fst snd rn_calls rn_host]. split; [done|]. rewrite Hcs. constructor; [|constructor].
  destruct (Hread _ _ eq_refl) as (current & Hcur & -> & Hdig). split_and!; [done|done|].
  exists f, record, current. split_and!; try done. apply Forall_fmap, Forall_forall. intros r Hr.
  apply list_elem_of_In in Hr. pose proof (find_none _ _ Ev r Hr) as Hv. by apply negb_false_iff in Hv.
Qed.
End Specs.

(** ** Properties *)

(** C17: Mount activation records first. Whatever fails and whatever the init
    system answers, the runner starts nothing that is not, at that moment, in
    the record on the disk, and the record is truthful: activation is on, the
    target is a file of a module that declares mounts, the digest is that of the
    target's contents, and each unit is one the module lists for those contents
    against a backup, its mount point neither [/] nor over, under or equal to a
    protected path. Nothing but the record is written, and nothing is stopped. *)
Theorem mounts_recorded_first (s : Setup) (services : UnitControl) (exe_dir : option Path)
    (record_to_vec : MountRecord -> option rbytes) (dir : Path) (id : TargetId) (x : Runner) :
  rn_calls x = [] ->
  let x' := (start_added s services exe_dir record_to_vec dir id x).2 in
  near (spare dir) (disk (fs (rn_host x))) (disk (fs (rn_host x')))
  /\ Forall (start_call s exe_dir record_to_vec (disk (fs (rn_host x))) dir id) (rn_calls x').
Proof. intros Hx. by apply (rs_start_added s services exe_dir record_to_vec dir id (disk (fs (rn_host x))) x). Qed.

(** C18: A rollback unmounts what was mounted, and nothing else. With a
    serialiser that reads back what it wrote: if an earlier start started some
    units and the record is still the one of that moment, then units the
    rollback stops are exactly those, the target's contents still have the
    digest they had then, and the record is gone before they are stopped. With
    no record, or another content, nothing is stopped. *)
Theorem mounts_undone_exactly (s : Setup) (services services' : UnitControl) (exe_dir : option Path)
    (record_to_vec : MountRecord -> option rbytes) (record_from_slice : rbytes -> option MountRecord)
    (dir : Path) (id : TargetId) (x y : Runner) (names names' : list rstr) (d d' : Disk) :
  (forall r b, record_to_vec r = Some b -> record_from_slice b = Some r) ->
  rn_calls x = [] -> rn_calls y = [] ->
  StartedUnits names d ∈ rn_calls (start_added s services exe_dir record_to_vec dir id x).2 ->
  disk (fs (rn_host y)) !! join_name dir RECORD = d !! join_name dir RECORD ->
  StoppedUnits names' d' ∈ rn_calls (stop_started s services' record_from_slice dir y).2 ->
  names' = names
  /\ d' !! join_name dir RECORD = None
  /\ exists entry before after, mount_target s id = Some entry
       /\ disk (fs (rn_host x)) !! te_path entry = Some (Regular before)
       /\ d' !! te_path entry = Some (Regular after)
       /\ sha256 (w s) (contents after) = sha256 (w s) (contents before).
Proof.
  intros Hserde Hx Hy Hstart Hsame Hstop.
  destruct (rs_start_added s services exe_dir record_to_vec dir id (disk (fs (rn_host x))) x) as [_ H1]; [done|].
  destruct (rs_stop_started s services' record_from_slice dir (disk (fs (rn_host y))) y) as [_ H2]; [done|].
  rewrite Forall_forall in H1, H2. destruct (H1 _ Hstart) as (_ & r & Ht & -> & f & Hf & Hj).
  destruct (H2 _ Hstop) as (_ & Hgone & f' & r' & cur & Hf' & Hj' & -> & _ & _ & Hcur & Hdig).
  rewrite Hsame, Hf in Hf'. injection Hf' as <-. rewrite (Hserde _ _ Hj) in Hj'. injection Hj' as <-.
  split_and!; [done|done|].
  destruct Ht as (entry & added & current & backup & before & old & new & He & _ & _ & Hp & Hc & Hd & _).
  exists entry, current, cur. rewrite Hp in Hcur. rewrite Hd in Hdig. done.
Qed.
