(* ===== verification/MonitorDemo.v ===== *)
(** * A monitor on a small host

    One module that owns [/etc/hosts], one validator and one service: the setting
    in which the properties of the monitor are tried out. JSON is any encoding
    that has no meaningful beginnings; here a record is a single number. *)

From Stdlib Require Import ZArith.
From stdpp Require Import gmap sorting.
From S2P Require Import Prelude Str Num Ip Utf8 Doc Diag Descriptor Disk Atomic Proto Transport Allow ExecDeny Hooks Monitor.
#[local] Open Scope Z_scope.

(** ** Records as numbers *)

#[export] Instance InPlaceMarker_eq_dec : EqDecision InPlaceMarker. Proof. solve_decision. Defined.
#[export] Instance InPlaceMarker_countable : Countable InPlaceMarker.
Proof.
  refine (inj_countable' (fun m => (m_path m, m_backup m, m_prev m, m_new m)) (fun x => mkMarker x.1.1.1 x.1.1.2 x.1.2 x.2) _).
  by intros [].
Defined.

#[export] Instance wire_action_eq_dec : EqDecision Wire.ServiceAction. Proof. solve_decision. Defined.
#[export] Instance wire_action_countable : Countable Wire.ServiceAction.
Proof.
  refine (inj_countable
    (fun a => match a with Wire.Restart => 0 | Wire.Reload => 1 | Wire.Start => 2 | Wire.Stop => 3 | Wire.Status => 4 end)%nat
    (fun n => match n with 0 => Some Wire.Restart | 1 => Some Wire.Reload | 2 => Some Wire.Start | 3 => Some Wire.Stop
              | _ => Some Wire.Status end)%nat _).
  by intros [].
Defined.
#[export] Instance PendingService_eq_dec : EqDecision PendingService. Proof. solve_decision. Defined.
#[export] Instance PendingService_countable : Countable PendingService.
Proof. refine (inj_countable' (fun p => (ps_binding p, ps_action p)) (fun x => mkPendingService x.1 x.2) _). by intros []. Defined.
#[export] Instance RollbackEntry_eq_dec : EqDecision RollbackEntry. Proof. solve_decision. Defined.
#[export] Instance RollbackEntry_countable : Countable RollbackEntry.
Proof.
  refine (inj_countable' (fun e => (rb_target e, rb_path e, rb_backup e, rb_new_digest e)) (fun x => mkRollback x.1.1.1 x.1.1.2 x.1.2 x.2) _).
  by intros [].
Defined.
#[export] Instance PendingCommitMarker_eq_dec : EqDecision PendingCommitMarker. Proof. solve_decision. Defined.
#[export] Instance PendingCommitMarker_countable : Countable PendingCommitMarker.
Proof.
  refine (inj_countable' (fun m => (pm_commit m, pm_deadline_unix_ms m, pm_entries m, pm_service m))
    (fun x => mkPendingMarker x.1.1.1 x.1.1.2 x.1.2 x.2) _).
  by intros [].
Defined.

Definition as_number {X} `{Countable X} (x : X) : option rbytes := Some [Npos (countable.encode x)].
Definition of_number {X} `{Countable X} (b : rbytes) : option X := match b with [Npos n] => countable.decode n | _ => None end.

Lemma of_as_number {X} `{Countable X} (x : X) j : as_number x = Some j -> of_number j = Some x.
Proof. intros [= <-]. apply countable.decode_encode. Qed.

Lemma of_number_part {X} `{Countable X} (x : X) j k : as_number x = Some j -> take k j <> j -> of_number (X := X) (take k j) = None.
Proof. intros [= <-] Hk. by destruct k as [|[]]. Qed.

(** ** The host *)

Module Lab.

Definition p (l : list rstr) : Path := mkPath true (Normal <$> l).
Definition etc : Path := p [lit "etc"].
Definition hosts : Path := p [lit "etc"; lit "hosts"].
Definition state : Path := p [lit "var"; lit "detent"].
Definition backups : Path := p [lit "var"; lit "detent"; lit "backups"; lit "hosts"; lit "0"].

Definition etc_hosts : Target := mkTarget (lit "/etc/hosts") Kind.File 420 Root (fun _ => true).
Definition validator : ExternalCheck := mkCheck (lit "/usr/bin/check") [TempFile] ExitZero [] None false.
Definition resolver : ServiceBinding := mkBinding (mkUnits [lit "nscd.service"] [] []) [Core.Restart] [] [].
Definition hosts_module : ModuleDescriptor :=
  mkDescriptor (lit "hosts") (lit "hosts-name") [etc_hosts] (mkUpstream [] [] [] None []) [resolver] [validator] true false None [].

Definition allow : Allowlist :=
  match from_modules [hosts_module] (with_state_root state) with
  | Ok a => a
  | Err _ => mkAllowlist default_config [] [] [] [] ∅
  end.

Definition parser : DynModule := mkDyn (lit "hosts") rstr (fun text => Ok text) (fun _ _ => Ok []).

Definition hooks : Hooks :=
  mkHooks true
    (fun _ _ _ => Ok (mkCheckOutcome 0 true (Some 0) []))
    (fun _ _ _ => Ok (mkServiceOutcome 0 true []))
    (fun _ _ => Ok (mkUnitStatus (lit "nscd.service") Active None None))
    (fun _ => Ok []) (fun _ _ => Ok []) (fun _ => Ok []) (fun _ => Ok ()) (fun _ _ => Ok AlreadyRunning).

(** [first] tells one run of the host from another: its temporary files and its
    backups have other names. *)
Definition world (first : rchar) (faults : nat -> option (Fault * nat)) : World :=
  mkWorld (mkEnv faults Z.of_nat Z.of_nat (0, 0)) (fun b => Z.of_N <$> b) as_number
    (fun t => Some (first :: lit "T" ++ show_dec t ++ lit "Z")) (fun i => Z.of_N first + Z.of_nat i).

Definition setup (first : rchar) (faults : nat -> option (Fault * nat)) : Setup :=
  mkSetup (world first faults) allow hooks (fun n => 1000000000 * Z.of_nat n) (2 ^ 64) as_number of_number of_number
    (fun _ => lit "error") (fun _ => lit "error") (fun _ => lit "error") [parser] (mkProfile Linux Systemd (lit "host") ∅ 512)
    (p [lit "run"; lit "detent"; lit "staging"]) 0 (fun _ => 0) (fun i => show_dec (Z.of_nat i)) 4 false
    (fun _ => Err NotNewer) (lit "1.0.0") true.

Definition quiet : nat -> option (Fault * nat) := fun _ => None.

Definition file (b : rbytes) : File := mkFile b 420 (0, 0) [] 7 0.
Definition before : Disk :=
  list_to_map [(p [lit "etc"], Directory 493); (hosts, Regular (file (lit "old"))); (p [lit "var"], Directory 493);
               (state, Directory 493)].
Definition host (d : Disk) : Host := mkHost (start d) new_monitor [] [] [] 0.

Definition ask (r : Request) : Turn := mkTurn None (Ok (Some r)) None.
Definition wait : Turn := mkTurn None (Ok None) None.
Definition hello : Turn := ask (Req.Hello PROTO_VERSION).
Definition write (b : rbytes) : Turn := ask (Req.WriteTarget 0 None b true).
Definition arm (timeout_s : Z) : Turn := ask (Req.StartConfirmTimer 1 timeout_s (Some (mkPendingService 0 Wire.Restart))).
Definition confirm : Turn := ask (Req.ConfirmCommit 1).

Definition at_path (q : Path) (d : Disk) : option rbytes :=
  match d !! q with Some (Regular f) => Some (contents f) | _ => None end.

Definition session (turns : list Turn) : result MonitorError ExitReason * Host := serve (setup 97 quiet) 5000 turns (host before).

(** A confirmed commit stays; one that is not confirmed in time, or whose session
    ends, is taken back. *)
Example confirmed : let '(r, h) := session [hello; write (lit "new"); arm 60; confirm] in
  r = Ok PeerClosed /\ at_path hosts (disk (fs h)) = Some (lit "new") /\ at_path (marker_path (setup 97 quiet)) (disk (fs h)) = None.
Proof. by vm_compute. Qed.

Example unconfirmed : let '(r, h) := session [hello; write (lit "new"); arm 60] in
  r = Ok PeerClosed /\ at_path hosts (disk (fs h)) = Some (lit "old") /\ trace h = [RanCheck validator (join_name etc (CANDIDATE_PREFIX ++ lit "0")); ActedOn resolver Core.Restart].
Proof. by vm_compute. Qed.

Example expired : let '(r, h) := session [hello; write (lit "new"); arm 2; wait; wait; wait; wait; confirm] in
  r = Ok PeerClosed /\ at_path hosts (disk (fs h)) = Some (lit "old") /\ last (sent h) = Some (unknown Ids.Commit 1).
Proof. by vm_compute. Qed.

End Lab.
