(* ===== verification/MountDemo.v ===== *)
(** * Mount activation on a small host

    The [mounts] module, the runner and a monitor's allow-list together: an
    [/etc/fstab] that gains an entry, its units started and, on a rollback,
    stopped. *)

From Stdlib Require Import ZArith.
From stdpp Require Import gmap.
From S2P Require Import Prelude Str Num Ip Utf8 Doc Diag Mounts Descriptor Disk Atomic Proto Allow Hooks Monitor MountRun MonitorDemo.
#[local] Open Scope Z_scope.

(** ** Unit names of the module are names the runner accepts *)

Lemma ends_app pat s : ends pat (s ++ pat) = true.
Proof. unfold ends. apply bool_decide_true. by apply suffix_app_r. Qed.

Lemma strip_suffix_app pat s : strip_suffix_str pat (s ++ pat) = Some s.
Proof.
  unfold strip_suffix_str. rewrite ends_app, length_app. do 2 f_equal.
  replace (length s + length pat - length pat)%nat with (length s) by lia. by rewrite take_app_length.
Qed.

Lemma automount_not_mount s : strip_suffix_str (lit ".mount") (s ++ lit ".automount") = None.
Proof.
  unfold strip_suffix_str, ends. rewrite bool_decide_false; [done|]. intros [k Hk].
  change (lit ".automount") with (lit ".aut" ++ lit "omount") in Hk. rewrite (assoc_L (++)) in Hk.
  apply app_inj_2 in Hk as [_ Hk]; done.
Qed.

(** Every unit the mounts module lists for a mount point other than [/],
    with a name of at most 256 bytes, is one the runner's check of unit names
    lets through. So a rollback is never held up by a name it started. *)
Theorem listed_names_accepted (previous current : rstr) (u : MountUnit) :
  u ∈ Mounts.added_mounts previous current -> Descriptor.mountpoint u <> lit "/" ->
  Forall is_char (Descriptor.mountpoint u) -> (str_len (unit_name u) <= MAX_UNIT_NAME_LEN)%nat ->
  validate_mount_unit_name (unit_name u) = true.
Proof.
  intros Hu Hroot Hc Hlen. destruct (added_units_ok previous current) as [Hs _ _].
  destruct (Hs u Hu) as (e & _ & (_ & Hn & _) & Eu). clear Hu.
  destruct u as [p name]. injection Eu as ->. cbn [unit_name Descriptor.mountpoint] in *.
  apply normalized_normal in Hn. destruct (escape_path_safe _ Hn Hc) as (Hsafe & Hne & Hdash).
  unfold validate_mount_unit_name. rewrite (proj2 (Nat.leb_le _ _) Hlen). cbn [andb].
  assert (negb (is_empty (escape_path p)) && negb (starts_with 45%N (escape_path p)) = true) as Hstem.
  { apply andb_true_iff. split; [by destruct (escape_path p)|]. destruct (starts_with _ _); [|done]. by specialize (Hdash eq_refl). }
  assert (forallb unit_name_char (escape_path p) = true) as Hchars.
  { apply forallb_forall. intros c Hin%list_elem_of_In. rewrite Forall_forall in Hsafe. by apply Hsafe. }
  unfold unit_suffix. destruct (has_option _ _).
  - change ([DOT] ++ lit "automount") with (lit ".automount"). rewrite automount_not_mount, strip_suffix_app, Hstem.
    by rewrite forallb_app, Hchars.
  - change ([DOT] ++ lit "mount") with (lit ".mount"). rewrite strip_suffix_app, Hstem. by rewrite forallb_app, Hchars.
Qed.

Lemma listed_names_accepted_witness : validate_mount_unit_name (lit "data\x20x.automount") = true.
Proof.
  refine (listed_names_accepted FstabDemo.old_table FstabDemo.new_table (mkMountUnit (lit "/data x") (lit "data\x20x.automount")) _ _ _ _).
  - apply (bool_decide_unpack _). by vm_compute.
  - discriminate.
  - apply (bool_decide_unpack _). by vm_compute.
  - apply (bool_decide_unpack _). by vm_compute.
Defined.

(** ** The host *)

#[export] Instance Recorded_eq_dec : EqDecision Recorded. Proof. solve_decision. Defined.
#[export] Instance Recorded_countable : Countable Recorded.
Proof. refine (inj_countable' (fun r => (rc_mountpoint r, rc_unit r)) (fun x => mkRecorded x.1 x.2) _). by intros []. Defined.
#[export] Instance MountRecord_eq_dec : EqDecision MountRecord. Proof. solve_decision. Defined.
#[export] Instance MountRecord_countable : Countable MountRecord.
Proof.
  refine (inj_countable' (fun r => (rec_path r, rec_digest r, rec_units r)) (fun x => mkMountRecord x.1.1 x.1.2 x.2) _). by intros [].
Defined.

Module Shelf.

Definition fstab_target : Target := mkTarget (lit "/etc/fstab") Kind.File 420 Root (fun _ => true).
Definition mounts_descriptor : ModuleDescriptor :=
  mkDescriptor (lit "mounts") (lit "mounts-name") [fstab_target] (mkUpstream [] [] [] None []) [] [] true true
    (Some Mounts.added_mounts) [].

Definition allow : Allowlist :=
  match from_modules [mounts_descriptor] (mkConfig Lab.state 5 Init.Systemd true) with
  | Ok a => a
  | Err _ => mkAllowlist default_config [] [] [] [] ∅
  end.

Definition setup : Setup :=
  let s := Lab.setup 97 Lab.quiet in
  mkSetup (w s) allow (hooks s) (instant s) (instant_limit s) (pending_to_vec s) (pending_from_slice s) (marker_from_slice s)
    (kind_text s) (errno_text s) (atomic_text s) (registry s) (host_profile s) (staging_dir s) (euid s) (dir_uid s)
    (candidate_name s) (tempfile_tries s) (has_updater s) (tag_refusal s) (pkg_version s) (lock_is_free s).

Definition fstab : Path := path_of_str (lit "/etc/fstab").
Definition run : Path := Lab.p [lit "run"; lit "detent"].
Definition entry : TargetEntry := default (mkTargetEntry 0 0 [] Wire.File 0 Lab.state) (mount_target setup 0).

(** A new table that also mounts something over [/usr]. *)
Definition table_now : rstr := FstabDemo.new_table ++ lit "/dev/sde1 /usr/local ext4 nofail 0 2" ++ [LF].

(** The disk after the write of the new table, with its backup. *)
Definition disk0 : Disk :=
  list_to_map [(Lab.etc, Directory 493); (fstab, Regular (Lab.file (as_bytes FstabDemo.old_table))); (Lab.p [lit "var"], Directory 493);
               (Lab.state, Directory 493); (Lab.p [lit "run"], Directory 493); (run, Directory 448)].
Definition written : Disk :=
  disk (write_atomic (w setup) (new_request fstab (as_bytes table_now) (te_backup_dir entry)) (start disk0)).2.

Definition all_in (state : UnitState) (n : nat) (units : list rstr) : result HookError (list MountUnitState) :=
  Ok ((fun u => mkUnitState u state []) <$> units).
Definition services : UnitControl := mkUnitControl (all_in Inactive) (all_in Active) (all_in Inactive).

Definition to_vec : MountRecord -> option rbytes := as_number.
Definition from_slice : rbytes -> option MountRecord := of_number.

Definition runner (d : Disk) : Runner := mkRunner (Lab.host d) [].
Definition started : result HookError (list MountOutcome) * Runner :=
  start_added setup services (Some (Lab.p [lit "opt"])) to_vec run 0 (runner written).
Definition stopped : result HookError (list MountOutcome) * Runner :=
  stop_started setup services from_slice run (mkRunner (rn_host started.2) []).

Definition unit_data : rstr := lit "data\x20x.automount".

Example start_works : started.1 = Ok [mkMountOutcome (lit "/usr/local") (lit "usr-local.mount") Protected [];
                                      mkMountOutcome (lit "/data x") unit_data MMounted []].
Proof. by vm_compute. Qed.

Example stop_works : stopped.1 = Ok [mkMountOutcome (lit "/data x") unit_data Stopped []].
Proof. by vm_compute. Qed.

End Shelf.

(** The last call of a trace, when it starts or stops units. *)
Definition acted (cs : list UnitCall) : option (list rstr * Disk) :=
  match last cs with Some (StartedUnits n d) | Some (StoppedUnits n d) => Some (n, d) | _ => None end.
Definition last_names (cs : list UnitCall) : list rstr := default [] (fst <$> acted cs).
Definition last_disk (cs : list UnitCall) : Disk := default ∅ (snd <$> acted cs).
Definition starts (cs : list UnitCall) : bool := match last cs with Some (StartedUnits _ _) => true | _ => false end.
Definition stops (cs : list UnitCall) : bool := match last cs with Some (StoppedUnits _ _) => true | _ => false end.

Lemma last_elem {A} (l : list A) x : last l = Some x -> x ∈ l.
Proof. intros [l' ->]%last_Some. set_solver. Qed.

Lemma starts_last cs : starts cs = true -> StartedUnits (last_names cs) (last_disk cs) ∈ cs.
Proof.
  unfold starts, last_names, last_disk, acted. intros H. apply last_elem. destruct (last cs) as [[]|]; done.
Qed.

Lemma stops_last cs : stops cs = true -> StoppedUnits (last_names cs) (last_disk cs) ∈ cs.
Proof.
  unfold stops, last_names, last_disk, acted. intros H. apply last_elem. destruct (last cs) as [[]|]; done.
Qed.

Lemma mounts_recorded_first_witness :
  let x := Shelf.runner Shelf.written in
  let x' := (start_added Shelf.setup Shelf.services (Some (Lab.p [lit "opt"])) Shelf.to_vec Shelf.run 0 x).2 in
  near (spare Shelf.run) (disk (fs (rn_host x))) (disk (fs (rn_host x')))
  /\ Forall (start_call Shelf.setup (Some (Lab.p [lit "opt"])) Shelf.to_vec (disk (fs (rn_host x))) Shelf.run 0) (rn_calls x').
Proof.
  exact (mounts_recorded_first Shelf.setup Shelf.services (Some (Lab.p [lit "opt"])) Shelf.to_vec Shelf.run 0
    (Shelf.runner Shelf.written) eq_refl).
Defined.

Lemma mounts_undone_exactly_witness :
  last_names (rn_calls Shelf.started.2) = [Shelf.unit_data]
  /\ last_names (rn_calls Shelf.stopped.2) = last_names (rn_calls Shelf.started.2).
Proof.
  split; [vm_compute; reflexivity|].
  assert (starts (rn_calls Shelf.started.2) = true) as H1 by (vm_compute; reflexivity).
  assert (stops (rn_calls Shelf.stopped.2) = true) as H2 by (vm_compute; reflexivity).
  apply (mounts_undone_exactly Shelf.setup Shelf.services Shelf.services (Some (Lab.p [lit "opt"])) Shelf.to_vec Shelf.from_slice Shelf.run 0
    (Shelf.runner Shelf.written) (mkRunner (rn_host Shelf.started.2) [])
    (last_names (rn_calls Shelf.started.2)) (last_names (rn_calls Shelf.stopped.2))
    (last_disk (rn_calls Shelf.started.2)) (last_disk (rn_calls Shelf.stopped.2))).
  - intros r b. apply of_as_number.
  - reflexivity.
  - reflexivity.
  - exact (starts_last _ H1).
  - vm_compute. reflexivity.
  - exact (stops_last _ H2).
Defined.
