(* ===== verification/Confine.v ===== *)
(** * What the monitor can be made to do

    The privilege separation of [monitor.rs]: whatever the worker sends and
    whatever fails, the monitor changes only files of its allow-list, their
    backups, its own state files and candidate files, and asks its collaborators
    only for what the modules declare. *)

From Stdlib Require Import ZArith.
From stdpp Require Import gmap sorting.
From S2P Require Import Prelude Str Num Ip Utf8 Doc Diag Descriptor Disk Atomic AtomicSafe Frames Proto Transport Allow.
From S2P Require Import ExecDeny Hooks Monitor MonitorLogic MonitorDemo.
#[local] Open Scope Z_scope.

Section Area.
Variable s : Setup.
#[local] Abbreviation root := (state_root (config (allow s))).
#[local] Abbreviation targets := (a_targets (allow s)).

(** ** The area of the monitor *)

(** One target: the file, its temporary files, its backups. *)
Definition target_area (t : TargetEntry) (p : Path) : Prop :=
  p = te_path t \/ (exists dir i, parent (te_path t) = Some dir /\ p = join_name dir (temp_name (w s) i))
  \/ p = te_backup_dir t \/ p ∈ ancestors (te_backup_dir t) \/ (exists n, p = join_name (te_backup_dir t) n).

Definition candidate_place (dir : Path) : Prop :=
  dir = staging_dir s \/ exists t, t ∈ targets /\ parent (te_path t) = Some dir.

(** Candidate files and the staging directory. *)
Definition candidate_file (p : Path) : Prop :=
  exists dir i, candidate_place dir /\ p = join_name dir (CANDIDATE_PREFIX ++ candidate_name s i).
Definition candidate_area (p : Path) : Prop :=
  candidate_file p \/ p = staging_dir s \/ (exists q, parent (staging_dir s) = Some q /\ p ∈ ancestors q).

Definition state_area (p : Path) : Prop :=
  p = in_place_marker s \/ p = marker_path s \/ p = join_name root MONITOR_LOCK \/ p ∈ ancestors root.

Definition area (p : Path) : Prop := (exists t, t ∈ targets /\ target_area t p) \/ state_area p \/ candidate_area p.

(** ** The hook calls of the monitor *)

Definition allowed (c : HookCall) : Prop :=
  match c with
  | RanCheck check _ => exists e, e ∈ a_checks (allow s) /\ ce_check e = check
  | ActedOn b action => (exists e, e ∈ a_bindings (allow s) /\ be_binding e = b) /\ action ∈ actions b
  | ReadStatus b => exists e, e ∈ a_bindings (allow s) /\ be_binding e = b
  | ReloadedUnits => exists d, d ∈ a_modules (allow s) /\ reload_unit_files d = true
  | StartedMounts id => activate_mounts (config (allow s)) = true
      /\ exists t d, target (allow s) id = Some t /\ module (allow s) (te_module t) = Some d /\ declares_mounts d = true
  | StoppedMounts | ForgotMounts => exists d, d ∈ a_modules (allow s) /\ declares_mounts d = true
  | StartedUpdate tag => has_updater s = true /\ tag_refusal s tag = Ok ()
  end.

(** ** What the monitor remembers *)

(** An entry of the journal or of a commit: a target and one of its backups. *)
Definition known_entry (e : RollbackEntry) : Prop :=
  exists t, t ∈ targets /\ rb_path e = te_path t /\ exists n, rb_backup e = join_name (te_backup_dir t) n.

Definition known (x : Monitor) : Prop :=
  Forall known_entry (journal x) /\ forall p, pending x = Some p -> Forall known_entry (p_entries p).

(** Where restoring the entry writes, besides the marker of a write in place. *)
Definition restore_area (e : RollbackEntry) (p : Path) : Prop :=
  p = rb_path e \/ (exists dir i, parent (rb_path e) = Some dir /\ p = join_name dir (temp_name (w s) i))
  \/ (exists B, parent (rb_backup e) = Some B /\ (p = B \/ p ∈ ancestors B \/ exists n, p = join_name B n)).

(** An entry of a commit that an earlier monitor left behind on the disk [d]. *)
Definition left_over (d : Disk) (e : RollbackEntry) : Prop :=
  exists f m, d !! marker_path s = Some (Regular f) /\ pending_from_slice s (contents f) = Some m /\ e ∈ pm_entries m.

(** The area of a monitor that starts on [d]. *)
Definition wide (d : Disk) (p : Path) : Prop := area p \/ exists e, left_over d e /\ restore_area e p.

Lemma known_restore_area e p : known_entry e -> restore_area e p -> exists t, t ∈ targets /\ target_area t p.
Proof.
  intros (t & Ht & Hp & n & Hb) H. exists t. split; [done|]. unfold restore_area in H. rewrite Hp, Hb, parent_join in H.
  unfold target_area. destruct H as [?|[?|(B & [= <-] & ?)]]; naive_solver.
Qed.

Lemma wide_known d p : (forall e, left_over d e -> known_entry e) -> wide d p -> area p.
Proof. intros Hk [?|(e & He & Hp)]; [done|]. left. by apply (known_restore_area e), Hp; apply Hk. Qed.

(** ** Lookups stay in the tables *)

Lemma target_elem id t : target (allow s) id = Some t -> t ∈ targets.
Proof. apply list_elem_of_lookup_2. Qed.
Lemma check_elem id e : check (allow s) id = Some e -> e ∈ a_checks (allow s).
Proof. apply list_elem_of_lookup_2. Qed.
Lemma binding_elem id e : binding (allow s) id = Some e -> e ∈ a_bindings (allow s).
Proof. apply list_elem_of_lookup_2. Qed.
Lemma module_elem id d : module (allow s) id = Some d -> d ∈ a_modules (allow s).
Proof. apply list_elem_of_lookup_2. Qed.

Lemma file_targets_elem m t : t ∈ file_targets (allow s) m -> t ∈ targets.
Proof. intros [_ [_ H]%list_elem_of_filter]%list_elem_of_filter. done. Qed.

Lemma candidate_dir_place ex m profile dir : candidate_dir (allow s) ex m profile = Some dir ->
  exists t, t ∈ targets /\ parent (te_path t) = Some dir.
Proof.
  unfold candidate_dir. intros (d & _ & H)%bind_Some. apply bind_Some in H as (t & Ht & Hp). exists t. split; [|done].
  apply (file_targets_elem m). destruct (_ ≫= _) as [e|] eqn:E in Ht; simplify_eq.
  - apply bind_Some in E as (x & _ & Hx). by apply find_elem in Hx as [? _].
  - by apply head_Some_elem_of.
Qed.

Lemma check_candidate_dir_place ex id profile dir : check_candidate_dir (allow s) ex id profile = Some dir ->
  exists t, t ∈ targets /\ parent (te_path t) = Some dir.
Proof.
  unfold check_candidate_dir. intros (e & _ & H)%bind_Some. destruct (is_empty _); [by eapply candidate_dir_place|].
  apply bind_Some in H as (t & [Ht _]%find_elem & Hp). exists t. split; [|done].
  apply list_elem_of_omap in Ht as (id' & _ & Hid). by eapply target_elem.
Qed.

End Area.

Lemma in_restore_entry s F e : F (in_place_marker s) -> (forall p, restore_area s e p -> F p) ->
  within F (restore_entry s e) (fun _ => True).
Proof.
  intros Hm HF. unfold restore_entry. destruct (parent (rb_backup e)) as [B|] eqn:EB.
  - eapply in_restore_dir; [exact EB|]. intros bytes p H. unfold restore_area in HF. rewrite EB in HF.
    destruct H as [->|[(dir & i & Hd & ->)|[[? _]|[->|[H|[H|[= <-]]]]]]]; simpl in *; [| |done|..|done].
    all: apply HF; naive_solver.
  - unfold restore_backup_with. rewrite EB. apply in_throw.
Qed.

(** ** What reading and checking needs

    A scope is where one may write and what one may ask for: candidate files, the
    declared checks and the status of the declared services at least. The
    handlers that change nothing else stay inside every scope. *)
Class Scope (s : Setup) (F : Path -> Prop) (T : HookCall -> Prop) : Prop := {
  scope_candidates : forall p, candidate_area s p -> F p;
  scope_checks : forall e p, e ∈ a_checks (allow s) -> T (RanCheck (ce_check e) p);
  scope_status : forall e, e ∈ a_bindings (allow s) -> T (ReadStatus (be_binding e));
}.

Section Scoped.
Context (s : Setup) (F : Path -> Prop) (T : HookCall -> Prop) `{!Scope s F T}.
Variables (K : Monitor -> Prop) (d0 : Disk).
#[local] Abbreviation targets := (a_targets (allow s)).
#[local] Abbreviation candidate_file := (candidate_file s).
#[local] Abbreviation candidate_place := (candidate_place s).
#[local] Abbreviation I := (near F d0).
#[local] Abbreviation J := (fun x d => near F d0 d /\ K x).
#[local] Abbreviation inside m := (keeps I T J m (fun _ => True)).

Lemma k_within {E A} (m : M E A) (R : A -> Prop) : within F m R -> keeps I T J (on_disk m) R.
Proof.
  intros Hm. apply k_disk. intros x. eapply spec_pre with (P' := fun d => K x /\ I d); [|by intros d [? ?]].
  apply spec_assume. intros Hx. eapply spec_post; [apply (Hm d0)|]. naive_solver.
Qed.

Lemma k_any {E A} (m : M E A) : within F m (fun _ => True) -> inside (on_disk m).
Proof. apply k_within. Qed.

Lemma k_answer {E} (m : MM Response Response) : inside m -> inside (answer (E := E) m).
Proof. intros H. eapply k_attempt; [exact H|]. intros [a|a] _; by apply k_ret. Qed.

Lemma in_digest p : within F (read_with_digest (w s) p) (fun _ => True).
Proof. apply in_read_with_digest. Qed.

(** *** Candidate files *)

Lemma candidate_inside p : candidate_file p -> F p.
Proof. intros H. eapply scope_candidates. by left. Qed.

Lemma k_trusted dir what o : inside (require_trusted_dir s dir what o).
Proof.
  unfold require_trusted_dir. eapply k_bind with (R := fun _ => True).
  - eapply k_attempt; [apply k_any, in_open_directory|]. intros [?|[]] _; first [by apply k_ret|apply k_fail].
  - intros ? _. eapply k_bind; [apply k_catch, k_any, in_stat|]. intros n _.
    destruct n; try apply k_fail. destruct (_ && _); [by apply k_ret|apply k_fail].
Qed.

Lemma k_staging : keeps I T J (ensure_staging_dir s (staging_dir s)) (fun dir => dir = staging_dir s).
Proof.
  unfold ensure_staging_dir. eapply k_bind with (R := fun _ => True).
  - destruct (parent (staging_dir s)) as [q|] eqn:E; [|by apply k_ret]. destruct (bool_decide _); [by apply k_ret|].
    apply k_catch. apply k_any, in_create_dir_all. intros p Hp. eapply scope_candidates. right. right. by eauto.
  - intros ? _. eapply k_bind with (R := fun _ => True).
    + eapply k_attempt; [apply k_any, in_make_dir; eapply scope_candidates; right; by left|]. intros [?|e] _; [by apply k_ret|].
      destruct (bool_decide _); [by apply k_ret|apply k_fail].
    + intros ? _. eapply k_bind; [apply k_trusted|]. intros ? _. by apply k_ret.
Qed.

Lemma in_tempfile dir attempt_ tries : candidate_place dir ->
  within F (tempfile_in s dir attempt_ tries) candidate_file.
Proof.
  intros Hd. revert attempt_. induction tries as [|tries IH]; intros attempt_; cbn [tempfile_in]; [apply in_throw|].
  assert (Hc : candidate_file (join_name dir (CANDIDATE_PREFIX ++ candidate_name s attempt_))) by (by eexists _, _).
  eapply in_try; [by apply in_create, candidate_inside|]. intros [?|[]] _; try apply in_throw; [by apply in_ret|apply IH].
Qed.

Lemma k_candidate dir : candidate_place dir -> keeps I T J (create_candidate s dir) candidate_file.
Proof.
  intros Hd. apply k_within. eapply in_bind; [apply in_open_directory|]. intros ? _. by apply in_tempfile.
Qed.

Lemma k_check_candidate id spec : keeps I T J (create_check_candidate s id spec) candidate_file.
Proof.
  unfold create_check_candidate.
  assert (Hst : forall e : Errno -> ProtoError, keeps I T J
    (dir ← ensure_staging_dir s (staging_dir s); catch_err e (create_candidate s dir)) candidate_file).
  { intros e. eapply k_bind; [apply k_staging|]. intros ? ->. apply k_catch, k_candidate. by left. }
  eapply k_bind; [apply k_get|]. intros d _. destruct (check_candidate_dir _ _ _ _) as [dir|] eqn:E; [|apply Hst].
  eapply k_bind; [apply k_trusted|]. intros ? _.
  eapply k_attempt; [apply k_candidate; right; by eapply check_candidate_dir_place|].
  intros [p|e] Hr; [by apply k_ret, Hr|]. destruct (_ || _); [apply Hst|apply k_fail].
Qed.

Lemma k_removing {E A} p (m : MM E A) R : F p -> keeps I T J m R -> keeps I T J (removing s p m) R.
Proof.
  intros Hp Hm. eapply k_attempt; [exact Hm|]. intros r Hr. eapply k_attempt; [by apply k_any, in_unlink|]. intros _ _. by apply k_res.
Qed.

Lemma k_check_bytes {A} id spec b (k : CheckOutcome -> MM Response A) R :
  (exists e, e ∈ a_checks (allow s) /\ ce_check e = spec) -> (forall o, keeps I T J (k o) R) ->
  keeps I T J (check_bytes s id spec b k) R.
Proof.
  intros Hc Hk. eapply k_bind; [apply k_catch, k_check_candidate|]. intros p Hp%candidate_inside. apply k_removing; [done|].
  eapply k_bind with (R := fun _ => True).
  - apply k_catch, k_any. eapply in_bind; [by apply in_write_all|]. intros ? _. apply in_fsync.
  - intros ? _. eapply k_bind; [|intros o _; apply Hk]. apply k_catch, k_hook. destruct Hc as (e & He & <-). by apply scope_checks.
Qed.

(** *** Requests that change nothing *)

Lemma k_hooked {A} c (answer : nat -> result HookError A) : T c -> inside (hooked (call_hook c answer)).
Proof. intros H. by apply k_catch, k_hook. Qed.

Lemma k_read_target id : inside (read_target s id).
Proof.
  unfold read_target. destruct (target _ _); [|by apply k_ret]. eapply k_attempt; [apply k_any, in_digest|]. intros r _. by apply k_ret.
Qed.

Lemma k_run_check id b : inside (run_check s id b).
Proof.
  unfold run_check. destruct (check (allow s) id) as [e|] eqn:Ee; [|by apply k_ret]. apply check_elem in Ee.
  eapply k_bind with (R := fun _ => True).
  { induction (filter _ _) as [|t l IH]; [by apply k_ret|]. cbn [current_contents]. eapply k_bind with (R := fun _ => True).
    - eapply k_attempt; [apply k_any, in_digest|]. intros r _. by apply k_ret.
    - intros here _. eapply k_bind; [exact IH|]. intros rest _. by apply k_ret. }
  intros previous _. eapply k_bind; [by apply (k_res _ _ _ _ (fun _ => True))|]. intros ? _.
  apply k_check_bytes; [by eauto|]. intros o. by apply k_ret.
Qed.

Lemma k_status id : inside (service s id Wire.Status).
Proof.
  unfold service. destruct (binding (allow s) id) as [e|] eqn:Ee; [|by apply k_ret]. apply binding_elem in Ee. simpl.
  eapply k_bind; [by apply k_hooked, scope_status|]. intros o _. by apply k_ret.
Qed.

(** A candidate passes the gate and the checks. *)
Lemma k_revalidate m text previous b : inside (revalidate s m text previous b).
Proof.
  eapply k_bind; [by apply (k_res _ _ _ _ (fun _ => True))|]. intros ? _. destruct (configured _); [|by apply k_ret].
  assert (H : forall e, e ∈ filter (fun e => Is_true (judges (ce_check e) text)) (checks_of (allow s) m) -> e ∈ a_checks (allow s)).
  { by intros e [_ [_ ?]%list_elem_of_filter]%list_elem_of_filter. }
  induction (filter _ _) as [|e l IH]; [by apply k_ret|]. cbn [run_checks]. eapply k_bind with (R := fun _ => True).
  - apply k_check_bytes; [exists e; split; [apply H; left|done]|]. intros o. destruct (passed o); [by apply k_ret|apply k_fail].
  - intros ? _. apply IH. intros x Hx. apply H. by right.
Qed.

(** A row of the listing names a target and one of its backups. *)
Definition known_row (source target_path : Path) : Prop :=
  exists t, t ∈ targets /\ target_path = te_path t /\ exists n, source = join_name (te_backup_dir t) n.

Lemma k_rows ts : (forall t, t ∈ ts -> t ∈ targets) ->
  keeps I T J (backup_rows s ts) (Forall (fun row => known_row (b_path row.2) row.1.2)).
Proof.
  induction ts as [|t ts IH]; intros Hts; [by apply k_ret|]. cbn [backup_rows].
  eapply k_bind; [apply k_catch, k_within, in_list_backups|]. intros entries He.
  eapply k_bind; [apply IH; intros x Hx; apply Hts; by right|]. intros rest Hr. apply k_ret. apply Forall_app. split; [|done].
  apply Forall_fmap. eapply Forall_impl; [exact He|]. intros e [n Hn]. exists t. simpl. rewrite Hn. split_and!; [apply Hts; left|done|by eexists].
Qed.

Lemma k_collect m : keeps I T J (collect_backups s m) (Forall (fun x => known_row x.1.2 x.2)).
Proof.
  unfold collect_backups. destruct (module _ _); [|apply k_fail].
  eapply k_bind; [apply k_rows; by intros t [_ ?]%list_elem_of_filter|]. intros rows Hr. apply k_ret.
  apply Forall_forall. intros x Hx. apply elem_of_lookup_imap in Hx as (i & row & -> & Hrow). simpl.
  apply list_elem_of_lookup_2 in Hrow. rewrite merge_sort_Permutation in Hrow. rewrite Forall_forall in Hr. by apply Hr.
Qed.

Lemma k_list m : inside (list_backups_request s m).
Proof. eapply k_bind; [apply k_collect|]. intros l _. by apply k_ret. Qed.

End Scoped.

(** ** What calling needs

    Every declared call besides. *)
Class CallScope (s : Setup) (F : Path -> Prop) (T : HookCall -> Prop) : Prop := {
  call_scope :: Scope s F T;
  scope_calls : forall c, allowed s c -> T c;
}.

Section Calling.
Context (s : Setup) (F : Path -> Prop) (T : HookCall -> Prop) `{!CallScope s F T}.
Variables (K : Monitor -> Prop) (d0 : Disk).
Hypothesis K_greeted : forall x, K x -> K (set_greeted x).
#[local] Abbreviation inside m := (keeps (near F d0) T (fun x d => near F d0 d /\ K x) m (fun _ => True)).

Lemma k_service id action : inside (service s id action).
Proof.
  unfold service. destruct (binding (allow s) id) as [e|] eqn:Ee; [|by apply k_ret]. apply binding_elem in Ee.
  destruct (to_core action) as [core|].
  - destruct (bool_decide (core ∈ _)) eqn:Ea; [|by apply k_ret]. bool_to_prop. simpl.
    eapply k_bind; [apply k_hooked, scope_calls; simpl; by eauto|]. intros o _. by apply k_ret.
  - eapply k_bind; [apply k_hooked, scope_calls; simpl; by eauto|]. intros o _. by apply k_ret.
Qed.

Lemma k_reload m : inside (reload_unit_files_request s m).
Proof.
  unfold reload_unit_files_request. destruct (module (allow s) m) as [d|] eqn:Em; [|by apply k_ret].
  destruct (reload_unit_files d) eqn:Er; [|by apply k_ret]. simpl.
  eapply k_bind; [apply k_hooked, scope_calls; exists d; eauto using module_elem|]. intros o _. by apply k_ret.
Qed.

Lemma k_mount id : inside (mount s id).
Proof.
  unfold mount. destruct (target (allow s) id) as [t|] eqn:Et; [|by apply k_ret].
  destruct (module (allow s) (te_module t)) as [d|] eqn:Em; [|by apply k_ret].
  destruct (declares_mounts d) eqn:Ed; [|by apply k_ret]. simpl.
  destruct (activate_mounts _) eqn:Ea; [|by apply k_ret]. simpl.
  eapply k_bind; [apply k_hooked, scope_calls; split; [done|by exists t, d]|]. intros o _. by apply k_ret.
Qed.

Lemma k_start_update tag : inside (start_update s tag).
Proof.
  unfold start_update. destruct (tag_refusal s tag) as [[]|] eqn:Et; [|by apply k_ret].
  destruct (has_updater s) eqn:Eu; [|by apply k_ret]. simpl.
  eapply k_bind; [by apply k_hooked, scope_calls|]. intros o _. by apply k_ret.
Qed.

Lemma k_answered r resp :
  inside (_ ← match summary_of (sha256 (w s)) r with Some x => log_request x resp | None => mret () end; mret (M := MM MonitorError) resp).
Proof.
  eapply k_bind with (R := fun _ => True); [|intros ? _; by apply k_ret]. destruct (summary_of _ _); [apply k_log|by apply k_ret].
Qed.

Lemma k_greet proto : inside (if (proto =? PROTO_VERSION)%N
  then _ ← set_monitor set_greeted; mret (Resp.HelloAck (hello_ack (allow s)))
  else mret (M := MM MonitorError) (Resp.Error (PErr.VersionMismatch PROTO_VERSION proto))).
Proof.
  destruct (_ =? _)%N; [|by apply k_ret].
  eapply k_bind; [|intros ? _; by apply k_ret]. apply k_set. intros x d [Hd Hx]. split; [done|]. by apply K_greeted.
Qed.

Lemma k_asking r : writes_nothing r = true -> inside (dispatch s r).
Proof.
  intros Hr. eapply k_bind; [apply k_get|]. intros m _. destruct (greeted m); simpl.
  - eapply k_bind with (R := fun _ => True); [|intros resp _; apply k_answered].
    destruct r; try done; try (by apply k_ret); try apply k_answer; try (apply k_run_check; apply _);
      eauto using k_read_target, k_service, k_list, k_mount, k_reload, k_start_update with typeclass_instances.
    eapply k_bind; [apply k_get|]. intros ? _. by apply k_ret.
  - destruct r; try by apply k_ret. apply k_greet.
Qed.

End Calling.

(** ** What writing needs

    A wider scope: the targets with their backups and the marker of a write in
    place; [K] is what the monitor remembers. *)
Class WriteScope (s : Setup) (F : Path -> Prop) (T : HookCall -> Prop) (K : Monitor -> Prop) : Prop := {
  write_scope :: CallScope s F T;
  scope_targets : forall t p, t ∈ a_targets (allow s) -> target_area s t p -> F p;
  scope_in_place : F (in_place_marker s);
  scope_journal : forall id t out x, t ∈ a_targets (allow s) ->
    (forall p, backup out = Some p -> exists n, p = join_name (te_backup_dir t) n) -> K x -> K (journaled id t out x);
  scope_greeted : forall x, K x -> K (set_greeted x);
}.

Section Writing.
Context (s : Setup) (F : Path -> Prop) (T : HookCall -> Prop) (K : Monitor -> Prop) `{!WriteScope s F T K}.
Variable d0 : Disk.
#[local] Abbreviation targets := (a_targets (allow s)).
#[local] Abbreviation known_entry := (known_entry s).
#[local] Abbreviation I := (near F d0).
#[local] Abbreviation J := (fun x d => near F d0 d /\ K x).
#[local] Abbreviation inside m := (keeps I T J m (fun _ => True)).

(** *** Writing and restoring targets *)

Lemma write_area_inside t bytes expected keep mode p :
  t ∈ targets ->
  write_area (w s) (mkRequest (te_path t) bytes expected (te_backup_dir t) keep false mode (Marker (in_place_marker s))) p -> F p.
Proof.
  intros Ht [->|[(dir & i & Hd & ->)|[[? _]|[->|[H|[H|[= <-]]]]]]]; simpl in *; [| |done|..|by apply scope_in_place].
  all: apply (scope_targets t); [done|]; unfold target_area; naive_solver.
Qed.

Lemma in_write t expected b : t ∈ targets ->
  within F (write_atomic (w s) (write_request s t expected b))
    (fun out => forall p, backup out = Some p -> exists n, p = join_name (te_backup_dir t) n).
Proof.
  intros Ht. assert (H : forall p, write_area (w s) (write_request s t expected b) p -> F p) by (intros p; by apply write_area_inside).
  apply (in_write_atomic (w s) F (te_backup_dir t)); [..|done|done].
  - intros p Hp. apply H. do 4 right. by left.
  - apply H. do 3 right. by left.
  - intros n. apply H. do 5 right. left. by eexists.
Qed.

Lemma in_restore_target t n expected : t ∈ targets ->
  within F (restore_backup_with (w s) (join_name (te_backup_dir t) n) (te_path t) expected (Marker (in_place_marker s))) (fun _ => True).
Proof. intros Ht. eapply in_restore_dir; [apply parent_join|]. intros bytes p. by apply write_area_inside. Qed.

Lemma k_write_target id expected b j : inside (write_target s id expected b j).
Proof.
  unfold write_target. destruct (target (allow s) id) as [t|] eqn:Et; [|by apply k_ret]. apply target_elem in Et.
  eapply k_bind with (R := fun _ => True).
  { eapply k_attempt; [apply k_any, in_digest|]. intros [[c ?]|e] _; [by apply k_ret|]. destruct (not_found e); [by apply k_ret|apply k_fail]. }
  intros previous _. eapply k_bind; [apply (k_revalidate _ _ _)|]. intros ? _.
  eapply k_bind; [by apply k_catch, k_within, in_write|]. intros out Hout.
  eapply k_bind with (R := fun _ => True); [|intros ? _; by apply k_ret].
  destruct j; [|by apply k_ret]. apply k_set. intros x d [Hd Hx]. split; [done|]. by apply scope_journal.
Qed.

Lemma k_restore m b : inside (restore s m b).
Proof.
  eapply k_bind; [apply k_collect|]. intros l Hl. destruct (l !! N.to_nat b) as [[[info source] tp]|] eqn:E; [|by apply k_ret].
  apply list_elem_of_lookup_2 in E. rewrite Forall_forall in Hl. destruct (Hl _ E) as (t & Ht & H1 & n & H2). simpl in *. subst.
  eapply k_attempt; [by apply k_any, in_restore_target|]. intros r _. by apply k_ret.
Qed.

Lemma target_of_elem has p : target_of (allow s) has p = true -> exists d, d ∈ a_modules (allow s) /\ has d = true.
Proof.
  unfold target_of. intros (d & Hd & H)%existsb_exists. exists d. split; [|done]. apply list_elem_of_In in Hd.
  apply list_elem_of_omap in Hd as (t & _ & Ht). by eapply module_elem.
Qed.

Lemma k_replay_reload es : inside (replay_reload s es).
Proof.
  unfold replay_reload. destruct (existsb _ _) eqn:E; [|by apply k_ret].
  apply existsb_exists in E as (e & _ & H%target_of_elem). eapply k_bind; [by apply k_hook, scope_calls|]. intros ? _. by apply k_ret.
Qed.

Lemma k_stop_mounts es : inside (stop_started_mounts s es).
Proof.
  unfold stop_started_mounts, starts_mounts. destruct (existsb _ _) eqn:E; [|by apply k_ret].
  apply existsb_exists in E as (e & _ & H%target_of_elem). eapply k_bind; [by apply k_hook, scope_calls|]. intros ? _. by apply k_ret.
Qed.

Lemma k_replay_service ps : inside (replay_service s ps).
Proof.
  unfold replay_service. destruct ps as [ps|]; [|by apply k_ret].
  destruct (binding (allow s) (ps_binding ps)) as [e|] eqn:Ee; [|apply k_fail]. apply binding_elem in Ee.
  destruct (to_core (ps_action ps)) as [a|]; [|apply k_fail]. destruct (bool_decide (a ∈ _)) eqn:Ea; [|apply k_fail]. bool_to_prop.
  simpl. eapply k_bind; [apply k_hook, scope_calls; simpl; by eauto|]. intros ? _. by apply k_ret.
Qed.

Lemma k_restore_inside {E} es : Forall (fun e => forall p, restore_area s e p -> F p) es -> inside (restore_each (E := E) s es).
Proof.
  induction 1 as [|e es He _ IH]; [by apply k_ret|]. cbn [restore_each].
  eapply k_bind with (R := fun _ => True).
  - eapply k_attempt; [by apply k_any, in_restore_entry, He; apply scope_in_place|]. intros r _. by apply k_ret.
  - intros r _. eapply k_bind; [exact IH|]. intros [? ?] _. by apply k_ret.
Qed.

Lemma k_restore_each {E} es : Forall known_entry es -> inside (restore_each (E := E) s es).
Proof.
  intros H. apply k_restore_inside. eapply Forall_impl; [exact H|]. intros e He p Hp.
  destruct (known_restore_area s e p He Hp) as (t & Ht & ?). by eapply scope_targets.
Qed.

(** *** All requests but those about a commit *)

Definition commit_request (r : Request) : bool :=
  match r with Req.StartConfirmTimer _ _ _ | Req.ConfirmCommit _ | Req.RollbackCommit _ => true | _ => false end.

Lemma k_plain r : commit_request r = false -> inside (dispatch s r).
Proof.
  intros Hr. destruct (writes_nothing r) eqn:Hw; [by apply (k_asking s F T K d0 scope_greeted)|].
  eapply k_bind; [apply k_get|]. intros m _. destruct (greeted m); simpl; [|destruct r; try done; by apply k_ret].
  eapply k_bind with (R := fun _ => True); [|intros resp _; apply (k_answered s F T K d0)].
  destruct r; try done; apply (k_answer F T K d0); auto using k_write_target, k_restore.
Qed.

End Writing.

Section Confine.
Variable s : Setup.
#[local] Abbreviation root := (state_root (config (allow s))).
#[local] Abbreviation targets := (a_targets (allow s)).
#[local] Abbreviation allowed := (allowed s).
#[local] Abbreviation known := (known s).
#[local] Abbreviation known_entry := (known_entry s).
#[local] Abbreviation target_area := (target_area s).

(** ** Every handler stays inside *)

Variable d0 : Disk.
#[local] Abbreviation area := (wide s d0).
#[local] Abbreviation I := (near area d0).
#[local] Abbreviation J := (fun x d => I d /\ known x).
#[local] Abbreviation inside m := (keeps I allowed J m (fun _ => True)).

Lemma journaled_known id t out x : t ∈ targets -> (forall p, backup out = Some p -> exists n, p = join_name (te_backup_dir t) n) ->
  known x -> known (journaled id t out x).
Proof.
  intros Ht Hb [H1 H2]. unfold journaled. destruct (backup out) as [b|]; [|done]. split; [|exact H2]. simpl.
  apply Forall_app. split; [by destruct (pending x)|]. repeat constructor. exists t. split_and!; [done..|]. by apply Hb.
Qed.

#[local] Instance area_scope : WriteScope s area allowed known.
Proof.
  split; [split; [split; [intros p H; left; by do 2 right|intros e p He; by exists e|intros e He; by exists e]|done]|..].
  - intros t p Ht H. left. left. by eauto.
  - left. right. left. by left.
  - intros. by apply journaled_known.
  - intros x [H1 H2]. by split.
Qed.

Lemma k_set_known {E} g : (forall x, known x -> known (g x)) -> inside (set_monitor (E := E) g).
Proof. intros H. apply k_set. intros x d [Hd Hx]. split; [done|by apply H]. Qed.

(** *** The marker and the rollback *)

Lemma area_marker : area (marker_path s).
Proof. left. right. left. right. by left. Qed.
Lemma area_in_place : area (in_place_marker s).
Proof. left. right. left. by left. Qed.
Lemma area_root p : p ∈ ancestors root -> area p.
Proof. intros H. left. right. left. by do 3 right. Qed.

Lemma k_write_pending m : inside (write_pending_marker s m).
Proof.
  eapply k_bind; [apply k_catch, k_any, in_create_dir_all, area_root|]. intros ? _.
  destruct (pending_to_vec s m); [|apply k_fail]. apply k_catch, k_any.
  eapply in_bind; [apply in_open_private, area_marker|]. intros ? _.
  eapply in_bind; [apply in_write_all, area_marker|]. intros ? _. apply in_fsync.
Qed.

Lemma k_clear : inside (clear_marker s).
Proof.
  eapply k_attempt; [apply k_any, in_unlink, area_marker|]. intros [?|e] _; [by apply k_ret|].
  destruct (bool_decide _); [by apply k_ret|apply k_fail].
Qed.

Lemma k_roll_back_commit p : Forall known_entry (p_entries p) -> inside (roll_back_commit s p).
Proof.
  intros Hp. eapply k_bind; [eapply k_logged, (k_stop_mounts _ _ _ _)|]. intros ? _.
  eapply k_bind with (R := fun _ => True).
  { eapply k_bind; [apply (k_restore_each _ _ _ _); by rewrite reverse_Permutation|]. intros [? ?] _. by apply k_ret. }
  intros n _. eapply k_bind; [eapply k_logged, (k_replay_reload _ _ _ _)|]. intros ? _.
  eapply k_bind; [eapply k_logged, (k_replay_service _ _ _ _)|]. intros ? _.
  eapply k_bind; [apply k_clear|]. intros ? _. by apply k_ret.
Qed.

Lemma k_pending {E} : keeps (E := E) I allowed J current_pending (fun p => forall x, p = Some x -> Forall known_entry (p_entries x)).
Proof.
  eapply (h_get _ _ _ _ (fun x _ => pending x)); [done|]. intros x d [Hd [H1 H2]]. split; [done|]. by intros ? [= <-].
Qed.

Lemma k_journal {E} : keeps (E := E) I allowed J (get (fun h => journal (mon h))) (Forall known_entry).
Proof.
  eapply (h_get _ _ _ _ (fun x _ => journal x)); [done|]. intros x d [Hd [H1 H2]]. split; [done|]. by intros ? [= <-].
Qed.

Lemma k_set_pending {E} p : (forall x, p = Some x -> Forall known_entry (p_entries x)) -> inside (set_monitor (E := E) (set_pending p)).
Proof. intros H. apply k_set_known. intros x [H1 H2]. by split. Qed.

Lemma k_deadline : inside (enforce_deadline s).
Proof.
  eapply k_bind; [apply k_pending|]. intros [p|] Hp; [|by apply k_ret]. eapply k_bind; [apply k_clock|]. intros t _.
  destruct (t <? p_deadline p); [by apply k_ret|]. eapply k_bind; [by apply k_set_pending|]. intros ? _.
  eapply k_bind; [by apply k_roll_back_commit, Hp|]. intros ? _. by apply k_ret.
Qed.

Lemma k_on_exit : inside (rollback_pending_on_exit s).
Proof.
  eapply k_bind; [apply k_pending|]. intros [p|] Hp; [|by apply k_ret]. eapply k_bind; [by apply k_set_pending|]. intros ? _.
  eapply k_bind; [by apply k_roll_back_commit, Hp|]. intros ? _. by apply k_ret.
Qed.

Lemma k_start_timer commit timeout_s ps : inside (start_confirm_timer s commit timeout_s ps).
Proof.
  eapply k_bind; [apply k_pending|]. intros [p|] _; [by apply k_ret|]. eapply k_bind; [apply k_journal|]. intros es Hes.
  eapply k_bind; [apply k_set_known; intros x [H1 H2]; by split|]. intros ? _.
  eapply k_bind; [apply k_clock|]. intros t _. cbv zeta. case_match; [apply k_fail|].
  eapply k_bind with (R := fun _ => True); [apply k_any; eapply in_bind; [apply in_now|]; intros; by apply in_ret|]. intros ms _.
  eapply k_bind; [apply k_write_pending|]. intros ? _. eapply k_bind; [apply k_set_pending; by intros x [= <-]|]. intros ? _. by apply k_ret.
Qed.

Lemma k_confirm commit : inside (confirm_commit s commit).
Proof.
  eapply k_bind; [apply k_pending|]. intros [p|] Hp; [|by apply k_ret]. destruct (p_commit p =? commit)%N; [|by apply k_ret]. simpl.
  eapply k_bind; [apply k_clock|]. intros t _. destruct (p_deadline p <=? t).
  - eapply k_bind; [apply k_deadline|]. intros ? _. by apply k_ret.
  - eapply k_bind; [by apply k_set_pending|]. intros ? _. eapply k_bind with (R := fun _ => True).
    + unfold starts_mounts. destruct (existsb _ _) eqn:E; [|by apply k_ret]. apply existsb_exists in E as (e & _ & H%target_of_elem).
      eapply k_logged. by apply k_hook.
    + intros ? _. eapply k_bind; [apply k_clear|]. intros ? _. by apply k_ret.
Qed.

Lemma k_rollback commit : inside (rollback_commit s commit).
Proof.
  eapply k_bind; [apply k_pending|]. intros [p|] Hp; [|by apply k_ret]. destruct (p_commit p =? commit)%N; [|by apply k_ret]. simpl.
  eapply k_bind; [by apply k_set_pending|]. intros ? _. eapply k_bind; [by apply k_roll_back_commit, Hp|]. intros ? _. by apply k_ret.
Qed.

(** *** The whole server *)

Lemma k_dispatch r : inside (dispatch s r).
Proof.
  destruct (commit_request r) eqn:Hr; [|by apply (k_plain _ _ _ _)].
  eapply k_bind; [apply k_get|]. intros m _. destruct (greeted m); simpl; [|destruct r; try done; by apply k_ret].
  eapply k_bind with (R := fun _ => True); [destruct r; try done; auto using k_start_timer, k_confirm, k_rollback|].
  intros resp _. apply k_answered.
Qed.

Lemma k_handle lock r : inside (handle s lock r).
Proof. eapply k_bind; [apply k_get|]. intros m _. destruct (_ && _); [by apply k_ret|apply k_dispatch]. Qed.

Lemma k_serve_loop idle timeout lock turns : inside (serve_loop s idle timeout lock turns).
Proof.
  revert timeout. induction turns as [|t turns IH]; intros timeout; [by apply k_ret|]. cbn [serve_loop].
  eapply k_bind; [apply k_pending|]. intros p _. set (want := match p with Some _ => _ | None => _ end).
  assert (Hnext : inside (_ ← enforce_deadline s; serve_loop s idle want lock turns)).
  { eapply k_bind; [apply k_deadline|]. intros ? _. apply IH. }
  destruct (if timeout =? want then _ else _) as [[]|]; try apply k_fail; [by apply k_ret|].
  destruct (received t) as [[r|]|[]]; try apply k_fail; try (by apply k_ret); [|exact Hnext].
  eapply k_bind; [apply k_handle|]. intros resp _. destruct (on_send t) as [e|]; [by apply (k_res _ _ _ _ (fun _ => True))|].
  eapply k_bind; [apply k_send|]. intros ? _.
  destruct r; first [by apply k_ret|destruct (is_fatal resp); [by apply k_ret|exact Hnext]].
Qed.

Lemma k_serve_locked idle lock turns : inside (serve_locked s idle lock turns).
Proof.
  eapply k_attempt; [apply k_serve_loop|]. intros r _. eapply k_attempt; [apply k_on_exit|]. intros c _.
  by apply (k_res _ _ _ _ (fun _ => True)).
Qed.

(** *** Starting up *)

(** What is written before the commit marker is read. *)
Definition early (p : Path) : Prop :=
  (exists t, t ∈ targets /\ target_area t p) \/ p = in_place_marker s \/ p = join_name root MONITOR_LOCK \/ p ∈ ancestors root.

Lemma early_area p : early p -> area p.
Proof. intros [?|[->|[->|?]]]; left; [by left|..]; right; left; unfold state_area; naive_solver. Qed.

Lemma ancestors_length p q : p ∈ ancestors q -> (length (components p) <= length (components q))%nat.
Proof. intros (i & -> & _)%list_elem_of_fmap. simpl. rewrite length_take. lia. Qed.

Hypothesis apart : forall t, t ∈ targets -> ~ target_area t (marker_path s).

Lemma early_apart : ~ early (marker_path s).
Proof.
  intros [(t & Ht & H)|[H|[H|H%ancestors_length]]]; [by eapply apart|..].
  - by apply join_inj in H as [_ H].
  - by apply join_inj in H as [_ H].
  - simpl in H. rewrite length_app in H. simpl in H. lia.
Qed.

#[local] Abbreviation J2 := (fun x d => (I d /\ known x) /\ d !! marker_path s = d0 !! marker_path s).

Lemma k2_within {E A} (m : M E A) (R : A -> Prop) : within early m R -> keeps I allowed J2 (on_disk m) R.
Proof.
  intros Hm. apply k_disk. intros x. eapply spec_post.
  - eapply (spec_rebase (near early)); [intros d1 _; eapply spec_pre; [apply (Hm d1)|by intros ? ->]|].
    intros d1 d [[Hd _] _] H. eapply near_trans; [exact Hd|]. eapply near_weaken; [exact H|apply early_area].
  - intros r d (d1 & [[Hd Hx] Hm1] & H & HR). split_and!; [|done| |done].
    + eapply near_trans; [exact Hd|]. eapply near_weaken; [exact H|apply early_area].
    + rewrite (proj1 H); [done|apply early_apart].
Qed.

Lemma k2_read_marker p : keeps I allowed J2 (read_marker s p) (fun _ => True).
Proof.
  eapply k_attempt; [apply k2_within, in_read_file|]. intros [raw|e] _; [by apply k_ret|].
  destruct (bool_decide _); [by apply k_ret|apply k_fail].
Qed.

Lemma marked_entry_place m t b : marked_entry s m = Some t -> m_backup m = Some b ->
  t ∈ targets /\ te_path t = m_path m /\ parent b = Some (te_backup_dir t).
Proof.
  intros [H1 H2]%find_elem Hb. rewrite Hb in H2. simpl in H2. bool_to_prop. destruct H2 as [[H2 _] H3].
  split_and!; [|done..]. by eapply elem_of_take in H1 as (? & ? & ?); eapply list_elem_of_lookup_2.
Qed.

Lemma in_remove_in_place : within early (remove_marker (w s) (in_place_marker s)) (fun _ => True).
Proof. apply in_remove_marker. right. by left. Qed.

Lemma k2_remove : keeps I allowed J2 (remove_in_place_marker s) (fun _ => True).
Proof. apply k_catch, k2_within, in_remove_in_place. Qed.

Lemma early_restore t b p bytes : t ∈ targets -> parent b = Some (te_backup_dir t) ->
  write_area (w s) (mkRequest (te_path t) bytes None (te_backup_dir t) DEFAULT_KEEP_BACKUPS false 420 Guarded) p -> early p.
Proof.
  intros Ht Hb [->|[(dir & i & Hd & ->)|[[? _]|[->|[H|[H|H]]]]]]; simpl in *; [| |done|..|done].
  all: left; exists t; split; [done|]; unfold target_area; naive_solver.
Qed.

Lemma k2_recover_in_place : keeps I allowed J2 (recover_in_place s) (fun _ => True).
Proof.
  eapply k_bind; [apply k2_read_marker|]. intros [raw|] _; [|by apply k_ret].
  destruct (marker_from_slice s raw) as [m|]; [|apply k_fail].
  eapply k_bind with (R := fun _ => True); [|intros ? _; by apply k_ret].
  assert (Hrefuse : keeps I allowed J2 (_ ← remove_in_place_marker s; mret Refused) (fun _ => True)).
  { eapply k_bind; [apply k2_remove|]. intros ? _. by apply k_ret. }
  destruct (marked_entry s m) as [t|] eqn:Et; [|exact Hrefuse]. destruct (m_backup m) as [b|] eqn:Eb; [|exact Hrefuse].
  destruct (marked_entry_place m t b Et Eb) as (Ht & <- & Hb).
  eapply k_bind with (R := fun _ => True).
  { eapply k_attempt; [apply k2_within, in_read_with_digest|]. intros r _. by apply k_ret. }
  intros now_ _. destruct (_ || _).
  { eapply k_bind; [apply k2_remove|]. intros ? _. by apply k_ret. }
  eapply k_attempt; [apply k2_within, (in_restore_dir _ _ _ _ _ _ _ Hb); intros bytes p; by eapply early_restore|].
  intros [?|e] _; [|by apply k_ret]. eapply k_bind; [apply k2_remove|]. intros ? _. by apply k_ret.
Qed.

(** Once the marker is read, what it says is known. *)
Lemma h_read_marker {B} (k : option rbytes -> MM MonitorError B) R :
  keeps I allowed J (k None) R ->
  (forall f, d0 !! marker_path s = Some (Regular f) -> keeps I allowed J (k (Some (contents f))) R) ->
  hspec I allowed J2 (read_marker s (marker_path s) ≫= k) (fun r x d => J x d /\ forall a, r = Ok a -> R a).
Proof.
  intros Hn Hs. eapply h_bind with (R := fun r x d => J x d /\ forall raw, r = Ok (Some raw) ->
    exists f, d0 !! marker_path s = Some (Regular f) /\ raw = contents f).
  - eapply h_attempt with (R := fun r x d => J x d /\ forall raw, r = Ok raw -> exists f, d0 !! marker_path s = Some (Regular f) /\ raw = contents f).
    + apply h_disk. intros x. eapply spec_bind with (R := fun _ => J2 x).
      * apply spec_read; [by intros d [[? _] _]|done|done|done].
      * intros ?. apply spec_read; [by intros d [[? _] _]|done| |by intros f d [? _]; split; [|by intros ? [=]]].
        intros n d [Hd E]. simpl. rewrite E. split; [done|]. intros raw. destruct (d0 !! marker_path s) as [[]|]; naive_solver.
      * intros e d [? _]. split; [done|]. by intros ? [=].
    + intros [raw|e]; [|destruct (bool_decide _)]; [apply h_ret|apply h_ret|apply h_fail]; naive_solver.
  - intros [raw|].
    + intros h [HJ Hr]. destruct (Hr raw eq_refl) as (f & Hf & ->). by apply (Hs f Hf h).
    + intros h [HJ _]. by apply Hn.
  - naive_solver.
Qed.

Lemma k_failure_of {E} (m : MM HookError ()) : inside m -> inside (failure_of (E := E) m).
Proof. intros H. eapply k_attempt; [exact H|]. intros r _. by apply k_ret. Qed.

Lemma k_recover_pending : hspec I allowed J2 (recover_pending s) (fun r x d => J x d).
Proof.
  eapply h_bind; [apply k2_recover_in_place| |by intros e x d [[? _] _]]. intros o.
  eapply h_pre with (P' := J2); [|by intros x d [? _]].
  eapply h_post; [apply (h_read_marker _ (fun _ => True))|by intros r x d [? _]]; [by apply k_ret|].
  intros f Hf. destruct (pending_from_slice s (contents f)) as [m|] eqn:Em; [|apply k_fail].
  eapply k_bind; [apply k_failure_of, (k_stop_mounts _ _ _ _)|]. intros f1 _.
  eapply k_bind.
  { apply (k_restore_inside _ _ _ _). rewrite reverse_Permutation. apply Forall_forall. intros e He p Hp. right. exists e. split; [|done]. by exists f, m. }
  intros [n errors] _.
  eapply k_bind; [apply k_failure_of, (k_replay_reload _ _ _ _)|]. intros f2 _.
  eapply k_bind; [apply k_failure_of, (k_replay_service _ _ _ _)|]. intros f3 _.
  eapply k_bind; [apply k_catch, k_any, in_unlink, area_marker|]. intros ? _. by apply k_ret.
Qed.

Lemma k_lock_state : keeps I allowed J2 (lock_state s) (fun _ => True).
Proof.
  eapply k_attempt; [apply k2_within, in_create_dir_all; intros p Hp; by do 3 right|].
  intros [?|e] _; [|by apply (k_res _ _ _ _ (fun _ => True))].
  eapply k_attempt; [apply k2_within, in_open_create; right; right; by left|].
  intros [?|e] _; [|by apply (k_res _ _ _ _ (fun _ => True))]. destruct (lock_is_free s); [by apply k_ret|apply k_fail].
Qed.

Lemma k_serve idle turns : hspec I allowed J2 (serve s idle turns) (fun _ => J).
Proof.
  eapply h_bind; [apply k_lock_state| |by intros e x d [[? _] _]]. intros l.
  eapply h_pre with (P' := J2); [|by intros x d [? _]].
  eapply h_bind with (R := fun _ => J); [| |done].
  - destruct (is_held l); [|by apply h_ret; intros x d [? _]].
    eapply h_bind; [apply k_recover_pending| |done]. intros ?. by apply h_ret.
  - intros ?. eapply h_post; [apply k_serve_locked|]. by intros r x d [? _].
Qed.

End Confine.

(** ** A monitor without the lock *)

(** Asking for a declared check or for the status of a declared service. *)
Definition harmless (s : Setup) (c : HookCall) : Prop :=
  match c with RanCheck _ _ | ReadStatus _ => allowed s c | _ => False end.

Section Unlocked.
Variable s : Setup.
Variable d0 : Disk.

#[local] Instance harmless_scope : Scope s (candidate_area s) (harmless s).
Proof. split; [done|intros e p He; by exists e|intros e He; by exists e]. Qed.

#[local] Abbreviation idle x := (pending x = None).
#[local] Abbreviation I := (near (candidate_area s) d0).
#[local] Abbreviation J := (fun x d => I d /\ idle x).
#[local] Abbreviation inside m := (keeps I (harmless s) J m (fun _ => True)).

Lemma k_idle {E} : keeps (E := E) I (harmless s) J current_pending (fun p => p = None).
Proof. eapply (h_get _ _ _ _ (fun x _ => pending x)); [done|]. intros x d [Hd Hx]. split; [done|]. by intros ? [= <-]. Qed.

Lemma k_no_deadline : inside (enforce_deadline s).
Proof. eapply k_bind; [apply k_idle|]. intros ? ->. by apply k_ret. Qed.

Lemma k_quiet r : changes_state r = false -> inside (dispatch s r).
Proof.
  intros Hr. eapply k_bind; [apply k_get|]. intros m _. destruct (greeted m); simpl.
  - eapply k_bind with (R := fun _ => True).
    + destruct r as [| | | |b []| | | | | | | | | | | | |]; try done; try (by apply k_ret); try apply k_answer;
        try (apply k_run_check; apply _); try (apply k_status; apply _); auto using k_read_target, k_list.
      eapply k_bind; [apply k_idle|]. intros ? _. by apply k_ret.
    + intros resp _. apply k_answered.
  - destruct r; try by apply k_ret. destruct (_ =? _)%N; [|by apply k_ret].
    eapply k_bind; [|intros ? _; by apply k_ret]. apply k_set. by intros x d [Hd Hx].
Qed.

(** A request that changes state is turned away: greet first, then hold the lock. *)
Lemma handle_refused r h : changes_state r = true ->
  handle s false r h = (Ok (Resp.Error (if greeted (mon h) then PErr.StateLockUnavailable else PErr.HandshakeRequired)), h).
Proof.
  intros Hr. unfold handle, dispatch, mbind, MM_bind, attempt, get. rewrite Hr, andb_true_r. cbn [negb andb].
  destruct (greeted (mon h)) eqn:Hg; [done|]. rewrite Hg. by destruct r.
Qed.

Lemma k_handle_unlocked r : inside (handle s false r).
Proof.
  destruct (changes_state r) eqn:Hr.
  - intros h Hh. rewrite handle_refused by done. split_and!; [by exists []|exists []; by rewrite app_nil_r|apply Hh..|done].
  - eapply k_bind; [apply k_get|]. intros m _. rewrite Hr, andb_false_r. by apply k_quiet.
Qed.

Lemma k_loop_unlocked idle_timeout timeout turns : inside (serve_loop s idle_timeout timeout false turns).
Proof.
  revert timeout. induction turns as [|t turns IH]; intros timeout; [by apply k_ret|]. cbn [serve_loop].
  eapply k_bind; [apply k_idle|]. intros p ->. cbv zeta.
  assert (Hnext : inside (_ ← enforce_deadline s; serve_loop s idle_timeout idle_timeout false turns)).
  { eapply k_bind; [apply k_no_deadline|]. intros ? _. apply IH. }
  destruct (if timeout =? idle_timeout then _ else _) as [[]|]; try apply k_fail; [by apply k_ret|].
  destruct (received t) as [[r|]|[]]; try apply k_fail; try (by apply k_ret); [|exact Hnext].
  eapply k_bind; [apply k_handle_unlocked|]. intros resp _. destruct (on_send t) as [e|]; [by apply (k_res _ _ _ _ (fun _ => True))|].
  eapply k_bind; [apply k_send|]. intros ? _.
  destruct r; first [by apply k_ret|destruct (is_fatal resp); [by apply k_ret|exact Hnext]].
Qed.

Lemma k_unlocked idle_timeout turns : inside (serve_locked s idle_timeout Unavailable turns).
Proof.
  eapply k_attempt; [apply k_loop_unlocked|]. intros r _. eapply k_attempt.
  - eapply k_bind; [apply k_idle|]. intros ? ->. by apply (k_ret _ _ _ _ (fun _ => True)).
  - intros c _. by apply (k_res _ _ _ _ (fun _ => True)).
Qed.

End Unlocked.

(** ** Properties *)

(** C1: The monitor is confined. Whatever the worker sends, in whatever order, and
    whatever system calls fail, from the recovery at start-up to the rollback at
    exit: at every moment the disk differs from the one at the start only in
    target files of the allow-list, their temporary files and backups, candidate
    files, the monitor's own state files and, when an earlier monitor left a
    commit marker, the files that the entries of this marker name, which the
    recovery takes as they stand; when they name targets with their own backups,
    nothing is added. No directory is replaced; every check run, service acted on,
    mount or update started is one the modules declare and the configuration
    permits; and what the monitor remembers for a rollback are again targets with
    their own backups. The one assumption is that no target of the allow-list, with
    its backups and temporary files, is the commit marker itself. *)
Theorem monitor_confined s idle_timeout turns h :
  mon h = new_monitor -> (forall t, t ∈ a_targets (allow s) -> ~ target_area s t (marker_path s)) ->
  let d := disk (fs h) in
  let h' := (serve s idle_timeout turns h).2 in
  (exists new, seen (fs h') = new ++ seen (fs h) /\ Forall (near (wide s d) d) new
     /\ ((forall e, left_over s d e -> known_entry s e) -> Forall (near (area s) d) new))
  /\ (exists calls, trace h' = trace h ++ calls /\ Forall (allowed s) calls)
  /\ known s (mon h').
Proof.
  intros Hm Ha. destruct (k_serve s (disk (fs h)) Ha idle_timeout turns h) as ((new & Hs & Hn) & H2 & H3).
  - rewrite Hm. split; [|done]. split; [apply near_refl|]. by split.
  - split_and!; [|done|apply H3]. exists new. split_and!; [done..|]. intros Hk.
    eapply Forall_impl; [exact Hn|]. intros d' H. eapply near_weaken; [exact H|]. intros p. by apply wide_known.
Qed.

(** C13: Without the state lock the monitor only answers questions. Whatever is
    sent, a monitor that could not take the lock and has no commit pending
    touches nothing but candidate files and the staging directory, and asks only
    for checks and for the status of services; so it does not disturb the monitor
    that holds the lock. *)
Theorem unlocked_harmless s idle_timeout turns h :
  pending (mon h) = None ->
  let h' := (serve_locked s idle_timeout Unavailable turns h).2 in
  (exists new, seen (fs h') = new ++ seen (fs h) /\ Forall (near (candidate_area s) (disk (fs h))) new)
  /\ (exists calls, trace h' = trace h ++ calls /\ Forall (harmless s) calls)
  /\ pending (mon h') = None.
Proof.
  intros Hp. destruct (k_unlocked s (disk (fs h)) idle_timeout turns h) as (H1 & H2 & H3).
  - split; [apply near_refl|done].
  - split_and!; [done..|apply H3].
Qed.

(** A session with a write, a rollback and a failing disk. *)
Lemma monitor_confined_witness :
  let s := Lab.setup 97 (fun n => if (n =? 30)%nat then Some (FOther, O) else None) in
  let h' := (serve s 5000 [Lab.hello; Lab.write (lit "new"); Lab.arm 60] (Lab.host Lab.before)).2 in
  (exists new, seen (fs h') = new ++ [Lab.before] /\ Forall (near (area s) Lab.before) new)
  /\ (exists calls, trace h' = [] ++ calls /\ Forall (allowed s) calls)
  /\ known s (mon h').
Proof.
  pose proof (monitor_confined (Lab.setup 97 (fun n => if (n =? 30)%nat then Some (FOther, O) else None)) 5000
    [Lab.hello; Lab.write (lit "new"); Lab.arm 60] (Lab.host Lab.before)) as H.
  destruct H as ((new & Hs & _ & Hn) & Hc & Hk); [reflexivity| |].
  - intros t Ht%list_elem_of_In. simpl in Ht. destruct Ht as [<-|[]].
    intros [H|[(dir & i & Hd & H)|[H|[H|[n H]]]]]; try discriminate H.
    + vm_compute in Hd. injection Hd as <-. discriminate H.
    + revert H. apply (bool_decide_eq_false_1 (_ ∈ _)). vm_compute. reflexivity.
  - split; [|split; [exact Hc|exact Hk]]. exists new. split; [exact Hs|]. apply Hn.
    intros e (f & m & Hf & _). vm_compute in Hf. discriminate Hf.
Defined.

Lemma unlocked_harmless_witness :
  let s := Lab.setup 97 Lab.quiet in
  let h' := (serve_locked s 5000 Unavailable [Lab.hello; Lab.write (lit "new"); Lab.arm 60] (Lab.host Lab.before)).2 in
  (exists new, seen (fs h') = new ++ [Lab.before] /\ Forall (near (candidate_area s) Lab.before) new)
  /\ (exists calls, trace h' = [] ++ calls /\ Forall (harmless s) calls)
  /\ pending (mon h') = None.
Proof. apply unlocked_harmless. reflexivity. Defined.
