(* ===== verification/Recover.v ===== *)
(** * Recovery of a write that was cut off

    [recover_in_place] of [monitor.rs] against the crash states of
    [write_atomic]: wherever the write of a target stopped, the next start finds
    the target whole again, or refuses to run before it was touched. *)

From Stdlib Require Import ZArith.
From stdpp Require Import gmap sorting.
From S2P Require Import Prelude Str Num Ip Utf8 Doc Diag Descriptor Disk Atomic AtomicSafe Restore Frames Proto Transport Allow.
From S2P Require Import ExecDeny Hooks Monitor MonitorLogic MonitorDemo Confine.
#[local] Open Scope Z_scope.

Abbreviation whatever := (fun _ : Disk => True).
Abbreviation any_call := (fun _ : HookCall => True).

(** Two facts about one run. *)
Lemma spec_both {E A} (I I' P : Disk -> Prop) (m : M E A) (Q Q' : result E A -> Disk -> Prop) :
  spec I P m Q -> spec I' P m Q' -> spec whatever P m (fun r d => Q r d /\ Q' r d).
Proof.
  intros H H' st Hst. destruct (H st Hst) as [(new & E1 & _) H1]. destruct (H' st Hst) as [_ H2]. split; [|done].
  exists new. split; [done|]. by apply Forall_true.
Qed.

Lemma spec_whatever {E A} (I P : Disk -> Prop) (m : M E A) (Q : result E A -> Disk -> Prop) : spec I P m Q -> spec whatever P m Q.
Proof. intros H. by eapply spec_weaken. Qed.

(** ** The marker file *)

Section Marker.
Variable s : Setup.
Hypothesis calm : ~ faulty (env (w s)).
Variable d : Disk.

Lemma h_read_file p : hspec whatever any_call (fun _ d' => d' = d) (read_marker s p) (fun r x d' => d' = d /\
  match d !! p with Some (Regular f) => r = Ok (Some (contents f)) | None => r = Ok None | _ => True end).
Proof.
  eapply h_attempt with (R := fun r x d' => d' = d /\
    match d !! p with Some (Regular f) => r = Ok (contents f) | None => r = Err NOENT | _ => True end).
  - apply h_disk. intros x. eapply spec_bind with (R := fun r d' => d' = d /\
      match d !! p with Some (Regular f) => r = Ok f | None => r = Err NOENT | _ => True end).
    + apply spec_read; [done|done| |done]. intros n d' ->. simpl. by destruct (d !! p) as [[]|].
    + intros f. apply spec_read; [done|done| |done]. intros n d' [-> Hf]. simpl. by destruct (d !! p) as [[]|].
    + intros e d' [-> H]. split; [done|]. destruct (d !! p) as [[]|]; naive_solver.
  - intros [raw|e]; [|destruct (bool_decide _) eqn:E]; [apply h_ret|apply h_ret|apply h_fail]; intros x d' [-> H]; (split; [done|]);
      destruct (d !! p) as [[]|]; naive_solver.
Qed.

(** Removing the marker leaves the rest. *)
Lemma h_remove_marker (P : Disk -> Prop) md mn : split_path (in_place_marker s) = Ok (md, mn) ->
  (forall d', P d' -> is_directory d' md /\ holds (in_place_marker s) some_file d') ->
  hspec whatever any_call (fun _ => P) (remove_in_place_marker s)
    (fun r x d' => r = Ok () /\ exists d1, P d1 /\ d' = delete (in_place_marker s) d1).
Proof.
  intros Hs HP. apply h_catch, h_disk. intros _. pose proof (split_path_join _ _ _ Hs) as Em.
  eapply spec_post; [apply (remove_marker_spec (w s) whatever (in_place_marker s) md mn Hs P
    (fun d' => exists d1, P d1 /\ d' = delete (in_place_marker s) d1)); [done|done|]|].
  - intros d' Hd. destruct (HP d' Hd) as [_ (f & Hf & _)]. eauto.
  - intros [[]|e] d'; cbn [on_ok]; [by eauto|]. intros [H Hf]. exfalso. apply calm, Hf. destruct H as [H|(d1 & H & ->)].
    + apply HP, H.
    + destruct (HP _ H) as [[m Hm] _]. exists m. rewrite lookup_delete_ne; [done|]. rewrite Em. intros E.
      pose proof (f_equal (fun q => length (components q)) E) as El. simpl in El. rewrite length_app in El. simpl in El. lia.
Qed.

End Marker.

(** ** After the crash *)

(** The same monitor, started again: its tables, its digests and its JSON. A
    record reads back from what was written, and not from a part of that. *)
Record restarted (s s' : Setup) : Prop := {
  same_tables : allow s' = allow s;
  same_digest : sha256 (w s') = sha256 (w s);
  json_whole : forall m j, to_vec (w s) m = Some j -> marker_from_slice s' j = Some m;
  json_part : forall m j k, to_vec (w s) m = Some j -> take k j <> j -> marker_from_slice s' (take k j) = None;
}.

Section Recover.
Variables (s s' : Setup) (t : TargetEntry) (expected : option Sha256Digest) (b : rbytes).
Variables (d0 d : Disk) (dir : Path) (name : rstr).
#[local] Abbreviation req := (write_request s t expected b).
#[local] Abbreviation target := (join_name dir name).
#[local] Abbreviation B := (te_backup_dir t).
#[local] Abbreviation mk := (in_place_marker s).

Hypothesis lay : layout req dir name.
Hypothesis crashed : safe (w s) req d0 dir name d.
Hypothesis no_marker : d0 !! mk = None.

(** The target is whole: as it was, or as it was to be. *)
Definition whole (d' : Disk) : Prop :=
  d' !! target = d0 !! target \/ holds target (fun f => contents f = b) d'
  \/ exists f0, d0 !! target = Some (Regular f0) /\ holds target (fun f => contents f = contents f0) d'.

(** What the marker names. *)
Definition record (f0 : File) (n : rstr) : InPlaceMarker :=
  mkMarker target (Some (join_name B n)) (sha256 (w s) (contents f0)) (sha256 (w s) b).

Definition marked_by (f0 : File) (n : rstr) (json : rbytes) (f : File) : Prop :=
  d0 !! target = Some (Regular f0) /\ to_vec (w s) (record f0 n) = Some json
  /\ d !! mk = Some (Regular f) /\ begun json f
  /\ holds (join_name B n) (fun x => contents x = contents f0) d /\ is_directory d B.

Lemma crash_cases :
  d !! mk = None /\ whole d
  \/ exists f0 n json f, marked_by f0 n json f
       /\ (contents f <> json /\ d !! target = d0 !! target \/ contents f = json /\ holds target some_file d).
Proof.
  destruct crashed as (_ & Ht & Hm). destruct (Hm mk eq_refl) as [E|(f0 & n & json & _ & Hf0 & Hj & (f & Hf & Hb) & Hbk & HB & Hor)].
  - left. rewrite no_marker in E. split; [done|]. unfold whole. destruct Ht as [?|[?|(f0 & _ & _ & [H|(m & n & j & [= <-] & _ & (f & Hf & _) & _)])]];
      [by left|by right; left|discriminate H|congruence].
  - right. exists f0, n, json, f. split; [by split_and!|]. destruct (decide (contents f = json)) as [E|E].
    + right. split; [done|]. destruct Ht as [E1|[(x & Hx & _)|(x & _ & (y & Hy & _) & _)]].
      * exists f0. by rewrite E1, Hf0.
      * by exists x.
      * by exists y.
    + left. split; [done|]. destruct Hor as [(f' & Hf' & E')|?]; [|done]. congruence.
Qed.

Hypothesis again : restarted s s'.
Hypothesis calm : ~ faulty (env (w s')).
Hypothesis state_dir : is_directory d (state_root (config (allow s))).
Hypothesis listed : t ∈ take 65536 (a_targets (allow s)).
Hypothesis is_file : te_kind t = Wire.File.
Hypothesis free : forall fb, exists f1, good (w s') (restoring B target None Guarded fb) d dir name f1.
Hypothesis digest_new : forall x, sha256 (w s) x = sha256 (w s) b -> x = b.
Hypothesis digest_old : forall f0 x, d0 !! target = Some (Regular f0) -> sha256 (w s) x = sha256 (w s) (contents f0) -> x = contents f0.

Lemma same_marker : in_place_marker s' = mk.
Proof. unfold in_place_marker. by rewrite (same_tables _ _ again). Qed.

Lemma target_path : te_path t = target.
Proof. by apply split_path_join, (lay_path _ _ _ lay). Qed.

Lemma marker_split : split_path mk = Ok (state_root (config (allow s)), IN_PLACE_MARKER)
  /\ state_root (config (allow s)) <> dir /\ state_root (config (allow s)) <> B.
Proof.
  destruct (lay_marker _ _ _ lay mk eq_refl) as (md & mn & Hs & H1 & H2 & _).
  pose proof (split_path_join _ _ _ Hs) as E. apply join_inj in E as [-> ->]. done.
Qed.

Lemma restore_layout fb : layout (restoring B target None Guarded fb) dir name.
Proof.
  destruct lay as [H1 H2 H3 H4 H5 H6 _]. split; try done. simpl. rewrite <- target_path. exact H1.
Qed.

Lemma entry_found f0 n : exists e, marked_entry s' (record f0 n) = Some e.
Proof.
  unfold marked_entry. rewrite (same_tables _ _ again). destruct (List.find _ _) as [e|] eqn:E; [by exists e|].
  apply list_elem_of_In in listed. pose proof (find_none _ _ E t listed) as H. simpl in H.
  rewrite target_path, is_file, parent_join in H. by rewrite !bool_decide_true in H.
Qed.

Lemma h_current f : d !! target = Some (Regular f) ->
  hspec whatever any_call (fun _ d' => d' = d) (current_digest (E := MonitorError) s' target)
    (fun r _ d' => r = Ok (Some (sha256 (w s) (contents f))) /\ d' = d).
Proof.
  intros Hf. pose proof (lay_path _ _ _ lay) as Hs. simpl in Hs. rewrite target_path in Hs.
  destruct (free f) as [f1 Hg]. eapply h_attempt.
  - apply h_disk. intros x. apply (spec_whatever whatever). by apply (read_with_digest_spec (w s') _ _ _ _ _ Hs).
  - intros [[c g]|e]; cbn [on_ok]; intros h [E H].
    + destruct H as (f' & Hf' & [= -> ->]). rewrite E, Hf in Hf'. simplify_eq.
      split_and!; [by exists []|exists []; by rewrite app_nil_r|by rewrite (same_digest _ _ again)|done].
    + exfalso. apply calm, H; rewrite E; [apply Hg|by exists f].
Qed.

(** The marker stands and the target is [whole] up to it. *)
Definition ready (d' : Disk) : Prop :=
  whole d' /\ is_directory d' (state_root (config (allow s'))) /\ holds (in_place_marker s') some_file d'.

Lemma h_unmark (o : InPlaceOutcome) :
  hspec whatever any_call (fun _ => ready) (_ ← remove_in_place_marker s'; mret o)
    (fun r _ d' => r = Ok o /\ d' !! mk = None /\ whole d').
Proof.
  destruct marker_split as (Hs & H1 & H2). rewrite <- same_marker in Hs.
  eapply h_bind; [apply (h_remove_marker s' calm ready _ _ Hs)| |by intros e x d' [? _]].
  - intros d' (_ & ? & ?). by rewrite <- (same_tables _ _ again).
  - intros []. apply h_ret. intros x d' [_ (d1 & (Hw & _) & ->)]. rewrite same_marker. split_and!; [done|apply lookup_delete_eq|].
    assert (Hne : mk <> target).
    { rewrite (split_path_join _ _ _ (proj1 marker_split)). by intros [? _]%join_inj. }
    unfold whole, holds. by rewrite lookup_delete_ne.
Qed.

Lemma h_restored f0 n f : d0 !! target = Some (Regular f0) -> d !! mk = Some (Regular f) ->
  holds (join_name B n) (fun x => contents x = contents f0) d -> is_directory d B -> split_path (join_name B n) = Ok (B, n) ->
  hspec whatever any_call (fun _ d' => d' = d) (on_disk (restore_backup_with (w s') (join_name B n) target None Guarded))
    (fun r _ d' => (exists out, r = Ok out) /\ ready d').
Proof.
  intros Hf0 Hmk (fb & Hfb & Hc) HB Hsp. apply h_disk. intros _. destruct marker_split as (Hms & Hm1 & Hm2).
  destruct (lay_marker _ _ _ lay mk eq_refl) as (md & mn & _ & _ & _ & Hm3 & _).
  eapply spec_post.
  - eapply spec_both.
    + apply (restore_spec (w s') _ B target n d dir name None Guarded fb); [done|done|done|apply restore_layout].
    + eapply spec_pre; [|by intros d' ->; apply near_refl].
      apply (in_restore_dir (w s') (fun _ => True) _ _ _ _ B); [apply parent_join|done].
  - intros [out|e] d' [H1 [[_ Hdirs] _]]; cbn [on_ok] in H1.
    + destruct H1 as ((f' & Hf' & Hc') & Hfr & _). split; [by eauto|]. split_and!.
      * right. right. exists f0. split; [done|]. exists f'. split; [done|]. simpl in Hc'. congruence.
      * rewrite (same_tables _ _ again). by apply Hdirs.
      * rewrite same_marker. exists f. split; [|done]. rewrite Hfr; [done|].
        rewrite (split_path_join _ _ _ Hms) in Hm3 |- *.
        intros [[E _]%join_inj|[?|[[? _]|E]]]; [done|done|done|]. rewrite parent_join in E. by injection E.
    + exfalso. destruct H1 as (_ & _ & H). destruct (free fb) as [f1 Hg]. destruct (H f1 Hg) as [(x & Hx & _)|?]; done.
Qed.

(** A complete marker: recovery makes the target whole and removes the marker. *)
Lemma h_recover f0 n json f : marked_by f0 n json f -> contents f = json -> holds target some_file d ->
  split_path (join_name B n) = Ok (B, n) ->
  hspec whatever any_call (fun _ d' => d' = d) (recover_in_place s')
    (fun r _ d' => (exists o, r = Ok o) /\ d' !! mk = None /\ whole d').
Proof.
  intros (Hf0 & Hj & Hf & _ & Hbk & HB) Ec (ft & Hft & _) Hsp.
  eapply h_bind; [apply (h_read_file s' calm d)| |].
  2: { intros e x d' [-> H]. rewrite same_marker, Hf in H. discriminate H. }
  intros raw. eapply h_pre with (P' := fun _ d' => raw = Some json /\ d' = d).
  2: { intros x d' [-> H]. rewrite same_marker, Hf in H. split; [|done]. congruence. }
  apply h_assume. intros ->. rewrite (json_whole _ _ again _ _ Hj). destruct (entry_found f0 n) as [e ->]. cbn [m_backup record m_path].
  eapply h_bind with (R := fun r _ d' => (exists o, r = Ok o) /\ d' !! mk = None /\ whole d').
  2: { intros o. apply h_ret. naive_solver. }
  2: { naive_solver. }
  eapply h_bind; [by apply h_current|intros now_|by intros e' x d' [? _]].
  eapply h_pre with (P' := fun _ d' => now_ = Some (sha256 (w s) (contents ft)) /\ d' = d); [|by intros x d' [[= ->] ->]].
  apply h_assume. intros ->. cbn [m_new m_prev record].
  assert (Hready : whole d -> ready d).
  { intros Hw. split; [done|]. rewrite (same_tables _ _ again), same_marker. split; [done|]. by exists f. }
  destruct (_ || _) eqn:E.
  - eapply h_weaken; [apply (h_unmark Whole)| |naive_solver]. intros x d' ->. apply Hready.
    apply orb_true_iff in E as [[= E]%bool_decide_eq_true|[= E]%bool_decide_eq_true].
    + right. left. exists ft. eauto.
    + right. right. exists f0. split; [done|]. exists ft. eauto.
  - eapply h_attempt; [by eapply h_restored|]. intros [out|e'].
    + eapply h_weaken; [apply (h_unmark Restored)|naive_solver|naive_solver].
    + intros h [[out H] _]. discriminate H.
Qed.

(** No marker, or the beginning of one. *)
Lemma h_nothing : d !! mk = None ->
  hspec whatever any_call (fun _ d' => d' = d) (recover_in_place s') (fun r _ d' => d' = d /\ exists o, r = Ok o).
Proof.
  intros Hm. eapply h_bind; [apply (h_read_file s' calm d)| |]; rewrite same_marker, Hm.
  - intros raw. eapply h_pre with (P' := fun _ d' => raw = None /\ d' = d); [|by intros x d' [-> [= ->]]].
    apply h_assume. intros ->. apply h_ret. by eauto.
  - by intros e x d' [_ ?].
Qed.

Lemma h_partial f0 n json f : marked_by f0 n json f -> contents f <> json ->
  hspec whatever any_call (fun _ d' => d' = d) (recover_in_place s') (fun r _ d' => d' = d /\ r = Err MErr.CorruptMarker).
Proof.
  intros (_ & Hj & Hf & [k Hk] & _) Hpart. eapply h_bind; [apply (h_read_file s' calm d)| |]; rewrite same_marker, Hf.
  - intros raw. eapply h_pre with (P' := fun _ d' => raw = Some (contents f) /\ d' = d); [|by intros x d' [-> [= ->]]].
    apply h_assume. intros ->. rewrite Hk in Hpart |- *. rewrite (json_part _ _ again _ _ _ Hj Hpart). by apply h_fail.
  - by intros e x d' [_ ?].
Qed.

End Recover.

Lemma split_join_name p n : is_absolute p = true -> split_path (join_name p n) = Ok (p, n).
Proof.
  intros H. unfold split_path. rewrite parent_join. unfold file_name. simpl. rewrite H, last_snoc. done.
Qed.

(** ** Properties *)

(** C4: Recovery completes a crash. Cut the monitor's write of a target off
    anywhere, whatever calls failed before, and start the monitor again on the
    disk as it was then, with nothing in its way. Either the marker was not yet
    complete, and then the target still is the old file and the monitor refuses to
    start; or recovery succeeds, no marker is left, and the target holds all of
    the old or all of the new contents. (The digest must not confuse the old or
    the new contents with others.) *)
Theorem crash_recovered s s' t expected b d0 dir name d h :
  layout (write_request s t expected b) dir name ->
  d0 !! in_place_marker s = None ->
  d ∈ seen (write_atomic (w s) (write_request s t expected b) (start d0)).2 ->
  disk (fs h) = d -> restarted s s' -> ~ faulty (env (w s')) ->
  t ∈ take 65536 (a_targets (allow s)) -> te_kind t = Wire.File -> is_absolute (te_backup_dir t) = true ->
  is_directory d (state_root (config (allow s))) ->
  (forall fb, exists f1, good (w s') (restoring (te_backup_dir t) (join_name dir name) None Guarded fb) d dir name f1) ->
  (forall x, sha256 (w s) x = sha256 (w s) b -> x = b) ->
  (forall f0 x, d0 !! join_name dir name = Some (Regular f0) -> sha256 (w s) x = sha256 (w s) (contents f0) -> x = contents f0) ->
  let '(r, h') := recover_in_place s' h in
  r = Err MErr.CorruptMarker /\ disk (fs h') !! join_name dir name = d0 !! join_name dir name
  \/ (exists o, r = Ok o) /\ disk (fs h') !! in_place_marker s = None /\ whole b d0 dir name (disk (fs h')).
Proof.
  intros lay H0 Hd Eh again calm listed kind_ abs state_dir free Hnew Hold.
  assert (Hsafe : safe (w s) (write_request s t expected b) d0 dir name d).
  { destruct (spec_run _ _ _ d0 (write_atomic_spec (w s) _ d0 _ _ lay)) as [H _]; [apply start_safe|].
    rewrite Forall_forall in H. by apply H. }
  assert (Hrun : forall Q : result MonitorError (option InPlaceRecovered) -> Assertion,
    hspec whatever any_call (fun _ d' => d' = d) (recover_in_place s') Q ->
    Q (recover_in_place s' h).1 (mon (recover_in_place s' h).2) (disk (fs (recover_in_place s' h).2))) by (intros Q HQ; by apply (HQ h)).
  destruct (recover_in_place s' h) as [r h']. cbn [fst snd] in Hrun.
  destruct (crash_cases s t expected b d0 d dir name Hsafe H0) as [[Hm Hw]|(f0 & n & json & f & Hmk & [[Hpart Ht]|[Hc Ht]])].
  - destruct (Hrun _ (h_nothing s s' d again calm Hm)) as [-> Ho]. by right.
  - destruct (Hrun _ (h_partial s s' t b d0 d dir name again calm f0 n json f Hmk Hpart)) as [-> ->]. by left.
  - right. apply (Hrun _ (h_recover s s' t expected b d0 d dir name lay Hsafe again calm state_dir listed kind_ free Hnew Hold
      f0 n json f Hmk Hc Ht (split_join_name _ _ abs))).
Qed.

(** ** A torn [/etc/hosts] *)

Module Torn.

(** The directory refuses the temporary file, so the write is made in place; the
    host stops just after it has emptied the file. *)
Definition s : Setup := Lab.setup 97 (fun n => if (n =? 20)%nat then Some (FReadOnly, O) else None).
(** The host after the restart. *)
Definition s' : Setup := Lab.setup 122 Lab.quiet.

Definition hosts_entry : TargetEntry := mkTargetEntry 0 0 (lit "/etc/hosts") Wire.File 420 Lab.backups.
Definition req : WriteRequest := write_request s hosts_entry None (lit "new").
Definition disks : list Disk := seen (write_atomic (w s) req (start Lab.before)).2.
Definition is_empty_file (d : Disk) : bool := bool_decide (Lab.at_path Lab.hosts d = Some []).
Definition torn : Disk := default Lab.before (List.find is_empty_file disks).

Lemma torn_seen : torn ∈ disks.
Proof.
  unfold torn. destruct (List.find is_empty_file disks) as [d|] eqn:E; [by apply find_elem in E as [? _]|]. exfalso.
  assert (H : existsb is_empty_file disks = true) by (by vm_compute).
  apply existsb_exists in H as (d & Hd & H). by rewrite (find_none _ _ E d Hd) in H.
Qed.

Lemma hosts_layout : layout req Lab.etc (lit "hosts").
Proof.
  split; try reflexivity; try done.
  - by apply (bool_decide_eq_false_1 (_ ∈ _)); vm_compute.
  - intros n. apply Demo.deep_outside. simpl. lia.
  - intros [k E]. discriminate E.
  - intros m [= <-]. exists Lab.state, IN_PLACE_MARKER.
    split_and!; try done; apply (bool_decide_eq_false_1 (_ ∈ _)); by vm_compute.
Qed.

Lemma nothing_in_the_way fb : exists f1, good (w s') (restoring Lab.backups (join_name Lab.etc (lit "hosts")) None Guarded fb) torn Lab.etc (lit "hosts") f1.
Proof.
  destruct (Demo.is_file_by torn (join_name Lab.etc (lit "hosts"))) as [f1 Hf]; [by vm_compute|]. exists (Some f1). split.
  - apply Demo.is_dir_by. by vm_compute.
  - apply Demo.passable_by. by vm_compute.
  - exact Hf.
  - split; [apply Demo.passable_by; by vm_compute|]. intros t. eexists. split; [reflexivity|]. apply Demo.free_name. by vm_compute.
  - split; [apply Demo.absent_by; by vm_compute|]. by apply (bool_decide_eq_false_1 (_ ∈ _)); vm_compute.
Qed.

Lemma digest_inj x y : sha256 (w s) x = sha256 (w s) y -> x = y.
Proof. apply list_fmap_eq_inj. intros a c. apply N2Z.inj. Qed.

Lemma again : restarted s s'.
Proof.
  split; [done|done|intros m j; apply of_as_number|]. intros m j k. apply of_number_part.
Qed.

End Torn.

Lemma crash_recovered_witness :
  Lab.at_path Lab.hosts Torn.torn = Some []
  /\ let '(r, h') := recover_in_place Torn.s' (Lab.host Torn.torn) in
     r = Err MErr.CorruptMarker /\ disk (fs h') !! Lab.hosts = Lab.before !! Lab.hosts
     \/ (exists o, r = Ok o) /\ disk (fs h') !! in_place_marker Torn.s = None
        /\ whole (lit "new") Lab.before Lab.etc (lit "hosts") (disk (fs h')).
Proof.
  split; [by vm_compute|].
  apply (crash_recovered Torn.s Torn.s' Torn.hosts_entry None (lit "new") Lab.before Lab.etc (lit "hosts") Torn.torn).
  - apply Torn.hosts_layout.
  - by vm_compute.
  - apply Torn.torn_seen.
  - reflexivity.
  - apply Torn.again.
  - by intros (n & f & [=]).
  - apply list_elem_of_lookup_2 with O. by vm_compute.
  - reflexivity.
  - reflexivity.
  - apply Demo.is_dir_by. by vm_compute.
  - apply Torn.nothing_in_the_way.
  - intros x. apply Torn.digest_inj.
  - intros f0 x _. apply Torn.digest_inj.
Defined.
