(* ===== verification/Commit.v ===== *)
(** * Commit-confirm

    The commit a worker arms with [StartConfirmTimer] ([monitor.rs]): the marker
    on the disk follows the pending commit, and a commit that is not confirmed is
    taken back. *)

From Stdlib Require Import ZArith.
From stdpp Require Import gmap sorting.
From S2P Require Import Prelude Str Num Ip Utf8 Doc Diag Descriptor Disk Atomic AtomicSafe Restore Frames Proto Transport Allow.
From S2P Require Import ExecDeny Hooks Monitor MonitorLogic MonitorDemo Confine Recover.
#[local] Open Scope Z_scope.

(** The commit marker lies apart from what the handlers write. *)
Record marker_apart_from_files (s : Setup) : Prop := {
  apart_targets : forall t, t ∈ a_targets (allow s) -> ~ target_area s t (marker_path s);
  apart_candidates : ~ candidate_area s (marker_path s);
}.

(** The marker holds the commit that is pending, and there is none without one. *)
Definition synced (s : Setup) (x : Monitor) (d : Disk) : Prop :=
  match pending x with
  | None => d !! marker_path s = None
  | Some p => exists ms f, d !! marker_path s = Some (Regular f)
      /\ pending_to_vec s (mkPendingMarker (p_commit p) ms (p_entries p) (p_service p)) = Some (contents f)
  end.

Section Commit.
Variable s : Setup.
Hypothesis apart : marker_apart_from_files s.
#[local] Abbreviation mp := (marker_path s).

(** ** Requests about something else *)

Definition elsewhere (p : Path) : Prop := area s p /\ p <> mp.

#[local] Instance elsewhere_scope p0 : WriteScope s elsewhere any_call (fun x => known s x /\ pending x = p0).
Proof.
  split; [split; [split; [|done|done]|done]|..].
  - intros p Hp. split; [by do 2 right|]. intros ->. by destruct (apart_candidates s apart).
  - intros t p Ht Hp. split; [left; by eauto|]. intros ->. by eapply (apart_targets s apart).
  - split; [right; left; by left|]. by intros [_ ?]%join_inj.
  - intros id t out x Ht Hb [Hk Hx]. split; [by apply journaled_known|]. unfold journaled. by destruct (backup out).
  - by intros x [[? ?] ?].
Qed.

Lemma elsewhere_marker d0 d : near elsewhere d0 d -> d !! mp = d0 !! mp.
Proof. intros [H _]. apply H. by intros [_ ?]. Qed.

(** What leaves the pending commit and the marker alone. *)
Definition steady {E A} (m : MM E A) : Prop :=
  forall d0 p0, keeps (near elsewhere d0) any_call (fun x d => near elsewhere d0 d /\ known s x /\ pending x = p0) m (fun _ => True).

Definition good_state (x : Monitor) (d : Disk) : Prop := known s x /\ synced s x d.

(** [m] keeps the state good, unless it fails. *)
Definition holds_up {E A} (P : Assertion) (m : MM E A) (R : A -> Assertion) : Prop :=
  hspec whatever any_call P m (fun r x d => match r with Ok a => R a x d | Err _ => True end).

Lemma steady_run {E A} (m : MM E A) h : steady m -> known s (mon h) ->
  (exists new, seen (fs (m h).2) = new ++ seen (fs h) /\ Forall whatever new)
  /\ (exists calls, trace (m h).2 = trace h ++ calls /\ Forall any_call calls)
  /\ known s (mon (m h).2) /\ pending (mon (m h).2) = pending (mon h) /\ disk (fs (m h).2) !! mp = disk (fs h) !! mp.
Proof.
  intros Hm Hk. destruct (Hm (disk (fs h)) (pending (mon h)) h) as ((new & E1 & _) & H2 & [(Hd & Hx & Hp) _]).
  { split; [apply near_refl|done]. }
  split_and!; [exists new; split; [done|by apply Forall_true]|done|done|done|by apply elsewhere_marker].
Qed.

Lemma steady_good {E A} (m : MM E A) : steady m -> holds_up good_state m (fun _ => good_state).
Proof.
  intros Hm h [Hk Hs]. destruct (steady_run m h Hm Hk) as (H1 & H2 & Hx & Hp & Hd). split_and!; [done|done|].
  destruct (m h).1; [|done]. split; [done|]. unfold synced in *. by rewrite Hp, Hd.
Qed.

Lemma plain_steady r : commit_request r = false -> steady (dispatch s r).
Proof. intros Hr d0 p0. by apply (k_plain _ _ _ _). Qed.

(** ** Rolling back, confirming, arming *)

Lemma up_weaken {E A} (P P' : Assertion) (m : MM E A) (R R' : A -> Assertion) :
  holds_up P' m R' -> (forall x d, P x d -> P' x d) -> (forall a x d, R' a x d -> R a x d) -> holds_up P m R.
Proof. intros H HP HR. eapply h_weaken; [exact H|done|]. intros [a|e] x d; [apply HR|done]. Qed.

Lemma up_bind {E A B} P (m : MM E A) (k : A -> MM E B) R Q :
  holds_up P m R -> (forall a, holds_up (R a) (k a) Q) -> holds_up P (m ≫= k) Q.
Proof. intros Hm Hk. eapply h_bind; [exact Hm|exact Hk|done]. Qed.

Lemma up_ret {E A} (P : Assertion) (a : A) (R : A -> Assertion) : (forall x d, P x d -> R a x d) -> holds_up (E := E) P (mret a) R.
Proof. intros H. by apply h_ret. Qed.

Lemma up_pending {E B} (P : Assertion) (k : option Pending -> MM E B) Q :
  (forall p, holds_up (fun x d => pending x = p /\ P x d) (k p) Q) -> holds_up P (p ← current_pending; k p) Q.
Proof.
  intros Hk. eapply up_bind with (R := fun p x d => pending x = p /\ P x d); [|exact Hk].
  by eapply (h_get _ _ _ _ (fun x _ => pending x)).
Qed.

(** No commit is pending; the marker may still be there. *)
Definition settled (x : Monitor) (d : Disk) : Prop := known s x /\ pending x = None.

Lemma up_clear : holds_up settled (clear_marker s) (fun _ => good_state).
Proof.
  assert (Hgood : forall x d, settled x d -> d !! mp = None -> good_state x d).
  { intros x d [Hk Hp] Hd. split; [done|]. unfold synced. by rewrite Hp. }
  eapply h_attempt with (R := fun r x d => match r with Ok _ => good_state x d | Err e => settled x d /\ (e = NOENT -> d !! mp = None) end).
  - apply h_disk. intros x. apply spec_sys.
    + intros n d Hd. split; [done|]. destruct (d !! mp) as [[]|] eqn:E; simpl;
        [by apply Hgood, lookup_delete_eq|by apply Hgood, lookup_delete_eq|by split|by apply Hgood, lookup_delete_eq|by split].
    + intros f d Hd _. split; [done|]. by destruct f.
  - intros [?|e]; [by apply h_ret|]. destruct (bool_decide (kind e = NotFound)) eqn:E; [|by apply h_fail].
    apply h_ret. intros x d [Hs He]. apply Hgood; [done|]. apply He. bool_to_prop. by destruct e.
Qed.

Lemma steady_settled {E A} (m : MM E A) : steady m -> holds_up settled m (fun _ => settled).
Proof.
  intros Hm h [Hk Hs]. destruct (steady_run m h Hm Hk) as (H1 & H2 & Hx & Hp & _). split_and!; [done|done|].
  destruct (m h).1; [|done]. split; [done|]. by rewrite Hp.
Qed.

Lemma up_undo {A} (m : MM HookError A) : steady m -> holds_up settled (logged_only (F := MonitorError) m) (fun _ => settled).
Proof. intros Hm. apply steady_settled. intros d0 p0. eapply k_logged, Hm. Qed.

Lemma up_roll_back_commit p : Forall (known_entry s) (p_entries p) -> holds_up settled (roll_back_commit s p) (fun _ => good_state).
Proof.
  intros Hp. eapply up_bind; [apply up_undo; intros d0 p0; apply (k_stop_mounts _ _ _ _)|]. intros ?.
  eapply up_bind with (R := fun _ => settled).
  { apply steady_settled. intros d0 p0. eapply k_bind; [apply (k_restore_each _ _ _ _); by rewrite reverse_Permutation|].
    intros [? ?] _. by apply k_ret. }
  intros n. eapply up_bind; [apply up_undo; intros d0 p0; apply (k_replay_reload _ _ _ _)|]. intros ?.
  eapply up_bind; [apply up_undo; intros d0 p0; apply (k_replay_service _ _ _ _)|]. intros ?.
  eapply up_bind; [apply up_clear|]. intros ?. by apply up_ret.
Qed.

(** Taking the pending commit off. *)
Lemma up_take {E} p : holds_up (E := E) (fun x d => pending x = Some p /\ good_state x d) (set_monitor (set_pending None))
  (fun _ x d => Forall (known_entry s) (p_entries p) /\ settled x d).
Proof. apply h_set. intros x d [Hp [[H1 H2] _]]. split; [by apply H2|]. by split. Qed.

Lemma up_assume {E A} (C : Prop) P (m : MM E A) R : (C -> holds_up P m R) -> holds_up (fun x d => C /\ P x d) m R.
Proof. apply h_assume. Qed.

Lemma up_clock {E} P : holds_up (E := E) P (read_clock (instant s)) (fun _ => P).
Proof. by apply h_clock. Qed.

Lemma up_deadline : holds_up good_state (enforce_deadline s) (fun _ => good_state).
Proof.
  apply up_pending. intros [p|]; [|by apply up_ret; intros x d [_ ?]]. eapply up_bind; [apply up_clock|]. intros t.
  destruct (t <? p_deadline p); [by apply up_ret; intros x d [_ ?]|]. eapply up_bind; [apply up_take|]. intros ?.
  apply up_assume. intros Hp. eapply up_bind; [by apply up_roll_back_commit|]. intros ?. by apply up_ret.
Qed.

Lemma up_rollback c : holds_up good_state (rollback_commit s c) (fun _ => good_state).
Proof.
  apply up_pending. intros [p|]; [|by apply up_ret; intros x d [_ ?]].
  destruct (p_commit p =? c)%N; [|by apply up_ret; intros x d [_ ?]]. simpl.
  eapply up_bind; [apply up_take|]. intros ?. apply up_assume. intros Hp.
  eapply up_bind; [by apply up_roll_back_commit|]. intros ?. by apply up_ret.
Qed.

Lemma up_confirm c : holds_up good_state (confirm_commit s c) (fun _ => good_state).
Proof.
  apply up_pending. intros [p|]; [|by apply up_ret; intros x d [_ ?]].
  destruct (p_commit p =? c)%N; [|by apply up_ret; intros x d [_ ?]]. simpl.
  eapply up_bind; [apply up_clock|]. intros t. destruct (p_deadline p <=? t).
  - eapply up_bind; [eapply up_weaken; [apply up_deadline|by intros x d [_ ?]|done]|]. intros ?. by apply up_ret.
  - eapply up_bind; [apply up_take|]. intros ?. apply up_assume. intros _. eapply up_bind with (R := fun _ => settled).
    + destruct (starts_mounts s _); [|by apply up_ret]. apply up_undo. intros d0 p0. by apply k_hook.
    + intros ?. eapply up_bind; [apply up_clear|]. intros ?. by apply up_ret.
Qed.

Lemma up_disk {E A} (m : M E A) R P : within (fun _ => True) m R -> (forall x d d', P x d -> P x d') -> holds_up P (on_disk m) (fun _ => P).
Proof.
  intros Hm HP. apply h_disk. intros x st Hst. destruct (Hm (disk st) st (near_refl _ _)) as [(new & E1 & _) _].
  split; [exists new; split; [done|by apply Forall_true]|]. destruct (m st).1; [|done]. by eapply HP.
Qed.

(** The marker is written whole, or arming fails. *)
Lemma up_write_pending m : holds_up settled (write_pending_marker s m)
  (fun _ x d => settled x d /\ exists f, d !! mp = Some (Regular f) /\ pending_to_vec s m = Some (contents f)).
Proof.
  assert (Hany : forall x d d', settled x d -> settled x d') by done.
  eapply up_bind with (R := fun _ => settled).
  { eapply h_catch, h_post; [eapply up_disk; [by apply in_create_dir_all|exact Hany]|by intros [] ? ?]. }
  intros ?. destruct (pending_to_vec s m) as [json|]; [|by apply h_fail].
  eapply h_catch, h_disk. intros x.
  eapply spec_bind with (R := on_ok (fun _ d => settled x d /\ exists f, d !! mp = Some (Regular f) /\ contents f = []) (fun _ _ => True)); [| |done].
  { apply spec_sys; [|done]. intros n d Hd. destruct (d !! mp) as [[]|]; simpl; try done;
      (split; [done|]; split; [done|]; eexists; split; [apply lookup_insert_eq|done]). }
  intros ?. eapply spec_bind with (R := on_ok (fun _ d => settled x d /\ exists f, d !! mp = Some (Regular f) /\ Some json = Some (contents f)) (fun _ _ => True)); [| |done].
  { apply spec_write_all; [done| |done]. intros t d (Hd & f & Hf & Hc). split; [done|]. eexists. split; [by apply on_file_eq|].
    simpl. by rewrite Hc. }
  intros ?. apply spec_read; [done|done| |done]. by intros n d Hd.
Qed.

Lemma up_start c timeout_s ps : holds_up good_state (start_confirm_timer s c timeout_s ps) (fun _ => good_state).
Proof.
  apply up_pending. intros [p|]; [by apply up_ret; intros x d [_ ?]|].
  eapply up_bind with (R := fun es x d => Forall (known_entry s) es /\ settled x d).
  { eapply (h_get _ _ _ _ (fun x _ => journal x)); [done|]. by intros x d [Hp [[H1 H2] _]]. }
  intros es. apply up_assume. intros Hes. eapply up_bind with (R := fun _ => settled).
  { apply h_set. intros x d [[H1 H2] Hp]. by split. }
  intros ?. eapply up_bind; [apply up_clock|]. intros t. cbv zeta. destruct (instant_limit s <? _); [by apply h_fail|].
  eapply up_bind with (R := fun _ => settled).
  { eapply up_disk; [|done]. eapply in_bind; [apply in_now|]. intros ? _. by apply (in_ret _ _ anything). }
  intros ms. eapply up_bind; [apply up_write_pending|]. intros ?. eapply up_bind with (R := fun _ => good_state); [|intros ?; by apply up_ret].
  apply h_set. intros x d [[[H1 H2] Hp] (f & Hf & Hj)]. split.
  - split; [done|]. by intros ? [= <-].
  - unfold synced. simpl. eauto.
Qed.

(** ** The whole session *)

Lemma up_dispatch r : holds_up good_state (dispatch s r) (fun _ => good_state).
Proof.
  destruct (commit_request r) eqn:Hr; [|by apply steady_good, plain_steady].
  eapply up_bind with (R := fun _ => good_state); [by eapply (h_get _ _ _ _ (fun x _ => x))|]. intros m.
  destruct (greeted m); simpl; [|destruct r; try done; by apply up_ret].
  eapply up_bind with (R := fun _ => good_state); [destruct r; try done; auto using up_start, up_confirm, up_rollback|].
  intros resp. apply steady_good. intros d0 p0. apply k_answered.
Qed.

Lemma up_handle lock r : holds_up good_state (handle s lock r) (fun _ => good_state).
Proof.
  eapply up_bind with (R := fun _ => good_state); [by eapply (h_get _ _ _ _ (fun x _ => x))|]. intros m.
  destruct (_ && _); [by apply up_ret|apply up_dispatch].
Qed.

Lemma up_serve_loop idle timeout lock turns : holds_up good_state (serve_loop s idle timeout lock turns) (fun _ => good_state).
Proof.
  revert timeout. induction turns as [|t turns IH]; intros timeout; [by apply up_ret|]. cbn [serve_loop].
  apply up_pending. intros p. eapply h_pre with (P' := good_state); [|by intros x d [_ ?]].
  set (want := match p with Some _ => _ | None => _ end).
  assert (Hnext : holds_up good_state (_ ← enforce_deadline s; serve_loop s idle want lock turns) (fun _ => good_state)).
  { eapply up_bind; [apply up_deadline|]. intros ?. apply IH. }
  assert (Hfail : forall e, holds_up good_state (fail (A := ExitReason) (E := MonitorError) e) (fun _ => good_state)) by (intros e; by apply h_fail).
  destruct (if timeout =? want then _ else _) as [[]|]; try apply Hfail; [by apply up_ret|].
  destruct (received t) as [[r|]|[]]; try apply Hfail; try (by apply up_ret); [|exact Hnext].
  eapply up_bind; [apply up_handle|]. intros resp. destruct (on_send t) as [e|]; [by apply h_still; destruct (finish_send_error e)|].
  eapply up_bind with (R := fun _ => good_state); [by apply h_send|]. intros ?.
  destruct r; first [by apply up_ret|destruct (is_fatal resp); [by apply up_ret|exact Hnext]].
Qed.

Lemma up_on_exit : holds_up good_state (rollback_pending_on_exit s) (fun _ => good_state).
Proof.
  apply up_pending. intros [p|]; [|by apply up_ret; intros x d [_ ?]]. eapply up_bind; [apply up_take|]. intros ?.
  apply up_assume. intros Hp. eapply up_bind; [by apply up_roll_back_commit|]. intros ?. by apply up_ret.
Qed.

(** Rolling back does not touch the monitor's memory. *)
Definition unmoved {E A} (m : MM E A) : Prop := forall h, mon (m h).2 = mon h.

Lemma unmoved_attempt {E F A B} (m : MM E A) (k : result E A -> MM F B) : unmoved m -> (forall r, unmoved (k r)) -> unmoved (attempt m k).
Proof. intros Hm Hk h. unfold attempt. specialize (Hm h). destruct (m h) as [r h']. by rewrite Hk. Qed.
Lemma unmoved_bind {E A B} (m : MM E A) (k : A -> MM E B) : unmoved m -> (forall a, unmoved (k a)) -> unmoved (m ≫= k).
Proof. intros Hm Hk. apply unmoved_attempt; [done|]. by intros [a|e]. Qed.
Lemma unmoved_disk {E A} (m : M E A) : unmoved (on_disk m).
Proof. intros h. unfold on_disk. by destruct (m (fs h)). Qed.
Lemma unmoved_restore_each {E} es : unmoved (restore_each (E := E) s es).
Proof.
  induction es as [|e es IH]; [done|]. cbn [restore_each]. apply unmoved_bind; [apply unmoved_attempt; [apply unmoved_disk|done]|].
  intros r. apply unmoved_bind; [exact IH|]. by intros [].
Qed.
Lemma unmoved_replay_service ps : unmoved (replay_service s ps).
Proof.
  unfold replay_service. destruct ps as [ps|]; [|done]. destruct (binding _ _); [|done]. destruct (to_core _); [|done].
  destruct (negb _); [done|]. by apply unmoved_bind.
Qed.

Lemma unmoved_roll_back_commit p : unmoved (roll_back_commit s p).
Proof.
  apply unmoved_bind; [apply unmoved_attempt; [unfold stop_started_mounts; destruct (starts_mounts _ _); [by apply unmoved_bind|done]|done]|]. intros ?.
  apply unmoved_bind; [apply unmoved_bind; [apply unmoved_restore_each|by intros []]|]. intros n.
  apply unmoved_bind; [apply unmoved_attempt; [unfold replay_reload; destruct (existsb _ _); [by apply unmoved_bind|done]|done]|]. intros ?.
  apply unmoved_bind; [apply unmoved_attempt; [apply unmoved_replay_service|done]|]. intros ?.
  apply unmoved_bind; [|done]. apply unmoved_attempt; [apply unmoved_disk|]. intros [?|e]; [done|]. by destruct (bool_decide _).
Qed.

Lemma exit_settles h : pending (mon (rollback_pending_on_exit s h).2) = None.
Proof.
  unfold rollback_pending_on_exit, current_pending, mbind, MM_bind, attempt, get, set_monitor. cbn [fst snd].
  destruct (pending (mon h)) as [p|] eqn:E; [|done]. cbv iota.
  set (h1 := mkHost _ _ _ _ _ _). pose proof (unmoved_roll_back_commit p h1) as H.
  destruct (roll_back_commit s p h1) as [[n|e] h2]; simpl in *; by rewrite H.
Qed.

End Commit.

(** ** The journal *)

#[local] Instance anywhere_scope s : Scope s (fun _ => True) any_call.
Proof. by split. Qed.

(** A write changes the monitor's memory by its journal entry, and only when it
    succeeds. *)
Lemma h_write_target s id expected b j m0 : hspec whatever any_call (fun x _ => x = m0) (write_target s id expected b j)
  (fun r x _ => match r with
                | Ok (Resp.Written rc) => exists t out, target (allow s) id = Some t /\ rc = mkReceipt id (prev_digest out) (new_digest out)
                    (created out) (match backup out with Some _ => true | None => false end) (owner_preserved out)
                    /\ x = if j then journaled id t out m0 else m0
                | _ => x = m0
                end).
Proof.
  assert (Hk : forall {E A} (m : MM E A), (forall d0, keeps (near (fun _ => True) d0) any_call (fun x d => near (fun _ => True) d0 d /\ x = m0) m (fun _ => True)) ->
    hspec whatever any_call (fun x _ => x = m0) m (fun _ x _ => x = m0)).
  { intros E A m Hm h Hh. destruct (Hm (disk (fs h)) h (conj (near_refl _ _) Hh)) as ((new & E1 & _) & H2 & [[_ H3] _]).
    split_and!; [exists new; split; [done|by apply Forall_true]|done|done]. }
  unfold write_target. destruct (target (allow s) id) as [t|] eqn:Et; [|by apply h_ret].
  eapply h_bind with (R := fun r x _ => x = m0); [| |by intros [] ? ? ->].
  - apply Hk. intros d0. eapply k_attempt; [apply k_any, in_read_with_digest|].
    intros [[c ?]|e] _; [by apply k_ret|]. destruct (not_found e); [by apply k_ret|apply k_fail].
  - intros previous. eapply h_bind with (R := fun r x _ => x = m0); [apply Hk; intros d0; apply (k_revalidate _ _ _)| |by intros [] ? ? ->].
    intros ?. eapply h_bind with (R := fun r x _ => x = m0); [| |by intros [] ? ? ->].
    + apply Hk. intros d0. eapply k_catch, k_any, in_any. by apply (in_write_atomic _ _ (te_backup_dir t)).
    + intros out. eapply h_bind with (R := fun r x _ => r = Ok () /\ x = if j then journaled id t out m0 else m0); [| |by intros e x d [[=] _]].
      * destruct j; [apply h_set|apply h_ret]; by intros x d ->.
      * intros ?. apply h_ret. intros x d [_ ->]. eauto.
Qed.

(** ** Properties *)

(** C12: The marker follows the commit. From a monitor whose marker on the disk is
    in step with its pending commit, whatever requests come and whatever calls
    fail: as long as the monitor serves, the marker names exactly the pending
    commit, with the backups to restore and the service to run, and there is no
    marker when nothing is pending. When the session is over no commit is pending,
    and unless it ends in an error no marker is left. *)
Theorem commit_marker_synced s idle_timeout lock turns h :
  marker_apart_from_files s -> known s (mon h) -> synced s (mon h) (disk (fs h)) ->
  (forall reason, (serve_loop s idle_timeout idle_timeout (is_held lock) turns h).1 = Ok reason ->
     let h1 := (serve_loop s idle_timeout idle_timeout (is_held lock) turns h).2 in synced s (mon h1) (disk (fs h1)))
  /\ let '(r, h') := serve_locked s idle_timeout lock turns h in
     pending (mon h') = None /\ forall reason, r = Ok reason -> disk (fs h') !! marker_path s = None.
Proof.
  intros Ha Hk Hs. destruct (up_serve_loop s Ha idle_timeout idle_timeout (is_held lock) turns h (conj Hk Hs)) as (_ & _ & H1).
  unfold serve_locked, attempt. destruct (serve_loop _ _ _ _ _ _) as [r1 h1]. cbn [fst snd] in *. split.
  - intros reason ->. apply H1.
  - pose proof (exit_settles s h1) as He. destruct r1 as [reason|e].
    + destruct (up_on_exit s Ha h1 H1) as (_ & _ & H2). destruct (rollback_pending_on_exit s h1) as [[?|e] h2]; cbn [fst snd of_res] in *.
      * split; [done|]. intros _ _. destruct H2 as [_ H2]. unfold synced in H2. by rewrite He in H2.
      * split; [done|]. by intros ? [=].
    + destruct (rollback_pending_on_exit s h1) as [[?|e'] h2]; cbn [fst snd of_res] in *; (split; [done|]; by intros ? [=]).
Qed.

(** Only the last write is armed. While no commit is pending, a journaled
    write that took a backup leaves exactly its own entry in the journal: whatever
    was written since the last commit before it is not covered by the next timer. *)
Theorem journal_last_write s id expected b h rc h' :
  pending (mon h) = None -> write_target s id expected b true h = (Ok (Resp.Written rc), h') -> wr_backed_up rc = true ->
  exists t bk, target (allow s) id = Some t /\ journal (mon h') = [mkRollback id (te_path t) bk (Some (wr_new_digest rc))].
Proof.
  intros Hp Hw Hb. destruct (h_write_target s id expected b true (mon h) h eq_refl) as (_ & _ & H). rewrite Hw in H.
  destruct H as (t & out & Ht & -> & Hx). cbn [wr_backed_up wr_new_digest snd] in *. unfold journaled in Hx. rewrite Hp in Hx.
  destruct (backup out) as [bk|]; [|done]. exists t, bk. split; [done|]. by rewrite Hx.
Qed.

Lemma lab_apart first faults : marker_apart_from_files (Lab.setup first faults).
Proof.
  split.
  - intros t Ht%list_elem_of_In. simpl in Ht. destruct Ht as [<-|[]].
    intros [H|[(dir & i & Hd & H)|[H|[H|[n H]]]]]; try discriminate H.
    + vm_compute in Hd. injection Hd as <-. discriminate H.
    + revert H. apply (bool_decide_eq_false_1 (_ ∈ _)). vm_compute. reflexivity.
  - intros [(dir & i & Hd & [_ H]%join_inj)|[H|(q & Hq & H)]]; [discriminate H|discriminate H|].
    vm_compute in Hq. injection Hq as <-. revert H. apply (bool_decide_eq_false_1 (_ ∈ _)). vm_compute. reflexivity.
Qed.

Lemma commit_marker_synced_witness :
  let s := Lab.setup 97 (fun n => if (n =? 60)%nat then Some (FAccess, O) else None) in
  let turns := [Lab.hello; Lab.write (lit "new"); Lab.arm 60; Lab.wait] in
  (forall reason, (serve_loop s 5000 5000 true turns (Lab.host Lab.before)).1 = Ok reason ->
     let h1 := (serve_loop s 5000 5000 true turns (Lab.host Lab.before)).2 in synced s (mon h1) (disk (fs h1)))
  /\ let '(r, h') := serve_locked s 5000 Held turns (Lab.host Lab.before) in
     pending (mon h') = None /\ forall reason, r = Ok reason -> disk (fs h') !! marker_path s = None.
Proof.
  apply (commit_marker_synced _ 5000 Held).
  - apply lab_apart.
  - split; [constructor|]. intros p H. discriminate H.
  - reflexivity.
Defined.

(** The second of two writes. *)
Lemma journal_last_write_witness :
  let s := Lab.setup 97 Lab.quiet in
  let h := (serve_loop s 5000 5000 true [Lab.hello; Lab.write (lit "first")] (Lab.host Lab.before)).2 in
  let '(r, h') := write_target s 0 None (lit "second") true h in
  forall rc, r = Ok (Resp.Written rc) -> wr_backed_up rc = true ->
  exists t bk, target (allow s) 0 = Some t /\ journal (mon h') = [mkRollback 0 (te_path t) bk (Some (wr_new_digest rc))].
Proof.
  intros s h. destruct (write_target s 0 None (lit "second") true h) as [r h'] eqn:E. intros rc -> Hb.
  refine (journal_last_write s 0 None (lit "second") h rc h' _ E Hb). by vm_compute.
Defined.

Example second_write_is_backed_up :
  let s := Lab.setup 97 Lab.quiet in
  let h := (serve_loop s 5000 5000 true [Lab.hello; Lab.write (lit "first")] (Lab.host Lab.before)).2 in
  match (write_target s 0 None (lit "second") true h).1 with Ok (Resp.Written rc) => wr_backed_up rc | _ => false end = true.
Proof. by vm_compute. Qed.
