(* ===== verification/Undo.v ===== *)
(** * What taking a commit back restores

    A rollback of [monitor.rs]: on request, past the deadline, at the end of a
    session and at the next start, the writes of a commit are undone one after the
    other, the last one first. A target that still holds what was written gets its
    old contents back, an edited one is kept, and one failure does not stop the
    others. *)

From Stdlib Require Import ZArith.
From stdpp Require Import gmap sorting.
From S2P Require Import Prelude Str Num Ip Utf8 Doc Diag Descriptor Disk Atomic AtomicSafe Restore Frames Proto Transport Allow.
From S2P Require Import ExecDeny Hooks Monitor MonitorLogic MonitorDemo Confine Recover Commit.
#[local] Open Scope Z_scope.

(** ** One entry *)

(** The backup [fb] is intact and nothing is in the way of restoring it; [f1] is
    what is at the target. *)
Record undoable (s : Setup) (e : RollbackEntry) (d : Disk) (dir : Path) (name : rstr) (B : Path) (n : rstr) (fb : File)
    (f1 : option File) : Prop := {
  un_path : rb_path e = join_name dir name;
  un_backup : split_path (rb_backup e) = Ok (B, n);
  un_dir : is_directory d B;
  un_file : d !! rb_backup e = Some (Regular fb);
  un_layout : layout (restoring B (join_name dir name) (rb_new_digest e) (Marker (in_place_marker s)) fb) dir name;
  un_good : good (w s) (restoring B (join_name dir name) (rb_new_digest e) (Marker (in_place_marker s)) fb) d dir name f1;
}.

(** Nobody has changed the target since it was written. *)
Definition unedited (s : Setup) (e : RollbackEntry) (f1 : option File) : bool :=
  match rb_new_digest e with
  | None => true
  | Some x => bool_decide ((fun f => sha256 (w s) (contents f)) <$> f1 = Some x)
  end.

(** The target after the turn of the entry, which counts [k]: an unedited one holds
    the contents of the backup, unless a call failed, which leaves it old, restored
    or covered by the marker of a write in place. *)
Definition taken_back (s : Setup) (e : RollbackEntry) (d : Disk) (dir : Path) (name : rstr) (B : Path) (fb : File)
    (f1 : option File) (k : nat) (d' : Disk) : Prop :=
  if unedited s e f1 then
    k = 1%nat /\ holds (join_name dir name) (fun f => contents f = contents fb) d'
    \/ k = O /\ faulty (env (w s))
       /\ safe (w s) (restoring B (join_name dir name) (rb_new_digest e) (Marker (in_place_marker s)) fb) d dir name d'
  else k = O /\ d' !! join_name dir name = d !! join_name dir name.

(** Where the turn of an entry writes. *)
Definition turn_area (s : Setup) (e : RollbackEntry) (p : Path) : Prop := p = in_place_marker s \/ restore_area s e p.

(** The turn of one entry, on the disk it finds. *)
Record turn (s : Setup) (e : RollbackEntry) (d : Disk) (k : nat) (d' : Disk) : Prop := {
  turn_frame : near (turn_area s e) d d';
  turn_count : (k <= 1)%nat;
  turn_undoes dir name B n fb f1 : undoable s e d dir name B n fb f1 -> taken_back s e d dir name B fb f1 k d';
}.

(** ** All entries *)

(** The entries have their turns in order, and each finds the disk the turns before
    it left; the number counts the restores. *)
Inductive undo_run (s : Setup) : list RollbackEntry -> Disk -> nat -> Disk -> Prop :=
| undo_nil d : undo_run s [] d 0 d
| undo_cons e es d k d1 n d2 : turn s e d k d1 -> undo_run s es d1 n d2 -> undo_run s (e :: es) d (k + n) d2.

(** The service action to replay, when the tables still allow it. *)
Definition service_calls (s : Setup) (ps : option PendingService) : list HookCall :=
  default [] (ps ← ps; entry ← binding (allow s) (ps_binding ps); a ← to_core (ps_action ps);
              Some (if decide (a ∈ actions (be_binding entry)) then [ActedOn (be_binding entry) a] else [])).

(** What a rollback asks of the collaborators: mounts first, then the restores, then
    the unit files and the service. *)
Definition mount_calls (s : Setup) (es : list RollbackEntry) : list HookCall := if starts_mounts s es then [StoppedMounts] else [].
Definition reload_calls (s : Setup) (es : list RollbackEntry) : list HookCall :=
  if existsb (fun e => reloads_unit_files_after (allow s) (rb_path e)) es then [ReloadedUnits] else [].
Definition undo_calls (s : Setup) (es : list RollbackEntry) (ps : option PendingService) : list HookCall :=
  mount_calls s es ++ reload_calls s es ++ service_calls s ps.

Section Undo.
Variable s : Setup.
#[local] Abbreviation mp := (marker_path s).

Lemma mismatch_iff e d dir name B n fb f1 : undoable s e d dir name B n fb f1 ->
  mismatch (w s) (restoring B (join_name dir name) (rb_new_digest e) (Marker (in_place_marker s)) fb) d dir name <-> unedited s e f1 = false.
Proof.
  intros able. pose proof (good_old _ _ _ _ _ _ (un_good _ _ _ _ _ _ _ _ _ able)) as Hold. unfold mismatch, unedited. simpl.
  destruct (rb_new_digest e) as [x|].
  - rewrite bool_decide_eq_false. split.
    + intros (y & [= <-] & H). by apply H.
    + intros H. exists x. split; [done|]. intros f2 H2. by rewrite (old_is_fun d dir name f2 f1).
  - split; [by intros (y & [=] & _)|done].
Qed.

Definition counted {E A} (r : result E A) : nat := match r with Ok _ => 1 | Err _ => 0 end.

Lemma restore_taken_back e d dir name B n fb f1 : undoable s e d dir name B n fb f1 ->
  spec whatever (fun d' => d' = d) (restore_entry s e) (fun r d' => taken_back s e d dir name B fb f1 (counted r) d').
Proof.
  intros able. pose proof (mismatch_iff _ _ _ _ _ _ _ _ able) as Hm. destruct able as [Hp Hb HB Hfb Hlay Hgood].
  unfold restore_entry. rewrite Hp. eapply spec_weaken;
    [by apply (restore_spec (w s) (rb_backup e) B (join_name dir name) n d dir name (rb_new_digest e) _ fb)|done|done|].
  unfold taken_back. intros [out|err] d'; cbn [on_ok counted].
  - intros (Hw & _ & _ & Hn & _). rewrite Hm in Hn. destruct (unedited s e f1); [by left|done].
  - intros (Hs & Hk & Hg). destruct (unedited s e f1) eqn:E; [right|by split; [|apply Hk, Hm]].
    split_and!; [done| |done]. by destruct (Hg f1 Hgood) as [?%Hm|?].
Qed.

Lemma restore_turn e st : let '(r, st') := restore_entry s e st in turn s e (disk st) (counted r) (disk st').
Proof.
  destruct (restore_entry s e st) as [r st'] eqn:E. split; [|destruct r; simpl; lia|].
  - destruct (in_restore_entry s (turn_area s e) e (or_introl eq_refl) (fun p H => or_intror H) (disk st) st (near_refl _ _)) as [_ [H _]].
    by rewrite E in H.
  - intros dir name B n fb f1 able. destruct (restore_taken_back e (disk st) dir name B n fb f1 able st eq_refl) as [_ H].
    by rewrite E in H.
Qed.

(** *** The runs *)

Lemma run_bind_ok {E A B} (m : MM E A) (k : A -> MM E B) h a h' : m h = (Ok a, h') -> (m ≫= k) h = k a h'.
Proof. intros H. unfold mbind, MM_bind, attempt. by rewrite H. Qed.

Lemma bind_err {E A B} (m : MM E A) (k : A -> MM E B) h e h' : m h = (Err e, h') -> (m ≫= k) h = (Err e, h').
Proof. intros H. unfold mbind, MM_bind, attempt. by rewrite H. Qed.

Definition on_fs (st : St) (h : Host) : Host := mkHost st (mon h) (trace h) (logged h) (sent h) (ticks h).
Definition called (cs : list HookCall) (h : Host) : Host := mkHost (fs h) (mon h) (trace h ++ cs) (logged h) (sent h) (ticks h).

Lemma restore_each_run {E} es h : exists n errors st', restore_each (E := E) s es h = (Ok (n, errors), on_fs st' h)
  /\ undo_run s es (disk (fs h)) n (disk st') /\ (n + length errors = length es)%nat.
Proof.
  revert h. induction es as [|e es IH]; intros h.
  - exists O, [], (fs h). split_and!; [by destruct h|constructor|done].
  - cbn [restore_each]. unfold mbind, MM_bind, attempt, on_disk. pose proof (restore_turn e (fs h)) as Ht.
    destruct (restore_entry s e (fs h)) as [r st1]. cbv beta iota delta [mret MM_ret].
    destruct (IH (on_fs st1 h)) as (n & errors & st2 & Er & Hr & Hn). unfold on_fs in Er. cbn [mon trace logged sent ticks] in Er. rewrite Er.
    destruct r as [out|err]; (eexists _, _, st2; split; [reflexivity|]); (split; [|simpl; lia]).
    + exact (undo_cons s e es _ 1 (disk st1) n _ Ht Hr).
    + exact (undo_cons s e es _ 0 (disk st1) n _ Ht Hr).
Qed.

(** [m] asks for [cs], whatever it is answered. *)
Definition asks {A} (m : MM HookError A) (cs : list HookCall) : Prop := forall h, exists r, m h = (r, called cs h).

Lemma asks_nothing {A} (r : result HookError A) : asks (fun h => (r, h)) [].
Proof. intros h. exists r. unfold called. rewrite app_nil_r. by destruct h. Qed.

Lemma asks_hook {A} c (a : nat -> result HookError A) : asks (_ ← call_hook c a; mret ()) [c].
Proof. intros h. unfold mbind, MM_bind, attempt, call_hook. destruct (a _); by eexists. Qed.

Lemma asks_mounts es : asks (stop_started_mounts s es) (mount_calls s es).
Proof. unfold stop_started_mounts, mount_calls. destruct (starts_mounts s es); [apply asks_hook|apply asks_nothing]. Qed.

Lemma asks_reload es : asks (replay_reload s es) (reload_calls s es).
Proof. unfold replay_reload, reload_calls. destruct (existsb _ es); [apply asks_hook|apply asks_nothing]. Qed.

Lemma asks_service ps : asks (replay_service s ps) (service_calls s ps).
Proof.
  unfold replay_service, service_calls. destruct ps as [ps|]; [|apply asks_nothing]. cbn [mbind option_bind].
  destruct (binding (allow s) (ps_binding ps)) as [entry|]; [|apply asks_nothing]. cbn [mbind option_bind].
  destruct (to_core (ps_action ps)) as [a|]; [|apply asks_nothing]. cbn [mbind option_bind].
  destruct (decide (a ∈ actions (be_binding entry))).
  - rewrite bool_decide_eq_true_2 by done. apply asks_hook.
  - rewrite bool_decide_eq_false_2 by done. apply asks_nothing.
Qed.

Lemma logged_run {E} (m : MM HookError ()) cs h : asks m cs -> logged_only (F := E) m h = (Ok (), called cs h).
Proof. intros H. unfold logged_only, attempt. by destruct (H h) as [r ->]. Qed.

Lemma failure_run {E} (m : MM HookError ()) cs h : asks m cs -> exists l, failure_of (E := E) m h = (Ok l, called cs h).
Proof. intros H. unfold failure_of, attempt. destruct (H h) as [r ->]. by eexists. Qed.

(** Removing the marker at the end. *)
Lemma unlink_run st : (exists f, disk st !! mp = Some (Regular f)) -> exists r st', unlink (env (w s)) mp st = (r, st')
  /\ match r with
     | Ok _ => disk st' = delete mp (disk st)
     | Err e => e <> NOENT /\ faulty (env (w s)) /\ disk st' = disk st
     end.
Proof.
  intros [f Hf]. unfold unlink, sys. destruct (fault (env (w s)) (calls st)) as [[x k]|] eqn:Ex.
  - eexists _, _. split; [reflexivity|]. split_and!; [by destruct x| |done]. eexists _, _. exact Ex.
  - rewrite Hf. by eexists _, _.
Qed.

Lemma turn_area_marker e : marker_apart_from_files s -> known_entry s e -> ~ turn_area s e mp.
Proof.
  intros apart He [E|H]; [by apply join_inj in E as [_ ?]|].
  destruct (known_restore_area s e mp He H) as (t & Ht & Hm). by apply (apart_targets s apart t Ht).
Qed.

Lemma undo_run_marker es d n d' : marker_apart_from_files s -> Forall (known_entry s) es -> undo_run s es d n d' -> d' !! mp = d !! mp.
Proof.
  intros apart Hes H. induction H as [|e es d k d1 n d2 Ht _ IH]; [done|]. apply Forall_cons in Hes as [He Hes]. rewrite IH by done.
  apply (turn_frame _ _ _ _ _ Ht). by apply turn_area_marker.
Qed.

Lemma roll_back_run p h f : marker_apart_from_files s -> Forall (known_entry s) (p_entries p) -> disk (fs h) !! mp = Some (Regular f) ->
  exists n d1 r h', roll_back_commit s p h = (r, h') /\ undo_run s (reverse (p_entries p)) (disk (fs h)) n d1
    /\ mon h' = mon h /\ trace h' = trace h ++ undo_calls s (p_entries p) (p_service p)
    /\ match r with
       | Ok k => k = n /\ disk (fs h') = delete mp d1
       | Err e => faulty (env (w s)) /\ (exists source, e = MErr.State (lit "remove_file") source) /\ disk (fs h') = d1
       end.
Proof.
  intros apart Hes Hf. unfold roll_back_commit, roll_back, mbind, MM_bind, attempt.
  rewrite (logged_run _ _ _ (asks_mounts _)).
  destruct (restore_each_run (E := MonitorError) (reverse (p_entries p)) (called (mount_calls s (p_entries p)) h)) as (n & errors & st & -> & Hr & _).
  unfold mret at 1, MM_ret at 1. rewrite (logged_run _ _ _ (asks_reload _)), (logged_run _ _ _ (asks_service _)).
  unfold clear_marker, attempt, on_disk. cbn [fs called on_fs mon trace logged sent ticks].
  destruct (unlink_run st) as (r & st' & -> & Hu).
  { exists f. rewrite <- Hf. eapply undo_run_marker; [done| |exact Hr]. by rewrite reverse_Permutation. }
  destruct r as [[]|err].
  - eexists n, (disk st), _, _. split; [reflexivity|]. cbn [fs mon trace]. split_and!; [exact Hr|done| |done|exact Hu].
    unfold undo_calls. by rewrite !(assoc_L (++)).
  - destruct Hu as (Hne & Hfault & Hu). rewrite (bool_decide_eq_false_2 (kind err = NotFound)) by (by destruct err).
    eexists n, (disk st), _, _. split; [reflexivity|]. cbn [fs mon trace]. split_and!; [exact Hr|done| |done|by eexists|exact Hu].
    unfold undo_calls. by rewrite !(assoc_L (++)).
Qed.

(** ** At the next start *)

Lemma read_run st f : disk st !! mp = Some (Regular f) -> exists r st', read_file (env (w s)) mp st = (r, st') /\ disk st' = disk st
  /\ (r = Ok (contents f) \/ exists e, r = Err e /\ e <> NOENT /\ faulty (env (w s))).
Proof.
  intros Hf. assert (Hfail : forall n x k, fault (env (w s)) n = Some (x, k) -> errno_of x <> NOENT /\ faulty (env (w s))).
  { intros n x k H. split; [by destruct x|by eexists _, _]. }
  unfold read_file, open_read, on_handle, sys, mbind, M_bind, try. destruct (fault (env (w s)) (calls st)) as [[x k]|] eqn:E1.
  - eexists _, _. split; [reflexivity|]. split; [done|]. right. eexists. split; [done|]. by eapply Hfail.
  - rewrite Hf. cbn [calls disk seen]. destruct (fault (env (w s)) (S (calls st))) as [[x k]|] eqn:E2.
    + eexists _, _. split; [reflexivity|]. split; [done|]. right. eexists. split; [done|]. by eapply Hfail.
    + rewrite Hf. eexists _, _. split; [reflexivity|]. split; [done|]. by left.
Qed.

Lemma read_marker_run h f : disk (fs h) !! mp = Some (Regular f) -> exists r h', read_marker s mp h = (r, h')
  /\ trace h' = trace h /\ disk (fs h') = disk (fs h) /\ (r = Ok (Some (contents f)) \/ exists e, r = Err e /\ faulty (env (w s))).
Proof.
  intros Hf. unfold read_marker, attempt, on_disk.
  destruct (read_run (fs h) f Hf) as (r & st & -> & Est & [->|(e & -> & Hne & Hfault)]).
  - eexists _, _. split; [reflexivity|]. split_and!; [done..|by left].
  - rewrite bool_decide_eq_false_2 by (by destruct e). eexists _, _. split; [reflexivity|]. split_and!; [done..|]. right. by eexists.
Qed.

(** What asks the collaborators for nothing. *)
Definition silent {E A} (m : MM E A) : Prop := forall h, trace (m h).2 = trace h.

Lemma silent_attempt {E F A B} (m : MM E A) (k : result E A -> MM F B) : silent m -> (forall r, silent (k r)) -> silent (attempt m k).
Proof. intros Hm Hk h. unfold attempt. specialize (Hm h). destruct (m h) as [r h']. by rewrite Hk. Qed.
Lemma silent_bind {E A B} (m : MM E A) (k : A -> MM E B) : silent m -> (forall a, silent (k a)) -> silent (m ≫= k).
Proof. intros Hm Hk. apply silent_attempt; [done|]. by intros [a|e]. Qed.
Lemma silent_disk {E F A B} (m : M E A) (k : result E A -> MM F B) : (forall r, silent (k r)) -> silent (attempt (on_disk m) k).
Proof. intros Hk. apply silent_attempt; [|done]. intros h. unfold on_disk. by destruct (m (fs h)). Qed.

Lemma silent_in_place : silent (recover_in_place s).
Proof.
  assert (Hrm : silent (remove_in_place_marker s)) by (apply silent_disk; by intros []).
  apply silent_bind; [apply silent_disk; intros [?|e]; [done|]; by destruct (bool_decide _)|]. intros [raw|]; [|done].
  destruct (marker_from_slice s raw) as [m|]; [|done]. apply silent_bind; [|done].
  destruct (marked_entry s m); [|by apply silent_bind]. destruct (m_backup m); [|by apply silent_bind].
  apply silent_bind; [by apply silent_disk|]. intros now_. destruct (_ || _); [by apply silent_bind|].
  apply silent_disk. intros [?|e]; [by apply silent_bind|done].
Qed.

(** The commit marker waits while a write in place is recovered. *)
Lemma in_place_keeps_marker h : marker_apart_from_files s -> mon h = new_monitor ->
  disk (fs (recover_in_place s h).2) !! mp = disk (fs h) !! mp.
Proof.
  intros apart Hm. destruct (k2_recover_in_place s (disk (fs h)) (apart_targets s apart) h) as (_ & _ & [_ H] & _); [|exact H].
  rewrite Hm. split; [|done]. split; [apply near_refl|by split].
Qed.

Lemma no_in_place h : ~ faulty (env (w s)) -> disk (fs h) !! in_place_marker s = None ->
  (recover_in_place s h).1 = Ok None /\ disk (fs (recover_in_place s h).2) = disk (fs h).
Proof.
  intros calm Hn. assert (Hc : forall n, fault (env (w s)) n = None).
  { intros n. destruct (fault (env (w s)) n) as [x|] eqn:E; [|done]. destruct calm. by eexists _, _. }
  unfold recover_in_place, read_marker, attempt, on_disk, read_file, open_read, sys, mbind, MM_bind, M_bind, try, attempt.
  by rewrite Hc, Hn.
Qed.

(** What the recovery does with the commit [m] it reads in the marker. *)
Lemma recover_run h h0 o m f : marker_apart_from_files s -> recover_in_place s h = (Ok o, h0) ->
  disk (fs h0) !! mp = Some (Regular f) -> pending_from_slice s (contents f) = Some m -> Forall (known_entry s) (pm_entries m) ->
  exists r h', recover_pending s h = (r, h')
    /\ match r with
       | Ok answer => exists n d1 before errors after, undo_run s (reverse (pm_entries m)) (disk (fs h0)) n d1
           /\ disk (fs h') = delete mp d1 /\ trace h' = trace h0 ++ undo_calls s (pm_entries m) (pm_service m)
           /\ (n + length errors = length (pm_entries m))%nat
           /\ answer = Some (mkRecovered (pm_commit m) n (before ++ (atomic_text s <$> errors) ++ after))
       | Err _ => disk (fs h') !! mp = Some (Regular f) /\ faulty (env (w s))
       end.
Proof.
  intros apart E0 Hf Hm Hes. unfold recover_pending. rewrite (run_bind_ok _ _ _ _ _ E0).
  destruct (read_marker_run h0 f Hf) as (r & h1 & E1 & Ht & Hd & [->|(e & -> & Hfault)]).
  2: { rewrite (bind_err _ _ _ _ _ E1). eexists _, _. split; [reflexivity|]. by rewrite Hd. }
  rewrite (run_bind_ok _ _ _ _ _ E1), Hm.
  destruct (failure_run (E := MonitorError) _ _ h1 (asks_mounts (pm_entries m))) as [l1 E2]. rewrite (run_bind_ok _ _ _ _ _ E2).
  destruct (restore_each_run (E := MonitorError) (reverse (pm_entries m)) (called (mount_calls s (pm_entries m)) h1)) as (n & errors & st & E3 & Hr & Hn).
  cbn [fs called] in Hr. rewrite Hd in Hr. rewrite (run_bind_ok _ _ _ _ _ E3). set (h2 := on_fs st _).
  destruct (failure_run (E := MonitorError) _ _ h2 (asks_reload (pm_entries m))) as [l2 E4]. rewrite (run_bind_ok _ _ _ _ _ E4).
  destruct (failure_run (E := MonitorError) _ _ (called (reload_calls s (pm_entries m)) h2) (asks_service (pm_service m))) as [l3 E5].
  rewrite (run_bind_ok _ _ _ _ _ E5).
  assert (Hst : disk st !! mp = Some (Regular f)).
  { rewrite <- Hf. eapply undo_run_marker; [done| |exact Hr]. by rewrite reverse_Permutation. }
  destruct (unlink_run st) as (r & st' & Eu & Hu); [by exists f|].
  unfold catch_err, on_disk, attempt, mbind, MM_bind, attempt, h2, called, on_fs. cbn [fs mon trace logged sent ticks]. rewrite Eu.
  destruct r as [[]|err]; (eexists _, _; split; [reflexivity|]); cbn [fs trace].
  - exists n, (disk st), l1, errors, (l2 ++ l3). rewrite length_reverse in Hn. split_and!; [exact Hr|exact Hu| |exact Hn|].
    + rewrite Ht. unfold undo_calls. by rewrite !(assoc_L (++)).
    + done.
  - destruct Hu as (_ & Hfault & ->). done.
Qed.

End Undo.

(** ** The ways a commit is taken back *)

Inductive Way := OnRequest | PastDeadline | LateConfirm | AtExit.

Definition take_back (s : Setup) (p : Pending) (way : Way) : MM MonitorError (option Response) :=
  match way with
  | OnRequest => r ← rollback_commit s (p_commit p); mret (Some r)
  | PastDeadline => _ ← enforce_deadline s; mret None
  | LateConfirm => r ← confirm_commit s (p_commit p); mret (Some r)
  | AtExit => _ ← rollback_pending_on_exit s; mret None
  end.

(** Two of the ways are open only once the deadline has passed. *)
Definition open_to (s : Setup) (p : Pending) (way : Way) (h : Host) : Prop :=
  match way with PastDeadline | LateConfirm => p_deadline p <= instant s (ticks h) | OnRequest | AtExit => True end.

Definition reply (p : Pending) (way : Way) (restored : nat) : option Response :=
  match way with
  | OnRequest => Some (Resp.RolledBack (p_commit p) (Z.min 65535 (Z.of_nat restored)))
  | LateConfirm => Some (Resp.Error (PErr.CommitExpired (p_commit p)))
  | PastDeadline | AtExit => None
  end.

(** Every way is the same rollback, with the commit taken off first. *)
Lemma take_back_eq s p way h : pending (mon h) = Some p -> open_to s p way h -> (forall i, instant s i <= instant s (S i)) ->
  exists t, take_back s p way h =
    let '(r, h') := roll_back_commit s p (mkHost (fs h) (set_pending None (mon h)) (trace h) (logged h) (sent h) t) in
    (match r with
     | Ok k => Ok (reply p way k)
     | Err e => Err e
     end, h').
Proof.
  intros Hp Ho Hmono. destruct way; cbn [open_to] in Ho; [exists (ticks h)|exists (S (ticks h))|exists (S (S (ticks h)))|exists (ticks h)];
    unfold take_back, rollback_commit, enforce_deadline, confirm_commit, enforce_deadline, rollback_pending_on_exit, current_pending, mbind,
      MM_bind, attempt, get, set_monitor, read_clock; rewrite ?Hp, ?N.eqb_refl; cbn [negb].
  - by destruct (roll_back_commit _ _ _) as [[]].
  - rewrite (proj2 (Z.ltb_ge _ _)) by done. by destruct (roll_back_commit _ _ _) as [[]].
  - rewrite (proj2 (Z.leb_le _ _)) by done. cbn [mon ticks]. rewrite Hp. specialize (Hmono (ticks h)).
    rewrite (proj2 (Z.ltb_ge _ _)) by (simpl; lia). by destruct (roll_back_commit _ _ _) as [[]].
  - by destruct (roll_back_commit _ _ _) as [[]].
Qed.

(** ** Properties *)

(** C8: A commit that is not confirmed is undone. Whatever its writes and whatever
    calls fail, each of the four ways - a rollback request, the deadline, a
    confirmation that comes too late, the end of the session - leaves no commit
    pending and gives every entry its turn, the last write first: each turn writes
    only the files of its entry, puts the old contents back if the target still
    holds what was written and nothing is in the way, keeps a target somebody has
    edited since, and counts what it restored; a turn that fails does not end the
    run. The mounts are stopped before, the unit files reloaded and the service
    acted on after it. Then the marker goes, and a rollback request is answered
    with the number of restores, up to 65535, a late confirmation with a refusal;
    only when the marker cannot be removed, which takes a failing call, the monitor
    stops with that error and the marker stays for the next start. Assumed is that
    the commit names targets with their own backups and its marker is on the disk,
    as every run of a confined monitor keeps it (Confine.v, Commit.v); that the
    marker is apart from those files; and that the clock does not go back. *)
Theorem unconfirmed_undone s p way h :
  marker_apart_from_files s -> (forall i, instant s i <= instant s (S i)) ->
  pending (mon h) = Some p -> known s (mon h) -> synced s (mon h) (disk (fs h)) -> open_to s p way h ->
  let '(r, h') := take_back s p way h in
  exists n d1, undo_run s (reverse (p_entries p)) (disk (fs h)) n d1
    /\ pending (mon h') = None /\ trace h' = trace h ++ undo_calls s (p_entries p) (p_service p)
    /\ match r with
       | Ok answer => answer = reply p way n /\ disk (fs h') = delete (marker_path s) d1
       | Err e => faulty (env (w s)) /\ (exists source, e = MErr.State (lit "remove_file") source) /\ disk (fs h') = d1
       end.
Proof.
  intros apart Hmono Hp Hk Hs Ho. destruct (take_back_eq s p way h Hp Ho Hmono) as [t ->].
  unfold synced in Hs. rewrite Hp in Hs. destruct Hs as (ms & f & Hf & _).
  destruct (roll_back_run s p (mkHost (fs h) (set_pending None (mon h)) (trace h) (logged h) (sent h) t) f apart) as (n & d1 & r & h' & -> & Hr & Hm & Ht & H).
  - by apply Hk.
  - exact Hf.
  - exists n, d1. rewrite Hm. split_and!; [exact Hr|done|exact Ht|]. destruct r as [k|e]; [by destruct H as [-> ->]|exact H].
Qed.

(** C11: A crash does not lose the commit. The host stops while a commit is pending
    and its marker in step. The next monitor first recovers a write in place, if
    one was cut off, and then, before it serves, takes the commit back as a
    rollback does: every entry has its turn, the last write first, between the same
    calls of the collaborators, and the marker goes; the report counts the restores
    and has an error for every other entry. If the start-up fails instead, the
    marker still holds the commit for the start after; without a write in place to
    recover and without failing calls it does not fail. Assumed is that both
    monitors keep the marker at one path, apart from the targets, that the second
    reads the JSON the first wrote, and that its allow-list still has the targets of
    the commit with their backups. *)
Theorem restart_undoes s s' x p h :
  pending x = Some p -> synced s x (disk (fs h)) -> marker_path s' = marker_path s ->
  (forall m j, pending_to_vec s m = Some j -> pending_from_slice s' j = Some m) ->
  marker_apart_from_files s' -> Forall (known_entry s') (p_entries p) -> mon h = new_monitor ->
  let '(r0, h0) := recover_in_place s' h in
  let '(r, h') := recover_pending s' h in
  match r with
  | Ok answer => exists n d1 before errors after,
      undo_run s' (reverse (p_entries p)) (disk (fs h0)) n d1 /\ disk (fs h') = delete (marker_path s') d1
      /\ trace h' = trace h ++ undo_calls s' (p_entries p) (p_service p)
      /\ (n + length errors = length (p_entries p))%nat
      /\ answer = Some (mkRecovered (p_commit p) n (before ++ (atomic_text s' <$> errors) ++ after))
  | Err _ => synced s x (disk (fs h'))
  end
  /\ (~ faulty (env (w s')) -> disk (fs h) !! in_place_marker s' = None -> disk (fs h0) = disk (fs h) /\ exists answer, r = Ok answer).
Proof.
  intros Hp Hs Emp Hjson apart Hes Hm. unfold synced in *. rewrite Hp in *. destruct Hs as (ms & f & Hf & Hj).
  pose proof (in_place_keeps_marker s' h apart Hm) as Hkeep. pose proof (silent_in_place s' h) as Ht0.
  pose proof (no_in_place s' h) as Hno.
  destruct (recover_in_place s' h) as [[o|e] h0] eqn:E0; cbn [fst snd] in *; rewrite Emp, Hf in Hkeep.
  - rewrite <- Emp in Hkeep. destruct (recover_run s' h h0 o _ f apart E0 Hkeep (Hjson _ _ Hj) Hes) as (r & h' & -> & H).
    destruct r as [answer|e].
    + destruct H as (n & d1 & before & errors & after & H1 & H2 & H3 & H4 & H5). rewrite Ht0 in H3. split.
      * by exists n, d1, before, errors, after.
      * intros calm Hn. destruct (Hno calm Hn) as [_ ->]. split; [done|]. by eexists.
    + destruct H as [H1 H2]. rewrite Emp in H1. split; [by exists ms, f|done].
  - assert (recover_pending s' h = (Err e, h0)) as -> by (unfold recover_pending; by rewrite (bind_err _ _ _ _ _ E0)).
    split; [by exists ms, f|]. intros calm Hn. by destruct (Hno calm Hn).
Qed.

(** ** A commit on the small host

    Two writes of one file, journaled while the commit before was pending. *)

Module Armed.

Definition s : Setup := Lab.setup 97 Lab.quiet.
Definition turns : list Turn :=
  [Lab.hello; Lab.write (lit "mid"); Lab.arm 60; Lab.write (lit "new"); Lab.write (lit "newer"); Lab.confirm; Lab.arm 60].
Definition run : result MonitorError ExitReason * Host :=
  serve_loop s 5000 5000 true turns (Lab.host Lab.before).
Definition h : Host := run.2.
Definition d : Disk := disk (fs h).
Definition p : Pending := default (mkPending 0 0 [] None) (pending (mon h)).
(** The second write, which is undone first. *)
Definition e : RollbackEntry := default (mkRollback 0 Lab.hosts Lab.hosts None) (last (p_entries p)).
Definition n : rstr := match file_name (rb_backup e) with Some (Normal n) => n | _ => [] end.

Lemma pending_p : pending (mon h) = Some p.
Proof. by vm_compute. Qed.

Lemma two_entries : length (p_entries p) = 2%nat.
Proof. by vm_compute. Qed.

Lemma settled ts r why : serve_loop s 5000 5000 true ts (Lab.host Lab.before) = r -> r.1 = Ok why -> good_state s (mon r.2) (disk (fs r.2)).
Proof.
  intros <- E. destruct (up_serve_loop s (lab_apart 97 Lab.quiet) 5000 5000 true ts (Lab.host Lab.before)) as (_ & _ & H).
  - split; [|done]. split; [constructor|]. by intros q [=].
  - rewrite E in H. exact H.
Qed.

Lemma closed : run.1 = Ok PeerClosed.
Proof. by vm_compute. Qed.

Lemma in_step : good_state s (mon h) (disk (fs h)).
Proof. exact (settled turns run PeerClosed eq_refl closed). Qed.

(** A name nothing on the disk ends in. *)
Definition ends_in (c : rchar) (q : Path) : bool :=
  match last (components q) with Some (Normal s) => match last s with Some x => (x =? c)%N | None => false end | _ => false end.

Lemma free_end (m : Disk) B c z : forallb (fun x => negb (ends_in c x.1)) (map_to_list m) = true -> m !! join_name B (z ++ [c]) = None.
Proof.
  intros H. destruct (m !! _) as [x|] eqn:E; [|done]. exfalso. apply elem_of_map_to_list in E.
  rewrite forallb_forall in H. apply list_elem_of_In in E. specialize (H _ E). unfold ends_in in H. simpl in H.
  rewrite !last_snoc, N.eqb_refl in H. done.
Qed.

Lemma armed_layout expected fb :
  layout (restoring Lab.backups (join_name Lab.etc (lit "hosts")) expected (Marker (in_place_marker s)) fb) Lab.etc (lit "hosts").
Proof.
  destruct Torn.hosts_layout as [H1 H2 H3 H4 H5 H6 H7]. by split.
Qed.

Lemma at_path_file q (x : Disk) c : Lab.at_path q x = Some c -> exists f, x !! q = Some (Regular f) /\ contents f = c.
Proof. unfold Lab.at_path. destruct (x !! q) as [[f| | |]|]; try done. intros [= <-]. by exists f. Qed.

Lemma old_place : exists fb, d !! rb_backup e = Some (Regular fb) /\ contents fb = lit "new".
Proof. apply at_path_file. by vm_compute. Qed.

Lemma new_place : exists f1, d !! join_name Lab.etc (lit "hosts") = Some (Regular f1) /\ contents f1 = lit "newer".
Proof. apply at_path_file. by vm_compute. Qed.

Lemma places : is_directory d Lab.backups /\ is_directory d Lab.etc /\ passable Lab.etc d /\ passable Lab.backups d
  /\ rb_path e = join_name Lab.etc (lit "hosts") /\ split_path (rb_backup e) = Ok (Lab.backups, n)
  /\ rb_new_digest e = Some (Z.of_N <$> lit "newer").
Proof.
  split_and!; [apply Demo.is_dir_by; by vm_compute|apply Demo.is_dir_by; by vm_compute|apply Demo.passable_by; by vm_compute|
    apply Demo.passable_by; by vm_compute|by vm_compute..].
Qed.

Lemma free_backup z : d !! join_name Lab.backups (z ++ [53%N]) = None.
Proof. apply free_end. by vm_compute. Qed.

Lemma free_temp first : first = 97%N \/ first = 122%N -> d !! join_name Lab.etc (temp_name (Lab.world first Lab.quiet) 0) = None.
Proof. intros Hfirst. apply Demo.absent_by. by destruct Hfirst as [-> | ->]; vm_compute. Qed.

Lemma temp_apart first : first = 97%N \/ first = 122%N -> join_name Lab.etc (temp_name (Lab.world first Lab.quiet) 0) ∉ ancestors Lab.backups.
Proof. intros Hfirst. by apply (bool_decide_eq_false_1 (_ ∈ _)); destruct Hfirst as [-> | ->]; vm_compute. Qed.

(** The second write can be undone, by this monitor and by the next. *)
Lemma able first fb f1 : first = 97%N \/ first = 122%N ->
  d !! rb_backup e = Some (Regular fb) -> d !! join_name Lab.etc (lit "hosts") = Some (Regular f1) -> contents f1 = lit "newer" ->
  undoable (Lab.setup first Lab.quiet) e d Lab.etc (lit "hosts") Lab.backups n fb (Some f1) /\ unedited (Lab.setup first Lab.quiet) e (Some f1) = true.
Proof.
  intros Hfirst Hfb Hf1 Hnew. destruct places as (H1 & H2 & H3 & H4 & H5 & H6 & H7). split.
  2: { unfold unedited. rewrite H7. apply bool_decide_eq_true. cbn [fmap option_fmap option_map]. by rewrite Hnew. }
  split; [exact H5|exact H6|exact H1|exact Hfb|apply armed_layout|]. split; [exact H2|exact H3|exact Hf1| |split; [by apply free_temp|by apply temp_apart]].
  split; [exact H4|]. intros t. eexists. split; [reflexivity|].
  change (short_hex (sha256 (w (Lab.setup first Lab.quiet)) (contents f1))) with (short_hex (Z.of_N <$> contents f1)). rewrite Hnew.
  change (lit "-" ++ short_hex (Z.of_N <$> lit "newer")) with (lit "-6e65776" ++ [53%N]). rewrite (assoc_L (++)). apply free_backup.
Qed.

(** Undone in the order of the writes, the first entry would find a digest that is
    not its own: only the reverse order gives back what was there before both. *)
Definition order (es : list RollbackEntry) : result MonitorError (nat * list AtomicError) * Host := restore_each (Lab.setup 122 Lab.quiet) es h.
Example last_write_first :
  Lab.at_path Lab.hosts (disk (fs (order (reverse (p_entries p))).2)) = Some (lit "mid")
  /\ Lab.at_path Lab.hosts (disk (fs (order (p_entries p)).2)) = Some (lit "new").
Proof. by vm_compute. Qed.

End Armed.

Lemma host_disk x : disk (fs (Lab.host x)) = x.
Proof. done. Qed.

Lemma known_later first second faults es : Forall (known_entry (Lab.setup first faults)) es -> Forall (known_entry (Lab.setup second faults)) es.
Proof. done. Qed.

(** The session ends with the commit pending. *)
Lemma unconfirmed_undone_witness :
  let '(r, h') := take_back Armed.s Armed.p AtExit Armed.h in
  (exists n d1, undo_run Armed.s (reverse (p_entries Armed.p)) (disk (fs Armed.h)) n d1
     /\ pending (mon h') = None /\ trace h' = trace Armed.h ++ undo_calls Armed.s (p_entries Armed.p) (p_service Armed.p)
     /\ disk (fs h') = delete (marker_path Armed.s) d1)
  /\ Lab.at_path Lab.hosts (disk (fs h')) = Some (lit "mid").
Proof.
  assert (E : Lab.at_path Lab.hosts (disk (fs (take_back Armed.s Armed.p AtExit Armed.h).2)) = Some (lit "mid")) by (vm_compute; reflexivity).
  assert (Hm : forall i, instant Armed.s i <= instant Armed.s (S i)) by (intros i; unfold Armed.s; cbn [instant Lab.setup]; lia).
  generalize (unconfirmed_undone Armed.s Armed.p AtExit Armed.h (lab_apart 97 Lab.quiet) Hm Armed.pending_p
    (proj1 Armed.in_step) (proj2 Armed.in_step) I).
  destruct (take_back _ _ _ _) as [r h'] eqn:Er. intros (n & d1 & H1 & H2 & H3 & H4). split; [|exact E].
  exists n, d1. split; [exact H1|]. split; [exact H2|]. split; [exact H3|]. destruct r as [answer|e]; [exact (proj2 H4)|].
  destruct H4 as ((k & f & Hf) & _). discriminate Hf.
Defined.

(** The host stops instead, and the next monitor starts. *)
Lemma restart_undoes_witness :
  let s' := Lab.setup 122 Lab.quiet in
  let '(r, h') := recover_pending s' (Lab.host (disk (fs Armed.h))) in
  (exists n d1 failures, undo_run s' (reverse (p_entries Armed.p)) (disk (fs Armed.h)) n d1
     /\ r = Ok (Some (mkRecovered (p_commit Armed.p) n failures)) /\ disk (fs h') = delete (marker_path s') d1)
  /\ Lab.at_path Lab.hosts (disk (fs h')) = Some (lit "mid").
Proof.
  cbv zeta. assert (E : Lab.at_path Lab.hosts (disk (fs (recover_pending (Lab.setup 122 Lab.quiet) (Lab.host (disk (fs Armed.h)))).2)) = Some (lit "mid"))
    by (vm_compute; reflexivity).
  assert (calm : ~ faulty (env (w (Lab.setup 122 Lab.quiet)))) by (by intros (k & f & Hf)).
  assert (Hn : disk (fs (Lab.host (disk (fs Armed.h)))) !! in_place_marker (Lab.setup 122 Lab.quiet) = None)
    by (apply Demo.absent_by; vm_compute; reflexivity).
  assert (Hs : synced Armed.s (mon Armed.h) (disk (fs (Lab.host (disk (fs Armed.h)))))) by (rewrite host_disk; exact (proj2 Armed.in_step)).
  generalize (restart_undoes Armed.s (Lab.setup 122 Lab.quiet) (mon Armed.h) Armed.p (Lab.host (disk (fs Armed.h)))
    Armed.pending_p Hs eq_refl of_as_number (lab_apart 122 Lab.quiet)
    (known_later 97 122 _ _ (proj2 (proj1 Armed.in_step) _ Armed.pending_p)) eq_refl).
  destruct (recover_in_place _ _) as [r0 h0] eqn:E0. destruct (recover_pending _ _) as [r h'] eqn:Er. intros [H1 H2]. split; [|exact E].
  destruct (H2 calm Hn) as [Hd [answer ->]]. destruct H1 as (n & d1 & before & errors & after & Hr & Hdisk & _ & _ & ->).
  rewrite Hd, host_disk in Hr. exists n, d1, (before ++ (atomic_text (Lab.setup 122 Lab.quiet) <$> errors) ++ after).
  split; [exact Hr|]. split; [reflexivity|exact Hdisk].
Defined.
