(* ===== verification/Ops.v ===== *)
(** * Operations, callers, errors and reports

    What a front end asks of the operations layer and what it is told:
    [crates/detent-ops/src/op.rs], [identity.rs], [authz.rs], [error.rs],
    [report.rs], the records of [audit.rs], and the scoped policy of
    [crates/detent-web/src/authz.rs]. A JSON value is a parameter. *)

From Stdlib Require Import ZArith.
From stdpp Require Import gmap.
From S2P Require Import Prelude Str Num Doc Diag Version Config Descriptor Time Disk Atomic Proto Transport Client AuditLog Session Diff.
#[local] Open Scope Z_scope.

(** ** Operations *)

(** 90 seconds. *)
Definition DEFAULT_CONFIRM : Duration := from_secs 90.

Module Cmd.
Inductive ServiceCommand := Restart | Reload | Start | Stop.
End Cmd.
Abbreviation ServiceCommand := Cmd.ServiceCommand.

Definition command_to_core (c : ServiceCommand) : Core.ServiceAction :=
  match c with
  | Cmd.Restart => Core.Restart
  | Cmd.Reload => Core.Reload
  | Cmd.Start => Core.Start
  | Cmd.Stop => Core.Stop
  end.

Definition command_to_wire (c : ServiceCommand) : Wire.ServiceAction :=
  match c with
  | Cmd.Restart => Wire.Restart
  | Cmd.Reload => Wire.Reload
  | Cmd.Start => Wire.Start
  | Cmd.Stop => Wire.Stop
  end.

Definition command_of_core (a : Core.ServiceAction) : ServiceCommand :=
  match a with
  | Core.Restart => Cmd.Restart
  | Core.Reload => Cmd.Reload
  | Core.Start => Cmd.Start
  | Core.Stop => Cmd.Stop
  end.

(** [command] of the engine: the command of a wire action; a status is none. *)
Definition command (a : Wire.ServiceAction) : option ServiceCommand :=
  match a with
  | Wire.Restart => Some Cmd.Restart
  | Wire.Reload => Some Cmd.Reload
  | Wire.Start => Some Cmd.Start
  | Wire.Stop => Some Cmd.Stop
  | Wire.Status => None
  end.

Lemma command_wire c : command (command_to_wire c) = Some c /\ to_core (command_to_wire c) = Some (command_to_core c)
  /\ command_of_core (command_to_core c) = c.
Proof. by destruct c. Qed.

Module Op.
Section Operation.
Context {Value : Type}.
Inductive Operation :=
| ListModules
| GetModule (id : rstr)
| Validate (id : rstr) (model : Value)
| Plan (id : rstr) (model : Value)
| Apply (id : rstr) (model : Value) (expected_hash : option Sha256Digest) (service_action : option ServiceCommand)
    (confirm : option Duration)
| ConfirmCommit (commit_id : CommitId)
| RollbackCommit (commit_id : CommitId)
| ListBackups (id : rstr)
| Restore (id : rstr) (backup_id : BackupId) (expected_hash : option Sha256Digest)
| ServiceStatus (id : rstr)
| ServiceAction (id : rstr) (action : ServiceCommand)
| HostProfile
| AuditQuery (q : AuditLog.AuditQuery)
| UpdateStatus
| CertStatus
| CertRenew
| UpdateApply (version : rstr).
End Operation.
Arguments Operation Value : clear implicits.
End Op.
Abbreviation Operation := Op.Operation.

Section OperationFacts.
Context {Value : Type}.
Implicit Types op : Operation Value.

Definition op_kind op : OpKind :=
  match op with
  | Op.ListModules => ListModules
  | Op.GetModule _ => GetModule
  | Op.Validate _ _ => Validate
  | Op.Plan _ _ => Plan
  | Op.Apply _ _ _ _ _ => Apply
  | Op.ConfirmCommit _ => ConfirmCommit
  | Op.RollbackCommit _ => RollbackCommit
  | Op.ListBackups _ => ListBackups
  | Op.Restore _ _ _ => Restore
  | Op.ServiceStatus _ => ServiceStatus
  | Op.ServiceAction _ _ => ServiceAction
  | Op.HostProfile => HostProfileOp
  | Op.AuditQuery _ => AuditQueryOp
  | Op.UpdateStatus => UpdateStatus
  | Op.CertStatus => CertStatus
  | Op.CertRenew => CertRenew
  | Op.UpdateApply _ => UpdateApply
  end.

Definition op_module op : option rstr :=
  match op with
  | Op.GetModule id | Op.Validate id _ | Op.Plan id _ | Op.Apply id _ _ _ _ | Op.ListBackups id | Op.Restore id _ _
  | Op.ServiceStatus id | Op.ServiceAction id _ => Some id
  | Op.ListModules | Op.ConfirmCommit _ | Op.RollbackCommit _ | Op.HostProfile | Op.UpdateStatus | Op.CertStatus | Op.CertRenew
  | Op.UpdateApply _ | Op.AuditQuery _ => None
  end.

Definition is_mutating op : bool :=
  match op with
  | Op.Apply _ _ _ _ _ | Op.ConfirmCommit _ | Op.RollbackCommit _ | Op.Restore _ _ _ | Op.ServiceAction _ _ | Op.CertRenew
  | Op.UpdateApply _ => true
  | _ => false
  end.

End OperationFacts.

(** ** Callers and policies *)

Record Identity := mkIdentity { subject : rstr; ikind : IdentityKind }.

Definition local_identity (subject : rstr) : Identity := mkIdentity subject LocalUser.

Record Denied := mkDenied { denied_id : MessageId; required_scope_of : option rstr }.

Definition denied_with_scope (id : MessageId) (scope : rstr) : Denied := mkDenied id (Some scope).

(** [Authz]: may this caller run this operation? *)
Definition Authz (Value : Type) : Type := Identity -> Operation Value -> result Denied ().

Definition AllowAll {Value} : Authz Value := fun _ _ => Ok ().

Definition DENIED_SCOPE_ID : MessageId := lit "web-denied-scope".

Definition required_scope {Value} (op : Operation Value) : Scope :=
  match op with
  | Op.Apply _ _ _ _ _ | Op.ConfirmCommit _ | Op.RollbackCommit _ | Op.Restore _ _ _ | Op.ServiceAction _ _ | Op.CertRenew
  | Op.UpdateApply _ => Write
  | Op.ListModules | Op.GetModule _ | Op.Validate _ _ | Op.Plan _ _ | Op.ListBackups _ | Op.ServiceStatus _ | Op.HostProfile
  | Op.CertStatus | Op.UpdateStatus | Op.AuditQuery _ => Read
  end.

Definition requires_step_up {Value} (op : Operation Value) : bool :=
  match op with
  | Op.Apply _ _ _ _ _ | Op.Restore _ _ _ | Op.CertRenew | Op.UpdateApply _ => true
  | Op.ListModules | Op.GetModule _ | Op.Validate _ _ | Op.Plan _ _ | Op.ConfirmCommit _ | Op.RollbackCommit _ | Op.ListBackups _
  | Op.ServiceStatus _ | Op.ServiceAction _ _ | Op.HostProfile | Op.CertStatus | Op.UpdateStatus | Op.AuditQuery _ => false
  end.

Definition ScopedAuthz {Value} (scopes : Scopes) : Authz Value := fun _ op =>
  let needed := required_scope op in
  if allows scopes needed then Ok () else Err (denied_with_scope DENIED_SCOPE_ID (scope_str needed)).

(** A caller that may only read may run exactly what changes nothing. *)
Lemma read_only_permits {Value} who (op : Operation Value) :
  is_ok (ScopedAuthz (scopes_of Read) who op) = negb (is_mutating op).
Proof. by destruct op. Qed.

Lemma read_write_permits {Value} who (op : Operation Value) : ScopedAuthz (scopes_of Write) who op = Ok ().
Proof. by destruct op. Qed.

(** ** Errors *)

Module SErr.
Inductive ServiceError :=
| NoKnownUnit (tried : list rstr)
| InvalidUnitName (name : rstr)
| Unsupported (message : rstr)
| Unavailable (message : rstr)
| Failed (message : rstr).
End SErr.
Abbreviation ServiceError := SErr.ServiceError.

Module OErr.
Inductive OpsError :=
| UnknownModule (id : rstr)
| Refused (d : Denied)
| Invalid (diagnostics : Diagnostics)
| CheckFailed (program detail : rstr)
| HashConflict (expected : Sha256Digest) (actual : option Sha256Digest)
| Module_ (e : DynError)
| Privsep (e : ClientError)
| Service (e : ServiceError)
| NoTarget (module : rstr)
| NoService (module : rstr)
| CommitPending (c : CommitId)
| NoBackup
| ArmFailed (arming : OpsError) (restore_error : option OpsError)
| TargetMissing
| Audit (e : AuditError)
| AuditUnavailable (e : AuditError)
| Cert (id : MessageId) (reason : rstr)
| Unsupported (what : rstr)
| UpdateRunning
| UpdateTagInvalid
| UpdateNotNewer.
End OErr.
Abbreviation OpsError := OErr.OpsError.

Definition dyn_message_id (e : DynError) : MessageId :=
  match e with
  | DParse (Malformed _ _) => lit "core-parse-malformed"
  | DModel (Shape _) => lit "core-model-shape"
  | DModel (Unrepresentable _ _) => lit "core-model-unrepresentable"
  | DEdit (LineBreakInValue _) => lit "core-edit-line-break"
  | DEdit (IndexOutOfRange _ _) => lit "core-edit-index-out-of-range"
  | DEdit (Doc.Unsupported _) => lit "core-edit-unsupported"
  end.

Definition ops_message_id (e : OpsError) : MessageId :=
  match e with
  | OErr.UnknownModule _ => lit "ops-unknown-module"
  | OErr.Refused d => denied_id d
  | OErr.Invalid _ => lit "ops-invalid-model"
  | OErr.CheckFailed _ _ => lit "ops-check-failed"
  | OErr.HashConflict _ _ => lit "ops-hash-conflict"
  | OErr.Module_ e => dyn_message_id e
  | OErr.Privsep _ => lit "ops-privsep-failed"
  | OErr.Service _ => lit "ops-service-failed"
  | OErr.NoTarget _ => lit "ops-no-target"
  | OErr.NoService _ => lit "ops-no-service"
  | OErr.Audit _ => lit "ops-audit-failed"
  | OErr.AuditUnavailable _ => lit "ops-audit-unavailable"
  | OErr.CommitPending _ => lit "ops-commit-pending"
  | OErr.NoBackup => lit "ops-no-backup"
  | OErr.ArmFailed _ None => lit "ops-arm-failed-restored"
  | OErr.ArmFailed _ (Some _) => lit "ops-arm-failed-unrestored"
  | OErr.TargetMissing => lit "ops-target-missing"
  | OErr.Cert id _ => id
  | OErr.Unsupported _ => lit "ops-unsupported"
  | OErr.UpdateRunning => lit "ops-update-running"
  | OErr.UpdateTagInvalid => lit "ops-update-tag-invalid"
  | OErr.UpdateNotNewer => lit "ops-update-not-newer"
  end.

(** ** Reports *)

(** [SystemTime::UNIX_EPOCH.checked_add]: seconds are an [i64]. *)
Definition system_time (since : Z * Z) : option (Z * Z) :=
  let '(secs, nanos) := since in
  let at_ := secs * NANOS + nanos in
  if (secs <=? 2 ^ 63 - 1) && (at_ / NANOS <=? 2 ^ 63 - 1) then Some (at_ / NANOS, at_ mod NANOS) else None.

Record ServiceStatus := mkStatus { ss_unit : rstr; ss_state : UnitState; ss_enabled : option bool; ss_since : option (Z * Z) }.

Definition status_of_unit (s : UnitStatus) : ServiceStatus :=
  mkStatus (us_unit s) (us_state s) (us_enabled s) (us_since s ≫= system_time).

Record AffectedService := mkAffected { as_unit : rstr; as_actions : list ServiceCommand }.

Record CheckReport := mkCheckReport { cr_program : rstr; cr_ran : bool; cr_passed : bool; cr_exit_code : option Z; cr_detail : rstr }.

Record PlanReport := mkPlan {
  pl_module : rstr;
  pl_path : rstr;
  pl_diff : list Hunk;
  pl_rendered : rstr;
  pl_unified_diff : rstr;
  pl_affected_services : list AffectedService;
  pl_checks : list CheckReport;
  pl_diagnostics : Diagnostics;
  pl_current_hash : Sha256Digest;
  pl_would_change : bool;
}.

Record PendingCommit := mkPendingCommit { pc_commit_id : CommitId; pc_timeout_s : Z; pc_deadline : rstr; pc_rollback_targets : Z }.

Record ServiceReport := mkServiceReport { sr_unit : rstr; sr_action : ServiceCommand; sr_active : bool; sr_detail : rstr }.

Module MReport.
Inductive MountReportState := Mounted | AlreadyMounted | Pending | Failed | Protected | Stopped.
End MReport.

Definition mount_report_state (s : MountState) : MReport.MountReportState :=
  match s with
  | MMounted => MReport.Mounted
  | AlreadyMounted => MReport.AlreadyMounted
  | MPending => MReport.Pending
  | MFailed => MReport.Failed
  | Protected => MReport.Protected
  | Stopped => MReport.Stopped
  end.

Record MountReport := mkMountReport { mr_mountpoint : rstr; mr_unit : rstr; mr_state : MReport.MountReportState; mr_detail : rstr }.

Definition mount_report (o : MountOutcome) : MountReport :=
  mkMountReport (mo_mountpoint o) (mo_unit o) (mount_report_state (mo_state o)) (mo_detail o).

Record MountsReport := mkMounts { ms_activated : bool; ms_units : list MountReport; ms_error : option rstr }.

Record ApplyReport := mkApply {
  ap_module : rstr;
  ap_path : rstr;
  ap_prev_hash : option Sha256Digest;
  ap_new_hash : Sha256Digest;
  ap_created : bool;
  ap_backed_up : bool;
  ap_service : option ServiceReport;
  ap_commit : option PendingCommit;
  ap_checks : list CheckReport;
  ap_mounts : option MountsReport;
}.

Inductive ExpiryWarning := Half | Quarter.

Definition warning_for_percent (used_percent : option Z) : option ExpiryWarning :=
  match used_percent with
  | Some p => if 75 <=? p then Some Quarter else if 50 <=? p then Some Half else None
  | None => None
  end.

Record CertReport := mkCert {
  fingerprint : rstr;
  not_after_unix : option Z;
  lifetime_used_percent : option Z;
  renewal_due : option bool;
  expiry_warning : option ExpiryWarning;
}.

(** *** The host *)

Inductive NetworkBackend := SystemdNetworkd | NetworkManager | Ifupdown | Netplan | NoNetwork.
Inductive ResolverBackend := SystemdResolved | NmResolver | Static | Unbound | NoResolver.

Definition network_backend_name (b : NetworkBackend) : rstr :=
  match b with
  | SystemdNetworkd => lit "systemd_networkd"
  | NetworkManager => lit "network_manager"
  | Ifupdown => lit "ifupdown"
  | Netplan => lit "netplan"
  | NoNetwork => lit "unknown"
  end.

Definition resolver_backend_name (b : ResolverBackend) : rstr :=
  match b with
  | SystemdResolved => lit "systemd_resolved"
  | NmResolver => lit "network_manager"
  | Static => lit "static"
  | Unbound => lit "unbound"
  | NoResolver => lit "unknown"
  end.

Record Distro := mkDistro { distro_id : rstr; id_like : list rstr; version_id : option rstr }.
Record HostFacts := mkFacts {
  distro : option Distro;
  network_backend : NetworkBackend;
  resolver_backend : ResolverBackend;
  notes : list rstr;
}.
Record Detected := mkDetected { profile : HostProfile; facts : HostFacts }.

Record HostReport := mkHostReport {
  hr_profile : HostProfile;
  hr_distro_id : option rstr;
  hr_distro_version_id : option rstr;
  hr_network_backend : rstr;
  hr_resolver_backend : rstr;
  hr_notes : list rstr;
}.

Definition host_report (d : Detected) : HostReport :=
  mkHostReport (profile d) (distro_id <$> distro (facts d)) (distro (facts d) ≫= version_id)
    (network_backend_name (network_backend (facts d))) (resolver_backend_name (resolver_backend (facts d))) (notes (facts d)).

(** *** Outcomes *)

Record ModuleView {Value : Type} := mkView {
  mv_descriptor : ModuleDescriptor;
  mv_schema : Value;
  mv_model : option Value;
  mv_current_hash : option Sha256Digest;
  mv_diagnostics : Diagnostics;
  mv_secret_pointers : list rstr;
}.
Arguments ModuleView Value : clear implicits.

Module Out.
Section OpOutcome.
Context {Value : Type}.
Inductive OpOutcome :=
| Modules (l : list ModuleDescriptor)
| Module_ (v : ModuleView Value)
| Validated (d : Diagnostics)
| Planned (p : PlanReport)
| Applied (a : ApplyReport)
| CommitConfirmed (c : CommitId)
| RolledBack (c : CommitId) (restored : Z)
| Backups (l : list BackupInfo)
| Restored (target : TargetId) (new_hash : Sha256Digest)
| Status (s : ServiceStatus)
| Serviced (s : ServiceReport)
| Host (h : HostReport)
| Audit (l : list AuditRecord)
| UpdateStarted (version : rstr)
| CertStatus (c : CertReport)
| CertRenewRequested.
End OpOutcome.
Arguments OpOutcome Value : clear implicits.
End Out.
Abbreviation OpOutcome := Out.OpOutcome.

(** ** Audit records *)

(** [AuditRecord::new] at the time [ts]. *)
Definition new_record (ts : rstr) (who : Identity) (op : OpKind) (module : option rstr) (r : AuditResult) : AuditRecord :=
  mkRecord ts (subject who) (ikind who) op module None None None None None r None None.

Definition with_hashes (prev new : option Sha256Digest) (r : AuditRecord) : AuditRecord :=
  let p := digest_display <$> prev in
  let n := digest_display <$> new in
  mkRecord (ts r) (AuditLog.who r) (kind r) (op r) (module r) p n p n (commit_id r) (outcome r) (error_id r) (chain r).

Definition with_commit_id (c : CommitId) (r : AuditRecord) : AuditRecord :=
  mkRecord (ts r) (AuditLog.who r) (kind r) (op r) (module r) (prev_hash r) (new_hash r) (before_hash r) (after_hash r)
    (Some (Z.of_N c)) (outcome r) (error_id r) (chain r).

Definition with_error (e : MessageId) (r : AuditRecord) : AuditRecord :=
  mkRecord (ts r) (AuditLog.who r) (kind r) (op r) (module r) (prev_hash r) (new_hash r) (before_hash r) (after_hash r)
    (commit_id r) (outcome r) (Some e) (chain r).

(** [AuditSink]: where records go. *)
Class AuditSink (A : Type) := {
  sink_record : AuditRecord -> A -> result AuditError () * A;
  sink_query : AuditLog.AuditQuery -> A -> result AuditError (list AuditRecord);
}.

(** [FileAudit]: a record that cannot be written leaves the log alone. *)
Definition file_audit {codec : RecordCodec} (sha256_hex : rbytes -> rstr) (rotate_bytes : Z) : AuditSink Files := {|
  sink_record r f := match record sha256_hex rotate_bytes f r with Ok f => (Ok (), f) | Err e => (Err e, f) end;
  sink_query q f := query sha256_hex f q;
|}.

(** [NullAudit]. *)
Definition null_audit : AuditSink () := {| sink_record _ u := (Ok (), u); sink_query _ _ := Ok [] |}.

(** [CaptureAudit]: keeps what it was given. *)
Definition capture_audit : AuditSink (list AuditRecord) := {|
  sink_record r l := (Ok (), l ++ [r]);
  sink_query q l := Ok (newest_first (filter (fun r => matches q r = true) l) (Some (effective_limit q)));
|}.
