(* ===== verification/Engine.v ===== *)
(** * The operations engine

    [crates/detent-ops/src/engine.rs]: the one place an operation turns into
    privileged work. The engine runs over the worker's client, an audit sink, the
    modules of the build and the detected host; it records what it asked, what it
    was answered and what it audited, in order. *)

From Stdlib Require Import ZArith.
From stdpp Require Import gmap.
From S2P Require Import Prelude Str Num Ip Utf8 Doc Diag Version Config Descriptor Time Disk Atomic Proto Transport Stateful Client AuditLog Session Diff Ops.
#[local] Open Scope Z_scope.

(** ** What an engine is built from *)

(** [DynModule]. *)
Record OpsModule {Value : Type} := mkOpsModule {
  om_id : rstr;
  om_descriptor : ModuleDescriptor;
  om_schema : Value;
  om_secret_pointers : list rstr;
  om_target : Value -> result DynError (option PathSpec);
  om_parse : rstr -> result DynError Value;
  om_apply : rstr -> Value -> result DynError rstr;
  om_validate : Value -> HostProfile -> result DynError Diagnostics;
}.
Arguments OpsModule Value : clear implicits.

(** [Dyn<M>]: a module behind the JSON adapter. *)
Definition dyn_module {Value : Type} `{!Json Value} (M : ConfigModule) (id : rstr) (d : ModuleDescriptor) (schema : Value)
    (secrets : list rstr) (from_value : Value -> result rstr Model) (to_value : Model -> result rstr Value) : OpsModule Value :=
  mkOpsModule Value id d schema secrets (model_target_json M from_value) (parse_to_model_json M to_value) (apply_json M from_value)
    (validate_json M schema (project (upstream d)) from_value).

(** [CertFrontEnd]: the [n]-th event of the engine asks it. *)
Record CertFrontEnd := mkCertFront {
  cf_status : nat -> result OpsError CertReport;
  cf_renew : nat -> result OpsError ();
}.

(** What stays the same while the engine runs. The clock ([now_rfc3339],
    [deadline_rfc3339]) and the file system of the worker ([path_exists]) answer
    by the number of events so far. *)
Record Front {Value : Type} := mkFront {
  modules : list (OpsModule Value);
  host : Detected;
  cert : option CertFrontEnd;
  now_rfc3339 : nat -> rstr;
  deadline_rfc3339 : nat -> Z -> rstr;
  path_exists : nat -> rstr -> bool;
  check_tag : rstr -> result UpdateTagRefusal ();
}.
Arguments Front Value : clear implicits.

(** [Hashes]: the digests one mutating operation observed. *)
Record Hashes := mkHashes { h_prev : option Sha256Digest; h_new : option Sha256Digest; h_commit_id : option CommitId }.

Definition no_hashes : Hashes := mkHashes None None None.

Record Wiring := mkWiring {
  wi_target : TargetId;
  wi_path : rstr;
  wi_checks : list (CheckId * rstr);
  wi_binding : option (BindingId * AffectedService);
}.

Inductive Event :=
| Asked (r : Request) (answer : result ClientError Response)
| Audited (r : AuditRecord) (kept : bool)
| AskedFront (renew : bool).

(** ** Pure helpers *)

Definition CHECK_DETAIL_LIMIT : nat := 512.

Definition truncate_detail (detail : rstr) : rstr := take_bytes CHECK_DETAIL_LIMIT detail.

Definition unchanged_report (module path : rstr) (digest : Sha256Digest) : ApplyReport :=
  mkApply module path (Some digest) digest false false None None [] None.

(** [Utf8Error::valid_up_to]: the bytes before the first invalid piece. *)
Fixpoint valid_chunks (l : list (option rchar)) : nat :=
  match l with Some c :: l => len_utf8 c + valid_chunks l | _ => 0 end.
Definition valid_up_to (b : rbytes) : nat := valid_chunks (chunks 0 b).

Definition decode (b : rbytes) (path : rstr) : result OpsError rstr :=
  match from_utf8 b with
  | Some text => Ok text
  | None => Err (OErr.Module_ (DParse (Malformed (path ++ lit " is not valid UTF-8 at byte " ++ show (valid_up_to b)) None)))
  end.

Definition map_client (e : ClientError) : OpsError :=
  match e with
  | CErr.Remote (PErr.Conflict expected actual) => OErr.HashConflict expected actual
  | CErr.Remote PErr.NotFound => OErr.TargetMissing
  | other => OErr.Privsep other
  end.

Definition map_status_error (e : ClientError) : OpsError :=
  match e with
  | CErr.Remote (PErr.Unavailable m) => OErr.Service (SErr.Unavailable m)
  | CErr.Remote (PErr.Io m) => OErr.Service (SErr.Failed m)
  | other => OErr.Privsep other
  end.

Definition mount_error_text (e : ClientError) : rstr :=
  match e with
  | CErr.Remote (PErr.Unavailable m) | CErr.Remote (PErr.Io m) => m
  | other => client_error_text other
  end.

(** [u16::try_from(..).unwrap_or(u16::MAX)]. *)
Definition as_u16 (x : Z) : Z := if x <=? 65535 then x else 65535.

(** ** The engine *)

Section Engine.
Context {Value S A : Type} `{!Peer S} `{!AuditSink A}.
Variable fe : Front Value.

Record World := mkWorld {
  client : Client S;
  sink : A;
  events : list Event;
  next_commit : Z;
  known_commit : option PendingCommit;
  hashes : Hashes;
}.

Abbreviation EM E A := (SE World E A).

Definition set_known (p : option PendingCommit) (w : World) : World :=
  mkWorld (client w) (sink w) (events w) (next_commit w) p (hashes w).
Definition set_next (n : Z) (w : World) : World :=
  mkWorld (client w) (sink w) (events w) n (known_commit w) (hashes w).
Definition set_hashes (g : Hashes -> Hashes) (w : World) : World :=
  mkWorld (client w) (sink w) (events w) (next_commit w) (known_commit w) (g (hashes w)).

Definition observe_prev {E} (d : option Sha256Digest) : EM E () := updating (set_hashes (fun h => mkHashes d (h_new h) (h_commit_id h))).
Definition observe_new {E} (d : Sha256Digest) : EM E () := updating (set_hashes (fun h => mkHashes (h_prev h) (Some d) (h_commit_id h))).
Definition observe_commit {E} (c : CommitId) : EM E () := updating (set_hashes (fun h => mkHashes (h_prev h) (h_new h) (Some c))).

(** Run a call of the client, and record what it asked. *)
Definition on_client {X} (m : SE (Client S) ClientError X) : EM ClientError X := fun w =>
  let c := client w in
  let '(r, c) := m (mkClient (peer c) (tables c) []) in
  (r, mkWorld (mkClient (peer c) (tables c) []) (sink w) (events w ++ ((fun p => Asked p.1 p.2) <$> asked c))
        (next_commit w) (known_commit w) (hashes w)).

Definition ask {X} (m : SE (Client S) ClientError X) : EM OpsError X := map_error map_client (on_client m).

Definition emit (r : AuditRecord) : EM AuditError () := fun w =>
  let '(x, a) := sink_record r (sink w) in
  (x, mkWorld (client w) a (events w ++ [Audited r (is_ok x)]) (next_commit w) (known_commit w) (hashes w)).

Definition ask_front {X} (renew : bool) (answer : nat -> result OpsError X) : EM OpsError X := fun w =>
  (answer (length (events w)),
   mkWorld (client w) (sink w) (events w ++ [AskedFront renew]) (next_commit w) (known_commit w) (hashes w)).

(** An answer that depends on when it is asked for. *)
Definition at_event {E X} (f : nat -> X) : EM E X := reading (fun w => f (length (events w))).

Definition acked {E} : EM E (option HelloAck) := reading (fun w => tables (client w)).

(** *** Modules and wiring *)

Definition find_module (id : rstr) : result OpsError (OpsModule Value) :=
  match List.find (fun m => bool_decide (om_id m = id)) (modules fe) with
  | Some m => Ok m
  | None => Err (OErr.UnknownModule id)
  end.

Definition module_id_of (t : option HelloAck) (m : OpsModule Value) : result OpsError ModuleId :=
  match module_id t (om_id m) with Some i => Ok i | None => Err (OErr.UnknownModule (om_id m)) end.

Definition privsep {X} (r : result ClientError X) : result OpsError X :=
  match r with Ok x => Ok x | Err e => Err (OErr.Privsep e) end.

Definition choose_target (t : option HelloAck) (module : ModuleId) (d : ModuleDescriptor) (exists_ : rstr -> bool) (model_target : option PathSpec)
    : result OpsError TargetInfo :=
  let no_target := OErr.NoTarget (d_id d) in
  let profile := profile (host fe) in
  all ← privsep (targets t);
  let advertised := filter (fun x => Is_true ((ti_module x =? module)%N && bool_decide (ti_kind x = Wire.File))) all in
  let find path := List.find (fun x => bool_decide (ti_path x = path)) advertised in
  let moved x := find (t_path (relocated d x profile exists_)) in
  let chosen :=
    match model_target with
    | Some path => List.find (fun x => bool_decide (t_path x = path)) (d_targets d) ≫= moved
    | None =>
        match List.find (fun x => match find (t_path x) with Some _ => true | None => false end)
                (filter (fun x => Is_true (backend_detect x profile)) (d_targets d)) ≫= moved with
        | Some x => Some x
        | None => head advertised
        end
    end in
  match chosen with Some x => Ok x | None => Err no_target end.

Definition wired_checks (t : option HelloAck) (module : ModuleId) (target : TargetId) : list (CheckId * rstr) :=
  (fun c => (ci_id c, ci_program c)) <$>
  filter (fun c => Is_true ((ci_module c =? module)%N && bool_decide (target ∈ ci_targets c))) (default [] (ack_checks <$> t)).

Definition wired_binding (t : option HelloAck) (module : ModuleId) (target : TargetId)
    : result OpsError (option (BindingId * AffectedService)) :=
  all ← privsep (bindings t);
  Ok ((fun b => (bi_id b, mkAffected (bi_unit b) (omap command (bi_actions b)))) <$>
      List.find (fun b => (bi_module b =? module)%N && bool_decide (target ∈ bi_targets b)) all).

Definition wiring_of (t : option HelloAck) (d : ModuleDescriptor) (exists_ : rstr -> bool) (model_target : option PathSpec)
    : result OpsError Wiring :=
  match module_id t (d_id d) with
  | None => Err (OErr.UnknownModule (d_id d))
  | Some module =>
      chosen ← choose_target t module d exists_ model_target;
      binding ← wired_binding t module (ti_id chosen);
      Ok (mkWiring (ti_id chosen) (ti_path chosen) (wired_checks t module (ti_id chosen)) binding)
  end.

Definition wiring (d : ModuleDescriptor) (model_target : option PathSpec) : EM OpsError Wiring :=
  t ← acked;
  exists_ ← at_event (path_exists fe);
  give (wiring_of t d exists_ model_target).

Definition of_dyn {X} (r : result DynError X) : EM OpsError X :=
  match r with Ok x => mret x | Err e => throw (OErr.Module_ e) end.

Definition model_wiring (id : rstr) (model : Value) : EM OpsError Wiring :=
  m ← give (find_module id);
  target ← of_dyn (om_target m model);
  wiring (om_descriptor m) target.

(** *** Checks and services *)

Definition check_report (program : rstr) (r : result ClientError CheckOutcome) : CheckReport :=
  match r with
  | Ok o => mkCheckReport program true (passed o) (exit_code o) (truncate_detail (co_detail o))
  | Err e => mkCheckReport program false false None (truncate_detail (client_error_text e))
  end.

Fixpoint run_checks_of {E} (candidate : rbytes) (checks : list (CheckId * rstr)) : EM E (list CheckReport) :=
  match checks with
  | [] => mret []
  | (id, program) :: checks =>
      report ← after (on_client (run_check id candidate)) (fun r => mret (check_report program r));
      reports ← run_checks_of candidate checks;
      mret (report :: reports)
  end.

Definition run_checks {E} (wi : Wiring) (candidate : rbytes) : EM E (list CheckReport) := run_checks_of candidate (wi_checks wi).

Definition act (binding : BindingId) (unit_ : rstr) (action : ServiceCommand) : EM OpsError ServiceReport :=
  outcome ← ask (service binding (command_to_wire action));
  mret (mkServiceReport unit_ action (so_active outcome) (so_detail outcome)).

(** *** Reading *)

Definition TARGET_MISSING : MessageId := lit "ops-target-missing".

Definition get_module (id : rstr) : EM OpsError (OpOutcome Value) :=
  m ← give (find_module id);
  wi ← wiring (om_descriptor m) None;
  contents ← after (on_client (read_target (wi_target wi))) (fun r =>
    match r with
    | Ok c => mret (Some c)
    | Err (CErr.Remote PErr.NotFound) => mret None
    | Err e => throw (map_client e)
    end);
  '(model, current_hash) ←
    match contents with
    | Some c =>
        text ← give (decode (tc_bytes c) (wi_path wi));
        model ← of_dyn (om_parse m text);
        mret (Some model, Some (tc_digest c))
    | None => mret (None, None)
    end;
  diagnostics ←
    match model with
    | Some model => of_dyn (om_validate m model (profile (host fe)))
    | None => mret [with_arg (lit "path") (wi_path wi) (new_diagnostic Warning TARGET_MISSING)]
    end;
  mret (Out.Module_ (mkView Value (om_descriptor m) (om_schema m) model current_hash diagnostics (om_secret_pointers m))).

Definition plan (id : rstr) (model : Value) : EM OpsError PlanReport :=
  m ← give (find_module id);
  wi ← model_wiring id model;
  contents ← ask (read_target (wi_target wi));
  current ← give (decode (tc_bytes contents) (wi_path wi));
  diagnostics ← of_dyn (om_validate m model (profile (host fe)));
  if has_errors diagnostics then throw (OErr.Invalid diagnostics)
  else
    rendered ← of_dyn (om_apply m current model);
    let hunks := diff current rendered DEFAULT_CONTEXT in
    checks ← run_checks wi (as_bytes rendered);
    mret (mkPlan (d_id (om_descriptor m)) (wi_path wi) hunks rendered (render_unified (wi_path wi) (wi_path wi) hunks)
            (option_list (snd <$> wi_binding wi)) checks diagnostics (tc_digest contents) (negb (bool_decide (current = rendered)))).

Definition service_status (id : rstr) : EM OpsError (OpOutcome Value) :=
  m ← give (find_module id);
  t ← acked;
  _ ← give (module_id_of t m);
  wi ← wiring (om_descriptor m) None;
  match wi_binding wi with
  | None => throw (OErr.NoService (d_id (om_descriptor m)))
  | Some (binding, _) =>
      status ← map_error map_status_error (on_client (Client.service_status binding));
      mret (Out.Status (status_of_unit status))
  end.

Definition apply_is_noop (op : Operation Value) : EM OpsError bool :=
  match op with
  | Op.Apply id model expected_hash service_action _ =>
      m ← give (find_module id);
      diagnostics ← of_dyn (om_validate m model (profile (host fe)));
      if has_errors diagnostics then mret false
      else
        wi ← model_wiring id model;
        if bool_decide (is_Some service_action) && bool_decide (wi_binding wi = None) then mret false
        else
          contents ← ask (read_target (wi_target wi));
          match expected_hash with
          | Some expected =>
              if negb (bool_decide (expected = tc_digest contents)) then mret false
              else
                current ← give (decode (tc_bytes contents) (wi_path wi));
                rendered ← of_dyn (om_apply m current model);
                mret (bool_decide (current = rendered))
          | None =>
              current ← give (decode (tc_bytes contents) (wi_path wi));
              rendered ← of_dyn (om_apply m current model);
              mret (bool_decide (current = rendered))
          end
  | _ => mret false
  end.

(** *** Commit-confirm *)

(** Roll back [commit], if one was armed, and forget it once the monitor has. *)
Definition discard_commit {E} (commit : option PendingCommit) : EM E () :=
  match commit with
  | None => mret ()
  | Some c =>
      after (on_client (rollback_commit (pc_commit_id c))) (fun r =>
        match r with Ok _ => updating (set_known None) | Err _ => mret () end)
  end.

Definition arm_commit (confirm : option Duration) (service_ : option PendingService) : EM OpsError PendingCommit :=
  n ← reading next_commit;
  _ ← updating (set_next (saturating_add 32 n 1));
  let requested := as_u16 (as_secs (default DEFAULT_CONFIRM confirm)) in
  '(timeout_s, rollback_targets) ← ask (start_confirm_timer (Z.to_N n) requested service_);
  deadline ← at_event (fun k => deadline_rfc3339 fe k timeout_s);
  mret (mkPendingCommit (Z.to_N n) timeout_s deadline rollback_targets).

(** Put back what a write without a window has replaced, from the newest backup
    of [target] with the digest [prev]. *)
Definition undo_write (module : rstr) (target : TargetId) (prev : option Sha256Digest) (backed_up : bool) : EM OpsError () :=
  match backed_up, prev with
  | true, Some prev =>
      m ← give (find_module module);
      t ← acked;
      i ← give (module_id_of t m);
      backups ← ask (list_backups i);
      match List.find (fun b => (bk_target b =? target)%N && bool_decide (bk_digest b = prev)) backups with
      | None => throw OErr.NoBackup
      | Some b => _ ← ask (restore i (bk_id b)); mret ()
      end
  | _, _ => throw OErr.NoBackup
  end.

Definition arm_or_undo (confirm : option Duration) (service_ : option PendingService) (d : ModuleDescriptor) (wi : Wiring)
    (written : WriteReceipt) : EM OpsError PendingCommit :=
  after (arm_commit confirm service_) (fun r =>
    match r with
    | Ok c => mret c
    | Err arming =>
        after (undo_write (d_id d) (wi_target wi) (wr_prev_digest written) (wr_backed_up written)) (fun restored =>
          throw (OErr.ArmFailed arming (match restored with Ok _ => None | Err e => Some e end)))
    end).

(** *** Mounts and unit files *)

Definition start_mounts {E} (d : ModuleDescriptor) (target : TargetId) : EM E (option MountsReport) :=
  match added_mounts d with
  | None => mret None
  | Some _ =>
      after (on_client (mount target)) (fun r =>
        mret (Some match r with
                   | Ok (activated, units) => mkMounts activated (mount_report <$> units) None
                   | Err e => mkMounts true [] (Some (mount_error_text e))
                   end))
  end.

Definition reload_module (d : ModuleDescriptor) : EM OpsError (option ModuleId) :=
  if negb (Descriptor.reload_unit_files d) then mret None
  else
    m ← give (find_module (d_id d));
    t ← acked;
    i ← give (module_id_of t m);
    mret (Some i).

Definition reload_or_discard (module : option ModuleId) (commit : option PendingCommit) : EM OpsError () :=
  match module with
  | None => mret ()
  | Some module =>
      after (ask (reload_unit_files module)) (fun r =>
        match r with Ok _ => mret () | Err e => _ ← discard_commit commit; throw e end)
  end.

Definition serviced (service_action : option ServiceCommand) (wi : Wiring) (commit : option PendingCommit)
    : EM OpsError (option ServiceReport) :=
  match service_action, wi_binding wi with
  | Some action, Some (binding, affected) =>
      after (act binding (as_unit affected) action) (fun r =>
        match r with Ok x => mret (Some x) | Err e => _ ← discard_commit commit; throw e end)
  | _, _ => mret None
  end.

(** *** Changing *)

Definition commit_required (d : ModuleDescriptor) (confirm : option Duration) : bool :=
  commit_confirm d || bool_decide (is_Some confirm).

Definition pending_service (service_action : option ServiceCommand) (wi : Wiring) : option PendingService :=
  match service_action, wi_binding wi with
  | Some action, Some (binding, _) => Some (mkPendingService binding (command_to_wire action))
  | _, _ => None
  end.

(** Steps 5 to 8 of [apply]: after the write. *)
Definition apply_written (d : ModuleDescriptor) (wi : Wiring) (reload : option ModuleId) (service_action : option ServiceCommand)
    (confirm : option Duration) (checks : list CheckReport) (receipt : WriteReceipt) : EM OpsError ApplyReport :=
  commit ←
    (if commit_required d confirm then
       c ← arm_or_undo confirm (pending_service service_action wi) d wi receipt;
       _ ← observe_commit (pc_commit_id c);
       _ ← updating (set_known (Some c));
       mret (Some c)
     else mret None);
  if commit_required d confirm && negb (wr_backed_up receipt) then
    _ ← discard_commit commit; throw OErr.NoBackup
  else
    _ ← reload_or_discard reload commit;
    mounts ← start_mounts d (wi_target wi);
    service_ ← serviced service_action wi commit;
    mret (mkApply (d_id d) (wi_path wi) (wr_prev_digest receipt) (wr_new_digest receipt) (wr_created receipt)
            (wr_backed_up receipt) service_ commit checks mounts).

(** Step 4 of [apply] after rendering: the checks, the pending commit, the
    write. *)
Definition apply_rendered (d : ModuleDescriptor) (wi : Wiring) (reload : option ModuleId) (service_action : option ServiceCommand)
    (confirm : option Duration) (contents : TargetContents) (rendered : rstr) : EM OpsError ApplyReport :=
  checks ← run_checks wi (as_bytes rendered);
  pending ← (if commit_required d confirm then ask pending_commit else mret None);
  match pending with
  | Some commit => throw (OErr.CommitPending commit)
  | None =>
      match List.find (fun r => negb (cr_ran r) || negb (cr_passed r)) checks with
      | Some r => throw (OErr.CheckFailed (cr_program r) (cr_detail r))
      | None =>
          receipt ← ask (write_target (wi_target wi) (Some (tc_digest contents)) (as_bytes rendered) (commit_required d confirm));
          _ ← observe_prev (wr_prev_digest receipt);
          _ ← observe_new (wr_new_digest receipt);
          apply_written d wi reload service_action confirm checks receipt
      end
  end.

(** The digest the caller expects, if it says one. *)
Definition expectation_met (expected_hash : option Sha256Digest) (actual : Sha256Digest) : result OpsError () :=
  match expected_hash with
  | Some expected => if bool_decide (expected = actual) then Ok () else Err (OErr.HashConflict expected (Some actual))
  | None => Ok ()
  end.

Definition apply (id : rstr) (model : Value) (expected_hash : option Sha256Digest) (service_action : option ServiceCommand)
    (confirm : option Duration) : EM OpsError ApplyReport :=
  m ← give (find_module id);
  let d := om_descriptor m in
  diagnostics ← of_dyn (om_validate m model (profile (host fe)));
  if has_errors diagnostics then throw (OErr.Invalid diagnostics)
  else
    wi ← model_wiring id model;
    if bool_decide (is_Some service_action) && bool_decide (wi_binding wi = None) then throw (OErr.NoService (d_id d))
    else
      reload ← reload_module d;
      contents ← ask (read_target (wi_target wi));
      _ ← observe_prev (Some (tc_digest contents));
      _ ← give (expectation_met expected_hash (tc_digest contents));
      current ← give (decode (tc_bytes contents) (wi_path wi));
      rendered ← of_dyn (om_apply m current model);
      if bool_decide (current = rendered) then mret (unchanged_report (d_id d) (wi_path wi) (tc_digest contents))
      else apply_rendered d wi reload service_action confirm contents rendered.

Definition restore_backup (id : rstr) (backup_id : BackupId) (expected_hash : option Sha256Digest) : EM OpsError (OpOutcome Value) :=
  m ← give (find_module id);
  t ← acked;
  i ← give (module_id_of t m);
  wi ← wiring (om_descriptor m) None;
  contents ← ask (read_target (wi_target wi));
  _ ← observe_prev (Some (tc_digest contents));
  _ ← give (expectation_met expected_hash (tc_digest contents));
  '(target, new_hash) ← ask (restore i backup_id);
  _ ← observe_new new_hash;
  mret (Out.Restored target new_hash).

Definition service_action (id : rstr) (action : ServiceCommand) : EM OpsError (OpOutcome Value) :=
  m ← give (find_module id);
  let d := om_descriptor m in
  wi ← wiring d None;
  match wi_binding wi with
  | None => throw (OErr.NoService (d_id d))
  | Some (binding, affected) => report ← act binding (as_unit affected) action; mret (Out.Serviced report)
  end.

Definition update_apply (version : rstr) : EM OpsError () :=
  match check_tag fe version with
  | Err NotReleaseTag => throw OErr.UpdateTagInvalid
  | Err NotNewer => throw OErr.UpdateNotNewer
  | Ok _ =>
      after (on_client (start_update version)) (fun r =>
        match r with
        | Ok _ => mret ()
        | Err (CErr.Remote PErr.UpdateRunning) => throw OErr.UpdateRunning
        | Err (CErr.Remote (PErr.Unavailable _)) | Err (CErr.Remote (PErr.Unsupported _)) =>
            throw (OErr.Unsupported (lit "update_apply"))
        | Err e => throw (map_client e)
        end)
  end.

(** [pending_commit]: the report of the window the monitor says is open. *)
Definition pending_report : EM OpsError (option PendingCommit) :=
  active ← ask pending_commit;
  match active with
  | None => _ ← updating (set_known None); mret None
  | Some active =>
      known ← reading known_commit;
      match known with
      | Some p => if (pc_commit_id p =? active)%N then mret (Some p) else throw (OErr.CommitPending active)
      | None => throw (OErr.CommitPending active)
      end
  end.

Definition shutdown_monitor : EM OpsError () := map_error OErr.Privsep (on_client shutdown).

(** *** Dispatch *)

Definition dispatch (op : Operation Value) : EM OpsError (OpOutcome Value) :=
  match op with
  | Op.ListModules => mret (Out.Modules (om_descriptor <$> modules fe))
  | Op.GetModule id => get_module id
  | Op.Validate id model =>
      m ← give (find_module id);
      d ← of_dyn (om_validate m model (profile (host fe)));
      mret (Out.Validated d)
  | Op.Plan id model => p ← plan id model; mret (Out.Planned p)
  | Op.Apply id model expected_hash action confirm =>
      report ← apply id model expected_hash action confirm; mret (Out.Applied report)
  | Op.ConfirmCommit c =>
      _ ← observe_commit c;
      commit ← ask (confirm_commit c);
      _ ← updating (set_known None);
      mret (Out.CommitConfirmed commit)
  | Op.RollbackCommit c =>
      _ ← observe_commit c;
      '(commit, restored) ← ask (rollback_commit c);
      _ ← updating (set_known None);
      mret (Out.RolledBack commit restored)
  | Op.ListBackups id =>
      m ← give (find_module id);
      t ← acked;
      i ← give (module_id_of t m);
      l ← ask (list_backups i);
      mret (Out.Backups l)
  | Op.Restore id backup_id expected_hash => restore_backup id backup_id expected_hash
  | Op.ServiceStatus id => service_status id
  | Op.ServiceAction id action => service_action id action
  | Op.HostProfile => mret (Out.Host (host_report (host fe)))
  | Op.AuditQuery q =>
      a ← reading sink;
      match sink_query q a with Ok l => mret (Out.Audit l) | Err e => throw (OErr.Audit e) end
  | Op.CertStatus =>
      match cert fe with
      | Some hook => report ← ask_front false (cf_status hook); mret (Out.CertStatus report)
      | None => throw (OErr.Unsupported (lit "cert_status"))
      end
  | Op.UpdateStatus => throw (OErr.Unsupported (lit "update_status"))
  | Op.CertRenew =>
      match cert fe with
      | Some hook => _ ← ask_front true (cf_renew hook); mret Out.CertRenewRequested
      | None => throw (OErr.Unsupported (lit "cert_renew"))
      end
  | Op.UpdateApply version => _ ← update_apply version; mret (Out.UpdateStarted version)
  end.

(** The name the audit log uses for the module of an operation. *)
Definition audited_module (op : Operation Value) : option rstr :=
  id ← op_module op;
  m ← List.find (fun m => bool_decide (om_id m = id)) (modules fe);
  Some (d_id (om_descriptor m)).

Definition stamped {E} (who : Identity) (op : Operation Value) (r : AuditResult) : EM E AuditRecord :=
  ts ← at_event (now_rfc3339 fe);
  mret (new_record ts who (op_kind op) (audited_module op) r).

(** Best effort: the error is only logged. *)
Definition emitted {E} (r : AuditRecord) : EM E () := after (emit r) (fun _ => mret ()).

(** A plan that ran a validator leaves a record of it. *)
Definition plan_record {E} (who : Identity) (op : Operation Value) (r : result OpsError (OpOutcome Value)) : EM E () :=
  match r with
  | Ok (Out.Planned p) =>
      if existsb cr_ran (pl_checks p) then
        record ← stamped who op ROk;
        emitted (with_hashes (Some (pl_current_hash p)) None record)
      else mret ()
  | _ => mret ()
  end.

Definition outcome_record (r : result OpsError (OpOutcome Value)) (h : Hashes) (record : AuditRecord) : AuditRecord :=
  let record := with_hashes (h_prev h) (h_new h) record in
  let record := match h_commit_id h with Some c => with_commit_id c record | None => record end in
  match r with Ok _ => record | Err e => with_error (ops_message_id e) record end.

(** The operation itself, and the record of how it ended. *)
Definition recorded (who : Identity) (op : Operation Value) : EM OpsError (OpOutcome Value) :=
  after (dispatch op) (fun r =>
    h ← reading hashes;
    record ← stamped who op (match r with Ok _ => ROk | Err _ => RError end);
    _ ← emitted (outcome_record r h record);
    give r).

Definition unrecorded (who : Identity) (op : Operation Value) : EM OpsError (OpOutcome Value) :=
  after (dispatch op) (fun r => _ ← plan_record who op r; give r).

Definition execute (op : Operation Value) (who : Identity) (authz : Authz Value) : EM OpsError (OpOutcome Value) :=
  match authz who op with
  | Err denied =>
      record ← stamped who op RDenied;
      _ ← emitted (with_error (denied_id denied) record);
      throw (OErr.Refused denied)
  | Ok _ =>
      no_op ← (if is_mutating op then after (apply_is_noop op) (fun r => mret (unwrap_or r false)) else mret false);
      _ ← updating (set_hashes (fun _ => no_hashes));
      if is_mutating op && negb no_op then
        started ← stamped who op RStarted;
        after (emit started) (fun r =>
          match r with
          | Err e => throw (OErr.AuditUnavailable e)
          | Ok _ => recorded who op
          end)
      else unrecorded who op
  end.

End Engine.
