(* ===== verification/EngineSafe.v ===== *)
(** * What the engine asks for, and what it writes down

    Safety of [Engine], for any monitor, audit sink, policy and modules: a caller
    without the right to write changes nothing, a change is written down before it
    is made, and a write is made only of what was validated, read and checked. *)

From Stdlib Require Import ZArith.
From stdpp Require Import gmap.
From S2P Require Import Prelude Str Num Ip Utf8 Doc Diag Version Config Descriptor Time Disk Atomic Proto Transport Stateful Client AuditLog Session Diff Ops Engine.
#[local] Open Scope Z_scope.

(** ** Events *)

(** Can this event change the host? *)
Definition acts (e : Event) : bool :=
  match e with
  | Asked r _ => changes_state r
  | AskedFront renew => renew
  | Audited _ _ => false
  end.

Abbreviation still e := (acts e = false).

(** The tables of the handshake do not change. *)
Definition greeted_with {S A} (t : option HelloAck) (w : @World S A) : Prop := tables (client w) = t.

(** What an engine that knows the tables [t] does. *)
Abbreviation engine_says S A t := (Stateful.says (@events S A) (greeted_with t)).
Abbreviation engine_only S A t := (Stateful.only (@events S A) (greeted_with t)).

Section Safe.
Context {S A : Type} `{!Peer S} `{!AuditSink A}.
Variable t : option HelloAck.

Abbreviation EM E X := (SE (@World S A) E X).
Abbreviation says := (engine_says S A t).
Abbreviation only := (engine_only S A t).

(** *** The steps an engine takes *)

(** What one request of the client leaves in the log. *)
Definition one_asked {X} (want : rstr) (part : Response -> option X) (r : Request) (a : result ClientError X) (new : list Event) : Prop :=
  match t with
  | Some _ => exists answer, new = [Asked r answer] /\ a = verdict want part answer
  | None => new = [] /\ a = Err CErr.NotGreeted
  end.

Lemma says_client {X} (m : SE (Client S) ClientError X) (Q : result ClientError X -> list (Request * result ClientError Response) -> Prop) :
  Stateful.says asked (knows t) m Q -> says (on_client m) (fun r new => exists l, new = (fun p => Asked p.1 p.2) <$> l /\ Q r l).
Proof.
  intros H w Hw. unfold on_client. destruct (H (mkClient (peer (client w)) (tables (client w)) []) Hw) as (Ht & l & E & HQ).
  destruct (m _) as [r c]. simpl in *. rewrite E. split; [done|]. eexists. split; [done|]. by exists l.
Qed.

Lemma says_expecting_client {X} want (part : Response -> option X) r :
  says (on_client (expecting want part r)) (one_asked want part r).
Proof.
  eapply says_weaken; [apply says_client, says_expecting|]. intros a new (l & -> & H). unfold one, one_asked in *.
  destruct t; [|by destruct H as [-> ->]]. destruct H as (answer & -> & ->). by eexists.
Qed.

Lemma says_emit r : says (emit r) (fun x new => new = [Audited r (is_ok x)]).
Proof. intros w Hw. unfold emit. destruct (sink_record r (sink w)) as [x a]. split; [done|]. by eexists. Qed.

Lemma says_front {X} renew (answer : nat -> result OpsError X) : says (ask_front renew answer) (fun _ new => new = [AskedFront renew]).
Proof. intros w Hw. split; [done|]. by eexists. Qed.

Lemma says_of_dyn {X} (r : result DynError X) (Q : result OpsError X -> list Event -> Prop) :
  Q (match r with Ok x => Ok x | Err e => Err (OErr.Module_ e) end) [] -> says (of_dyn r) Q.
Proof. destruct r; intros H; [by apply says_ret|by apply says_throw]. Qed.

(** *** Computations that change nothing *)

Definition quiet {E X} (m : EM E X) : Prop := only (fun e => still e) m.

Lemma quiet_give {E X} (r : result E X) : quiet (give r). Proof. apply only_give. Qed.
Lemma quiet_ret {E X} (x : X) : quiet (E := E) (mret x). Proof. apply only_ret. Qed.
Lemma quiet_throw {E X} (e : E) : quiet (X := X) (throw e). Proof. apply only_throw. Qed.
Lemma quiet_reading {E X} (f : World -> X) : quiet (E := E) (reading f). Proof. apply only_reading. Qed.
Lemma quiet_bind {E X Y} (m : EM E X) (k : X -> EM E Y) : quiet m -> (forall x, quiet (k x)) -> quiet (m ≫= k).
Proof. apply only_bind. Qed.
Lemma quiet_after {E F X Y} (m : EM E X) (k : result E X -> EM F Y) : quiet m -> (forall r, quiet (k r)) -> quiet (after m k).
Proof. apply only_after. Qed.
Lemma quiet_map_error {E F X} (g : E -> F) (m : EM E X) : quiet m -> quiet (map_error g m).
Proof. apply only_map_error. Qed.
Lemma quiet_of_dyn {X} (r : result DynError X) : quiet (of_dyn r).
Proof. by apply says_of_dyn. Qed.

Lemma quiet_client {X} want (part : Response -> option X) r : changes_state r = false -> quiet (on_client (expecting want part r)).
Proof.
  intros Hr. eapply says_weaken; [apply says_expecting_client|]. intros a new H. unfold one_asked in H.
  destruct t; [destruct H as (answer & -> & _)|destruct H as [-> _]]; by repeat constructor.
Qed.

Lemma quiet_emit r : quiet (emit r).
Proof. eapply says_weaken; [apply says_emit|]. intros x new ->. by repeat constructor. Qed.

Lemma quiet_updating {E} (g : World -> World) :
  (forall w, tables (client (g w)) = tables (client w) /\ events (g w) = events w) -> quiet (E := E) (updating g).
Proof. intros H. apply only_updating. intros w Hw. destruct (H w). split; [unfold greeted_with; congruence|done]. Qed.
End Safe.

#[export] Hint Resolve quiet_give quiet_ret quiet_throw quiet_reading quiet_of_dyn quiet_emit : engine.
#[export] Hint Extern 1 (quiet _ (updating _)) => apply quiet_updating; done : engine.
#[export] Hint Extern 1 (quiet _ (on_client _)) => apply quiet_client; done : engine.

(** Follow the structure of a computation. *)
Ltac quiet_steps :=
  repeat first
    [ progress eauto with engine nocore
    | progress intros
    | match goal with
      | |- quiet _ (_ ≫= _) => apply quiet_bind
      | |- quiet _ (after _ _) => apply quiet_after
      | |- quiet _ (map_error _ _) => apply quiet_map_error
      | |- quiet _ (ask _) => apply quiet_map_error
      | |- quiet _ (match ?x with _ => _ end) => destruct x
      | |- quiet _ (let _ := _ in _) => cbv zeta
      end ].

Section Reading.
Context {Value S A : Type} `{!Peer S} `{!AuditSink A}.
Variable fe : Front Value.
Variable t : option HelloAck.

Lemma quiet_wiring d target : quiet t (wiring (S := S) (A := A) fe d target).
Proof. unfold wiring, acked, at_event. quiet_steps. Qed.
#[local] Hint Resolve quiet_wiring : engine.

Lemma quiet_model_wiring id model : quiet t (model_wiring (S := S) (A := A) fe id model).
Proof. unfold model_wiring. quiet_steps. Qed.
#[local] Hint Resolve quiet_model_wiring : engine.

Lemma quiet_check {E X} (c : CheckId * rstr) b (k : CheckReport -> SE (@World S A) E X) :
  (forall r, quiet t (k r)) -> quiet t (after (on_client (run_check c.1 b)) (fun r => mret (check_report c.2 r)) ≫= k).
Proof. intros H. unfold run_check. quiet_steps. Qed.

Lemma quiet_run_checks {E} wi b : quiet t (E := E) (run_checks (S := S) (A := A) wi b).
Proof.
  unfold run_checks. induction (wi_checks wi) as [|[i p] l IH]; simpl; [apply quiet_ret|].
  apply (quiet_check (i, p)). intros r. quiet_steps.
Qed.
#[local] Hint Resolve quiet_run_checks : engine.

Lemma quiet_get_module id : quiet t (get_module (S := S) (A := A) fe id).
Proof. unfold get_module, read_target. quiet_steps. Qed.

Lemma quiet_plan id model : quiet t (plan (S := S) (A := A) fe id model).
Proof. unfold plan, read_target. quiet_steps. Qed.

Lemma quiet_service_status id : quiet t (Engine.service_status (S := S) (A := A) fe id).
Proof. unfold Engine.service_status, acked, Client.service_status. quiet_steps. Qed.

Lemma quiet_noop op : quiet t (apply_is_noop (S := S) (A := A) fe op).
Proof. unfold apply_is_noop, read_target. quiet_steps. Qed.

Lemma quiet_front {X} (answer : nat -> result OpsError X) : quiet t (ask_front (S := S) (A := A) false answer).
Proof. eapply says_weaken; [apply says_front|]. intros r new ->. by repeat constructor. Qed.

Lemma quiet_dispatch op : is_mutating op = false -> quiet t (dispatch (S := S) (A := A) fe op).
Proof.
  intros H. destruct op; simpl in *; try done; unfold acked, list_backups; quiet_steps;
    first [apply quiet_get_module|apply quiet_plan|apply quiet_service_status|apply quiet_front].
Qed.

Lemma quiet_stamped {E} who op r : quiet t (E := E) (stamped (S := S) (A := A) fe who op r).
Proof. unfold stamped, at_event. quiet_steps. Qed.

Lemma quiet_emitted {E} r : quiet t (E := E) (emitted (S := S) (A := A) r).
Proof. unfold emitted. quiet_steps. Qed.
#[local] Hint Resolve quiet_stamped quiet_emitted : engine.

Lemma quiet_unrecorded who op : is_mutating op = false -> quiet t (unrecorded (S := S) (A := A) fe who op).
Proof. intros H. unfold unrecorded, plan_record. quiet_steps. by apply quiet_dispatch. Qed.

Lemma quiet_execute op who (authz : Authz Value) : is_mutating op = false \/ is_ok (authz who op) = false ->
  quiet t (execute (S := S) (A := A) fe op who authz).
Proof.
  intros H. unfold execute. destruct (authz who op) as [u|denied] eqn:E; [|quiet_steps].
  destruct H as [H|]; [|done]. rewrite H. simpl. quiet_steps. by apply quiet_unrecorded.
Qed.

End Reading.
