(* ===== verification/EngineApply.v ===== *)
(** * What an apply asks the monitor for

    The requests of [Engine.apply] in order: what was read, validated and checked
    before a file is written, and what is asked when something fails after it. *)

From Stdlib Require Import ZArith.
From stdpp Require Import gmap.
From S2P Require Import Prelude Str Num Ip Utf8 Doc Diag Version Config Descriptor Time Disk Atomic Proto Transport Stateful Client AuditLog Session Diff Ops Engine EngineSafe.
#[local] Open Scope Z_scope.

Lemma verdict_ok {X} want (part : Response -> option X) answer x :
  verdict want part answer = Ok x -> exists response, answer = Ok response /\ part response = Some x.
Proof.
  destruct answer as [response|e]; simpl; [|done].
  destruct response; simpl; try done; destruct (part _) eqn:E; intros; simplify_eq; eauto.
Qed.

Section Apply.
Context {Value S A : Type} `{!Peer S} `{!AuditSink A}.
Variable fe : Front Value.
Variable tables : HelloAck.

Abbreviation t := (Some tables).
Abbreviation EM E X := (SE (@World S A) E X).
Abbreviation says := (engine_says S A t).

(** ** Requests of a greeted client *)

Lemma says_asked {X} want (part : Response -> option X) r :
  says (on_client (expecting want part r)) (fun a new => exists answer, new = [Asked r answer] /\ a = verdict want part answer).
Proof. apply (says_expecting_client t). Qed.

Lemma says_ask {X} want (part : Response -> option X) r :
  says (ask (expecting want part r)) (fun a new => exists answer, new = [Asked r answer] /\
    match a with Ok x => exists response, answer = Ok response /\ part response = Some x | Err _ => forall x, verdict want part answer <> Ok x end).
Proof.
  apply says_map_error. eapply says_weaken; [apply says_asked|]. intros a new (answer & -> & ->). exists answer.
  split; [done|]. destruct (verdict want part answer) eqn:E; [by eapply verdict_ok|done].
Qed.

(** ** The checks *)

Definition check_passed (candidate : rbytes) (c : CheckId * rstr) (e : Event) : Prop :=
  exists o, e = Asked (Req.RunCheck c.1 candidate) (Ok (Resp.Checked o)) /\ passed o = true.

Definition report_passed (r : CheckReport) : bool := cr_ran r && cr_passed r.

Lemma says_run_checks {E} candidate wi :
  says (run_checks wi candidate : EM E _) (fun r new => Forall (fun e => still e) new /\
    exists reports, r = Ok reports
      /\ (Forall (fun x => report_passed x = true) reports -> Forall2 (check_passed candidate) (wi_checks wi) new)).
Proof.
  unfold run_checks. induction (wi_checks wi) as [|[i p] l IH]; simpl.
  { apply says_ret. split; [constructor|]. by exists []. }
  apply says_bind, says_after. eapply says_weaken; [apply says_asked|]. intros a new (answer & -> & ->).
  apply says_ret, says_bind. eapply says_weaken; [exact IH|]. intros r new (Hq & reports & -> & Hp).
  apply says_ret. rewrite ?app_nil_r. simpl. rewrite ?app_nil_r. split; [by constructor|]. eexists. split; [done|].
  intros [H1 H2]%Forall_cons. constructor; [|by apply Hp].
  unfold report_passed in H1. destruct (verdict _ _ answer) as [o|e] eqn:E0; [|done]. simpl in H1.
  apply verdict_ok in E0 as (response & -> & E0). destruct response; try done. simplify_eq. by exists o.
Qed.

(** ** Arming and undoing *)

(** The backup that holds what the write replaced. *)
Definition backup_of (target : TargetId) (prev : Sha256Digest) (l : list BackupInfo) : option BackupInfo :=
  List.find (fun b => (bk_target b =? target)%N && bool_decide (bk_digest b = prev)) l.

(** What is asked to put back the contents [written] replaced; with no error, the
    monitor has restored the newest backup of them. *)
Definition undone (target : TargetId) (written : WriteReceipt) (error : option OpsError) (new : list Event) : Prop :=
  match error with
  | None => exists i prev backups b target' d,
      wr_backed_up written = true /\ wr_prev_digest written = Some prev /\ backup_of target prev backups = Some b
      /\ new = [Asked (Req.ListBackups i) (Ok (Resp.Backups backups)); Asked (Req.Restore i (bk_id b)) (Ok (Resp.Restored target' d))]
  | Some _ => new = [] \/ exists i, (exists a, new = [Asked (Req.ListBackups i) a])
      \/ exists prev backups b a, wr_prev_digest written = Some prev /\ backup_of target prev backups = Some b
           /\ new = [Asked (Req.ListBackups i) (Ok (Resp.Backups backups)); Asked (Req.Restore i (bk_id b)) a]
  end.

Lemma says_undo module target written :
  says (undo_write fe module target (wr_prev_digest written) (wr_backed_up written))
    (fun r new => undone target written (match r with Ok _ => None | Err e => Some e end) new).
Proof.
  unfold undo_write. destruct (wr_backed_up written) eqn:Eb; [|apply says_throw; by left].
  destruct (wr_prev_digest written) as [prev|] eqn:Ep; [|apply says_throw; by left].
  apply says_bind, says_give. destruct (find_module fe module) as [m|e]; [|by left].
  apply says_bind, (says_reading _ _ _ (fun _ => True)); [done|]. intros t' _.
  apply says_bind, says_give. destruct (module_id_of t' m) as [i|e]; [|by left].
  apply says_bind. eapply says_weaken; [apply says_ask|]. intros [backups|e] new (answer & -> & H).
  2: { right. exists i. left. by eexists. }
  destruct H as (response & -> & H). destruct response; try done. simplify_eq. simpl.
  destruct (List.find _ backups) as [b|] eqn:F; [|apply says_throw; right; exists i; left; by eexists].
  apply says_bind. eapply says_weaken; [apply says_ask|]. intros [[target' d]|e] new (answer & -> & H).
  - destruct H as (response & -> & H). destruct response; try done. simplify_eq. apply says_ret.
    by exists i, prev, backups, b, target', d.
  - right. exists i. right. by exists prev, backups, b, answer.
Qed.

Definition armed (answer : result ClientError Response) : Prop :=
  exists c s k, answer = Ok (Resp.ConfirmTimerStarted c s k).

Definition window (confirm : option Duration) : Z := as_u16 (as_secs (default DEFAULT_CONFIRM confirm)).

Lemma says_arm confirm service_ :
  says (arm_commit fe confirm service_) (fun r new => exists n answer,
    new = [Asked (Req.StartConfirmTimer n (window confirm) service_) answer]
    /\ match r with Ok c => pc_commit_id c = n /\ armed answer | Err _ => ~ armed answer end).
Proof.
  unfold arm_commit. apply says_bind, (says_reading _ _ _ (fun _ => True)); [done|]. intros n _.
  apply says_bind, says_updating; [done|]. apply says_bind. eapply says_weaken; [apply says_ask|].
  intros [[timeout_s k]|e] new (answer & -> & H).
  - destruct H as (response & -> & H). destruct response; try done. simplify_eq.
    apply says_bind, (says_reading _ _ _ (fun _ => True)); [done|]. intros deadline _. apply says_ret. simpl.
    eexists _, _. split_and!; [done..|]. by eexists _, _, _.
  - simpl. eexists _, _. split; [done|]. intros (c & s & k & ->). by eapply (H (s, k)).
Qed.

(** ** After the write *)

Definition no_write (e : Event) : Prop := match e with Asked (Req.WriteTarget _ _ _ _) _ => False | _ => True end.

(** The last thing asked was to roll back the commit [n]. *)
Definition rolled_back (n : CommitId) (new : list Event) : Prop := exists pre a, new = pre ++ [Asked (Req.RollbackCommit n) a].

(** A request that touches no file. *)
Definition aside (e : Event) : Prop :=
  match e with Asked (Req.ReloadUnitFiles _) _ | Asked (Req.Mount _) _ | Asked (Req.Service _ _) _ => True | _ => False end.

(** What a step after the write may ask; when it fails, the commit that is armed
    is rolled back. *)
Definition guarded {X} (commit : option PendingCommit) (r : result OpsError X) (new : list Event) : Prop :=
  Forall no_write new /\ match commit with
                         | None => Forall aside new
                         | Some c => is_ok r = false -> rolled_back (pc_commit_id c) new
                         end.

Lemma says_discard {E} commit :
  says (discard_commit commit : EM E ()) (fun r new => r = Ok () /\ Forall no_write new /\
    match commit with Some c => rolled_back (pc_commit_id c) new | None => True end).
Proof.
  destruct commit as [c|]; [|by apply says_ret]. apply says_after. eapply says_weaken; [apply says_asked|].
  intros a new (answer & -> & ->). destruct (verdict _ _ _); [apply says_updating; [done|]|apply says_ret];
    simpl; (split_and!; [done|by repeat constructor|]); by exists [], answer.
Qed.

(** A request whose failure discards the commit. *)
Lemma says_guarded {X Y} (commit : option PendingCommit) (m : EM OpsError X) (k : X -> Y) :
  says m (fun _ new => Forall (fun e => no_write e /\ aside e) new) ->
  says (after m (fun r => match r with Ok x => mret (k x) | Err e => _ ← discard_commit commit; throw e end)) (guarded commit).
Proof.
  intros H. apply says_after. eapply says_weaken; [exact H|]. intros [x|e] new [Hn Ha]%Forall_and.
  { apply says_ret. rewrite app_nil_r. split; [done|]. by destruct commit. }
  apply says_bind. destruct commit as [c|].
  - eapply says_weaken; [apply says_discard|]. intros r new' (-> & Hn' & pre & a & ->). apply says_throw.
    rewrite app_nil_r. split; [by apply Forall_app|]. intros _. exists (new ++ pre), a. by rewrite (assoc_L (++)).
  - apply says_ret, says_throw. rewrite !app_nil_r. by split.
Qed.

Lemma says_reload module commit : says (reload_or_discard module commit) (guarded commit).
Proof.
  destruct module as [module|]; [|apply says_ret; by split; [|destruct commit]].
  apply (says_guarded commit _ (fun _ => ())). eapply says_weaken; [apply says_ask|]. intros r new (answer & -> & _). by repeat constructor.
Qed.

Lemma says_mounts {E} d target : says (start_mounts d target : EM E _) (fun r new => is_ok r = true /\ Forall (fun e => no_write e /\ aside e) new).
Proof.
  unfold start_mounts. destruct (added_mounts d) as [am|]; [|by apply says_ret].
  apply says_after. eapply says_weaken; [apply says_asked|]. intros a new (answer & -> & ->). apply says_ret.
  split; [done|]. by repeat constructor.
Qed.

Lemma says_serviced action wi commit : says (serviced action wi commit) (guarded commit).
Proof.
  unfold serviced. destruct action as [action|], (wi_binding wi) as [[binding affected]|]; try (apply says_ret; by split; [|destruct commit]).
  apply (says_guarded commit _ Some). unfold act. apply says_bind. eapply says_weaken; [apply says_ask|].
  intros [o|e] new (answer & -> & _); [apply says_ret|]; by repeat constructor.
Qed.

(** How an apply goes on after the monitor has written: what the report says of
    the write, and, when a commit is required, that it is armed at once and that
    whatever fails after that is taken back. *)
Definition settled (d : ModuleDescriptor) (wi : Wiring) (action : option ServiceCommand) (confirm : option Duration)
    (written : WriteReceipt) (r : result OpsError ApplyReport) (rest : list Event) : Prop :=
  Forall no_write rest
  /\ (commit_required d confirm = false -> Forall aside rest)
  /\ (forall report, r = Ok report -> ap_path report = wi_path wi /\ ap_prev_hash report = wr_prev_digest written
        /\ ap_new_hash report = wr_new_digest written /\ ap_backed_up report = wr_backed_up written)
  /\ (commit_required d confirm = true -> exists n answer rest',
        rest = Asked (Req.StartConfirmTimer n (window confirm) (pending_service action wi)) answer :: rest'
        /\ match r with
           | Ok report => exists c, ap_commit report = Some c /\ pc_commit_id c = n /\ armed answer /\ wr_backed_up written = true
           | Err e => armed answer /\ rolled_back n rest'
               \/ ~ armed answer /\ exists arming error, e = OErr.ArmFailed arming error /\ undone (wi_target wi) written error rest'
           end).

Lemma undone_no_write target written error new : undone target written error new -> Forall no_write new.
Proof.
  destruct error as [e|]; simpl.
  - intros [->|(i & [[a ->]|(prev & backups & b & a & _ & _ & ->)])]; by repeat constructor.
  - intros (i & prev & backups & b & target' & d & _ & _ & _ & ->). by repeat constructor.
Qed.

(** The steps after arming. *)
Lemma says_tail d wi reload action checks written commit :
  says (_ ← reload_or_discard reload commit;
        mounts ← start_mounts d (wi_target wi);
        service_ ← serviced action wi commit;
        mret (mkApply (d_id d) (wi_path wi) (wr_prev_digest written) (wr_new_digest written) (wr_created written)
                (wr_backed_up written) service_ commit checks mounts) : EM OpsError ApplyReport)
    (fun r new => guarded commit r new /\ forall report, r = Ok report ->
       ap_path report = wi_path wi /\ ap_prev_hash report = wr_prev_digest written /\ ap_new_hash report = wr_new_digest written
       /\ ap_backed_up report = wr_backed_up written /\ ap_commit report = commit).
Proof.
  apply says_bind. eapply says_weaken; [apply says_reload|]. intros [[]|e] new H1; [|done].
  apply says_bind. eapply says_weaken; [apply says_mounts|]. intros [mounts|e] new2 [Hok [H2 H2']%Forall_and]; [|done].
  apply says_bind. eapply says_weaken; [apply says_serviced|]. destruct H1 as [H1 H1'].
  intros [service_|e] new3 [H3 Hc]; [apply says_ret; rewrite app_nil_r|];
    (split; [split; [by repeat apply Forall_app_2|]|by intros ? [= <-]]); destruct commit as [c|]; try done;
    try (by repeat apply Forall_app_2).
  intros _. destruct Hc as (pre & a & ->); [done|]. exists (new ++ new2 ++ pre), a. by rewrite !(assoc_L (++)).
Qed.

Lemma says_written d wi reload action confirm checks written :
  says (apply_written fe d wi reload action confirm checks written) (settled d wi action confirm written).
Proof.
  unfold apply_written. destruct (commit_required d confirm) eqn:Ec; simpl.
  2: { apply says_bind, says_ret. eapply says_weaken; [apply says_tail|]. intros r new [[H1 H1'] H2].
       split_and!; [done|done| |congruence]. intros report ->. naive_solver. }
  apply says_bind, says_bind, says_after. eapply says_weaken; [apply says_arm|]. intros [c|arming] new (n & answer & -> & H).
  - destruct H as [Hn Ha]. apply says_ret, says_bind, says_updating; [done|]. apply says_bind, says_updating; [done|]. apply says_ret.
    destruct (wr_backed_up written) eqn:Eb; simpl.
    + pose proof (says_tail d wi reload action checks written (Some c)) as Ht. rewrite Eb in Ht.
      eapply says_weaken; [exact Ht|]. clear Ht. intros r new [[H1 H2] H3].
      split_and!; [by constructor|congruence|intros report ->; naive_solver|]. intros _. exists n, answer, new. split; [done|].
      destruct r as [report|e]; [|left; rewrite <- Hn; by split; [|apply H2]]. destruct (H3 _ eq_refl) as (_ & _ & _ & _ & ->). by exists c.
    + apply says_bind. eapply says_weaken; [apply (says_discard (Some c))|]. intros r new (-> & H1 & H2). apply says_throw.
      rewrite app_nil_r. split_and!; [by constructor|congruence|done|]. intros _. exists n, answer, new. split; [done|]. left. by rewrite <- Hn.
  - apply says_after. eapply says_weaken; [apply says_undo|]. intros r new Hu. apply says_throw.
    rewrite ?app_nil_r. simpl. rewrite ?app_nil_r. split_and!; [constructor; [done|exact (undone_no_write _ _ _ _ Hu)]|congruence|done|].
    intros _. exists n, answer, new. split; [done|]. right. split; [done|]. by eexists _, _.
Qed.

(** ** The whole apply *)

Lemma says_wiring d target :
  says (wiring fe d target) (fun r new => new = [] /\ exists k, r = wiring_of fe t d (path_exists fe k) target).
Proof.
  unfold wiring, acked, at_event. apply says_bind, (says_reading _ _ _ (fun x => x = t)); [done|]. intros x ->.
  apply says_bind, (says_reading _ _ _ (fun x => exists k, x = path_exists fe k)); [by eexists|]. intros ex [k ->].
  apply says_give. split; [done|]. by exists k.
Qed.

Lemma says_reload_module d : says (reload_module fe d) (fun _ new => new = []).
Proof.
  unfold reload_module. destruct (negb _); [by apply says_ret|].
  apply says_bind, says_give. destruct (find_module fe (d_id d)) as [m|e]; [|done].
  apply says_bind, (says_reading _ _ _ (fun _ => True)); [done|]. intros x _.
  apply says_bind, says_give. destruct (module_id_of x m); [|done]. by apply says_ret.
Qed.

(** What holds when an apply gets as far as comparing the file with what it
    renders: the model was read by the module and has no errors, the target is
    the one the tables give it, the caller's digest is the file's. *)
Definition rendering (m : OpsModule Value) (id : rstr) (model : Value) (expected_hash : option Sha256Digest) (wi : Wiring)
    (contents : TargetContents) (current rendered : rstr) : Prop :=
  find_module fe id = Ok m
  /\ (exists target k, om_target m model = Ok target /\ wiring_of fe t (om_descriptor m) (path_exists fe k) target = Ok wi)
  /\ (exists ds, om_validate m model (profile (host fe)) = Ok ds /\ has_errors ds = false)
  /\ (forall h, expected_hash = Some h -> h = tc_digest contents)
  /\ from_utf8 (tc_bytes contents) = Some current
  /\ om_apply m current model = Ok rendered.

Definition read_event (wi : Wiring) (contents : TargetContents) : Event :=
  Asked (Req.ReadTarget (wi_target wi)) (Ok (Resp.Target contents)).

Definition write_event (wi : Wiring) (contents : TargetContents) (rendered : rstr) (journal : bool)
    (answer : result ClientError Response) : Event :=
  Asked (Req.WriteTarget (wi_target wi) (Some (tc_digest contents)) (as_bytes rendered) journal) answer.

Definition no_commit_pending (required : bool) : list Event :=
  if required then [Asked Req.PendingCommit (Ok (Resp.Pending None))] else [].

(** An apply that writes. *)
Definition wrote (id : rstr) (model : Value) (expected_hash : option Sha256Digest) (action : option ServiceCommand)
    (confirm : option Duration) (r : result OpsError ApplyReport) (new : list Event) : Prop :=
  exists m wi contents current rendered checks answer rest,
    rendering m id model expected_hash wi contents current rendered /\ current <> rendered
    /\ Forall2 (check_passed (as_bytes rendered)) (wi_checks wi) checks
    /\ new = read_event wi contents :: checks ++ no_commit_pending (commit_required (om_descriptor m) confirm)
               ++ write_event wi contents rendered (commit_required (om_descriptor m) confirm) answer :: rest
    /\ match answer with
       | Ok (Resp.Written written) => settled (om_descriptor m) wi action confirm written r rest
       | _ => rest = [] /\ is_ok r = false
       end.

(** An apply that finds the file as it would write it. *)
Definition found_same (id : rstr) (model : Value) (expected_hash : option Sha256Digest) (r : result OpsError ApplyReport)
    (new : list Event) : Prop :=
  exists m wi contents current, rendering m id model expected_hash wi contents current current
    /\ new = [read_event wi contents] /\ r = Ok (unchanged_report (d_id (om_descriptor m)) (wi_path wi) (tc_digest contents)).

Definition refused {X} (r : result OpsError X) (new : list Event) : Prop := is_ok r = false /\ Forall (fun e => still e) new.

Lemma says_rendered m id model expected_hash wi contents current rendered reload action confirm :
  rendering m id model expected_hash wi contents current rendered -> current <> rendered ->
  says (apply_rendered fe (om_descriptor m) wi reload action confirm contents rendered)
    (fun r new => refused r (read_event wi contents :: new) \/ wrote id model expected_hash action confirm r (read_event wi contents :: new)).
Proof.
  intros Hr Hne. unfold apply_rendered. set (d := om_descriptor m). set (j := commit_required d confirm).
  apply says_bind. eapply says_weaken; [apply says_run_checks|]. intros r checks (Hq & reports & -> & Hp).
  apply says_bind. eapply (says_weaken _ _ _ (fun r new => match r with
    | Ok None => new = no_commit_pending j
    | _ => Forall (fun e => still e) new end)).
  { destruct j; [|by apply says_ret]. eapply says_weaken; [apply says_ask|]. intros [c|e] new (answer & -> & H); [|by repeat constructor].
    destruct H as (response & -> & H). destruct response; try done. simplify_eq. destruct c; [by repeat constructor|done]. }
  intros [[c|]|e] pend Hpend.
  - apply says_throw. left. split; [done|]. rewrite app_nil_r. constructor; [done|by apply Forall_app_2].
  - subst pend. assert (Hstill : Forall (fun e => still e) (no_commit_pending j)) by (destruct j; by repeat constructor).
    destruct (List.find _ reports) as [bad|] eqn:F.
    { apply says_throw. left. split; [done|]. rewrite app_nil_r. constructor; [done|by apply Forall_app_2]. }
    assert (Hpass : Forall2 (check_passed (as_bytes rendered)) (wi_checks wi) checks).
    { apply Hp, Forall_forall. intros x Hx. pose proof (find_none _ _ F x) as Hn. rewrite <- list_elem_of_In in Hn.
      specialize (Hn Hx). apply orb_false_iff in Hn as [?%negb_false_iff ?%negb_false_iff].
      unfold report_passed. by apply andb_true_iff. }
    apply says_bind. eapply says_weaken; [apply says_ask|]. intros [written|e] new (answer & -> & H).
    + destruct H as (response & -> & H). destruct response; try done. simplify_eq.
      apply says_bind, says_updating; [done|]. apply says_bind, says_updating; [done|].
      eapply says_weaken; [apply says_written|]. intros r rest Hs. right.
      exists m, wi, contents, current, rendered, checks, (Ok (Resp.Written written)), rest. split_and!; [done..| |done].
      simpl. by rewrite ?app_nil_r.
    + right. exists m, wi, contents, current, rendered, checks, answer, []. split_and!; [done..| |].
      * simpl. by rewrite ?app_nil_r.
      * destruct answer as [response|]; [|done]. destruct response; try done. exfalso. by eapply H.
  - left. split; [done|]. constructor; [done|by apply Forall_app_2].
Qed.

Lemma says_apply id model expected_hash action confirm :
  says (apply fe id model expected_hash action confirm) (fun r new =>
    refused r new \/ found_same id model expected_hash r new \/ wrote id model expected_hash action confirm r new).
Proof.
  unfold apply. apply says_bind, says_give. destruct (find_module fe id) as [m|e] eqn:Em; [|left; by split].
  apply says_bind, says_of_dyn. destruct (om_validate m model _) as [ds|e] eqn:Ev; [|left; by split].
  destruct (has_errors ds) eqn:Ee; [apply says_throw; left; by split|].
  unfold model_wiring. apply says_bind, says_bind, says_give. rewrite Em.
  apply says_bind, says_of_dyn. destruct (om_target m model) as [target|e] eqn:Et; [|left; by split].
  eapply says_weaken; [apply says_wiring|]. intros r new (-> & k & ->).
  destruct (wiring_of fe t (om_descriptor m) (path_exists fe k) target) as [wi|e] eqn:Ew; [|left; by split].
  destruct (_ && _); [apply says_throw; left; by split|].
  apply says_bind. eapply says_weaken; [apply says_reload_module|]. intros [reload|e] new ->; [|left; by split].
  apply says_bind. eapply says_weaken; [apply says_ask|]. intros [contents|e] new (answer & -> & H); [|left; by repeat constructor].
  destruct H as (response & -> & H). destruct response; try done. simplify_eq. simpl.
  apply says_bind, says_updating; [done|]. apply says_bind, says_give.
  destruct (expectation_met expected_hash (tc_digest contents)) as [[]|e] eqn:Eh; [|left; by repeat constructor].
  apply says_bind, says_give. unfold decode.
  destruct (from_utf8 (tc_bytes contents)) as [current|] eqn:Ed; [|left; by repeat constructor].
  apply says_bind, says_of_dyn. destruct (om_apply m current model) as [rendered|e] eqn:Er; [|left; by repeat constructor].
  assert (Hr : rendering m id model expected_hash wi contents current rendered).
  { split_and!; [done|by exists target, k|by exists ds| |done|done]. intros h ->. simpl in Eh. by case_bool_decide. }
  case_bool_decide as Hd.
  - subst rendered. apply says_ret. right. left. by exists m, wi, contents, current.
  - eapply says_weaken; [by apply (says_rendered _ _ _ _ _ _ _ _ _ _ _ Hr Hd)|]. intros r new [H|H]; [by left|right; by right].
Qed.

(** ** Looking before applying *)

Lemma says_noop op :
  says (apply_is_noop fe op) (fun r new => Forall (fun e => still e) new /\ (r = Ok true ->
    exists id model expected_hash action confirm m wi contents current, op = Op.Apply id model expected_hash action confirm
      /\ rendering m id model expected_hash wi contents current current /\ new = [read_event wi contents])).
Proof.
  destruct op as [| | | |id model expected_hash action confirm| | | | | | | | | | | |]; try (by apply says_ret). simpl.
  apply says_bind, says_give. destruct (find_module fe id) as [m|e] eqn:Em; [|done].
  apply says_bind, says_of_dyn. destruct (om_validate m model _) as [ds|e] eqn:Ev; [|done].
  destruct (has_errors ds) eqn:Ee; [by apply says_ret|].
  unfold model_wiring. apply says_bind, says_bind, says_give. rewrite Em.
  apply says_bind, says_of_dyn. destruct (om_target m model) as [target|e] eqn:Et; [|done].
  eapply says_weaken; [apply says_wiring|]. intros r new (-> & k & ->).
  destruct (wiring_of fe t (om_descriptor m) (path_exists fe k) target) as [wi|e] eqn:Ew; [|done].
  destruct (_ && _); [by apply says_ret|].
  apply says_bind. eapply says_weaken; [apply says_ask|]. intros [contents|e] new (answer & -> & H); [|split; [by repeat constructor|done]].
  destruct H as (response & -> & H). destruct response; try done. simplify_eq. simpl.
  set (look := current ← give (decode (tc_bytes contents) (wi_path wi));
            rendered ← of_dyn (om_apply m current model); mret (bool_decide (current = rendered)) : EM OpsError bool).
  assert (Hk : says look (fun r new => new = [] /\ (r = Ok true -> exists current,
            from_utf8 (tc_bytes contents) = Some current /\ om_apply m current model = Ok current))).
  { unfold look. apply says_bind, says_give. unfold decode. destruct (from_utf8 (tc_bytes contents)) as [current|] eqn:Ed; [|done].
    apply says_bind, says_of_dyn. destruct (om_apply m current model) as [rendered|e] eqn:Er; [|done].
    apply says_ret. split; [done|]. case_bool_decide; [|done]. subst. intros _. by exists rendered. }
  assert (Hres : forall h, (forall x, expected_hash = Some x -> x = tc_digest contents) -> h = look -> says h (fun r new =>
      Forall (fun e => still e) ([read_event wi contents] ++ new) /\ (r = Ok true ->
      exists id' model' eh' action' confirm' m wi' contents' current,
        Op.Apply id model expected_hash action confirm = Op.Apply id' model' eh' action' confirm'
        /\ rendering m id' model' eh' wi' contents' current current /\ [read_event wi contents] ++ new = [read_event wi' contents']))).
  { intros h Hh ->. eapply says_weaken; [exact Hk|]. intros r new [-> H]. split; [by repeat constructor|]. intros Hr.
    destruct (H Hr) as (current & H1 & H2). exists id, model, expected_hash, action, confirm, m, wi, contents, current.
    split; [done|]. split; [|done]. unfold rendering. split_and!; [done|by exists target, k|by exists ds|done..]. }
  destruct expected_hash as [h|]; [|by apply Hres].
  case_bool_decide as Hh; simpl; [|apply says_ret; split; [by repeat constructor|done]].
  apply Hres; [|done]. intros x [= <-]. done.
Qed.

End Apply.
