(* ===== verification/EngineProps.v ===== *)
(** * The properties of the operations engine

    Of every operation, caller, policy, monitor and audit sink: what a caller that
    may only read can cause, what is written down before a change, what a write
    was made of, and what happens when an apply fails half way. *)

From Stdlib Require Import ZArith.
From stdpp Require Import gmap.
From S2P Require Import Prelude Str Num Ip Utf8 Doc Diag Version Config Descriptor Time Disk Atomic Proto Transport Stateful Client AuditLog Session Diff Ops Engine EngineSafe EngineApply.
#[local] Open Scope Z_scope.

Section Records.
Context {Value S A : Type} `{!Peer S} `{!AuditSink A}.
Variable fe : Front Value.
Variable t : option HelloAck.

Abbreviation EM E X := (SE (@World S A) E X).
Abbreviation says := (engine_says S A t).

(** ** Records *)

(** A record of this operation by this caller. *)
Definition record_of (who : Identity) (op : Operation Value) (x : AuditResult) (r : AuditRecord) : Prop :=
  AuditLog.who r = subject who /\ kind r = ikind who /\ AuditLog.op r = op_kind op /\ module r = audited_module fe op /\ outcome r = x.

Lemma says_stamped {E} who op x : says (stamped fe who op x : EM E _) (fun r new =>
  new = [] /\ exists rec, r = Ok rec /\ record_of who op x rec /\ error_id rec = None).
Proof.
  apply says_bind, (says_reading _ _ _ (fun _ => True)); [done|]. intros ts _. apply says_ret. split; [done|]. by eexists.
Qed.

Lemma says_emitted {E} rec : says (emitted rec : EM E ()) (fun r new => r = Ok () /\ exists kept, new = [Audited rec kept]).
Proof.
  apply says_after. eapply says_weaken; [apply says_emit|]. intros x new ->. apply says_ret. split; [done|]. by eexists.
Qed.

Lemma says_denied op who (authz : Authz Value) denied : authz who op = Err denied ->
  says (execute fe op who authz) (fun r new => r = Err (OErr.Refused denied) /\
    exists rec kept, new = [Audited rec kept] /\ record_of who op RDenied rec /\ error_id rec = Some (denied_id denied)).
Proof.
  intros E. unfold execute. rewrite E.
  apply says_bind. eapply says_weaken; [apply says_stamped|]. intros r new (-> & rec & -> & Hrec & He).
  apply says_bind. eapply says_weaken; [apply says_emitted|]. intros r new (-> & kept & ->). apply says_throw.
  split; [done|]. by exists (with_error (denied_id denied) rec), kept.
Qed.

End Records.

Section Execute.
Context {Value S A : Type} `{!Peer S} `{!AuditSink A}.
Variable fe : Front Value.
Variable ack : HelloAck.

Abbreviation t := (Some ack).
Abbreviation EM E X := (SE (@World S A) E X).
Abbreviation says := (engine_says S A t).
Abbreviation record_of := (record_of fe).

(** The record of how an operation ended. *)
Definition final_record {X} (who : Identity) (op : Operation Value) (r : result OpsError X) (rec : AuditRecord) : Prop :=
  record_of who op (match r with Ok _ => ROk | Err _ => RError end) rec
  /\ error_id rec = match r with Ok _ => None | Err e => Some (ops_message_id e) end.

Lemma outcome_record_final who op (r : result OpsError (OpOutcome Value)) h rec :
  record_of who op (match r with Ok _ => ROk | Err _ => RError end) rec -> error_id rec = None ->
  final_record who op r (outcome_record r h rec).
Proof. intros (H1 & H2 & H3 & H4 & H5) H6. unfold outcome_record. destruct (h_commit_id h), r; by repeat split. Qed.

(** ** The shape of an execution *)

Definition noop_facts (op : Operation Value) (new : list Event) : Prop :=
  exists id model expected_hash action confirm m wi contents current, op = Op.Apply id model expected_hash action confirm
    /\ rendering fe ack m id model expected_hash wi contents current current /\ new = [read_event wi contents].

(** An operation that is recorded: the start, the work [D], the end; with no
    place for the first record nothing is done. *)
Definition audited_run (D : result OpsError (OpOutcome Value) -> list Event -> Prop) (who : Identity) (op : Operation Value)
    (r : result OpsError (OpOutcome Value)) (new : list Event) : Prop :=
  exists looked start kept rest, new = looked ++ Audited start kept :: rest
    /\ Forall (fun e => still e) looked /\ record_of who op RStarted start
    /\ if kept then exists work final fkept, rest = work ++ [Audited final fkept] /\ D r work /\ final_record who op r final
       else rest = [] /\ exists e, r = Err (OErr.AuditUnavailable e).

Definition execution (D : result OpsError (OpOutcome Value) -> list Event -> Prop) (who : Identity) (op : Operation Value)
    (allowed : result Denied ()) (r : result OpsError (OpOutcome Value)) (new : list Event) : Prop :=
  match allowed with
  | Err denied => r = Err (OErr.Refused denied)
      /\ exists rec kept, new = [Audited rec kept] /\ record_of who op RDenied rec /\ error_id rec = Some (denied_id denied)
  | Ok _ =>
      if is_mutating op then
        audited_run D who op r new
        \/ exists looked work tail, new = looked ++ work ++ tail /\ noop_facts op looked /\ D r work /\ Forall (fun e => still e) tail
      else exists work tail, new = work ++ tail /\ D r work /\ Forall (fun e => still e) tail
  end.

Lemma says_unrecorded D who op : says (dispatch fe op) D ->
  says (unrecorded fe who op) (fun r new => exists work tail, new = work ++ tail /\ D r work /\ Forall (fun e => still e) tail).
Proof.
  intros HD. apply says_after. eapply says_weaken; [exact HD|]. intros r work Hw.
  apply says_bind. eapply says_weaken with (Q := fun a new => (exists u, a = Ok u) /\ Forall (fun e => still e) new).
  - destruct r as [[| | |p| | | | | | | | | | | |]|e]; try (apply says_ret; by eauto). simpl.
    destruct (existsb _ _); [|apply says_ret; by eauto].
    apply says_bind. eapply says_weaken; [apply says_stamped|]. intros a new (-> & rec & -> & _).
    eapply says_weaken; [apply says_emitted|]. intros a new (-> & kept & ->). split; [by eexists|by repeat constructor].
  - intros a tail [[u ->] Ht]. apply says_give. exists work, tail. by rewrite app_nil_r.
Qed.

Lemma says_recorded D who op : says (dispatch fe op) D ->
  says (recorded fe who op) (fun r new => exists work final kept, new = work ++ [Audited final kept] /\ D r work /\ final_record who op r final).
Proof.
  intros HD. apply says_after. eapply says_weaken; [exact HD|]. intros r work Hw.
  apply says_bind, (says_reading _ _ _ (fun _ => True)); [done|]. intros h _.
  apply says_bind. eapply says_weaken; [apply says_stamped|]. intros a new (-> & rec & -> & Hrec & He).
  apply says_bind. eapply says_weaken; [apply says_emitted|]. intros a new (-> & kept & ->). apply says_give.
  exists work, (outcome_record r h rec), kept. split; [done|]. split; [done|]. by apply outcome_record_final.
Qed.

Lemma says_execute D op who (authz : Authz Value) : says (dispatch fe op) D ->
  says (execute fe op who authz) (execution D who op (authz who op)).
Proof.
  intros HD. unfold execution. destruct (authz who op) as [u|denied] eqn:Eau; [|by apply says_denied].
  unfold execute. rewrite Eau.
  apply says_bind. destruct (is_mutating op) eqn:Em.
  2: { apply says_ret, says_bind, says_updating; [done|]. eapply says_weaken; [apply (says_unrecorded D who op HD)|]. done. }
  eapply says_weaken with (Q := fun r new => exists b, r = Ok b /\ Forall (fun e => still e) new /\ (b = true -> noop_facts op new)).
  { apply says_after. eapply says_weaken; [apply says_noop|]. intros r new [Hq Hn]. apply says_ret. rewrite app_nil_r.
    exists (unwrap_or r false). split_and!; [done..|]. intros Hb. apply Hn. by destruct r as [[]|]. }
  intros r looked (b & -> & Hq & Hn). apply says_bind, says_updating; [done|]. destruct b; simpl.
  - eapply says_weaken; [apply (says_unrecorded D who op HD)|]. intros r new (work & tail & -> & Hw & Ht). right.
    exists looked, work, tail. split_and!; auto.
  - apply says_bind. eapply says_weaken; [apply says_stamped|]. intros r new (-> & start & -> & Hs & _).
    apply says_after. eapply says_weaken; [apply says_emit|]. intros r new ->. destruct r as [[]|e]; simpl.
    + eapply says_weaken; [apply (says_recorded D who op HD)|]. intros r new (work & final & kept & -> & Hw & Hf). left.
      exists looked, start, true, (work ++ [Audited final kept]). split_and!; try done. by exists work, final, kept.
    + apply says_throw. left. exists looked, start, false, []. do 4 (split; [done|]). by exists e.
Qed.

(** ** The work of an operation *)

(** Of an apply, [says_apply]; no other operation writes a file. *)
Definition worked (op : Operation Value) (r : result OpsError (OpOutcome Value)) (work : list Event) : Prop :=
  match op with
  | Op.Apply id model expected_hash action confirm => exists r0, r = Out.Applied <$> r0 /\
      (refused r0 work \/ found_same fe ack id model expected_hash r0 work \/ wrote fe ack id model expected_hash action confirm r0 work)
  | _ => Forall no_write work /\ (is_mutating op = false -> Forall (fun e => still e) work)
  end.

Lemma still_no_write e : still e -> no_write e.
Proof. by destruct e as [[]| |]. Qed.

Lemma nw_client {X} want (part : Response -> option X) r : (forall a, no_write (Asked r a)) ->
  engine_only S A t no_write (on_client (expecting want part r)).
Proof. intros H. eapply says_weaken; [apply says_asked|]. intros a new (answer & -> & _). by repeat constructor. Qed.

Lemma nw_ask {X} want (part : Response -> option X) r : (forall a, no_write (Asked r a)) ->
  engine_only S A t no_write (ask (expecting want part r)).
Proof. intros H. apply only_map_error. by apply nw_client. Qed.

Lemma nw_quiet {E X} (m : EM E X) : quiet t m -> engine_only S A t no_write m.
Proof. intros H. eapply only_weaken; [exact H|]. apply still_no_write. Qed.

Lemma nw_service_action id action : engine_only S A t no_write (Engine.service_action fe id action).
Proof.
  unfold Engine.service_action, act. apply only_bind; [apply only_give|]. intros m. apply only_bind; [apply nw_quiet, quiet_wiring|].
  intros wi. destruct (wi_binding wi) as [[binding affected]|]; [|apply only_throw].
  apply only_bind; [|intros; apply only_ret]. apply only_bind; [by apply nw_ask|]. intros; apply only_ret.
Qed.

Lemma nw_restore id b h : engine_only S A t no_write (restore_backup fe id b h).
Proof.
  unfold restore_backup, acked. apply only_bind; [apply only_give|]. intros m. apply only_bind; [apply only_reading|]. intros x.
  apply only_bind; [apply only_give|]. intros i. apply only_bind; [apply nw_quiet, quiet_wiring|]. intros wi.
  apply only_bind; [by apply nw_ask|]. intros contents. apply only_bind; [by apply only_updating|]. intros _.
  apply only_bind; [apply only_give|]. intros _. apply only_bind; [by apply nw_ask|]. intros [target d].
  apply only_bind; [by apply only_updating|]. intros _. apply only_ret.
Qed.

Lemma nw_update version : engine_only S A t no_write (update_apply fe version).
Proof.
  unfold update_apply. destruct (check_tag fe version) as [|[]]; try apply only_throw. apply only_after; [by apply nw_client|].
  intros [|[|[]| |]]; try apply only_throw. apply only_ret.
Qed.

Lemma says_dispatch op : says (dispatch fe op) (worked op).
Proof.
  destruct (is_mutating op) eqn:Em.
  2: { eapply says_weaken; [by apply quiet_dispatch|]. intros r new Hq.
       assert (Forall no_write new) by (eapply Forall_impl; [exact Hq|apply still_no_write]). by destruct op. }
  assert (Hnw : engine_only S A t no_write (dispatch fe op) -> match op with Op.Apply _ _ _ _ _ => False | _ => True end ->
    says (dispatch fe op) (worked op)).
  { intros H Hop. eapply says_weaken; [exact H|]. intros r new Hn. by destruct op. }
  destruct op; try done; try (apply Hnw; [|done]); simpl.
  - apply says_bind. eapply says_weaken; [apply says_apply|]. intros r work H.
    assert (Hw : worked (Op.Apply id model expected_hash service_action confirm) (Out.Applied <$> r) work) by (by exists r).
    destruct r as [report|e]; [apply says_ret; by rewrite app_nil_r|exact Hw].
  - apply only_bind; [by apply only_updating|]. intros _. apply only_bind; [by apply nw_ask|]. intros c.
    apply only_bind; [by apply only_updating|]. intros _. apply only_ret.
  - apply only_bind; [by apply only_updating|]. intros _. apply only_bind; [by apply nw_ask|]. intros [c n].
    apply only_bind; [by apply only_updating|]. intros _. apply only_ret.
  - apply nw_restore.
  - apply nw_service_action.
  - destruct (cert fe); [|apply only_throw]. apply only_bind; [|intros; apply only_ret].
    eapply says_weaken; [apply says_front|]. intros r new ->. by repeat constructor.
  - apply only_bind; [apply nw_update|]. intros _. apply only_ret.
Qed.

(** From a state that knows the tables. *)
Lemma run_execute op who (authz : Authz Value) (w : @World S A) : tables (client w) = t ->
  exists new, events (execute fe op who authz w).2 = events w ++ new
    /\ execution (worked op) who op (authz who op) (execute fe op who authz w).1 new.
Proof. intros Hw. by destruct (says_execute (worked op) op who authz (says_dispatch op) w Hw) as [_ H]. Qed.

End Execute.

(** ** Where an event lies *)

Lemma acts_after (a b pre post : list Event) e : Forall (fun e => still e) a -> a ++ b = pre ++ e :: post -> acts e = true ->
  exists pre', pre = a ++ pre' /\ b = pre' ++ e :: post.
Proof.
  revert pre. induction a as [|x a IH]; intros pre Ha E He; simpl in *; [by exists pre|].
  apply Forall_cons in Ha as [Hx Ha]. destruct pre as [|y pre]; simpl in E; injection E as -> E; [congruence|].
  destruct (IH pre Ha E He) as (pre' & -> & ->). by exists pre'.
Qed.

Lemma acts_before (a pre post : list Event) e x : a ++ [x] = pre ++ e :: post -> still x -> acts e = true ->
  exists post', post = post' ++ [x] /\ a = pre ++ e :: post'.
Proof.
  intros E Hx He. destruct post as [|y post _] using rev_ind.
  - apply app_inj_tail in E as [_ ->]. congruence.
  - exists post. rewrite app_comm_cons, (assoc_L (++)) in E. by apply app_inj_tail in E as [-> ->].
Qed.

Lemma no_acts (l pre post : list Event) e : Forall (fun e => still e) l -> l = pre ++ e :: post -> acts e = true -> False.
Proof. intros Hl -> He. apply Forall_app in Hl as [_ Hl]. apply Forall_cons in Hl as [Hl _]. congruence. Qed.

(** ** Properties *)

(** The file an apply was about to replace is not the one it had looked at. *)
Definition changed_between {Value} (op : Operation Value) (pre : list Event) : Prop :=
  exists id model expected_hash action confirm wi1 wi2 c1 c2,
    op = Op.Apply id model expected_hash action confirm
    /\ read_event wi1 c1 ∈ pre /\ read_event wi2 c2 ∈ pre /\ tc_bytes c1 <> tc_bytes c2
    /\ forall h, expected_hash = Some h -> tc_digest c1 = h /\ tc_digest c2 = h.

Lemma race {Value} (fe : Front Value) ack op r looked work tail pre e post :
  noop_facts fe ack op looked -> worked fe ack op r work -> Forall (fun e => still e) tail ->
  looked ++ work ++ tail = pre ++ e :: post -> acts e = true -> changed_between op pre.
Proof.
  intros (id & model & h & action & confirm & m & wi1 & c1 & cur & -> & R1 & ->) Hw Ht E He.
  apply acts_after in E as (pre1 & -> & E); [|by repeat constructor|done]. simpl in Hw. destruct Hw as (r0 & _ & Hw).
  assert (Hnot : ~ Forall (fun e => still e) work).
  { intros H. eapply (no_acts (work ++ tail)); [by apply Forall_app|exact E|done]. }
  destruct Hw as [[_ Hq]|[(m' & wi & c & cur' & _ & -> & _)|(m2 & wi2 & c2 & cur2 & rendered & checks & answer & rest & R2 & Hne & Hc & -> & _)]];
    [done|by destruct Hnot; repeat constructor|].
  destruct R1 as (Em & _ & _ & H1 & D1 & A1). destruct R2 as (Em2 & _ & _ & H2 & D2 & A2). rewrite Em in Em2. simplify_eq.
  exists id, model, h, action, confirm, wi1, wi2, c1, c2. split_and!; [done|by left| | |].
  - destruct pre1 as [|x pre1]; simpl in E; injection E as <- E; [done|]. by right; left.
  - intros Eb. rewrite Eb in D1. congruence.
  - intros x ->. split; [by symmetry; apply H1|by symmetry; apply H2].
Qed.

(** C2: Nothing changes without a record of it. Whatever the policy, the modules,
    the monitor and the audit log answer: before the engine asks for anything that
    changes the host, the caller was permitted, the operation is one that changes
    the host, and a record of its start was kept; after it comes a record of how
    it ended. The one exception is an apply whose file was changed by someone else
    between the look that found nothing to do and the write. *)
Theorem change_recorded_first {Value S A : Type} `{!Peer S} `{!AuditSink A} (fe : Front Value) (ack : HelloAck)
    (op : Operation Value) (who : Identity) (authz : Authz Value) (w : @World S A) (pre post : list Event) (e : Event) :
  tables (client w) = Some ack ->
  events (execute fe op who authz w).2 = events w ++ pre ++ e :: post ->
  acts e = true ->
  is_ok (authz who op) = true /\ is_mutating op = true
  /\ ((exists start post' final kept, Audited start true ∈ pre /\ record_of fe who op RStarted start
        /\ post = post' ++ [Audited final kept] /\ final_record fe who op (execute fe op who authz w).1 final)
      \/ changed_between op pre).
Proof.
  intros Hw E He. destruct (run_execute fe ack op who authz w Hw) as (new & E' & H). rewrite E in E'. apply app_inv_head in E'.
  unfold execution in H. destruct (authz who op) as [u|denied].
  2: { destruct H as (_ & rec & kept & -> & _). exfalso. by eapply (no_acts [Audited rec kept]); [by repeat constructor|..]. }
  split; [done|]. destruct (is_mutating op) eqn:Em.
  2: { destruct H as (work & tail & -> & Hwork & Ht). exfalso. eapply (no_acts (work ++ tail)); [|by symmetry|done].
       apply Forall_app. split; [|done]. destruct op; try done; by apply Hwork. }
  split; [done|]. destruct H as [(looked & start & kept & rest & -> & Hl & Hs & H)|(looked & work & tail & -> & Hn & Hwork & Ht)].
  - left. symmetry in E'. apply acts_after in E' as (pre' & -> & E'); [|done..].
    destruct pre' as [|x pre']; simpl in E'; simplify_eq. destruct kept; [|by destruct H as [H _]; destruct pre'].
    destruct H as (work & final & fkept & H & _ & Hf). symmetry in H. apply acts_before in H as (post' & -> & _); [|done..].
    exists start, post', final, fkept. split_and!; try done. apply elem_of_app. right. by left.
  - right. by eapply race.
Qed.

(** C10: A caller that may only read changes nothing: whatever it asks for and
    whatever anyone answers, the engine asks for nothing that changes the host; an
    operation that would is refused with the scope that is missing and leaves
    exactly one record, of the refusal. *)
Theorem read_scope_harmless {Value S A : Type} `{!Peer S} `{!AuditSink A} (fe : Front Value)
    (op : Operation Value) (who : Identity) (w : @World S A) :
  exists new, events (execute fe op who (ScopedAuthz (scopes_of Read)) w).2 = events w ++ new
    /\ Forall (fun e => acts e = false) new
    /\ (is_mutating op = true ->
        (execute fe op who (ScopedAuthz (scopes_of Read)) w).1 = Err (OErr.Refused (denied_with_scope DENIED_SCOPE_ID (lit "write")))
        /\ exists rec kept, new = [Audited rec kept] /\ record_of fe who op RDenied rec /\ error_id rec = Some DENIED_SCOPE_ID).
Proof.
  destruct (is_mutating op) eqn:Em.
  - assert (Hd : ScopedAuthz (scopes_of Read) who op = Err (denied_with_scope DENIED_SCOPE_ID (lit "write"))) by (by destruct op).
    destruct (says_denied fe (tables (client w)) op who _ _ Hd w eq_refl) as (_ & new & E & Hr & rec & kept & -> & H).
    exists [Audited rec kept]. split_and!; [done|by repeat constructor|]. intros _. split; [done|]. by exists rec, kept.
  - destruct (quiet_execute fe (tables (client w)) op who (ScopedAuthz (scopes_of Read)) (or_introl Em) w eq_refl) as (_ & new & E & Hq).
    exists new. split_and!; [done..|by intros ?].
Qed.

(** *** Where the write of an apply lies *)

Lemma only_one_write (a b pre post : list Event) x e : Forall no_write a -> Forall no_write b -> a ++ x :: b = pre ++ e :: post ->
  ~ no_write e -> pre = a /\ e = x /\ post = b.
Proof.
  revert pre. induction a as [|y a IH]; intros pre Ha Hb E He; simpl in *.
  - destruct pre as [|z pre]; simpl in E; injection E as <- E; [done|]. subst b.
    apply Forall_app in Hb as [_ Hb]. by apply Forall_cons in Hb as [Hb _].
  - apply Forall_cons in Ha as [Hy Ha]. destruct pre as [|z pre]; simpl in E; injection E as <- E; [done|].
    by destruct (IH pre Ha Hb E He) as (-> & -> & ->).
Qed.

Lemma no_writes (l pre post : list Event) e : Forall no_write l -> l = pre ++ e :: post -> ~ no_write e -> False.
Proof. intros Hl -> He. apply Forall_app in Hl as [_ Hl]. by apply Forall_cons in Hl as [Hl _]. Qed.

Lemma stills_no_write l : Forall (fun e => still e) l -> Forall no_write l.
Proof. intros H. eapply Forall_impl; [exact H|apply still_no_write]. Qed.

Lemma checks_no_write b cs l : Forall2 (check_passed b) cs l -> Forall no_write l.
Proof. induction 1 as [|c e cs l (o & -> & _) H IH]; by constructor. Qed.

(** A write among the events of an apply's work is the write of [wrote]. *)
Lemma find_write {Value} (fe : Front Value) ack id model eh action confirm r work front back pre e post :
  refused r work \/ found_same fe ack id model eh r work \/ wrote fe ack id model eh action confirm r work ->
  Forall no_write front -> Forall no_write back -> front ++ work ++ back = pre ++ e :: post -> ~ no_write e ->
  exists m wi contents current rendered checks answer rest,
    rendering fe ack m id model eh wi contents current rendered /\ current <> rendered
    /\ Forall2 (check_passed (as_bytes rendered)) (wi_checks wi) checks
    /\ pre = front ++ read_event wi contents :: checks ++ no_commit_pending (commit_required (om_descriptor m) confirm)
    /\ e = write_event wi contents rendered (commit_required (om_descriptor m) confirm) answer /\ post = rest ++ back
    /\ match answer with
       | Ok (Resp.Written written) => settled (om_descriptor m) wi action confirm written r rest
       | _ => rest = [] /\ is_ok r = false
       end.
Proof.
  intros Hw Hf Hb E He.
  assert (Hnot : ~ Forall no_write work).
  { intros H. eapply (no_writes (front ++ work ++ back)); [by repeat apply Forall_app_2|exact E|done]. }
  destruct Hw as [[_ Hq]|[(m & wi & c & cur & _ & -> & _)|(m & wi & c & cur & rendered & checks & answer & rest & HR & Hne & Hc & -> & Hs)]];
    [by destruct Hnot; apply stills_no_write|by destruct Hnot; repeat constructor|].
  set (pend := no_commit_pending _) in *.
  assert (Hrest : Forall no_write rest) by (destruct answer as [[]|]; first [apply Hs|destruct Hs as [-> _]; constructor]).
  destruct (only_one_write (front ++ read_event wi c :: checks ++ pend) (rest ++ back) pre post
    (write_event wi c rendered (commit_required (om_descriptor m) confirm) answer) e) as (-> & -> & ->).
  - apply Forall_app_2; [done|]. constructor; [done|]. apply Forall_app_2; [by eapply checks_no_write|].
    subst pend. unfold no_commit_pending. destruct (commit_required _ _); by repeat constructor.
  - by apply Forall_app_2.
  - rewrite <- E. simpl. by rewrite <- !(assoc_L (++)), <- !app_comm_cons, <- !(assoc_L (++)).
  - done.
  - by exists m, wi, c, cur, rendered, checks, answer, rest.
Qed.

(** The events of an execution around the work of its operation. *)
Lemma execution_work {Value} (fe : Front Value) ack who op allowed r new :
  execution fe ack (worked fe ack op) who op allowed r new -> ~ Forall no_write new ->
  exists front work back, new = front ++ work ++ back /\ worked fe ack op r work /\ Forall no_write front /\ Forall (fun e => still e) back.
Proof.
  unfold execution. destruct allowed as [u|denied]; [|by intros (_ & rec & kept & -> & _) H; destruct H; repeat constructor].
  destruct (is_mutating op).
  - intros [(looked & start & kept & rest & -> & Hl & _ & H)|(looked & work & tail & -> & Hn & Hw & Ht)] Hnot.
    + destruct kept.
      * destruct H as (work & final & fkept & -> & Hw & _). exists (looked ++ [Audited start true]), work, [Audited final fkept].
        split_and!; [by rewrite <- (assoc_L (++))|done| |by repeat constructor].
        apply Forall_app_2; [by apply stills_no_write|by repeat constructor].
      * destruct H as [-> _]. destruct Hnot. apply Forall_app_2; [by apply stills_no_write|by repeat constructor].
    + exists looked, work, tail. split_and!; try done.
      destruct Hn as (id & model & h & action & confirm & m & wi & c & cur & _ & _ & ->). by repeat constructor.
  - intros (work & tail & -> & Hw & Ht) _. by exists [], work, tail.
Qed.

Lemma execute_write {Value S A : Type} `{!Peer S} `{!AuditSink A} (fe : Front Value) (ack : HelloAck)
    (op : Operation Value) (who : Identity) (authz : Authz Value) (w : @World S A) pre e post :
  tables (client w) = Some ack -> events (execute fe op who authz w).2 = events w ++ pre ++ e :: post -> ~ no_write e ->
  exists id model eh action confirm m wi contents current rendered before checks answer r0 rest tail,
    op = Op.Apply id model eh action confirm /\ (execute fe op who authz w).1 = Out.Applied <$> r0
    /\ rendering fe ack m id model eh wi contents current rendered /\ current <> rendered
    /\ Forall2 (check_passed (as_bytes rendered)) (wi_checks wi) checks
    /\ pre = before ++ read_event wi contents :: checks ++ no_commit_pending (commit_required (om_descriptor m) confirm)
    /\ e = write_event wi contents rendered (commit_required (om_descriptor m) confirm) answer
    /\ post = rest ++ tail /\ Forall (fun e => still e) tail
    /\ match answer with
       | Ok (Resp.Written written) => settled (om_descriptor m) wi action confirm written r0 rest
       | _ => rest = [] /\ is_ok r0 = false
       end.
Proof.
  intros Hw E He. destruct (run_execute fe ack op who authz w Hw) as (new & E' & H). rewrite E in E'. apply app_inv_head in E'. subst new.
  apply execution_work in H as (front & work & back & En & Hwork & Hf & Hb).
  2: { intros H'. by eapply no_writes. }
  destruct op as [| | | |id model eh action confirm| | | | | | | | | | | |]; try (exfalso; destruct Hwork as [Hwork _];
    eapply (no_writes (front ++ work ++ back)); [|by symmetry; exact En|done]; repeat apply Forall_app_2; [done|done|by apply stills_no_write]).
  destruct Hwork as (r0 & Hr0 & Hwork).
  destruct (find_write fe ack id model eh action confirm r0 work front back pre e post Hwork Hf (stills_no_write _ Hb) (eq_sym En) He)
    as (m & wi & c & cur & rendered & checks & answer & rest & H1 & H2 & H3 & H4 & H5 & H6 & H7).
  by exists id, model, eh, action, confirm, m, wi, c, cur, rendered, front, checks, answer, r0, rest, back.
Qed.

(** C3: A file is written only by an apply, and only with what was just read,
    validated, rendered and checked: the module found no error in the model; the
    bytes are the module's rendering of the model over the contents the monitor
    gave, and differ from them; the write expects the digest of those contents,
    which is the caller's if it gave one; between the read and the write every
    validator of the target passed these bytes and, when a commit is required, the
    monitor had none pending; and there is no second write. *)
Theorem write_is_checked {Value S A : Type} `{!Peer S} `{!AuditSink A} (fe : Front Value) (ack : HelloAck)
    (op : Operation Value) (who : Identity) (authz : Authz Value) (w : @World S A) (pre post : list Event)
    (target : TargetId) (expected : option Sha256Digest) (b : rbytes) (journal : bool) (answer : result ClientError Response) :
  tables (client w) = Some ack ->
  events (execute fe op who authz w).2 = events w ++ pre ++ Asked (Req.WriteTarget target expected b journal) answer :: post ->
  exists id model expected_hash action confirm m wi contents current rendered before checks,
    op = Op.Apply id model expected_hash action confirm
    /\ rendering fe ack m id model expected_hash wi contents current rendered /\ current <> rendered
    /\ target = wi_target wi /\ expected = Some (tc_digest contents) /\ b = as_bytes rendered
    /\ journal = commit_required (om_descriptor m) confirm
    /\ pre = before ++ read_event wi contents :: checks ++ no_commit_pending journal
    /\ Forall2 (check_passed b) (wi_checks wi) checks
    /\ Forall no_write post.
Proof.
  intros Hw E. destruct (execute_write fe ack op who authz w _ _ _ Hw E) as
    (id & model & eh & action & confirm & m & wi & c & cur & rendered & before & checks & answer' & r0 & rest & tail &
     -> & _ & HR & Hne & Hc & -> & He & -> & Ht & Hs); [by intros []|].
  unfold write_event in He. injection He as -> -> -> -> ->.
  exists id, model, eh, action, confirm, m, wi, c, cur, rendered, before, checks. split_and!; try done.
  apply Forall_app_2; [|by apply stills_no_write]. destruct answer' as [[]|]; first [apply Hs|destruct Hs as [-> _]; constructor].
Qed.

(** C9: A write that can be taken back is guarded at once. When the monitor has
    made a journaled write, the next thing asked is to arm its commit. If the
    operation then succeeds, the commit is armed and there is a backup to roll
    back to. If it fails, either the last request rolls the armed commit back, or
    arming failed and the error says whether the old contents are back: when it
    says so, the monitor has restored the newest backup of what the write
    replaced. *)
Theorem journaled_write_guarded {Value S A : Type} `{!Peer S} `{!AuditSink A} (fe : Front Value) (ack : HelloAck)
    (op : Operation Value) (who : Identity) (authz : Authz Value) (w : @World S A) (pre post : list Event)
    (target : TargetId) (expected : option Sha256Digest) (b : rbytes) (written : WriteReceipt) :
  tables (client w) = Some ack ->
  events (execute fe op who authz w).2
    = events w ++ pre ++ Asked (Req.WriteTarget target expected b true) (Ok (Resp.Written written)) :: post ->
  exists n timeout service_ answer rest tail,
    post = Asked (Req.StartConfirmTimer n timeout service_) answer :: rest ++ tail /\ Forall (fun e => acts e = false) tail
    /\ match (execute fe op who authz w).1 with
       | Ok _ => armed answer /\ wr_backed_up written = true
       | Err e => armed answer /\ rolled_back n rest
           \/ ~ armed answer /\ exists arming error, e = OErr.ArmFailed arming error /\ undone target written error rest
       end.
Proof.
  intros Hw E. destruct (execute_write fe ack op who authz w _ _ _ Hw E) as
    (id & model & eh & action & confirm & m & wi & c & cur & rendered & before & checks & answer' & r0 & rest & tail &
     -> & Hr & HR & Hne & Hc & -> & He & -> & Ht & Hs); [by intros []|].
  unfold write_event in He. injection He as -> -> -> Hj <-. destruct Hs as (_ & _ & _ & Hs).
  destruct (Hs (eq_sym Hj)) as (n & a & rest' & -> & H).
  exists n, (window confirm), (pending_service action wi), a, rest', tail. split_and!; [done..|]. rewrite Hr.
  destruct r0 as [report|e]; simpl; [|done]. by destruct H as (_ & _ & _ & H1 & H2).
Qed.
