(* ===== verification/EngineStore.v ===== *)
(** * What an apply leaves behind

    The engine against what it needs of the other end of the channel: a store of
    files that reads give back as the writes left them. Through the engine, the
    model that was applied is the model that is shown. *)

From Stdlib Require Import ZArith.
From stdpp Require Import gmap.
From S2P Require Import Prelude Str Num Ip Utf8 Doc Diag Version Config Descriptor Time Disk Atomic Proto Transport Stateful Client AuditLog Session Diff Ops Engine EngineSafe EngineApply EngineProps.
#[local] Open Scope Z_scope.

(** ** The interface *)

(** The peer keeps files: [content s t] is what the target [t] holds, and in the
    states [at_rest], which have no commit window open, a write stays until the
    next one. *)
Class TargetStore (S : Type) `{!Peer S} := {
  content : S -> TargetId -> option rbytes;
  at_rest : S -> Prop;
  rest_kept : forall s r, at_rest s -> writes_nothing r = true ->
    at_rest (exchange r s).2 /\ forall t, content (exchange r s).2 t = content s t;
  read_is_content : forall s t c, at_rest s -> (exchange (Req.ReadTarget t) s).1 = Ok (Resp.Target c) -> content s t = Some (tc_bytes c);
  missing_is_content : forall s t, at_rest s -> (exchange (Req.ReadTarget t) s).1 = Ok (Resp.Error PErr.NotFound) -> content s t = None;
  write_is_content : forall s t d b written, at_rest s -> (exchange (Req.WriteTarget t d b false) s).1 = Ok (Resp.Written written) ->
    at_rest (exchange (Req.WriteTarget t d b false) s).2 /\ content (exchange (Req.WriteTarget t d b false) s).2 t = Some b;
}.

(** ** The conversation with the peer *)

Section Talk.
Context {S A : Type} `{!Peer S} `{!AuditSink A}.

(** From [s], the peer gives the answers of the events and ends in [s']. *)
Inductive conversation : S -> list Event -> S -> Prop :=
| talk_nil s : conversation s [] s
| talk_asked s r new s' : conversation (exchange r s).2 new s' -> conversation s (Asked r (exchange r s).1 :: new) s'
| talk_audited s rec kept new s' : conversation s new s' -> conversation s (Audited rec kept :: new) s'
| talk_front s renew new s' : conversation s new s' -> conversation s (AskedFront renew :: new) s'.

Lemma talk_app s new s1 new' s2 : conversation s new s1 -> conversation s1 new' s2 -> conversation s (new ++ new') s2.
Proof. induction 1; simpl; [done|constructor; auto..]. Qed.

Lemma talk_split s new new' s2 : conversation s (new ++ new') s2 -> exists s1, conversation s new s1 /\ conversation s1 new' s2.
Proof.
  revert s. induction new as [|e new IH]; intros s H; simpl in H; [exists s; split; [constructor|done]|].
  inversion H; subst; destruct (IH _ H4) as (s1 & H1 & H2) || destruct (IH _ H3) as (s1 & H1 & H2); exists s1; (split; [by constructor|done]).
Qed.

(** [m] talks to the peer as its log says. *)
Definition talks {E X} (m : SE (@World S A) E X) : Prop :=
  forall w, exists new, events (m w).2 = events w ++ new /\ conversation (peer (client w)) new (peer (client (m w).2))
    /\ tables (client (m w).2) = tables (client w).

Lemma talks_give {E X} (r : result E X) : talks (give r).
Proof. intros w. exists []. rewrite app_nil_r. split_and!; [done|constructor|done]. Qed.
Lemma talks_ret {E X} (x : X) : talks (E := E) (mret x). Proof. apply talks_give. Qed.
Lemma talks_throw {E X} (e : E) : talks (X := X) (throw e). Proof. apply talks_give. Qed.
Lemma talks_reading {E X} (f : World -> X) : talks (E := E) (reading f).
Proof. intros w. exists []. rewrite app_nil_r. split_and!; [done|constructor|done]. Qed.
Lemma talks_updating {E} (g : World -> World) : (forall w, client (g w) = client w /\ events (g w) = events w) -> talks (E := E) (updating g).
Proof.
  intros H w. destruct (H w) as [H1 H2]. exists []. rewrite app_nil_r. split_and!; [done| |]; simpl; rewrite H1; [constructor|done].
Qed.
Lemma talks_after {E F X Y} (m : SE World E X) (k : result E X -> SE World F Y) : talks m -> (forall r, talks (k r)) -> talks (after m k).
Proof.
  intros Hm Hk w. destruct (Hm w) as (new & E1 & C1 & T1). unfold after. destruct (m w) as [r w1]. simpl in *.
  destruct (Hk r w1) as (new' & E2 & C2 & T2). exists (new ++ new').
  split_and!; [by rewrite E2, E1, (assoc_L (++))|by eapply talk_app|congruence].
Qed.
Lemma talks_bind {E X Y} (m : SE World E X) (k : X -> SE World E Y) : talks m -> (forall x, talks (k x)) -> talks (m ≫= k).
Proof. intros Hm Hk. apply talks_after; [done|]. intros [x|e]; [apply Hk|apply talks_throw]. Qed.
Lemma talks_map_error {E F X} (g : E -> F) (m : SE World E X) : talks m -> talks (map_error g m).
Proof. intros Hm. apply talks_after; [done|]. intros [x|e]; [apply talks_ret|apply talks_throw]. Qed.
Lemma talks_of_dyn {X} (r : result DynError X) : talks (of_dyn r).
Proof. destruct r; [apply talks_ret|apply talks_throw]. Qed.

Lemma talks_client {X} want (part : Response -> option X) r : talks (on_client (expecting want part r)).
Proof.
  intros w. unfold on_client. rewrite expecting_run. simpl. destruct (tables (client w)) as [ack|] eqn:Et.
  - destruct (exchange r (peer (client w))) as [answer s'] eqn:E. exists [Asked r answer]. split_and!; [done| |done]. simpl.
    replace answer with (exchange r (peer (client w))).1 by (by rewrite E). constructor. rewrite E. constructor.
  - exists []. split_and!; [done|constructor|done].
Qed.

Lemma talks_emit r : talks (emit r).
Proof.
  intros w. unfold emit. destruct (sink_record r (sink w)) as [x a]. exists [Audited r (is_ok x)].
  split_and!; [done|repeat constructor|done].
Qed.

Lemma talks_front {X} renew (answer : nat -> result OpsError X) : talks (ask_front renew answer).
Proof. intros w. exists [AskedFront renew]. split_and!; [done|repeat constructor|done]. Qed.

End Talk.

#[export] Hint Resolve talks_give talks_ret talks_throw talks_reading talks_of_dyn talks_emit talks_client talks_front : talks.
#[export] Hint Extern 1 (talks (updating _)) => apply talks_updating; done : talks.

(** Follow the structure of a computation. *)
Ltac talks_steps :=
  repeat first
    [ progress eauto with talks nocore
    | progress intros
    | match goal with
      | |- talks (_ ≫= _) => apply talks_bind
      | |- talks (after _ _) => apply talks_after
      | |- talks (map_error _ _) => apply talks_map_error
      | |- talks (ask _) => apply talks_map_error
      | |- talks (match ?x with _ => _ end) => destruct x
      | |- talks (let _ := _ in _) => cbv zeta
      end ].

Section Engine.
Context {Value S A : Type} `{!Peer S} `{!AuditSink A}.
Variable fe : Front Value.
Abbreviation EM E X := (SE (@World S A) E X).

Lemma talks_wiring d target : talks (wiring fe d target : EM _ _).
Proof. unfold wiring, acked, at_event. talks_steps. Qed.
#[local] Hint Resolve talks_wiring : talks.

Lemma talks_model_wiring id model : talks (model_wiring fe id model : EM _ _).
Proof. unfold model_wiring. talks_steps. Qed.
#[local] Hint Resolve talks_model_wiring : talks.

Lemma talks_run_checks {E} wi b : talks (run_checks wi b : EM E _).
Proof. unfold run_checks. induction (wi_checks wi) as [|[i p] l IH]; simpl; unfold run_check; talks_steps. Qed.
#[local] Hint Resolve talks_run_checks : talks.

Lemma talks_discard {E} c : talks (discard_commit c : EM E ()).
Proof. unfold discard_commit, rollback_commit. talks_steps. Qed.
#[local] Hint Resolve talks_discard : talks.

Lemma talks_undo module target prev backed_up : talks (undo_write fe module target prev backed_up : EM _ _).
Proof. unfold undo_write, acked, list_backups, restore. talks_steps. Qed.
#[local] Hint Resolve talks_undo : talks.

Lemma talks_written d wi reload action confirm checks receipt :
  talks (apply_written fe d wi reload action confirm checks receipt : EM _ _).
Proof.
  unfold apply_written, arm_or_undo, arm_commit, at_event, observe_commit, reload_or_discard, start_mounts, serviced, act,
    start_confirm_timer, Client.reload_unit_files, mount, service. talks_steps.
Qed.
#[local] Hint Resolve talks_written : talks.

Lemma talks_apply id model h action confirm : talks (apply fe id model h action confirm : EM _ _).
Proof.
  unfold apply, reload_module, acked, apply_rendered, observe_prev, observe_new, read_target, pending_commit, write_target. talks_steps.
Qed.

Lemma talks_noop op : talks (apply_is_noop fe op : EM _ _).
Proof. unfold apply_is_noop, read_target. talks_steps. Qed.
#[local] Hint Resolve talks_apply talks_noop : talks.

Lemma talks_dispatch op : talks (dispatch fe op : EM _ _).
Proof.
  destruct op; simpl; unfold get_module, plan, restore_backup, Engine.service_status, Engine.service_action, act, update_apply,
    acked, observe_prev, observe_new, observe_commit, read_target, confirm_commit, rollback_commit, list_backups, restore, service,
    Client.service_status, start_update; talks_steps.
Qed.
#[local] Hint Resolve talks_dispatch : talks.

Lemma talks_execute op who (authz : Authz Value) : talks (execute fe op who authz : EM _ _).
Proof. unfold execute, recorded, unrecorded, plan_record, emitted, stamped, at_event. talks_steps. Qed.

(** The events of an execution, and the conversation they are. *)
Lemma run_talk ack op who (authz : Authz Value) (w : @World S A) : tables (client w) = Some ack ->
  exists new, events (execute fe op who authz w).2 = events w ++ new
    /\ execution fe ack (worked fe ack op) who op (authz who op) (execute fe op who authz w).1 new
    /\ conversation (peer (client w)) new (peer (client (execute fe op who authz w).2))
    /\ tables (client (execute fe op who authz w).2) = Some ack.
Proof.
  intros Hw. destruct (run_execute fe ack op who authz w Hw) as (new & E & H).
  destruct (talks_execute op who authz w) as (new' & E' & C & T). rewrite E in E'. apply app_inv_head in E' as <-.
  exists new. split_and!; [done..|congruence].
Qed.

End Engine.

(** ** Files through a conversation *)

Section Store.
Context {S : Type} `{!Peer S} `{!TargetStore S}.

Definition leaves (e : Event) : bool := match e with Asked r _ => writes_nothing r | _ => true end.

Lemma conversation_leaves s new s' : conversation s new s' -> at_rest s -> Forall (fun e => leaves e = true) new ->
  at_rest s' /\ forall t, content s' t = content s t.
Proof.
  induction 1 as [s|s r new s' C IH|s rec kept new s' C IH|s renew new s' C IH]; intros Hs Hl; [done|..];
    apply Forall_cons in Hl as [He Hl]; [|by apply IH..].
  destruct (rest_kept s r Hs He) as [H1 H2]. destruct (IH H1 Hl) as [H3 H4]. split; [done|]. intros t. by rewrite H4, H2.
Qed.

Lemma conversation_asked s r a new s' : conversation s (Asked r a :: new) s' ->
  (exchange r s).1 = a /\ conversation (exchange r s).2 new s'.
Proof. intros C. inversion C; by subst. Qed.

Lemma conversation_read s t c new s' : conversation s (Asked (Req.ReadTarget t) (Ok (Resp.Target c)) :: new) s' -> at_rest s ->
  content s t = Some (tc_bytes c) /\ exists s1, conversation s1 new s' /\ at_rest s1 /\ forall t', content s1 t' = content s t'.
Proof.
  intros [Ha C]%conversation_asked Hs. split; [by apply read_is_content|].
  exists (exchange (Req.ReadTarget t) s).2. split; [done|]. by apply rest_kept.
Qed.

Lemma conversation_write s t d b written new s' :
  conversation s (Asked (Req.WriteTarget t d b false) (Ok (Resp.Written written)) :: new) s' -> at_rest s ->
  exists s1, conversation s1 new s' /\ at_rest s1 /\ content s1 t = Some b.
Proof.
  intros [Ha C]%conversation_asked Hs.
  exists (exchange (Req.WriteTarget t d b false) s).2. split; [done|]. by eapply write_is_content.
Qed.

Lemma still_leaves e : still e -> leaves e = true. Proof. by destruct e as [[]| |]. Qed.
Lemma aside_leaves e : aside e -> leaves e = true. Proof. by destruct e as [[]| |]. Qed.

End Store.

Section Applied.
Context {Value S A : Type} `{!Peer S} `{!AuditSink A} `{!TargetStore S}.
Variable fe : Front Value.
Variable ack : HelloAck.

Lemma leaves_stills l : Forall (fun e => still e) l -> Forall (fun e => leaves e = true) l.
Proof. intros H. eapply Forall_impl; [exact H|apply still_leaves]. Qed.

(** What the module makes of the files of [s] is text, as every [String] is. *)
Definition writes_text (id : rstr) (model : Value) (s : S) : Prop :=
  forall m target b current rendered, find_module fe id = Ok m -> content s target = Some b -> from_utf8 b = Some current ->
    om_apply m current model = Ok rendered -> Forall is_char rendered.

(** What a successful apply without a commit window leaves in its target. *)
Lemma work_content id model h action confirm report work s s' :
  (forall m, find_module fe id = Ok m -> commit_required (om_descriptor m) confirm = false) ->
  writes_text id model s ->
  found_same fe ack id model h (Ok report) work \/ wrote fe ack id model h action confirm (Ok report) work ->
  conversation s work s' -> at_rest s ->
  at_rest s' /\ exists m wi contents current rendered b, rendering fe ack m id model h wi contents current rendered
    /\ content s' (wi_target wi) = Some b /\ from_utf8 b = Some rendered.
Proof.
  intros Hc Hchars [(m & wi & c & cur & HR & -> & _)|(m & wi & c & cur & rendered & checks & answer & rest & HR & _ & Hch & -> & Hs)] C Hs0.
  - apply conversation_read in C as (Hb & s1 & C & H1 & H2); [|done]. inversion C; subst. split; [done|].
    exists m, wi, c, cur, cur, (tc_bytes c). split; [done|]. rewrite H2. split; [done|]. apply HR.
  - pose proof HR as (Hm & _ & _ & _ & Hcur & Ha). rewrite (Hc _ Hm) in C. simpl in C.
    apply conversation_read in C as (Hb & s1 & C & H1 & H2); [|done].
    apply talk_split in C as (s2 & C1 & C2).
    assert (Hck : Forall (fun e => leaves e = true) checks) by (clear - Hch; induction Hch as [|? ? ? ? (o & -> & _)]; by constructor).
    destruct (conversation_leaves _ _ _ C1 H1 Hck) as [H3 _].
    destruct answer as [[]|]; try by destruct Hs. destruct Hs as (_ & Hside & _).
    apply conversation_write in C2 as (s3 & C2 & H4 & H5); [|done].
    destruct (conversation_leaves _ _ _ C2 H4) as [H6 H7].
    { eapply Forall_impl; [exact (Hside (Hc _ Hm))|apply aside_leaves]. }
    split; [done|]. exists m, wi, c, cur, rendered, (as_bytes rendered). split; [done|]. rewrite H7. split; [done|].
    apply from_utf8_bytes. exact (Hchars m (wi_target wi) (tc_bytes c) cur rendered Hm Hb Hcur Ha).
Qed.

Lemma applied_content id model h action confirm who (authz : Authz Value) (w : @World S A) report :
  let '(r, w') := execute fe (Op.Apply id model h action confirm) who authz w in
  tables (client w) = Some ack -> at_rest (peer (client w)) -> r = Ok (Out.Applied report) ->
  (forall m, find_module fe id = Ok m -> commit_required (om_descriptor m) confirm = false) ->
  writes_text id model (peer (client w)) ->
  tables (client w') = Some ack /\ at_rest (peer (client w')) /\
  exists m wi contents current rendered b, rendering fe ack m id model h wi contents current rendered
    /\ content (peer (client w')) (wi_target wi) = Some b /\ from_utf8 b = Some rendered.
Proof.
  pose proof (run_talk fe ack (Op.Apply id model h action confirm) who authz w) as H.
  destruct (execute fe _ who authz w) as [r w']. simpl in H. intros Hw Hrest -> Hc Hchars. destruct (H Hw) as (new & _ & X & C & T).
  split; [done|].
  assert (exists front work back, new = front ++ work ++ back /\ Forall (fun e => leaves e = true) front
    /\ worked fe ack (Op.Apply id model h action confirm) (Ok (Out.Applied report)) work /\ Forall (fun e => leaves e = true) back)
    as (front & work & back & -> & Hf & Hwork & Hb).
  { unfold execution in X. destruct (authz _ _) as [u|]; [|by destruct X]. simpl in X.
    destruct X as [(looked & start & kept & rest & -> & Hl & _ & X)|(looked & work & tail & -> & Hn & Hwork & Ht)].
    - destruct kept; [|by destruct X as [_ [e X]]]. destruct X as (work & final & fkept & -> & Hwork & _).
      exists (looked ++ [Audited start true]), work, [Audited final fkept]. split_and!; [by rewrite <- (assoc_L (++))| |done|by repeat constructor].
      apply Forall_app_2; [by apply leaves_stills|by repeat constructor].
    - exists looked, work, tail. split_and!; try done; [|by apply leaves_stills].
      destruct Hn as (? & ? & ? & ? & ? & ? & ? & ? & ? & _ & _ & ->). by repeat constructor. }
  destruct Hwork as ([report'|] & [= <-] & Hwork).
  apply talk_split in C as (s1 & C1 & C). apply talk_split in C as (s2 & C2 & C3).
  destruct (conversation_leaves _ _ _ C1 Hrest Hf) as [R1 Rsame].
  assert (Hchars1 : writes_text id model s1) by (intros ? ? ? ? ? ?; rewrite Rsame; by apply Hchars).
  destruct Hwork as [[? _]|Hwork]; [done|].
  destruct (work_content id model h action confirm report work s1 s2 Hc Hchars1 Hwork C2 R1)
    as (R2 & m & wi & c & cur & rendered & b & HR & Hb1 & Hb2).
  destruct (conversation_leaves _ _ _ C3 R2 Hb) as [R3 Hsame]. split; [done|].
  exists m, wi, c, cur, rendered, b. by rewrite Hsame.
Qed.

End Applied.

(** ** Showing a module *)

Section Shown.
Context {Value S A : Type} `{!Peer S} `{!AuditSink A}.
Variable fe : Front Value.
Variable ack : HelloAck.

Abbreviation EM E X := (SE (@World S A) E X).

Definition says_missing (answer : result ClientError Response) : Prop :=
  answer = Ok (Resp.Error PErr.NotFound) \/ answer = Err (CErr.Remote PErr.NotFound).

(** What a view of a module was read from: the bytes of its target, decoded and
    parsed, or the answer that there is no such file. *)
Definition shown (id : rstr) (view : ModuleView Value) (new : list Event) : Prop :=
  exists m k wi, find_module fe id = Ok m /\ wiring_of fe (Some ack) (om_descriptor m) (path_exists fe k) None = Ok wi
    /\ ((exists c text model, new = [read_event wi c] /\ from_utf8 (tc_bytes c) = Some text /\ om_parse m text = Ok model
           /\ mv_model view = Some model /\ mv_current_hash view = Some (tc_digest c))
        \/ (exists answer, new = [Asked (Req.ReadTarget (wi_target wi)) answer] /\ says_missing answer)
           /\ mv_model view = None /\ mv_current_hash view = None).

Lemma says_get_module id : engine_says S A (Some ack) (get_module fe id)
  (fun r new => forall view, r = Ok (Out.Module_ view) -> shown id view new).
Proof.
  unfold get_module. apply says_bind, says_give. destruct (find_module fe id) as [m|e] eqn:Em; [|done].
  apply says_bind. eapply says_weaken; [apply says_wiring|]. intros r new (-> & k & ->).
  destruct (wiring_of _ _ _ _ _) as [wi|e] eqn:Ew; [|done].
  apply says_bind, says_after. eapply says_weaken; [apply says_asked|]. intros a new (answer & -> & ->).
  destruct (verdict _ _ answer) as [c|e] eqn:Ev.
  - apply verdict_ok in Ev as (response & -> & H). destruct response; try done. simplify_eq. apply says_ret.
    apply says_bind, says_bind, says_give. unfold decode. destruct (from_utf8 (tc_bytes c)) as [text|] eqn:Ed; [|done].
    apply says_bind, says_of_dyn. destruct (om_parse m text) as [model|e] eqn:Ep; [|done].
    apply says_ret. apply says_bind, says_of_dyn. destruct (om_validate _ _ _) as [ds|e]; [|done]. apply says_ret.
    intros view [= <-]. exists m, k, wi. do 2 (split; [done|]). left. by exists c, text, model.
  - assert (Hm : e = CErr.Remote PErr.NotFound -> says_missing answer).
    { intros ->. unfold says_missing. unfold verdict, unexpected in Ev. destruct answer as [[]|e]; simpl in Ev; simplify_eq; eauto. }
    assert (Ht : engine_says S A (Some ack) (match e with CErr.Remote PErr.NotFound => mret None | e => throw (map_client e) end : EM OpsError (option TargetContents))
      (fun r new => new = [] /\ forall x, r = Ok x -> x = None /\ e = CErr.Remote PErr.NotFound)).
    { destruct e as [|[]| |]; try (by apply says_throw). apply says_ret. split; [done|]. by intros x [= <-]. }
    eapply says_weaken; [exact Ht|]. intros [x|e'] new [-> H]; [|done]. destruct (H x eq_refl) as [-> He].
    apply says_bind, says_ret, says_bind, says_ret, says_ret. intros view [= <-]. exists m, k, wi. do 2 (split; [done|]). right.
    split; [|done]. exists answer. split; [done|by apply Hm].
Qed.

End Shown.

Lemma exchange_missing {S} `{!Peer S} (s : S) r : (exchange r s).1 <> Err (CErr.Remote PErr.NotFound).
Proof. unfold exchange. destruct (peer_send r s) as [[[]|e] s']; [|done]. by destruct (peer_recv s') as [[]]. Qed.

(** What a successful [GetModule] shows of a store at rest. *)
Lemma get_shows {Value S A : Type} `{!Peer S} `{!AuditSink A} `{!TargetStore S} (fe : Front Value) ack id who (authz : Authz Value)
    (w : @World S A) view :
  tables (client w) = Some ack -> at_rest (peer (client w)) ->
  (execute fe (Op.GetModule id) who authz w).1 = Ok (Out.Module_ view) ->
  exists m k wi, find_module fe id = Ok m /\ wiring_of fe (Some ack) (om_descriptor m) (path_exists fe k) None = Ok wi
    /\ match content (peer (client w)) (wi_target wi) with
       | Some b => exists text model, from_utf8 b = Some text /\ om_parse m text = Ok model /\ mv_model view = Some model
       | None => mv_model view = None
       end.
Proof.
  intros Hw Hrest Hr.
  destruct (says_execute fe ack _ (Op.GetModule id) who authz (says_get_module fe ack id) w Hw) as (_ & new & E & X).
  destruct (talks_execute fe (Op.GetModule id) who authz w) as (new' & E' & C & _). rewrite E in E'. apply app_inv_head in E' as <-.
  rewrite Hr in X. unfold execution in X. destruct (authz _ _) as [u|]; [|by destruct X]. simpl in X.
  destruct X as (work & tail & -> & Hs & _). destruct (Hs _ eq_refl) as (m & k & wi & Hm & Hwi & Hread).
  exists m, k, wi. do 2 (split; [done|]).
  destruct Hread as [(c & text & model & -> & Hd & Hp & Hv & _)|((answer & -> & Hmiss) & Hv & _)]; simpl in C;
    apply conversation_asked in C as [Ha _].
  - rewrite (read_is_content _ _ _ Hrest Ha). by exists text, model.
  - destruct Hmiss as [->| ->]; [|by destruct (exchange_missing _ _ Ha)]. by rewrite (missing_is_content _ _ Hrest Ha).
Qed.

(** ** Property *)

(** C5: What was applied is what is shown. Over a peer that keeps files and has no
    commit window open, for a module that meets the SDK's invariants and keeps one
    file, with a serialiser that reads back what it wrote: after an apply that
    succeeded without a window, showing the module gives the model that was
    applied, whatever the file was before, whether the apply wrote or found
    nothing to do, and whatever validators, services and mounts it asked for. What
    the module renders is taken to be Unicode, as every [String] is. *)
Theorem apply_then_get {Value S A : Type} `{!Json Value} `{!Peer S} `{!AuditSink A} `{!TargetStore S} (fe : Front Value) (ack : HelloAck)
    (M : ConfigModule) `{!ConfigModuleLaws M} (id : rstr) (d : ModuleDescriptor) (schema : Value) (secrets : list rstr)
    (from_value : Value -> result rstr Model) (to_value : Model -> result rstr Value) (m : Model) (v : Value)
    (expected_hash : option Sha256Digest) (action : option ServiceCommand) (report : ApplyReport) (view : ModuleView Value)
    (who who' : Identity) (authz authz' : Authz Value) (w w' : @World S A) :
  find_module fe id = Ok (dyn_module M id d schema secrets from_value to_value) ->
  (forall m v, to_value m = Ok v -> from_value v = Ok m) ->
  to_value m = Ok v ->
  model_target_json M from_value v = Ok None ->
  commit_confirm d = false ->
  (forall k k', path_exists fe k = path_exists fe k') ->
  tables (client w) = Some ack -> at_rest (peer (client w)) ->
  (forall target b src out, content (peer (client w)) target = Some b -> from_utf8 b = Some src ->
     apply_json M from_value src v = Ok out -> Forall is_char out) ->
  execute fe (Op.Apply id v expected_hash action None) who authz w = (Ok (Out.Applied report), w') ->
  (execute fe (Op.GetModule id) who' authz' w').1 = Ok (Out.Module_ view) ->
  mv_model view = Some v.
Proof.
  intros Hm Hserde Hv Htarget Hcc Hex Hw Hrest Hchars.
  pose proof (applied_content fe ack id v expected_hash action None who authz w report) as H.
  intros E Hg. rewrite E in H.
  destruct H as (Hw' & Hrest' & m1 & wi & c & cur & rendered & b & (F1 & (target & k & F2 & F3) & _ & _ & _ & F4) & Hb & Hu); [done..| | |].
  { intros m' Hm'. rewrite Hm in Hm'. injection Hm' as <-. unfold commit_required. simpl. by rewrite Hcc. }
  { intros m' target b cur rendered Hm' Hb Hd Ha. rewrite Hm in Hm'. injection Hm' as <-. exact (Hchars _ _ _ _ Hb Hd Ha). }
  rewrite Hm in F1. injection F1 as <-. simpl in F2, F3, F4. rewrite Htarget in F2. injection F2 as <-.
  destruct (get_shows fe ack id who' authz' w' view Hw' Hrest' Hg) as (m2 & k' & wi' & G1 & G2 & G3).
  rewrite Hm in G1. injection G1 as <-. simpl in G2. rewrite (Hex k' k) in G2. pose proof (eq_trans (eq_sym F3) G2) as G. injection G as <-.
  rewrite Hb in G3. destruct G3 as (text & model & G4 & G5 & ->). rewrite Hu in G4. injection G4 as <-. f_equal.
  pose proof (apply_json_model M from_value to_value Hserde cur m v rendered Hv F4) as G6. simpl in G5. rewrite G5 in G6. by injection G6.
Qed.
