(* ===== verification/Wired.v ===== *)
(** * The engine over the monitor

    The two processes composed: the worker's client at one end of the channel, the
    monitor of [Monitor] at the other, one request and its answer at a time. The
    monitor keeps the files the engine applies, so what [EngineStore] shows of a
    store holds of the whole system. *)

From Stdlib Require Import ZArith.
From stdpp Require Import gmap sorting.
From S2P Require Import Prelude Str Num Ip Utf8 Doc Diag Descriptor Proto Transport Stateful Client EngineStore.
From S2P Require Import Disk Atomic AtomicSafe Restore Frames Allow ExecDeny Hooks Monitor MonitorLogic MonitorDemo Confine Recover Commit.
#[local] Open Scope Z_scope.

(** ** The monitor as a peer *)

(** The monitor's process as the worker sees it. *)
Record Wire := mkWire { wire_host : Host; inbox : option Request; gone : bool }.

Section Wire.
Context `{!Postcard Request} `{!Postcard Response}.
Variable s : Setup.
Variable lock_held : bool.

(** The session is over: a pending commit is taken back. *)
Definition hang_up (h : Host) : Wire := mkWire (rollback_pending_on_exit s h).2 None true.

Definition wire_send (r : Request) (x : Wire) : result ChannelError () * Wire :=
  match frame r with
  | Err e => (Err e, x)
  | Ok _ => if gone x then (Err Closed, x) else (Ok (), mkWire (wire_host x) (Some r) false)
  end.

(** One turn of [serve_loop]. *)
Definition wire_recv (x : Wire) : result ChannelError Response * Wire :=
  match inbox x with
  | None => (Err (if gone x then Closed else Timeout), x)
  | Some r =>
      match handle s lock_held r (wire_host x) with
      | (Err _, h) => (Err Closed, hang_up h)
      | (Ok response, h) =>
          match frame response with
          | Err _ => (Err Closed, hang_up h)
          | Ok _ =>
              let h := (send_response (E := MonitorError) response h).2 in
              (Ok response,
               match r with
               | Req.Shutdown => hang_up h
               | _ => if is_fatal response then hang_up h
                      else match enforce_deadline s h with
                           | (Ok _, h) => mkWire h None false
                           | (Err _, h) => hang_up h
                           end
               end)
          end
      end
  end.

#[export] Instance wire_peer : Peer Wire := {| peer_send := wire_send; peer_recv := wire_recv |}.

(** As long as the monitor goes on, an exchange is a turn of its loop. *)
Lemma exchange_is_turn idle_timeout timeout turns r x response :
  gone x = false -> exchange r x = (Ok response, (exchange r x).2) -> gone (exchange r x).2 = false ->
  serve_loop s idle_timeout timeout lock_held (Lab.ask r :: turns) (wire_host x)
  = serve_loop s idle_timeout (match pending (mon (wire_host x)) with Some _ => PENDING_POLL | None => idle_timeout end) lock_held turns
      (wire_host (exchange r x).2).
Proof.
  unfold exchange. simpl. unfold wire_send. intros Hg. rewrite Hg. destruct (frame r); [|done]. unfold wire_recv. simpl.
  destruct (handle s lock_held r (wire_host x)) as [[answer|e] h] eqn:Eh; [|done].
  destruct (frame answer); [|done]. simpl. intros [= ->] Hgone.
  cbn [serve_loop Lab.ask on_timeout received on_send]. unfold mbind, MM_bind, attempt, current_pending, get. cbn beta iota.
  set (want := match pending _ with Some _ => _ | None => _ end). destruct (if timeout =? want then None else None) eqn:Et; [by destruct (timeout =? want)|].
  rewrite Eh. cbn beta iota. unfold send_response in *. cbn beta iota.
  destruct r; simpl in Hgone |- *; try done; destruct (is_fatal response); try done; destruct (enforce_deadline _ _) as [[]]; done.
Qed.

End Wire.

(** ** Reading and writing one target *)

(** A call that reads the state of a disk that stays. *)
Lemma read_call {A} ev act op (q : Path) d0 (a : A) : (forall n d, (act n d).2 = d) -> (forall n, (act n d0).1 = Ok a) ->
  spec whatever (fun d => d = d0) (map_err (Atomic.Io op q) (sys ev act))
    (on_ok (fun x d => x = a /\ d = d0) (fun e _ => not_found e = false)).
Proof.
  intros Hr Ha. apply spec_map_err, spec_read; [done|done| |].
  - intros n d ->. by rewrite Ha.
  - intros f d -> _. by destruct f.
Qed.

Lemma spec_assume_r {E A} I (C : Prop) P (m : M E A) Q : (C -> spec I P m Q) -> spec I (fun d => P d /\ C) m Q.
Proof. intros H st [Hp Hc]. by apply H. Qed.

Lemma read_existing_missing w dir name q d0 : spec whatever (fun d => d = d0) (read_existing w dir name q)
  (on_ok (fun e d => d = d0 /\ match e with
      | Some e => exists f, d0 !! join_name dir name = Some (Regular f) /\ e_contents e = contents f
      | None => d0 !! join_name dir name = None end) (fun e _ => not_found e = false)).
Proof.
  unfold read_existing.
  eapply spec_try with (R := fun r d => d = d0 /\ match r with Ok n => d0 !! join_name dir name = Some n
    | Err e => e = NOENT -> d0 !! join_name dir name = None end).
  { apply spec_read; [done|done| |by intros [] d -> _]. intros n d ->. simpl. by destruct (d0 !! _). }
  intros [[f| | |]|e]; try (apply spec_throw; by intros d [-> H]).
  - apply spec_assume_r. intros Hf.
    eapply spec_bind; [by apply (read_call _ _ _ _ _ f); [|intros n; rewrite Hf]| |done]. intros x. apply spec_assume. intros ->.
    eapply spec_bind; [by eapply (read_call _ _ _ _ _ (mode f, owner f)); [|intros n; rewrite Hf]| |done]. intros x. apply spec_assume. intros ->.
    eapply spec_bind; [by eapply (read_call _ _ _ _ _ (contents f)); [|intros n; rewrite Hf]| |done]. intros x. apply spec_assume. intros ->.
    apply spec_ret. intros d ->. split; [done|]. by exists f.
  - destruct e; try (apply spec_throw; by intros d [-> H]). apply spec_ret. intros d [-> H]. split; [done|]. by apply H.
Qed.

(** A read says what is there; it says that nothing is there only when nothing is. *)
Lemma read_missing_spec w p dir name d0 : split_path p = Ok (dir, name) -> is_directory d0 dir ->
  spec whatever (fun d => d = d0) (read_with_digest w p)
    (on_ok (fun x _ => exists f, d0 !! p = Some (Regular f) /\ x.1 = contents f) (fun e _ => not_found e = true -> d0 !! p = None)).
Proof.
  intros Hs [m Hm]. pose proof (split_path_join _ _ _ Hs) as ->. unfold read_with_digest. rewrite Hs.
  eapply spec_bind with (R := on_ok (fun x d => x = (dir, name) /\ d = d0) (fun _ _ => False)); [by apply spec_of_result| |done].
  intros x. cbn [on_ok]. apply spec_assume. intros ->.
  eapply spec_bind; [by apply (read_call _ _ _ _ _ ()); [|intros n; rewrite Hm]| |by cbn; intros e d ->].
  intros x. cbn [on_ok]. apply spec_assume. intros _.
  eapply spec_bind; [apply read_existing_missing| |by cbn; intros e d ->].
  intros [e|]; [apply spec_ret|apply spec_throw]; cbn [on_ok]; by intros d [-> H].
Qed.

(** ** The monitor keeps files *)

(** Every target has its directory and its backups apart, and is no candidate
    file. *)
Record tidy (s : Setup) : Prop := {
  tidy_layout : forall t, t ∈ a_targets (allow s) -> exists dir name, forall expected b, layout (write_request s t expected b) dir name;
  tidy_candidates : forall t, t ∈ a_targets (allow s) -> ~ candidate_area s (te_path t);
}.

(** No commit is pending, and the directories of the targets are there. *)
Definition idle_host (s : Setup) (h : Host) : Prop :=
  pending (mon h) = None /\ forall t dir, t ∈ a_targets (allow s) -> parent (te_path t) = Some dir -> is_directory (disk (fs h)) dir.

Definition file_at (d : Disk) (p : Path) : option rbytes :=
  match d !! p with Some (Regular f) => Some (contents f) | _ => None end.

Definition wire_content (s : Setup) (x : Wire) (id : TargetId) : option rbytes :=
  t ← target (allow s) id; file_at (disk (fs (wire_host x))) (te_path t).

Section Kept.
Context `{!Postcard Request} `{!Postcard Response}.
Variable s : Setup.
Variable lock_held : bool.
Hypothesis neat : tidy s.

Lemma target_split t : t ∈ a_targets (allow s) -> exists dir name, split_path (te_path t) = Ok (dir, name) /\ parent (te_path t) = Some dir
  /\ forall expected b, layout (write_request s t expected b) dir name.
Proof.
  intros (dir & name & H)%(tidy_layout s neat). exists dir, name. pose proof (lay_path _ _ _ (H None [])) as Hs. simpl in Hs.
  split_and!; [done| |done]. rewrite (split_path_join _ _ _ Hs). apply parent_join.
Qed.

(** *** Requests that write nothing *)

#[local] Instance candidates_scope : CallScope s (candidate_area s) any_call.
Proof. split; [split|]; done. Qed.

(** [h'] has the files of [h], and no commit either. *)
Definition same_files (h h' : Host) : Prop :=
  idle_host s h' /\ forall t, t ∈ a_targets (allow s) -> file_at (disk (fs h')) (te_path t) = file_at (disk (fs h)) (te_path t).

Lemma near_same_files h h' : idle_host s h -> pending (mon h') = None -> near (candidate_area s) (disk (fs h)) (disk (fs h')) -> same_files h h'.
Proof.
  intros [_ Hdir] Hp [Hn Hd]. split; [split; [done|by eauto]|]. intros t Ht. unfold file_at. rewrite Hn; [done|by apply tidy_candidates].
Qed.

Lemma handle_same_files r h : writes_nothing r = true -> idle_host s h -> same_files h (handle s lock_held r h).2.
Proof.
  intros Hr Hh. unfold handle, mbind, MM_bind, attempt, get. destruct (_ && _); [apply near_same_files; [done|apply Hh|apply near_refl]|].
  destruct (k_asking s (candidate_area s) any_call (fun x => pending x = None) (disk (fs h)) ltac:(done) r Hr h) as (_ & _ & [Hn Hp] & _).
  { split; [apply near_refl|apply Hh]. }
  by apply near_same_files.
Qed.

Lemma idle_deadline h : idle_host s h -> enforce_deadline s h = (Ok (), h).
Proof. intros [H _]. unfold enforce_deadline, mbind, MM_bind, attempt, current_pending, get. by rewrite H. Qed.

Lemma idle_hang_up h : idle_host s h -> hang_up s h = mkWire h None true.
Proof. intros [H _]. unfold hang_up, rollback_pending_on_exit, mbind, MM_bind, attempt, current_pending, get. by rewrite H. Qed.

(** What an exchange does to the monitor's host: nothing, or one request. *)
Lemma exchange_host r (x : Wire) : exists sent', let x' := (exchange (Peer0 := wire_peer s lock_held) r x).2 in
  wire_host x' = wire_host x /\ (forall response, (exchange (Peer0 := wire_peer s lock_held) r x).1 <> Ok response)
  \/ (idle_host s (handle s lock_held r (wire_host x)).2 ->
      let h := (handle s lock_held r (wire_host x)).2 in
      wire_host x' = mkHost (fs h) (mon h) (trace h) (logged h) sent' (ticks h)
      /\ forall response, (exchange (Peer0 := wire_peer s lock_held) r x).1 = Ok response -> (handle s lock_held r (wire_host x)).1 = Ok response).
Proof.
  unfold exchange. simpl. unfold wire_send. destruct (frame r); [|exists []; by left]. destruct (gone x); [exists []; by left|].
  unfold wire_recv. simpl. destruct (handle s lock_held r (wire_host x)) as [[answer|e] h].
  2: { exists (sent h). right. cbn [fst snd]. intros Hi. rewrite (idle_hang_up _ Hi). by destruct h. }
  destruct (frame answer); cbn [fst snd].
  2: { exists (sent h). right. intros Hi. rewrite (idle_hang_up _ Hi). by destruct h. }
  exists (sent h ++ [answer]). right. intros Hi. set (h' := mkHost _ _ _ _ _ _). assert (Hi' : idle_host s h') by done.
  rewrite (idle_hang_up _ Hi'), (idle_deadline _ Hi'). split; [|by intros ? [= ->]]. by destruct r, (is_fatal answer).
Qed.

(** *** A request and its answer *)

Definition reads_as (d : Disk) (id : TargetId) (response : Response) : Prop :=
  match response with
  | Resp.Target c => (t ← target (allow s) id; file_at d (te_path t)) = Some (tc_bytes c)
  | Resp.Error PErr.NotFound => (t ← target (allow s) id; file_at d (te_path t)) = None
  | _ => True
  end.

Lemma h_read d id : (forall t dir, t ∈ a_targets (allow s) -> parent (te_path t) = Some dir -> is_directory d dir) ->
  hspec whatever any_call (fun _ d' => d' = d) (Monitor.read_target s id)
    (fun r _ _ => match r with Ok response | Err response => reads_as d id response end).
Proof.
  intros Hdir. unfold Monitor.read_target. destruct (target (allow s) id) as [t|] eqn:Et; [|by apply h_ret].
  destruct (target_split t (target_elem _ _ _ Et)) as (dir & name & Hs & Hp & _).
  eapply h_attempt; [apply h_disk; intros x; apply (read_missing_spec _ _ _ _ _ Hs), (Hdir t dir (target_elem _ _ _ Et) Hp)|].
  intros [[b digest]|e]; apply h_ret; cbn [on_ok]; intros _ d'.
  - intros (f & Hf & Hb). simpl. rewrite Et. simpl. unfold file_at. rewrite Hf. by rewrite <- Hb.
  - intros H. destruct (not_found e) eqn:Ee; [|by destruct e]. simpl. rewrite Et. simpl. unfold file_at. by rewrite H.
Qed.

(** A handler that ends early answers an error. *)
Definition refuses {A} (m : MM Response A) : Prop := forall h e, (m h).1 = Err e -> exists p, e = Resp.Error p.

Lemma refuses_ret {A} (a : A) : refuses (mret a). Proof. by intros h e. Qed.
Lemma refuses_fail {A} p : refuses (A := A) (fail (Resp.Error p)). Proof. intros h e [= <-]. by eexists. Qed.
Lemma refuses_bind {A B} (m : MM Response A) (k : A -> MM Response B) : refuses m -> (forall a, refuses (k a)) -> refuses (m ≫= k).
Proof.
  intros Hm Hk h e. unfold mbind, MM_bind, attempt. pose proof (Hm h) as H. destruct (m h) as [[a|e'] h']; [apply Hk|]. intros [= ->]. by apply H.
Qed.
Lemma refuses_catch {E A} (g : E -> Response) (m : MM E A) : (forall e, exists p, g e = Resp.Error p) -> refuses (catch_err g m).
Proof.
  intros Hg h e. unfold catch_err, attempt. destruct (m h) as [[a|e'] h']; [done|]. intros [= <-]. apply Hg.
Qed.
Lemma refuses_removing {A} p (m : MM Response A) : refuses m -> refuses (removing s p m).
Proof.
  intros Hm h e. unfold removing, attempt. pose proof (Hm h) as H. destruct (m h) as [r h']. destruct (on_disk _ h'). simpl. apply H.
Qed.

Lemma refuses_check_bytes {A} id spec b (k : CheckOutcome -> MM Response A) : (forall o, refuses (k o)) -> refuses (check_bytes s id spec b k).
Proof.
  intros Hk. apply refuses_bind; [apply refuses_catch; eauto|]. intros p. apply refuses_removing.
  apply refuses_bind; [apply refuses_catch; eexists; done|]. intros ?. apply refuses_bind; [apply refuses_catch; eexists; done|]. apply Hk.
Qed.

Lemma refuses_revalidate m text previous b : refuses (revalidate s m text previous b).
Proof.
  apply refuses_bind.
  { intros h e. simpl. unfold gate_content, validate_candidate, unknown, io_text. repeat case_match; intros [= <-]; by eexists. }
  intros ?. destruct (configured _); [|apply refuses_ret]. induction (filter _ _) as [|c l IH]; [apply refuses_ret|].
  apply refuses_bind; [|done]. apply refuses_check_bytes. intros o. destruct (passed o); [apply refuses_ret|apply refuses_fail].
Qed.

Definition wrote_bytes (id : TargetId) (b : rbytes) (response : Response) (d : Disk) : Prop :=
  match response with Resp.Written _ => (t ← target (allow s) id; file_at d (te_path t)) = Some b | _ => True end.

(** The bytes a write reports written are there. *)
Lemma write_run id expected b h response h' : Monitor.write_target s id expected b false h = (Ok response, h') ->
  wrote_bytes id b response (disk (fs h')).
Proof.
  unfold Monitor.write_target. destruct (target (allow s) id) as [t|] eqn:Et; [|by intros [= <- _]].
  destruct (target_split t (target_elem _ _ _ Et)) as (dir & name & Hs & _ & Hl).
  unfold mbind, MM_bind. unfold attempt at 1. destruct (attempt (on_disk _) _ h) as [[previous|e] h1]; [|done].
  unfold attempt at 1. destruct (revalidate _ _ _ _ _ h1) as [[[]|e] h2]; [|done].
  unfold attempt at 1. unfold catch_err, attempt at 1, on_disk at 1.
  destruct (write_atomic_spec (w s) (write_request s t expected b) (disk (fs h2)) dir name (Hl expected b) (fs h2) eq_refl) as [_ Hw].
  destruct (write_atomic _ _ (fs h2)) as [[out|e] st]; [|done]. cbn [fst snd on_ok] in Hw. destruct Hw as [(f & Hf & Hc) _].
  intros [= <- <-]. simpl. rewrite Et. simpl. unfold file_at. pose proof (split_path_join _ _ _ Hs) as E. rewrite E, Hf. by f_equal.
Qed.

Lemma refuses_write id expected b j : refuses (Monitor.write_target s id expected b j).
Proof.
  unfold Monitor.write_target. destruct (target _ _); [|apply refuses_ret].
  apply refuses_bind.
  { intros h e. unfold attempt, on_disk. destruct (read_with_digest _ _ _) as [[[]|x] st]; [done|].
    destruct (not_found x); [done|]. intros [= <-]. by eexists. }
  intros previous. apply refuses_bind; [apply refuses_revalidate|]. intros ?. apply refuses_bind; [apply refuses_catch; eauto|].
  intros out. apply refuses_bind; [destruct j; by intros ? ?|]. intros ?. apply refuses_ret.
Qed.

(** The answer to a request is its handler's, unless the monitor turns it away. *)
Lemma handled_by r (m : MM Response Response) h response h' :
  dispatch s r = (x ← get mon; if negb (greeted x) then mret (Resp.Error PErr.HandshakeRequired)
                  else response ← answer m;
                       _ ← match summary_of (sha256 (w s)) r with Some x => log_request x response | None => mret () end;
                       mret response) ->
  handle s lock_held r h = (Ok response, h') ->
  (exists h1, m h = (Ok response, h1) /\ fs h1 = fs h') \/ (exists h1, m h = (Err response, h1) /\ fs h1 = fs h')
  \/ response = Resp.Error PErr.HandshakeRequired \/ response = Resp.Error PErr.StateLockUnavailable.
Proof.
  intros Hr. unfold handle. rewrite Hr. unfold mbind, MM_bind, answer, attempt, get.
  destruct (_ && _); [intros [= <- _]; auto|]. destruct (negb _); [intros [= <- _]; auto|].
  destruct (m h) as [[a|a] h1]; cbn; destruct (summary_of _ _); cbn; intros [= <- <-]; [left|left|right; left|right; left]; by exists h1.
Qed.

#[local] Instance anywhere_idle : WriteScope s (fun _ => True) any_call (fun x => pending x = None).
Proof. split; [split; [split|]|..]; try done. intros id t out x _ _. unfold journaled. by destruct (backup out). Qed.

Lemma handle_idle r h : commit_request r = false -> idle_host s h -> idle_host s (handle s lock_held r h).2.
Proof.
  intros Hr [Hp Hdir]. unfold handle, mbind, MM_bind, attempt, get. destruct (_ && _); [done|].
  destruct (k_plain s (fun _ => True) any_call (fun x => pending x = None) (disk (fs h)) r Hr h) as (_ & _ & [[_ Hn] Hp'] & _).
  { split; [apply near_refl|done]. }
  split; [done|]. intros t dir Ht Hd. by apply Hn, (Hdir t).
Qed.

#[local] Abbreviation ex r x := (exchange (Peer0 := wire_peer s lock_held) r x).

(** An exchange that is answered is the monitor handling the request. *)
Lemma exchange_handled r (x : Wire) response : commit_request r = false -> idle_host s (wire_host x) -> (ex r x).1 = Ok response ->
  idle_host s (wire_host (ex r x).2) /\ exists h, handle s lock_held r (wire_host x) = (Ok response, h) /\ fs h = fs (wire_host (ex r x).2).
Proof.
  intros Hr Hx Ha. pose proof (handle_idle r _ Hr Hx) as Hi. destruct (exchange_host r x) as (sent' & [[_ H]|H]); [by destruct (H response)|].
  destruct (H Hi) as [E Hh]. cbv zeta in *. rewrite E. split; [exact Hi|]. exists (handle s lock_held r (wire_host x)).2. split; [|done].
  rewrite (surjective_pairing (handle _ _ _ _)). f_equal. by apply Hh.
Qed.

Lemma wire_read x id response : idle_host s (wire_host x) -> (ex (Req.ReadTarget id) x).1 = Ok response ->
  reads_as (disk (fs (wire_host x))) id response.
Proof.
  intros Hx Ha. destruct (exchange_handled (Req.ReadTarget id) _ _ eq_refl Hx Ha) as (_ & h & Hh & _).
  destruct (h_read (disk (fs (wire_host x))) id (proj2 Hx) (wire_host x) eq_refl) as (_ & _ & H).
  apply (handled_by _ (Monitor.read_target s id)) in Hh as [(h1 & E & _)|[(h1 & E & _)|[->| ->]]]; try done; by rewrite E in H.
Qed.

Lemma wire_write x id expected b written : idle_host s (wire_host x) -> (ex (Req.WriteTarget id expected b false) x).1 = Ok (Resp.Written written) ->
  idle_host s (wire_host (ex (Req.WriteTarget id expected b false) x).2)
  /\ wire_content s (ex (Req.WriteTarget id expected b false) x).2 id = Some b.
Proof.
  intros Hx Ha. destruct (exchange_handled (Req.WriteTarget id expected b false) _ _ eq_refl Hx Ha) as (Hi & h & Hh & Hf). split; [done|].
  unfold wire_content. rewrite <- Hf.
  apply (handled_by _ (Monitor.write_target s id expected b false)) in Hh as [(h1 & E & <-)|[(h1 & E & _)|[?|?]]]; try done.
  - exact (write_run _ _ _ _ _ _ E).
  - destruct (refuses_write id expected b false (wire_host x) (Resp.Written written)) as [p Hp]; [by rewrite E|done].
Qed.

(** What the other requests do to the files: nothing. *)
Lemma wire_kept x r : idle_host s (wire_host x) -> writes_nothing r = true ->
  idle_host s (wire_host (ex r x).2) /\ forall id, wire_content s (ex r x).2 id = wire_content s x id.
Proof.
  intros Hx Hr. destruct (exchange_host r x) as (sent' & [[E _]|H]); cbv zeta in *.
  - rewrite E. split; [done|]. intros t. unfold wire_content. by rewrite E.
  - destruct (handle_same_files r (wire_host x) Hr Hx) as [Hi Hf]. destruct (H Hi) as [E _]. rewrite E. split; [done|].
    intros id. unfold wire_content. rewrite E. simpl. destruct (target (allow s) id) as [t|] eqn:Et; [|done]. simpl.
    by eapply Hf, target_elem.
Qed.

(** The monitor is a store of files. *)
#[export] Instance wire_store : @TargetStore Wire (wire_peer s lock_held).
Proof.
  refine {| content := wire_content s; at_rest x := idle_host s (wire_host x) |}.
  - exact wire_kept.
  - intros x id c Hx Ha. exact (wire_read x id _ Hx Ha).
  - intros x id Hx Ha. exact (wire_read x id _ Hx Ha).
  - intros x id d b written Hx Ha. by eapply wire_write.
Defined.

End Kept.

(** ** Property *)

(** C6: The monitor is the store the engine takes it for. Whatever calls fail and
    whether or not the state lock is held: while no commit is pending, an answered
    read gives what the target holds, and says the file is missing only when it
    is; a write the monitor reports is in the target, with nothing else asked;
    every request that is no write and about no commit leaves the contents of
    every target as they are; and no commit comes to be pending. *)
Theorem monitor_keeps_files `{!Postcard Request} `{!Postcard Response} (s : Setup) (lock_held : bool) (x : Wire) (id : TargetId) :
  tidy s -> idle_host s (wire_host x) ->
  let ask r := exchange (Peer0 := wire_peer s lock_held) r x in
  (forall c, (ask (Req.ReadTarget id)).1 = Ok (Resp.Target c) -> wire_content s x id = Some (tc_bytes c))
  /\ ((ask (Req.ReadTarget id)).1 = Ok (Resp.Error PErr.NotFound) -> wire_content s x id = None)
  /\ (forall expected b written, let '(answer, x') := ask (Req.WriteTarget id expected b false) in
       answer = Ok (Resp.Written written) -> idle_host s (wire_host x') /\ wire_content s x' id = Some b)
  /\ (forall r, writes_nothing r = true -> let x' := (ask r).2 in
       idle_host s (wire_host x') /\ forall id', wire_content s x' id' = wire_content s x id').
Proof.
  intros Ht Hx ask. split_and!.
  - intros c Ha. exact (wire_read s lock_held Ht x id _ Hx Ha).
  - intros Ha. exact (wire_read s lock_held Ht x id _ Hx Ha).
  - intros expected b written. pose proof (wire_write s lock_held Ht x id expected b written Hx) as H. unfold ask.
    destruct (exchange _ x) as [answer x']. exact H.
  - intros r Hr. by apply wire_kept.
Qed.
