(* ===== verification/Merkle.v ===== *)
(** * Inclusion in a transparency log

    [root_from_path] of [crates/detent-update/src/verify.rs]: the root of a Merkle
    tree from one leaf, its place and the hashes along its path, against the
    tree hash and the audit path of RFC 9162 as reference. SHA-256 is a parameter;
    nothing is assumed of it but the length of its digests, and a wrong answer of
    the code is turned into two inputs with one digest.

    A [u64] is a [Z]; [next_power_of_two] stops the program when its result does
    not fit (the release profile checks overflow), which is [None] here. *)

From Stdlib Require Import ZArith.
From stdpp Require Import list.
From Equations Require Import Equations.
From S2P Require Import Prelude Disk.
#[local] Open Scope Z_scope.

(** ** Why a bundle is refused *)

Inductive BundleError :=
| Oversized
| Malformed (why : list N)
| BadMediaType (media_type : list N)
| BadBase64 (field : list N)
| BadStatement (why : list N).

Inductive VerificationError :=
| BundleMalformed (error : BundleError)
| TrustRootUnavailable
| CertChainInvalid
| CertExpired
| IdentityMismatch
| IssuerMismatch
| SignatureInvalid
| DigestMismatch
| SetInvalid
| SctInvalid
| TimestampInvalid
| UnsupportedEntryKind.

#[export] Instance BundleError_eq_dec : EqDecision BundleError. Proof. solve_decision. Defined.
#[export] Instance VerificationError_eq_dec : EqDecision VerificationError. Proof. solve_decision. Defined.

(** [u64::next_power_of_two]. *)
Definition next_power_of_two (n : Z) : option Z :=
  let p := 2 ^ Z.log2_up n in if p <? 2 ^ 64 then Some p else None.

(** Computations that may stop the program: [None]. *)
Definition Fallible (A : Type) : Type := option (result VerificationError A).

#[export] Instance fallible_ret : MRet Fallible := fun _ a => Some (Ok a).
#[export] Instance fallible_bind : MBind Fallible := fun _ _ f m =>
  match m with Some (Ok a) => f a | Some (Err e) => Some (Err e) | None => None end.

Definition refuse {A} (e : VerificationError) : Fallible A := Some (Err e).
Definition checked_by {A} (r : result VerificationError A) : Fallible A := Some r.

Lemma fallible_bind_ok {A B} (f : A -> Fallible B) (m : Fallible A) b :
  (m ≫= f) = Some (Ok b) <-> exists a, m = Some (Ok a) /\ f a = Some (Ok b).
Proof. destruct m as [[a|e]|]; unfold mbind, fallible_bind; split; naive_solver. Qed.

Section Merkle.
Variable sha256 : rbytes -> rbytes.

(** ** The code *)

Definition merged (left right : rbytes) : rbytes := sha256 (1%N :: left ++ right).

Definition rekor_leaf_hash (body : rbytes) : rbytes := sha256 (0%N :: body).

(** The path is taken from its end, as [split_last] does. *)
Fixpoint climb (index size : Z) (leaf : rbytes) (path : list rbytes) : Fallible rbytes :=
  if (size =? 0) || (size <=? index) then refuse SetInvalid
  else if size =? 1 then (if bool_decide (path = []) then mret leaf else refuse SetInvalid)
  else match path with
       | [] => refuse SetInvalid
       | head :: rest =>
           match next_power_of_two size with
           | None => None
           | Some p =>
               let k := Z.shiftr p 1 in
               if index <? k then sub ← climb index k leaf rest; mret (merged sub head)
               else sub ← climb (index - k) (size - k) leaf rest; mret (merged head sub)
           end
       end.

Definition root_from_path (index size : Z) (leaf : rbytes) (path : list rbytes) : Fallible rbytes :=
  climb index size leaf (reverse path).

(** ** RFC 9162, 2.1 *)

(** The largest power of two below [n]. *)
Definition split_point (n : nat) : nat := 2 ^ (Nat.log2_up n - 1).

Lemma split_point_bounds n : (2 <= n)%nat -> (0 < split_point n < n /\ n <= 2 * split_point n)%nat.
Proof.
  intros Hn. unfold split_point. destruct (Nat.log2_up_spec n) as [H1 H2]; [lia|].
  destruct (Nat.log2_up n) as [|m]; [simpl in H2; lia|]. replace (S m - 1)%nat with m by lia. cbn [Nat.pred] in H1.
  assert (2 ^ m <> 0)%nat by (apply Nat.pow_nonzero; lia). cbn [Nat.pow] in H2. lia.
Qed.

Lemma parts_shorter (D : list rbytes) : (2 <= length D)%nat ->
  (length (take (split_point (length D)) D) < length D /\ length (drop (split_point (length D)) D) < length D)%nat.
Proof. intros H%split_point_bounds. rewrite length_firstn, length_skipn. lia. Qed.

(** The tree hash of the entries, and the audit path of entry [i], nearest
    hash first. *)
Equations tree_hash (D : list rbytes) : rbytes by wf (length D) lt :=
  tree_hash [] := sha256 [];
  tree_hash [d] := rekor_leaf_hash d;
  tree_hash D := merged (tree_hash (take (split_point (length D)) D)) (tree_hash (drop (split_point (length D)) D)).
Next Obligation. intros. subst D. apply parts_shorter. simpl. lia. Qed.
Next Obligation. intros. subst D. apply parts_shorter. simpl. lia. Qed.

Equations audit_path (i : nat) (D : list rbytes) : list rbytes by wf (length D) lt :=
  audit_path _ [] := [];
  audit_path _ [_] := [];
  audit_path i D :=
    let k := split_point (length D) in
    if (i <? k)%nat then audit_path i (take k D) ++ [tree_hash (drop k D)]
    else audit_path (i - k) (drop k D) ++ [tree_hash (take k D)].
Next Obligation. intros. apply parts_shorter. simpl. lia. Qed.
Next Obligation. intros. apply parts_shorter. simpl. lia. Qed.

(** ** The reference, in halves *)

Lemma tree_hash_one d : tree_hash [d] = rekor_leaf_hash d.
Proof. by simp tree_hash. Qed.

Lemma tree_hash_halves D : (2 <= length D)%nat ->
  tree_hash D = merged (tree_hash (take (split_point (length D)) D)) (tree_hash (drop (split_point (length D)) D)).
Proof. destruct D as [|d [|e D]]; cbn [length]; [lia..|]. intros _. by simp tree_hash. Qed.

Lemma audit_path_one i d : audit_path i [d] = [].
Proof. by simp audit_path. Qed.

Lemma audit_path_halves i D : (2 <= length D)%nat ->
  audit_path i D =
    if (i <? split_point (length D))%nat then audit_path i (take (split_point (length D)) D) ++ [tree_hash (drop (split_point (length D)) D)]
    else audit_path (i - split_point (length D)) (drop (split_point (length D)) D) ++ [tree_hash (take (split_point (length D)) D)].
Proof. destruct D as [|d [|e D]]; cbn [length]; [lia..|]. intros _. by simp audit_path. Qed.

(** Induction on a log: none or one entry, or two halves. *)
Lemma halves_ind (P : list rbytes -> Prop) :
  P [] -> (forall d, P [d]) ->
  (forall D, (2 <= length D)%nat -> P (take (split_point (length D)) D) -> P (drop (split_point (length D)) D) -> P D) ->
  forall D, P D.
Proof.
  intros H0 H1 H2 D. induction D as [D IH] using (induction_ltof1 _ (length (A := rbytes))). unfold ltof in IH.
  destruct D as [|d [|e D]]; [done|apply H1|]. set (L := d :: e :: D) in *. assert (2 <= length L)%nat as Hl by (simpl; lia).
  destruct (parts_shorter L Hl). apply H2; auto.
Qed.

(** The code's split of a size is the one of the reference. *)
Lemma power_split n p : (2 <= n)%nat -> next_power_of_two (Z.of_nat n) = Some p -> Z.shiftr p 1 = Z.of_nat (split_point n).
Proof.
  intros Hn. unfold next_power_of_two, split_point. destruct (Nat.log2_up_spec n) as [H1 H2]; [lia|].
  destruct (Nat.log2_up n) as [|m]; [simpl in H2; lia|]. replace (S m - 1)%nat with m by lia. cbn [Nat.pred] in H1.
  assert (Z.log2_up (Z.of_nat n) = Z.of_nat (S m)) as ->.
  { apply Z.log2_up_unique; [lia|]. replace (Z.pred (Z.of_nat (S m))) with (Z.of_nat m) by lia.
    apply Nat2Z.inj_lt in H1. apply Nat2Z.inj_le in H2. rewrite Nat2Z.inj_pow in H1, H2. lia. }
  case_if; [|done]. intros [= <-]. rewrite Nat2Z.inj_succ, Z.pow_succ_r, Z.shiftr_div_pow2, Nat2Z.inj_pow by lia.
  rewrite Z.pow_1_r, Z.mul_comm, Z.div_mul by lia. done.
Qed.

Lemma power_fits n : 0 < n <= 2 ^ 63 -> is_Some (next_power_of_two n).
Proof.
  intros Hn. unfold next_power_of_two. assert (2 ^ Z.log2_up n <= 2 ^ 63); [|case_if; [eauto|bool_to_prop; lia]].
  apply Z.pow_le_mono_r; [lia|]. rewrite <- (Z.log2_up_pow2 63) by lia. apply Z.log2_up_le_mono. lia.
Qed.

(** ** What an accepted path shows *)

Definition digest_length : Prop := forall b, length (sha256 b) = 32%nat.

(** What the code and the log hash on the way from the root of [D] to its entry
    [i], node by node: the pairs of inputs. *)
Fixpoint hashed (i : nat) (D : list rbytes) (body : rbytes) (path : list rbytes) : list (rbytes * rbytes) :=
  match path with
  | [] => (fun d => (0%N :: body, 0%N :: d)) <$> D
  | head :: rest =>
      let k := split_point (length D) in
      let '(D1, D2) := (take k D, drop k D) in
      let pair sub := (1%N :: (if (i <? k)%nat then sub ++ head else head ++ sub), 1%N :: tree_hash D1 ++ tree_hash D2) in
      let '(j, Dj) := if (i <? k)%nat then (i, D1) else ((i - k)%nat, D2) in
      match climb (Z.of_nat j) (Z.of_nat (length Dj)) (rekor_leaf_hash body) rest with
      | Some (Ok sub) => pair sub :: hashed j Dj body rest
      | _ => []
      end
  end.

(** Two different inputs with one digest. *)
Definition clash (p : rbytes * rbytes) : Prop := p.1 <> p.2 /\ sha256 p.1 = sha256 p.2.

Lemma equal_digests x y : sha256 x = sha256 y -> x = y \/ clash (x, y).
Proof. intros E. destruct (decide (x = y)); [by left|]. by right. Qed.

Lemma tree_hash_length : digest_length -> forall D, length (tree_hash D) = 32%nat.
Proof.
  intros Hd D. destruct D as [|d [|e D]]; [by simp tree_hash|rewrite tree_hash_one; apply Hd|].
  rewrite tree_hash_halves by (simpl; lia). apply Hd.
Qed.

Lemma climb_length path : digest_length -> forall index size leaf root,
  length leaf = 32%nat -> climb index size leaf path = Some (Ok root) -> length root = 32%nat.
Proof.
  intros Hd. induction path as [|h path IH]; intros index size leaf root Hl; cbn [climb];
    (case_if; [done|]); (case_if; [case_if; [by intros [= <-]|done]|]); [done|].
  destruct (next_power_of_two size) as [p|]; [|done]. case_if; intros (sub & _ & [= <-])%fallible_bind_ok; apply Hd.
Qed.

Lemma climb_sound path : digest_length -> Forall (fun h => length h = 32%nat) path -> forall D i body,
  climb (Z.of_nat i) (Z.of_nat (length D)) (rekor_leaf_hash body) path = Some (Ok (tree_hash D)) ->
  D !! i = Some body \/ Exists clash (hashed i D body path).
Proof.
  intros Hd Hp. induction Hp as [|h path Hh _ IH]; intros D i body; cbn [climb];
    (case_if; [done|]); bool_to_prop; (case_if; bool_to_prop; [|try done]); [|done|].
  { case_if; [|done]. destruct D as [|d [|]]; simpl in *; [lia| |lia]. rewrite tree_hash_one. intros [= E].
    assert (i = 0)%nat as -> by lia. apply equal_digests in E as [[= ->]|]; [by left|right; by left]. }
  assert (2 <= length D)%nat as Hn by lia. pose proof (split_point_bounds _ Hn) as Hb.
  destruct (next_power_of_two _) as [p|] eqn:Ep; [|done]. rewrite (power_split _ _ Hn Ep), (tree_hash_halves D Hn).
  cbn [hashed]. set (k := split_point (length D)) in *.
  assert (Z.of_nat k = Z.of_nat (length (take k D))) as Ek by (rewrite length_firstn; lia).
  assert (Z.of_nat (length D) - Z.of_nat k = Z.of_nat (length (drop k D))) as Ek' by (rewrite length_skipn; lia).
  destruct (i <? k)%nat eqn:Eik; bool_to_prop.
  - replace (Z.of_nat i <? Z.of_nat k) with true by lia. rewrite Ek. intros (sub & Hs & [= E])%fallible_bind_ok. rewrite Hs.
    apply equal_digests in E as [[= E]|]; [|right; by left].
    apply app_inj_1 in E as [-> _]; [|by rewrite tree_hash_length, (climb_length _ Hd _ _ _ _ (Hd _) Hs)].
    destruct (IH _ _ _ Hs) as [Hi|]; [left|right; by right]. by rewrite lookup_take_lt in Hi by lia.
  - replace (Z.of_nat i <? Z.of_nat k) with false by lia. rewrite Ek'. replace (Z.of_nat i - Z.of_nat k) with (Z.of_nat (i - k)) by lia.
    intros (sub & Hs & [= E])%fallible_bind_ok. rewrite Hs.
    apply equal_digests in E as [[= E]|]; [|right; by left].
    apply app_inj_1 in E as [_ ->]; [|by rewrite tree_hash_length, Hh].
    destruct (IH _ _ _ Hs) as [Hi|]; [left|right; by right]. rewrite lookup_drop in Hi. by replace (k + (i - k))%nat with i in Hi by lia.
Qed.

Lemma climb_complete D : forall i d, D !! i = Some d -> Z.of_nat (length D) <= 2 ^ 63 ->
  climb (Z.of_nat i) (Z.of_nat (length D)) (rekor_leaf_hash d) (reverse (audit_path i D)) = Some (Ok (tree_hash D)).
Proof.
  induction D as [|e|D Hn IHl IHr] using halves_ind; intros i d Hi Hs; [done| |].
  - apply list_lookup_singleton_Some in Hi as [-> ->]. by rewrite audit_path_one, tree_hash_one.
  - pose proof (split_point_bounds _ Hn) as Hb. pose proof (lookup_lt_Some _ _ _ Hi) as Hlt.
    rewrite audit_path_halves, (tree_hash_halves D) by done. set (k := split_point (length D)) in *.
    destruct (power_fits (Z.of_nat (length D))) as [p Ep]; [lia|]. pose proof (power_split _ _ Hn Ep) as Hk. fold k in Hk.
    destruct (i <? k)%nat eqn:Eik; bool_to_prop; rewrite reverse_snoc; cbn [climb];
      rewrite (bool_decide_eq_false_2 (_ = [])) by done;
      (replace (Z.of_nat (length D) =? 0) with false by lia); (replace (Z.of_nat (length D) <=? Z.of_nat i) with false by lia);
      (replace (Z.of_nat (length D) =? 1) with false by lia); cbn [orb]; rewrite Ep, Hk.
    + replace (Z.of_nat i <? Z.of_nat k) with true by lia.
      rewrite <- (lookup_take_lt _ k) in Hi by done. pose proof (IHl i d Hi) as H. rewrite length_firstn in H.
      replace (k `min` length D)%nat with k in H by lia. rewrite H by lia. done.
    + replace (Z.of_nat i <? Z.of_nat k) with false by lia.
      assert (drop k D !! (i - k)%nat = Some d) as Hi' by (rewrite lookup_drop; rewrite <- Hi; f_equal; lia).
      pose proof (IHr (i - k)%nat d Hi') as H. rewrite length_skipn in H. rewrite !Nat2Z.inj_sub in H by lia. rewrite H by lia. done.
Qed.

(** An honest path is short. *)
Lemma audit_path_short D : forall i, (length (audit_path i D) <= Nat.log2_up (length D))%nat.
Proof.
  induction D as [|e|D Hn IHl IHr] using halves_ind; intros i; [by simp audit_path|by rewrite audit_path_one|].
  pose proof (split_point_bounds _ Hn) as Hb. pose proof (IHl i) as Hl. pose proof (IHr (i - split_point (length D))%nat) as Hr.
  rewrite length_firstn in Hl. rewrite length_skipn in Hr. rewrite Nat.min_l in Hl by lia.
  assert (Nat.log2_up (split_point (length D)) = Nat.log2_up (length D) - 1)%nat as E by apply Nat.log2_up_pow2, Nat.le_0_l.
  assert (0 < Nat.log2_up (length D))%nat by (apply Nat.log2_up_pos; lia).
  assert (Nat.log2_up (length D - split_point (length D)) <= Nat.log2_up (split_point (length D)))%nat by (apply Nat.log2_up_le_mono; lia).
  rewrite audit_path_halves by done. case_if; rewrite length_app; simpl; lia.
Qed.

(** When the code stops the program instead of answering. *)
Lemma climb_answers path : forall index size leaf, size <= 2 ^ 63 -> 0 <= index -> climb index size leaf path <> None.
Proof.
  induction path as [|h path IH]; intros index size leaf Hs Hi; cbn [climb]; (case_if; [done|]); bool_to_prop;
    (case_if; [by case_if|]); [done|]. bool_to_prop.
  destruct (power_fits size) as [p Ep]; [lia|]. pose proof (power_split (Z.to_nat size) p ltac:(lia)) as Hk.
  rewrite Z2Nat.id in Hk by lia. pose proof (split_point_bounds (Z.to_nat size) ltac:(lia)). rewrite Ep, Hk by done.
  case_if; bool_to_prop; unfold mbind, fallible_bind; match goal with |- context [climb ?i ?n ?l path] =>
    pose proof (IH i n l ltac:(lia) ltac:(lia)); by destruct (climb i n l path) as [[]|] end.
Qed.

(** ** The theorems *)

(** The inclusion proof of a log entry is accepted, and no other entry's. For a
    log of at most 2^63 entries, the path of RFC 9162 leads from an entry to the
    tree hash, and it is short enough for a bundle; and when a path of digests
    leads from some body to the tree hash at the place of an entry, the body is
    that entry, unless one of the nodes of that path shows two inputs of SHA-256
    with one digest. *)
Theorem inclusion_exact D i d :
  digest_length -> D !! i = Some d -> (Z.of_nat (length D) <= 2 ^ 63)%Z ->
  root_from_path (Z.of_nat i) (Z.of_nat (length D)) (rekor_leaf_hash d) (audit_path i D) = Some (Ok (tree_hash D))
  /\ (length (audit_path i D) <= 63)%nat
  /\ forall path body, Forall (fun h => length h = 32%nat) path ->
       root_from_path (Z.of_nat i) (Z.of_nat (length D)) (rekor_leaf_hash body) path = Some (Ok (tree_hash D)) ->
       body = d \/ Exists clash (hashed i D body (reverse path)).
Proof.
  intros Hd Hi Hs. split_and!.
  - by apply climb_complete.
  - etrans; [apply audit_path_short|]. apply Nat.log2_up_le_pow2; [apply lookup_lt_Some in Hi; lia|].
    apply Nat2Z.inj_le. by rewrite Nat2Z.inj_pow.
  - intros path body Hp Hr. apply climb_sound in Hr as [Hb|]; [left; congruence|by right|done|by apply Forall_reverse].
Qed.

(** Every proof is answered, but for a tree of more than 2^63 entries: then
    [next_power_of_two] overflows and the program stops. *)
Theorem inclusion_answered index size leaf path :
  (0 <= index)%Z -> (0 <= size < 2 ^ 64)%Z ->
  root_from_path index size leaf path = None <-> (2 ^ 63 < size)%Z /\ (index < size)%Z /\ path <> [].
Proof.
  intros Hi Hs. unfold root_from_path. split.
  - intros Hn. destruct (decide (size <= 2 ^ 63)) as [Hle|Hgt]; [by destruct (climb_answers (reverse path) index size leaf)|].
    split; [lia|]. destruct path as [|h path]; [|].
    + rewrite reverse_nil in Hn. cbn [climb] in Hn. repeat (case_if; [done|]). done.
    + split; [|done]. destruct (reverse (h :: path)); cbn [climb] in Hn; (case_if; [done|bool_to_prop; lia]).
  - intros (Hgt & Hlt & Hne). destruct (reverse path) as [|h rest] eqn:E.
    { by apply (f_equal reverse) in E; rewrite reverse_involutive, reverse_nil in E. }
    cbn [climb]. replace (size =? 0) with false by lia. replace (size <=? index) with false by lia.
    replace (size =? 1) with false by lia. cbn [orb]. unfold next_power_of_two.
    replace (Z.log2_up size) with 64; [done|]. symmetry. apply Z.log2_up_unique; [lia|]. simpl. lia.
Qed.

End Merkle.

(** ** Instances *)

Module MerkleDemo.

Definition pad (b : rbytes) : rbytes := take 32 (b ++ replicate 32 0%N).
Definition entries : list rbytes := [[5%N]; [6%N]; [7%N]].

End MerkleDemo.

Lemma inclusion_exact_witness :
  root_from_path MerkleDemo.pad (Z.of_nat 2) (Z.of_nat (length MerkleDemo.entries)) (rekor_leaf_hash MerkleDemo.pad [7%N])
    (audit_path MerkleDemo.pad 2 MerkleDemo.entries) = Some (Ok (tree_hash MerkleDemo.pad MerkleDemo.entries)).
Proof.
  destruct (inclusion_exact MerkleDemo.pad MerkleDemo.entries 2 [7%N]) as [H _]; [|reflexivity|simpl; lia|exact H].
  intros b. unfold MerkleDemo.pad. rewrite length_firstn, length_app, length_replicate. lia.
Defined.

Lemma inclusion_answered_witness : root_from_path MerkleDemo.pad 0 (2 ^ 63 + 1) [] [[]] = None.
Proof. apply (inclusion_answered MerkleDemo.pad 0 (2 ^ 63 + 1) [] [[]]); [lia|lia|]. split_and!; [lia|lia|discriminate]. Defined.
