(* ===== verification/Der.v ===== *)
(** * The precertificate of a signing certificate

    The DER routines of [crates/detent-update/src/verify.rs]: one TLV off the
    front of a byte string, one TLV appended, and the rebuilt [TBSCertificate]
    that a certificate-transparency log signed. Bytes are numbers below 256, a
    [usize] length is an [N]. *)

From Stdlib Require Import ZArith NArith.
From stdpp Require Import list.
From S2P Require Import Prelude Str Disk.
#[local] Open Scope N_scope.

(** ** The code *)

Definition split_at_checked (n : N) (l : rbytes) : option (rbytes * rbytes) :=
  if N.of_nat (length l) <? n then None else Some (take (N.to_nat n) l, drop (N.to_nat n) l).

Definition der_tlv (input : rbytes) : option (N * rbytes * rbytes) :=
  match input with
  | tag :: first :: input =>
      '(len, input) ← (if first <? 128 then Some (first, input)
        else
          let count := N.land first 127 in
          if negb ((1 <=? count) && (count <=? 3)) then None
          else '(bytes, rest) ← split_at_checked count input;
               Some (foldl (fun len byte => N.lor (N.shiftl len 8) byte) 0 bytes, rest));
      '(content, rest) ← split_at_checked len input;
      Some (tag, content, rest)
  | _ => None
  end.

(** [to_be_bytes] of an [n]-byte integer. *)
Fixpoint be_bytes (n : nat) (x : N) : rbytes :=
  match n with O => [] | S n => N.land (N.shiftr x (8 * N.of_nat n)) 255 :: be_bytes n x end.

Definition der_push (out : rbytes) (tag : N) (content : rbytes) : option rbytes :=
  let out := out ++ [tag] in
  let len := N.of_nat (length content) in
  if len <? 128 then Some (out ++ [len] ++ content)
  else
    let significant := drop_while (fun byte => byte =? 0) (be_bytes 8 len) in
    let count := N.of_nat (length significant) in
    if count <? 256 then Some (out ++ [N.lor 128 count] ++ significant ++ content) else None.

Definition SCT_LIST_OID_DER : rbytes := [6; 10; 43; 6; 1; 4; 1; 214; 121; 2; 4; 2].

(** Loops over the TLVs of a byte string; the fuel is its length, and a TLV takes
    two bytes at least. *)
Fixpoint keep_extensions (fuel : nat) (extensions kept : rbytes) (removed : nat) : option (rbytes * nat) :=
  match extensions, fuel with
  | [], _ => Some (kept, removed)
  | _, O => None
  | _, S fuel =>
      '(tag, extension, next) ← der_tlv extensions;
      if negb (tag =? 48) then None
      else
        let whole := take (length extensions - length next) extensions in
        if bool_decide (SCT_LIST_OID_DER `prefix_of` extension) then keep_extensions fuel next kept (S removed)
        else keep_extensions fuel next (kept ++ whole) removed
  end.

Fixpoint keep_fields (fuel : nat) (fields out_fields : rbytes) (removed : nat) : option (rbytes * nat) :=
  match fields, fuel with
  | [], _ => Some (out_fields, removed)
  | _, O => None
  | _, S fuel =>
      '(tag, content, rest) ← der_tlv fields;
      if tag =? 163 then
        '(inner, extensions, after) ← der_tlv content;
        if negb (inner =? 48) || negb (is_empty after) then None
        else
          '(kept, removed) ← keep_extensions (length extensions) extensions [] removed;
          sequence ← der_push [] 48 kept;
          out_fields ← der_push out_fields 163 sequence;
          keep_fields fuel rest out_fields removed
      else keep_fields fuel rest (out_fields ++ take (length fields - length rest) fields) removed
  end.

Definition precert_tbs (tbs : rbytes) : option rbytes :=
  '(tag, fields, after) ← der_tlv tbs;
  if negb (tag =? 48) || negb (is_empty after) then None
  else
    '(out_fields, removed) ← keep_fields (length fields) fields [] 0;
    if negb (removed =? 1)%nat then None else der_push [] 48 out_fields.

(** The content of a [UTF8String] that fills [value]. *)
Definition der_utf8_string (value : rbytes) : option rbytes :=
  match der_tlv value with Some (12, content, []) => Some content | _ => None end.

(** ** One TLV *)

(** The encoding of [content] under [tag]. *)
Definition tlv (tag : N) (content : rbytes) : rbytes := default [] (der_push [] tag content).

Definition short (content : rbytes) : Prop := N.of_nat (length content) < 2 ^ 24.

Lemma lor_byte a b : b < 256 -> N.lor (N.shiftl a 8) b = a * 256 + b.
Proof.
  intros Hb. rewrite N.shiftl_mul_pow2. change (2 ^ 8) with 256.
  assert (N.land (a * 256) b = 0) as Hl.
  { apply N.bits_inj. intros n. rewrite N.land_spec, N.bits_0. change 256 with (2 ^ 8).
    destruct (N.lt_ge_cases n 8) as [Hn|Hn]; [by rewrite N.mul_pow2_bits_low|].
    rewrite <- (N.mod_small b (2 ^ 8)) by done. rewrite N.mod_pow2_bits_high by done. apply andb_false_r. }
  rewrite <- N.lxor_lor by done. by rewrite <- N.add_nocarry_lxor.
Qed.

Lemma low_byte x k : N.land (N.shiftr x k) 255 = (x / 2 ^ k) mod 256.
Proof. rewrite N.shiftr_div_pow2. change 255 with (N.ones 8). by rewrite N.land_ones. Qed.

Lemma be_bytes_short x : x < 2 ^ 24 -> be_bytes 8 x = replicate 5 0 ++ [x / 65536; (x / 256) mod 256; x mod 256].
Proof.
  intros Hx. cbn [be_bytes N.of_nat]. rewrite !low_byte.
  rewrite !(N.div_small x) by (simpl in *; lia). cbn [replicate app].
  repeat f_equal; simpl.
  - apply N.mod_small. apply N.Div0.div_lt_upper_bound; lia.
  - by rewrite N.div_1_r.
Qed.

Lemma significant_short x : 128 <= x < 2 ^ 24 ->
  let bs := drop_while (fun byte => byte =? 0) (be_bytes 8 x) in
  (1 <= length bs <= 3)%nat /\ foldl (fun len byte => N.lor (N.shiftl len 8) byte) 0 bs = x.
Proof.
  intros [Hlo Hx]. rewrite be_bytes_short by done. cbn [replicate app drop_while N.eqb].
  assert (x / 65536 < 256) by (apply N.Div0.div_lt_upper_bound; simpl in *; lia).
  pose proof (N.div_mod x 256 ltac:(lia)). pose proof (N.div_mod (x / 256) 256 ltac:(lia)) as H'. rewrite N.Div0.div_div in H'. change (256 * 256) with 65536 in H'.
  pose proof (N.mod_lt x 256 ltac:(lia)). pose proof (N.mod_lt (x / 256) 256 ltac:(lia)).
  destruct (x / 65536 =? 0) eqn:E1; [destruct ((x / 256) mod 256 =? 0) eqn:E2; [destruct (x mod 256 =? 0) eqn:E3|]|]; bool_to_prop;
    cbn [length foldl]; rewrite ?N.shiftl_0_l, ?N.lor_0_l, ?lor_byte by done; [lia|split; [lia|]..]; lia.
Qed.

Lemma der_push_app out tag c : der_push out tag c = (fun enc => out ++ enc) <$> der_push [] tag c.
Proof. unfold der_push. cbn zeta. repeat case_if; cbn; by rewrite <- ?app_assoc. Qed.

Lemma tlv_long tag c : short c -> 128 <= N.of_nat (length c) ->
  let bs := drop_while (fun byte => byte =? 0) (be_bytes 8 (N.of_nat (length c))) in
  tlv tag c = tag :: N.lor 128 (N.of_nat (length bs)) :: bs ++ c.
Proof.
  intros Hc Hl. cbn zeta. unfold tlv, der_push, short in *. cbn zeta. rewrite (proj2 (N.ltb_ge (N.of_nat (length c)) 128)) by lia.
  destruct (significant_short (N.of_nat (length c))) as [Hb _]; [lia|].
  match goal with |- context [?a <? 256] => rewrite (proj2 (N.ltb_lt a 256)) by lia end. done.
Qed.

Lemma tlv_brief tag c : N.of_nat (length c) < 128 -> tlv tag c = tag :: N.of_nat (length c) :: c.
Proof. intros Hl. unfold tlv, der_push. cbn zeta. by rewrite (proj2 (N.ltb_lt (N.of_nat (length c)) 128)) by lia. Qed.

Lemma split_at_app (l r : rbytes) : split_at_checked (N.of_nat (length l)) (l ++ r) = Some (l, r).
Proof.
  unfold split_at_checked. rewrite length_app. rewrite (proj2 (N.ltb_ge (N.of_nat (length l + length r)) (N.of_nat (length l)))) by lia.
  by rewrite Nat2N.id, take_app_length, drop_app_length.
Qed.

(** What is written is read back, and the rest is left. *)
Lemma der_tlv_tlv tag c rest : short c -> der_tlv (tlv tag c ++ rest) = Some (tag, c, rest).
Proof.
  intros Hc. destruct (N.lt_ge_cases (N.of_nat (length c)) 128) as [Hl|Hl].
  - rewrite tlv_brief by done. cbn [app der_tlv]. rewrite (proj2 (N.ltb_lt (N.of_nat (length c)) 128)) by lia. cbn [mbind option_bind]. by rewrite split_at_app.
  - rewrite tlv_long by done. cbn [app der_tlv]. destruct (significant_short (N.of_nat (length c))) as [Hb Hf]; [unfold short in Hc; lia|].
    set (bs := drop_while _ _) in *. assert (exists n, length bs = n /\ (n = 1 \/ n = 2 \/ n = 3)%nat) as (n & En & Hn) by (exists (length bs); lia).
    assert ((N.lor 128 (N.of_nat (length bs)) <? 128) = false /\ N.land (N.lor 128 (N.of_nat (length bs))) 127 = N.of_nat (length bs)
      /\ ((1 <=? N.of_nat (length bs)) && (N.of_nat (length bs) <=? 3)) = true) as (E1 & E2 & E3).
    { rewrite En. destruct Hn as [-> | [-> | ->]]; split_and!; reflexivity. }
    rewrite E1, E2, E3. cbn [negb]. rewrite <- app_assoc, split_at_app. cbn [mbind option_bind]. by rewrite Hf, split_at_app.
Qed.

Lemma be_bytes_length n x : length (be_bytes n x) = n.
Proof. induction n as [|n IH]; [done|]. cbn [be_bytes length]. by rewrite IH. Qed.

Lemma significant_length x : (length (drop_while (fun byte => byte =? 0)%N (be_bytes 8 x)) <= 8)%nat.
Proof.
  destruct (drop_while_suffix (fun byte => byte =? 0) (be_bytes 8 x)) as (k & Hk & _).
  apply (f_equal length) in Hk. rewrite be_bytes_length, length_app in Hk. lia.
Qed.

(** Every length can be written. *)
Lemma tlv_push out tag c : der_push out tag c = Some (out ++ tlv tag c).
Proof.
  rewrite der_push_app. unfold tlv. destruct (der_push [] tag c) eqn:E; [done|]. exfalso. revert E. unfold der_push. cbn zeta.
  pose proof (significant_length (N.of_nat (length c))). set (bs := drop_while _ _) in *.
  case_if; [done|]. by rewrite (proj2 (N.ltb_lt (N.of_nat (length bs)) 256)) by lia.
Qed.

Lemma tlv_length tag c : (2 + length c <= length (tlv tag c) <= 10 + length c)%nat.
Proof.
  unfold tlv, der_push. cbn zeta. destruct (N.of_nat (length c) <? 128); [simpl; lia|].
  pose proof (significant_length (N.of_nat (length c))). set (bs := drop_while _ _) in *.
  rewrite (proj2 (N.ltb_lt (N.of_nat (length bs)) 256)) by lia. cbn [from_option length app id]. rewrite length_app. lia.
Qed.

Lemma split_at_some n l a b : split_at_checked n l = Some (a, b) -> l = a ++ b /\ n = N.of_nat (length a).
Proof.
  unfold split_at_checked. destruct (N.ltb_spec (N.of_nat (length l)) n); [done|]. intros [= <- <-].
  rewrite take_drop, length_firstn. split; [done|lia].
Qed.

(** A TLV is read off the front: its header and content do not depend on what
    follows. *)
Lemma der_tlv_split input tag c rest : der_tlv input = Some (tag, c, rest) ->
  exists header, input = tag :: header ++ c ++ rest /\ forall rest', der_tlv (tag :: header ++ c ++ rest') = Some (tag, c, rest').
Proof.
  destruct input as [|t [|first input]]; [done..|]. intros Hd. cbn [der_tlv] in Hd. destruct (first <? 128) eqn:Ef.
  - cbn [mbind option_bind] in Hd. destruct (split_at_checked first input) as [[c' r]|] eqn:E; [|done].
    injection Hd as <- <- <-. apply split_at_some in E as [-> ->]. exists [N.of_nat (length c')]. split; [done|]. intros rest'.
    cbn [app der_tlv]. rewrite Ef. cbn [mbind option_bind]. by rewrite split_at_app.
  - destruct (negb _) eqn:En; [done|]. cbn [mbind option_bind] in Hd.
    destruct (split_at_checked (N.land first 127) input) as [[bytes input']|] eqn:E; [|done]. apply split_at_some in E as [-> Eb].
    cbn [mbind option_bind] in Hd. set (len := foldl (fun len byte => N.lor (N.shiftl len 8) byte) 0 bytes) in *.
    destruct (split_at_checked len input') as [[c' r]|] eqn:E; [|done]. injection Hd as <- <- <-. apply split_at_some in E as [-> El].
    exists (first :: bytes). split; [done|]. intros rest'. cbn [app der_tlv]. rewrite Ef, En, Eb. cbn [mbind option_bind].
    rewrite split_at_app. cbn [mbind option_bind]. fold len. by rewrite El, split_at_app.
Qed.

(** ** The fields of a certificate *)

(** A field of a [TBSCertificate]: one that is kept whole, or the extensions. *)
Inductive Field := Other (tag : N) (content : rbytes) | Extensions (extensions : list rbytes).

Definition extensions_der (extensions : list rbytes) : rbytes := tlv 163 (tlv 48 (concat (tlv 48 <$> extensions))).
Definition field_der (f : Field) : rbytes :=
  match f with Other tag content => tlv tag content | Extensions es => extensions_der es end.

(** No other field is taken for the extensions. *)
Definition field_ok (f : Field) : Prop := match f with Other tag _ => tag <> 163 | Extensions _ => True end.

Definition is_sct (extension : rbytes) : bool := bool_decide (SCT_LIST_OID_DER `prefix_of` extension).

Definition without_sct (f : Field) : Field :=
  match f with Other _ _ => f | Extensions es => Extensions (List.filter (fun e => negb (is_sct e)) es) end.

Definition sct_count (f : Field) : nat :=
  match f with Other _ _ => O | Extensions es => length (List.filter is_sct es) end.

Lemma keep_extensions_der es : Forall short es -> forall fuel kept removed,
  (length (concat (tlv 48 <$> es)) <= fuel)%nat ->
  keep_extensions fuel (concat (tlv 48 <$> es)) kept removed
  = Some (kept ++ concat (tlv 48 <$> List.filter (fun e => negb (is_sct e)) es), (removed + length (List.filter is_sct es))%nat).
Proof.
  intros Hes. induction Hes as [|e es He _ IH]; intros fuel kept removed Hf.
  - cbn [fmap list_fmap concat List.filter length]. rewrite app_nil_r, Nat.add_0_r. by destruct fuel.
  - cbn [fmap list_fmap concat] in Hf |- *. rewrite length_app in Hf. pose proof (tlv_length 48 e) as Hl.
    destruct fuel as [|fuel]; [lia|]. destruct (tlv 48 e ++ concat (tlv 48 <$> es)) as [|b bs] eqn:E.
    { apply (f_equal length) in E. rewrite length_app in E. simpl in E. lia. }
    cbn [keep_extensions]. rewrite <- E, der_tlv_tlv by done. cbn [mbind option_bind negb N.eqb Pos.eqb].
    rewrite length_app, Nat.add_sub, take_app_length. fold (is_sct e). cbn [List.filter].
    destruct (is_sct e); cbn [negb]; rewrite IH by lia; cbn [fmap list_fmap concat length]; f_equal; f_equal; [lia|]. by rewrite <- app_assoc.
Qed.

Lemma concat_part (l : rbytes) (ls : list rbytes) : l ∈ ls -> (length l <= length (concat ls))%nat.
Proof. induction 1; cbn [concat]; rewrite length_app; lia. Qed.

Lemma concat_filter (g : rbytes -> rbytes) (p : rbytes -> bool) es :
  (length (concat (g <$> List.filter p es)) <= length (concat (g <$> es)))%nat.
Proof. induction es as [|e es IH]; [done|]. cbn [List.filter]. destruct (p e); cbn [fmap list_fmap concat] in *; rewrite ?length_app; lia. Qed.

Lemma tlv_cons tag c rest : exists b bs, tlv tag c ++ rest = b :: bs.
Proof. pose proof (tlv_length tag c). destruct (tlv tag c) as [|b bs]; [simpl in *; lia|]. by eexists _, _. Qed.

Lemma keep_fields_other tag c rest fuel out removed : short c -> tag <> 163 ->
  keep_fields (S fuel) (tlv tag c ++ rest) out removed = keep_fields fuel rest (out ++ tlv tag c) removed.
Proof.
  intros Hc Ht. destruct (tlv_cons tag c rest) as (b & bs & E). rewrite E. cbn [keep_fields]. rewrite <- E, der_tlv_tlv by done.
  cbn [mbind option_bind]. rewrite (proj2 (N.eqb_neq tag 163)) by done. by rewrite length_app, Nat.add_sub, take_app_length.
Qed.

Lemma keep_fields_extensions es rest fuel out removed : N.of_nat (length (extensions_der es)) < 2 ^ 23 ->
  keep_fields (S fuel) (extensions_der es ++ rest) out removed
  = keep_fields fuel rest (out ++ extensions_der (List.filter (fun e => negb (is_sct e)) es)) (removed + length (List.filter is_sct es)).
Proof.
  intros Hs. unfold extensions_der in *. pose proof (tlv_length 163 (tlv 48 (concat (tlv 48 <$> es)))). pose proof (tlv_length 48 (concat (tlv 48 <$> es))).
  pose proof (concat_filter (tlv 48) (fun e => negb (is_sct e)) es). set (kept := List.filter _ es) in *.
  pose proof (tlv_length 48 (concat (tlv 48 <$> kept))).
  assert (Forall short es) as Hes.
  { apply Forall_forall. intros e He. pose proof (concat_part (tlv 48 e) (tlv 48 <$> es) ltac:(by apply list_elem_of_fmap_2)).
    pose proof (tlv_length 48 e). unfold short. lia. }
  destruct (tlv_cons 163 (tlv 48 (concat (tlv 48 <$> es))) rest) as (b & bs & E). rewrite E. cbn [keep_fields].
  rewrite <- E, der_tlv_tlv by (unfold short; lia). cbn [mbind option_bind N.eqb Pos.eqb].
  rewrite <- (app_nil_r (tlv 48 (concat (tlv 48 <$> es)))), der_tlv_tlv by (unfold short; lia). cbn [mbind option_bind N.eqb Pos.eqb negb orb is_empty].
  rewrite keep_extensions_der by done. cbn [mbind option_bind app]. fold kept.
  rewrite tlv_push. cbn [mbind option_bind app]. by rewrite tlv_push.
Qed.

Lemma keep_fields_der fs : Forall field_ok fs -> N.of_nat (length (concat (field_der <$> fs))) < 2 ^ 23 -> forall fuel out removed,
  (length (concat (field_der <$> fs)) <= fuel)%nat ->
  keep_fields fuel (concat (field_der <$> fs)) out removed
  = Some (out ++ concat (field_der <$> (without_sct <$> fs)), (removed + sum_list (sct_count <$> fs))%nat).
Proof.
  intros Hfs. induction Hfs as [|f fs Hf _ IH]; intros Hs fuel out removed Hfu.
  - cbn [fmap list_fmap concat sum_list sum_list_with]. rewrite app_nil_r, Nat.add_0_r. by destruct fuel.
  - cbn [fmap list_fmap concat] in Hs, Hfu |- *. rewrite length_app in Hs, Hfu.
    change (sum_list (sct_count f :: (sct_count <$> fs))) with (sct_count f + sum_list (sct_count <$> fs))%nat.
    destruct f as [tag c|es]; cbn [field_der field_ok without_sct sct_count] in *.
    + pose proof (tlv_length tag c). destruct fuel as [|fuel]; [lia|].
      rewrite keep_fields_other by (unfold short; lia || done). rewrite IH by lia. by rewrite <- app_assoc.
    + pose proof (tlv_length 163 (tlv 48 (concat (tlv 48 <$> es)))) as Hl. change (tlv 163 _) with (extensions_der es) in Hl.
      destruct fuel as [|fuel]; [lia|]. rewrite keep_fields_extensions by lia. rewrite IH by lia.
      f_equal. f_equal; [by rewrite <- app_assoc|lia].
Qed.

(** ** The theorems *)

(** What is written is read back: a TLV is read off the front of whatever follows
    it, and a [UTF8String] off a value that holds nothing else. *)
Theorem der_roundtrip tag content rest :
  N.of_nat (length content) < 2 ^ 24 ->
  (exists enc, (forall out, der_push out tag content = Some (out ++ enc)) /\ der_tlv (enc ++ rest) = Some (tag, content, rest))
  /\ (der_utf8_string (tlv 12 content ++ rest) = if is_empty rest then Some content else None).
Proof.
  intros Hc. split.
  - exists (tlv tag content). split; [intros out; apply tlv_push|by apply der_tlv_tlv].
  - unfold der_utf8_string. rewrite der_tlv_tlv by done. by destruct rest.
Qed.

(** The precertificate is the certificate without its SCT list. Of the DER of a
    [TBSCertificate] with these fields - of any tag but the one of the extensions,
    and the extensions in their place, all of less than eight megabytes - the
    rebuilt one is the DER of the same fields with the SCT list extension left out
    and every enclosing length re-encoded, when there is exactly one; without
    one, or with two, there is no precertificate. *)
Theorem precert_tbs_exact fs :
  Forall field_ok fs -> N.of_nat (length (concat (field_der <$> fs))) < 2 ^ 23 ->
  precert_tbs (tlv 48 (concat (field_der <$> fs)))
  = if bool_decide (sum_list (sct_count <$> fs) = 1%nat) then Some (tlv 48 (concat (field_der <$> (without_sct <$> fs)))) else None.
Proof.
  intros Hf Hs. unfold precert_tbs. rewrite <- (app_nil_r (tlv 48 (concat (field_der <$> fs)))), der_tlv_tlv by (unfold short; lia).
  cbn [mbind option_bind N.eqb Pos.eqb negb orb is_empty]. rewrite keep_fields_der by done. cbn [mbind option_bind app Nat.add].
  rewrite tlv_push. destruct (sum_list _ =? 1)%nat eqn:E; bool_to_prop; [by rewrite bool_decide_true|by rewrite bool_decide_false].
Qed.

Module DerDemo.

(** A serial number, and extensions of which the second is an SCT list. *)
Definition fields : list Field := [Other 2 [1; 2; 3]; Extensions [[6; 3; 85; 29; 15; 4; 0]; SCT_LIST_OID_DER ++ [4; 1; 9]]].

End DerDemo.

Lemma der_roundtrip_witness : exists enc, (forall out, der_push out 48 (repeat 7 200) = Some (out ++ enc)) /\ der_tlv (enc ++ [1; 2]) = Some (48, repeat 7 200, [1; 2]).
Proof. apply (der_roundtrip 48 (repeat 7 200) [1; 2]). reflexivity. Defined.

Lemma precert_tbs_exact_witness :
  precert_tbs (tlv 48 (concat (field_der <$> DerDemo.fields))) = Some (tlv 48 (concat (field_der <$> (without_sct <$> DerDemo.fields)))).
Proof. rewrite (precert_tbs_exact DerDemo.fields); [reflexivity| |reflexivity]. repeat constructor. discriminate. Defined.
