(* ===== verification/Bundle.v ===== *)
(** * The Sigstore bundle

    [crates/detent-update/src/bundle.rs]: the JSON of a bundle, the checks that
    [parse] makes of it and the decoded view the verifier reads. serde_json (with
    the numbers-or-strings of the protobuf JSON mapping) and base64 are
    parameters. *)

From Stdlib Require Import ZArith.
From stdpp Require Import list.
From S2P Require Import Prelude Str Disk Atomic Utf8 Merkle.

(** ** JSON *)

Inductive CertificateJson := Raw (raw : rstr) | Wrapped (raw_bytes : rstr).

Record TlogEntryJson := mkTlog {
  j_log_index : Z;
  j_integrated_time : option Z;
  j_key_id : rstr;
  j_kind : rstr;
  j_version : rstr;
  j_canonicalized_body : rstr;
  j_inclusion_promise : option rstr;
  j_proof_log_index : Z;
  j_tree_size : Z;
  j_checkpoint : rstr;
  j_hashes : list rstr;
}.

Record VerificationMaterialJson := mkMaterial {
  x509_certificate_chain : option (list CertificateJson);
  certificate : option CertificateJson;
  tlog_entries : list TlogEntryJson;
  timestamp_verification_data : option (list rstr);
}.

Record DsseEnvelopeJson := mkEnvelope { j_payload_type : rstr; j_payload : rstr; j_signatures : list rstr }.

Record BundleJson := mkBundle {
  j_media_type : rstr;
  verification_material : VerificationMaterialJson;
  dsse_envelope : DsseEnvelopeJson;
}.

Record Subject := mkSubject { s_name : rstr; s_sha256 : rstr }.
Record Statement := mkStatement { statement_type : rstr; st_subject : list Subject }.

(** ** The decoded view *)

Record Decoded := mkDecoded {
  integrated_time : Z;
  certs : list rbytes;
  statement : Statement;
  dsse_payload : rbytes;
  dsse_payload_type : rstr;
  dsse_signature : rbytes;
  log_index : Z;
  log_key_id : rbytes;
  d_kind : rstr;
  kind_version : rstr;
  d_body : rbytes;
  tree_size : Z;
  proof_log_index : Z;
  path_hashes : list rbytes;
  checkpoint : rstr;
  signed_entry_timestamp : rbytes;
  rfc3161_timestamps : list rbytes;
}.

Definition MAX_BUNDLE_BYTES : N := 1048576.
Definition MAX_INCLUSION_PATH : nat := 64.
Definition MAX_RFC3161_TIMESTAMPS : nat := 4.
Definition MEDIA_TYPE : rstr := lit "application/vnd.dev.sigstore.bundle.v0.3+json".
Definition REKOR_V2_KIND : rstr * rstr := (lit "hashedrekord", lit "0.0.2").
Definition DSSE_PAYLOAD_TYPE : rstr := lit "application/vnd.in-toto+json".
Definition LEGACY_DSSE_PAYLOAD_TYPE : rstr := lit "application/vnd.dsse.envelope.v1+json".
Definition STATEMENT_TYPE : rstr := lit "https://in-toto.io/Statement/v1".

Definition is_rekor_v2 (d : Decoded) : bool := bool_decide ((d_kind d, kind_version d) = REKOR_V2_KIND).

Definition cert_bytes (c : CertificateJson) : rstr := match c with Raw raw | Wrapped raw => raw end.

Definition BundleResult := result BundleError.

Section Parse.
Variable bundle_from_slice : rbytes -> result rstr BundleJson.
Variable statement_from_slice : rbytes -> option Statement.
Variable base64_decode : rbytes -> option rbytes.

Definition decode (raw : rstr) (field : rstr) : BundleResult rbytes :=
  match base64_decode (as_bytes raw) with Some b => Ok b | None => Err (BadBase64 field) end.

(** [collect] of a list of results: the first error, if there is one. *)
Fixpoint decode_all (raws : list rstr) (field : rstr) : BundleResult (list rbytes) :=
  match raws with
  | [] => mret []
  | raw :: raws => b ← decode raw field; bs ← decode_all raws field; mret (b :: bs)
  end.

Definition signed_time (tlog : TlogEntryJson) : BundleResult (Z * rbytes) :=
  if bool_decide ((j_kind tlog, j_version tlog) = REKOR_V2_KIND) then mret (0%Z, [])
  else
    match j_inclusion_promise tlog, j_integrated_time tlog with
    | None, _ => Err (Malformed (lit "no inclusionPromise (SET)"))
    | _, None => Err (Malformed (lit "no integratedTime"))
    | Some promise, Some time => b ← decode promise (lit "signed entry timestamp"); mret (time, b)
    end.

Definition read_timestamps (material : VerificationMaterialJson) : BundleResult (list rbytes) :=
  let timestamps := default [] (timestamp_verification_data material) in
  if (MAX_RFC3161_TIMESTAMPS <? length timestamps)%nat then Err (Malformed (lit "more than 4 RFC 3161 timestamps"))
  else decode_all timestamps (lit "rfc3161 timestamp").

Definition decode_path (hashes : list rstr) : BundleResult (list rbytes) :=
  if (MAX_INCLUSION_PATH <? length hashes)%nat then Err (Malformed (lit "inclusion path is longer than 64 hashes"))
  else decode_all hashes (lit "inclusion path hash").

(** A subject digest: 64 hexadecimal digits. *)
Definition hex_sha256 (s : rstr) : bool := (str_len s =? 64)%nat && forallb is_ascii_hexdigit s.

Definition parse_bundle (bytes : rbytes) : BundleResult Decoded :=
  if (MAX_BUNDLE_BYTES <? N.of_nat (length bytes))%N then Err Oversized
  else
    json ← (match bundle_from_slice bytes with Ok j => Ok j | Err why => Err (Malformed why) end);
    if negb (bool_decide (j_media_type json = MEDIA_TYPE)) then Err (BadMediaType (j_media_type json))
    else
      let material := verification_material json in
      let cert_json := match x509_certificate_chain material with
                       | Some certificates => certificates
                       | None => match certificate material with Some c => [c] | None => [] end
                       end in
      if is_empty cert_json then Err (Malformed (lit "bundle carries no X.509 certificate"))
      else
        tlog ← (match tlog_entries material with t :: _ => Ok t | [] => Err (Malformed (lit "no tlog entries")) end);
        payload ← decode (j_payload (dsse_envelope json)) (lit "dsse payload");
        let payload_type := j_payload_type (dsse_envelope json) in
        if negb (bool_decide (payload_type = DSSE_PAYLOAD_TYPE)) && negb (bool_decide (payload_type = LEGACY_DSSE_PAYLOAD_TYPE))
        then Err (Malformed (lit "unexpected DSSE payload type: " ++ payload_type))
        else
          match j_signatures (dsse_envelope json) with
          | [first_signature] =>
              signature ← decode first_signature (lit "dsse signature");
              statement ← (match statement_from_slice payload with Some s => Ok s | None => Err (BadStatement (lit "unparsable")) end);
              if negb (bool_decide (statement_type statement = STATEMENT_TYPE)) then Err (BadStatement (lit "wrong _type"))
              else if is_empty (st_subject statement) then Err (BadStatement (lit "no subjects"))
              else if negb (forallb (fun s => hex_sha256 (s_sha256 s)) (st_subject statement))
              then Err (BadStatement (lit "subject digest is not hex sha256"))
              else
                certs ← decode_all (cert_bytes <$> cert_json) (lit "certificate");
                '(time, set) ← signed_time tlog;
                timestamps ← read_timestamps material;
                key_id ← decode (j_key_id tlog) (lit "log key id");
                body ← decode (j_canonicalized_body tlog) (lit "canonicalized body");
                path ← decode_path (j_hashes tlog);
                mret (mkDecoded time certs statement payload payload_type signature (j_log_index tlog) key_id (j_kind tlog) (j_version tlog)
                        body (j_tree_size tlog) (j_proof_log_index tlog) path (j_checkpoint tlog) set timestamps)
          | _ => Err (Malformed (lit "Sigstore bundles must carry exactly one DSSE signature"))
          end.

(** ** What a parsed bundle is *)

Lemma decode_all_ok raws field bs :
  decode_all raws field = Ok bs -> Forall2 (fun raw b => base64_decode (as_bytes raw) = Some b) raws bs.
Proof.
  revert bs. induction raws as [|raw raws IH]; intros bs; cbn [decode_all]; [by intros [= <-]; constructor|]. unfold decode.
  intros (b & Hb & (bs' & Hbs & [= <-])%result_bind_ok)%result_bind_ok. constructor; [|by apply IH].
  destruct (base64_decode (as_bytes raw)); [|done]. by injection Hb as ->.
Qed.

(** A parsed bundle is small and complete: it has a certificate, a statement of
    the pinned type with a subject, every subject under a SHA-256 in hexadecimal,
    a payload under one of the two accepted types, a path and timestamps within
    their caps, and a signing time unless its entry is a Rekor v2 one. *)
Theorem bundle_parsed bytes d :
  parse_bundle bytes = Ok d ->
  (N.of_nat (length bytes) <= MAX_BUNDLE_BYTES)%N
  /\ certs d <> [] /\ statement_from_slice (dsse_payload d) = Some (statement d)
  /\ statement_type (statement d) = STATEMENT_TYPE /\ st_subject (statement d) <> []
  /\ (forall s, s ∈ st_subject (statement d) -> hex_sha256 (s_sha256 s) = true)
  /\ dsse_payload_type d ∈ [DSSE_PAYLOAD_TYPE; LEGACY_DSSE_PAYLOAD_TYPE]
  /\ (length (path_hashes d) <= MAX_INCLUSION_PATH)%nat /\ (length (rfc3161_timestamps d) <= MAX_RFC3161_TIMESTAMPS)%nat
  /\ (is_rekor_v2 d = true -> integrated_time d = 0%Z /\ signed_entry_timestamp d = []).
Proof.
  unfold parse_bundle. destruct (N.ltb_spec MAX_BUNDLE_BYTES (N.of_nat (length bytes))); [done|].
  intros (json & _ & H')%result_bind_ok. destruct (bool_decide (j_media_type json = MEDIA_TYPE)); cbn [negb] in H'; [|done].
  cbv zeta in H'. set (cert_json := match x509_certificate_chain _ with Some _ => _ | None => _ end) in *.
  destruct cert_json as [|c cert_json']; [done|]. cbn [is_empty] in H'.
  apply result_bind_ok in H' as (tlog & _ & (payload & _ & H')%result_bind_ok).
  destruct (negb (bool_decide (j_payload_type _ = DSSE_PAYLOAD_TYPE)) && _) eqn:Et; [done|].
  destruct (j_signatures (dsse_envelope json)) as [|sig [|]]; [done| |done].
  apply result_bind_ok in H' as (signature & _ & (st & Hst & H')%result_bind_ok).
  destruct (statement_from_slice payload) as [st'|] eqn:Es; [|done]. injection Hst as ->.
  destruct (bool_decide (statement_type st = STATEMENT_TYPE)) eqn:Ey; cbn [negb] in H'; [|done].
  destruct (st_subject st) as [|s ss] eqn:Ess; [done|]. cbn [is_empty] in H'. rewrite <- Ess in H'.
  destruct (forallb _ (st_subject st)) eqn:Ef; cbn [negb] in H'; [|done].
  apply result_bind_ok in H' as (cs & Hcs%decode_all_ok & ([time set] & Ht & (ts & Hts & (key & _ & (body & _ & (path & Hp & [= <-])%result_bind_ok)%result_bind_ok)%result_bind_ok)%result_bind_ok)%result_bind_ok).
  cbn. bool_to_prop. unfold decode_path, read_timestamps in *. split_and!; try done.
  - intros ->. inversion Hcs.
  - by rewrite Ess.
  - intros x Hx. rewrite forallb_forall in Ef. apply Ef. by apply list_elem_of_In.
  - rewrite !elem_of_cons. destruct Et as [Et|Et]; bool_to_prop; auto.
  - clear Hts. case_if; [done|]. bool_to_prop. apply decode_all_ok, Forall2_length in Hp. lia.
  - clear Hp. case_if; [done|]. bool_to_prop. apply decode_all_ok, Forall2_length in Hts. lia.
  - unfold is_rekor_v2. cbn. intros E. unfold signed_time in Ht. rewrite E in Ht. by injection Ht as <- <-.
Qed.

End Parse.
