(* ===== verification/Trust.v ===== *)
(** * Trust material

    The cryptography the updater takes from its libraries, as an interface, and
    [crates/detent-update/src/trust.rs]: the trust root read from PEM texts. A
    certificate is what x509-parser returns of its DER; that parser, the P-256,
    Ed25519 and webpki verifiers, SHA-2, base64 and serde_json are parameters. *)

From Stdlib Require Import ZArith.
From stdpp Require Import list.
From S2P Require Import Prelude Str Disk Utf8 Merkle.
#[local] Open Scope Z_scope.

(** ** Certificates, as parsed *)

Record Sct := mkSct {
  sct_v1 : bool;
  sct_log_id : rbytes;
  sct_timestamp : Z;
  sct_extensions : rbytes;
  hash_alg_id : Z;
  sign_alg_id : Z;
  sct_data : rbytes;
}.

(** An extension: its OID in dots, its bytes, and what of it was parsed. *)
Record Extension := mkExtension {
  oid : rstr;
  ext_value : rbytes;
  ext_scts : option (list Sct);
  ext_key_id : option rbytes;
}.

Record KeyUsage := mkUsage {
  critical : bool;
  time_stamping : bool;
  any_usage : bool;
  server_auth : bool;
  client_auth : bool;
  code_signing : bool;
  email_protection : bool;
  ocsp_signing : bool;
  other_usages : list rbytes;
}.

Record Cert := mkCert {
  tbs_certificate : rbytes;
  signature_value : rbytes;
  spki_der : rbytes;
  key_point : rbytes;
  subject_raw : rbytes;
  issuer_raw : rbytes;
  raw_serial : rbytes;
  validity : Z * Z;
  subject_alternative_name : option (option (list rstr));
  extensions : list Extension;
  extended_key_usage : option (option KeyUsage);
}.

Inductive Algorithm := ECDSA_P256_SHA256 | ECDSA_P384_SHA384 | ECDSA_P384_SHA256 | ECDSA_P256_SHA384.

(** ** The libraries *)

Class Crypto := {
  sha256 : rbytes -> rbytes;
  sha384 : rbytes -> rbytes;
  sha512 : rbytes -> rbytes;
  base64_encode : rbytes -> rstr;
  base64_decode : rbytes -> option rbytes;
  (** x509-parser: a certificate, and a [SubjectPublicKeyInfo] as the bytes after
      it, its algorithm and its key. *)
  x509 : rbytes -> option Cert;
  spki : rbytes -> option (rbytes * rstr * rbytes);
  (** p256. *)
  VerifyingKey : Type;
  key_of_sec1 : rbytes -> option VerifyingKey;
  sec1_point : VerifyingKey -> rbytes;
  Signature : Type;
  signature_of_der : rbytes -> option Signature;
  ecdsa_verify : VerifyingKey -> rbytes -> Signature -> bool;
  (** webpki: a signature under a key, and a chain at a time, whose error may be
      the validity of a certificate. *)
  webpki_verify : Algorithm -> rbytes -> rbytes -> rbytes -> bool;
  ed25519_verify : rbytes -> rbytes -> rbytes -> bool;
  is_anchor : rbytes -> bool;
  is_end_entity : rbytes -> bool;
  verify_for_usage : rbytes -> list rbytes -> list rbytes -> Z -> result bool ();
  (** asn1-rs: a [GeneralizedTime] in UTC, as a Unix timestamp. *)
  utc_time : rbytes -> option Z;
  (** serde_json: the string at a pointer into a document. *)
  Json : Type;
  json_from_slice : rbytes -> option Json;
  pointer_str : Json -> rstr -> option rstr;
}.

(** ** The trust root *)

Record NoteLogKey := mkNoteKey { origin : rstr; nk_key : rbytes; nk_log_id : rbytes; nk_window : Z * Z }.
Record TsaChain := mkTsa { tsa_leaf : rbytes; tsa_root : rbytes; tsa_window : Z * Z }.

Section Root.
Context `{Crypto}.

Record CtLogKey := mkCtLog { ct_log_id : rbytes; ct_key : VerifyingKey }.

Record TrustRoot := mkTrust {
  fulcio_roots : list rbytes;
  rekor_key : VerifyingKey;
  root_windows : list (Z * Z);
  ct_logs : list CtLogKey;
  rekor_v2_keys : list NoteLogKey;
  tsas : list TsaChain;
}.

Definition window_covers (window : Z * Z) (instant : Z) : bool := (window.1 <=? instant) && (instant <=? window.2).

Definition ED25519_OID : rstr := lit "1.3.101.112".
Definition REKOR_V2_ORIGIN : rstr := lit "log2025-1.rekor.sigstore.dev".
Definition REKOR_V2_VALID_FROM : Z := 1758585600.
Definition TSA_VALID_FROM : Z := 1751587200.
Definition I64_MAX : Z := 2 ^ 63 - 1.

Definition Trusted := result VerificationError.
Definition unavailable {A} : Trusted A := Err TrustRootUnavailable.
Definition available {A} (o : option A) : Trusted A := match o with Some a => Ok a | None => unavailable end.

Definition from_spki (origin : rstr) (spki_der : rbytes) (window : Z * Z) : Trusted NoteLogKey :=
  '(rest, algorithm, key) ← available (spki spki_der);
  if negb (is_empty rest) || negb (bool_decide (algorithm = ED25519_OID)) then unavailable
  else if negb (length key =? 32)%nat then unavailable
  else Ok (mkNoteKey origin key (sha256 (as_bytes origin ++ [10%N; 1%N] ++ key)) window).

Definition spki_to_p256 (spki_der : rbytes) : Trusted VerifyingKey :=
  '(_, _, point) ← available (spki spki_der);
  available (key_of_sec1 point).

(** [pems]: the lines outside a block, and inside one whose text so far is
    given. *)
Definition BEGIN : rstr := lit "-----BEGIN ".
Definition END : rstr := lit "-----END ".
Definition DASHES : rstr := lit "-----".

Definition strip_suffix_str (pat s : rstr) : option rstr :=
  if ends pat s then Some (take (length s - length pat) s) else None.

Fixpoint pem_lines (label : rstr) (body : option rstr) (lines : list rstr) : Trusted (list rbytes) :=
  match body, lines with
  | None, [] => mret []
  | Some body, [] => b ← available (base64_decode (as_bytes body)); mret [b]
  | None, line :: lines =>
      match strip_prefix_str BEGIN line with
      | None => pem_lines label None lines
      | Some rest =>
          begin_label ← available (strip_suffix_str DASHES rest);
          if bool_decide (begin_label = label) then pem_lines label (Some []) lines else pem_lines label None lines
      end
  | Some body, line :: lines =>
      match strip_prefix_str END line with
      | Some rest =>
          if negb (bool_decide (trim (trim_end_matches (N.eqb 45) rest) = label)) then unavailable
          else
            b ← available (base64_decode (as_bytes body));
            out ← pem_lines label None lines;
            mret (b :: out)
      | None => pem_lines label (Some (body ++ trim line)) lines
      end
  end.

Definition pems (text label : rstr) : Trusted (list rbytes) := pem_lines label None (Utf8.lines text).

Definition pem_body (text : rbytes) (label : rstr) : option rbytes :=
  text ← from_utf8 text;
  match pems text label with Ok (b :: _) => Some b | _ => None end.

Definition CERTIFICATE : rstr := lit "CERTIFICATE".
Definition PUBLIC_KEY : rstr := lit "PUBLIC KEY".

Definition read_rekor_v2_keys (pem origin : rstr) (window : Z * Z) : Trusted (list NoteLogKey) :=
  ders ← pems pem PUBLIC_KEY;
  match ders with [der] => key ← from_spki origin der window; mret [key] | _ => unavailable end.

Definition read_tsas (pem : rstr) (window : Z * Z) : Trusted (list TsaChain) :=
  ders ← pems pem CERTIFICATE;
  match ders with
  | [leaf; root] =>
      _ ← available (x509 leaf);
      _ ← available (x509 root);
      mret [mkTsa leaf root window]
  | _ => unavailable
  end.

Fixpoint each_trusted {A B} (f : A -> Trusted B) (l : list A) : Trusted (list B) :=
  match l with [] => mret [] | a :: l => b ← f a; bs ← each_trusted f l; mret (b :: bs) end.

Definition ct_log_of (spki_der : rbytes) : Trusted CtLogKey := key ← spki_to_p256 spki_der; mret (mkCtLog (sha256 spki_der) key).

(** The PEM files that are compiled in are [rekor_v2_pem] and [tsa_pem] here. *)
Definition from_pems_with_ct (fulcio_pem rekor_pem ct_pem rekor_v2_pem tsa_pem : rstr) : Trusted TrustRoot :=
  fulcio_roots ← pems fulcio_pem CERTIFICATE;
  if is_empty fulcio_roots then unavailable
  else
    root_windows ← each_trusted (fun root => cert ← available (x509 root); mret (validity cert)) fulcio_roots;
    spkis ← pems rekor_pem PUBLIC_KEY;
    rekor_spki ← available (head spkis);
    rekor_key ← spki_to_p256 rekor_spki;
    ct_spkis ← pems ct_pem PUBLIC_KEY;
    ct_logs ← each_trusted ct_log_of ct_spkis;
    if is_empty ct_logs then unavailable
    else
      v2 ← read_rekor_v2_keys rekor_v2_pem REKOR_V2_ORIGIN (REKOR_V2_VALID_FROM, I64_MAX);
      tsas ← read_tsas tsa_pem (TSA_VALID_FROM, I64_MAX);
      mret (mkTrust fulcio_roots rekor_key root_windows ct_logs v2 tsas).

End Root.
