(* ===== verification/Tsa.v ===== *)
(** * RFC 3161 timestamps

    [crates/detent-update/src/tsa.rs]: a timestamp response read with a cursor
    over DER, and what a verified one shows: the authority's key signed attributes
    that carry the digest of the timestamp information, which carries the digest
    of the signed bytes and the time. *)

From Stdlib Require Import ZArith NArith.
From stdpp Require Import list.
From S2P Require Import Prelude Str Disk Merkle Der Trust.
#[local] Open Scope N_scope.

(** ** The cursor *)

Definition Cursor (A : Type) : Type := rbytes -> option (A * rbytes).

#[export] Instance cursor_ret : MRet Cursor := fun _ a der => Some (a, der).
#[export] Instance cursor_bind : MBind Cursor := fun _ _ f m der =>
  match m der with Some (a, der) => f a der | None => None end.

Definition lift {A} (o : option A) : Cursor A := fun der => (fun a => (a, der)) <$> o.
Definition require (b : bool) : Cursor () := lift (if b then Some () else None).

(** A cursor of its own over [bytes]. *)
Definition within {A} (bytes : rbytes) (m : Cursor A) : option A := fst <$> m bytes.

Definition next : Cursor (N * rbytes * rbytes) := fun der =>
  '(tag, content, rest) ← der_tlv der;
  if N.land tag 31 =? 31 then None else Some ((tag, content, take (length der - length rest) der), rest).

Definition expect (tag : N) : Cursor rbytes :=
  '(found, content, _) ← next;
  _ ← require (found =? tag);
  mret content.

Definition skip_optional (tag : N) : Cursor () := fun der =>
  match der with
  | t :: _ => if t =? tag then (_ ← next; mret ()) der else Some ((), der)
  | [] => Some ((), der)
  end.

Definition end_ : Cursor () := fun der => if is_empty der then Some ((), der) else None.

Definition single (bytes : rbytes) (tag : N) : option rbytes := within bytes (content ← expect tag; _ ← end_; mret content).

Definition peek : Cursor (option N) := fun der => Some (head der, der).

(** *** What a cursor that succeeds did *)

Lemma cursor_bind_some {A B} (m : Cursor A) (f : A -> Cursor B) der b rest :
  (m ≫= f) der = Some (b, rest) <-> exists a der', m der = Some (a, der') /\ f a der' = Some (b, rest).
Proof. unfold mbind, cursor_bind. destruct (m der) as [[a der']|]; split; naive_solver. Qed.

Lemma cursor_ret_some {A} (a b : A) der rest : (mret a : Cursor A) der = Some (b, rest) <-> a = b /\ der = rest.
Proof. unfold mret, cursor_ret. split; [by intros [= -> ->]|by intros [-> ->]]. Qed.

Lemma lift_some {A} (o : option A) der a rest : lift o der = Some (a, rest) <-> o = Some a /\ der = rest.
Proof. unfold lift. destruct o; simpl; split; naive_solver. Qed.

Lemma require_some b der u rest : require b der = Some (u, rest) <-> b = true /\ der = rest.
Proof. unfold require. rewrite lift_some. destruct b, u; naive_solver. Qed.

Lemma within_some {A} bytes (m : Cursor A) a : within bytes m = Some a <-> exists rest, m bytes = Some (a, rest).
Proof. unfold within. destruct (m bytes) as [[]|]; simpl; split; naive_solver. Qed.

(** Take apart the hypotheses that say a cursor succeeded. *)
Ltac cursor_inv :=
  repeat match goal with
  | Hc : within _ _ = Some _ |- _ => apply within_some in Hc as [? Hc]
  | Hc : lift _ _ = Some _ |- _ => apply lift_some in Hc as [Hc <-]
  | Hc : require _ _ = Some _ |- _ => apply require_some in Hc as [Hc <-]
  | Hc : mret _ _ = Some _ |- _ => apply cursor_ret_some in Hc as [<- <-]
  | Hc : (_ ≫= _) _ = Some _ |- _ => apply cursor_bind_some in Hc as (? & ? & ? & Hc)
  | Hc : (_ ≫= _) = Some _ |- _ => apply bind_Some in Hc as (? & ? & Hc)
  | Hc : (match ?p with (_, _) => _ end) _ = Some _ |- _ => destruct p
  | Hc : (match ?p with (_, _) => _ end) = Some _ |- _ => destruct p
  | Hc : bool_decide _ = true |- _ => apply bool_decide_eq_true in Hc
  end; simplify_eq.

(** ** Tags and identifiers *)

Definition SEQUENCE : N := 48.
Definition SET : N := 49.
Definition INTEGER : N := 2.
Definition OCTET_STRING : N := 4.
Definition NULL : N := 5.
Definition OID : N := 6.
Definition GENERALIZED_TIME : N := 24.
Definition CONTEXT_0 : N := 160.
Definition CONTEXT_1 : N := 161.
Definition CONTEXT_0_PRIMITIVE : N := 128.

Definition OID_SIGNED_DATA : rbytes := [42; 134; 72; 134; 247; 13; 1; 7; 2].
Definition OID_TST_INFO : rbytes := [42; 134; 72; 134; 247; 13; 1; 9; 16; 1; 4].
Definition OID_CONTENT_TYPE : rbytes := [42; 134; 72; 134; 247; 13; 1; 9; 3].
Definition OID_MESSAGE_DIGEST : rbytes := [42; 134; 72; 134; 247; 13; 1; 9; 4].
Definition OID_SIGNING_CERTIFICATE : rbytes := [42; 134; 72; 134; 247; 13; 1; 9; 16; 2; 12].
Definition OID_SIGNING_CERTIFICATE_V2 : rbytes := [42; 134; 72; 134; 247; 13; 1; 9; 16; 2; 47].
Definition OID_SHA256 : rbytes := [96; 134; 72; 1; 101; 3; 4; 2; 1].
Definition OID_SHA384 : rbytes := [96; 134; 72; 1; 101; 3; 4; 2; 2].
Definition OID_SHA512 : rbytes := [96; 134; 72; 1; 101; 3; 4; 2; 3].
Definition OID_ECDSA_SHA256 : rbytes := [42; 134; 72; 206; 61; 4; 3; 2].
Definition OID_ECDSA_SHA384 : rbytes := [42; 134; 72; 206; 61; 4; 3; 3].
Definition MAX_TIMESTAMP_BYTES : nat := 16384.

Inductive Hash := Sha256 | Sha384 | Sha512.

Section Tsa.
Context `{Crypto}.

Definition digest (h : Hash) (data : rbytes) : rbytes :=
  match h with Sha256 => sha256 data | Sha384 => sha384 data | Sha512 => sha512 data end.

(** The parameters of an algorithm: none, or an empty [NULL]. *)
Definition optional_null : Cursor () := fun der =>
  if is_empty der then Some ((), der) else (null ← expect NULL; require (is_empty null)) der.

Definition hash_algorithm (identifier : rbytes) : option Hash :=
  within identifier (
    name ← expect OID;
    hash ← lift (if bool_decide (name = OID_SHA256) then Some Sha256
                 else if bool_decide (name = OID_SHA384) then Some Sha384
                 else if bool_decide (name = OID_SHA512) then Some Sha512
                 else None);
    _ ← optional_null;
    _ ← end_;
    mret hash).

(** [generalized_time]: UTC, with whole seconds or a fraction after a point. *)
Definition generalized_time (content : rbytes) : option Z :=
  if negb (bool_decide (content !! 14%nat = Some 46) || bool_decide (content !! 14%nat = Some 90)) || existsb (N.eqb 44) content then None
  else utc_time content.

Definition check_tst_info (tst_info signed_bytes : rbytes) : option Z :=
  inner ← single tst_info SEQUENCE;
  within inner (
    _ ← expect INTEGER;
    _ ← expect OID;
    imprint ← expect SEQUENCE;
    _ ← lift (within imprint (
          algorithm ← expect SEQUENCE;
          hash ← lift (hash_algorithm algorithm);
          hashed_message ← expect OCTET_STRING;
          _ ← end_;
          require (bool_decide (digest hash signed_bytes = hashed_message))));
    _ ← expect INTEGER;
    time ← expect GENERALIZED_TIME;
    lift (generalized_time time)).

Definition check_ess_cert_id_v2 (values : rbytes) (tsa : TsaChain) : option () :=
  signing_certificate ← single values SEQUENCE;
  certs ← within signing_certificate (expect SEQUENCE);
  cert_id ← within certs (expect SEQUENCE);
  within cert_id (
    first ← peek;
    hash ← (if bool_decide (first = Some SEQUENCE) then algorithm ← expect SEQUENCE; lift (hash_algorithm algorithm) else mret Sha256);
    cert_hash ← expect OCTET_STRING;
    require (bool_decide (digest hash (tsa_leaf tsa) = cert_hash))).

(** The attributes found so far: the values of three kinds. *)
Record Attributes := mkAttributes { content_type : option rbytes; message_digest : option rbytes; signing_certificate : option rbytes }.

(** The loop takes a TLV, so two bytes at least, off the attributes each time;
    the fuel is their length. *)
Fixpoint read_attributes (fuel : nat) (attributes : rbytes) (found : Attributes) : option Attributes :=
  match attributes, fuel with
  | [], _ => Some found
  | _, O => None
  | _, S fuel =>
      '(attribute, rest) ← expect SEQUENCE attributes;
      '(name, values) ← within attribute (name ← expect OID; values ← expect SET; _ ← end_; mret (name, values));
      if bool_decide (name = OID_CONTENT_TYPE) then
        match content_type found with
        | Some _ => None
        | None => read_attributes fuel rest (mkAttributes (Some values) (message_digest found) (signing_certificate found))
        end
      else if bool_decide (name = OID_MESSAGE_DIGEST) then
        match message_digest found with
        | Some _ => None
        | None => read_attributes fuel rest (mkAttributes (content_type found) (Some values) (signing_certificate found))
        end
      else if bool_decide (name = OID_SIGNING_CERTIFICATE_V2) then
        match signing_certificate found with
        | Some _ => None
        | None => read_attributes fuel rest (mkAttributes (content_type found) (message_digest found) (Some values))
        end
      else if bool_decide (name = OID_SIGNING_CERTIFICATE) then None
      else read_attributes fuel rest found
  end.

Definition check_signed_attributes (attributes : rbytes) (hash : Hash) (tst_info : rbytes) (tsa : TsaChain) : option () :=
  found ← read_attributes (length attributes) attributes (mkAttributes None None None);
  values ← content_type found;
  kind ← single values OID;
  if negb (bool_decide (kind = OID_TST_INFO)) then None
  else
    values ← message_digest found;
    stated ← single values OCTET_STRING;
    if negb (bool_decide (stated = digest hash tst_info)) then None
    else match signing_certificate found with Some values => check_ess_cert_id_v2 values tsa | None => Some () end.

(** The two algorithms a signature algorithm identifier stands for. *)
Definition algorithms_of (name : rbytes) : option (list Algorithm) :=
  if bool_decide (name = OID_ECDSA_SHA256) then Some [ECDSA_P256_SHA256; ECDSA_P384_SHA256]
  else if bool_decide (name = OID_ECDSA_SHA384) then Some [ECDSA_P256_SHA384; ECDSA_P384_SHA384]
  else None.

Definition names_leaf (leaf : Cert) : Cursor () :=
  version ← expect INTEGER;
  if bool_decide (version = [1]) then
    sid ← expect SEQUENCE;
    lift (within sid (
      '(_, _, issuer) ← next;
      serial ← expect INTEGER;
      _ ← end_;
      require (bool_decide (issuer = issuer_raw leaf) && bool_decide (serial = raw_serial leaf))))
  else if bool_decide (version = [3]) then
    key_id ← expect CONTEXT_0_PRIMITIVE;
    require (existsb (fun extension => bool_decide (ext_key_id extension = Some key_id)) (extensions leaf))
  else lift None.

Definition check_signer_info (signer_info tst_info : rbytes) (leaf : Cert) (tsa : TsaChain) : option () :=
  within signer_info (
    _ ← names_leaf leaf;
    algorithm ← expect SEQUENCE;
    hash ← lift (hash_algorithm algorithm);
    '(attributes_tag, attributes, attributes_whole) ← next;
    _ ← require (attributes_tag =? CONTEXT_0);
    signature_algorithm ← expect SEQUENCE;
    name ← lift (within signature_algorithm (name ← expect OID; _ ← end_; mret name));
    signature ← expect OCTET_STRING;
    _ ← skip_optional CONTEXT_1;
    _ ← end_;
    _ ← lift (check_signed_attributes attributes hash tst_info tsa);
    signed ← lift (match attributes_whole with _ :: whole => Some (SET :: whole) | [] => None end);
    algorithms ← lift (algorithms_of name);
    require (existsb (fun algorithm => webpki_verify algorithm (key_point leaf) signed signature) algorithms)).

Definition check_leaf_usage (leaf : Cert) : option () :=
  match extended_key_usage leaf with
  | Some (Some eku) =>
      if critical eku && time_stamping eku && negb (any_usage eku) && negb (server_auth eku) && negb (client_auth eku)
         && negb (code_signing eku) && negb (email_protection eku) && negb (ocsp_signing eku) && is_empty (other_usages eku)
      then Some () else None
  | _ => None
  end.

(** The token of a response that was granted. *)
Definition token_of (signed_timestamp : rbytes) : option rbytes :=
  response ← single signed_timestamp SEQUENCE;
  within response (
    status ← expect SEQUENCE;
    granted ← lift (within status (expect INTEGER));
    _ ← require (bool_decide (granted = [0]));
    token ← expect SEQUENCE;
    _ ← end_;
    mret token).

(** The timestamp information and the signer of a token. *)
Definition signed_data_of (token : rbytes) : option (rbytes * rbytes) :=
  content ← within token (
    kind ← expect OID;
    _ ← require (bool_decide (kind = OID_SIGNED_DATA));
    content ← expect CONTEXT_0;
    signed_data ← lift (single content SEQUENCE);
    _ ← end_;
    mret signed_data);
  within content (
    _ ← expect INTEGER;
    _ ← expect SET;
    encapsulated ← expect SEQUENCE;
    tst_info ← lift (within encapsulated (
      kind ← expect OID;
      _ ← require (bool_decide (kind = OID_TST_INFO));
      content ← expect CONTEXT_0;
      tst_info ← lift (single content OCTET_STRING);
      _ ← end_;
      mret tst_info));
    _ ← skip_optional CONTEXT_0;
    _ ← skip_optional CONTEXT_1;
    signers ← expect SET;
    signer_info ← lift (single signers SEQUENCE);
    _ ← end_;
    mret (tst_info, signer_info)).

Definition check_timestamp (signed_timestamp signed_bytes : rbytes) (tsa : TsaChain) : option Z :=
  leaf ← x509 (tsa_leaf tsa);
  token ← token_of signed_timestamp;
  '(tst_info, signer_info) ← signed_data_of token;
  gen_time ← check_tst_info tst_info signed_bytes;
  _ ← check_signer_info signer_info tst_info leaf tsa;
  _ ← check_leaf_usage leaf;
  if window_covers (tsa_window tsa) gen_time && window_covers (validity leaf) gen_time then Some gen_time else None.

Definition verify_timestamp (signed_timestamp signed_bytes : rbytes) (tsa : TsaChain) : result VerificationError Z :=
  if (MAX_TIMESTAMP_BYTES <? length signed_timestamp)%nat then Err TimestampInvalid
  else match check_timestamp signed_timestamp signed_bytes tsa with Some t => Ok t | None => Err TimestampInvalid end.

(** ** What a verified timestamp shows *)

(** The imprint a timestamp information carries: a hash algorithm, the hash of
    the message under it, and the time stated after it. *)
Lemma tst_info_imprint tst_info signed_bytes t :
  check_tst_info tst_info signed_bytes = Some t ->
  exists hash, forall other u, check_tst_info tst_info other = Some u -> u = t /\ digest hash other = digest hash signed_bytes.
Proof.
  intros Ht. unfold check_tst_info in *. cursor_inv. match goal with Hh : hash_algorithm _ = Some ?h |- _ => exists h end.
  intros other u Hu. cursor_inv. by split.
Qed.

Lemma attributes_digest attributes hash tst_info tsa :
  check_signed_attributes attributes hash tst_info tsa = Some () ->
  exists found values, read_attributes (length attributes) attributes (mkAttributes None None None) = Some found
    /\ message_digest found = Some values /\ single values OCTET_STRING = Some (digest hash tst_info).
Proof.
  unfold check_signed_attributes. intros Hc. cursor_inv. destruct (negb _); [done|]. cursor_inv. destruct (negb (bool_decide _)) eqn:E; [done|].
  apply negb_false_iff, bool_decide_eq_true in E as ->. eauto.
Qed.

(** The signature is over the attributes as they stand, re-tagged. *)
Lemma signer_info_signed signer_info tst_info leaf tsa :
  check_signer_info signer_info tst_info leaf tsa = Some () ->
  exists hash header attributes algorithm signature,
    check_signed_attributes attributes hash tst_info tsa = Some ()
    /\ webpki_verify algorithm (key_point leaf) (SET :: header ++ attributes) signature = true
    /\ der_tlv (CONTEXT_0 :: header ++ attributes) = Some (CONTEXT_0, attributes, []).
Proof.
  unfold check_signer_info. intros Hc. cursor_inv. rename select (next _ = _) into Hn. unfold next in Hn. cursor_inv.
  destruct (N.land _ 31 =? 31) eqn:E31; [done|]. simplify_eq. rename select (der_tlv _ = _) into Hd.
  apply der_tlv_split in Hd as (header & -> & Hd). specialize (Hd []). rewrite app_nil_r in Hd.
  match goal with Hs : match take ?k ?l with _ => _ end = Some _ |- _ =>
    replace (take k l) with (n :: header ++ l0) in Hs by
      (rewrite (app_assoc header), (app_comm_cons (header ++ l0)), length_app, Nat.add_sub, take_app_length; done) end.
  simplify_eq. match goal with Hx : existsb _ _ = true |- _ => apply existsb_exists in Hx as (algorithm & _ & Hv) end.
  match goal with Ht : (n =? CONTEXT_0) = true |- _ => apply N.eqb_eq in Ht as -> end.
  match goal with Hs : check_signed_attributes _ ?h _ _ = Some ?u |- _ => destruct u; exists h, header, l0, algorithm end. eauto.
Qed.

Lemma verify_timestamp_ok token message tsa t :
  verify_timestamp token message tsa = Ok t ->
  (length token <= MAX_TIMESTAMP_BYTES)%nat
  /\ exists leaf inner tst_info signer_info, x509 (tsa_leaf tsa) = Some leaf /\ token_of token = Some inner
      /\ signed_data_of inner = Some (tst_info, signer_info) /\ check_tst_info tst_info message = Some t
      /\ check_signer_info signer_info tst_info leaf tsa = Some () /\ check_leaf_usage leaf = Some ()
      /\ window_covers (tsa_window tsa) t = true /\ window_covers (validity leaf) t = true.
Proof.
  unfold verify_timestamp. case_if; [done|]. bool_to_prop. destruct (check_timestamp token message tsa) as [t'|] eqn:E; [|done]. intros [= ->].
  unfold check_timestamp in E. cursor_inv. destruct (window_covers _ _ && _) eqn:Ew; [|done]. simplify_eq. bool_to_prop.
  rename select (check_signer_info _ _ _ _ = Some _) into Hi. rename select (check_leaf_usage _ = Some _) into Hu.
  match type of Hi with _ = Some ?u => destruct u end. match type of Hu with _ = Some ?u => destruct u end. eauto 15.
Qed.

(** A verified timestamp speaks of one message and one time, and the authority
    signed it: under the key of its leaf, whose usage is time stamping alone and
    whose window and the authority's cover the time, is a signature over
    attributes that state the digest of the timestamp information; that
    information states the time, and the digest of the message, so that another
    message under the same token has the same digest and the same time. *)
Theorem timestamp_sound token message tsa t :
  verify_timestamp token message tsa = Ok t ->
  (length token <= MAX_TIMESTAMP_BYTES)%nat
  /\ (exists leaf tst_info hash header attributes algorithm signature found values,
        x509 (tsa_leaf tsa) = Some leaf /\ check_leaf_usage leaf = Some ()
        /\ window_covers (tsa_window tsa) t = true /\ window_covers (validity leaf) t = true
        /\ webpki_verify algorithm (key_point leaf) (SET :: header ++ attributes) signature = true
        /\ read_attributes (length attributes) attributes (mkAttributes None None None) = Some found
        /\ message_digest found = Some values /\ single values OCTET_STRING = Some (digest hash tst_info)
        /\ check_tst_info tst_info message = Some t)
  /\ exists hash, forall other u, verify_timestamp token other tsa = Ok u -> u = t /\ digest hash other = digest hash message.
Proof.
  intros (Hl & leaf & inner & tst_info & signer & Hx & Hi & Hd & Ht & Hs & Hu & Hw & Hv)%verify_timestamp_ok. split; [done|].
  apply signer_info_signed in Hs as (hash & header & attributes & algorithm & signature & (found & values & ? & ? & ?)%attributes_digest & ? & _).
  split; [by exists leaf, tst_info, hash, header, attributes, algorithm, signature, found, values|].
  destruct (tst_info_imprint _ _ _ Ht) as [h Hh]. exists h.
  intros other u (_ & leaf' & inner' & tst' & signer' & _ & Hi' & Hd' & Ht' & _)%verify_timestamp_ok.
  assert (inner' = inner) as -> by congruence. assert (tst' = tst_info) as -> by congruence. by apply Hh.
Qed.

End Tsa.
