(* ===== verification/Verify.v ===== *)
(** * The verification of a release bundle

    [crates/detent-update/src/verify.rs]: the ordered steps that accept or refuse
    a bundle, with the checkpoint of the log and the text that is signed. A
    function that can stop the program (through [root_from_path]) is [Fallible];
    the others return a [result]. *)

From Stdlib Require Import ZArith NArith String.
From stdpp Require Import list.
From S2P Require Import Prelude Str Num Ip Disk Utf8 Merkle Der Bundle Trust Tsa.
#[local] Open Scope Z_scope.

Definition ISSUER : rstr := lit "https://token.actions.githubusercontent.com".
Definition ISSUER_OID : rstr := lit "1.3.6.1.4.1.57264.1.1".
Definition ISSUER_V2_OID : rstr := lit "1.3.6.1.4.1.57264.1.8".
Definition BUILD_SIGNER_URI_OID : rstr := lit "1.3.6.1.4.1.57264.1.9".
Definition SCT_LIST_OID : rstr := lit "1.3.6.1.4.1.11129.2.4.2".

Definition pinned_identity (tag : rstr) : rstr :=
  lit "https://github.com/jauderho/detent/.github/workflows/release.yml@refs/tags/" ++ tag.

(** A text of the source, with its double quotes written as apostrophes. *)
Definition quoted (s : string) : rstr := (fun c => if (c =? 39)%N then 34%N else c) <$> lit s.

(** The number of bytes, in decimal. *)
Definition show_len (b : rbytes) : rstr := show_dec (Z.of_nat (length b)).

(** The DSSE pre-authentication encoding. *)
Definition dsse_pae (payload_type payload : rbytes) : rbytes :=
  lit "DSSEv1 " ++ as_bytes (show_len payload_type) ++ [SPACE] ++ payload_type
  ++ [SPACE] ++ as_bytes (show_len payload) ++ [SPACE] ++ payload.

(** *** What a PAE binds *)

Definition dec_value (s : rstr) : Z := foldl (fun v c => 10 * v + (Z.of_N c - 48)) 0 s.

Lemma dec_value_shift s v : foldl (fun v c => 10 * v + (Z.of_N c - 48)) v s = v * 10 ^ Z.of_nat (length s) + dec_value s.
Proof.
  unfold dec_value. revert v. induction s as [|c s IH]; intros v; cbn [foldl length].
  - rewrite Z.pow_0_r. lia.
  - rewrite IH, (IH (10 * 0 + _)), Nat2Z.inj_succ, Z.pow_succ_r by lia. ring.
Qed.

Lemma digit_char_value d : 0 <= d < 10 -> Z.of_N (digit_char d) - 48 = d /\ is_ascii_digit (digit_char d) = true.
Proof.
  intros Hd. unfold digit_char. rewrite (proj2 (Z.ltb_lt d 10)) by lia. unfold is_ascii_digit. rewrite Z2N.id by lia. split; [lia|].
  apply andb_true_iff. split; apply N.leb_le; lia.
Qed.

Lemma show_digits_value fuel : forall n acc, 0 <= n < 10 ^ Z.of_nat fuel -> forallb is_ascii_digit acc = true ->
  dec_value (show_digits fuel 10 n acc) = n * 10 ^ Z.of_nat (length acc) + dec_value acc
  /\ forallb is_ascii_digit (show_digits fuel 10 n acc) = true.
Proof.
  induction fuel as [|fuel IH]; intros n acc Hn Ha; cbn [show_digits].
  - rewrite Z.pow_0_r in Hn. replace n with 0 by lia. split; [lia|done].
  - rewrite Nat2Z.inj_succ, Z.pow_succ_r in Hn by lia. pose proof (Z.div_mod n 10 ltac:(lia)) as Hd. pose proof (Z.mod_pos_bound n 10 ltac:(lia)).
    destruct (digit_char_value (n mod 10)) as [Hv Hc]; [lia|].
    assert (forallb is_ascii_digit (digit_char (n mod 10) :: acc) = true) as Ha' by (cbn [forallb]; by rewrite Hc).
    assert (dec_value (digit_char (n mod 10) :: acc) = n mod 10 * 10 ^ Z.of_nat (length acc) + dec_value acc) as Ed.
    { unfold dec_value at 1. cbn [foldl]. rewrite dec_value_shift. rewrite Hv. ring. }
    destruct (n / 10 =? 0) eqn:E; bool_to_prop.
    + split; [|done]. rewrite Ed, E in *. replace n with (n mod 10) at 2 by lia. done.
    + destruct (IH (n / 10) _ ltac:(pose proof (Z.div_pos n 10); pose proof (Z.div_lt_upper_bound n 10 (10 ^ Z.of_nat fuel)); lia) Ha') as [-> ?].
      split; [|done]. rewrite Ed. cbn [length]. rewrite Nat2Z.inj_succ, Z.pow_succ_r by lia. transitivity ((10 * (n / 10) + n mod 10) * 10 ^ Z.of_nat (length acc) + dec_value acc); [ring|by rewrite <- Hd].
Qed.

Lemma show_dec_value n : 0 <= n < 2 ^ 64 -> dec_value (show_dec n) = n /\ forallb is_ascii_digit (show_dec n) = true.
Proof. intros Hn. destruct (show_digits_value 64 n []) as [Hv ?]; [lia|done|]. split; [|done]. unfold show_dec. rewrite Hv. cbn. lia. Qed.

(** Digits are their own bytes, and hold no space. *)
Lemma digits_bytes s : forallb is_ascii_digit s = true -> as_bytes s = s /\ SPACE ∉ s.
Proof.
  induction s as [|c s IH]; cbn [forallb]; [split; [done|apply not_elem_of_nil]|]. intros [Hc Hs]%andb_true_iff. destruct (IH Hs) as [E Hn].
  unfold is_ascii_digit in Hc. bool_to_prop. split.
  - unfold as_bytes in *. rewrite bytes_cons, utf8_ascii by lia. cbn. rewrite E. f_equal. lia.
  - apply not_elem_of_cons. split; [unfold SPACE; lia|done].
Qed.

Lemma at_space (a b x y : rbytes) : SPACE ∉ a -> SPACE ∉ b -> a ++ [SPACE] ++ x = b ++ [SPACE] ++ y -> a = b /\ x = y.
Proof.
  revert b. induction a as [|c a IH]; intros [|d b] Ha Hb E; cbn in *.
  - by injection E.
  - injection E as <- _. set_solver.
  - injection E as -> _. set_solver.
  - injection E as -> E. apply not_elem_of_cons in Ha as [_ Ha]. apply not_elem_of_cons in Hb as [_ Hb]. by destruct (IH b Ha Hb E) as [-> ->].
Qed.

(** A length in decimal, a space, that many bytes: read in one way. *)
Lemma counted_inj (a b x y : rbytes) : Z.of_nat (length a) < 2 ^ 64 -> Z.of_nat (length b) < 2 ^ 64 ->
  as_bytes (show_len a) ++ [SPACE] ++ a ++ x = as_bytes (show_len b) ++ [SPACE] ++ b ++ y -> a = b /\ x = y.
Proof.
  intros Ha Hb E. unfold show_len in E. destruct (show_dec_value (Z.of_nat (length a))) as [Va Da]; [lia|].
  destruct (show_dec_value (Z.of_nat (length b))) as [Vb Db]; [lia|].
  destruct (digits_bytes _ Da) as [Ea Sa], (digits_bytes _ Db) as [Eb Sb]. rewrite Ea, Eb in E.
  apply at_space in E as [En E]; [|done..]. apply app_inj_1; [|done]. apply Nat2Z.inj. by rewrite <- Va, <- Vb, En.
Qed.

(** The signed text says of which type and which payload it is: two envelopes
    with one pre-authentication encoding are the same. *)
Theorem dsse_pae_inj type payload type' payload' :
  Z.of_nat (length type) < 2 ^ 64 -> Z.of_nat (length type') < 2 ^ 64 ->
  Z.of_nat (length payload) < 2 ^ 64 -> Z.of_nat (length payload') < 2 ^ 64 ->
  dsse_pae type payload = dsse_pae type' payload' -> type = type' /\ payload = payload'.
Proof.
  intros Ht Ht' Hp Hp' E. unfold dsse_pae in E. apply app_inv_head in E. apply counted_inj in E as [-> E]; [|done..]. split; [done|].
  injection E as E. rewrite <- (app_nil_r payload), <- (app_nil_r payload') in E at 2. by apply counted_inj in E as [-> _].
Qed.

(** [char::from_digit] of the two halves of each byte. *)
Definition hex_lower (bytes : rbytes) : rstr :=
  concat ((fun b => [digit_char (Z.of_N (N.shiftr b 4)); digit_char (Z.of_N (N.land b 15))]) <$> bytes).

Definition split_terminator (s : rstr) : list rstr :=
  let parts := split (N.eqb LF) s in
  if bool_decide (last parts = Some []) then take (length parts - 1) parts else parts.

(** The steps of a loop of checks. *)
Fixpoint check_each {A} (f : A -> result VerificationError ()) (l : list A) : result VerificationError () :=
  match l with [] => mret () | a :: l => _ ← f a; check_each f l end.

Definition NOTE_SIGNATURE_PREFIX : rstr := [8212%N; SPACE].

Definition P256_SPKI_PREFIX : rbytes :=
  [48; 89; 48; 19; 6; 7; 42; 134; 72; 206; 61; 2; 1; 6; 8; 42; 134; 72; 206; 61; 3; 1; 7; 3; 66; 0]%N.

Section Verify.
Context `{Crypto}.

Definition Verified := result VerificationError.
Definition ok_or {A} (e : VerificationError) (o : option A) : Verified A := match o with Some a => Ok a | None => Err e end.
Definition ensure (e : VerificationError) (b : bool) : Verified () := if b then Ok () else Err e.

(** ** Times, chain, identity *)

Definition times_of (d : Decoded) (trust : TrustRoot) : Verified (list Z) :=
  (fix stamps (tokens : list rbytes) (times : list Z) : Verified (list Z) :=
     match tokens with
     | [] => if is_empty times then Err TimestampInvalid else Ok times
     | token :: tokens =>
         time ← ok_or TimestampInvalid
           (head (omap (fun tsa => match verify_timestamp token (dsse_signature d) tsa with Ok t => Some t | Err _ => None end) (tsas trust)));
         stamps tokens (times ++ [time])
     end) (rfc3161_timestamps d) (if is_rekor_v2 d then [] else [integrated_time d]).

Definition usable_roots (trust : TrustRoot) (time : Z) : list rbytes :=
  fst <$> List.filter (fun p => window_covers p.2 time) (combine (fulcio_roots trust) (root_windows trust)).

Definition verify_chain_at (d : Decoded) (trust : TrustRoot) (time : Z) : Verified () :=
  let roots := usable_roots trust time in
  if is_empty roots then Err TrustRootUnavailable
  else
    _ ← ensure CertChainInvalid (forallb is_anchor roots);
    match certs d with
    | [] => Err CertChainInvalid
    | leaf :: intermediates =>
        _ ← ensure CertChainInvalid (is_end_entity leaf);
        match verify_for_usage leaf roots intermediates (Z.max time 0) with
        | Ok _ => Ok ()
        | Err validity => Err (if validity then CertExpired else CertChainInvalid)
        end
    end.

Definition has_extension (leaf : Cert) (name : rstr) (p : rbytes -> bool) : bool :=
  existsb (fun e => bool_decide (oid e = name) && p (ext_value e)) (extensions leaf).

Definition build_signer_is (leaf : Cert) (pinned : rstr) : bool :=
  has_extension leaf BUILD_SIGNER_URI_OID (fun value => bool_decide (der_utf8_string value = Some (as_bytes pinned))).

Definition check_identity (leaf : Cert) (pinned : rstr) : Verified () :=
  san ← ok_or CertChainInvalid (subject_alternative_name leaf);
  let san_matches := match san with Some uris => bool_decide (pinned ∈ uris) | None => false end in
  _ ← ensure IdentityMismatch (san_matches || build_signer_is leaf pinned);
  ensure IssuerMismatch
    (has_extension leaf ISSUER_V2_OID (fun value => bool_decide (der_utf8_string value = Some (as_bytes ISSUER)))
     || has_extension leaf ISSUER_OID (fun value => bool_decide (value = as_bytes ISSUER))).

(** ** Signed certificate timestamps *)

Definition issued_by (leaf : Cert) (der : rbytes) : option rbytes :=
  cert ← x509 der;
  if bool_decide (subject_raw cert = issuer_raw leaf)
     && existsb (fun algorithm => webpki_verify algorithm (key_point cert) (tbs_certificate leaf) (signature_value leaf))
          [ECDSA_P256_SHA256; ECDSA_P384_SHA384]
  then Some (spki_der cert) else None.

Definition sct_issuer_spki (leaf : Cert) (candidates : list rbytes) : option rbytes := head (omap (issued_by leaf) candidates).

(** The bytes a certificate timestamp signs. *)
Definition sct_signed (sct : Sct) (issuer_spki tbs : rbytes) : rbytes :=
  [0; 0]%N ++ be_bytes 8 (Z.to_N (sct_timestamp sct)) ++ [0; 1]%N ++ sha256 issuer_spki
  ++ be_bytes 3 (N.of_nat (length tbs)) ++ tbs ++ be_bytes 2 (N.of_nat (length (sct_extensions sct))) ++ sct_extensions sct.

Definition sct_verifies (issuer_spki tbs : rbytes) (logs : list CtLogKey) (sct : Sct) : bool :=
  match List.find (fun log => bool_decide (ct_log_id log = sct_log_id sct)) logs with
  | None => false
  | Some log =>
      if (65536 <=? N.of_nat (length (sct_extensions sct)))%N then false
      else if negb (sct_v1 sct) || negb (hash_alg_id sct =? 4) || negb (sign_alg_id sct =? 3) then false
      else match signature_of_der (sct_data sct) with
           | None => false
           | Some signature => ecdsa_verify (ct_key log) (sct_signed sct issuer_spki tbs) signature
           end
  end.

Definition verify_embedded_scts (leaf : Cert) (issuer_spki : rbytes) (logs : list CtLogKey) : Verified () :=
  scts ← ok_or SctInvalid (head (omap (fun e => if bool_decide (oid e = SCT_LIST_OID) then ext_scts e else None) (extensions leaf)));
  tbs ← ok_or SctInvalid (precert_tbs (tbs_certificate leaf));
  _ ← ensure SctInvalid (N.of_nat (length tbs) <? 2 ^ 24)%N;
  ensure SctInvalid (existsb (sct_verifies issuer_spki tbs logs) scts).

(** ** Checkpoints *)

Inductive CheckpointKey := Rekor (key : VerifyingKey) | Note (key : NoteLogKey).

Definition checkpoint_key_hint (key : VerifyingKey) : rbytes := take 4 (sha256 (P256_SPKI_PREFIX ++ sec1_point key)).

Definition hint_of (key : CheckpointKey) : rbytes :=
  match key with Rekor key => checkpoint_key_hint key | Note note => take 4 (nk_log_id note) end.

(** One signature line: whether it is the log's and verifies. *)
Definition check_line (key : CheckpointKey) (signed_body : rbytes) (line : rstr) : Verified bool :=
  rest ← ok_or SetInvalid (strip_prefix_str NOTE_SIGNATURE_PREFIX line);
  match split (N.eqb SPACE) rest with
  | [name; encoded] =>
      raw ← ok_or SetInvalid (base64_decode (as_bytes encoded));
      if (length raw <? 4)%nat then Err SetInvalid
      else
        let '(line_hint, signature_der) := (take 4 raw, drop 4 raw) in
        if is_empty name || is_empty signature_der then Err SetInvalid
        else if negb (bool_decide (line_hint = hint_of key)) then Ok false
        else match key with
             | Rekor rekor =>
                 signature ← ok_or SetInvalid (signature_of_der signature_der);
                 _ ← ensure SetInvalid (ecdsa_verify rekor signed_body signature);
                 Ok true
             | Note note =>
                 if negb (bool_decide (name = origin note)) then Ok false
                 else
                   _ ← ensure SetInvalid (ed25519_verify (nk_key note) signed_body signature_der);
                   Ok true
             end
  | _ => Err SetInvalid
  end.

Fixpoint check_lines (key : CheckpointKey) (signed_body : rbytes) (lines : list rstr) (verified : bool) : Verified bool :=
  match lines with
  | [] => Ok verified
  | line :: lines => v ← check_line key signed_body line; check_lines key signed_body lines (v || verified)
  end.

Definition verify_checkpoint (checkpoint : rstr) (tree_size : Z) (root : rbytes) (key : CheckpointKey) : Verified () :=
  '(body, signature_lines) ← ok_or SetInvalid (split_once_str [LF; LF] checkpoint);
  if negb (ends_with LF signature_lines) then Err SetInvalid
  else match split (N.eqb LF) body with
       | first :: size :: root_line :: _ =>
           if is_empty first || (match key with Note note => negb (bool_decide (first = origin note)) | Rekor _ => false end)
              || is_empty size || negb (forallb is_ascii_digit size) || negb (bool_decide (parse_unsigned 64 size = Some tree_size))
           then Err SetInvalid
           else
             checkpoint_root ← ok_or SetInvalid (base64_decode (as_bytes root_line));
             if negb (bool_decide (checkpoint_root = root)) then Err SetInvalid
             else
               verified ← check_lines key (as_bytes (body ++ [LF])) (split_terminator signature_lines) false;
               ensure SetInvalid verified
       | _ => Err SetInvalid
       end.

(** ** The log entry *)

Definition inclusion_root (d : Decoded) : Fallible rbytes :=
  _ ← checked_by (ensure SetInvalid (forallb (fun h => (length h =? 32)%nat) (path_hashes d)));
  if (proof_log_index d <? 0) || (tree_size d =? 0) then refuse SetInvalid
  else root_from_path sha256 (proof_log_index d) (tree_size d) (rekor_leaf_hash sha256 (d_body d)) (path_hashes d).

Definition rekor_v2_body (d : Decoded) (leaf_der : rbytes) (leaf : Cert) : Verified rstr :=
  point ← ok_or UnsupportedEntryKind (if bool_decide (P256_SPKI_PREFIX `prefix_of` spki_der leaf) then Some (drop 26 (spki_der leaf)) else None);
  _ ← ensure UnsupportedEntryKind (length point =? 65)%nat;
  Ok (quoted "{'apiVersion':'0.0.2','kind':'hashedrekord','spec':{'hashedRekordV002':{'data':{'algorithm':'SHA2_256','digest':'"
      ++ base64_encode (sha256 (dsse_pae (as_bytes (dsse_payload_type d)) (dsse_payload d)))
      ++ quoted "'},'signature':{'content':'" ++ base64_encode (dsse_signature d)
      ++ quoted "','verifier':{'keyDetails':'PKIX_ECDSA_P256_SHA_256','x509Certificate':{'rawBytes':'" ++ base64_encode leaf_der
      ++ quoted "'}}}}}}").

Definition verify_v2_entry (d : Decoded) (trust : TrustRoot) (times : list Z) (leaf_der : rbytes) (leaf : Cert) : Fallible () :=
  key ← checked_by (ok_or SetInvalid (List.find (fun key => bool_decide (nk_log_id key = log_key_id d)) (rekor_v2_keys trust)));
  _ ← checked_by (ensure SetInvalid (forallb (window_covers (nk_window key)) times));
  body ← checked_by (rekor_v2_body d leaf_der leaf);
  _ ← checked_by (ensure SetInvalid (bool_decide (as_bytes body = d_body d)));
  root ← inclusion_root d;
  checked_by (verify_checkpoint (checkpoint d) (tree_size d) root (Note key)).

Definition json_str (body : Json) (pointer : rstr) : Verified rstr := ok_or SetInvalid (pointer_str body pointer).
Definition json_base64 (body : Json) (pointer : rstr) : Verified rbytes :=
  s ← json_str body pointer; ok_or SetInvalid (base64_decode (as_bytes s)).

Definition verify_dsse_body (d : Decoded) (body : Json) : Verified () :=
  signature ← json_base64 body (lit "/spec/signatures/0/signature");
  _ ← ensure SetInvalid (bool_decide (signature = dsse_signature d));
  payload_hash ← json_str body (lit "/spec/payloadHash/value");
  ensure SetInvalid (bool_decide (payload_hash = hex_lower (sha256 (dsse_payload d)))).

Definition verify_hashedrekord_body (d : Decoded) (body : Json) (leaf_point : rbytes) : Verified () :=
  content ← json_str body (lit "/spec/signature/content");
  public_key ← json_str body (lit "/spec/signature/publicKey");
  signature ← ok_or SetInvalid (base64_decode (as_bytes content));
  _ ← ensure SetInvalid (bool_decide (signature = dsse_signature d));
  pem ← ok_or SetInvalid (base64_decode (as_bytes public_key));
  key_der ← ok_or SetInvalid (pem_body pem PUBLIC_KEY);
  '(_, _, point) ← ok_or SetInvalid (spki key_der);
  ensure SetInvalid (bool_decide (point = leaf_point)).

Definition verify_body_agreement (d : Decoded) (leaf_point : rbytes) : Verified () :=
  body ← ok_or SetInvalid (json_from_slice (d_body d));
  if bool_decide (d_kind d = lit "dsse") then verify_dsse_body d body
  else if bool_decide (d_kind d = lit "hashedrekord") then verify_hashedrekord_body d body leaf_point
  else Err UnsupportedEntryKind.

Definition verify_inclusion (d : Decoded) (trust : TrustRoot) (leaf_point : rbytes) : Fallible () :=
  root ← inclusion_root d;
  _ ← checked_by (verify_checkpoint (checkpoint d) (tree_size d) root (Rekor (rekor_key trust)));
  checked_by (verify_body_agreement d leaf_point).

Definition rekor_set_payload (body : rbytes) (integrated_time : Z) (log_id : rbytes) (log_index : Z) : rstr :=
  quoted "{'body':'" ++ base64_encode body ++ quoted "','integratedTime':" ++ show_dec integrated_time
  ++ quoted ",'logID':'" ++ hex_lower log_id ++ quoted "','logIndex':" ++ show_dec log_index ++ lit "}".

Definition verify_set (d : Decoded) (key : VerifyingKey) : Verified () :=
  let payload := rekor_set_payload (d_body d) (integrated_time d) (log_key_id d) (log_index d) in
  signature ← ok_or SetInvalid (signature_of_der (signed_entry_timestamp d));
  ensure SetInvalid (ecdsa_verify key (as_bytes payload) signature).

(** ** The whole *)

Definition verify_for_identity (d : Decoded) (file_digest : rbytes) (pinned : rstr) (trust : TrustRoot) : Fallible () :=
  times ← checked_by (times_of d trust);
  _ ← checked_by (check_each (verify_chain_at d trust) times);
  '(leaf_raw, intermediates) ← checked_by (match certs d with c :: cs => Ok (c, cs) | [] => Err CertChainInvalid end);
  leaf ← checked_by (ok_or CertChainInvalid (x509 leaf_raw));
  _ ← checked_by (check_identity leaf pinned);
  issuer_spki ← checked_by (ok_or SctInvalid (sct_issuer_spki leaf (fulcio_roots trust ++ intermediates)));
  _ ← checked_by (verify_embedded_scts leaf issuer_spki (ct_logs trust));
  leaf_key ← checked_by (ok_or CertChainInvalid (key_of_sec1 (key_point leaf)));
  signature ← checked_by (ok_or SignatureInvalid (signature_of_der (dsse_signature d)));
  _ ← checked_by (ensure SignatureInvalid
        (ecdsa_verify leaf_key (dsse_pae (as_bytes (dsse_payload_type d)) (dsse_payload d)) signature));
  _ ← checked_by (ensure DigestMismatch
        (length (List.filter (fun s => bool_decide (s_sha256 s = hex_lower file_digest)) (st_subject (statement d))) =? 1)%nat);
  if is_rekor_v2 d then verify_v2_entry d trust times leaf_raw leaf
  else
    _ ← verify_inclusion d trust (key_point leaf);
    checked_by (verify_set d (rekor_key trust)).

Definition verify (d : Decoded) (file_digest : rbytes) (tag : rstr) (trust : TrustRoot) : Fallible () :=
  verify_for_identity d file_digest (pinned_identity tag) trust.

(** ** What a verified bundle shows *)














(** The key of the log an entry has to be in: one of the second version is named
    by the log id, and has to be valid at every signing time. *)
Definition log_key (d : Decoded) (trust : TrustRoot) (times : list Z) (key : CheckpointKey) : Prop :=
  if is_rekor_v2 d then
    exists note, key = Note note /\ note ∈ rekor_v2_keys trust /\ nk_log_id note = log_key_id d
      /\ forall time, time ∈ times -> window_covers (nk_window note) time = true
  else key = Rekor (rekor_key trust).















End Verify.

(** ** A bundle that verifies *)

Module VerifyDemo.

(** Toy cryptography: a digest pads its input, a signature is the key and the
    length of the text. *)
Definition toy_signature (key text : rbytes) : rbytes := key ++ [(40 + N.of_nat (length text) mod 7)%N].
Definition toy_verify (key text signature : rbytes) : bool := bool_decide (signature = toy_signature key text).

Definition payload : rbytes := lit "statement".
Definition leaf_key : rbytes := [55%N].
Definition log_key : rbytes := [56%N].
Definition ct_log_key : rbytes := [57%N].
Definition envelope_signature : rbytes := toy_signature leaf_key (dsse_pae (as_bytes DSSE_PAYLOAD_TYPE) payload).

Definition tbs : rbytes := tlv 48 (concat (field_der <$> DerDemo.fields)).
Definition precert : rbytes := tlv 48 (concat (field_der <$> (without_sct <$> DerDemo.fields))).
Definition unsigned : Sct := mkSct true [1%N] 5 [] 4 3 [].
Definition signed_text : rbytes :=
  [0; 0]%N ++ be_bytes 8 5 ++ [0; 1]%N ++ MerkleDemo.pad [3%N] ++ be_bytes 3 (N.of_nat (length precert)) ++ precert ++ be_bytes 2 0.
Definition sct : Sct := mkSct true [1%N] 5 [] 4 3 (toy_signature ct_log_key signed_text).
Definition leaf : Cert :=
  mkCert tbs (toy_signature leaf_key tbs) [3%N] leaf_key [1%N] [1%N] [2%N] (0, 100) (Some (Some [pinned_identity (lit "v1.0.0")]))
    [mkExtension ISSUER_OID (as_bytes ISSUER) None None; mkExtension SCT_LIST_OID [] (Some [sct]) None] None.

#[export] Instance toy : Crypto := {|
  sha256 := MerkleDemo.pad;
  sha384 := MerkleDemo.pad;
  sha512 := MerkleDemo.pad;
  base64_encode b := b;
  base64_decode := Some;
  x509 _ := Some leaf;
  spki _ := None;
  VerifyingKey := rbytes;
  key_of_sec1 := Some;
  sec1_point key := key;
  Signature := rbytes;
  signature_of_der := Some;
  ecdsa_verify := toy_verify;
  webpki_verify _ := toy_verify;
  ed25519_verify := toy_verify;
  is_anchor _ := true;
  is_end_entity _ := true;
  verify_for_usage _ _ _ _ := Ok ();
  utc_time _ := None;
  Json := ();
  json_from_slice _ := Some ();
  pointer_str _ pointer :=
    if bool_decide (pointer = lit "/spec/payloadHash/value") then Some (hex_lower (MerkleDemo.pad payload)) else Some envelope_signature;
|}.

Definition trust : TrustRoot := mkTrust [[0%N]] (log_key : VerifyingKey) [(0, 100)] [mkCtLog [1%N] (ct_log_key : VerifyingKey)] [] [].

Definition entry : rbytes := [65%N].
Definition signed_body : rstr := lit "log" ++ [LF] ++ lit "1" ++ [LF] ++ rekor_leaf_hash MerkleDemo.pad entry.
Definition note : rstr :=
  signed_body ++ [LF; LF] ++ NOTE_SIGNATURE_PREFIX ++ lit "log "
  ++ take 4 P256_SPKI_PREFIX ++ toy_signature log_key (signed_body ++ [LF]) ++ [LF].

Definition bundle (digest : rbytes) : Decoded :=
  mkDecoded 50 [[0%N]] (mkStatement STATEMENT_TYPE [mkSubject (lit "detent") (hex_lower digest)]) payload DSSE_PAYLOAD_TYPE envelope_signature
    0 [1%N] (lit "dsse") (lit "0.0.1") entry 1 0 [] note
    (toy_signature log_key (as_bytes (rekor_set_payload entry 50 [1%N] 0))) [].

Definition file_digest : rbytes := MerkleDemo.pad [1; 2; 3]%N.

Example another_file : verify (bundle file_digest) (MerkleDemo.pad [1%N]) (lit "v1.0.0") trust = Some (Err DigestMismatch).
Proof. by vm_compute. Qed.

Example another_tag : verify (bundle file_digest) file_digest (lit "v1.0.1") trust = Some (Err IdentityMismatch).
Proof. by vm_compute. Qed.

End VerifyDemo.

