(* ===== verification/Policy.v ===== *)
(** * Which release to install

    [crates/detent-update/src/policy.rs]: the gates a release passes and the choice
    among the releases. The versions of the semver crate and their order are a
    class; a moment is its Unix time in nanoseconds. *)

From Stdlib Require Import ZArith.
From stdpp Require Import list sorting.
From S2P Require Import Prelude Str Num Disk Utf8 Ip.
#[local] Open Scope Z_scope.

(** ** Versions *)

Class Semver := {
  SemVersion : Type;
  sv_parse : rstr -> option SemVersion;
  sv_cmp : SemVersion -> SemVersion -> comparison;
  sv_show : SemVersion -> rstr;
}.

(** [Ord] of a version: a total order. *)
Class SemverLaws `{Semver} : Prop := {
  sv_eq v w : sv_cmp v w = Eq <-> v = w;
  sv_opp v w : sv_cmp w v = CompOpp (sv_cmp v w);
  sv_trans u v w : sv_cmp u v = Lt -> sv_cmp v w = Lt -> sv_cmp u w = Lt;
}.

(** ** Errors *)

Inductive PolicyError :=
| NoUpdate
| DowngradeRefused (candidate current : rstr)
| TooYoung (tag : rstr) (min_age_days : Z)
| BadTag (tag : rstr).

(** ** The gates *)

Record Policy := mkPolicy { min_age_days : Z; allow_downgrade : bool }.

Definition DEFAULT_MIN_AGE_DAYS : Z := 2.
Definition default_policy : Policy := mkPolicy DEFAULT_MIN_AGE_DAYS false.

Record Candidate := mkCandidate { c_tag : rstr; c_published : option Z; c_release_body : rstr }.

Definition SECURITY_MARKER : rstr := lit "detent-security: true".

(** [Duration::whole_days]. *)
Definition NANOS_PER_DAY : Z := 86400 * 1000000000.
Definition whole_days (age : Z) : Z := Z.quot age NANOS_PER_DAY.

(** [str::trim_matches] of spaces and tabs. *)
Definition trim_blanks (s : rstr) : rstr :=
  let blank c := (c =? SPACE)%N || (c =? TAB)%N in trim_end_matches blank (trim_start_matches blank s).

Definition is_security (c : Candidate) : bool :=
  existsb (fun line => bool_decide (trim_blanks line = SECURITY_MARKER)) (Utf8.lines (c_release_body c)).

(** [i64::try_from(min_age_days).unwrap_or(i64::MAX)]. *)
Definition age_limit (p : Policy) : Z := if min_age_days p <? 2 ^ 63 then min_age_days p else 2 ^ 63 - 1.

Definition gate_age (release : Candidate) (now : Z) (p : Policy) : result PolicyError Candidate :=
  if is_security release then Ok release
  else match c_published release with
       | Some published => if whole_days (now - published) <? age_limit p then Err (TooYoung (c_tag release) (min_age_days p)) else Ok release
       | None => Err (TooYoung (c_tag release) (min_age_days p))
       end.

Section Policy.
Context `{Semver}.

Definition version_of (tag : rstr) : option SemVersion := sv_parse (default tag (strip_prefix 118 tag)).

(** [Option<OffsetDateTime>]: no date is before every date. *)
Definition date_cmp (a b : option Z) : comparison :=
  match a, b with Some a, Some b => Z.compare a b | None, None => Eq | None, Some _ => Lt | Some _, None => Gt end.

(** The comparison of [sort_by]: newest version first, then the latest. *)
Definition newer_first (a b : Candidate * SemVersion) : comparison :=
  match sv_cmp b.2 a.2 with Eq => date_cmp (c_published b.1) (c_published a.1) | c => c end.

(** A stable sort. *)
Fixpoint insert_by {A} (cmp : A -> A -> comparison) (x : A) (l : list A) : list A :=
  match l with
  | [] => [x]
  | y :: l' => match cmp x y with Gt => y :: insert_by cmp x l' | _ => x :: l end
  end.
Definition stable_sort {A} (cmp : A -> A -> comparison) (l : list A) : list A := foldr (insert_by cmp) [] l.

Definition parsed (releases : list Candidate) : list (Candidate * SemVersion) :=
  stable_sort newer_first (omap (fun r => (fun v => (r, v)) <$> version_of (c_tag r)) releases).

(** The walk over the sorted releases, with the first one that was too young. *)
Fixpoint choose (current : SemVersion) (now : Z) (p : Policy) (too_young : option PolicyError)
    (l : list (Candidate * SemVersion)) : result PolicyError Candidate :=
  match l with
  | [] => Err (default NoUpdate too_young)
  | (release, version) :: l =>
      let gate :=
        match gate_age release now p with
        | Ok _ => Ok release
        | Err (TooYoung _ _ as error) => choose current now p (Some (default error too_young)) l
        | Err error => Err error
        end in
      match sv_cmp version current with
      | Gt => gate
      | Eq => match too_young with None => Err NoUpdate | Some _ => choose current now p too_young l end
      | Lt =>
          if negb (allow_downgrade p) then
            match too_young with
            | None => Err (DowngradeRefused (c_tag release) (sv_show current))
            | Some _ => choose current now p too_young l
            end
          else gate
      end
  end.

Definition select (releases : list Candidate) (current : SemVersion) (now : Z) (p : Policy) : result PolicyError Candidate :=
  choose current now p None (parsed releases).

(** *** What is chosen *)

Context `{!SemverLaws}.

Lemma insert_by_perm {A} (cmp : A -> A -> comparison) x l : insert_by cmp x l ≡ₚ x :: l.
Proof. induction l as [|y l IH]; [done|]. simpl. destruct (cmp x y); [done|done|]. rewrite IH. apply Permutation_swap. Qed.

Lemma stable_sort_perm {A} (cmp : A -> A -> comparison) l : stable_sort cmp l ≡ₚ l.
Proof. induction l as [|x l IH]; [done|]. simpl. by rewrite insert_by_perm, IH. Qed.

Definition not_newer (a b : Candidate * SemVersion) : Prop := sv_cmp b.2 a.2 <> Gt.

Lemma not_newer_trans u v w : not_newer u v -> not_newer v w -> not_newer u w.
Proof.
  unfold not_newer. destruct u as [? u], v as [? v], w as [? w]. simpl. intros Huv Hvw Hwu.
  destruct (sv_cmp w v) eqn:E1; [apply sv_eq in E1; subst; done| |done].
  destruct (sv_cmp v u) eqn:E2; [apply sv_eq in E2; subst; congruence| |done].
  pose proof (sv_trans _ _ _ E1 E2). congruence.
Qed.

Lemma insert_by_sorted x l : StronglySorted not_newer l -> StronglySorted not_newer (insert_by newer_first x l).
Proof.
  induction 1 as [|y l Hl IH Hy]; [by repeat constructor|]. simpl.
  assert (newer_first x y <> Gt -> not_newer x y) as Hle.
  { unfold newer_first, not_newer. destruct (sv_cmp y.2 x.2); [done|done|]. by intros []. }
  assert (newer_first x y = Gt -> not_newer y x) as Hgt.
  { unfold newer_first, not_newer. rewrite (sv_opp y.2 x.2). by destruct (sv_cmp y.2 x.2). }
  destruct (newer_first x y) eqn:E.
  1,2: constructor; [by constructor|]; constructor; [by apply Hle|]; eapply Forall_impl; [exact Hy|];
    intros z Hz; eapply not_newer_trans; [by apply Hle|done].
  constructor; [done|]. rewrite insert_by_perm. constructor; [by apply Hgt|done].
Qed.

Lemma parsed_sorted releases : StronglySorted not_newer (parsed releases).
Proof. unfold parsed. induction (omap _ releases) as [|x l IH]; [constructor|]. by apply insert_by_sorted. Qed.

Lemma elem_of_parsed releases c v : (c, v) ∈ parsed releases <-> c ∈ releases /\ version_of (c_tag c) = Some v.
Proof.
  unfold parsed. rewrite stable_sort_perm, list_elem_of_omap. split.
  - intros (r & Hr & Hv). destruct (version_of (c_tag r)) eqn:E; [|done]. by injection Hv as <- <-.
  - intros [Hc Hv]. exists c. by rewrite Hv.
Qed.

(** A release that may be installed over [current]. *)
Definition eligible (current : SemVersion) (now : Z) (p : Policy) (c : Candidate) (v : SemVersion) : Prop :=
  (sv_cmp v current = Gt \/ sv_cmp v current = Lt /\ allow_downgrade p = true) /\ gate_age c now p = Ok c.

Lemma gate_age_cases c now p : gate_age c now p = Ok c \/ gate_age c now p = Err (TooYoung (c_tag c) (min_age_days p)).
Proof. unfold gate_age. case_if; [by left|]. destruct (c_published c); [case_if|]; auto. Qed.

Lemma choose_ok current now p l : StronglySorted not_newer l -> forall too_young c,
  choose current now p too_young l = Ok c ->
  exists v, (c, v) ∈ l /\ eligible current now p c v /\ forall c' v', (c', v') ∈ l -> sv_cmp v' v = Gt -> ~ eligible current now p c' v'.
Proof.
  induction 1 as [|[r w] l Hl IH Hr]; intros y c; [done|].
  assert (forall y, choose current now p y l = Ok c -> ~ eligible current now p r w -> exists v, (c, v) ∈ (r, w) :: l /\ eligible current now p c v
    /\ forall c' v', (c', v') ∈ (r, w) :: l -> sv_cmp v' v = Gt -> ~ eligible current now p c' v') as Hskip.
  { intros y' Hc Hn. destruct (IH _ _ Hc) as (v & Hv & He & Hmax). exists v. split_and!; [by right|done|].
    intros c' v' [[= -> ->]|Hin]%elem_of_cons; [done|by apply Hmax]. }
  assert (gate_age r now p = Ok r -> eligible current now p r w -> Ok (E := PolicyError) r = Ok c -> exists v, (c, v) ∈ (r, w) :: l /\ eligible current now p c v
    /\ forall c' v', (c', v') ∈ (r, w) :: l -> sv_cmp v' v = Gt -> ~ eligible current now p c' v') as Htake.
  { intros _ He [= <-]. exists w. split_and!; [by left|done|]. intros c' v' [[= -> ->]|Hin]%elem_of_cons Hgt.
    - by rewrite (proj2 (sv_eq w w)) in Hgt.
    - rewrite Forall_forall in Hr. by apply Hr in Hin. }
  cbn [choose]. destruct (gate_age_cases r now p) as [Hg|Hg]; destruct (sv_cmp w current) eqn:Ew.
  - destruct y; [|done]. intros Hc. eapply Hskip; [exact Hc|]. intros [[?|[? _]] _]; congruence.
  - destruct (allow_downgrade p) eqn:Ed; cbn [negb].
    + rewrite Hg. apply Htake; [done|]. split; [by right|done].
    + destruct y; [|done]. intros Hc. eapply Hskip; [exact Hc|]. intros [[?|[_ ?]] _]; congruence.
  - rewrite Hg. apply Htake; [done|]. split; [by left|done].
  - destruct y; [|done]. intros Hc. eapply Hskip; [exact Hc|]. intros [_ ?]; congruence.
  - assert (~ eligible current now p r w) by (intros [_ ?]; congruence).
    destruct (negb _); [destruct y; [|done]|rewrite Hg]; intros Hc; by eapply Hskip.
  - rewrite Hg. intros Hc. eapply Hskip; [exact Hc|]. intros [_ ?]; congruence.
Qed.

Lemma not_newer_gt u v current : not_newer u v -> sv_cmp v.2 current = Gt -> sv_cmp u.2 current = Gt.
Proof.
  intros Huv Hv. destruct (sv_cmp u.2 current) eqn:E; [| |done]; exfalso.
  - apply sv_eq in E. by rewrite <- E in Hv.
  - apply (not_newer_trans (u.1, current) u v); unfold not_newer; simpl; [by rewrite E|done|done].
Qed.

Lemma choose_err current now p l : StronglySorted not_newer l -> forall too_young e,
  choose current now p too_young l = Err e -> forall c v, (c, v) ∈ l -> sv_cmp v current = Gt -> gate_age c now p <> Ok c.
Proof.
  induction 1 as [|[r w] l Hl IH Hr]; intros y e; [intros _ c v Hin; by apply not_elem_of_nil in Hin|].
  cbn [choose]. intros Hc c v Hin Hgt.
  assert (sv_cmp w current = Gt) as Hw.
  { apply elem_of_cons in Hin as [[= -> ->]|Hin]; [done|]. rewrite Forall_forall in Hr.
    by apply (not_newer_gt (r, w) (c, v)); [apply Hr|]. }
  rewrite Hw in Hc. destruct (gate_age_cases r now p) as [Hg|Hg]; rewrite Hg in Hc; [done|].
  apply elem_of_cons in Hin as [[= -> ->]|Hin]; [congruence|by eapply IH].
Qed.

(** The release chosen may be installed and no newer one may; when none is chosen,
    no release newer than the running version has passed its gate. *)
Theorem select_newest releases current now p :
  match select releases current now p with
  | Ok c => exists v, c ∈ releases /\ version_of (c_tag c) = Some v /\ eligible current now p c v
      /\ forall c' v', c' ∈ releases -> version_of (c_tag c') = Some v' -> sv_cmp v' v = Gt -> ~ eligible current now p c' v'
  | Err _ => forall c v, c ∈ releases -> version_of (c_tag c) = Some v -> sv_cmp v current = Gt -> gate_age c now p <> Ok c
  end.
Proof.
  unfold select. destruct (choose _ _ _ _ _) as [c|e] eqn:E.
  - destruct (choose_ok _ _ _ _ (parsed_sorted releases) _ _ E) as (v & [Hc Hv]%elem_of_parsed & He & Hmax).
    exists v. split_and!; [done..|]. intros c' v' Hc' Hv'. apply Hmax. by apply elem_of_parsed.
  - intros c v Hc Hv. eapply choose_err; [apply parsed_sorted|exact E|by apply elem_of_parsed].
Qed.

End Policy.

(** ** Downgrades

    With downgrades allowed, an older release is installed only when the running
    one is not listed or a newer one is too young. *)

Module PolicyDemo.

#[export] Instance numbers : Semver :=
  {| SemVersion := Z; sv_parse s := parse_unsigned 64 s; sv_cmp := Z.compare; sv_show := show_dec |}.

#[export] Instance numbers_laws : SemverLaws.
Proof.
  split; simpl.
  - intros v w. apply Z.compare_eq_iff.
  - intros v w. apply Z.compare_antisym.
  - intros u v w Huv%Z.compare_lt_iff Hvw%Z.compare_lt_iff. apply Z.compare_lt_iff. by apply (Z.lt_trans _ v).
Qed.

Definition release (tag : rstr) (day : Z) : Candidate := mkCandidate tag (Some (day * NANOS_PER_DAY)) [].
Definition today : Z := 100 * NANOS_PER_DAY.
Definition downgrades : Policy := mkPolicy 2 true.
Definition chosen (releases : list Candidate) : result PolicyError rstr := c_tag <$> select releases (5 : SemVersion) today downgrades.

Example running_listed : chosen [release (lit "v4") 10; release (lit "v5") 20] = Err NoUpdate.
Proof. by vm_compute. Qed.

Example running_unlisted : chosen [release (lit "v4") 10] = Ok (lit "v4").
Proof. by vm_compute. Qed.

Example newer_too_young : chosen [release (lit "v4") 10; release (lit "v5") 20; release (lit "v6") 99] = Ok (lit "v4").
Proof. by vm_compute. Qed.

End PolicyDemo.
