(* ===== verification/Csrf.v ===== *)
(** * Request forgery: [crates/detent-web/src/csrf.rs] and the credentials of a
    request of [auth/extract.rs]

    The headers a request presents a session or a token in, the origin they are
    compared with, and the guard in front of every route. *)

From Stdlib Require Import ZArith.
From stdpp Require Import gmap.
From S2P Require Import Prelude Str Num Ip Utf8 AuthErr Time Session.

(** ** Headers *)

(** Names in lower case with their values in order; a value that is not visible
    ASCII ([to_str] fails) is [None]. *)
Definition Headers := list (rstr * option rstr).

Definition get_all (name : rstr) (headers : Headers) : list (option rstr) :=
  snd <$> filter (fun h => fst h = name) headers.

Definition AUTHORIZATION : rstr := lit "authorization".
Definition COOKIE : rstr := lit "cookie".
Definition HOST : rstr := lit "host".
Definition ORIGIN : rstr := lit "origin".
Definition CSRF_HEADER : rstr := lit "x-detent-csrf".
Definition SEC_FETCH_SITE : rstr := lit "sec-fetch-site".
Definition SAME_ORIGIN : rstr := lit "same-origin".
Definition SAME_SITE : rstr := lit "same-site".
Definition BEARER_SCHEME : rstr := lit "bearer".

Definition bearer (headers : Headers) : option rstr :=
  value ← mjoin (head (get_all AUTHORIZATION headers));
  '(scheme, token) ← split_once (N.eqb SPACE) value;
  if negb (eq_ignore_ascii_case scheme BEARER_SCHEME) then None
  else let token := trim token in if is_empty token then None else Some token.

Definition cookie_id (headers : Headers) : option rstr :=
  cookie_value (join (lit "; ") (omap (fun value => value) (get_all COOKIE headers))).

Definition sole_header (headers : Headers) (name : rstr) : option rstr :=
  match get_all name headers with [value] => value | _ => None end.

Definition has_bearer (headers : Headers) : bool :=
  match get_all AUTHORIZATION headers with
  | [_] => match bearer headers with Some _ => true | None => false end
  | _ => false
  end.

(** ** Origins *)

Record Origin := mkOrigin { normalized : rstr }.

Definition default_port (scheme : rstr) : option Z :=
  if bool_decide (scheme = lit "https") then Some 443%Z
  else if bool_decide (scheme = lit "http") then Some 80%Z else None.

Definition SLASH_ : rchar := 47%N.
Definition COLON_ : rchar := 58%N.
Definition LBRACKET_ : rchar := 91%N.
Definition RBRACKET_ : rchar := 93%N.

(** The host and the text of the port. *)
Definition host_port (rest : rstr) : option (rstr * option rstr) :=
  match strip_prefix LBRACKET_ rest with
  | Some after =>
      '(inside, tail) ← split_once (N.eqb RBRACKET_) after;
      port ← (if is_empty tail then Some None else Some <$> strip_prefix COLON_ tail);
      Some ([LBRACKET_] ++ to_ascii_lowercase inside ++ [RBRACKET_], port)
  | None =>
      match split_once (N.eqb COLON_) rest with
      | Some (host, port) => Some (to_ascii_lowercase host, Some port)
      | None => Some (to_ascii_lowercase rest, None)
      end
  end.

(** The port, none when it is the scheme's own. *)
Definition read_port (default_port : Z) (port_text : option rstr) : option (option Z) :=
  match port_text with
  | None => Some None
  | Some digits => number ← parse_unsigned 16 digits; Some (if (number =? default_port)%Z then None else Some number)
  end.

Definition origin_text (scheme host : rstr) (port : option Z) : rstr :=
  match port with
  | Some port => scheme ++ lit "://" ++ host ++ [COLON_] ++ show_dec port
  | None => scheme ++ lit "://" ++ host
  end.

Definition parse_origin (text : rstr) : option Origin :=
  '(scheme, rest) ← split_once_str (lit "://") text;
  let scheme := to_ascii_lowercase scheme in
  default_port ← default_port scheme;
  if is_empty rest || contains SLASH_ rest then None
  else
    '(host, port_text) ← host_port rest;
    if is_empty host || bool_decide (host = [LBRACKET_; RBRACKET_]) then None
    else
      port ← read_port default_port port_text;
      Some (mkOrigin (origin_text scheme host port)).

Definition matches (o : Origin) (candidate : rstr) : bool :=
  match parse_origin candidate with Some other => bool_decide (normalized other = normalized o) | None => false end.

(** ** The guard *)

Inductive Method := GET | HEAD | OPTIONS | POST | OtherMethod (name : rstr).

Definition is_safe (m : Method) : bool := match m with GET | HEAD | OPTIONS => true | _ => false end.

Section Guard.
Variable key_of : rstr -> Digest.

(** The checks on a request whose cookie names the live session [s]; [authority]
    is the one of the request's URI. *)
Definition check_origin (s : Session) (headers : Headers) (authority : option rstr) : result AuthError () :=
  match sole_header headers SEC_FETCH_SITE with
  | Some site =>
      if negb (bool_decide (site = SAME_ORIGIN) || bool_decide (site = SAME_SITE)) then Err CsrfRejected
      else
        match (match authority, sole_header headers HOST with
               | Some authority, None | None, Some authority => Some authority
               | _, _ => None
               end) with
        | None => Err CsrfRejected
        | Some authority =>
            match sole_header headers ORIGIN with
            | None => Err CsrfRejected
            | Some origin =>
                match parse_origin (lit "https://" ++ authority) with
                | None => Err CsrfRejected
                | Some expected =>
                    if negb (matches expected origin) then Err CsrfRejected
                    else match sole_header headers CSRF_HEADER with
                         | None => Err CsrfRejected
                         | Some token => if ct_eq (csrf_token s) token then Ok () else Err CsrfRejected
                         end
                end
            end
        end
  | None => Err CsrfRejected
  end.

Definition verdict (st : SessionStore) (method : Method) (headers : Headers) (authority : option rstr) (now : Instant)
    : SessionStore * result AuthError () :=
  if is_safe method then (st, Ok ())
  else if has_bearer headers then (st, Ok ())
  else match find_map (fun value => value ≫= cookie_value) (get_all COOKIE headers) with
       | None => (st, Ok ())
       | Some presented =>
           let '(st, found) := lookup key_of st presented now in
           match found with
           | None => (st, Ok ())
           | Some s => (st, check_origin s headers authority)
           end
       end.

End Guard.

(** ** The cookie the guard checks is the one the handler reads *)

Definition pair_value (pair : rstr) : option rstr :=
  match split_once (N.eqb 61) pair with
  | Some (name, value) => if bool_decide (trim name = COOKIE_NAME) then Some (trim value) else None
  | None => None
  end.

Lemma cookie_value_pairs header : cookie_value header = find_map pair_value (split (N.eqb 59) header).
Proof. reflexivity. Qed.

Lemma find_map_app {A B} (f : A -> option B) l l' :
  find_map f (l ++ l') = match find_map f l with Some y => Some y | None => find_map f l' end.
Proof. induction l as [|x l IH]; [done|]. simpl. by destruct (f x). Qed.

Lemma pair_value_space pair : pair_value (SPACE :: pair) = pair_value pair.
Proof.
  unfold pair_value. cbn [split_once]. replace (61 =? SPACE)%N with false by done.
  destruct (split_once (N.eqb 61) pair) as [[name value]|]; [|done]. simpl.
  replace (trim (SPACE :: name)) with (trim name) by done. done.
Qed.

Lemma cookie_value_space header : cookie_value (SPACE :: header) = cookie_value header.
Proof.
  rewrite !cookie_value_pairs. cbn [split]. replace (59 =? SPACE)%N with false by done.
  destruct (split (N.eqb 59) header) as [|pair pairs] eqn:E; [by apply split_nonempty in E|].
  cbn [find_map]. by rewrite pair_value_space.
Qed.

Lemma cookie_value_join values : cookie_value (join (lit "; ") values) = find_map cookie_value values.
Proof.
  induction values as [|v values IH]; [done|]. destruct values as [|w values].
  { cbn [join find_map]. by destruct (cookie_value v). }
  change (join (lit "; ") (v :: w :: values)) with (v ++ 59%N :: SPACE :: join (lit "; ") (w :: values)).
  rewrite cookie_value_pairs, split_sep, find_map_app, <- cookie_value_pairs by done.
  cbn [find_map]. destruct (cookie_value v); [done|]. rewrite <- cookie_value_pairs, cookie_value_space. apply IH.
Qed.

Lemma same_cookie headers :
  find_map (fun value => value ≫= cookie_value) (get_all COOKIE headers) = cookie_id headers.
Proof.
  unfold cookie_id. rewrite cookie_value_join. induction (get_all COOKIE headers) as [|[v|] l IH]; csimpl; [done| |done].
  simpl. by destruct (cookie_value v).
Qed.

Lemma has_bearer_some headers : has_bearer headers = true -> exists token, bearer headers = Some token.
Proof. unfold has_bearer. destruct (get_all AUTHORIZATION headers) as [|? [|]]; [done| |done]. destruct (bearer headers); [eauto|done]. Qed.

(** ** Looking a session up again *)

Lemma lookup_again_none key_of st p now later :
  (lookup key_of st p now).2 = None -> (now <= later)%Z -> (lookup key_of (lookup key_of st p now).1 p later).2 = None.
Proof.
  unfold lookup at 1 3. intros Hn Hl. destruct (entries st) as [m|] eqn:Em; simpl in *; [|unfold lookup; by rewrite Em].
  destruct (m !! key_of p) as [e|] eqn:Ee; simpl in *; [|unfold lookup; by rewrite Em, Ee].
  destruct (negb (ct_eq (id e) p)) eqn:Ec; simpl in *; [unfold lookup; by rewrite Em, Ee, Ec|].
  destruct (expired (session e) (idle st) (absolute st) now) eqn:Ex; [|done]. simpl.
  unfold lookup. simpl. by rewrite lookup_delete_eq.
Qed.

Lemma lookup_again_some key_of st p now later s s' :
  (lookup key_of st p now).2 = Some s -> (lookup key_of (lookup key_of st p now).1 p later).2 = Some s' -> s' = touch later s.
Proof.
  intros (m & e & Hm & He & Hi & Hx & ->)%lookup_some. unfold lookup at 2. rewrite Hm, He.
  rewrite (proj2 (ct_eq_true _ _) Hi), Hx. simpl. unfold lookup. simpl. rewrite lookup_insert_eq.
  unfold set_session. simpl. rewrite (proj2 (ct_eq_true _ _) Hi). simpl. case_if; [done|]. by intros [= <-].
Qed.

Lemma check_origin_touch s now headers authority :
  check_origin (touch now s) headers authority = check_origin s headers authority.
Proof. reflexivity. Qed.

Lemma check_origin_ok s headers authority :
  check_origin s headers authority = Ok () ->
  (sole_header headers SEC_FETCH_SITE = Some SAME_ORIGIN \/ sole_header headers SEC_FETCH_SITE = Some SAME_SITE)
  /\ (exists own origin o, (authority = Some own /\ sole_header headers HOST = None \/ authority = None /\ sole_header headers HOST = Some own)
      /\ sole_header headers ORIGIN = Some origin /\ parse_origin (lit "https://" ++ own) = Some o /\ parse_origin origin = Some o)
  /\ sole_header headers CSRF_HEADER = Some (csrf_token s).
Proof.
  unfold check_origin. destruct (sole_header headers SEC_FETCH_SITE) as [site|]; [|done].
  destruct (negb _) eqn:Es; [done|]. apply negb_false_iff, orb_true_iff in Es.
  destruct (match authority with Some _ => _ | None => _ end) as [own|] eqn:Eo; [|done].
  destruct (sole_header headers ORIGIN) as [origin|]; [|done].
  destruct (parse_origin (lit "https://" ++ own)) as [o|] eqn:Ep; [|done]. unfold matches.
  destruct (parse_origin origin) as [[other]|] eqn:Ep'; [|done]. destruct o as [expected]. cbn [normalized].
  destruct (bool_decide (other = expected)) eqn:E; cbn [negb]; [|done]. apply bool_decide_eq_true in E. destruct (sole_header headers CSRF_HEADER) as [token|]; [|done].
  destruct (ct_eq (csrf_token s) token) eqn:Ec; [|done]. apply ct_eq_true in Ec as <-. intros _. split_and!; [| |done].
  - destruct Es as [->%bool_decide_eq_true| ->%bool_decide_eq_true]; auto.
  - exists own, origin, (mkOrigin expected). subst other. split_and!; [|done..].
    destruct authority, (sole_header headers HOST); naive_solver.
Qed.

(** ** What the guard gives the handler behind it *)

Section Protection.
Variable key_of : rstr -> Digest.

(** What the page that composed a request had to know and to be. *)
Definition composed_by_us (s : Session) (headers : Headers) (authority : option rstr) : Prop :=
  (sole_header headers SEC_FETCH_SITE = Some SAME_ORIGIN \/ sole_header headers SEC_FETCH_SITE = Some SAME_SITE)
  /\ (exists own origin o,
        (authority = Some own /\ sole_header headers HOST = None \/ authority = None /\ sole_header headers HOST = Some own)
        /\ sole_header headers ORIGIN = Some origin /\ parse_origin (lit "https://" ++ own) = Some o
        /\ parse_origin origin = Some o)
  /\ sole_header headers CSRF_HEADER = Some (csrf_token s).

(** A request that the guard lets through and whose session cookie then
    authenticates it - the handler looks the same cookie up in the store the
    guard left, no earlier than the guard did, and no bearer token is presented -
    is a read, or was composed by a page of this host: the browser says it comes
    from the same origin or site, the origin it names is the one of the authority
    it was sent to, and it carries the CSRF token of the very session it acts as. *)
Lemma csrf_protects st method headers authority now later p s :
  (verdict key_of st method headers authority now).2 = Ok () ->
  (now <= later)%Z ->
  bearer headers = None -> cookie_id headers = Some p ->
  (lookup key_of (verdict key_of st method headers authority now).1 p later).2 = Some s ->
  is_safe method = true \/ composed_by_us s headers authority.
Proof.
  unfold verdict. intros Hv Hl Hb Hc Hs. destruct (is_safe method); [by left|right].
  destruct (has_bearer headers) eqn:Eb; [apply has_bearer_some in Eb as [? ?]; congruence|].
  rewrite same_cookie, Hc in Hv, Hs.
  pose proof (lookup_again_none key_of st p now later) as Hnone.
  pose proof (lookup_again_some key_of st p now later) as Hsome.
  destruct (lookup key_of st p now) as [st' [s0|]]; simpl in *; [|rewrite Hnone in Hs by done; done].
  rewrite (Hsome _ _ eq_refl Hs). by apply check_origin_ok.
Qed.

End Protection.

Module CsrfDemo.

Definition digest_of (id : rstr) : Digest := Z.of_N <$> id.
Definition live : SessionStore :=
  (create digest_of (Session.new 1800 86400) (lit "alice") (mkScopes true) false
     (Some (lit "id-1")) (Some (lit "token-1")) (Some (lit "h-1")) 0%Z).1.
Definition headers (site origin token : rstr) : Headers :=
  [ (COOKIE, Some (lit "theme=dark")); (COOKIE, Some (lit "__Host-detent_session=id-1"));
    (HOST, Some (lit "box.example:3333")); (SEC_FETCH_SITE, Some site); (ORIGIN, Some origin);
    (CSRF_HEADER, Some token) ].
Definition post (h : Headers) : result AuthError () := (verdict digest_of live POST h None 1%Z).2.

Example complete_request : post (headers (lit "same-origin") (lit "HTTPS://Box.Example:3333") (lit "token-1")) = Ok ().
Proof. by vm_compute. Qed.
Example cross_site : post (headers (lit "cross-site") (lit "https://box.example:3333") (lit "token-1")) = Err CsrfRejected.
Proof. by vm_compute. Qed.
Example other_port : post (headers (lit "same-origin") (lit "https://box.example") (lit "token-1")) = Err CsrfRejected.
Proof. by vm_compute. Qed.
Example wrong_token : post (headers (lit "same-origin") (lit "https://box.example:3333") (lit "token-2")) = Err CsrfRejected.
Proof. by vm_compute. Qed.
Example repeated_site :
  post ((SEC_FETCH_SITE, Some (lit "cross-site")) :: headers (lit "same-origin") (lit "https://box.example:3333") (lit "token-1"))
  = Err CsrfRejected.
Proof. by vm_compute. Qed.

End CsrfDemo.
