(* ===== verification/Web.v ===== *)
(** * The web front end's shared state and its callers

    [crates/detent-web/src/state.rs], the records of [auth/audit.rs] and the
    extractors of [auth/extract.rs]: who a request comes from, what the log is
    told, and which handlers a caller can reach. *)

From Stdlib Require Import ZArith.
From stdpp Require Import gmap.
From S2P Require Import Prelude Stateful Str Num Ip Doc Diag Utf8 AuthErr Time CredFile RateLimit TokenLimit Coalesce Totp AuditLog Tokens Users Ops Session Csrf.

(** ** The auth log *)

Module Event.
Inductive AuthEvent :=
| LoginSucceeded | LoginFailed | LockedOut | PasswordChanged | PasswordChangeFailed | LoggedOut | SessionRevoked
| StepUpSucceeded | StepUpFailed | TokenIssued | TokenRevoked | UserCreated | UserRemoved | TotpEnabled | TotpDisabled
| TotpReplayed | ScopeDenied | CredentialRejected | CertRenewRequested | TokenRateLimited.
End Event.
Abbreviation AuthEvent := Event.AuthEvent.

#[export] Instance AuthEvent_eq_dec : EqDecision AuthEvent. Proof. solve_decision. Defined.

Record AuthRecord := mkAuthRecord {
  ar_ts : rstr; ar_event : AuthEvent; ar_subject : rstr; ar_kind : IdentityKind; ar_client_ip : option rstr;
  ar_result : AuditResult; ar_detail : option rstr; ar_suppressed : option Z; ar_actor : option rstr;
}.

(** [AuthRecord::new] at the time [ts], and its builders. *)
Definition new_record (event : AuthEvent) (subject : rstr) (r : AuditResult) (ts : rstr) : AuthRecord :=
  mkAuthRecord ts event subject SessionUser None r None None None.
Definition with_suppressed (count : Z) (r : AuthRecord) : AuthRecord :=
  mkAuthRecord (ar_ts r) (ar_event r) (ar_subject r) (ar_kind r) (ar_client_ip r) (ar_result r) (ar_detail r) (Some count) (ar_actor r).
Definition with_actor (actor : rstr) (r : AuthRecord) : AuthRecord :=
  mkAuthRecord (ar_ts r) (ar_event r) (ar_subject r) (ar_kind r) (ar_client_ip r) (ar_result r) (ar_detail r) (ar_suppressed r) (Some actor).
Definition with_kind (k : IdentityKind) (r : AuthRecord) : AuthRecord :=
  mkAuthRecord (ar_ts r) (ar_event r) (ar_subject r) k (ar_client_ip r) (ar_result r) (ar_detail r) (ar_suppressed r) (ar_actor r).
Definition with_client_ip (ip : IpAddr) (r : AuthRecord) : AuthRecord :=
  mkAuthRecord (ar_ts r) (ar_event r) (ar_subject r) (ar_kind r) (Some (show_ip ip)) (ar_result r) (ar_detail r) (ar_suppressed r) (ar_actor r).
Definition with_detail (id : MessageId) (r : AuthRecord) : AuthRecord :=
  mkAuthRecord (ar_ts r) (ar_event r) (ar_subject r) (ar_kind r) (ar_client_ip r) (ar_result r) (Some id) (ar_suppressed r) (ar_actor r).

(** ** Answers *)

(** What a client sees of a refusal. *)
Record ApiError := mkApiError { ae_status : nat; ae_message_id : MessageId; ae_retry_after_secs : option Z }.

(** [ApiError::new], and [From<AuthError>]. *)
Definition api_new (status : nat) (id : MessageId) : ApiError := mkApiError status id None.
Definition api_error (e : AuthError) : ApiError :=
  mkApiError (status e) (message_id e) (match e with RateLimited secs => Some secs | _ => None end).

(** ** The state *)

Definition MAX_CONCURRENT_ARGON2 : nat := 2.

(** [AuthState]: the user store, whose link is the session table, the token
    store, the limiters, the free hashing slots, the coalescer and what the
    audit sink was told, oldest first. *)
Record AuthState := mkState {
  st_users : Store UserRecord Link;
  st_tokens : Store TokenRecord ();
  st_limiter : RateLimiter;
  st_token_limiter : TokenLimiter;
  st_permits : nat;
  st_rejections : Coalescer;
  st_log : list AuthRecord;
}.

Abbreviation WM := (SE AuthState AuthError).

Definition set_users (u : Store UserRecord Link) (w : AuthState) : AuthState :=
  mkState u (st_tokens w) (st_limiter w) (st_token_limiter w) (st_permits w) (st_rejections w) (st_log w).
Definition set_tokens (t : Store TokenRecord ()) (w : AuthState) : AuthState :=
  mkState (st_users w) t (st_limiter w) (st_token_limiter w) (st_permits w) (st_rejections w) (st_log w).
Definition set_limiter (l : RateLimiter) (w : AuthState) : AuthState :=
  mkState (st_users w) (st_tokens w) l (st_token_limiter w) (st_permits w) (st_rejections w) (st_log w).
Definition set_token_limiter (l : TokenLimiter) (w : AuthState) : AuthState :=
  mkState (st_users w) (st_tokens w) (st_limiter w) l (st_permits w) (st_rejections w) (st_log w).
Definition set_permits (n : nat) (w : AuthState) : AuthState :=
  mkState (st_users w) (st_tokens w) (st_limiter w) (st_token_limiter w) n (st_rejections w) (st_log w).
Definition set_rejections (c : Coalescer) (w : AuthState) : AuthState :=
  mkState (st_users w) (st_tokens w) (st_limiter w) (st_token_limiter w) (st_permits w) c (st_log w).
Definition add_record (r : AuthRecord) (w : AuthState) : AuthState :=
  mkState (st_users w) (st_tokens w) (st_limiter w) (st_token_limiter w) (st_permits w) (st_rejections w) (st_log w ++ [r]).

(** The session table: what the user store is linked to. *)
Definition sessions (w : AuthState) : SessionStore := Users.table (CredFile.linked (st_users w)).
Definition set_sessions (t : SessionStore) (w : AuthState) : AuthState :=
  set_users (mkCred (CredFile.file (st_users w)) (calls (st_users w)) (inner (st_users w)) (mkLink (attached (CredFile.linked (st_users w))) t)) w.

(** A call of one of the stores. *)
Definition on_users {A} (m : SE (Store UserRecord Link) AuthError A) : WM A :=
  fun w => let '(r, u) := m (st_users w) in (r, set_users u w).
Definition on_tokens {A} (m : SE (Store TokenRecord ()) AuthError A) : WM A :=
  fun w => let '(r, t) := m (st_tokens w) in (r, set_tokens t w).
Definition on_sessions {E A} (f : SessionStore -> SessionStore * A) : SE AuthState E A :=
  fun w => let '(t, a) := f (sessions w) in (Ok a, set_sessions t w).

(** ** What the rest of the world is to the front end *)

(** The hosts of the two files and their formats, Argon2id, the digests, HMAC-SHA1,
    [HeaderValue::from_str], the wall clock when the n-th record is made, what the
    audit sink reads back (newest first) of what it was told, and the configured
    second-factor requirement. *)
Record Platform := mkPlatform {
  users_host : Host; users_path : rstr;
  users_from_slice : rbytes -> option UsersFile; users_to_vec : UsersFile -> option rbytes;
  tokens_host : Host; tokens_path : rstr;
  tokens_from_slice : rbytes -> option TokensFile; tokens_to_vec : TokensFile -> option rbytes;
  sha256 : rbytes -> list N;
  key_of : rstr -> Digest;
  hash_password : Z * Z * Z -> rbytes -> rbytes -> option rstr;
  verify_phc : rbytes -> rstr -> bool;
  parse_phc : rstr -> option Phc;
  hasher : Hasher;
  hmac_sha1 : list Z -> list Z -> list Z;
  header_value : rstr -> bool;
  stamp : nat -> rstr;
  query : list AuthRecord -> list AuthRecord;
  totp_required : bool;
}.

(** The order every hash map is walked in. *)
Class Orders := {
  #[global] order_users :: Iteration rstr (rstr * option rstr);
  #[global] order_ips :: Iteration IpAddr RateLimit.Bucket;
  #[global] order_names :: Iteration rstr RateLimit.Bucket;
  #[global] order_tokens :: Iteration rstr TokenLimit.Bucket;
  #[global] order_clients :: Iteration IpAddr Coalesce.Entry;
  #[global] order_sessions :: Iteration Digest Session.Entry;
}.

Section Web.
Context `{!Orders} (P : Platform).

(** [AuthState::record]. *)
Definition record {E} (r : rstr -> AuthRecord) : SE AuthState E () :=
  updating (fun w => add_record (r (stamp P (length (st_log w)))) w).

Definition open (max_failures burst rate_per_minute idle_timeout_secs absolute_timeout_secs : Z)
    (users_file tokens_file : option StoredFile) : result AuthError AuthState :=
  let table := Session.new (from_secs idle_timeout_secs) (from_secs absolute_timeout_secs) in
  match load_users (users_host P) (users_path P) (users_from_slice P) (mkCred users_file 0 None (mkLink false table)) with
  | (Err e, _) => Err e
  | (Ok _, u) =>
      let u := (attach_sessions table u).2 in
      match load_tokens (tokens_host P) (tokens_path P) (tokens_from_slice P) (mkCred tokens_file 0 None ()) with
      | (Err e, _) => Err e
      | (Ok _, t) =>
          Ok (mkState u t (RateLimit.new max_failures) (TokenLimit.new burst rate_per_minute) MAX_CONCURRENT_ARGON2
                empty_coalescer [])
      end
  end.

Definition TOKEN_SUBJECT_PREFIX : rstr := lit "token:".

Definition admit_token (id : rstr) (client_ip : option IpAddr) (now : Instant) : WM () := fun w =>
  let '(l, admission) := TokenLimit.check (st_token_limiter w) id now in
  let w := set_token_limiter l w in
  match admission with
  | Allowed => (Ok (), w)
  | Limited retry_after_secs first =>
      (_ ← (if first : bool then
              record (fun ts =>
                let r := with_detail (lit "web-auth-rate-limited")
                           (with_kind Token (new_record Event.TokenRateLimited (TOKEN_SUBJECT_PREFIX ++ id) RDenied ts)) in
                match client_ip with Some ip => with_client_ip ip r | None => r end)
            else mret ());
       throw (RateLimited retry_after_secs)) w
  end.

Definition record_rejected (ip : IpAddr) (kind : IdentityKind) (now : Instant) (w : AuthState) : AuthState :=
  let '(c, held) := admit_ (st_rejections w) ip now in
  let w := set_rejections c w in
  match held with
  | None => w
  | Some held_back =>
      (record (E := AuthError) (fun ts =>
         let r := with_detail (lit "web-auth-unauthenticated")
                    (with_client_ip ip (with_kind kind (new_record Event.CredentialRejected (lit "-") RDenied ts))) in
         if (0 <? held_back)%Z then with_suppressed held_back r else r) w).2
  end.

(** ** Callers *)

Record Caller := mkCaller { identity : Identity; caller_scopes : Scopes; caller_session : option Session; session_id : option rstr }.

Definition require_unrestricted (c : Caller) : result AuthError Caller :=
  match caller_session c with
  | Some s => if must_change_password s then Err PasswordChangeRequired else Ok c
  | None => Ok c
  end.

Definition require_session (c : Caller) : result AuthError (rstr * Session) :=
  match session_id c, caller_session c with Some id, Some s => Ok (id, s) | _, _ => Err Unauthenticated end.

Definition require_step_up {Value} (c : Caller) (op : Operation Value) (now : Instant) : result AuthError () :=
  match caller_session c with
  | Some s => if requires_step_up op && negb (is_some (step_up_left s now)) then Err StepUpRequired else Ok ()
  | None => Ok ()
  end.

Definition resolve_from (headers : Headers) (client_ip : option IpAddr) (now : Instant) (now_unix : Z) : WM Caller :=
  match cookie_id headers, bearer headers with
  | Some _, Some _ => throw AmbiguousCredentials
  | Some id, None =>
      _ ← on_users (refresh_users (users_host P) (users_path P) (users_from_slice P));
      found ← on_sessions (fun t => lookup (key_of P) t id now);
      match found with
      | None => throw Unauthenticated
      | Some s => mret (mkCaller (mkIdentity (subject s) SessionUser) (scopes s) (Some s) (Some id))
      end
  | None, Some token =>
      holder ← map_error (fun e => match e with UnknownToken => Unauthenticated | _ => e end)
                 (on_tokens (authenticate (tokens_host P) (tokens_path P) (tokens_from_slice P) (sha256 P) token now_unix));
      _ ← admit_token (ti_id holder) client_ip now;
      mret (mkCaller (mkIdentity (TOKEN_SUBJECT_PREFIX ++ ti_id holder) Token) (ti_scopes holder) None None)
  | None, None => throw Unauthenticated
  end.

Definition presented_kind (headers : Headers) : option IdentityKind :=
  match is_some (cookie_id headers), is_some (bearer headers) with
  | true, false => Some SessionUser
  | false, true => Some Token
  | _, _ => None
  end.

(** [resolve_request], at the address, the instant and the Unix second it reads. *)
Definition resolve_request (headers : Headers) (ip : IpAddr) (now : Instant) (now_unix : Z) : WM Caller :=
  after (resolve_from headers (Some ip) now now_unix) (fun resolved w =>
    match resolved, presented_kind headers with
    | Err Unauthenticated, Some kind => (resolved, record_rejected ip kind now w)
    | _, _ => (resolved, w)
    end).

(** The three extractors: [Caller], [PendingCaller] and [WriteCaller]. *)
Definition extract_caller (headers : Headers) (ip : IpAddr) (now : Instant) (now_unix : Z) : SE AuthState ApiError Caller :=
  map_error api_error (c ← resolve_request headers ip now now_unix; give (require_unrestricted c)).

Definition extract_pending (headers : Headers) (ip : IpAddr) (now : Instant) (now_unix : Z) : SE AuthState ApiError Caller :=
  map_error api_error (resolve_request headers ip now now_unix).

Definition extract_write (headers : Headers) (ip : IpAddr) (now : Instant) (now_unix : Z) : SE AuthState ApiError Caller :=
  c ← extract_caller headers ip now now_unix;
  if allows (caller_scopes c) Write then mret c
  else
    _ ← record (fun ts => with_detail DENIED_SCOPE_ID
          (with_kind (ikind (identity c)) (new_record Event.ScopeDenied (Ops.subject (identity c)) RDenied ts)));
    throw (api_new 403 DENIED_SCOPE_ID).

End Web.
