(* ===== verification/Routes.v ===== *)
(** * The handlers of [/api/v1/auth]

    [crates/detent-web/src/auth/routes.rs], [stepup.rs], [enrolment.rs],
    [sessions.rs], [tokens.rs] and [notices.rs]: each handler as one computation
    over the shared state, behind its extractor and the CSRF guard. *)

From Stdlib Require Import ZArith.
From stdpp Require Import gmap.
From S2P Require Import Prelude Stateful Str Num Ip Doc Diag Utf8 AuthErr Time CredFile RateLimit TokenLimit Coalesce Totp AuditLog Tokens Users Ops Session Csrf Web.

(** ** Bodies *)

Record LoginRequest := mkLogin { l_username : rstr; l_password : rstr; l_totp_code : option rstr }.
Record PasswordChangeRequest := mkPasswordChange { pc_current : rstr; pc_new : rstr }.
Record ReauthRequest := mkReauth { re_password : rstr; re_totp_code : option rstr }.
Record TotpDisableRequest := mkDisable { td_current : rstr; td_code : rstr }.
Record TokenRequest := mkTokenRequest { tq_label : rstr; tq_scope : Scope; tq_expires_in_secs : option Z }.

Definition MAX_PASSWORD_LEN : nat := MAX_PASSWORD_CHARS.
Definition MAX_TOTP_CODE_LEN : nat := 16.
Definition MALFORMED_BODY_ID : MessageId := lit "web-request-malformed".
Definition MALFORMED_SUBJECT : rstr := lit "<malformed>".

Definition code_within (code : option rstr) : bool := from_option (fun c => str_len c <=? MAX_TOTP_CODE_LEN)%nat true code.

Definition within_limits (r : LoginRequest) : bool :=
  (str_len (l_username r) <=? MAX_NAME_LEN)%nat && (length (l_password r) <=? MAX_PASSWORD_LEN)%nat && code_within (l_totp_code r).

Definition reauth_within_limits (r : ReauthRequest) : bool :=
  (length (re_password r) <=? MAX_PASSWORD_LEN)%nat && code_within (re_totp_code r).

Definition principal_name (submitted : rstr) : rstr := if name_is_valid submitted then submitted else MALFORMED_SUBJECT.

Definition show_principal (p : Principal) : rstr :=
  match p with PIp ip => lit "ip:" ++ show_ip ip | PUser name => lit "user:" ++ name end.

(** ** Notices *)

Definition MAX_CHANGES : nat := 10.

Record Change := mkChange { ch_at : rstr; ch_change : rstr; ch_source : rstr; ch_client_ip : option rstr }.
Record Notices := mkNotices { since : option rstr; failed_sign_ins : Z; changes : list Change }.

Definition change_of (r : AuthRecord) (subject : rstr) : option Change :=
  '(change, own) ← match ar_event r with
                   | Event.PasswordChanged => Some (lit "password_changed", true)
                   | Event.TotpEnabled => Some (lit "totp_enabled", true)
                   | Event.TotpDisabled => Some (lit "totp_disabled", true)
                   | Event.TokenIssued => Some (lit "token_issued", false)
                   | Event.TokenRevoked => Some (lit "token_revoked", false)
                   | _ => None
                   end;
  let mine := match ar_result r with ROk => true | _ => false end
              && if own : bool then bool_decide (ar_subject r = subject) else begins TOKEN_SUBJECT_PREFIX (ar_subject r) in
  if mine then Some (mkChange (ar_ts r) change (match ar_kind r with LocalUser => lit "cli" | _ => lit "session" end) (ar_client_ip r))
  else None.

Definition no_notices : Notices := mkNotices None 0 [].

(** The loop of [collect], with its accumulator and [current_seen]. *)
Fixpoint collect_from (subject : rstr) (n : Notices) (current_seen : bool) (newest_first : list AuthRecord) : Notices :=
  match newest_first with
  | [] => no_notices
  | r :: rest =>
      if bool_decide (ar_event r = Event.LoginSucceeded) && bool_decide (ar_subject r = subject) then
        if current_seen then mkNotices (Some (ar_ts r)) (failed_sign_ins n) (changes n)
        else collect_from subject n true rest
      else if bool_decide (ar_event r = Event.LoginFailed) && bool_decide (ar_subject r = subject) then
        collect_from subject (mkNotices (since n) (saturating_add 32 (failed_sign_ins n) 1) (changes n)) current_seen rest
      else if (length (changes n) <? MAX_CHANGES)%nat then
        match change_of r subject with
        | Some c => collect_from subject (mkNotices (since n) (failed_sign_ins n) (changes n ++ [c])) current_seen rest
        | None => collect_from subject n current_seen rest
        end
      else collect_from subject n current_seen rest
  end.

Definition collect (newest_first : list AuthRecord) (subject : rstr) : Notices := collect_from subject no_notices false newest_first.

(** ** Answers *)

Inductive Body :=
| Empty
| SessionBody (v : SessionView)
| NoticesBody (n : Notices)
| TotpStatusBody (enrolled required : bool)
| EnrolmentBody (uri secret : rstr) (expires_in_secs : Z)
| SummariesBody (l : list SessionSummary)
| RevokedBody (ended : nat)
| StepUpBody (step_up_expires_in_secs : Z)
| TokensBody (l : list TokenView)
| IssuedBody (token : rstr) (v : TokenView).

Record Answer := mkAnswer { an_status : nat; an_set_cookie : option rstr; an_body : Body }.

Definition ok_answer (b : Body) : Answer := mkAnswer 200 None b.

Definition Established : Type := rstr * SessionView.

(** ** What a request brings *)

(** The random strings of one new session. *)
Record Draw := mkDraw { d_id : option rstr; d_csrf : option rstr; d_handle : option rstr }.

(** The request's address, headers and authority; the clocks the guard, the
    extractor and the handler read; the salts, the timestamps of stored changes
    and the session draws in the order they are used; the other random draws; and
    what other requests do while this one waits for a password to be hashed. *)
Record Env := mkEnv {
  client : IpAddr; headers : Headers; authority : option rstr;
  guard_at : Instant; resolve_at : Instant; resolve_unix : Z; handle_at : Instant; handle_unix : Z;
  salt : nat -> rbytes; updated : nat -> rstr; draw : nat -> Draw;
  drawn_secret : option TotpSecret; drawn_token : option rbytes; drawn_token_id : option rbytes;
  meanwhile : AuthState -> AuthState;
}.

Section Routes.
Context `{!Orders} (P : Platform) (e : Env).

(** The calls of the stores with this platform's parameters. *)
Definition verify_user (i : nat) (name password : rstr) : SE (Store UserRecord Link) AuthError VerifiedUser :=
  verify_password (hash_password P) (verify_phc P) (parse_phc P) (users_host P) (users_path P) (users_from_slice P) (users_to_vec P)
    (hasher P) (salt e i) name password (updated e i).
Definition store_password (i : nat) (name password : rstr) : SE (Store UserRecord Link) AuthError () :=
  set_password (hash_password P) (users_host P) (users_path P) (users_from_slice P) (users_to_vec P) (hasher P) (salt e i) name password (updated e i).
Definition note_counter_of (i : nat) (name : rstr) (counter : Z) : SE (Store UserRecord Link) AuthError () :=
  note_totp_counter (users_host P) (users_path P) (users_from_slice P) (users_to_vec P) name counter (updated e i).
Definition store_totp (i : nat) (name : rstr) (secret : option TotpSecret) : SE (Store UserRecord Link) AuthError () :=
  set_totp (users_host P) (users_path P) (users_from_slice P) (users_to_vec P) name secret (updated e i).
Definition reread_users : SE (Store UserRecord Link) AuthError () := refresh_users (users_host P) (users_path P) (users_from_slice P).

Definition check_limits (subject : rstr) : WM () :=
  r ← reading (fun w => RateLimit.check (st_limiter w) (client e) subject (handle_at e)); give r.

Definition succeeded {E} (subject : rstr) : SE AuthState E () :=
  updating (fun w => set_limiter (record_success (st_limiter w) (client e) subject) w).

(** A call on the blocking pool, behind a hashing slot. *)
Definition hashing {A} (m : SE (Store UserRecord Link) AuthError A) : WM A := fun w =>
  match st_permits w with
  | O => (Err Busy, w)
  | S free =>
      let '(r, w) := on_users m (set_permits free w) in
      (r, meanwhile e (set_permits (S (st_permits w)) w))
  end.

Definition new_session_for (i : nat) (subject : rstr) (totp_satisfied : bool) : WM (rstr * Session) :=
  r ← on_sessions (fun t => create (key_of P) t subject (mkScopes true) totp_satisfied
                              (d_id (draw e i)) (d_csrf (draw e i)) (d_handle (draw e i)) (handle_at e));
  give r.

Definition viewed (x : rstr * Session) : WM Established :=
  v ← reading (fun w => view (sessions w) x.2 (handle_at e)); mret (x.1, v).

(** [u64::try_from(unix_now()).unwrap_or_default()]. *)
Definition unix_seconds : Z := if (handle_unix e <? 0)%Z then 0 else handle_unix e.

(** ** [routes.rs] *)

Definition check_totp (verified : VerifiedUser) (code : option rstr) : WM bool :=
  match v_totp verified with
  | None => if totp_required P then throw InvalidCredentials else mret false
  | Some secret =>
      code ← give (match code with Some c => Ok c | None => Err InvalidCredentials end);
      counter ← give (Totp.check (hmac_sha1 P) secret code unix_seconds (v_totp_last_counter verified));
      _ ← on_users (note_counter_of 1 (v_name verified) counter);
      mret true
  end.

Definition attempt (request : LoginRequest) (subject : rstr) : WM Established :=
  _ ← check_limits subject;
  if negb (within_limits request) then throw InvalidCredentials
  else
    let presented := cookie_id (headers e) in
    verified ← hashing (verify_user 0 subject (l_password request));
    totp_satisfied ← check_totp verified (l_totp_code request);
    rotated ← match presented with
              | Some presented =>
                  r ← on_sessions (fun t => rotate (key_of P) t presented (v_name verified) (Some (mkScopes true)) (Some totp_satisfied)
                                     (d_id (draw e 0)) (d_csrf (draw e 0)) (d_handle (draw e 0)) (handle_at e));
                  give r
              | None => mret None
              end;
    made ← match rotated with
           | Some made => mret made
           | None => new_session_for 1 (v_name verified) totp_satisfied
           end;
    session ← (if v_must_change_password verified
               then r ← on_sessions (fun t => restrict (key_of P) t made.1); mret (default made.2 r)
               else mret made.2);
    viewed (made.1, session).

Definition replace_password (subject : rstr) (request : PasswordChangeRequest) (totp_satisfied : bool) : WM Established :=
  _ ← check_limits subject;
  if (MAX_PASSWORD_LEN <? length (pc_current request))%nat then throw InvalidCredentials
  else
    _ ← give (check_password (pc_new request));
    _ ← hashing (_ ← verify_user 0 subject (pc_current request);
                 if bool_decide (pc_current request = pc_new request) then throw PasswordUnchanged
                 else store_password 1 subject (pc_new request));
    _ ← on_sessions (fun t => (revoke_subject t subject, ()));
    made ← new_session_for 0 subject totp_satisfied;
    viewed made.

(** A record about this request's client. *)
Definition about_client {E} (event : AuthEvent) (subject : rstr) (r : AuditResult) : SE AuthState E () :=
  record P (fun ts => with_client_ip (client e) (with_kind SessionUser (new_record event subject r ts))).

Definition audit_failure {E} (error : AuthError) (subject : rstr) (event : AuthEvent) : SE AuthState E () :=
  match error with
  | RateLimited _ | Busy => mret ()
  | _ =>
      let event := match error with TotpReplayed => Event.TotpReplayed | _ => event end in
      _ ← record P (fun ts => with_detail (message_id error)
            (with_client_ip (client e) (with_kind SessionUser (new_record event subject RError ts))));
      match error with
      | InvalidCredentials | TotpReplayed =>
          locked ← (fun w => let '(l, locked) := record_failure (st_limiter w) (client e) subject (handle_at e) in (Ok locked, set_limiter l w));
          foldr (fun principal rest => _ ← about_client Event.LockedOut (show_principal principal) RError; rest) (mret ()) locked
      | _ => mret ()
      end
  end.

Definition set_cookie (value : rstr) : option rstr := if header_value P value then Some value else None.

Definition established (x : Established) : Answer := mkAnswer 200 (set_cookie (set_cookie_value x.1)) (SessionBody x.2).

Definition malformed {A} : SE AuthState ApiError A := throw (api_new 400 MALFORMED_BODY_ID).

Definition login (body : option LoginRequest) : SE AuthState ApiError Answer :=
  match body with
  | None => malformed
  | Some request =>
      let subject := principal_name (l_username request) in
      after (attempt request subject) (fun r =>
        match r with
        | Ok x =>
            _ ← succeeded subject;
            _ ← about_client Event.LoginSucceeded (view_subject x.2) ROk;
            mret (established x)
        | Err error => _ ← audit_failure error subject Event.LoginFailed; throw (api_error error)
        end)
  end.

Abbreviation caller := (extract_caller P (headers e) (client e) (resolve_at e) (resolve_unix e)).
Abbreviation pending_caller := (extract_pending P (headers e) (client e) (resolve_at e) (resolve_unix e)).
Abbreviation write_caller := (extract_write P (headers e) (client e) (resolve_at e) (resolve_unix e)).

Definition need_session (c : Caller) : SE AuthState ApiError (rstr * Session) := map_error api_error (give (require_session c)).

Definition logout_handler : SE AuthState ApiError Answer :=
  c ← pending_caller;
  '(id, s) ← need_session c;
  ended ← on_sessions (fun t => logout (key_of P) t id);
  _ ← about_client Event.LoggedOut (Session.subject s) (if ended : bool then ROk else RError);
  mret (mkAnswer 204 (set_cookie clear_cookie_value) Empty).

Definition session_handler : SE AuthState ApiError Answer :=
  c ← pending_caller;
  '(_, s) ← need_session c;
  v ← reading (fun w => view (sessions w) s (handle_at e));
  mret (ok_answer (SessionBody v)).

Definition notices_handler : SE AuthState ApiError Answer :=
  c ← caller;
  '(_, s) ← need_session c;
  n ← reading (fun w => collect (query P (st_log w)) (Session.subject s));
  mret (ok_answer (NoticesBody n)).

(** The end of a handler that changes a credential. *)
Definition credential_changed (subject : rstr) (event : AuthEvent) (x : Established) : SE AuthState ApiError Answer :=
  _ ← succeeded subject;
  _ ← about_client event subject ROk;
  mret (established x).

Definition change_password (body : option PasswordChangeRequest) : SE AuthState ApiError Answer :=
  c ← pending_caller;
  '(_, s) ← need_session c;
  match body with
  | None => malformed
  | Some request =>
      let subject := Session.subject s in
      after (replace_password subject request (totp_satisfied s)) (fun r =>
        match r with
        | Ok x => credential_changed subject Event.PasswordChanged x
        | Err error => _ ← audit_failure error subject Event.PasswordChangeFailed; throw (api_error error)
        end)
  end.

(** ** [stepup.rs] *)

Definition STEP_UP_SECS : Z := as_secs STEP_UP_TTL.

Definition verify_reauth (subject : rstr) (request : ReauthRequest) : WM () :=
  _ ← check_limits subject;
  if negb (reauth_within_limits request) then throw InvalidCredentials
  else
    verified ← hashing (verify_user 0 subject (re_password request));
    _ ← check_totp verified (re_totp_code request);
    mret ().

Definition reauth (body : option ReauthRequest) : SE AuthState ApiError Answer :=
  c ← write_caller;
  '(id, s) ← need_session c;
  match body with
  | None => malformed
  | Some request =>
      let subject := Session.subject s in
      after (verify_reauth subject request) (fun r =>
        match r with
        | Err error => _ ← audit_failure error subject Event.StepUpFailed; throw (api_error error)
        | Ok _ =>
            stepped ← on_sessions (fun t => step_up_session (key_of P) t id (handle_at e));
            if negb stepped then throw (api_error Unauthenticated)
            else
              _ ← succeeded subject;
              _ ← about_client Event.StepUpSucceeded subject ROk;
              mret (ok_answer (StepUpBody STEP_UP_SECS))
        end)
  end.

(** ** [enrolment.rs] *)

Definition verify_current (subject password : rstr) : WM VerifiedUser :=
  if (MAX_PASSWORD_LEN <? length password)%nat then throw InvalidCredentials else hashing (verify_user 0 subject password).

Definition renew_session (subject : rstr) (totp_satisfied : bool) : WM Established :=
  _ ← on_sessions (fun t => (revoke_subject t subject, ()));
  made ← new_session_for 0 subject totp_satisfied;
  viewed made.

Definition is_enrolled (subject : rstr) : WM bool :=
  users ← on_users list_users;
  mret (existsb (fun u => bool_decide (uv_name u = subject) && uv_totp_enrolled u) users).

Definition start_enrolment (id subject current_password : rstr) : WM (rstr * rstr) :=
  _ ← check_limits subject;
  verified ← verify_current subject current_password;
  match v_totp verified with
  | Some _ => throw TotpEnrolled
  | None =>
      secret ← give (match drawn_secret e with Some s => Ok s | None => Err Entropy end);
      kept ← on_sessions (fun t => set_pending_totp (key_of P) t id secret (handle_at e));
      if negb kept then throw Unauthenticated else mret (otpauth_uri secret subject, to_base32 secret)
  end.

Definition confirm_enrolment (id subject code : rstr) : WM Established :=
  _ ← check_limits subject;
  if (MAX_TOTP_CODE_LEN <? str_len code)%nat then throw InvalidCredentials
  else
    _ ← on_users reread_users;
    enrolled ← is_enrolled subject;
    if enrolled : bool then throw TotpEnrolled
    else
      secret ← on_sessions (fun t => get_pending_totp (key_of P) t id (handle_at e));
      secret ← give (match secret with Some s => Ok s | None => Err TotpNoPending end);
      counter ← give (Totp.check (hmac_sha1 P) secret code unix_seconds None);
      taken ← on_sessions (fun t => take_pending_totp (key_of P) t id);
      if negb taken then throw TotpNoPending
      else
        _ ← on_users (store_totp 0 subject (Some secret));
        _ ← on_users (note_counter_of 1 subject counter);
        renew_session subject true.

Definition turn_off (subject : rstr) (request : TotpDisableRequest) : WM Established :=
  _ ← check_limits subject;
  if totp_required P then throw TotpRequired
  else if (MAX_TOTP_CODE_LEN <? str_len (td_code request))%nat then throw InvalidCredentials
  else
    verified ← verify_current subject (td_current request);
    secret ← give (match v_totp verified with Some s => Ok s | None => Err TotpNotEnrolled end);
    counter ← give (Totp.check (hmac_sha1 P) secret (td_code request) unix_seconds (v_totp_last_counter verified));
    _ ← on_users (note_counter_of 1 subject counter);
    _ ← on_users (store_totp 2 subject None);
    renew_session subject false.

Definition refused {A} (error : AuthError) (subject : rstr) (event : AuthEvent) : SE AuthState ApiError A :=
  _ ← (if (AuthErr.status error =? 409)%nat then mret () else audit_failure error subject event);
  throw (api_error error).

Definition status_handler : SE AuthState ApiError Answer :=
  c ← caller;
  '(_, s) ← need_session c;
  enrolled ← map_error api_error (_ ← on_users reread_users; is_enrolled (Session.subject s));
  mret (ok_answer (TotpStatusBody enrolled (totp_required P))).

Definition enrol (body : option rstr) : SE AuthState ApiError Answer :=
  c ← write_caller;
  '(id, s) ← need_session c;
  match body with
  | None => malformed
  | Some current_password =>
      let subject := Session.subject s in
      after (start_enrolment id subject current_password) (fun r =>
        match r with
        | Ok (uri, secret) =>
            _ ← succeeded subject;
            mret (ok_answer (EnrolmentBody uri secret (as_secs PENDING_TOTP_TTL)))
        | Err error => refused error subject Event.TotpEnabled
        end)
  end.

Definition confirm (body : option rstr) : SE AuthState ApiError Answer :=
  c ← write_caller;
  '(id, s) ← need_session c;
  match body with
  | None => malformed
  | Some code =>
      let subject := Session.subject s in
      after (confirm_enrolment id subject code) (fun r =>
        match r with
        | Ok x => credential_changed subject Event.TotpEnabled x
        | Err error => refused error subject Event.TotpEnabled
        end)
  end.

Definition disable (body : option TotpDisableRequest) : SE AuthState ApiError Answer :=
  c ← write_caller;
  '(_, s) ← need_session c;
  match body with
  | None => malformed
  | Some request =>
      let subject := Session.subject s in
      after (turn_off subject request) (fun r =>
        match r with
        | Ok x => credential_changed subject Event.TotpDisabled x
        | Err error => refused error subject Event.TotpDisabled
        end)
  end.

(** ** [sessions.rs] *)

Definition list_handler : SE AuthState ApiError Answer :=
  c ← caller;
  '(_, s) ← need_session c;
  l ← on_sessions (fun t => list_sessions t (Session.subject s) (handle s) (handle_at e) (handle_unix e));
  mret (ok_answer (SummariesBody l)).

Definition record_revoked {E} (subject : rstr) (count : nat) : SE AuthState E () :=
  foldr (fun _ rest => _ ← about_client Event.SessionRevoked subject ROk; rest) (mret ()) (seq 0 count).

Definition revoke_session (presented_handle : rstr) : SE AuthState ApiError Answer :=
  c ← write_caller;
  '(_, s) ← need_session c;
  revoked ← on_sessions (fun t => revoke_handle t (Session.subject s) presented_handle);
  if negb revoked then throw (api_error UnknownSession)
  else
    _ ← record_revoked (Session.subject s) 1;
    mret (mkAnswer 204 (if handle_eq (handle s) presented_handle then set_cookie clear_cookie_value else None) Empty).

Definition revoke_others_handler : SE AuthState ApiError Answer :=
  c ← write_caller;
  '(_, s) ← need_session c;
  ended ← on_sessions (fun t => revoke_others t (Session.subject s) (handle s));
  _ ← record_revoked (Session.subject s) ended;
  mret (ok_answer (RevokedBody ended)).

(** ** [tokens.rs] *)

Definition expiry (now secs : Z) : result AuthError Z :=
  if (secs =? 0)%Z then Err TokenExpiryInvalid
  else if (2 ^ 63 - 1 <? secs)%Z || (2 ^ 63 - 1 <? now + secs)%Z then Err TokenExpiryInvalid
  else Ok (now + secs)%Z.

Definition require_fresh_step_up (s : Session) : result AuthError () :=
  match step_up_left s (handle_at e) with Some _ => Ok () | None => Err StepUpRequired end.

Definition record_token {E} (event : AuthEvent) (id : rstr) (s : Session) : SE AuthState E () :=
  record P (fun ts => with_client_ip (client e) (with_actor (Session.subject s)
    (with_kind SessionUser (new_record event (TOKEN_SUBJECT_PREFIX ++ id) ROk ts)))).

Definition tokens_handler : SE AuthState ApiError Answer :=
  c ← caller;
  _ ← need_session c;
  l ← map_error api_error (on_tokens (_ ← refresh_tokens (tokens_host P) (tokens_path P) (tokens_from_slice P); list_tokens));
  mret (ok_answer (TokensBody l)).

Definition create_token (body : option TokenRequest) : SE AuthState ApiError Answer :=
  c ← write_caller;
  '(_, s) ← need_session c;
  match body with
  | None => malformed
  | Some request =>
      '(token, v) ← map_error api_error
        (if negb (label_is_valid (tq_label request)) then throw TokenLabelInvalid
         else
           expires_at ← give (match tq_expires_in_secs request with
                              | None => Ok None
                              | Some secs => Some <$> expiry (handle_unix e) secs
                              end);
           if totp_required P && negb (totp_satisfied s) then throw TokenTotpRequired
           else
             _ ← give (require_fresh_step_up s);
             on_tokens (issue (tokens_host P) (tokens_path P) (tokens_from_slice P) (tokens_to_vec P) (sha256 P)
                          (tq_label request) (tq_scope request) expires_at (drawn_token e) (drawn_token_id e) (updated e 0)));
      _ ← record_token Event.TokenIssued (tv_id v) s;
      mret (mkAnswer 201 None (IssuedBody token v))
  end.

Definition revoke_token (id : rstr) : SE AuthState ApiError Answer :=
  c ← write_caller;
  '(_, s) ← need_session c;
  _ ← map_error api_error
    (_ ← give (require_fresh_step_up s);
     on_tokens (revoke (tokens_host P) (tokens_path P) (tokens_from_slice P) (tokens_to_vec P) id));
  _ ← record_token Event.TokenRevoked id s;
  mret (mkAnswer 204 None Empty).

(** ** The route table and the guard in front of it *)

Inductive Request :=
| Login (body : option LoginRequest)
| Logout
| DescribeSession
| ReadNotices
| ChangePassword (body : option PasswordChangeRequest)
| TotpStatus
| TotpEnrol (current_password : option rstr)
| TotpConfirm (code : option rstr)
| TotpDisable (body : option TotpDisableRequest)
| ListSessions
| RevokeSession (handle : rstr)
| RevokeOthers
| Reauth (body : option ReauthRequest)
| ListTokens
| CreateToken (body : option TokenRequest)
| RevokeToken (id : rstr).

Definition method (r : Request) : Method :=
  match r with
  | DescribeSession | ReadNotices | TotpStatus | ListSessions | ListTokens => GET
  | Login _ | Logout | ChangePassword _ | TotpEnrol _ | TotpConfirm _ | TotpDisable _ | RevokeSession _ | RevokeOthers
  | Reauth _ | CreateToken _ | RevokeToken _ => POST
  end.

Definition handler (r : Request) : SE AuthState ApiError Answer :=
  match r with
  | Login body => login body
  | Logout => logout_handler
  | DescribeSession => session_handler
  | ReadNotices => notices_handler
  | ChangePassword body => change_password body
  | TotpStatus => status_handler
  | TotpEnrol body => enrol body
  | TotpConfirm body => confirm body
  | TotpDisable body => disable body
  | ListSessions => list_handler
  | RevokeSession handle => revoke_session handle
  | RevokeOthers => revoke_others_handler
  | Reauth body => reauth body
  | ListTokens => tokens_handler
  | CreateToken body => create_token body
  | RevokeToken id => revoke_token id
  end.

(** [csrf_guard] around the routes. *)
Definition guard (m : Method) : SE AuthState ApiError () :=
  v ← on_sessions (fun t => verdict (key_of P) t m (headers e) (authority e) (guard_at e));
  map_error api_error (give v).

Definition serve (r : Request) : SE AuthState ApiError Answer := _ ← guard (method r); handler r.

End Routes.
