(* ===== verification/RouteSafe.v ===== *)
(** * What the authentication routes guarantee

    Who can reach a handler, what a refused attempt leaves behind, where sessions
    come from and end, and what reads never change: theorems about [Routes.v],
    for every platform and whatever other requests do in between. *)

From Stdlib Require Import ZArith.
From stdpp Require Import gmap.
From S2P Require Import Prelude Stateful Str Num Ip Doc Diag Utf8 AuthErr Time CredFile RateLimit TokenLimit Coalesce Totp AuditLog Tokens Users Ops Session Csrf Web Routes.

Abbreviation session_of := Session.session.
Abbreviation subject_of := Session.subject.

(** ** Tables of sessions *)

(** The same sign-in: everything but the times it was used and stepped up. *)
Definition same_holder (s s' : Session) : Prop :=
  subject_of s' = subject_of s /\ scopes s' = scopes s /\ csrf_token s' = csrf_token s /\ created s' = created s
  /\ totp_satisfied s' = totp_satisfied s /\ must_change_password s' = must_change_password s /\ handle s' = handle s.

(** Nothing in [t'] that is not in [t]. *)
Definition older (t t' : SessionStore) : Prop :=
  forall m', entries t' = Some m' -> exists m, entries t = Some m /\
    forall k x', m' !! k = Some x' -> exists x, m !! k = Some x /\ id x' = id x /\ same_holder (session_of x) (session_of x').

#[export] Instance same_holder_refl : Reflexive same_holder. Proof. by intros s. Qed.
#[export] Instance same_holder_trans : Transitive same_holder.
Proof. unfold same_holder. intros s1 s2 s3. intuition congruence. Qed.

#[export] Instance older_refl : Reflexive older. Proof. intros t m Hm. exists m. split; [done|]. intros k x Hx. by exists x. Qed.
#[export] Instance older_trans : Transitive older.
Proof.
  intros t1 t2 t3 H12 H23 m3 Hm3. destruct (H23 m3 Hm3) as (m2 & Hm2 & H2). destruct (H12 m2 Hm2) as (m1 & Hm1 & H1).
  exists m1. split; [done|]. intros k x3 Hx3. destruct (H2 k x3 Hx3) as (x2 & Hx2 & E2 & S2). destruct (H1 k x2 Hx2) as (x1 & Hx1 & E1 & S1).
  exists x1. split_and!; [done|congruence|by etrans].
Qed.

Lemma older_set t m m' : entries t = Some m ->
  (forall k x', m' !! k = Some x' -> exists x, m !! k = Some x /\ id x' = id x /\ same_holder (session_of x) (session_of x')) ->
  older t (set_entries t m').
Proof. intros Hm H m0 [= <-]. by exists m. Qed.

Lemma older_subset t m m' : entries t = Some m -> m' ⊆ m -> older t (set_entries t m').
Proof. intros Hm Hs. apply (older_set t m m' Hm). intros k x Hx. exists x. split; [by eapply lookup_weaken|done]. Qed.

Lemma older_insert t m k x x' : entries t = Some m -> m !! k = Some x -> id x' = id x -> same_holder (session_of x) (session_of x') ->
  older t (set_entries t (<[k := x']> m)).
Proof.
  intros Hm Hx Hi Hs. apply (older_set t m _ Hm). intros k0 y. destruct (decide (k0 = k)) as [->|Hk].
  - rewrite lookup_insert_eq. intros [= <-]. eauto.
  - rewrite lookup_insert_ne by done. intros Hy. by exists y.
Qed.

Section Ops.
Variable key : rstr -> Digest.

Lemma older_lookup t p now : older t (lookup key t p now).1.
Proof.
  unfold lookup. destruct (entries t) as [m|] eqn:Em; [|done]. destruct (m !! key p) as [x|] eqn:Ex; [|done].
  destruct (negb _); [done|]. destruct (expired _ _ _ _); simpl; [by eapply older_subset, delete_subseteq|by eapply older_insert].
Qed.

Lemma older_retain t keep : older t (retain t keep).
Proof. unfold retain. destruct (entries t) as [m|] eqn:Em; [|done]. by eapply older_subset, map_filter_subseteq. Qed.

Lemma older_logout t p : older t (logout key t p).1.
Proof.
  unfold logout. destruct (entries t) as [m|] eqn:Em; [|done]. destruct (m !! key p) as [x|]; [|done].
  destruct (ct_eq _ _); [by eapply older_subset, delete_subseteq|done].
Qed.

Lemma older_step_up t p now : older t (step_up_session key t p now).1.
Proof.
  unfold step_up_session. destruct (entries t) as [m|] eqn:Em; [|done]. destruct (m !! key p) as [x|] eqn:Ex; [|done].
  destruct (ct_eq _ _); [|done]. destruct (expired _ _ _ _); simpl; [by eapply older_subset, delete_subseteq|by eapply older_insert].
Qed.

Lemma named_some t p m x : named key t p = Some (m, x) -> entries t = Some m /\ m !! key p = Some x /\ id x = p.
Proof.
  unfold named. destruct (entries t) as [m0|]; [|done]. simpl. destruct (m0 !! key p) as [x0|] eqn:Ex; [|done]. simpl.
  destruct (ct_eq _ _) eqn:Ec; [|done]. apply ct_eq_true in Ec. by intros [= <- <-].
Qed.

Lemma older_set_pending t p secret now : older t (set_pending_totp key t p secret now).1.
Proof. unfold set_pending_totp. destruct (named key t p) as [[m x]|] eqn:En; [|done]. apply named_some in En as (? & ? & ?). by eapply older_insert. Qed.

Lemma older_get_pending t p now : older t (get_pending_totp key t p now).1.
Proof.
  unfold get_pending_totp. destruct (named key t p) as [[m x]|] eqn:En; [|done]. apply named_some in En as (? & ? & ?).
  destruct (pending_totp x) as [[? ?]|]; [|done]. case_match; [by eapply older_insert|done].
Qed.

Lemma older_take_pending t p : older t (take_pending_totp key t p).1.
Proof. unfold take_pending_totp. destruct (named key t p) as [[m x]|] eqn:En; [|done]. apply named_some in En as (? & ? & ?). by eapply older_insert. Qed.

Lemma older_list `{!Iteration Digest Session.Entry} t s c now unix : older t (list_sessions t s c now unix).1.
Proof. unfold list_sessions. destruct (entries t) as [m|] eqn:Em; [|done]. by eapply older_subset, map_filter_subseteq. Qed.

Lemma older_verdict t m h a now : older t (verdict key t m h a now).1.
Proof.
  unfold verdict. destruct (is_safe m); [done|]. destruct (has_bearer h); [done|]. destruct (find_map _ _) as [p|]; [|done].
  pose proof (older_lookup t p now) as H. by destruct (lookup key t p now) as [t' [s|]].
Qed.

End Ops.

Lemma older_end_sessions `{!Iteration rstr (rstr * option rstr)} before after_ l : older (Users.table l) (Users.table (end_sessions before after_ l)).
Proof.
  unfold end_sessions. destruct (attached l); [|done]. simpl. rewrite end_changed_retain. apply older_retain.
Qed.

(** ** Kinds of routes *)

(** The routes a session that owes a password change may still use. *)
Definition pending_route (r : Request) : bool :=
  match r with Logout | DescribeSession | ChangePassword _ => true | _ => false end.

Definition token_route (r : Request) : bool := match r with CreateToken _ | RevokeToken _ => true | _ => false end.
Definition creates_token (r : Request) : bool := match r with CreateToken _ => true | _ => false end.
Definition is_login (r : Request) : bool := match r with Login _ => true | _ => false end.

(** ** What the handlers keep *)

Section Kept.
Context `{!Orders} (P : Platform) (e : Env).
Variable R : AuthState -> AuthState -> Prop.
Context `{!Reflexive R, !Transitive R}.

(** The records a request can cause without being let in. *)
Definition rejection (ev : AuthEvent) : Prop := ev = Event.CredentialRejected \/ ev = Event.TokenRateLimited.

(** What every request may do: read the two files again, look its session up,
    charge its token, and have its refusal recorded. *)
Record keeps_reads : Prop := {
  kr_record : forall r w, rejection (ar_event r) -> R w (add_record r w);
  kr_token_limiter : forall l w, R w (set_token_limiter l w);
  kr_rejections : forall c w, R w (set_rejections c w);
  kr_lookup : forall p now, keeps R (on_sessions (E := AuthError) (fun t => lookup (key_of P) t p now));
  kr_list : forall s c now unix, keeps R (on_sessions (E := ApiError) (fun t => list_sessions t s c now unix));
  kr_verdict : forall m h a now, keeps R (on_sessions (E := ApiError) (fun t => verdict (key_of P) t m h a now));
  kr_users : keeps R (on_users (reread_users P));
  kr_tokens : forall t unix, keeps R (on_tokens (authenticate (tokens_host P) (tokens_path P) (tokens_from_slice P) (sha256 P) t unix));
  kr_list_tokens : keeps R (on_tokens (_ ← refresh_tokens (tokens_host P) (tokens_path P) (tokens_from_slice P); list_tokens));
}.

Lemma keeps_record (Q : AuthEvent -> Prop) {E} (r : rstr -> AuthRecord) :
  (forall x w, Q (ar_event x) -> R w (add_record x w)) -> (forall ts, Q (ar_event (r ts))) -> keeps R (record (E := E) P r).
Proof. intros HR Hr w. apply HR, Hr. Qed.

Lemma keeps_list_users : keeps R (on_users list_users).
Proof. intros w. by destruct w. Qed.

Context (Hreads : keeps_reads).

Lemma keeps_admit_token i ip now : keeps R (admit_token P i ip now).
Proof.
  intros w. unfold admit_token. destruct (TokenLimit.check _ _ _) as [l [|secs first]]; [apply (kr_token_limiter Hreads)|].
  etrans; [apply (kr_token_limiter Hreads)|]. refine ((_ : keeps R _) _). kept.
  apply (keeps_record rejection _ (kr_record Hreads)). intros ts. right. by destruct ip.
Qed.

Lemma kept_rejected ip kind now w : R w (record_rejected P ip kind now w).
Proof.
  unfold record_rejected. destruct (admit_ _ _ _) as [c [n|]]; simpl; [|apply (kr_rejections Hreads)].
  etrans; [apply (kr_rejections Hreads)|]. apply (kr_record Hreads). left. by destruct (0 <? n)%Z.
Qed.

Lemma keeps_resolve_from h ip now unix : keeps R (resolve_from P h ip now unix).
Proof.
  unfold resolve_from. pose proof (kr_users Hreads). pose proof (kr_tokens Hreads). pose proof (kr_lookup Hreads).
  pose proof keeps_admit_token. kept.
Qed.

Lemma keeps_resolve_request h ip now unix : keeps R (resolve_request P h ip now unix).
Proof.
  unfold resolve_request. apply (keeps_after R); [apply keeps_resolve_from|]. intros r w.
  destruct r as [c|x]; [done|]. destruct x; try done. destruct (presented_kind h); [apply kept_rejected|done].
Qed.
#[local] Hint Resolve keeps_resolve_request keeps_list_users : kept.

Lemma keeps_extract_caller h ip now unix : keeps R (extract_caller P h ip now unix).
Proof. unfold extract_caller. kept. Qed.

Lemma keeps_extract_pending h ip now unix : keeps R (extract_pending P h ip now unix).
Proof. unfold extract_pending. kept. Qed.
#[local] Hint Resolve keeps_extract_caller keeps_extract_pending : kept.

Lemma keeps_need_session c : keeps R (need_session c).
Proof. unfold need_session. kept. Qed.
#[local] Hint Resolve keeps_need_session : kept.

Lemma keeps_guard m : keeps R (guard P e m).
Proof. unfold guard. pose proof (kr_verdict Hreads). kept. Qed.

(** The requests that only read. *)
Lemma keeps_reading_handlers r : method r = GET -> keeps R (handler P e r).
Proof.
  pose proof (kr_list Hreads). pose proof (kr_users Hreads). pose proof (kr_list_tokens Hreads).
  destruct r; try done; intros _; cbn [handler]; unfold session_handler, notices_handler, status_handler, list_handler, tokens_handler, is_enrolled; kept.
Qed.

Lemma keeps_serve_get r : method r = GET -> keeps R (serve P e r).
Proof. intros Hr. unfold serve. apply (keeps_bind R); [apply keeps_guard|]. intros _. by apply keeps_reading_handlers. Qed.

(** What the other requests may do besides. *)
Record keeps_writes : Prop := {
  kw_record : forall r w, R w (add_record r w);
  kw_limiter : forall l w, R w (set_limiter l w);
  kw_permits : forall n w, R w (set_permits n w);
  kw_meanwhile : forall w, R w (meanwhile e w);
  kw_verify : forall i name password, keeps R (on_users (verify_user P e i name password));
  kw_password : forall i name password name' password' b, keeps R (on_users
     (_ ← verify_user P e i name password; if b : bool then throw PasswordUnchanged else store_password P e 1 name' password'));
  kw_counter : forall i name c, keeps R (on_users (note_counter_of P e i name c));
  kw_totp : forall i name secret, keeps R (on_users (store_totp P e i name secret));
  kw_logout : forall p, keeps R (on_sessions (E := ApiError) (fun t => logout (key_of P) t p));
  kw_step_up : forall p now, keeps R (on_sessions (E := ApiError) (fun t => step_up_session (key_of P) t p now));
  kw_set_pending : forall p s now, keeps R (on_sessions (E := AuthError) (fun t => set_pending_totp (key_of P) t p s now));
  kw_get_pending : forall p now, keeps R (on_sessions (E := AuthError) (fun t => get_pending_totp (key_of P) t p now));
  kw_take_pending : forall p, keeps R (on_sessions (E := AuthError) (fun t => take_pending_totp (key_of P) t p));
  kw_revoke_handle : forall s h, keeps R (on_sessions (E := ApiError) (fun t => revoke_handle t s h));
  kw_revoke_others : forall s h, keeps R (on_sessions (E := ApiError) (fun t => revoke_others t s h));
  kw_revoke_subject : forall s, keeps R (on_sessions (E := AuthError) (fun t => (revoke_subject t s, ())));
}.

Context (Hwrites : keeps_writes).

Lemma keeps_any_record {E} r : keeps R (record (E := E) P r).
Proof. by apply (keeps_record (fun _ => True)); [intros; apply (kw_record Hwrites)|]. Qed.
#[local] Hint Resolve keeps_any_record : kept.

Lemma keeps_extract_write h ip now unix : keeps R (extract_write P h ip now unix).
Proof. unfold extract_write. kept. Qed.
#[local] Hint Resolve keeps_extract_write : kept.

Lemma keeps_succeeded {E} s : keeps R (succeeded (E := E) e s).
Proof. intros w. apply (kw_limiter Hwrites). Qed.

Lemma keeps_about_client {E} ev s r : keeps R (about_client (E := E) P e ev s r).
Proof. unfold about_client. kept. Qed.
#[local] Hint Resolve keeps_succeeded keeps_about_client : kept.

Lemma keeps_hashing {A} (m : SE (Store UserRecord Link) AuthError A) : keeps R (on_users m) -> keeps R (hashing e m).
Proof.
  intros Hm w. unfold hashing. destruct (st_permits w) as [|n]; [done|]. pose proof (Hm (set_permits n w)) as Hw.
  destruct (on_users m (set_permits n w)) as [r w1]. simpl in *.
  etrans; [apply (kw_permits Hwrites)|]. etrans; [exact Hw|]. etrans; [apply (kw_permits Hwrites)|]. apply (kw_meanwhile Hwrites).
Qed.

Lemma keeps_check_limits s : keeps R (check_limits e s).
Proof. unfold check_limits. kept. Qed.

Lemma keeps_check_totp v c : keeps R (check_totp P e v c).
Proof. unfold check_totp. pose proof (kw_counter Hwrites). kept. Qed.
#[local] Hint Resolve keeps_check_limits keeps_check_totp keeps_hashing : kept.

Lemma keeps_audit_failure {E} x s ev : keeps R (audit_failure (E := E) P e x s ev).
Proof.
  assert (Hl : forall l : list Principal, keeps R (foldr (fun p (rest : SE AuthState E ()) => _ ← about_client P e Event.LockedOut (show_principal p) RError; rest) (mret ()) l))
    by (induction l; simpl; kept).
  assert (Hf : keeps (E := E) R (fun w => let '(l, locked) := record_failure (st_limiter w) (client e) s (handle_at e) in (Ok locked, set_limiter l w))).
  { intros w. destruct (record_failure _ _ _ _) as [l locked]. apply (kw_limiter Hwrites). }
  unfold audit_failure. kept.
Qed.

Lemma keeps_record_revoked {E} s n : keeps R (record_revoked (E := E) P e s n).
Proof. unfold record_revoked. induction (seq 0 n); simpl; kept. Qed.

Lemma keeps_refused {A} x s ev : keeps R (refused (A := A) P e x s ev).
Proof. unfold refused. pose proof (@keeps_audit_failure ApiError). kept. Qed.
#[local] Hint Resolve keeps_audit_failure keeps_record_revoked keeps_refused : kept.

(** The requests that neither sign in nor touch the API tokens. *)
Definition plain_request (r : Request) : bool :=
  match r with
  | Login _ | ChangePassword _ | TotpConfirm _ | TotpDisable _ | CreateToken _ | RevokeToken _ => false
  | _ => true
  end.

Lemma keeps_plain_handlers r : plain_request r = true -> keeps R (handler P e r).
Proof.
  destruct r; try done; intros _; try (by apply keeps_reading_handlers); cbn [handler];
    pose proof (kw_logout Hwrites); pose proof (kw_step_up Hwrites); pose proof (kw_set_pending Hwrites);
    pose proof (kw_revoke_handle Hwrites); pose proof (kw_revoke_others Hwrites); pose proof (kw_verify Hwrites);
    unfold logout_handler, enrol, start_enrolment, verify_current, revoke_session, revoke_others_handler, reauth, verify_reauth, malformed; kept.
Qed.

(** And where a session of [name] may also appear. *)
Section SignIns.
Variable name : rstr.
Context (Hnew : forall i totp, keeps R (new_session_for P e i name totp)).

Lemma keeps_viewed x : keeps R (viewed e x).
Proof. unfold viewed. kept. Qed.
#[local] Hint Resolve keeps_viewed : kept.

Lemma keeps_renew totp : keeps R (renew_session P e name totp).
Proof. unfold renew_session. pose proof (kw_revoke_subject Hwrites). kept. Qed.
#[local] Hint Resolve keeps_renew : kept.

Lemma keeps_replace_password q totp : keeps R (replace_password P e name q totp).
Proof. unfold replace_password. pose proof (kw_revoke_subject Hwrites). pose proof (kw_password Hwrites). kept. Qed.

Lemma keeps_confirm_enrolment i code : keeps R (confirm_enrolment P e i name code).
Proof.
  pose proof (kw_get_pending Hwrites). pose proof (kw_take_pending Hwrites). pose proof (kw_totp Hwrites). pose proof (kw_counter Hwrites).
  pose proof (kr_users Hreads). unfold confirm_enrolment, is_enrolled. kept.
Qed.

Lemma keeps_turn_off q : keeps R (turn_off P e name q).
Proof.
  pose proof (kw_totp Hwrites). pose proof (kw_counter Hwrites). pose proof (kw_verify Hwrites). unfold turn_off, verify_current. kept.
Qed.

Lemma keeps_credential_changed s ev x : keeps R (credential_changed P e s ev x).
Proof. unfold credential_changed. kept. Qed.

End SignIns.
#[local] Hint Resolve keeps_replace_password keeps_confirm_enrolment keeps_turn_off keeps_credential_changed keeps_viewed : kept.

Lemma keeps_attempt q name :
  (forall p s sc t i c h now, keeps R (on_sessions (E := AuthError) (fun x => rotate (key_of P) x p s sc t i c h now))) ->
  (forall p, keeps R (on_sessions (E := AuthError) (fun x => restrict (key_of P) x p))) ->
  (forall i n totp, keeps R (new_session_for P e i n totp)) -> keeps R (attempt P e q name).
Proof. intros Hro Hre Hnew. pose proof (kw_verify Hwrites). unfold attempt. kept. Qed.

Lemma keeps_other_handlers r :
  (forall p s sc t i c h now, keeps R (on_sessions (E := AuthError) (fun x => rotate (key_of P) x p s sc t i c h now))) ->
  (forall p, keeps R (on_sessions (E := AuthError) (fun x => restrict (key_of P) x p))) ->
  (forall i n totp, keeps R (new_session_for P e i n totp)) ->
  token_route r = false -> keeps R (handler P e r).
Proof.
  intros Hro Hre Hnew. pose proof (fun q name => keeps_attempt q name Hro Hre Hnew).
  destruct r; try done; intros _; try (by apply keeps_plain_handlers); cbn [handler]; unfold login, change_password, confirm, disable, malformed; kept.
Qed.

End Kept.

(** ** Three relations that requests keep *)

Lemma keeps_on_users {A} (K : Store UserRecord Link -> Store UserRecord Link -> Prop) (R : AuthState -> AuthState -> Prop)
    (m : SE (Store UserRecord Link) AuthError A) :
  (forall w u, K (st_users w) u -> R w (set_users u w)) -> keeps K m -> keeps R (on_users m).
Proof. intros HR Hm w. unfold on_users. pose proof (Hm (st_users w)) as Hu. destruct (m (st_users w)). by apply HR. Qed.

Lemma keeps_on_tokens {A} (K : Store TokenRecord () -> Store TokenRecord () -> Prop) (R : AuthState -> AuthState -> Prop)
    (m : SE (Store TokenRecord ()) AuthError A) :
  (forall w t, K (st_tokens w) t -> R w (set_tokens t w)) -> keeps K m -> keeps R (on_tokens m).
Proof. intros HR Hm w. unfold on_tokens. pose proof (Hm (st_tokens w)) as Hu. destruct (m (st_tokens w)). by apply HR. Qed.

Lemma keeps_on_sessions {E A} (K : SessionStore -> SessionStore -> Prop) (R : AuthState -> AuthState -> Prop)
    (f : SessionStore -> SessionStore * A) :
  (forall w t, K (sessions w) t -> R w (set_sessions t w)) -> (forall t, K t (f t).1) -> keeps (E := E) R (on_sessions f).
Proof. intros HR Hf w. unfold on_sessions. pose proof (Hf (sessions w)) as Ht. destruct (f (sessions w)). by apply HR. Qed.

Section Relations.
Context `{!Orders} (P : Platform) (e : Env).

(** No new session. *)
Definition aged (w w' : AuthState) : Prop := older (sessions w) (sessions w').

(** The API tokens on file stay. *)
Definition tokens_kept (w w' : AuthState) : Prop := CredFile.file (st_tokens w') = CredFile.file (st_tokens w).

(** Nothing changes but sessions that end, and the log of refused credentials. *)
Record unchanged (w w' : AuthState) : Prop := {
  un_users : CredFile.file (st_users w') = CredFile.file (st_users w);
  un_tokens : CredFile.file (st_tokens w') = CredFile.file (st_tokens w);
  un_limiter : st_limiter w' = st_limiter w;
  un_permits : st_permits w' = st_permits w;
  un_sessions : older (sessions w) (sessions w');
  un_log : exists new, st_log w' = st_log w ++ new /\ Forall (fun r => rejection (ar_event r)) new;
}.

#[export] Instance aged_refl : Reflexive aged. Proof. intros w. by unfold aged. Qed.
#[export] Instance aged_trans : Transitive aged. Proof. intros w1 w2 w3. unfold aged. apply older_trans. Qed.
#[export] Instance tokens_kept_refl : Reflexive tokens_kept. Proof. by intros w. Qed.
#[export] Instance tokens_kept_trans : Transitive tokens_kept. Proof. intros w1 w2 w3. unfold tokens_kept. congruence. Qed.
#[export] Instance unchanged_refl : Reflexive unchanged.
Proof. intros w. split; try done. exists []. by rewrite app_nil_r. Qed.
#[export] Instance unchanged_trans : Transitive unchanged.
Proof.
  intros w1 w2 w3 [] []. split; try congruence; [by etrans|].
  destruct un_log0 as (n1 & E1 & F1), un_log1 as (n2 & E2 & F2). exists (n1 ++ n2).
  rewrite E2, E1, app_assoc. split; [done|]. by apply Forall_app.
Qed.

(** The user store, whatever its host does: sessions only end. *)
Definition link_aged (u u' : Store UserRecord Link) : Prop := older (Users.table (CredFile.linked u)) (Users.table (CredFile.linked u')).

#[export] Instance link_aged_refl : Reflexive link_aged. Proof. intros w. by unfold link_aged. Qed.
#[export] Instance link_aged_trans : Transitive link_aged. Proof. intros w1 w2 w3. unfold link_aged. apply older_trans. Qed.

Lemma link_aged_same u u' : CredFile.linked u' = CredFile.linked u -> link_aged u u'.
Proof. unfold link_aged. by intros ->. Qed.

Lemma refresh_link_aged : keeps link_aged (reread_users P).
Proof.
  apply keeps_refresh; try apply _; intros; try by apply link_aged_same. apply older_end_sessions.
Qed.

Lemma mutate_link_aged change :
  keeps link_aged (mutate_users (users_host P) (users_path P) (users_from_slice P) (users_to_vec P) change).
Proof.
  apply keeps_mutate; try apply _; intros; try by apply link_aged_same. apply older_end_sessions.
Qed.
#[local] Hint Resolve refresh_link_aged mutate_link_aged : kept.
#[local] Hint Extern 1 (keeps ?K snapshot) => apply (keeps_reading K) : kept.

Lemma verify_link_aged i name password : keeps link_aged (verify_user P e i name password).
Proof. unfold verify_user, verify_password, update_user. kept. Qed.

Lemma password_link_aged i name password : keeps link_aged (store_password P e i name password).
Proof. unfold store_password, set_password, update_user. kept. Qed.

Lemma counter_link_aged i name c : keeps link_aged (note_counter_of P e i name c).
Proof. unfold note_counter_of, note_totp_counter. kept. Qed.

Lemma totp_link_aged i name secret : keeps link_aged (store_totp P e i name secret).
Proof. unfold store_totp, set_totp, update_user. kept. Qed.
#[local] Hint Resolve verify_link_aged password_link_aged : kept.

Lemma aged_users {A} (m : SE (Store UserRecord Link) AuthError A) : keeps link_aged m -> keeps aged (on_users m).
Proof. by apply (keeps_on_users link_aged). Qed.

Lemma aged_sessions {E A} (f : SessionStore -> SessionStore * A) : (forall t, older t (f t).1) -> keeps (E := E) aged (on_sessions f).
Proof. by apply (keeps_on_sessions older). Qed.

Lemma aged_same w w' : sessions w' = sessions w -> aged w w'.
Proof. unfold aged. by intros ->. Qed.

Lemma aged_tokens {A} (m : SE (Store TokenRecord ()) AuthError A) : keeps aged (on_tokens m).
Proof. apply (keeps_on_tokens (fun _ _ => True)); [|done]. intros w t _. by apply aged_same. Qed.

Lemma aged_reads : keeps_reads P aged.
Proof.
  split; try done; intros; try (by apply aged_same); try apply aged_sessions; try intros t.
  - apply older_lookup.
  - apply older_list.
  - apply older_verdict.
  - apply aged_users, refresh_link_aged.
  - apply aged_tokens.
  - apply aged_tokens.
Qed.

Lemma aged_writes : (forall w, aged w (meanwhile e w)) -> keeps_writes P e aged.
Proof.
  intros Hm. split; try done; intros; try (by apply aged_same); try apply aged_sessions; try intros t; try apply aged_users.
  - apply verify_link_aged.
  - kept.
  - apply counter_link_aged.
  - apply totp_link_aged.
  - apply older_logout.
  - apply older_step_up.
  - apply older_set_pending.
  - apply older_get_pending.
  - apply older_take_pending.
  - apply older_retain.
  - apply older_retain.
  - apply older_retain.
Qed.

Lemma tokens_kept_users {A} (m : SE (Store UserRecord Link) AuthError A) : keeps tokens_kept (on_users m).
Proof. by apply (keeps_on_users (fun _ _ => True)). Qed.

Lemma tokens_kept_sessions {E A} (f : SessionStore -> SessionStore * A) : keeps (E := E) tokens_kept (on_sessions f).
Proof. by apply (keeps_on_sessions (fun _ _ => True)). Qed.

Definition file_kept {R X} (s s' : Store R X) : Prop := CredFile.file s' = CredFile.file s.
#[export] Instance file_kept_refl {R X} : Reflexive (@file_kept R X). Proof. by intros s. Qed.
#[export] Instance file_kept_trans {R X} : Transitive (@file_kept R X). Proof. intros s1 s2 s3. unfold file_kept. congruence. Qed.

Lemma refresh_file_kept {R X} host path decode on_change err :
  (forall n, meddle host n = None) -> keeps (@file_kept R X) (refresh host path decode on_change err).
Proof. intros Hq. apply keeps_refresh; try done; [apply _|]. intros s. unfold file_kept, begin_call. simpl. by rewrite Hq. Qed.

Context (Hq : forall n, meddle (tokens_host P) n = None).

Lemma authenticate_file_kept t unix :
  keeps file_kept (authenticate (tokens_host P) (tokens_path P) (tokens_from_slice P) (sha256 P) t unix).
Proof. unfold authenticate, refresh_tokens. pose proof (@refresh_file_kept TokenRecord ()). kept. Qed.

Lemma list_tokens_file_kept : keeps file_kept (_ ← refresh_tokens (tokens_host P) (tokens_path P) (tokens_from_slice P); list_tokens).
Proof. unfold refresh_tokens, list_tokens, snapshot. pose proof (@refresh_file_kept TokenRecord ()). kept. Qed.

Lemma tokens_kept_reads : keeps_reads P tokens_kept.
Proof.
  split; try done; intros; try apply tokens_kept_users; try apply tokens_kept_sessions; apply (keeps_on_tokens file_kept); try done.
  - apply authenticate_file_kept.
  - apply list_tokens_file_kept.
Qed.

Lemma tokens_kept_new i n totp : keeps tokens_kept (new_session_for P e i n totp).
Proof. unfold new_session_for. pose proof (@tokens_kept_sessions AuthError). kept. Qed.

Lemma tokens_kept_writes : (forall w, tokens_kept w (meanwhile e w)) -> keeps_writes P e tokens_kept.
Proof. intros Hm. split; try done; intros; try apply tokens_kept_users; try apply tokens_kept_sessions. Qed.

Context (Hqu : forall n, meddle (users_host P) n = None).

Lemma unchanged_sessions w t : older (sessions w) t -> unchanged w (set_sessions t w).
Proof. intros Ht. split; try done. exists []. by rewrite app_nil_r. Qed.

Lemma unchanged_users w u : link_aged (st_users w) u /\ file_kept (st_users w) u -> unchanged w (set_users u w).
Proof. intros [Hl Hf]. split; try done. exists []. by rewrite app_nil_r. Qed.

Lemma unchanged_tokens w t : file_kept (st_tokens w) t -> unchanged w (set_tokens t w).
Proof. intros Hf. split; try done. exists []. by rewrite app_nil_r. Qed.

Lemma unchanged_reads : keeps_reads P unchanged.
Proof.
  split; intros.
  - split; try done. exists [r]. split; [done|by constructor].
  - split; try done. exists []. by rewrite app_nil_r.
  - split; try done. exists []. by rewrite app_nil_r.
  - apply (keeps_on_sessions older); [apply unchanged_sessions|intros t; apply older_lookup].
  - apply (keeps_on_sessions older); [apply unchanged_sessions|intros t; apply older_list].
  - apply (keeps_on_sessions older); [apply unchanged_sessions|intros t; apply older_verdict].
  - apply (keeps_on_users (fun u u' => link_aged u u' /\ file_kept u u')); [apply unchanged_users|].
    intros u. split; [apply refresh_link_aged|by apply (refresh_file_kept _ _ _ _ _ Hqu)].
  - apply (keeps_on_tokens file_kept); [apply unchanged_tokens|apply authenticate_file_kept].
  - apply (keeps_on_tokens file_kept); [apply unchanged_tokens|apply list_tokens_file_kept].
Qed.

End Relations.

(** ** Who is let in *)

(** The table after a re-read: some sessions of the one before. *)
Definition shrunk (t t' : SessionStore) : Prop := exists keep, t' = retain t keep.

#[export] Instance shrunk_refl : Reflexive shrunk. Proof. intros t. exists (fun _ => true). by rewrite retain_true. Qed.
#[export] Instance shrunk_trans : Transitive shrunk.
Proof. intros t1 t2 t3 [k ->] [k' ->]. exists (fun x => k x && k' x). apply retain_retain. Qed.

Lemma shrunk_lookup key t t' p now s : shrunk t t' -> (lookup key t' p now).2 = Some s -> (lookup key t p now).2 = Some s.
Proof.
  intros [keep ->] (m & x & Hm & Hx & Hid & Hex & ->)%lookup_some. unfold retain in *.
  destruct (entries t) as [m0|] eqn:Em; [|congruence]. simpl in *. injection Hm as <-.
  apply map_lookup_filter_Some in Hx as [Hx _]. unfold lookup. rewrite Em, Hx, (proj2 (ct_eq_true _ _) Hid). simpl. by rewrite Hex.
Qed.

Lemma shrunk_end_sessions `{!Iteration rstr (rstr * option rstr)} before after_ l :
  shrunk (Users.table l) (Users.table (end_sessions before after_ l)).
Proof. unfold end_sessions. destruct (attached l); [|done]. simpl. rewrite end_changed_retain. by eexists. Qed.

Section Admission.
Context `{!Orders} (P : Platform) (e : Env).

Definition link_shrunk (u u' : Store UserRecord Link) : Prop := shrunk (Users.table (CredFile.linked u)) (Users.table (CredFile.linked u')).
#[export] Instance link_shrunk_refl : Reflexive link_shrunk. Proof. intros w. by unfold link_shrunk. Qed.
#[export] Instance link_shrunk_trans : Transitive link_shrunk. Proof. intros w1 w2 w3. unfold link_shrunk. apply shrunk_trans. Qed.

Lemma reread_shrinks w r w1 : on_users (reread_users P) w = (r, w1) -> shrunk (sessions w) (sessions w1).
Proof.
  assert (Hk : keeps link_shrunk (reread_users P)).
  { apply keeps_refresh; try apply _; intros; try (unfold link_shrunk; simpl; reflexivity). apply shrunk_end_sessions. }
  intros Hr. unfold on_users in Hr. specialize (Hk (st_users w)). destruct (reread_users P (st_users w)) as [r0 u]. injection Hr as <- <-. exact Hk.
Qed.

Lemma on_sessions_ok {E A} (f : SessionStore -> SessionStore * A) w a w1 :
  on_sessions (E := E) f w = (Ok a, w1) -> (f (sessions w)).2 = a /\ sessions w1 = (f (sessions w)).1.
Proof. unfold on_sessions. destruct (f (sessions w)) as [t x]. by intros [= -> <-]. Qed.

(** A caller with a session presented its cookie and nothing else, and the table
    holds the session. *)
Lemma resolve_session h ip now unix w c w' p s :
  resolve_from P h ip now unix w = (Ok c, w') -> require_session c = Ok (p, s) ->
  cookie_id h = Some p /\ bearer h = None /\ caller_session c = Some s /\ caller_scopes c = scopes s
  /\ (lookup (key_of P) (sessions w) p now).2 = Some s.
Proof.
  unfold resolve_from. destruct (cookie_id h) as [p'|], (bearer h) as [token|]; try done.
  - intros (x & w1 & Hu & (found & w2 & Hl & Hc)%bind_ok)%bind_ok. apply on_sessions_ok in Hl as [Hl _].
    destruct found as [s'|]; [|done]. injection Hc as <- <-. intros [= -> ->]. split_and!; try done.
    eapply shrunk_lookup; [by eapply reread_shrinks|done].
  - intros (holder & w1 & _ & (x & w2 & _ & Hc)%bind_ok)%bind_ok. by injection Hc as <- <-.
Qed.

Lemma resolve_request_ok h ip now unix w c w' :
  resolve_request P h ip now unix w = (Ok c, w') -> resolve_from P h (Some ip) now unix w = (Ok c, w').
Proof.
  unfold resolve_request, after. destruct (resolve_from P h (Some ip) now unix w) as [[c'|x] w1] eqn:E; [by intros [= -> ->]|].
  destruct x; try done. by destruct (presented_kind h).
Qed.

Definition extractor (r : Request) : SE AuthState ApiError Caller :=
  if pending_route r then extract_pending P (headers e) (client e) (resolve_at e) (resolve_unix e)
  else if is_safe (method r) then extract_caller P (headers e) (client e) (resolve_at e) (resolve_unix e)
  else extract_write P (headers e) (client e) (resolve_at e) (resolve_unix e).

(** What the extractor of a route establishes of the session it gives. *)
Definition entitled (r : Request) (s : Session) : Prop :=
  pending_route r = false -> must_change_password s = false /\ (method r = POST -> write (scopes s) = true).

Lemma extractor_session r w c w' p s :
  extractor r w = (Ok c, w') -> require_session c = Ok (p, s) ->
  cookie_id (headers e) = Some p /\ bearer (headers e) = None /\ (lookup (key_of P) (sessions w) p (resolve_at e)).2 = Some s
  /\ entitled r s.
Proof.
  assert (Hcaller : forall w1, extract_caller P (headers e) (client e) (resolve_at e) (resolve_unix e) w = (Ok c, w1) ->
    require_session c = Ok (p, s) -> cookie_id (headers e) = Some p /\ bearer (headers e) = None
    /\ (lookup (key_of P) (sessions w) p (resolve_at e)).2 = Some s /\ must_change_password s = false /\ caller_scopes c = scopes s).
  { intros w1 (c0 & w2 & Hr%resolve_request_ok & Hc)%map_error_ok%bind_ok Hs. apply give_ok in Hc as [Hc _].
    unfold require_unrestricted in Hc. destruct (caller_session c0) as [s0|] eqn:Es0.
    - destruct (must_change_password s0) eqn:Em; [done|]. injection Hc as ->.
      destruct (resolve_session _ _ _ _ _ _ _ _ _ Hr Hs) as (? & ? & E & ? & ?). rewrite Es0 in E. injection E as ->. done.
    - injection Hc as ->. unfold require_session in Hs. rewrite Es0 in Hs. by destruct (session_id c). }
  unfold extractor, entitled. destruct (pending_route r) eqn:Ep.
  - intros Hr%map_error_ok%resolve_request_ok Hs. by destruct (resolve_session _ _ _ _ _ _ _ _ _ Hr Hs) as (? & ? & ? & ? & ?).
  - destruct (is_safe (method r)) eqn:Em.
    + intros Hc Hs. destruct (Hcaller _ Hc Hs) as (? & ? & ? & ? & ?). split_and!; try done. intros _. split; [done|]. intros E. by rewrite E in Em.
    + intros (c0 & w1 & Hc & Hw)%bind_ok Hs. destruct (allows (caller_scopes c0) Write) eqn:Ea.
      * injection Hw as -> ->. destruct (Hcaller _ Hc Hs) as (? & ? & ? & ? & Es). split_and!; try done.
        intros _. split; [done|]. intros _. by rewrite <- Es.
      * apply bind_ok in Hw as (? & ? & _ & Hw). done.
Qed.

(** Every handler but the login starts with its extractor and a session. *)
Lemma handler_session r w a w' :
  is_login r = false -> handler P e r w = (Ok a, w') ->
  exists c w1 p s, extractor r w = (Ok c, w1) /\ require_session c = Ok (p, s)
    /\ (token_route r = true -> is_some (step_up_left s (handle_at e)) = true
        /\ (creates_token r = true -> totp_required P = true -> totp_satisfied s = true)).
Proof.
  intros Hl Hr. destruct r; try done; cbn [handler] in Hr;
    apply bind_ok in Hr as (c & w1 & Hc & ([p s] & w2 & Hs%map_error_ok & Hk)%bind_ok); apply give_ok in Hs as [Hs _];
    exists c, w1, p, s; (split_and!; [exact Hc|exact Hs|]); try done; intros _.
  - destruct body as [q|]; [|done]. apply bind_ok in Hk as ([token v] & w3 & Hk%map_error_ok & _).
    destruct (negb _); [done|]. apply bind_ok in Hk as (x & w4 & _ & Hk).
    destruct (totp_required P && negb (totp_satisfied s)) eqn:Et; [done|]. apply bind_ok in Hk as (y & w5 & Hy & _).
    apply give_ok in Hy as [Hy _]. unfold require_fresh_step_up in Hy. destruct (step_up_left s (handle_at e)); [|done].
    split; [done|]. intros _ Hreq. rewrite Hreq in Et. by destruct (totp_satisfied s).
  - apply bind_ok in Hk as (x & w3 & (y & w4 & Hy & _)%map_error_ok%bind_ok & _). apply give_ok in Hy as [Hy _].
    unfold require_fresh_step_up in Hy. by destruct (step_up_left s (handle_at e)).
Qed.

(** When the session of a request is first looked up. *)
Definition first_look (r : Request) : Instant := if is_safe (method r) then resolve_at e else guard_at e.

Lemma guard_session r w w1 p s :
  (guard_at e <= resolve_at e)%Z -> guard P e (method r) w = (Ok (), w1) ->
  bearer (headers e) = None -> cookie_id (headers e) = Some p -> (lookup (key_of P) (sessions w1) p (resolve_at e)).2 = Some s ->
  (exists s0, (lookup (key_of P) (sessions w) p (first_look r)).2 = Some s0 /\ s = touch (resolve_at e) s0)
  /\ (is_safe (method r) = true \/ composed_by_us s (headers e) (authority e)).
Proof.
  intros Hle (v & w2 & Hv & Hg)%bind_ok Hb Hc Hs. apply on_sessions_ok in Hv as [Hv Ht].
  apply map_error_ok, give_ok in Hg as [-> ->]. rewrite Ht in Hs. split.
  - unfold first_look. unfold verdict in Hs. destruct (is_safe (method r)).
    { exists s. split; [done|]. by apply lookup_some in Hs as (? & ? & _ & _ & _ & _ & ->). }
    destruct (has_bearer (headers e)) eqn:Eb; [apply has_bearer_some in Eb as [? ?]; congruence|].
    rewrite same_cookie, Hc in Hs.
    pose proof (lookup_again_none (key_of P) (sessions w) p (guard_at e) (resolve_at e)) as Hnone.
    pose proof (lookup_again_some (key_of P) (sessions w) p (guard_at e) (resolve_at e)) as Hsome.
    destruct (lookup (key_of P) (sessions w) p (guard_at e)) as [t [s0|]]; simpl in *.
    + exists s0. split; [done|]. by apply Hsome.
    + by rewrite Hnone in Hs.
  - eapply csrf_protects; [exact Hv|exact Hle|done|done|exact Hs].
Qed.

End Admission.
