(* ===== verification/SignIn.v ===== *)
(** * Where sessions come from

    What the four routes that give a session do to the table: the login, the
    password change, and turning the second factor on or off. *)

From Stdlib Require Import ZArith.
From stdpp Require Import gmap.
From S2P Require Import Prelude Stateful Str Num Ip Doc Diag Utf8 AuthErr Time CredFile RateLimit TokenLimit Coalesce Totp AuditLog Tokens Users Ops Session Csrf Web Routes RouteSafe.

Section SignIn.
Context `{!Orders} (P : Platform) (e : Env).

(** ** One session installed *)

(** [t'] is some of the sessions of [t], without the one presented, and the
    session [s] under [i]. *)
Definition installs (presented : option rstr) (t t' : SessionStore) (i : rstr) (s : Session) : Prop :=
  exists m0 m, entries t = Some m0 /\ m ⊆ m0 /\ (forall p, presented = Some p -> m !! key_of P p = None)
    /\ t' = set_entries t (<[key_of P i := mkEntry i s None]> m).

(** The sessions a request makes: of this subject, with every scope, not stepped
    up, just seen. *)
Record fresh_session (s : Session) (name : rstr) (totp must : bool) : Prop := {
  fs_subject : subject_of s = name;
  fs_scopes : scopes s = mkScopes true;
  fs_totp : totp_satisfied s = totp;
  fs_must : must_change_password s = must;
  fs_step_up : step_up s = None;
  fs_seen : last_seen s = handle_at e;
}.

Lemma create_installs presented t name totp i c h x t' :
  create (key_of P) t name (mkScopes true) totp i c h (handle_at e) = (t', Ok x) ->
  (forall m p, entries t = Some m -> presented = Some p -> m !! key_of P p = None) ->
  installs presented t t' x.1 x.2 /\ fresh_session x.2 name totp false /\ created x.2 = handle_at e.
Proof.
  unfold create. destruct i as [i|], c as [c|], h as [h|]; try done. destruct (entries t) as [m|] eqn:Em; [|done].
  destruct (_ <=? _)%nat; [done|]. intros [= <- <-] Hp. split; [|done].
  exists m, (evict_expired m (idle t) (absolute t) (handle_at e)).
  split_and!; [done|apply map_filter_subseteq| |done]. intros p Hpr. eapply lookup_weaken_None; [by eapply Hp|apply map_filter_subseteq].
Qed.

Lemma rotate_cases t p name totp i c h t' r :
  rotate (key_of P) t p name (Some (mkScopes true)) (Some totp) i c h (handle_at e) = (t', r) ->
  match r with
  | Err _ => t' = t
  | Ok None => exists m0 m, entries t = Some m0 /\ m ⊆ m0 /\ m !! key_of P p = None /\ t' = set_entries t m
  | Ok (Some x) => installs (Some p) t t' x.1 x.2 /\ fresh_session x.2 name totp false
  end.
Proof.
  unfold rotate. destruct i as [i|], c as [c|], h as [h|]; try by intros [= <- <-].
  destruct (entries t) as [m|] eqn:Em; [|by intros [= <- <-]]. destruct (m !! key_of P p) as [old|] eqn:Eo.
  - destruct (_ || _); [|destruct (negb _) eqn:En]; intros [= <- <-].
    + exists m, (delete (key_of P p) m). split_and!; [done|apply delete_subseteq|apply lookup_delete_eq|done].
    + exists m, (delete (key_of P p) m). split_and!; [done|apply delete_subseteq|apply lookup_delete_eq|done].
    + apply negb_false_iff, bool_decide_eq_true in En. split; [|by split].
      exists m, (delete (key_of P p) m). split_and!; [done|apply delete_subseteq| |done].
      intros p' [= <-]. apply lookup_delete_eq.
  - intros [= <- <-]. exists m, m. split_and!; [done..|]. destruct t; simpl in *. by subst.
Qed.

Lemma installs_after presented t m0 m t' i s :
  entries t = Some m0 -> m ⊆ m0 -> installs presented (set_entries t m) t' i s -> installs presented t t' i s.
Proof. intros Ht Hm (m1 & m' & [= <-] & Hs & Hp & ->). exists m0, m'. split_and!; [done|by etrans|done|done]. Qed.

Lemma restrict_installed presented t t1 i s :
  installs presented t t1 i s ->
  exists t', restrict (key_of P) t1 i = (t', Some (restricted s)) /\ installs presented t t' i (restricted s).
Proof.
  intros (m0 & m & Ht & Hm & Hp & ->). unfold restrict, named. simpl. rewrite lookup_insert_eq. simpl.
  rewrite (proj2 (ct_eq_true i i) eq_refl). eexists. split; [done|]. exists m0, m. split_and!; [done..|].
  unfold set_entries. simpl. by rewrite insert_insert_eq.
Qed.

Lemma installs_lookup presented t t' i s later :
  installs presented t t' i s -> expired s (idle t') (absolute t') later = false -> (lookup (key_of P) t' i later).2 = Some (touch later s).
Proof. intros (m0 & m & Ht & Hm & Hp & ->) Hx. by apply lookup_inserted. Qed.

Lemma installs_dead p t t' i s later : installs (Some p) t t' i s -> i <> p -> (lookup (key_of P) t' p later).2 = None.
Proof.
  intros (m0 & m & Ht & Hm & Hp & ->) Hi. eapply lookup_absent; [done|]. intros x. simpl.
  destruct (decide (key_of P p = key_of P i)) as [->|Hk]; [rewrite lookup_insert_eq; by intros [= <-]|].
  rewrite lookup_insert_ne, Hp by done. done.
Qed.

(** ** The computations *)

Lemma new_session_ok i name totp w x w' :
  new_session_for P e i name totp w = (Ok x, w') ->
  create (key_of P) (sessions w) name (mkScopes true) totp (d_id (draw e i)) (d_csrf (draw e i)) (d_handle (draw e i)) (handle_at e)
    = (sessions w', Ok x) /\ w' = set_sessions (sessions w') w.
Proof.
  unfold new_session_for. intros (r & w1 & H1 & H2)%bind_ok. apply give_ok in H2 as [-> ->].
  unfold on_sessions in H1. destruct (create _ _ _ _ _ _ _ _ _) as [t r]. by injection H1 as -> <-.
Qed.

Lemma hashing_ok {A} (m : SE (Store UserRecord Link) AuthError A) w a w' :
  hashing e m w = (Ok a, w') ->
  exists n u, st_permits w = S n /\ m (st_users w) = (Ok a, u) /\ w' = meanwhile e (set_users u w).
Proof.
  unfold hashing. destruct (st_permits w) as [|n] eqn:En; [done|]. unfold on_users. cbn [st_users set_permits].
  destruct (m (st_users w)) as [r u]. intros [= -> <-]. exists n, u. split_and!; [done..|]. unfold set_permits, set_users. simpl. by rewrite En.
Qed.

Lemma check_limits_ok s w w' : check_limits e s w = (Ok (), w') -> RateLimit.check (st_limiter w) (client e) s (handle_at e) = Ok () /\ w' = w.
Proof. intros (r & w1 & (-> & ->)%reading_ok & (Hc & ->)%give_ok)%bind_ok. done. Qed.

Lemma viewed_ok x w v w' : viewed e x w = (Ok v, w') -> v = (x.1, view (sessions w) x.2 (handle_at e)) /\ w' = w.
Proof. intros (y & w1 & (-> & ->)%reading_ok & Hv)%bind_ok. by injection Hv as <- <-. Qed.

(** A session for a subject: what a table after [t] holds. *)
Definition signs_in (presented : option rstr) (t t' : SessionStore) (name : rstr) (totp must : bool) (x : Established) : Prop :=
  exists s, installs presented t t' x.1 s /\ fresh_session s name totp must /\ x.2 = view t' s (handle_at e).

(** The login, taken apart: the limiter let it through, the password was
    verified, the second factor was satisfied, and the session was installed in
    place of the one presented. *)
Lemma attempt_ok q name w x w' :
  attempt P e q name w = (Ok x, w') ->
  RateLimit.check (st_limiter w) (client e) name (handle_at e) = Ok () /\ within_limits q = true
  /\ exists v w1 totp w2, hashing e (verify_user P e 0 name (l_password q)) w = (Ok v, w1)
    /\ check_totp P e v (l_totp_code q) w1 = (Ok totp, w2)
    /\ w' = set_sessions (sessions w') w2
    /\ signs_in (cookie_id (headers e)) (sessions w2) (sessions w') (v_name v) totp (v_must_change_password v) x.
Proof.
  unfold attempt. intros ([] & w0 & (Hc & ->)%check_limits_ok & Hrun)%bind_ok. destruct (within_limits q); [|done].
  split; [done|]. split; [done|]. apply bind_ok in Hrun as (v & w1 & Hv & (totp & w2 & Ht & (rot & w3 & Hr & (made & w4 & Hm & Hrun)%bind_ok)%bind_ok)%bind_ok).
  exists v, w1, totp, w2. split; [done|]. split; [done|].
  assert (Hmade : w4 = set_sessions (sessions w4) w2
    /\ installs (cookie_id (headers e)) (sessions w2) (sessions w4) made.1 made.2 /\ fresh_session made.2 (v_name v) totp false).
  { destruct (cookie_id (headers e)) as [p|].
    - apply bind_ok in Hr as (r & w3' & Hr' & Hg). apply give_ok in Hg as [-> ->]. unfold on_sessions in Hr'.
      destruct (rotate _ _ _ _ _ _ _ _ _ _) as [t r] eqn:Er. injection Hr' as -> <-. apply rotate_cases in Er. destruct rot as [made'|].
      + injection Hm as -> <-. done.
      + destruct Er as (m0 & m & Hm0 & Hs & Hd & ->). apply new_session_ok in Hm as [Hm E4]. split; [by rewrite E4|].
        destruct (create_installs (Some p) _ _ _ _ _ _ _ _ Hm) as (Hi & Hf & _); [by intros m' p' [= <-] [= <-]|].
        split; [by eapply installs_after|done].
    - injection Hr as <- <-. apply new_session_ok in Hm as [Hm E4]. split; [done|].
      by destruct (create_installs None _ _ _ _ _ _ _ _ Hm) as (? & ? & _). }
  destruct Hmade as (E4 & Hi & Hf). apply bind_ok in Hrun as (s & w5 & Hs & (-> & ->)%viewed_ok).
  destruct (v_must_change_password v).
  - apply bind_ok in Hs as (r & w5' & Hr' & Hs'). injection Hs' as <- <-. unfold on_sessions in Hr'.
    destruct (restrict_installed _ _ _ _ _ Hi) as (t' & E & Hi'). rewrite E in Hr'. injection Hr' as <- <-.
    split; [by rewrite E4|]. exists (restricted made.2). split_and!; [done| |done]. by destruct Hf.
  - injection Hs as <- <-. split; [done|]. exists made.2. split_and!; [done| |done]. by destruct Hf.
Qed.

Lemma verify_user_name i name password u v u' : verify_user P e i name password u = (Ok v, u') -> v_name v = name.
Proof.
  unfold verify_user, verify_password. intros ([] & u1 & _ & (users & u2 & _ & Hrun)%bind_ok)%bind_ok.
  destruct (find_user name users) as [r|] eqn:Ef; [|done]. destruct (negb _); [done|].
  apply bind_ok in Hrun as ([] & u3 & _ & (secret & u4 & _ & Hv)%bind_ok). injection Hv as <- _. by apply find_user_name in Ef as [? _].
Qed.

(** Every other session of the subject is ended before the new one is made. *)
Lemma renew_ok name totp w x w' :
  renew_session P e name totp w = (Ok x, w') ->
  exists s, installs None (revoke_subject (sessions w) name) (sessions w') x.1 s /\ fresh_session s name totp false
    /\ created s = handle_at e /\ x.2 = view (sessions w') s (handle_at e) /\ w' = set_sessions (sessions w') w.
Proof.
  unfold renew_session. intros ([] & w1 & Hr & (made & w2 & (Hc & E2)%new_session_ok & (-> & ->)%viewed_ok)%bind_ok)%bind_ok.
  unfold on_sessions in Hr. injection Hr as <-.
  destruct (create_installs None _ _ _ _ _ _ _ _ Hc) as (Hi & Hf & Hc'); [done|].
  exists made.2. by split_and!.
Qed.

Lemma renew_sole name totp w x w' m k y :
  renew_session P e name totp w = (Ok x, w') -> entries (sessions w') = Some m -> m !! k = Some y ->
  subject_of (session_of y) = name -> id y = x.1.
Proof.
  intros (s & (m0 & m1 & Hm0 & Hs & _ & Et) & _)%renew_ok Hm Hy Hn. rewrite Et in Hm. injection Hm as <-.
  destruct (decide (k = key_of P x.1)) as [->|Hk]; [rewrite lookup_insert_eq in Hy; by injection Hy as <-|].
  rewrite lookup_insert_ne in Hy by done. eapply lookup_weaken in Hy; [|exact Hs]. unfold revoke_subject, retain in Hm0.
  destruct (entries (sessions w)) as [m2|] eqn:Em; [|congruence]. injection Hm0 as <-.
  apply map_lookup_filter_Some in Hy as [_ Hy]. simpl in Hy. apply negb_true_iff, bool_decide_eq_false in Hy. done.
Qed.

Lemma replace_password_ok name q totp w x w' :
  replace_password P e name q totp w = (Ok x, w') ->
  RateLimit.check (st_limiter w) (client e) name (handle_at e) = Ok () /\ check_password (pc_new q) = Ok () /\ pc_current q <> pc_new q
  /\ exists v u1 u2, verify_user P e 0 name (pc_current q) (st_users w) = (Ok v, u1) /\ store_password P e 1 name (pc_new q) u1 = (Ok (), u2)
    /\ renew_session P e name totp (meanwhile e (set_users u2 w)) = (Ok x, w').
Proof.
  unfold replace_password. intros ([] & w0 & (Hc & ->)%check_limits_ok & Hrun)%bind_ok. destruct (_ <? _)%nat; [done|].
  apply bind_ok in Hrun as ([] & w1 & (Hp & ->)%give_ok & ([] & w2 & (n & u2 & _ & Hu & ->)%hashing_ok & Hrun)%bind_ok).
  apply bind_ok in Hu as (v & u1 & Hv & Hs). destruct (bool_decide _) eqn:Eb; [done|]. apply bool_decide_eq_false in Eb.
  split_and!; try done. exists v, u1, u2. split_and!; done.
Qed.

Lemma confirm_enrolment_ok i name code w x w' :
  confirm_enrolment P e i name code w = (Ok x, w') ->
  RateLimit.check (st_limiter w) (client e) name (handle_at e) = Ok ()
  /\ exists secret counter w1, Totp.check (hmac_sha1 P) secret code (unix_seconds e) None = Ok counter
    /\ renew_session P e name true w1 = (Ok x, w').
Proof.
  unfold confirm_enrolment. intros ([] & w0 & (Hc & ->)%check_limits_ok & Hrun)%bind_ok. destruct (_ <? _)%nat; [done|].
  apply bind_ok in Hrun as ([] & w1 & _ & (enrolled & w2 & _ & Hrun)%bind_ok). destruct enrolled; [done|].
  apply bind_ok in Hrun as (found & w3 & _ & (secret & w4 & _ & (counter & w5 & (Ht & ->)%give_ok & (taken & w6 & _ & Hrun)%bind_ok)%bind_ok)%bind_ok).
  destruct (negb taken); [done|]. apply bind_ok in Hrun as ([] & w7 & _ & ([] & w8 & _ & Hrun)%bind_ok).
  split; [done|]. by exists secret, counter, w8.
Qed.

Lemma turn_off_ok name q w x w' :
  turn_off P e name q w = (Ok x, w') ->
  RateLimit.check (st_limiter w) (client e) name (handle_at e) = Ok () /\ totp_required P = false
  /\ exists v w1 secret counter w2, hashing e (verify_user P e 0 name (td_current q)) w = (Ok v, w1)
    /\ v_totp v = Some secret /\ Totp.check (hmac_sha1 P) secret (td_code q) (unix_seconds e) (v_totp_last_counter v) = Ok counter
    /\ renew_session P e name false w2 = (Ok x, w').
Proof.
  unfold turn_off, verify_current. intros ([] & w0 & (Hc & ->)%check_limits_ok & Hrun)%bind_ok. destruct (totp_required P); [done|].
  destruct (_ <? _)%nat; [done|]. destruct (_ <? _)%nat; [done|].
  apply bind_ok in Hrun as (v & w1 & Hv & (secret & w2 & (Hs & ->)%give_ok & (counter & w3 & (Ht & ->)%give_ok & ([] & w4 & _ & ([] & w5 & _ & Hrun)%bind_ok)%bind_ok)%bind_ok)%bind_ok).
  split_and!; try done. exists v, w1, secret, counter, w5. destruct (v_totp v); by simplify_eq.
Qed.

(** ** Nothing new but what a sign-in installs *)

(** Every subject of a session of [w'] is one of [w], or [who]. *)
Definition heirs (who : option rstr) (w w' : AuthState) : Prop :=
  forall m' k y, entries (sessions w') = Some m' -> m' !! k = Some y ->
    (exists m k0 x, entries (sessions w) = Some m /\ m !! k0 = Some x /\ subject_of (session_of x) = subject_of (session_of y))
    \/ Some (subject_of (session_of y)) = who.

#[export] Instance heirs_refl who : Reflexive (heirs who). Proof. intros w m k y Hm Hy. left. by exists m, k, y. Qed.
#[export] Instance heirs_trans who : Transitive (heirs who).
Proof.
  intros w1 w2 w3 H12 H23 m3 k y Hm Hy. destruct (H23 m3 k y Hm Hy) as [(m2 & k2 & y2 & Hm2 & Hy2 & E)|E]; [|by right].
  rewrite <- E. by eapply H12.
Qed.

Lemma aged_heirs who w w' : aged w w' -> heirs who w w'.
Proof.
  intros Ha m' k y Hm Hy. left. destruct (Ha m' Hm) as (m & Hm0 & Hk). destruct (Hk k y Hy) as (x & Hx & _ & (Es & _)).
  exists m, k, x. split_and!; [done..|]. by symmetry.
Qed.

Lemma keeps_heirs {E A} who (m : SE AuthState E A) : keeps aged m -> keeps (heirs who) m.
Proof. apply keeps_weaken. apply aged_heirs. Qed.

Lemma heirs_weaken who w w' : heirs None w w' -> heirs who w w'.
Proof. intros Hh m k y Hm Hy. destruct (Hh m k y Hm Hy) as [?|?]; [by left|done]. Qed.

Context (Hmean : forall w, aged w (meanwhile e w)).

Lemma heirs_reads who : keeps_reads P (heirs who).
Proof. destruct (aged_reads P). split; intros; first [apply keeps_heirs; by auto|apply aged_heirs; by auto]. Qed.

Lemma heirs_writes who : keeps_writes P e (heirs who).
Proof. destruct (aged_writes P e Hmean). split; intros; first [apply keeps_heirs; by auto|apply aged_heirs; by auto]. Qed.

Lemma heirs_new_session i name totp : keeps (heirs (Some name)) (new_session_for P e i name totp).
Proof.
  intros w. unfold new_session_for, mbind, SE_bind, after, on_sessions, give.
  destruct (create _ _ _ _ _ _ _ _ _) as [t r] eqn:Ec. cbn [snd]. intros m k y Hm Hy. change (entries t = Some m) in Hm. unfold create in Ec.
  destruct (d_id (draw e i)) as [l|], (d_csrf (draw e i)), (d_handle (draw e i)); try (injection Ec as <- _; left; by exists m, k, y).
  destruct (entries (sessions w)) as [m0|] eqn:Em; [|injection Ec as <- _; congruence].
  cbn zeta in Ec. destruct (_ <=? _)%nat; injection Ec as <- _; injection Hm as <-.
  - left. apply map_lookup_filter_Some in Hy as [Hy _]. by exists m0, k, y.
  - destruct (decide (k = key_of P l)) as [->|Hk]; [rewrite lookup_insert_eq in Hy; injection Hy as <-; by right|].
    rewrite lookup_insert_ne in Hy by done. left. apply map_lookup_filter_Some in Hy as [Hy _]. by exists m0, k, y.
Qed.

(** A login that fails gives no session. *)
Lemma attempt_err q name w x w' : attempt P e q name w = (Err x, w') -> aged w w'.
Proof.
  pose proof (aged_reads P) as Hreads. pose proof (aged_writes P e Hmean) as Hw.
  assert (Hpre : forall {A} (m : WM A), keeps aged m -> forall (k : A -> WM Established) w x w', (m ≫= k) w = (Err x, w') ->
    aged w w' \/ exists a w1, m w = (Ok a, w1) /\ aged w w1 /\ k a w1 = (Err x, w')).
  { intros A m Hm k w0 y w0' Hrun. specialize (Hm w0). unfold mbind, SE_bind, after in Hrun.
    destruct (m w0) as [[a|z] w1]; [right; eauto|left]. by injection Hrun as <- <-. }
  pose proof (keeps_check_limits e aged) as Hlim. pose proof (keeps_check_totp P e aged Hw) as Htotp.
  assert (Hhash : keeps aged (hashing e (verify_user P e 0 name (l_password q)))) by (apply (keeps_hashing P e aged Hw), Hw).
  unfold attempt. intros Hrun. apply Hpre in Hrun as [?|([] & w0 & _ & H0 & Hrun)]; [done| |done].
  destruct (negb _); [by injection Hrun as <- <-|]. etrans; [exact H0|]. clear H0.
  apply Hpre in Hrun as [?|(v & w1 & _ & H1 & Hrun)]; [done| |done]. etrans; [exact H1|]. clear H1.
  apply Hpre in Hrun as [?|(totp & w2 & _ & H2 & Hrun)]; [done| |done]. etrans; [exact H2|]. clear H2.
  assert (Hrest : forall (made : rstr * Session) w y w', (session ← (if v_must_change_password v
    then r ← on_sessions (fun t => restrict (key_of P) t made.1); mret (default made.2 r) else mret made.2);
    viewed e (made.1, session)) w = (Err y, w') -> False).
  { intros made w3 y w3'. unfold mbind, SE_bind, after, on_sessions, mret, SE_ret, viewed, reading, mbind, SE_bind, after, mret, SE_ret.
    destruct (v_must_change_password v); [|done]. by destruct (restrict _ _ _). }
  assert (Hcreate : forall w y w', (made ← new_session_for P e 1 (v_name v) totp;
    session ← (if v_must_change_password v
    then r ← on_sessions (fun t => restrict (key_of P) t made.1); mret (default made.2 r) else mret made.2);
    viewed e (made.1, session)) w = (Err y, w') -> aged w w').
  { intros w3 y w3' Hrun3. unfold mbind at 1, SE_bind, after in Hrun3.
    destruct (new_session_for P e 1 (v_name v) totp w3) as [[made|z] w4] eqn:E; [by apply Hrest in Hrun3|].
    injection Hrun3 as _ <-. unfold new_session_for, mbind, SE_bind, after, on_sessions, give in E.
    destruct (create _ _ _ _ _ _ _ _ _) as [t r] eqn:Ec. injection E as -> <-. unfold aged. change (sessions (set_sessions t w3)) with t.
    unfold create in Ec. destruct (d_id (draw e 1)), (d_csrf (draw e 1)), (d_handle (draw e 1)); try (by injection Ec as <- _).
    destruct (entries (sessions w3)) as [m|] eqn:Em; [|by injection Ec as <- _].
    cbn zeta in Ec. destruct (_ <=? _)%nat; [|done]. injection Ec as <- _. by eapply older_subset, map_filter_subseteq. }
  unfold mbind at 1, SE_bind, after in Hrun.
  destruct (cookie_id (headers e)) as [p|]; [|by apply Hcreate in Hrun].
  unfold mbind at 1, SE_bind, after, on_sessions, give in Hrun.
  destruct (rotate _ _ _ _ _ _ _ _ _ _) as [t r] eqn:Er. apply rotate_cases in Er. destruct r as [[made|]|z].
  - by apply Hrest in Hrun.
  - destruct Er as (m0 & m & Hm0 & Hs & _ & ->). etrans; [|by eapply Hcreate]. by eapply older_subset.
  - injection Hrun as _ <-. subst t. by apply aged_same.
Qed.

Lemma attempt_heirs q name w x w' : attempt P e q name w = (Ok x, w') -> heirs (Some name) w w'.
Proof.
  intros (_ & _ & v & w1 & totp & w2 & Hv & Ht & _ & (s & Hins & [Hs _ _ _ _ _] & _))%attempt_ok.
  assert (En : v_name v = name) by (apply hashing_ok in Hv as (? & ? & _ & Hv & _); by eapply verify_user_name).
  pose proof (aged_writes P e Hmean) as Hw.
  assert (Ha : aged w w2).
  { pose proof (keeps_hashing P e aged Hw _ (kw_verify _ _ _ Hw 0 name (l_password q)) w) as H1. rewrite Hv in H1.
    pose proof (keeps_check_totp P e aged Hw v (l_totp_code q) w1) as H2. rewrite Ht in H2. by etrans. }
  etrans; [by apply aged_heirs|]. clear Ha. intros m k y Hm Hy. destruct Hins as (m0 & m1 & Hm0 & Hsub & _ & Et).
  rewrite Et in Hm. injection Hm as <-. destruct (decide (k = key_of P x.1)) as [->|Hk].
  - rewrite lookup_insert_eq in Hy. injection Hy as <-. right. simpl. by rewrite Hs, En.
  - rewrite lookup_insert_ne in Hy by done. left. exists m0, k, y. split_and!; [done|by eapply lookup_weaken|done].
Qed.

End SignIn.
