(* ===== verification/RouteProps.v ===== *)
(** * The promises of the authentication routes

    The theorems about [Routes.v] and their concrete instances. *)

From Stdlib Require Import ZArith.
From stdpp Require Import gmap.
From S2P Require Import Prelude Stateful Str Num Ip Doc Diag Utf8 AuthErr Time CredFile RateLimit TokenLimit Coalesce Totp AuditLog Tokens Users Ops Session Csrf Web Routes RouteSafe SignIn.

Section Admission.
Context `{!Orders} (P : Platform) (e : Env).

Lemma serve_ok r w a w' :
  serve P e r w = (Ok a, w') -> exists w1, guard P e (method r) w = (Ok (), w1) /\ handler P e r w1 = (Ok a, w').
Proof. unfold serve. intros ([] & w1 & Hg & Hh)%bind_ok. eauto. Qed.

(** C22: No handler but the login answers without a live session: the request
    presented its cookie and no bearer token; the table held the session; unless
    the route is one a pending password change leaves open, none is owed, and a
    write needs the write scope; a write was composed by a page of this host that
    knew the session's CSRF token; and an API token is issued or revoked only
    after a fresh step-up, issued only with the second factor where one is
    required. *)
Theorem request_admitted r w a w' :
  (guard_at e <= resolve_at e)%Z -> is_login r = false -> serve P e r w = (Ok a, w') ->
  exists p s, cookie_id (headers e) = Some p /\ bearer (headers e) = None
    /\ (lookup (key_of P) (sessions w) p (first_look e r)).2 = Some s
    /\ entitled r s
    /\ (method r = POST -> composed_by_us s (headers e) (authority e))
    /\ (token_route r = true -> is_some (step_up_left s (handle_at e)) = true
        /\ (creates_token r = true -> totp_required P = true -> totp_satisfied s = true)).
Proof.
  intros Hle Hl (w1 & Hg & Hh)%serve_ok. destruct (handler_session P e r w1 a w' Hl Hh) as (c & w2 & p & s & Hx & Hs & Ht).
  destruct (extractor_session P e r w1 c w2 p s Hx Hs) as (Hc & Hb & Hlook & He).
  destruct (guard_session P e r w w1 p s Hle Hg Hb Hc Hlook) as [(s0 & Hs0 & ->) Hcsrf].
  exists p, s0. split_and!; try done. intros Hm. destruct Hcsrf as [H'|H']; [by rewrite Hm in H'|exact H'].
Qed.

(** C25: A request for one of the routes registered for GET changes nothing,
    whatever it presents: not the accounts and the API tokens on file, not the
    login limiter; no session appears, and the log only gains the records of
    refused credentials. *)
Theorem reads_change_nothing r w :
  (forall n, meddle (users_host P) n = None) -> (forall n, meddle (tokens_host P) n = None) ->
  method r = GET -> unchanged w (serve P e r w).2.
Proof. intros Hu Ht Hm. by apply keeps_serve_get; [apply _|apply _|apply unchanged_reads|]. Qed.

(** ** API tokens on file *)

(** A part of a request that fails, or goes on. *)
Lemma bind_kept {A B} (R : AuthState -> AuthState -> Prop) (m : SE AuthState ApiError A) (k : A -> SE AuthState ApiError B) w :
  keeps R m -> R w ((m ≫= k) w).2 \/ exists a w1, m w = (Ok a, w1) /\ R w w1 /\ (m ≫= k) w = k a w1.
Proof.
  intros Hm. specialize (Hm w). unfold mbind, SE_bind, after. destruct (m w) as [[a|x] w1]; [right|left; done]. eauto.
Qed.

(** A handler ends with its extractor, or goes on with a session. *)
Lemma reach_kept {A} (R : AuthState -> AuthState -> Prop) (m : SE AuthState ApiError Caller) (k : rstr * Session -> SE AuthState ApiError A) w :
  keeps R m ->
  R w ((c ← m; x ← need_session c; k x) w).2
  \/ exists c x w1, m w = (Ok c, w1) /\ R w w1 /\ require_session c = Ok x /\ (c ← m; x ← need_session c; k x) w = k x w1.
Proof.
  intros Hm. specialize (Hm w). unfold mbind, SE_bind, after, need_session, map_error, give, after, mret, SE_ret, throw.
  destruct (m w) as [[c|x] w1]; [|by left]. destruct (require_session c) as [x|x] eqn:Es; [|by left]. right. eauto 8.
Qed.

(** A token handler that did not keep the file had passed every check. *)
Lemma token_handler_kept r w :
  (forall n, meddle (tokens_host P) n = None) -> (forall w, tokens_kept w (meanwhile e w)) -> token_route r = true ->
  tokens_kept w (handler P e r w).2 \/
  exists c w1 p s, extractor P e r w = (Ok c, w1) /\ require_session c = Ok (p, s) /\ is_some (step_up_left s (handle_at e)) = true
    /\ (creates_token r = true -> totp_required P = true -> totp_satisfied s = true).
Proof.
  intros Hq Hm Hr. pose proof (tokens_kept_reads P Hq) as Hreads. pose proof (tokens_kept_writes P e Hm) as Hwrites.
  assert (Hx : keeps tokens_kept (extract_write P (headers e) (client e) (resolve_at e) (resolve_unix e))) by (by eapply keeps_extract_write; [apply _..| |]).
  assert (Hrec : forall E ev i s, keeps tokens_kept (record_token (E := E) P e ev i s)) by (intros E ev i s; by eapply keeps_any_record).
  destruct r; try done; cbn [handler]; unfold create_token, revoke_token.
  all: match goal with Hx : keeps ?R ?m |- ?R ?w0 ((?m ≫= (fun x => need_session x ≫= ?k)) ?w0).2 \/ _ =>
    destruct (reach_kept R m k w0 Hx) as [Hl|(c & [p s] & w1 & Hc & Hk & Hs & ->)]; [by left|] end.
  - destruct (is_some (step_up_left s (handle_at e))) eqn:El.
    + destruct (totp_required P && negb (totp_satisfied s)) eqn:Et; [left|right].
      { etrans; [exact Hk|]. refine ((_ : keeps tokens_kept _) w1). unfold malformed. kept. }
      exists c, w1, p, s. split_and!; try done. intros _ Hreq. rewrite Hreq in Et. by destruct (totp_satisfied s).
    + left. etrans; [exact Hk|]. refine ((_ : keeps tokens_kept _) w1). unfold malformed, require_fresh_step_up. kept. by destruct (step_up_left s (handle_at e)).
  - destruct (is_some (step_up_left s (handle_at e))) eqn:El; [right; exists c, w1, p, s; by split_and!|left].
    etrans; [exact Hk|]. refine ((_ : keeps tokens_kept _) w1). unfold require_fresh_step_up. kept. by destruct (step_up_left s (handle_at e)).
Qed.

(** The API tokens on file change only in a request to issue or to revoke one
    that passed the checks of its route, even when the request then fails: a
    session cookie and no bearer token, a live session with the write scope that
    owes no password change, a page of this host with its CSRF token, a fresh
    step-up. A bearer token can neither issue a token nor revoke one. *)
Theorem tokens_guarded r w :
  (forall n, meddle (tokens_host P) n = None) -> (forall w, tokens_kept w (meanwhile e w)) -> (guard_at e <= resolve_at e)%Z ->
  CredFile.file (st_tokens (serve P e r w).2) <> CredFile.file (st_tokens w) ->
  token_route r = true
  /\ exists p s, cookie_id (headers e) = Some p /\ bearer (headers e) = None
    /\ (lookup (key_of P) (sessions w) p (guard_at e)).2 = Some s
    /\ must_change_password s = false /\ write (scopes s) = true
    /\ composed_by_us s (headers e) (authority e)
    /\ is_some (step_up_left s (handle_at e)) = true
    /\ (creates_token r = true -> totp_required P = true -> totp_satisfied s = true).
Proof.
  intros Hq Hm Hle Hf. pose proof (tokens_kept_reads P Hq) as Hreads.
  assert (Hgk : keeps tokens_kept (guard P e (method r))) by (by eapply keeps_guard; [apply _..|]).
  destruct (token_route r) eqn:Er; [split; [done|]|destruct Hf].
  - unfold serve in Hf. destruct (bind_kept tokens_kept _ (fun _ => handler P e r) w Hgk) as [H'|([] & w1 & Hg & Hk & E)]; [by destruct Hf|].
    rewrite E in Hf. clear E. destruct (token_handler_kept r w1 Hq Hm Er) as [H'|(c & w2 & p & s & Hx & Hs & Hst & Ht)].
    { destruct Hf. unfold tokens_kept in *. congruence. }
    destruct (extractor_session P e r w1 c w2 p s Hx Hs) as (Hc & Hb & Hlook & He).
    destruct (guard_session P e r w w1 p s Hle Hg Hb Hc Hlook) as [(s0 & Hs0 & ->) Hcsrf].
    assert (Hpost : method r = POST /\ pending_route r = false) by (by destruct r). destruct Hpost as [Hpost Hpend].
    unfold first_look in Hs0. rewrite Hpost in Hs0, Hcsrf. destruct (He Hpend) as [Hmust Hwr].
    exists p, s0. split_and!; try done; [by apply Hwr|by destruct Hcsrf].
  - refine ((_ : keeps tokens_kept (serve P e r)) w). unfold serve.
    apply (keeps_bind tokens_kept); [done|]. intros _.
    eapply keeps_other_handlers; [apply _..|done|by apply tokens_kept_writes|intros; apply tokens_kept_sessions|intros; apply tokens_kept_sessions|apply tokens_kept_new|done].
Qed.

(** ** Signing in *)

Lemma guard_ok m w w1 : guard P e m w = (Ok (), w1) -> exists t, older (sessions w) t /\ w1 = set_sessions t w.
Proof.
  unfold guard. intros (v & w2 & Hv & Hg)%bind_ok. apply map_error_ok, give_ok in Hg as [_ ->].
  pose proof (older_verdict (key_of P) (sessions w) m (headers e) (authority e) (guard_at e)) as Ho. unfold on_sessions in Hv.
  destruct (verdict _ _ _ _ _ _) as [t r]. injection Hv as _ <-. by exists t.
Qed.

(** The record of a success, and what it leaves of the state. *)
Definition success_record (event : AuthEvent) (subject : rstr) (w : AuthState) : AuthRecord :=
  with_client_ip (client e) (with_kind SessionUser (new_record event subject ROk (stamp P (length (st_log w))))).

Lemma login_ok q w a w' :
  login P e (Some q) w = (Ok a, w') ->
  exists x w1, attempt P e q (principal_name (l_username q)) w = (Ok x, w1) /\ a = established P x
    /\ w' = add_record (success_record Event.LoginSucceeded (view_subject x.2) w1)
              (set_limiter (record_success (st_limiter w1) (client e) (principal_name (l_username q))) w1).
Proof.
  unfold login, after. destruct (attempt P e q _ w) as [[x|err] w1]; [intros [= <- <-]; by exists x, w1|].
  intros (? & ? & _ & Ht)%bind_ok. done.
Qed.

Lemma credential_changed_ok name ev x w a w' :
  credential_changed P e name ev x w = (Ok a, w') ->
  a = established P x /\ w' = add_record (success_record ev name w) (set_limiter (record_success (st_limiter w) (client e) name) w).
Proof. by intros [= <- <-]. Qed.

(** The routes that change a credential, once they answer. *)
Definition changes_credential (r : Request) : bool :=
  match r with ChangePassword _ | TotpConfirm _ | TotpDisable _ => true | _ => false end.

Lemma credential_change_ok r w a w' :
  changes_credential r = true -> handler P e r w = (Ok a, w') ->
  exists c w1 p s x w2 w3 totp, extractor P e r w = (Ok c, w1) /\ require_session c = Ok (p, s) /\ a = established P x
    /\ renew_session P e (subject_of s) totp w2 = (Ok x, w3) /\ sessions w' = sessions w3.
Proof.
  intros Hr Hh. destruct r; try done; cbn [handler] in Hh;
    apply bind_ok in Hh as (c & w1 & Hc & ([p s] & w2 & Hs%map_error_ok & Hk)%bind_ok); apply give_ok in Hs as [Hs ->];
    exists c, w1, p, s; destruct body as [q|] || destruct code as [q|]; try done; unfold after in Hk.
  - destruct (replace_password P e (subject_of s) q (totp_satisfied s) w1) as [[x|err] w3] eqn:E;
      [|by apply bind_ok in Hk as (? & ? & _ & Hk)].
    apply replace_password_ok in E as (_ & _ & _ & v & u1 & u2 & _ & _ & E). apply credential_changed_ok in Hk as [-> ->].
    by eexists x, _, w3, _.
  - destruct (confirm_enrolment P e p (subject_of s) q w1) as [[x|err] w3] eqn:E;
      [|by apply bind_ok in Hk as (? & ? & _ & Hk)].
    apply confirm_enrolment_ok in E as (_ & ? & ? & w2 & _ & E). apply credential_changed_ok in Hk as [-> ->].
    by eexists x, _, w3, _.
  - destruct (turn_off P e (subject_of s) q w1) as [[x|err] w3] eqn:E;
      [|by apply bind_ok in Hk as (? & ? & _ & Hk)].
    apply turn_off_ok in E as (_ & _ & ? & ? & ? & ? & w2 & _ & _ & _ & E). apply credential_changed_ok in Hk as [-> ->].
    by eexists x, _, w3, _.
Qed.

(** C24: A password change, and turning the second factor on or off, ends every
    session of the account: when it answers, the table holds one session of the
    requester's account, the new one, whose id is in the cookie of the answer and
    nowhere else. *)
Theorem credential_change_ends_sessions r w a w' :
  (guard_at e <= resolve_at e)%Z -> changes_credential r = true -> serve P e r w = (Ok a, w') ->
  exists p s i, cookie_id (headers e) = Some p /\ (lookup (key_of P) (sessions w) p (guard_at e)).2 = Some s
    /\ an_set_cookie a = set_cookie P (set_cookie_value i)
    /\ (forall later, (handle_at e <= later)%Z -> (later - handle_at e < idle (sessions w'))%Z ->
          (later - handle_at e < absolute (sessions w'))%Z -> exists s', (lookup (key_of P) (sessions w') i later).2 = Some s' /\ subject_of s' = subject_of s)
    /\ forall m k y, entries (sessions w') = Some m -> m !! k = Some y -> subject_of (session_of y) = subject_of s -> id y = i.
Proof.
  intros Hle Hr (w1 & Hg & Hh)%serve_ok.
  destruct (credential_change_ok r w1 a w' Hr Hh) as (c & w2 & p & s & x & w3 & w4 & totp & Hx & Hs & -> & Hn & Hw).
  destruct (extractor_session P e r w1 c w2 p s Hx Hs) as (Hc & Hb & Hlook & _).
  destruct (guard_session P e r w w1 p s Hle Hg Hb Hc Hlook) as [(s0 & Hs0 & ->) _].
  assert (Hpost : is_safe (method r) = false) by (by destruct r). unfold first_look in Hs0. rewrite Hpost in Hs0.
  exists p, s0, x.1. split_and!; [done|done|done| |].
  - intros later Hl Hi Ha. rewrite Hw in *. apply renew_ok in Hn as (s' & Hins & [] & Hcr & _).
    exists (touch later s'). split; [|done]. eapply installs_lookup; [exact Hins|].
    apply expired_false. rewrite Hcr, fs_seen. unfold saturating_duration_since. lia.
  - rewrite Hw. intros m k y. by eapply renew_sole.
Qed.

(** *** The login, with a host that keeps the promises of [Users.v] *)

Context (content_of : Fingerprint -> rbytes).
Context (Hsound : sound_users (users_host P) (users_from_slice P) (users_to_vec P) content_of).

Definition users_follow (w : AuthState) : Prop :=
  CredFile.follows (decode_users (users_path P) (users_from_slice P)) content_of (st_users w).

Definition accounts_on_file (w : AuthState) : result AuthError (list UserRecord) :=
  CredFile.on_file (decode_users (users_path P) (users_from_slice P)) (st_users w).

Lemma users_follow_sessions t w : users_follow w -> users_follow (set_sessions t w).
Proof. by intros []. Qed.

(** One operation of the store as [Users.v] specifies it. *)
Definition user_spec : gmap rstr UserRecord -> UserOp -> result AuthError (option VerifiedUser) * gmap rstr UserRecord :=
  Users.spec (hash_password P) (verify_phc P) (parse_phc P) (hasher P).

Lemma verify_spec i name password u :
  CredFile.follows (decode_users (users_path P) (users_from_slice P)) content_of u ->
  let '(r, u') := verify_user P e i name password u in
  CredFile.follows (decode_users (users_path P) (users_from_slice P)) content_of u'
  /\ does (users_host P) (users_path P) (users_from_slice P) (users_to_vec P) (fun a => user_spec a (Verify (salt e i) name password (updated e i))) u u' (Some <$> r).
Proof.
  intros Hf. pose proof (exec_spec (hash_password P) (verify_phc P) (parse_phc P) (hasher P) _ (users_path P) _ _ content_of Hsound
    (Verify (salt e i) name password (updated e i)) u Hf) as Hx.
  unfold exec, mbind, SE_bind, after in Hx. unfold verify_user. destruct (verify_password _ _ _ _ _ _ _ _ _ _ _ _ u) as [[v|x] u'];
    by destruct Hx as (? & ? & _).
Qed.

Lemma counter_spec i name counter u :
  CredFile.follows (decode_users (users_path P) (users_from_slice P)) content_of u ->
  let '(r, u') := note_counter_of P e i name counter u in
  CredFile.follows (decode_users (users_path P) (users_from_slice P)) content_of u'
  /\ does (users_host P) (users_path P) (users_from_slice P) (users_to_vec P) (fun a => user_spec a (NoteCounter name counter (updated e i))) u u' ((fun _ => None) <$> r).
Proof.
  intros Hf. pose proof (exec_spec (hash_password P) (verify_phc P) (parse_phc P) (hasher P) _ (users_path P) _ _ content_of Hsound
    (NoteCounter name counter (updated e i)) u Hf) as Hx.
  unfold exec, mbind, SE_bind, after in Hx. unfold note_counter_of. destruct (note_totp_counter _ _ _ _ _ _ _ u) as [[v|x] u'];
    by destruct Hx as (? & ? & _).
Qed.

Lemma does_ok {A} sp u u' (a : A) :
  does (users_host P) (users_path P) (users_from_slice P) (users_to_vec P) sp u u' (Ok a) ->
  exists l l', CredFile.on_file (decode_users (users_path P) (users_from_slice P)) u = Ok l
    /\ CredFile.on_file (decode_users (users_path P) (users_from_slice P)) u' = Ok l' /\ (Ok a, accounts l') = sp (accounts l).
Proof. intros [(_ & x & ? & _)|(l & l' & Hl & Hl' & [Hs|(x & ? & _)])]; [done|eauto|done]. Qed.

(** An accepted password is the one of an account on file. *)
Lemma verified_account i name password u v u' :
  CredFile.follows (decode_users (users_path P) (users_from_slice P)) content_of u ->
  verify_user P e i name password u = (Ok v, u') ->
  CredFile.follows (decode_users (users_path P) (users_from_slice P)) content_of u'
  /\ exists l r, CredFile.on_file (decode_users (users_path P) (users_from_slice P)) u = Ok l /\ accounts l !! name = Some r
      /\ Users.verify (verify_phc P) password (u_phc r) = true /\ verified r = Ok v /\ name_is_valid name = true /\ u_name r = name.
Proof.
  intros Hf Hv. pose proof (verify_spec i name password u Hf) as Hs. rewrite Hv in Hs. destruct Hs as [Hf' (l & l' & Hl & _ & Hsp)%does_ok].
  split; [done|]. unfold user_spec, Users.spec in Hsp. destruct (accounts l !! name) as [r|] eqn:Er; [|done].
  destruct (Users.verify _ _ _) eqn:Ev; [|done]. destruct (rehash_account _ _ _ _ _ _ _ _) as [a|]; [|done].
  exists l, r. split_and!; [done..| | |].
  - destruct (verified r); [|done]. injection Hsp as -> _. done.
  - rewrite accounts_find in Er. apply find_user_name in Er as [<- Hin]. apply on_file_valid in Hl as [Hl _].
    rewrite Forall_forall in Hl. by apply Hl.
  - rewrite accounts_find in Er. by apply find_user_name in Er as [? _].
Qed.

(** How the second factor of an account was satisfied. *)
Definition second_factor (r : UserRecord) (code : option rstr) (w' : AuthState) : Prop :=
  match u_totp_secret r with
  | None => totp_required P = false
  | Some text =>
      exists secret c counter, from_base32 text = Ok secret /\ code = Some c
        /\ Totp.check (hmac_sha1 P) secret c (unix_seconds e) (u_totp_last_counter r) = Ok counter
        /\ exists l' r', accounts_on_file w' = Ok l' /\ accounts l' !! u_name r = Some r' /\ u_totp_last_counter r' = Some counter
  end.

Lemma check_totp_ok r v code w totp w' :
  users_follow w -> verified r = Ok v -> check_totp P e v code w = (Ok totp, w') ->
  totp = is_some (u_totp_secret r) /\ second_factor r code w'.
Proof.
  intros Hf Hv Hc. unfold verified, stored_secret in Hv. unfold check_totp in Hc. unfold second_factor.
  destruct (u_totp_secret r) as [text|].
  - destruct (from_base32 text) as [secret|]; [|done]. injection Hv as <-. cbn [v_totp v_totp_last_counter v_name] in Hc.
    apply bind_ok in Hc as (c & w1 & (Hcode & ->)%give_ok & (counter & w2 & (Ht & ->)%give_ok & ([] & w3 & Hn & Hr)%bind_ok)%bind_ok).
    injection Hr as <- <-. split; [done|]. destruct code as [c'|]; [|done]. injection Hcode as ->.
    exists secret, c, counter. split_and!; [done..|]. unfold on_users in Hn. pose proof (counter_spec 1 (u_name r) counter (st_users w) Hf) as Hs.
    destruct (note_counter_of _ _ _ _ _ (st_users w)) as [res u]. injection Hn as -> <-. destruct Hs as [_ (l & l' & Hl & Hl' & Hsp)%does_ok].
    unfold user_spec, Users.spec, at_account in Hsp. destruct (accounts l !! u_name r) as [r0|]; [|done].
    unfold note_counter in Hsp. destruct (from_option _ _ _); [done|]. injection Hsp as Hsp.
    eexists l', _. split; [exact Hl'|]. rewrite Hsp, lookup_insert_eq. done.
  - injection Hv as <-. cbn [v_totp] in Hc. destruct (totp_required P); [done|]. by injection Hc as <- <-.
Qed.

(** C20: A login answers only for an account on file whose password was given,
    with the second factor it has - a fresh code, recorded so that it cannot be
    used again - or none where none is required, and while neither the address
    nor the name is locked out. The cookie then names a live session of that
    account with the restriction the account is under, and a session presented
    with the request is dead. Whatever other requests do in between. *)
Theorem login_sound q w a w' :
  users_follow w -> (forall w, users_follow w -> users_follow (meanwhile e w)) ->
  serve P e (Login (Some q)) w = (Ok a, w') ->
  let name := l_username q in
  RateLimit.check (st_limiter w) (client e) name (handle_at e) = Ok () /\ within_limits q = true
  /\ exists l r, accounts_on_file w = Ok l /\ accounts l !! name = Some r
    /\ Users.verify (verify_phc P) (l_password q) (u_phc r) = true /\ second_factor r (l_totp_code q) w'
    /\ exists i s, a = mkAnswer 200 (set_cookie P (set_cookie_value i)) (SessionBody (view (sessions w') s (handle_at e)))
      /\ fresh_session e s name (is_some (u_totp_secret r)) (u_must_change_password r)
      /\ (forall later, expired s (idle (sessions w')) (absolute (sessions w')) later = false ->
            (lookup (key_of P) (sessions w') i later).2 = Some (touch later s))
      /\ (forall p later, cookie_id (headers e) = Some p -> p <> i -> (lookup (key_of P) (sessions w') p later).2 = None).
Proof.
  intros Hf Hm (w1 & Hg & Hl)%serve_ok name. cbn [handler] in Hl. apply guard_ok in Hg as (t & _ & ->).
  apply login_ok in Hl as (x & w2 & Ha & -> & ->). apply attempt_ok in Ha as (Hc & Hlim & v & w3 & totp & w4 & Hv & Ht & E & Hs).
  apply hashing_ok in Hv as (n & u & _ & Hv & ->).
  destruct (verified_account 0 _ _ _ _ _ (users_follow_sessions t w Hf) Hv) as (Hf' & l & r & Ho & Hr & Hp & Hver & Hvalid & Hname).
  assert (En : principal_name (l_username q) = name).
  { unfold principal_name in *. destruct (name_is_valid (l_username q)) eqn:En; [done|]. by vm_compute in Hvalid. }
  rewrite En in *. destruct (check_totp_ok r v _ _ totp w4 (Hm (set_users u (set_sessions t w)) Hf') Hver Ht) as [-> Hsec].
  split; [done|]. split; [done|]. exists l, r. split_and!; [done..| |].
  - unfold second_factor, accounts_on_file in *. rewrite E. done.
  - destruct Hs as (s & Hins & Hfs & Hview). exists x.1, s.
    assert (Hv' : v_name v = name /\ v_must_change_password v = u_must_change_password r).
    { unfold verified in Hver. destruct (stored_secret r); [|done]. injection Hver as <-. by rewrite Hname. }
    destruct Hv' as [E1 E2]. rewrite E1, E2 in Hfs. split_and!.
    + unfold established. by rewrite Hview.
    + done.
    + intros later Hex. by eapply installs_lookup.
    + intros p later Hp' Hne. rewrite Hp' in Hins. by eapply installs_dead.
Qed.

(** *** A refused login *)

(** Why a login over the accounts [l] is refused, if it is. *)
Definition refusal (l : list UserRecord) (q : LoginRequest) : option AuthError :=
  if negb (within_limits q) then Some InvalidCredentials
  else match accounts l !! principal_name (l_username q) with
       | None => Some InvalidCredentials
       | Some r =>
           if negb (Users.verify (verify_phc P) (l_password q) (u_phc r)) then Some InvalidCredentials
           else match stored_secret r with
                | Err x => Some x
                | Ok None => if totp_required P then Some InvalidCredentials else None
                | Ok (Some secret) =>
                    match l_totp_code q with
                    | None => Some InvalidCredentials
                    | Some c =>
                        match Totp.check (hmac_sha1 P) secret c (unix_seconds e) (u_totp_last_counter r) with
                        | Err x => Some x
                        | Ok _ => None
                        end
                    end
                end
       end.

(** The records of a refusal: the failure, and a lockout for each principal it
    locked out. *)
Definition lockout_records (n : nat) (locked : list Principal) : list AuthRecord :=
  imap (fun i p => with_client_ip (client e) (with_kind SessionUser (new_record Event.LockedOut (show_principal p) RError (stamp P (n + i))))) locked.

Definition failure_records (x : AuthError) (subject : rstr) (event : AuthEvent) (w : AuthState) : list AuthRecord :=
  with_detail (message_id x) (with_client_ip (client e) (with_kind SessionUser
    (new_record (match x with TotpReplayed => Event.TotpReplayed | _ => event end) subject RError (stamp P (length (st_log w))))))
  :: lockout_records (S (length (st_log w))) (record_failure (st_limiter w) (client e) subject (handle_at e)).2.

Definition add_records (rs : list AuthRecord) (w : AuthState) : AuthState :=
  mkState (st_users w) (st_tokens w) (st_limiter w) (st_token_limiter w) (st_permits w) (st_rejections w) (st_log w ++ rs).

Lemma lockouts_run {E} ps : forall w,
  foldr (fun p (rest : SE AuthState E ()) => _ ← about_client P e Event.LockedOut (show_principal p) RError; rest) (mret ()) ps w
  = (Ok (), add_records (lockout_records (length (st_log w)) ps) w).
Proof.
  induction ps as [|p ps IH]; intros w; cbn [foldr].
  - unfold add_records, lockout_records. simpl. rewrite app_nil_r. by destruct w.
  - unfold mbind, SE_bind, after, about_client, record, updating. rewrite IH. unfold add_records, lockout_records. simpl.
    rewrite length_app, <- app_assoc. simpl. do 3 f_equal.
    rewrite Nat.add_0_r. f_equal. apply imap_ext. intros i y _. simpl. by rewrite <- Nat.add_assoc.
Qed.

(** A credential failure feeds the limiter and the log; nothing else does. *)
Lemma audit_failure_run {E} x subject event w :
  x = InvalidCredentials \/ x = TotpReplayed ->
  audit_failure (E := E) P e x subject event w
  = (Ok (), set_limiter (record_failure (st_limiter w) (client e) subject (handle_at e)).1 (add_records (failure_records x subject event w) w)).
Proof.
  intros Hx. unfold failure_records, audit_failure.
  assert (Hrun : forall ev, (_ ← record (E := E) P (fun ts => with_detail (message_id x) (with_client_ip (client e) (with_kind SessionUser (new_record ev subject RError ts))));
    locked ← (fun w => let '(l, locked) := record_failure (st_limiter w) (client e) subject (handle_at e) in (Ok locked, set_limiter l w));
    foldr (fun p (rest : SE AuthState E ()) => _ ← about_client P e Event.LockedOut (show_principal p) RError; rest) (mret ()) locked) w
    = (Ok (), set_limiter (record_failure (st_limiter w) (client e) subject (handle_at e)).1 (add_records
        (with_detail (message_id x) (with_client_ip (client e) (with_kind SessionUser (new_record ev subject RError (stamp P (length (st_log w))))))
         :: lockout_records (S (length (st_log w))) (record_failure (st_limiter w) (client e) subject (handle_at e)).2) w))).
  { intros ev. unfold mbind, SE_bind, after, record, updating. cbn [st_limiter add_record].
    destruct (record_failure _ _ _ _) as [l locked]. rewrite lockouts_run. cbn [st_log set_limiter add_record].
    rewrite length_app. simpl. rewrite Nat.add_1_r. unfold add_records. simpl. by rewrite <- app_assoc. }
  destruct Hx as [-> | ->]; apply Hrun.
Qed.

(** The accounts after a refused login: the right password, with a missing or wrong
    code, still replaces an outdated hash. *)
Definition checked (i : nat) (name password : rstr) (l : list UserRecord) : gmap rstr UserRecord :=
  match accounts l !! name with
  | Some r =>
      if Users.verify (verify_phc P) password (u_phc r) && needs_rehash (parse_phc P) (hasher P) (u_phc r) then
        match Users.hash (hash_password P) (hasher P) (salt e i) password with
        | Ok phc => <[name := set_updated (updated e i) (set_phc phc r)]> (accounts l)
        | Err _ => accounts l
        end
      else accounts l
  | None => accounts l
  end.

Definition accounts_after (q : LoginRequest) (l : list UserRecord) : gmap rstr UserRecord :=
  if within_limits q then checked 0 (principal_name (l_username q)) (l_password q) l else accounts l.

(** A refused attempt changes the user store alone: sessions end at most, and the
    accounts on file are [a]. *)
Definition refused_state (a : gmap rstr UserRecord) (w w1 : AuthState) : Prop :=
  exists u, w1 = set_users u w /\ older (sessions w) (sessions w1) /\ users_follow w1
    /\ exists l', accounts_on_file w1 = Ok l' /\ accounts l' = a.

(** The failure of a password check, with a host that does not fail. *)
Lemma verify_refused i name password u l :
  CredFile.follows (decode_users (users_path P) (users_from_slice P)) content_of u ->
  no_failures (users_host P) (users_to_vec P) -> (forall c salt b, hash_password P c salt b <> None) ->
  CredFile.on_file (decode_users (users_path P) (users_from_slice P)) u = Ok l ->
  let '(r, u') := verify_user P e i name password u in
  r = match accounts l !! name with
      | None => Err InvalidCredentials
      | Some r => if Users.verify (verify_phc P) password (u_phc r) then verified r else Err InvalidCredentials
      end
  /\ CredFile.follows (decode_users (users_path P) (users_from_slice P)) content_of u'
  /\ exists l', CredFile.on_file (decode_users (users_path P) (users_from_slice P)) u' = Ok l' /\ accounts l' = checked i name password l.
Proof.
  intros Hf Hno Hhash Ho. pose proof (verify_spec i name password u Hf) as Hs.
  destruct (verify_user P e i name password u) as [r u']. destruct Hs as [Hf' Hd].
  destruct (does_exactly _ _ _ _ _ _ _ _ _ Hno Hd Ho) as (l' & Hl' & Hsp). unfold user_spec, Users.spec in Hsp.
  assert (Hend : forall x a, (Some <$> r, accounts l') = (Some <$> x, a) -> checked i name password l = a ->
    r = x /\ CredFile.follows (decode_users (users_path P) (users_from_slice P)) content_of u'
    /\ exists l', CredFile.on_file (decode_users (users_path P) (users_from_slice P)) u' = Ok l' /\ accounts l' = checked i name password l).
  { intros x a [= Hr Ha] ->. split_and!; [by destruct r, x; simplify_eq/=|done|by exists l']. }
  unfold checked in *. destruct (accounts l !! name) as [rec|] eqn:Er; [|by eapply (Hend (Err InvalidCredentials))].
  destruct (Users.verify _ _ _); [|by eapply (Hend (Err InvalidCredentials))]. unfold rehash_account in Hsp. cbn [andb] in *.
  destruct (needs_rehash _ _ _); [|by eapply (Hend (verified rec))].
  destruct (Users.hash _ _ _ _) as [phc|x] eqn:Eh.
  2: { unfold Users.hash in Eh. destruct (hash_password P _ _ _) eqn:E; [done|by apply Hhash in E]. }
  rewrite accounts_find in Er. pose proof (find_user_name _ _ _ Er) as [En _]. unfold mbind, result_bind, at_account in Hsp.
  rewrite En, accounts_find, Er in Hsp. by exact (Hend (verified rec) _ Hsp eq_refl).
Qed.

Lemma attempt_refused q w l x n :
  users_follow w -> no_failures (users_host P) (users_to_vec P) -> (forall c salt b, hash_password P c salt b <> None) ->
  (forall w, meanwhile e w = w) -> accounts_on_file w = Ok l -> st_permits w = S n ->
  RateLimit.check (st_limiter w) (client e) (principal_name (l_username q)) (handle_at e) = Ok () ->
  refusal l q = Some x ->
  exists w1, attempt P e q (principal_name (l_username q)) w = (Err x, w1) /\ refused_state (accounts_after q l) w w1.
Proof.
  intros Hf Hno Hhash Hm Ho Hn Hc Hr. unfold attempt.
  assert (E : check_limits e (principal_name (l_username q)) w = (Ok (), w)) by (unfold check_limits, mbind, SE_bind, after, reading, give; by rewrite Hc).
  unfold mbind at 1, SE_bind, after. rewrite E. clear E. unfold refusal in Hr. unfold accounts_after.
  destruct (within_limits q); cbn [negb] in Hr |- *.
  2: { injection Hr as <-. exists w. split; [done|]. exists (st_users w). split_and!; [by destruct w|done|done|by exists l]. }
  set (name := principal_name (l_username q)) in *. pose proof (verify_refused 0 name (l_password q) (st_users w) l Hf Hno Hhash Ho) as Hv.
  pose proof (verify_link_aged P e 0 name (l_password q) (st_users w)) as Haged.
  assert (Hh : hashing e (verify_user P e 0 name (l_password q)) w
    = ((verify_user P e 0 name (l_password q) (st_users w)).1, set_users (verify_user P e 0 name (l_password q) (st_users w)).2 w)).
  { unfold hashing, on_users. rewrite Hn. cbn [st_users set_permits]. destruct (verify_user _ _ _ _ _ (st_users w)). rewrite Hm.
    unfold set_permits, set_users. simpl. by rewrite Hn. }
  unfold mbind at 1, SE_bind, after. rewrite Hh. clear Hh. destruct (verify_user P e 0 name (l_password q) (st_users w)) as [r u'].
  cbn [fst snd] in *. destruct Hv as (-> & Hf' & Hl').
  assert (Hs : refused_state (checked 0 name (l_password q) l) w (set_users u' w)) by (exists u'; by split_and!).
  set (w1 := set_users u' w) in *.
  destruct (accounts l !! name) as [r|]; [|injection Hr as <-; by exists w1].
  destruct (Users.verify _ _ _); cbn [negb] in Hr; [|injection Hr as <-; by exists w1]. unfold verified.
  destruct (stored_secret r) as [[secret|]|y]; cbn; [| |injection Hr as <-; by exists w1].
  - unfold mbind at 1, SE_bind, after, check_totp. cbn [v_totp v_totp_last_counter]. destruct (l_totp_code q) as [c|]; [|injection Hr as <-; by exists w1].
    unfold mbind, SE_bind, after, give. destruct (Totp.check _ _ _ _ _) as [counter|y]; [done|]. injection Hr as <-. by exists w1.
  - unfold mbind at 1, SE_bind, after, check_totp. cbn [v_totp]. destruct (totp_required P); [|done]. injection Hr as <-. by exists w1.
Qed.

(** C21: A login with wrong credentials says one thing. Whichever it is - no such
    account, a wrong password, a missing, wrong or replayed code, an over-long
    field - the answer is the same 401, the limiter counts one failure of the
    address and the name, and the log gains the same records (a replayed code
    under its own event). Nothing else changes, the API tokens, their limiter, the
    table of refused credentials and the accounts on file included, but for two
    things: sessions may end, and the right password with a missing or wrong code
    still replaces an outdated hash of that account. This is a run in which the file
    is readable, no call fails and no other request runs while the password is
    hashed. A locked-out login, or one that finds no hashing slot, changes nothing
    at all. *)
Theorem login_says_one_thing q w :
  let name := principal_name (l_username q) in
  (forall x, RateLimit.check (st_limiter w) (client e) name (handle_at e) = Err x -> login P e (Some q) w = (Err (api_error x), w))
  /\ (RateLimit.check (st_limiter w) (client e) name (handle_at e) = Ok () -> within_limits q = true -> st_permits w = 0%nat ->
        login P e (Some q) w = (Err (api_error Busy), w))
  /\ forall l x n, users_follow w -> no_failures (users_host P) (users_to_vec P) -> (forall c salt b, hash_password P c salt b <> None) ->
      (forall w, meanwhile e w = w) -> accounts_on_file w = Ok l -> st_permits w = S n ->
      RateLimit.check (st_limiter w) (client e) name (handle_at e) = Ok () ->
      refusal l q = Some x -> x = InvalidCredentials \/ x = TotpReplayed ->
      let '(answer, w') := login P e (Some q) w in
      answer = Err (mkApiError 401 (lit "web-auth-invalid-credentials") None)
      /\ st_log w' = st_log w ++ failure_records x name Event.LoginFailed w
      /\ st_limiter w' = (record_failure (st_limiter w) (client e) name (handle_at e)).1
      /\ (exists l', accounts_on_file w' = Ok l' /\ accounts l' = accounts_after q l) /\ users_follow w'
      /\ st_tokens w' = st_tokens w /\ st_token_limiter w' = st_token_limiter w /\ st_rejections w' = st_rejections w
      /\ st_permits w' = st_permits w /\ older (sessions w) (sessions w').
Proof.
  intros name. split_and!.
  - intros x Hx. unfold login, attempt, check_limits, mbind, SE_bind, after, reading, give. fold name. rewrite Hx.
    assert (exists secs, x = RateLimited secs) as [secs ->]; [|done].
    unfold RateLimit.check in Hx. destruct (option_max _ _); [|done]. injection Hx as <-. eauto.
  - intros Hc Hlim Hp. unfold login, attempt, check_limits, mbind, SE_bind, after, reading, give. fold name.
    rewrite Hc, Hlim. cbn [negb]. unfold hashing. by rewrite Hp.
  - intros l x n Hf Hno Hhash Hm Ho Hn Hc Hr Hx.
    destruct (attempt_refused q w l x n Hf Hno Hhash Hm Ho Hn Hc Hr) as (w1 & Ha & u & -> & Hold & Hf' & Hl').
    unfold login, after. fold name in Ha |- *. rewrite Ha. unfold mbind, SE_bind, after. rewrite audit_failure_run by done.
    unfold throw. split_and!; try done. by destruct Hx as [-> | ->].
Qed.

End Admission.

(** ** Every session traces back to a login *)

Section Provenance.
Context `{!Orders} (P : Platform).

Lemma heirs_known n w w' m k x :
  heirs (Some n) w w' -> entries (sessions w) = Some m -> m !! k = Some x -> subject_of (session_of x) = n -> heirs None w w'.
Proof. intros Hh Hm Hx Hn m' k' y Hm' Hy. left. destruct (Hh m' k' y Hm' Hy) as [?|[= E]]; [done|]. exists m, k, x. split_and!; [done..|congruence]. Qed.

(** What one request adds to the table. *)
Lemma serve_heirs e r w :
  (forall w, aged w (meanwhile e w)) ->
  heirs None w (serve P e r w).2
  \/ exists q a w', r = Login (Some q) /\ serve P e r w = (Ok a, w') /\ heirs (Some (principal_name (l_username q))) w w'.
Proof.
  intros Hm. pose proof (aged_reads P) as Hreads. pose proof (aged_writes P e Hm) as Hw.
  assert (Hx : keeps aged (extract_write P (headers e) (client e) (resolve_at e) (resolve_unix e))) by by apply (keeps_extract_write P e aged).
  assert (Hp : keeps aged (extract_pending P (headers e) (client e) (resolve_at e) (resolve_unix e))) by by apply (keeps_extract_pending P aged).
  destruct (bind_kept aged (guard P e (method r)) (fun _ => handler P e r) w) as [Hl|([] & w1 & _ & H1 & E)];
    [by apply (keeps_guard P e aged)|left; by apply aged_heirs|].
  change (guard P e (method r) ≫= (fun _ => handler P e r)) with (serve P e r) in E. rewrite E.
  assert (Hplain : keeps aged (handler P e r) -> heirs None w (handler P e r w1).2).
  { intros Hk. apply aged_heirs. etrans; [exact H1|apply Hk]. }
  assert (Hsession : forall (m : SE AuthState ApiError Caller) (k : rstr * Session -> SE AuthState ApiError Answer),
    keeps aged m -> m = extractor P e r -> (forall p s, keeps (heirs (Some (subject_of s))) (k (p, s))) ->
    heirs None w ((c ← m; x ← need_session c; k x) w1).2).
  { intros m k Hk Em Hks. etrans; [by apply aged_heirs|].
    destruct (reach_kept aged m k w1 Hk) as [?|(c & [p s] & w2 & Hc & H2 & Hs & ->)]; [by apply aged_heirs|].
    rewrite Em in Hc. destruct (extractor_session P e r w1 c w2 p s Hc Hs) as (_ & _ & Hlook & _).
    apply lookup_some in Hlook as (m1 & x & Hm1 & Hx1 & _ & _ & Es).
    apply (heirs_known (subject_of s) _ _ m1 (key_of P p) x); [|done|done|by rewrite Es].
    etrans; [by apply aged_heirs|]. apply Hks. }
  assert (Hchanged : forall who n ev x, keeps (heirs who) (credential_changed P e n ev x))
    by (intros who; apply (keeps_credential_changed P e (heirs who)), heirs_writes, Hm).
  assert (Haudit : forall who x n ev, keeps (heirs who) (audit_failure (E := ApiError) P e x n ev))
    by (intros who; apply (keeps_audit_failure P e (heirs who)), heirs_writes, Hm).
  destruct (plain_request r) eqn:Ep; [left; by apply Hplain, (keeps_plain_handlers P e aged)|].
  assert (Hrec : forall E ev i s, keeps aged (record_token (E := E) P e ev i s)) by (intros E' ev i s; by eapply keeps_any_record).
  pose proof (@aged_tokens) as Htok.
  destruct r as [body| | | |body| | |body|body| | | | | |body|]; try done; cbn [handler].
  - destruct body as [q|]; [|left; by apply aged_heirs]. unfold login, after.
    destruct (attempt P e q (principal_name (l_username q)) w1) as [[x|y] w2] eqn:Ea.
    + right. exists q. eexists _, _. split; [done|]. split; [done|]. etrans; [by apply aged_heirs|].
      etrans; [by eapply attempt_heirs|]. apply aged_heirs. by apply aged_same.
    + left. apply aged_heirs. etrans; [exact H1|]. etrans; [by eapply attempt_err|].
      refine ((_ : keeps aged _) w2). pose proof (@keeps_audit_failure _ P e aged _ _ Hw ApiError). kept.
  - left. unfold change_password. apply Hsession; [done..|]. intros p s. set (who := Some (subject_of s)).
    pose proof (keeps_replace_password P e (heirs who) (heirs_writes P e Hm who) (subject_of s) (fun i t => heirs_new_session P e i _ t)).
    pose proof (Hchanged who). pose proof (Haudit who). unfold malformed. kept.
  - left. unfold confirm. apply Hsession; [done..|]. intros p s. set (who := Some (subject_of s)).
    pose proof (keeps_confirm_enrolment P e (heirs who) (heirs_reads P who) (heirs_writes P e Hm who) (subject_of s) (fun i t => heirs_new_session P e i _ t)).
    pose proof (Hchanged who). pose proof (Haudit who). unfold refused, malformed. kept.
  - left. unfold disable. apply Hsession; [done..|]. intros p s. set (who := Some (subject_of s)).
    pose proof (keeps_turn_off P e (heirs who) (heirs_writes P e Hm who) (subject_of s) (fun i t => heirs_new_session P e i _ t)).
    pose proof (Hchanged who). pose proof (Haudit who). unfold refused, malformed. kept.
  - left. apply Hplain. cbn [handler]. unfold create_token, need_session, malformed. kept.
  - left. apply Hplain. cbn [handler]. unfold revoke_token, need_session. kept.
Qed.

(** Requests one after the other, each with what it brings. *)
Definition run (w : AuthState) (requests : list (Env * Request)) : AuthState :=
  foldl (fun w x => (serve P x.1 x.2 w).2) w requests.

(** C23: Every session traces back to a login. After any requests to a server that
    started without sessions, a session in the table is of an account that logged
    in before: one of the requests was a login with that name, and it was
    accepted. *)
Theorem no_session_without_login w requests m k y :
  entries (sessions w) = Some ∅ -> (forall x, x ∈ requests -> forall w, aged w (meanwhile x.1 w)) ->
  entries (sessions (run w requests)) = Some m -> m !! k = Some y ->
  exists before e q after_ a w', requests = before ++ (e, Login (Some q)) :: after_
    /\ serve P e (Login (Some q)) (run w before) = (Ok a, w')
    /\ subject_of (session_of y) = principal_name (l_username q).
Proof.
  intros Hw. revert m k y. induction requests as [|[e r] requests IH] using rev_ind; intros m k y Hr Hm Hy.
  { unfold run in Hm. simpl in Hm. rewrite Hw in Hm. injection Hm as <-. by rewrite lookup_empty in Hy. }
  unfold run in Hm. rewrite foldl_snoc in Hm. change (foldl _ w requests) with (run w requests) in Hm. cbn [fst snd] in Hm.
  assert (Hmean : forall w, aged w (meanwhile e w)) by (apply (Hr (e, r)); set_solver).
  assert (Hold : forall m0 k0 x, entries (sessions (run w requests)) = Some m0 -> m0 !! k0 = Some x -> subject_of (session_of x) = subject_of (session_of y) ->
    exists before e0 q after_ a w', requests ++ [(e, r)] = before ++ (e0, Login (Some q)) :: after_
      /\ serve P e0 (Login (Some q)) (run w before) = (Ok a, w') /\ subject_of (session_of y) = principal_name (l_username q)).
  { intros m0 k0 x Hm0 Hx E. destruct (IH m0 k0 x (fun z Hz => Hr z ltac:(set_solver)) Hm0 Hx) as (before & e0 & q & after_ & a & w' & -> & Hs & Es).
    exists before, e0, q, (after_ ++ [(e, r)]), a, w'. rewrite <- app_assoc. split_and!; [done|done|congruence]. }
  destruct (serve_heirs e r (run w requests) Hmean) as [Hh|(q & a & w' & -> & Hs & Hh)].
  - destruct (Hh m k y Hm Hy) as [(m0 & k0 & x & Hm0 & Hx & E)|?]; [by eapply Hold|done].
  - rewrite Hs in Hm. destruct (Hh m k y Hm Hy) as [(m0 & k0 & x & Hm0 & Hx & E)|[= E]]; [by eapply Hold|].
    exists requests, e, q, [], a, w'. by split_and!.
Qed.

End Provenance.
