(* ===== verification/RouteDemo.v ===== *)
(** * The authentication routes on a concrete platform

    One account with a password and one with a second factor on a quiet host; the
    instances of the theorems of [RouteProps.v], and two interleavings. *)

From Stdlib Require Import ZArith.
From stdpp Require Import gmap.
From S2P Require Import Prelude Stateful Str Num Ip Doc Diag Utf8 AuthErr Time CredFile RateLimit TokenLimit Coalesce Totp AuditLog Tokens Users Ops Session Csrf Web Routes RouteSafe SignIn RouteProps.

Module RouteDemo.

#[export] Instance orders : Orders := {|
  order_users := canonical_iteration _ _; order_ips := canonical_iteration _ _; order_names := canonical_iteration _ _;
  order_tokens := canonical_iteration _ _; order_clients := canonical_iteration _ _; order_sessions := canonical_iteration _ _ |}.

Definition P : Platform := {|
  users_host := UsersDemo.host; users_path := UsersDemo.path; users_from_slice := UsersDemo.from_slice; users_to_vec := UsersDemo.to_vec;
  tokens_host := TokenDemo.host; tokens_path := TokenDemo.path; tokens_from_slice := TokenDemo.from_slice; tokens_to_vec := TokenDemo.to_vec;
  sha256 := TokenDemo.sha256; key_of := CsrfDemo.digest_of;
  hash_password := UsersDemo.hash_password; verify_phc := UsersDemo.verify_phc; parse_phc := UsersDemo.parse_phc; hasher := UsersDemo.h;
  hmac_sha1 := demo_hmac; header_value := fun _ => true; stamp := fun n => show_dec (Z.of_nat n); query := fun l => reverse l; totp_required := false |}.

Definition secret : TotpSecret := repeat 5%Z 20.

(** The accounts on file. *)
Definition accounts_before : Store UserRecord Link :=
  UsersDemo.run [UDo UsersDemo.alice; UDo (Users.Create [2%N] (lit "bob") (lit "battery staple") false (lit "2026"));
                 UDo (Users.SetTotp (lit "bob") (Some secret) (lit "2026"))].

Definition w0 : AuthState :=
  set_sessions (Session.new (from_mins 30) (from_mins 720))
    (mkState accounts_before TokenDemo.start (RateLimit.new 3) (TokenLimit.new 5 60) MAX_CONCURRENT_ARGON2 empty_coalescer []).

Definition ip : IpAddr := V4 10 0 0 1.

(** A request with these headers at the second [at_]; its ids start with [tag]. *)
Definition env (tag : rstr) (at_ : Z) (headers : Headers) : Env := {|
  client := ip; headers := headers; authority := None;
  guard_at := from_secs at_; resolve_at := from_secs at_; resolve_unix := at_; handle_at := from_secs at_; handle_unix := at_;
  salt := fun _ => [9%N]; updated := fun _ => lit "2027";
  draw := fun n => let own := tag ++ show_dec (Z.of_nat n) in mkDraw (Some (lit "id-" ++ own)) (Some (lit "csrf-" ++ own)) (Some (lit "handle-" ++ own));
  drawn_secret := Some secret; drawn_token := Some [1%N]; drawn_token_id := Some [2%N]; meanwhile := fun w => w |}.

(** A request of the page that holds the session [own]. *)
Definition page (own : rstr) : Headers :=
  [ (COOKIE, Some (COOKIE_NAME ++ lit "=id-" ++ own)); (HOST, Some (lit "box.example:3333")); (SEC_FETCH_SITE, Some SAME_ORIGIN);
    (ORIGIN, Some (lit "https://box.example:3333")); (CSRF_HEADER, Some (lit "csrf-" ++ own)) ].

Definition alice (password : rstr) : Request := Login (Some (mkLogin (lit "alice") password None)).
Definition bob (code : option rstr) : Request := Login (Some (mkLogin (lit "bob") (lit "battery staple") code)).
Definition code_for (at_ : Z) : rstr := code_at demo_hmac secret (at_ / 30)%Z.

Abbreviation ask := (serve P).
Definition status_of (r : result ApiError Answer) : nat := match r with Ok a => an_status a | Err x => ae_status x end.
Definition answers (requests : list (Env * Request)) : list nat :=
  imap (fun i x => status_of (ask x.1 x.2 (run P w0 (take i requests))).1) requests.

Definition login_alice : Env * Request := (env (lit "a") 90 [], alice (lit "correct horse")).

(** A session: signed in, described, stepped up, a token issued and used, the
    password changed, the old session gone. *)
Example a_session :
  answers [ login_alice; (env (lit "b") 91 (page (lit "a1")), DescribeSession);
            (env (lit "c") 92 (page (lit "a1")), CreateToken (Some (mkTokenRequest (lit "backup") Write None)));
            (env (lit "d") 93 (page (lit "a1")), Reauth (Some (mkReauth (lit "correct horse") None)));
            (env (lit "e") 94 (page (lit "a1")), CreateToken (Some (mkTokenRequest (lit "backup") Write None)));
            (env (lit "f") 95 [(AUTHORIZATION, Some (lit "Bearer " ++ hex [1%N]))], ListTokens);
            (env (lit "g") 96 (page (lit "a1")), ChangePassword (Some (mkPasswordChange (lit "correct horse") (lit "another password"))));
            (env (lit "h") 97 (page (lit "a1")), DescribeSession);
            (env (lit "i") 98 (page (lit "g0")), DescribeSession) ]
  = [200; 200; 403; 200; 201; 401; 200; 401; 200]%nat.
Proof. vm_compute. reflexivity. Qed.

Example second_factor :
  answers [ (env (lit "a") 90 [], bob None); (env (lit "b") 90 [], bob (Some (code_for 90)));
            (env (lit "c") 95 [], bob (Some (code_for 90))); (env (lit "d") 121 [], bob (Some (code_for 121))) ]
  = [401; 200; 401; 200]%nat.
Proof. vm_compute. reflexivity. Qed.

(** A login that was verified just before the account's password changed: the
    change ends every session of the account, and then the login gives one more,
    to whoever knew the old password. *)
Definition overtaken : Env :=
  let e := env (lit "x") 93 [] in
  {| client := client e; headers := headers e; authority := authority e; guard_at := guard_at e; resolve_at := resolve_at e;
     resolve_unix := resolve_unix e; handle_at := handle_at e; handle_unix := handle_unix e; salt := salt e; updated := updated e;
     draw := draw e; drawn_secret := drawn_secret e; drawn_token := drawn_token e; drawn_token_id := drawn_token_id e;
     meanwhile := fun w => (ask (env (lit "g") 93 (page (lit "a1")))
       (ChangePassword (Some (mkPasswordChange (lit "correct horse") (lit "another password")))) w).2 |}.

Example login_overtaken :
  answers [ login_alice; (overtaken, alice (lit "correct horse")); (env (lit "b") 94 (page (lit "a1")), DescribeSession);
            (env (lit "c") 95 [], alice (lit "correct horse")); (env (lit "d") 96 (page (lit "x1")), DescribeSession) ]
  = [200; 200; 401; 401; 200]%nat.
Proof. vm_compute. reflexivity. Qed.

Lemma w0_follows : users_follow P UsersDemo.content_of w0.
Proof.
  apply users_follow_sessions. unfold users_follow. cbn [st_users].
  apply (user_run_follows _ _ _ _ _ _ _ _ _ UsersDemo.sound_users_demo); [apply UsersDemo.start_follows|].
  intros f [H|[H|[H|[]]]]%list_elem_of_In; discriminate H.
Qed.

Abbreviation w1 := (run P w0 [login_alice]).
Abbreviation w2 := (run P w0 [login_alice; (env (lit "d") 93 (page (lit "a1")), Reauth (Some (mkReauth (lit "correct horse") None)))]).
Abbreviation later := (env (lit "e") 94 (page (lit "a1"))).
Abbreviation issue_request := (CreateToken (Some (mkTokenRequest (lit "backup") Write None))).
Abbreviation change_request := (ChangePassword (Some (mkPasswordChange (lit "correct horse") (lit "another password")))).

End RouteDemo.
#[local] Existing Instance RouteDemo.orders.

Lemma some_not_none {A} (a b : option A) : is_some a = true -> is_some b = false -> a <> b.
Proof. by destruct a, b. Qed.

Lemma request_admitted_witness :
  exists p s, cookie_id (headers RouteDemo.later) = Some p /\ bearer (headers RouteDemo.later) = None
    /\ (lookup (key_of RouteDemo.P) (sessions RouteDemo.w2) p (first_look RouteDemo.later RouteDemo.issue_request)).2 = Some s
    /\ entitled RouteDemo.issue_request s
    /\ (method RouteDemo.issue_request = POST -> composed_by_us s (headers RouteDemo.later) (authority RouteDemo.later))
    /\ (token_route RouteDemo.issue_request = true -> is_some (step_up_left s (handle_at RouteDemo.later)) = true
        /\ (creates_token RouteDemo.issue_request = true -> totp_required RouteDemo.P = true -> totp_satisfied s = true)).
Proof.
  refine (request_admitted RouteDemo.P RouteDemo.later RouteDemo.issue_request RouteDemo.w2 _ _ _ _ (pair_ok _ _ _)).
  - discriminate.
  - reflexivity.
  - vm_compute. reflexivity.
Defined.

Lemma reads_change_nothing_witness : unchanged RouteDemo.w1 (serve RouteDemo.P RouteDemo.later DescribeSession RouteDemo.w1).2.
Proof. refine (reads_change_nothing RouteDemo.P RouteDemo.later DescribeSession RouteDemo.w1 _ _ _); reflexivity. Defined.

Lemma tokens_guarded_witness :
  token_route RouteDemo.issue_request = true
  /\ exists p s, cookie_id (headers RouteDemo.later) = Some p /\ bearer (headers RouteDemo.later) = None
    /\ (lookup (key_of RouteDemo.P) (sessions RouteDemo.w2) p (guard_at RouteDemo.later)).2 = Some s
    /\ must_change_password s = false /\ write (scopes s) = true
    /\ composed_by_us s (headers RouteDemo.later) (authority RouteDemo.later)
    /\ is_some (step_up_left s (handle_at RouteDemo.later)) = true
    /\ (creates_token RouteDemo.issue_request = true -> totp_required RouteDemo.P = true -> totp_satisfied s = true).
Proof.
  refine (tokens_guarded RouteDemo.P RouteDemo.later RouteDemo.issue_request RouteDemo.w2 _ _ _ _).
  - reflexivity.
  - intros w. reflexivity.
  - discriminate.
  - apply some_not_none; vm_compute; reflexivity.
Defined.

Lemma credential_change_ends_sessions_witness :
  exists p s i, cookie_id (headers RouteDemo.later) = Some p
    /\ (lookup (key_of RouteDemo.P) (sessions RouteDemo.w1) p (guard_at RouteDemo.later)).2 = Some s
    /\ Some (COOKIE_NAME ++ lit "=id-e0; Secure; HttpOnly; SameSite=Strict; Path=/") = set_cookie RouteDemo.P (set_cookie_value i)
    /\ (forall later, (handle_at RouteDemo.later <= later)%Z ->
          (later - handle_at RouteDemo.later < idle (sessions (serve RouteDemo.P RouteDemo.later RouteDemo.change_request RouteDemo.w1).2))%Z ->
          (later - handle_at RouteDemo.later < absolute (sessions (serve RouteDemo.P RouteDemo.later RouteDemo.change_request RouteDemo.w1).2))%Z ->
          exists s', (lookup (key_of RouteDemo.P) (sessions (serve RouteDemo.P RouteDemo.later RouteDemo.change_request RouteDemo.w1).2) i later).2 = Some s'
            /\ subject_of s' = subject_of s)
    /\ forall m k y, entries (sessions (serve RouteDemo.P RouteDemo.later RouteDemo.change_request RouteDemo.w1).2) = Some m -> m !! k = Some y ->
          subject_of (session_of y) = subject_of s -> id y = i.
Proof.
  refine (credential_change_ends_sessions RouteDemo.P RouteDemo.later RouteDemo.change_request RouteDemo.w1
    (mkAnswer 200 (Some (COOKIE_NAME ++ lit "=id-e0; Secure; HttpOnly; SameSite=Strict; Path=/")) _) _ _ _ (pair_ok _ _ _)).
  - discriminate.
  - reflexivity.
  - vm_compute. reflexivity.
Defined.

Lemma no_session_without_login_witness :
  exists before e q after_ a w', [RouteDemo.login_alice] = before ++ (e, Login (Some q)) :: after_
    /\ serve RouteDemo.P e (Login (Some q)) (run RouteDemo.P RouteDemo.w0 before) = (Ok a, w')
    /\ lit "alice" = principal_name (l_username q).
Proof.
  refine (no_session_without_login RouteDemo.P RouteDemo.w0 [RouteDemo.login_alice] _ (CsrfDemo.digest_of (lit "id-a1"))
    (mkEntry (lit "id-a1") (new_session (lit "alice") (mkScopes true) false (lit "csrf-a1") (lit "handle-a1") (from_secs 90) (from_secs 90)) None)
    _ _ _ _).
  - reflexivity.
  - intros x [H|[]]%list_elem_of_In w. subst x. apply aged_refl.
  - vm_compute. reflexivity.
  - vm_compute. reflexivity.
Defined.

Abbreviation bob_login := (mkLogin (lit "bob") (lit "battery staple") (Some (RouteDemo.code_for 90))).
Abbreviation bob_env := (RouteDemo.env (lit "b") 90 []).
Abbreviation bob_after := (serve RouteDemo.P bob_env (Login (Some bob_login)) RouteDemo.w0).2.

Lemma login_sound_witness :
  (serve RouteDemo.P bob_env (Login (Some bob_login)) RouteDemo.w0).1
    = Ok (mkAnswer 200 (Some (COOKIE_NAME ++ lit "=id-b1; Secure; HttpOnly; SameSite=Strict; Path=/"))
        (SessionBody (mkView (lit "bob") [lit "read"; lit "write"] (lit "csrf-b1") 1800 true false None)))
  /\ exists l r, accounts_on_file RouteDemo.P RouteDemo.w0 = Ok l /\ accounts l !! l_username bob_login = Some r
    /\ Users.verify (verify_phc RouteDemo.P) (l_password bob_login) (u_phc r) = true
    /\ second_factor RouteDemo.P bob_env r (l_totp_code bob_login) bob_after.
Proof.
  split; [vm_compute; reflexivity|].
  pose proof (login_sound RouteDemo.P bob_env UsersDemo.content_of UsersDemo.sound_users_demo bob_login RouteDemo.w0
    (mkAnswer 200 (Some (COOKIE_NAME ++ lit "=id-b1; Secure; HttpOnly; SameSite=Strict; Path=/"))
        (SessionBody (mkView (lit "bob") [lit "read"; lit "write"] (lit "csrf-b1") 1800 true false None))) bob_after
    RouteDemo.w0_follows (fun w Hw => Hw)) as Hone.
  cbv zeta in Hone. destruct Hone as (_ & _ & l & r & Hl & Hr & Hv & Hs & _); [apply pair_ok; vm_compute; reflexivity|].
  exact (ex_intro _ l (ex_intro _ r (conj Hl (conj Hr (conj Hv Hs))))).
Defined.

Abbreviation wrong_password := (mkLogin (lit "alice") (lit "wrong password") None).
Abbreviation nobody := (mkLogin (lit "nobody") (lit "correct horse") None).
Abbreviation refused_login q := (login RouteDemo.P bob_env (Some q) RouteDemo.w0).
Abbreviation demo_accounts := (match accounts_on_file RouteDemo.P RouteDemo.w0 with Ok l => l | Err _ => [] end).

Lemma login_says_one_thing_witness :
  ((refused_login wrong_password).1 = Err (mkApiError 401 (lit "web-auth-invalid-credentials") None)
    /\ (refused_login nobody).1 = Err (mkApiError 401 (lit "web-auth-invalid-credentials") None))
  /\ let '(answer, w') := refused_login wrong_password in
     answer = Err (mkApiError 401 (lit "web-auth-invalid-credentials") None)
     /\ st_log w' = st_log RouteDemo.w0 ++ failure_records RouteDemo.P bob_env InvalidCredentials (principal_name (l_username wrong_password)) Event.LoginFailed RouteDemo.w0
     /\ st_limiter w' = (record_failure (st_limiter RouteDemo.w0) (client bob_env) (principal_name (l_username wrong_password)) (handle_at bob_env)).1
     /\ (exists l', accounts_on_file RouteDemo.P w' = Ok l' /\ accounts l' = accounts_after RouteDemo.P bob_env wrong_password demo_accounts)
     /\ users_follow RouteDemo.P UsersDemo.content_of w'
     /\ st_tokens w' = st_tokens RouteDemo.w0 /\ st_token_limiter w' = st_token_limiter RouteDemo.w0
     /\ st_rejections w' = st_rejections RouteDemo.w0 /\ st_permits w' = st_permits RouteDemo.w0 /\ older (sessions RouteDemo.w0) (sessions w').
Proof.
  split; [split; vm_compute; reflexivity|].
  pose proof (login_says_one_thing RouteDemo.P bob_env UsersDemo.content_of UsersDemo.sound_users_demo wrong_password RouteDemo.w0) as Hone.
  cbv zeta in Hone. destruct Hone as (_ & _ & Hone).
  apply (Hone demo_accounts InvalidCredentials 1%nat RouteDemo.w0_follows); clear Hone; [..|by left].
  - split; [|split]; reflexivity || discriminate.
  - discriminate.
  - reflexivity.
  - vm_compute. reflexivity.
  - reflexivity.
  - vm_compute. reflexivity.
  - vm_compute. reflexivity.
Defined.
