(* ===== verification/EngineDemo.v ===== *)
(** * The whole system on a small host

    The hosts module behind the JSON adapter, the engine, the client, the monitor
    and its files, together: the setting in which the properties of the engine are
    tried out. A model is its own JSON and a message takes no bytes; the host is
    that of [MonitorDemo]. *)

From Stdlib Require Import ZArith.
From stdpp Require Import gmap sorting.
From S2P Require Import Prelude Str Num Ip Utf8 Doc Diag Version Config Hosts Descriptor Proto Transport Stateful Client AuditLog Session Time Ops.
From S2P Require Import Engine EngineSafe EngineApply EngineProps EngineStore Disk Atomic AtomicSafe Restore Allow Hooks Monitor MonitorDemo Confine Wired.
#[local] Open Scope Z_scope.

Module Desk.

(** ** The parts *)

#[export] Instance json : Json HostsModel := {|
  is_null _ := false; as_array _ := None; as_object _ := None; as_string _ := None; Version.get _ _ := None; pointer _ _ := None
|}.
#[export] Instance no_bytes {T} : Postcard T := {| to_allocvec _ := Ok []; take_from_bytes _ := Err [] |}.
#[export] Instance audit : AuditSink (list AuditRecord) := capture_audit.

(** The hosts module, with or without a commit to confirm. *)
Definition descriptor (confirm : bool) : ModuleDescriptor :=
  mkDescriptor (lit "hosts") (lit "hosts-name") [Lab.etc_hosts] (mkUpstream [] [] [] None []) [Lab.resolver] [Lab.validator] confirm false None [].

Definition allow (confirm : bool) : Allowlist :=
  match from_modules [descriptor confirm] (with_state_root Lab.state) with
  | Ok a => a
  | Err _ => mkAllowlist default_config [] [] [] [] ∅
  end.

Definition linux : HostProfile := mkProfile Linux Systemd (lit "host") ∅ 512.

Definition setup (confirm : bool) : Setup :=
  mkSetup (Lab.world 97 Lab.quiet) (allow confirm) Lab.hooks (fun n => 1000000000 * Z.of_nat n) (2 ^ 64) as_number of_number of_number
    (fun _ => lit "error") (fun _ => lit "error") (fun _ => lit "error") [Lab.parser] linux
    (Lab.p [lit "run"; lit "detent"; lit "staging"]) 0 (fun _ => 0) (fun i => show_dec (Z.of_nat i)) 4 false
    (fun _ => Err NotNewer) (lit "1.0.0") true.

Definition old : rbytes := lit "127.0.0.1 localhost".
Definition disk0 : Disk := <[Lab.hosts := Regular (Lab.file old)]> Lab.before.

Definition module (confirm : bool) : OpsModule HostsModel :=
  dyn_module HostsModule (lit "hosts") (descriptor confirm) (mkModel []) [] Ok Ok.

Definition front (confirm : bool) : Front HostsModel :=
  mkFront HostsModel [module confirm] (mkDetected linux (mkFacts None NoNetwork NoResolver [])) None
    (fun n => show_dec (Z.of_nat n)) (fun n t => show_dec (Z.of_nat n + t)) (fun _ _ => false) (fun _ => Err NotNewer).

#[export] Instance peer confirm : Peer Wire := wire_peer (setup confirm) true.

(** After the handshake. *)
Definition client (confirm : bool) : Client Wire := (hello (Peer0 := peer confirm) (new_client (mkWire (Lab.host disk0) None false))).2.
Definition tables (confirm : bool) : HelloAck := hello_ack (allow confirm).
Definition world (confirm : bool) : @Engine.World Wire (list AuditRecord) := Engine.mkWorld (client confirm) [] [] 1 None no_hashes.

Definition model : HostsModel := mkModel [Hosts.mkEntry LOCALHOST4 [lit "localhost"; lit "desk"] None].
Definition me : Identity := local_identity (lit "root").

Definition run (confirm : bool) (op : Operation HostsModel) : result OpsError (OpOutcome HostsModel) * Engine.World :=
  execute (Peer0 := peer confirm) (front confirm) op me AllowAll (world confirm).

Definition change (service : option ServiceCommand) : Operation HostsModel := Op.Apply (lit "hosts") model None service None.

Definition written : rbytes := lit "127.0.0.1" ++ [TAB] ++ lit "localhost desk".
Definition held (x : Wire) : option rbytes := file_at (disk (fs (wire_host x))) Lab.hosts.
Definition after_change (confirm : bool) : Wire := Client.peer (Engine.client (run confirm (change None)).2).
Definition log (confirm : bool) : list Event := events (run confirm (change None)).2.

End Desk.
Import Desk.

(** The file is changed; with a commit to confirm, it is armed. *)
Example greeted_tables : Client.tables (client true) = Some (tables true).
Proof. by vm_compute. Qed.
Example applied : is_ok (run false (change None)).1 = true /\ held (after_change false) = Some written.
Proof. by vm_compute. Qed.
Example armed_window : held (after_change true) = Some written /\ has_pending_commit (mon (wire_host (after_change true))) = true.
Proof. by vm_compute. Qed.

(** ** Witnesses *)

(** The log around the event [n]. *)
Lemma log_split confirm n e : log confirm !! n = Some e ->
  events (execute (Peer0 := peer confirm) (front confirm) (change None) me AllowAll (world confirm)).2
  = events (world confirm) ++ take n (log confirm) ++ e :: drop (S n) (log confirm).
Proof. intros H. symmetry. exact (take_drop_middle _ _ _ H). Qed.

Definition write_answer : result ClientError Response :=
  match log true !! 5%nat with Some (Asked _ answer) => answer | _ => Err CErr.NotGreeted end.
Definition receipt : WriteReceipt := match write_answer with Ok (Resp.Written w) => w | _ => mkReceipt 0 None [] false false false end.

Definition write_asked : Event :=
  Asked (Req.WriteTarget 0 (Some (Z.of_N <$> old)) written true) (Ok (Resp.Written receipt)).

Lemma write_in_log : log true !! 5%nat = Some write_asked.
Proof. vm_compute. reflexivity. Qed.

Lemma change_recorded_first_witness : is_mutating (change None) = true /\ ((exists start post' final kept, Audited start true ∈ take 5 (log true)
  /\ record_of (front true) me (change None) RStarted start /\ drop 6 (log true) = post' ++ [Audited final kept]
  /\ final_record (front true) me (change None) (run true (change None)).1 final) \/ changed_between (change None) (take 5 (log true))).
Proof.
  exact (proj2 (change_recorded_first (Peer0 := peer true) (front true) (tables true) (change None) me AllowAll (world true) (take 5 (log true))
    (drop 6 (log true)) write_asked greeted_tables (log_split true 5 write_asked write_in_log) eq_refl)).
Defined.

Lemma write_is_checked_witness : exists id model expected_hash action confirm m wi contents current rendered before checks,
  change None = Op.Apply id model expected_hash action confirm
  /\ rendering (front true) (tables true) m id model expected_hash wi contents current rendered /\ written = as_bytes rendered
  /\ take 5 (log true) = before ++ read_event wi contents :: checks ++ no_commit_pending true
  /\ Forall2 (check_passed written) (wi_checks wi) checks.
Proof.
  destruct (write_is_checked (Peer0 := peer true) (front true) (tables true) (change None) me AllowAll (world true) (take 5 (log true))
    (drop 6 (log true)) 0 (Some (Z.of_N <$> old)) written true (Ok (Resp.Written receipt)) greeted_tables
    (log_split true 5 write_asked write_in_log))
    as (id & model & eh & action & confirm & m & wi & contents & current & rendered & before & checks & H1 & H2 & _ & _ & _ & H3 & _ & H4 & H5 & _).
  exists id, model, eh, action, confirm, m, wi, contents, current, rendered, before, checks.
  exact (conj H1 (conj H2 (conj H3 (conj H4 H5)))).
Defined.

Lemma change_ok : is_ok (execute (Peer0 := peer true) (front true) (change None) me AllowAll (world true)).1 = true.
Proof. vm_compute. reflexivity. Qed.

Lemma journaled_write_guarded_witness : exists n timeout service_ answer rest tail,
  drop 6 (log true) = Asked (Req.StartConfirmTimer n timeout service_) answer :: rest ++ tail
  /\ armed answer /\ wr_backed_up receipt = true.
Proof.
  destruct (journaled_write_guarded (Peer0 := peer true) (front true) (tables true) (change None) me AllowAll (world true) (take 5 (log true))
    (drop 6 (log true)) 0 (Some (Z.of_N <$> old)) written receipt greeted_tables
    (log_split true 5 write_asked write_in_log))
    as (n & timeout & service_ & answer & rest & tail & H1 & _ & H2).
  exists n, timeout, service_, answer, rest, tail. split; [exact H1|]. pose proof change_ok as Hok.
  destruct ((execute (Peer0 := peer true) (front true) (change None) me AllowAll (world true)).1) as [o|e]; [exact H2|discriminate Hok].
Defined.

(** *** The composed system *)

Lemma one_target t : t ∈ a_targets (Desk.allow false) -> t = mkTargetEntry 0 0 (lit "/etc/hosts") Wire.File 420 Lab.backups.
Proof. intros H%list_elem_of_In. vm_compute in H. destruct H as [<-|[]]. vm_compute. reflexivity. Qed.

Lemma desk_tidy : tidy (setup false).
Proof.
  split; intros t ->%one_target.
  - exists Lab.etc, (lit "hosts"). intros expected b. split; try reflexivity; try done.
    + by apply (bool_decide_eq_false_1 (_ ∈ _)); vm_compute.
    + intros n. apply Demo.deep_outside. simpl. lia.
    + intros [k E]. discriminate E.
    + intros m [= <-]. exists Lab.state, IN_PLACE_MARKER.
      split_and!; try done; apply (bool_decide_eq_false_1 (_ ∈ _)); by vm_compute.
  - intros [(dir & i & Hd & H)|[H|(q & Hq & H)]].
    + change (join_name Lab.etc (lit "hosts") = join_name dir (CANDIDATE_PREFIX ++ candidate_name (setup false) i)) in H.
      apply join_inj in H as [_ H]. discriminate H.
    + vm_compute in H. discriminate H.
    + vm_compute in Hq. injection Hq as <-. revert H. apply (bool_decide_eq_false_1 (_ ∈ _)). vm_compute. reflexivity.
Qed.

#[export] Instance desk_store : @TargetStore Wire (peer false) := wire_store (setup false) true desk_tidy.

Lemma desk_idle : idle_host (setup false) (wire_host (Client.peer (client false))).
Proof.
  split; [vm_compute; reflexivity|]. intros t dir ->%one_target Hd. vm_compute in Hd. injection Hd as <-.
  apply Demo.is_dir_by. vm_compute. reflexivity.
Qed.

Lemma monitor_keeps_files_witness : exists c, tc_bytes c = old
  /\ (exchange (Peer0 := peer false) (Req.ReadTarget 0) (Client.peer (client false))).1 = Ok (Resp.Target c)
  /\ wire_content (setup false) (Client.peer (client false)) 0 = Some (tc_bytes c).
Proof.
  assert (H : exists c, (exchange (Peer0 := peer false) (Req.ReadTarget 0) (Client.peer (client false))).1 = Ok (Resp.Target c) /\ tc_bytes c = old)
    by (eexists; split; vm_compute; reflexivity).
  destruct H as (c & Ha & Hc). exists c. split; [exact Hc|]. split; [exact Ha|].
  exact (proj1 (monitor_keeps_files (setup false) true (Client.peer (client false)) 0 desk_tidy desk_idle) c Ha).
Defined.

Definition after (confirm : bool) : @Engine.World Wire (list AuditRecord) := (run confirm (change None)).2.

Lemma change_applied : exists report,
  execute (Peer0 := peer false) (front false) (change None) me AllowAll (world false) = (Ok (Out.Applied report), after false).
Proof.
  assert (H : exists report, (execute (Peer0 := peer false) (front false) (change None) me AllowAll (world false)).1 = Ok (Out.Applied report))
    by (eexists; vm_compute; reflexivity).
  destruct H as [report H]. exists report. rewrite <- H. exact (surjective_pairing _).
Qed.

Lemma module_shown : exists view,
  (execute (Peer0 := peer false) (front false) (Op.GetModule (lit "hosts")) me AllowAll (after false)).1 = Ok (Out.Module_ view).
Proof. eexists. vm_compute. reflexivity. Qed.

(** The target 0 is the only one, and its text is known. *)
Lemma desk_content target b : wire_content (setup false) (Client.peer (client false)) target = Some b -> b = old.
Proof.
  unfold wire_content, Allow.target. destruct (N.to_nat target) as [|n]; vm_compute; [by intros [= <-]|done].
Qed.

Lemma desk_writes_text target b src out : wire_content (setup false) (Client.peer (client false)) target = Some b -> from_utf8 b = Some src ->
  apply_json HostsModule Ok src model = Ok out -> Forall is_char out.
Proof.
  intros ->%desk_content [= <-] H. vm_compute in H. injection H as <-. repeat (constructor; [left; reflexivity|]). constructor.
Qed.

Lemma apply_then_get_witness : exists view, mv_model view = Some model
  /\ (execute (Peer0 := peer false) (front false) (Op.GetModule (lit "hosts")) me AllowAll (after false)).1 = Ok (Out.Module_ view).
Proof.
  destruct change_applied as [report Ha]. destruct module_shown as [view Hg]. exists view. split; [|exact Hg].
  refine (apply_then_get (Peer0 := peer false) (TargetStore0 := desk_store) (front false) (tables false) HostsModule (lit "hosts") (descriptor false) (mkModel []) [] Ok Ok model model
    None None report view me me AllowAll AllowAll (world false) (after false) _ _ _ _ _ _ _ desk_idle desk_writes_text Ha Hg).
  - reflexivity.
  - by intros m v [= ->].
  - reflexivity.
  - reflexivity.
  - reflexivity.
  - reflexivity.
  - vm_compute. reflexivity.
Defined.
